(* ===== verification/_CoqProject ===== *)
-Q . S2P
Prelude.v
Dfs.v
Keys.v
Kv.v
Lmdb.v
LmdbEnv.v
NodeRec.v
Spec.v
Store.v
Views.v
Shape.v
Graph.v
Links.v
Inv.v
Init.v
Reads.v
Paths.v
CStr.v
Diff.v
StoreProps.v
Types.v
MemStore.v
MemSim.v
MemOps.v
Oracle.v
OracleProps.v
Content.v
ContentProps.v
Di.v
FsStat.v
Host.v
Loader.v
Xdr.v
Nfs3.v
NfsSteps.v
NfsSafe.v
NfsPages.v
NfsProps.v
Calls.v
Bigtree.v
BigtreeProps.v
Nfs4State.v
Nfs4.v
Nfs4StateProps.v
Nfs4Safe.v
Nfs4Props.v
Nfs4Pages.v
Nfs4Walk.v
Nfs4Trace.v
Nfs4Wit.v
NfsConn.v
Sections.v
Shared.v
Pool.v
Shared4.v
SharedWalk.v
Threads.v
LuaApi.v
LuaCtl.v
Perf.v
Plugins.v
Options.v
