(* ===== verification/Prelude.v ===== *)
(** * prfs: a verification development of the pseudo-random file system

    prfs is a versioned file system that stores metadata only: file bytes are
    generated from a seed. This library models the store, the reference model
    the tests compare it with, the content generator, the host process with its
    plugins - the two NFS front-ends, the builder, the Lua console, the
    benchmark - and proves what makes them correct. Paths below are relative to
    the repository.

    ** The program and its model

    - Storage (include/prfs/kvstore.hpp, src/storage/memory/kv.cpp): an ordered
      key/value engine with six sub-stores and write transactions. [Kv.KvEngine]
      is the interface with its laws, [Kv.MemEngine] the memory engine.
      Everything above is proved for any engine that satisfies the interface.
      [Lmdb] is the cursor and the transaction of the LMDB engine
      (src/storage/lmdb/kv.cpp) over the library liblmdb, the class [Lmdb.Lmdb];
      [LmdbEnv] is the opening of a directory and the transactions on it, over
      the file system and the library's files and handles ([LmdbEnv.LmdbDisk]).
    - The store (src/core/prfs.cpp, class [PrfsStore]). [Keys] is the encoding of
      keys, [NodeRec] the record of a node with its serialization, [Store] the
      class: one definition for each member function, on a state with the
      members [m_next], [m_cur], [m_root], [m_clock] and the engine's data. A
      mutator works on a copy of the data that [end_txn] commits or drops.
      [Inv.Op] and [Inv.exec] are the interface [IPrfs] as operations.
    - The reference model (src/reference/memstore.cpp): [MemStore], version lists
      per node and lifetime intervals per name.
    - The content provider (src/content/content.cpp, src/rng/rng.cpp): [Content].
      Philox and Threefry (Random123) are a parameter, the block function of a
      generator; the alphabet size, computed in floating point by the code, is
      the exact rounding.
    - The service registry (include/prfs/di.hpp): [Di]. The volume projection
      (src/nfs/fsstat.cpp): [FsStat]. The host (src/host/host.cpp): [Host],
      which composes store, registry and content into the bytes of a file.
    - The host process: [Loader] has the choice of the engine
      (src/core/open.cpp), the loader of plugins (class [Loader] of
      src/host/host.cpp), [main] from the parsed command line to the exit
      status (src/host/main.cpp), the wait for the signal, and the null plugin.
      A plugin is a record of its functions on the [HostState] (store, options,
      running services, ports); shared objects and directories are an [Env];
      the log of a loader records its calls in order. [Plugins] is the process
      with the six plugins of the repository, [Options] the lists of options
      the services give.
    - The NFSv3 front-end (plugins/nfsv3/nfsv3.cpp): [Xdr] is its reader and
      writer, [Nfs3] every NFSv3 and MOUNT procedure, [dispatch] and one round
      of a session, given its message. A procedure is a program ([Proc]) over the store, the
      cursor of the call, the reply and the cookie cache; [None] is an access
      outside a buffer.
    - The NFSv4.0 front-end (plugins/nfsv4/nfsv4.cpp): [Nfs4State] has the state
      that the two mutexes guard (clients, opens, byte-range locks), one
      definition for each critical section; [Nfs4] has every operation of a
      COMPOUND, the attribute codec, the loop, the reply and one round of a
      session. The order in which a hash table is walked is the interface
      [MapOrder], [std::hash] a parameter.
    - Connections ([start], [stop], [listener] and [session] of both front-ends):
      [NfsConn]. A session is the code between two [co_await]s
      ([session_turn]) on what has been received; a server is a map of
      sessions on a core of store, cookie caches and client state. [Threads]
      has COMPOUNDs on several threads, each in the middle of its loop, whose
      operations - the sections of the store's lock - interleave.
    - Calls at once: an operation that holds the store's lock shared runs
      together with others, and its cookie cache changes under it. [Sections]
      has programs over the sections of the cache's mutex ([Sec]), [Shared] an
      NFSv3 call as such a program, [Pool] the threads of the NFSv3 server under
      the readers-writer lock, [Shared4] READDIR of NFSv4.
    - The Lua interface (src/lua/bindings.cpp, src/lua/harness.cpp): [LuaApi], the
      tables every bound function builds and its arguments. A script is a
      tree of prints and calls ([Script]), the interpreter a parameter that
      gives it. The console (plugins/luactl/luactl.cpp): [LuaCtl], a session's
      lines and their evaluation, and the threads and descriptors of the
      sessions as a state machine.
    - The benchmark (plugins/perf/perf.cpp): [Perf], its options, its search for
      a file and what its passes read; not the clock.
    - The bigtree plugin (plugins/bigtree/bigtree.cpp), which builds a synthetic
      tree with files, hard links, symbolic links and daily snapshots through
      the store's operations: [Bigtree]. The random generator and its
      distributions are the interface [Draws]. [CStr] is what the front-ends and
      this plugin use of the library to read numbers.

    The parts meet in these places: a front-end changes the store by
    [Inv.exec] only, and so do the builder and the console; [Host.host_read]
    takes attributes from the store and bytes from the provider the registry
    selects; the store, both front-ends and the reference model share handles,
    errors and operations; [Loader.main] composes engine, store, options,
    registry and plugins. [Calls] says how far a sequence of operations is from
    the end of ids and link counts.

    ** What is proved

    - [Spec] is the abstract file system: a tree of attributes and entries, where
      a snapshot is a full copy. [Views], [Shape], [Graph], [Links], [Inv] and
      [Init] give the abstraction of the store's data, its invariant, and that
      every operation preserves it and is a step of the abstract file system;
      [Reads] and [Diff] what the reads return. [StoreProps] states the
      results: refinement, isolation of snapshots, structure of every
      snapshot's tree, failed operations, renames, reopening, listings, pages,
      snapshot comparison, statistics. [Types]: no operation changes the type
      of a node, and the typed mutators keep to their types.
    - [MemSim], [MemOps] and [Oracle] do the same for the reference model, so
      both implementations agree on errors and reads ([OracleProps]).
    - [Lmdb]: a client gets the same answers from LMDB as from any engine of the
      interface, up to the first [put] that the library refuses, and a
      transaction is all or nothing. [LmdbEnv]: what was committed, and nothing
      else, is there when the directory is opened again.
    - [ContentProps]: a read is a function of position only, clipped to the size;
      the alphabet; the configuration blob.
    - [NfsSteps] is a program logic for procedures ([hoare k p Q]: at most [k]
      operations, each within its precondition), [NfsSafe] a specification of
      every NFSv3 procedure in it, [NfsPages] the pages of READDIR, [NfsProps]
      the results: no message a client sends takes the store out of its
      reachable states or changes a snapshot, what runs under the shared lock
      does not write, a client that follows the cookies lists a directory
      once, file handles last.
    - [Nfs4Safe] lifts that logic to COMPOUND, [Nfs4Props] has the safety results
      and what WRITE needs, [Nfs4Pages] READDIR, the attribute bitmaps and the
      round trip of attributes, [Nfs4Walk] a client that decodes READDIR's
      replies and lists a directory once. [Nfs4StateProps] is the state machine of
      clients, opens and locks, over any interleaving of its critical
      sections: locks exclude, a client has one lease, state belongs to a
      lease, the handshake, share reservations. [Nfs4Trace] shows that the
      handlers implement this machine and that a COMPOUND stops at the first
      error. [Nfs4Wit] applies the NFSv4 theorems at concrete calls.
    - [Paths] says what a path name leads to, and that paths last while a tree only
      grows; [BigtreeProps] is a logic for the builder's programs within one
      directory ([runs]) and shows that a build in an empty store succeeds,
      leaves no orphan and no empty file, that its symbolic links lead to files,
      and that each day is sealed.
    - [NfsConn]: a session does not depend on how its bytes are cut, its replies
      come in the order of the calls, and any interleaving of connections of
      both servers with other operations keeps the store reachable and its
      snapshots as they are. [Threads]: so does any interleaving of operations
      of COMPOUNDs, which moves the client state by guarded events only; and a
      COMPOUND that is not interrupted is the sequential one.
    - [Pool]: whatever NFSv3 calls run at once, each reply is that of a server
      that handles one call after the other, in the order in which they let go
      of the lock; and a call under the shared lock comes to its reply.
      [Shared4]: READDIR of NFSv4 is one step of [Threads]. [SharedWalk]: a client
      lists a directory once, whatever others do to the cookie cache meanwhile.
    - [Loader]: in every run of [main], started services are stopped once and in
      reverse, then plugins are destroyed and closed in reverse, whatever
      fails or throws. [Plugins]: with the plugins of the repository the store
      is reachable at the end of such a run. [Options]: the defaults the
      services list are those they use.
    - [LuaApi]: what a script reads from a table is what the store returned, and
      [content.read] agrees with the host. [LuaCtl]: a console evaluates
      exactly the lines it is sent, keeps the store reachable and its
      snapshots as they are, and its threads are joined once each. [Perf]: the
      search finds a file a path leads to; a pass reads what it was asked to.

    Deviations are lemmas beside the component they concern:
    [StoreProps.pages_hide_empty_name], [OracleProps.oracle_reports_replaced] and
    [oracle_links_snapdir], [ContentProps.dedup_across_files] and
    [content_read_overruns], [NfsProps.str_overrun] and
    [truncated_create_succeeds], [Nfs4StateProps.open_upgrade_unchecked],
    [lock_past_end], [unlock_drops_range] and [nfs4_lock_race];
    [Lmdb.uplink_key_ok] and [LmdbEnv.open_unchecked]; [BigtreeProps.forced_build_orphans] and
    [parseSize_wraps]; [Loader.wait_lost] and [named_sorted];
    [NfsConn.second_server_fails] and [port_wraps];
    [LuaCtl.console_runs_twice] and [stop_shuts_foreign_fd].

    ** Bounds, fuel and room

    Words are [Z] with the wrap-around written out ([u32], [u64]); [in64] and the
    like are the ranges. Recursion that is not structural has fuel: a cursor
    walk one more than the number of keys ([Kv.walk_fuel]); the depth-first
    search of the cycle check the number of links and two more
    ([Store.reachable_fuel], enough by [Dfs.dfs_total]); a READDIR scan one
    more than the number of entries ([Nfs3.page_fuel], every page but the last
    being non-empty). Each has a theorem that the result is there and is the
    intended one. A COMPOUND of the code runs at most 4096 operations, twelve
    operations of the store each ([Nfs4Safe.MAX_STEPS]); a build runs at most
    [BigtreeProps.bt_ops] operations. [NfsSteps.room] says that
    ids and link counts, which the code increments without a check, are still
    that far from wrapping; a server's core counts what its messages may have
    done ([NfsConn.k_spent], which is not in the code). A session turns at most
    once for each byte received ([NfsConn.session_fuel], enough by
    [pump_fuel]); a console's loop once for each byte of its buffer
    ([LuaCtl.ctl_recv], enough by [console_lines]); a pass of the benchmark
    once for each byte asked for ([Perf.pass_fuel], enough by
    [perf_pass_total]); its search is bounded by the code ([Perf.BUDGET]).

    ** Not modelled

    Sockets: of asio only that a read returns when its bytes are there.
    [NfsConn] handles a message at a time, [Threads] an operation of a COMPOUND
    at a time, each in any order. What operations that hold the store's lock
    shared do to each other is left to [Pool] and [Shared4] for the cookie caches
    and to [Nfs4StateProps], which interleaves the critical sections on the
    client state one by one; there is no single machine of all three.
    Logging, and what exists for it only (the totals of the bigtree and perf
    plugins). The clock and the rates of perf. liblmdb, its files and the random
    generators, which are libraries. The parsing of the command line (CLI11),
    [dlopen] and the directories on disk are parameters of [Loader]; the
    interpreter and the conversions of sol2 are parameters of [LuaApi] and
    [LuaCtl], and scripts that never end are left out: they hold the store's lock
    forever.
    Tests, scripts and examples. *)
From Stdlib Require Export Strings.String.
From stdpp Require Export prelude gmap list sorting.
From Stdlib Require Export ZArith Strings.Byte Lia.

Local Open Scope Z_scope.
Set Warnings "-clear-no-such-hyp".

Declare Scope prfs_scope.
Delimit Scope prfs_scope with prfs.

(** The hint database of the development: well-ranged words, key lengths. *)
Create HintDb prfs discriminated.
Create Rewrite HintDb prfs.

(** ** Machine words *)

(** [w]-bit unsigned arithmetic is [Z] with the wrap-around written out. *)
Definition u8 (z : Z) : Z := z mod 2 ^ 8.
Definition u32 (z : Z) : Z := z mod 2 ^ 32.
Definition u64 (z : Z) : Z := z mod 2 ^ 64.

#[global] Arguments u8 : simpl never.
#[global] Arguments u32 : simpl never.
#[global] Arguments u64 : simpl never.

Definition in8 (z : Z) : Prop := 0 <= z < 2 ^ 8.
Definition in32 (z : Z) : Prop := 0 <= z < 2 ^ 32.
Definition in64 (z : Z) : Prop := 0 <= z < 2 ^ 64.

Global Instance in8_dec z : Decision (in8 z).
Proof. unfold in8. apply _. Defined.
Global Instance in32_dec z : Decision (in32 z).
Proof. unfold in32. apply _. Defined.
Global Instance in64_dec z : Decision (in64 z).
Proof. unfold in64. apply _. Defined.

Lemma u32_range z : in32 (u32 z).
Proof. apply Z.mod_pos_bound. lia. Qed.
Lemma u64_range z : in64 (u64 z).
Proof. apply Z.mod_pos_bound. lia. Qed.
Lemma u32_small z : in32 z → u32 z = z.
Proof. apply Z.mod_small. Qed.
Lemma u64_small z : in64 z → u64 z = z.
Proof. apply Z.mod_small. Qed.

#[export] Hint Resolve u32_range u64_range : prfs.

(** [word_lia]: linear arithmetic that sees through the word predicates. *)
Ltac word_lia := unfold in8, in32, in64 in *; lia.

#[export] Hint Extern 2 (in64 _) => word_lia : prfs.
#[export] Hint Extern 2 (in32 _) => word_lia : prfs.

(** Shift-and-or is multiply-and-add when the low part fits. *)
Lemma lor_shift_add x b n :
  0 <= n → 0 <= b < 2 ^ n → Z.lor (Z.shiftl x n) b = x * 2 ^ n + b.
Proof.
  intros Hn Hb. rewrite <- Z.shiftl_mul_pow2 by done.
  symmetry. apply Z.add_nocarry_lor, Z.bits_inj'. intros i Hi.
  rewrite Z.land_spec, Z.bits_0. destruct (decide (i < n)).
  - by rewrite Z.shiftl_spec_low.
  - replace (Z.testbit b i) with false; [by rewrite andb_false_r|].
    symmetry. rewrite <- (Z.mod_small b (2 ^ n)) by done. apply Z.mod_pow2_bits_high. lia.
Qed.

Lemma land_low x n : 0 <= n → Z.land x (2 ^ n - 1) = x mod 2 ^ n.
Proof. intros Hn. rewrite <- Z.land_ones by done. f_equal. rewrite Z.ones_equiv. lia. Qed.

(** ** Bytes and byte strings *)

Abbreviation bytes := (list byte).

Global Instance byte_eq_dec : EqDecision byte := Byte.byte_eq_dec.
Global Instance byte_countable : Countable byte :=
  inj_countable Byte.to_N Byte.of_N Byte.of_to_N.

(** [uint8_t(c)] of a [char] and the truncating conversion back. *)
Definition bz (b : byte) : Z := Z.of_N (Byte.to_N b).
Definition zb (z : Z) : byte :=
  match Byte.of_N (Z.to_N (z mod 256)) with Some b => b | None => x00 end.

Lemma bz_range b : 0 <= bz b < 256.
Proof. unfold bz. pose proof (Byte.to_N_bounded b). lia. Qed.

Lemma bz_zb z : bz (zb z) = z mod 256.
Proof.
  unfold zb, bz. pose proof (Z.mod_pos_bound z 256 ltac:(lia)).
  destruct (Byte.of_N (Z.to_N (z mod 256))) as [b|] eqn:E.
  - apply Byte.to_of_N in E. lia.
  - apply Byte.of_N_None_iff in E. lia.
Qed.

Lemma bz_inj b c : bz b = bz c → b = c.
Proof.
  unfold bz. intros H%N2Z.inj.
  pose proof (Byte.of_to_N b) as Hb. pose proof (Byte.of_to_N c) as Hc. congruence.
Qed.

Lemma zb_bz b : zb (bz b) = b.
Proof. apply bz_inj. rewrite bz_zb. pose proof (bz_range b). apply Z.mod_small. lia. Qed.

(** A C string literal as bytes. *)
Definition str (s : String.string) : bytes := String.list_byte_of_string s.
Arguments str s%_string_scope.

(** *** Lexicographic order: [std::string::operator<] (unsigned bytes, then length). *)
Fixpoint bytes_ltb (a b : bytes) : bool :=
  match a, b with
  | _, [] => false
  | [], _ :: _ => true
  | x :: a', y :: b' =>
      if bz x <? bz y then true else if bz x =? bz y then bytes_ltb a' b' else false
  end.

Definition bytes_lt (a b : bytes) : Prop := bytes_ltb a b = true.
Definition bytes_le (a b : bytes) : Prop := bytes_ltb b a = false.

Lemma bytes_ltb_irrefl a : bytes_ltb a a = false.
Proof. induction a as [|x a IH]; simpl; [done|]. by rewrite Z.ltb_irrefl, Z.eqb_refl. Qed.

Lemma bytes_ltb_trans a b c :
  bytes_ltb a b = true → bytes_ltb b c = true → bytes_ltb a c = true.
Proof.
  revert b c. induction a as [|x a IH]; intros [|y b] [|z c]; simpl; try done.
  repeat case_match; rewrite ?Z.ltb_lt, ?Z.ltb_ge, ?Z.eqb_eq, ?Z.eqb_neq in *;
    try done; try lia; eauto.
Qed.

Lemma bytes_ltb_total a b : bytes_ltb a b = false → bytes_ltb b a = false → a = b.
Proof.
  revert b. induction a as [|x a IH]; intros [|y b]; simpl; try done.
  repeat case_match; rewrite ?Z.ltb_lt, ?Z.ltb_ge, ?Z.eqb_eq, ?Z.eqb_neq in *;
    try done; try lia.
  intros ??. f_equal; [by apply bz_inj | auto].
Qed.

Lemma bytes_ltb_asym a b : bytes_ltb a b = true → bytes_ltb b a = false.
Proof.
  intros H. destruct (bytes_ltb b a) eqn:E; [|done].
  pose proof (bytes_ltb_trans _ _ _ H E). by rewrite bytes_ltb_irrefl in *.
Qed.

Lemma bytes_ltb_false a b : bytes_ltb a b = false ↔ a = b ∨ bytes_ltb b a = true.
Proof.
  split.
  - intros H. destruct (bytes_ltb b a) eqn:E; [by right | left; by apply bytes_ltb_total].
  - intros [->|H]; [apply bytes_ltb_irrefl | by apply bytes_ltb_asym].
Qed.

Global Instance bytes_lt_trans : Transitive bytes_lt.
Proof. intros a b c. apply bytes_ltb_trans. Qed.
Global Instance bytes_lt_irrefl : Irreflexive bytes_lt.
Proof. intros a H. unfold bytes_lt in H. by rewrite bytes_ltb_irrefl in H. Qed.
Global Instance bytes_lt_dec a b : Decision (bytes_lt a b).
Proof. unfold bytes_lt. apply _. Defined.

Global Instance bytes_le_dec a b : Decision (bytes_le a b).
Proof. unfold bytes_le. apply _. Defined.

Lemma bytes_le_lt a b : bytes_le a b ↔ a = b ∨ bytes_lt a b.
Proof. unfold bytes_le, bytes_lt. rewrite bytes_ltb_false. naive_solver. Qed.
Lemma bytes_le_trans a b c : bytes_le a b → bytes_le b c → bytes_le a c.
Proof. rewrite !bytes_le_lt. intros [->|?] [->|?]; auto. right. by etrans. Qed.
Lemma bytes_lt_le_trans a b c : bytes_lt a b → bytes_le b c → bytes_lt a c.
Proof. rewrite bytes_le_lt. intros ? [->|?]; [done|]. by etrans. Qed.
Lemma bytes_lt_not_le a b : bytes_lt a b → ¬ bytes_le b a.
Proof. unfold bytes_le, bytes_lt. congruence. Qed.
Lemma bytes_not_le a b : ¬ bytes_le a b ↔ bytes_lt b a.
Proof. unfold bytes_le, bytes_lt. by destruct (bytes_ltb b a). Qed.

Lemma bytes_ltb_app p a b : bytes_ltb (p ++ a) (p ++ b) = bytes_ltb a b.
Proof. induction p as [|x p IH]; simpl; [done|]. by rewrite Z.ltb_irrefl, Z.eqb_refl. Qed.

(** Strings of equal length are ordered by their first difference. *)
Lemma bytes_ltb_app_ne p q a b :
  length p = length q → p ≠ q → bytes_ltb (p ++ a) (q ++ b) = bytes_ltb p q.
Proof.
  revert q. induction p as [|x p IH]; intros [|y q] Hl Hne; simpl in *; try done.
  destruct (bz x <? bz y) eqn:?; [done|]. destruct (bz x =? bz y) eqn:E; [|done].
  apply Z.eqb_eq, bz_inj in E as ->. apply IH; [lia | congruence].
Qed.

(** ** Lists *)

(** A list sorted by a strict order is determined by its elements. *)
Lemma sorted_ext {A} (R : relation A) `{!Transitive R, !Irreflexive R} (l k : list A) :
  StronglySorted R l → StronglySorted R k → (∀ x, x ∈ l ↔ x ∈ k) → l = k.
Proof.
  intros Hl. revert k. induction Hl as [|x l Hl IH Hx]; intros k Hk Heq.
  { destruct k as [|y k]; [done|]. exfalso. eapply not_elem_of_nil, (Heq y). left. }
  destruct Hk as [|y k Hk Hy]; [exfalso; eapply not_elem_of_nil, (Heq x); left|].
  rewrite Forall_forall in Hx, Hy.
  assert (x = y) as ->.
  { pose proof (proj1 (Heq x) ltac:(left)) as [|Hxk]%elem_of_cons; [done|].
    pose proof (proj2 (Heq y) ltac:(left)) as [|Hyl]%elem_of_cons; [done|].
    by destruct (irreflexivity R x (transitivity (Hx _ Hyl) (Hy _ Hxk))). }
  f_equal. apply IH; [done|]. intros z. specialize (Heq z). rewrite !elem_of_cons in Heq.
  split; intros Hz.
  - destruct (proj1 Heq (or_intror Hz)) as [->|]; [|done].
    by destruct (irreflexivity R y (Hx _ Hz)).
  - destruct (proj2 Heq (or_intror Hz)) as [->|]; [|done].
    by destruct (irreflexivity R y (Hy _ Hz)).
Qed.

Lemma sorted_NoDup {A} (R : relation A) `{!Irreflexive R} (l : list A) :
  StronglySorted R l → NoDup l.
Proof.
  induction 1 as [|x l Hl IH Hx]; constructor; [|done].
  rewrite Forall_forall in Hx. intros Hin. by destruct (irreflexivity R x (Hx _ Hin)).
Qed.

Lemma sorted_fmap {A B} (R : relation A) (S : relation B) (f : A → B) (l : list A) :
  (∀ x y, x ∈ l → y ∈ l → R x y → S (f x) (f y)) →
  StronglySorted R l → StronglySorted S (f <$> l).
Proof.
  intros Hf Hl. induction Hl as [|x l Hl IH Hx]; simpl; constructor.
  - apply IH. intros; apply Hf; [by right | by right | done].
  - rewrite Forall_forall in Hx. apply Forall_forall. intros y (z & -> & Hz)%list_elem_of_fmap.
    apply Hf; [by left | by right | by apply Hx].
Qed.

(** Counting by membership: adding or removing one element. *)
Lemma NoDup_length_insert {A} (l k : list A) (y : A) :
  NoDup l → NoDup k → y ∉ l → (∀ x, x ∈ k ↔ x = y ∨ x ∈ l) → length k = S (length l).
Proof.
  intros Hl Hk Hy Heq. change (S (length l)) with (length (y :: l)).
  apply Permutation_length, NoDup_Permutation; [done | by constructor |].
  intros x. by rewrite Heq, elem_of_cons.
Qed.

Lemma NoDup_length_ext {A} (l k : list A) :
  NoDup l → NoDup k → (∀ x, x ∈ k ↔ x ∈ l) → length k = length l.
Proof. intros Hl Hk Heq. by apply Permutation_length, NoDup_Permutation. Qed.

Lemma NoDup_length_incl {A} (l k : list A) :
  NoDup l → (∀ x, x ∈ l → x ∈ k) → (length l <= length k)%nat.
Proof. intros Hl Hin. by apply submseteq_length, NoDup_submseteq. Qed.

Lemma take_app_eq {A} (p q : list A) : take (length p) (p ++ q) = p.
Proof. by rewrite take_app_length. Qed.

(** A string starts with [p] exactly when its first [length p] bytes are [p]. *)
Lemma take_prefix {A} (p k : list A) : take (length p) k = p ↔ ∃ s, k = p ++ s.
Proof.
  split.
  - intros H. exists (drop (length p) k). rewrite <- H at 1. by rewrite take_drop.
  - intros [s ->]. apply take_app_eq.
Qed.

Lemma elem_of_rev_append {A} (l k : list A) x : x ∈ rev_append l k ↔ x ∈ l ∨ x ∈ k.
Proof. revert k. induction l as [|y l IH]; intros k; simpl; [set_solver|]. rewrite IH. set_solver. Qed.
Lemma length_rev_append {A} (l k : list A) : length (rev_append l k) = (length l + length k)%nat.
Proof. revert k. induction l as [|y l IH]; intros k; simpl; [done|]. rewrite IH. simpl. lia. Qed.

Lemma sorted_filter {A} (R : relation A) (P : A → Prop) `{!∀ x, Decision (P x)} (l : list A) :
  StronglySorted R l → StronglySorted R (filter P l).
Proof.
  induction 1 as [|x l Hl IH Hx]; [constructor|]. rewrite filter_cons. case_decide; [|done].
  constructor; [done|]. rewrite Forall_forall in Hx. apply Forall_forall.
  intros y [_ Hy]%list_elem_of_filter. auto.
Qed.

(** Filtering a sorted list by its [k]-th element drops the first [k]. *)
Lemma filter_after_take {A} (R : relation A) `{!Transitive R, !Irreflexive R}
    `{!∀ x y, Decision (R x y)} (l : list A) k x :
  StronglySorted R l → last (take k l) = Some x → filter (R x) l = drop k l.
Proof.
  intros Hs Hk. apply last_Some in Hk as [l0 Hk]. pose proof Hs as Hs'.
  rewrite <- (take_drop k l), Hk in Hs'.
  apply StronglySorted_app in Hs' as (H12 & H1 & H2). apply StronglySorted_app in H1 as (H0 & _ & _).
  apply (sorted_ext R); [by apply sorted_filter|done|]. intros y. rewrite list_elem_of_filter.
  rewrite <- (take_drop k l) at 1. rewrite Hk, !elem_of_app, list_elem_of_singleton. split.
  - intros [Hxy [[Hy|Hy]|Hy]]; [| |done].
    + specialize (H0 y x Hy ltac:(left)). destruct (irreflexivity R x). by etrans.
    + subst. by destruct (irreflexivity R x).
  - intros Hy. split; [|auto]. apply H12; [|done]. apply elem_of_app. right. left.
Qed.

Lemma length_omap_le {A B} (f : A → option B) (l : list A) : (length (omap f l) <= length l)%nat.
Proof. induction l as [|x l IH]; csimpl; [done|]. destruct (f x); simpl; lia. Qed.

Lemma sorted_omap {A B} (R : relation A) (S : relation B) (f : A → option B) (l : list A) :
  (∀ x y u v, R x y → f x = Some u → f y = Some v → S u v) →
  StronglySorted R l → StronglySorted S (omap f l).
Proof.
  intros HR. induction 1 as [|x l Hl IH Hx]; simpl; [constructor|]. destruct (f x) eqn:E; [|done].
  constructor; [done|]. apply Forall_forall. intros y (x' & Hx' & Hy)%list_elem_of_omap.
  rewrite Forall_forall in Hx. eauto.
Qed.

Lemma sorted_bind {A B} (R : relation A) (S : relation B) (f : A → list B) (l : list A) :
  (∀ x, x ∈ l → StronglySorted S (f x)) →
  (∀ x y u v, R x y → u ∈ f x → v ∈ f y → S u v) →
  StronglySorted R l → StronglySorted S (l ≫= f).
Proof.
  intros Hf HR. induction 1 as [|x l Hl IH Hx]; [constructor|]. change ((x :: l) ≫= f) with (f x ++ (l ≫= f)).
  apply StronglySorted_app. split_and!; [|apply Hf; left|apply IH; intros; apply Hf; by right].
  intros u v Hu (y & Hv & Hy)%list_elem_of_bind. rewrite Forall_forall in Hx. eauto.
Qed.

Lemma Sorted_weaken {A} (R S : relation A) (l : list A) :
  (∀ x y, R x y → S x y) → Sorted R l → Sorted S l.
Proof. intros HR. induction 1 as [|x l Hl IH Hx]; constructor; [done|]. destruct Hx; constructor; auto. Qed.

Lemma filter_all {A} (P : A → Prop) `{!∀ x, Decision (P x)} (l : list A) : Forall P l → filter P l = l.
Proof. induction 1 as [|x l Hx Hl IH]; [done|]. by rewrite filter_cons_True, IH. Qed.
Lemma filter_none {A} (P : A → Prop) `{!∀ x, Decision (P x)} (l : list A) : Forall (λ x, ¬ P x) l → filter P l = [].
Proof. induction 1 as [|x l Hx Hl IH]; [done|]. by rewrite filter_cons_False, IH. Qed.

Lemma NoDup_fmap_eq {A B} (f : A → B) (l : list A) x y :
  NoDup (f <$> l) → x ∈ l → y ∈ l → f x = f y → x = y.
Proof.
  induction l as [|z l IH]; [set_solver|]. csimpl. intros [Hz Hl]%NoDup_cons Hx Hy E.
  apply elem_of_cons in Hx as [->|Hx]; apply elem_of_cons in Hy as [->|Hy]; auto; destruct Hz.
  - rewrite E. by apply list_elem_of_fmap_2.
  - rewrite <- E. by apply list_elem_of_fmap_2.
Qed.
