(* ===== verification/Dfs.v ===== *)
(** * Dfs: the depth-first search behind the cycle check

    Both stores decide whether a directory reaches another by the same loop: an
    explicit stack, a set of seen nodes, an early exit on the target. Here over
    an abstract successor function: the answer is right, and fuel proportional
    to the number of links is enough. *)
From S2P Require Import Prelude.
Local Open Scope Z_scope.
Set Warnings "-clear-no-such-hyp".

Section Dfs.
Context (children : Z → list Z).
Implicit Types (n c to : Z) (stack : list Z) (seen : gset Z).

(** The head of [stack] is [stack.back()]; new children are pushed in order. *)
Fixpoint dfs_loop (fuel : nat) (to : Z) (stack : list Z) (seen : gset Z) : option bool :=
  match fuel with
  | O => None
  | S fuel' =>
      match stack with
      | [] => Some false
      | n :: stack' =>
          if n =? to then Some true
          else if decide (n ∈ seen) then dfs_loop fuel' to stack' seen
          else dfs_loop fuel' to (rev_append (children n) stack') ({[n]} ∪ seen)
      end
  end.

(** The search stops with [false] only on a closed set without the target. *)
Lemma dfs_false fuel to stack seen :
  dfs_loop fuel to stack seen = Some false → to ∉ seen →
  (∀ n c, n ∈ seen → c ∈ children n → c ∈ seen ∨ c ∈ stack) →
  ∃ S : gset Z, seen ⊆ S ∧ (∀ n, n ∈ stack → n ∈ S) ∧ (to ∉ S) ∧
    (∀ n c, n ∈ S → c ∈ children n → c ∈ S).
Proof.
  revert stack seen. induction fuel as [|fuel IH]; intros [|n stack] seen; simpl; try done.
  - intros _ Hto Hcl. exists seen. split_and!; [done|set_solver|done|]. intros n c Hn Hc.
    destruct (Hcl n c Hn Hc); set_solver.
  - destruct (Z.eqb_spec n to) as [|Hne]; [done|]. case_decide as Hs; intros Hl Hto Hcl.
    + destruct (IH _ _ Hl Hto) as (S & HS1 & HS2 & HS3 & HS4).
      { intros n' c Hn Hc. destruct (Hcl n' c Hn Hc); set_solver. }
      exists S. split_and!; [done|set_solver|done..].
    + destruct (IH _ _ Hl) as (S & HS1 & HS2 & HS3 & HS4); [set_solver| |].
      { intros n' c Hn Hc. rewrite elem_of_rev_append.
        apply elem_of_union in Hn as [->%elem_of_singleton|Hn]; [set_solver|].
        destruct (Hcl n' c Hn Hc) as [|[->|]%elem_of_cons]; set_solver. }
      exists S. split_and!; [set_solver| |done..].
      intros n' [->|Hn]%elem_of_cons; [set_solver|]. apply HS2.
      rewrite elem_of_rev_append. by right.
Qed.

Lemma dfs_true fuel to stack seen :
  dfs_loop fuel to stack seen = Some true →
  ∃ n, n ∈ stack ∧ rtc (λ x y, y ∈ children x) n to.
Proof.
  revert stack seen. induction fuel as [|fuel IH]; intros [|n stack] seen; simpl; try done.
  destruct (Z.eqb_spec n to) as [->|Hne].
  { intros _. exists to. split; [by left|done]. }
  case_decide as Hs; intros Hl; destruct (IH _ _ Hl) as (x & Hx & Hr).
  - exists x. split; [by right|done].
  - rewrite elem_of_rev_append in Hx. destruct Hx as [Hx|Hx].
    + exists n. split; [by left|]. by eapply rtc_l.
    + exists x. split; [by right|done].
Qed.

(** A search from one node decides reachability. *)
Lemma dfs_correct fuel from to b :
  dfs_loop fuel to [from] ∅ = Some b → b = true ↔ rtc (λ x y, y ∈ children x) from to.
Proof.
  intros Hb. destruct b; split; try done.
  - intros _. by apply dfs_true in Hb as (n & ->%list_elem_of_singleton & Hr).
  - intros Hr. apply dfs_false in Hb as (S & _ & HS2 & HS3 & HS4); [|set_solver..].
    destruct HS3. assert (from ∈ S) as Hf by (apply HS2; by left). clear HS2.
    induction Hr as [x|x y z Hxy Hyz IH]; [done|]. apply IH. by apply (HS4 x).
Qed.

(** Each link is pushed at most once: [links] lists them, [owner] is where each
    one starts. *)
Section Fuel.
Context {K : Type} (links : list K) (owner : K → Z).
Hypothesis Hchildren : ∀ n, (length (children n) <= length (filter (λ k, owner k = n) links))%nat.

Definition unseen (seen : gset Z) : list K := filter (λ k, owner k ∉ seen) links.

Lemma unseen_cons n seen :
  n ∉ seen →
  (length (unseen ({[n]} ∪ seen)) + length (filter (λ k, owner k = n) links) = length (unseen seen))%nat.
Proof.
  intros Hn. unfold unseen. clear Hchildren. induction links as [|k l IH]; [done|].
  rewrite !filter_cons. repeat case_decide; simpl; first [lia | exfalso; set_solver].
Qed.

Lemma dfs_fuel fuel to stack seen :
  (length stack + length (unseen seen) < fuel)%nat → is_Some (dfs_loop fuel to stack seen).
Proof.
  revert stack seen. induction fuel as [|fuel IH]; intros stack seen Hlt; [lia|].
  destruct stack as [|n stack]; simpl in *; [eauto|]. case_match; [eauto|]. case_decide as Hs.
  - apply IH. lia.
  - apply IH. rewrite length_rev_append. pose proof (unseen_cons n seen Hs). pose proof (Hchildren n). lia.
Qed.

Lemma dfs_total fuel from to :
  (S (length links) < fuel)%nat → is_Some (dfs_loop fuel to [from] ∅).
Proof.
  intros Hlt. apply dfs_fuel. simpl. assert (length (unseen ∅) <= length links)%nat by apply length_filter. lia.
Qed.
End Fuel.
End Dfs.
