(* ===== verification/Keys.v ===== *)
(** * Keys: the composite-key encoding of the store (src/core/prfs.cpp)

    Big-endian 64-bit words are the building blocks of every key of the
    key/value engine: [be]/[rdbe] with their round trip, the fact that the
    byte order of the encodings is the numeric order, and the reserved
    top-bit id space of the synthesized [.snapshot] directories. *)
From S2P Require Import Prelude.
Local Open Scope Z_scope.

(** ** Definitions *)

(** [be]: the loop [for (i = 7; i >= 0; --i) { s[i] = x & 0xff; x >>= 8; }]. *)
Fixpoint be_loop (n : nat) (x : Z) (acc : bytes) : bytes :=
  match n with
  | O => acc
  | S n' => be_loop n' (Z.shiftr x 8) (zb (Z.land x 255) :: acc)
  end.
Definition be (x : Z) : bytes := be_loop 8 x [].

(** [rdbe]: the first eight bytes behind the pointer, most significant first. *)
Definition rdbe_step (x : Z) (b : byte) : Z := Z.lor (u64 (Z.shiftl x 8)) (bz b).
Definition rdbe (p : bytes) : Z := fold_left rdbe_step (take 8 p) 0.

(** Ids with the top bit set name the virtual [.snapshot] directories. *)
Definition SNAP_BIT : Z := Z.shiftl 1 63.
Definition isSnapDir (id : Z) : bool := negb (Z.land id SNAP_BIT =? 0).
Definition snapBase (id : Z) : Z := Z.land id (Z.lxor SNAP_BIT (2 ^ 64 - 1)).

(** [LATEST = ~SnapId(0)]: "resolve at cur_snap". *)
Definition LATEST : Z := 2 ^ 64 - 1.

Definition SNAPSHOT_NAME : bytes := str ".snapshot".

(** ** Lemmas *)

Lemma be_loop_app n x acc : be_loop n x acc = be_loop n x [] ++ acc.
Proof.
  revert x acc. induction n as [|n IH]; intros x acc; simpl; [done|].
  rewrite IH, (IH _ [_]), <- app_assoc. done.
Qed.

Lemma length_be_loop n x acc : length (be_loop n x acc) = (n + length acc)%nat.
Proof. revert x acc. induction n as [|n IH]; intros; simpl; [done|]. rewrite IH. simpl. lia. Qed.

Lemma length_be x : length (be x) = 8%nat.
Proof. unfold be. by rewrite length_be_loop. Qed.

Lemma be_loop_S n x :
  be_loop (S n) x [] = be_loop n (x / 256) [] ++ [zb (x mod 256)].
Proof.
  simpl. rewrite be_loop_app, Z.shiftr_div_pow2 by lia.
  change 255 with (2 ^ 8 - 1). by rewrite land_low by lia.
Qed.

Lemma rdbe_step_eq x b : 0 <= x < 2 ^ 56 → rdbe_step x b = 256 * x + bz b.
Proof.
  intros Hx. unfold rdbe_step. pose proof (bz_range b).
  rewrite u64_small; [rewrite lor_shift_add; lia|].
  rewrite Z.shiftl_mul_pow2 by lia. word_lia.
Qed.

Lemma fold_rdbe_be n x acc :
  0 <= acc → (acc + 1) * 256 ^ Z.of_nat n <= 2 ^ 64 →
  fold_left rdbe_step (be_loop n x []) acc = acc * 256 ^ Z.of_nat n + x mod 256 ^ Z.of_nat n.
Proof.
  revert x. induction n as [|n IH]; intros x Hacc Hle.
  { simpl. rewrite Z.mod_1_r. lia. }
  rewrite be_loop_S, fold_left_app. cbn [fold_left].
  rewrite Nat2Z.inj_succ, Z.pow_succ_r in Hle |- * by lia.
  pose proof (Z.mod_pos_bound (x / 256) (256 ^ Z.of_nat n) ltac:(lia)).
  rewrite IH by nia.
  rewrite rdbe_step_eq by nia. rewrite bz_zb, Z.mod_mod by lia.
  rewrite (Z.rem_mul_r x 256 (256 ^ Z.of_nat n)) by lia. lia.
Qed.

Lemma rdbe_be x s : in64 x → rdbe (be x ++ s) = x.
Proof.
  intros Hx. unfold rdbe. rewrite <- (length_be x) at 1. rewrite take_app_eq.
  unfold be. rewrite fold_rdbe_be by lia. apply Z.mod_small. word_lia.
Qed.

Lemma be_inj x y : in64 x → in64 y → be x = be y → x = y.
Proof.
  intros Hx Hy Heq. rewrite <- (rdbe_be x []), <- (rdbe_be y []) by done. by rewrite Heq.
Qed.

Lemma fold_rdbe_bound (l : bytes) :
  (length l <= 8)%nat → 0 <= fold_left rdbe_step l 0 < 256 ^ Z.of_nat (length l).
Proof.
  induction l as [|b l IH] using rev_ind; [done|].
  rewrite length_app, fold_left_app. cbn [fold_left length]. intros Hl.
  specialize (IH ltac:(lia)). pose proof (bz_range b).
  assert (256 ^ Z.of_nat (length l) <= 256 ^ 7) by (apply Z.pow_le_mono_r; lia).
  rewrite rdbe_step_eq by lia.
  rewrite Nat2Z.inj_add, Z.pow_add_r by lia. simpl (256 ^ Z.of_nat 1). lia.
Qed.

Lemma rdbe_range p : in64 (rdbe p).
Proof.
  unfold rdbe.
  assert (length (take 8 p) <= 8)%nat as Hl by (rewrite length_take; lia).
  pose proof (fold_rdbe_bound _ Hl).
  assert (256 ^ Z.of_nat (length (take 8 p)) <= 256 ^ 8) by (apply Z.pow_le_mono_r; lia).
  word_lia.
Qed.

Lemma be_fold_rdbe (l : bytes) :
  (length l <= 8)%nat → be_loop (length l) (fold_left rdbe_step l 0) [] = l.
Proof.
  induction l as [|b l IH] using rev_ind; [done|].
  rewrite length_app, fold_left_app. cbn [fold_left length]. intros Hl.
  pose proof (fold_rdbe_bound l ltac:(lia)). pose proof (bz_range b).
  assert (256 ^ Z.of_nat (length l) <= 256 ^ 7) by (apply Z.pow_le_mono_r; lia).
  rewrite Nat.add_1_r, be_loop_S, rdbe_step_eq by lia.
  rewrite Z.add_comm, Z.mul_comm, Z.div_add, Z.div_small, Z.mod_add, Z.mod_small, zb_bz by lia.
  rewrite Z.add_0_l, IH by lia. done.
Qed.

Lemma be_rdbe p : length p = 8%nat → be (rdbe p) = p.
Proof.
  intros Hl. unfold rdbe, be. rewrite take_ge by lia. rewrite <- Hl at 1.
  apply be_fold_rdbe. lia.
Qed.

(** The byte order of the encodings is the numeric order. *)
Lemma be_loop_ltb n x y :
  0 <= x < 256 ^ Z.of_nat n → 0 <= y < 256 ^ Z.of_nat n →
  bytes_ltb (be_loop n x []) (be_loop n y []) = (x <? y).
Proof.
  revert x y. induction n as [|n IH]; intros x y Hx Hy.
  { simpl in *. symmetry. apply Z.ltb_ge. lia. }
  rewrite Nat2Z.inj_succ, Z.pow_succ_r in Hx, Hy by lia.
  assert (∀ z, 0 <= z < 256 * 256 ^ Z.of_nat n → 0 <= z / 256 < 256 ^ Z.of_nat n) as Hdiv.
  { intros z Hz. split; [apply Z.div_pos; lia | apply Z.div_lt_upper_bound; lia]. }
  specialize (IH (x / 256) (y / 256) (Hdiv x Hx) (Hdiv y Hy)) as IHxy.
  rewrite !be_loop_S.
  pose proof (Z.div_mod x 256 ltac:(lia)). pose proof (Z.div_mod y 256 ltac:(lia)).
  pose proof (Z.mod_pos_bound x 256 ltac:(lia)). pose proof (Z.mod_pos_bound y 256 ltac:(lia)).
  destruct (decide (x / 256 = y / 256)) as [E|E].
  - rewrite E, bytes_ltb_app. simpl. rewrite !bz_zb, !Z.mod_mod by lia.
    destruct (Z.ltb_spec (x mod 256) (y mod 256)); [symmetry; apply Z.ltb_lt; lia|].
    destruct (x mod 256 =? y mod 256); symmetry; apply Z.ltb_ge; lia.
  - rewrite bytes_ltb_app_ne, IHxy.
    + apply eq_true_iff_eq. rewrite !Z.ltb_lt. lia.
    + by rewrite !length_be_loop.
    + intros Heq. specialize (IH (y / 256) (x / 256) (Hdiv y Hy) (Hdiv x Hx)).
      rewrite Heq, bytes_ltb_irrefl in IHxy, IH. lia.
Qed.

Lemma be_ltb x y : in64 x → in64 y → bytes_ltb (be x) (be y) = (x <? y).
Proof. intros Hx Hy. apply be_loop_ltb; word_lia. Qed.

Lemma be_ltb_app x y s t :
  in64 x → in64 y →
  bytes_ltb (be x ++ s) (be y ++ t) = (x <? y) || ((x =? y) && bytes_ltb s t).
Proof.
  intros Hx Hy. destruct (Z.eqb_spec x y) as [->|Hne].
  - by rewrite bytes_ltb_app, Z.ltb_irrefl.
  - rewrite bytes_ltb_app_ne, be_ltb by (rewrite ?length_be; eauto using be_inj).
    by rewrite orb_false_r.
Qed.

(** *** The reserved id space *)

Lemma land_SNAP_BIT id : in64 id → Z.land id SNAP_BIT = if 2 ^ 63 <=? id then 2 ^ 63 else 0.
Proof.
  intros Hid. change SNAP_BIT with (2 ^ 63).
  assert (id = (id / 2 ^ 63) * 2 ^ 63 + id mod 2 ^ 63) as Hdm by (rewrite Z.mul_comm; apply Z.div_mod; lia).
  pose proof (Z.mod_pos_bound id (2 ^ 63) ltac:(lia)).
  apply Z.bits_inj'. intros i Hi. rewrite Z.land_spec, Z.pow2_bits_eqb by lia.
  destruct (Z.eqb_spec 63 i) as [<-|Hne].
  - rewrite andb_true_r. rewrite <- (Z.mod_small id (2 ^ 64)) at 1 by word_lia.
    rewrite Z.mod_pow2_bits_low, Z.testbit_eqb by lia.
    destruct (Z.leb_spec (2 ^ 63) id).
    + replace (id / 2 ^ 63) with 1 by word_lia. done.
    + by rewrite Z.div_small by word_lia.
  - rewrite andb_false_r. destruct (2 ^ 63 <=? id); [|by rewrite Z.bits_0].
    rewrite Z.pow2_bits_eqb by lia. symmetry. by apply Z.eqb_neq.
Qed.

Lemma isSnapDir_spec id : in64 id → isSnapDir id = (2 ^ 63 <=? id).
Proof. intros Hid. unfold isSnapDir. rewrite land_SNAP_BIT by done. by destruct (2 ^ 63 <=? id). Qed.

Lemma snapBase_spec id : snapBase id = id mod 2 ^ 63.
Proof. unfold snapBase. rewrite <- land_low by lia. done. Qed.

Lemma lor_SNAP_BIT id : 0 <= id < 2 ^ 63 → Z.lor id SNAP_BIT = id + 2 ^ 63.
Proof.
  intros Hid. rewrite Z.lor_comm. change SNAP_BIT with (Z.shiftl 1 63).
  rewrite lor_shift_add by lia. lia.
Qed.

#[export] Hint Rewrite length_be : prfs.
#[export] Hint Resolve rdbe_range : prfs.

#[global] Opaque be.
#[global] Arguments rdbe : simpl never.
