(* ===== verification/Kv.v ===== *)
(** * Kv: the ordered key/value engine under the store

    The interface [IKvStore]/[IKvTxn]/[IKvCursor] (include/prfs/kvstore.hpp) as
    the type class [KvEngine]: operations on one sub-store with the laws of an
    ordered map, and whether an uncommitted write transaction is rolled back.
    The in-memory engine (src/storage/memory/kv.cpp) is the instance
    [MemEngine]; [Lmdb] is the engine over liblmdb. *)
From S2P Require Import Prelude Keys.
Local Open Scope Z_scope.
Set Warnings "-clear-no-such-hyp".

(** ** The interface *)

(** [enum class Kv]: the fixed sub-stores. *)
Inductive Kv := Nodes | DownLinks | UpLinks | Changes | Meta | Snaps.
Global Instance Kv_eq_dec : EqDecision Kv.
Proof. solve_decision. Defined.

(** A position is the least (greatest) key of the map that satisfies [P];
    [None] is the end position of a cursor. *)
Definition least (P : bytes → Prop) (m : gmap bytes bytes) (o : option bytes) : Prop :=
  match o with
  | Some k => is_Some (m !! k) ∧ P k ∧ ∀ k', is_Some (m !! k') → P k' → bytes_le k k'
  | None => ∀ k', is_Some (m !! k') → ¬ P k'
  end.
Definition greatest (P : bytes → Prop) (m : gmap bytes bytes) (o : option bytes) : Prop :=
  match o with
  | Some k => is_Some (m !! k) ∧ P k ∧ ∀ k', is_Some (m !! k') → P k' → bytes_le k' k
  | None => ∀ k', is_Some (m !! k') → ¬ P k'
  end.

(** What an engine promises of one sub-store [M]: the map it holds ([kv_view]),
    [get]/[put]/[del], and the cursor moves in the byte order of the keys. *)
Class KvEngine (M : Type) := {
  kv_empty : M;
  kv_get : M → bytes → option bytes;
  kv_put : M → bytes → bytes → M;
  kv_del : M → bytes → M;
  kv_seek : M → bytes → option bytes;
  kv_first : M → option bytes;
  kv_last : M → option bytes;
  kv_next : M → option bytes → option bytes;
  kv_prev : M → option bytes → option bytes;
  kv_rolls_back : bool;
  kv_view : M → gmap bytes bytes;
  kv_view_empty : kv_view kv_empty = ∅;
  kv_get_view m k : kv_get m k = kv_view m !! k;
  kv_view_put m k v : kv_view (kv_put m k v) = <[k := v]> (kv_view m);
  kv_view_del m k : kv_view (kv_del m k) = delete k (kv_view m);
  kv_seek_spec m k : least (bytes_le k) (kv_view m) (kv_seek m k);
  kv_first_spec m : least (λ _, True) (kv_view m) (kv_first m);
  kv_last_spec m : greatest (λ _, True) (kv_view m) (kv_last m);
  kv_next_spec m k : least (bytes_lt k) (kv_view m) (kv_next m (Some k));
  kv_prev_spec m k : greatest (λ k', bytes_lt k' k) (kv_view m) (kv_prev m (Some k));
}.

(** ** The in-memory engine: an ordered [std::map] per sub-store *)

Module MemKv.
(** [std::map]: a finite map whose iteration order is the key order. *)
Abbreviation Map := (gmap bytes bytes).

Definition least_of (ks : list bytes) : option bytes :=
  foldr (λ k acc, match acc with
                  | Some k' => Some (if bytes_ltb k' k then k' else k)
                  | None => Some k
                  end) None ks.
Definition greatest_of (ks : list bytes) : option bytes :=
  foldr (λ k acc, match acc with
                  | Some k' => Some (if bytes_ltb k k' then k' else k)
                  | None => Some k
                  end) None ks.

Definition keys (m : Map) : list bytes := (map_to_list m).*1.

(** [MemCursor]: the iterator as the key it stands on, [None] for [end()]. *)
Definition seek (m : Map) (k : bytes) : option bytes :=
  least_of (filter (λ k', bytes_ltb k' k = false) (keys m)).
Definition first (m : Map) : option bytes := least_of (keys m).
Definition last (m : Map) : option bytes := greatest_of (keys m).
Definition next (m : Map) (it : option bytes) : option bytes :=
  match it with
  | Some k => least_of (filter (λ k', bytes_ltb k k' = true) (keys m))
  | None => None
  end.
(** [prev] at [begin()] goes to [end()] and fails; [--end()] is the last key. *)
Definition prev (m : Map) (it : option bytes) : option bytes :=
  if decide (it = first m) then None
  else match it with
       | Some k => greatest_of (filter (λ k', bytes_ltb k' k = true) (keys m))
       | None => last m
       end.

(** [MemTxn]: writes apply directly; [commit] and [abort] do nothing. *)
Definition get (m : Map) (k : bytes) : option bytes := m !! k.
Definition put (m : Map) (k v : bytes) : Map := <[k := v]> m.
Definition del (m : Map) (k : bytes) : Map :=
  match m !! k with Some _ => delete k m | None => m end.

Lemma elem_of_keys m k : k ∈ keys m ↔ is_Some (m !! k).
Proof.
  unfold keys. rewrite list_elem_of_fmap. split.
  - intros ([k' v] & -> & H%elem_of_map_to_list). by exists v.
  - intros [v H]. exists (k, v). by rewrite elem_of_map_to_list.
Qed.

Lemma least_of_spec ks :
  match least_of ks with
  | Some k => k ∈ ks ∧ ∀ k', k' ∈ ks → bytes_le k k'
  | None => ks = []
  end.
Proof.
  induction ks as [|k ks IH]; simpl; [done|].
  destruct (least_of ks) as [k0|]; [|subst; split; [left|by intros k' ->%list_elem_of_singleton; apply bytes_ltb_irrefl]].
  destruct IH as [Hin Hle]. unfold bytes_le in *. destruct (bytes_ltb k0 k) eqn:E.
  - split; [by right|]. intros k' [->|Hk']%elem_of_cons; [by apply bytes_ltb_asym | auto].
  - split; [by left|]. intros k' [->|Hk']%elem_of_cons; [apply bytes_ltb_irrefl|].
    specialize (Hle _ Hk'). apply bytes_ltb_false in E as [->|E]; [done|].
    apply bytes_ltb_false in Hle as [->|Hle]; [by apply bytes_ltb_asym|].
    apply bytes_ltb_asym. by eapply bytes_ltb_trans.
Qed.

Lemma greatest_of_spec ks :
  match greatest_of ks with
  | Some k => k ∈ ks ∧ ∀ k', k' ∈ ks → bytes_le k' k
  | None => ks = []
  end.
Proof.
  induction ks as [|k ks IH]; simpl; [done|].
  destruct (greatest_of ks) as [k0|]; [|subst; split; [left|by intros k' ->%list_elem_of_singleton; apply bytes_ltb_irrefl]].
  destruct IH as [Hin Hle]. unfold bytes_le in *. destruct (bytes_ltb k k0) eqn:E.
  - split; [by right|]. intros k' [->|Hk']%elem_of_cons; [by apply bytes_ltb_asym | auto].
  - split; [by left|]. intros k' [->|Hk']%elem_of_cons; [apply bytes_ltb_irrefl|].
    specialize (Hle _ Hk'). apply bytes_ltb_false in E as [->|E]; [done|].
    apply bytes_ltb_false in Hle as [->|Hle]; [by apply bytes_ltb_asym|].
    apply bytes_ltb_asym. by eapply bytes_ltb_trans.
Qed.

Lemma least_of_filter m (P : bytes → Prop) `{∀ k, Decision (P k)} :
  least P m (least_of (filter P (keys m))).
Proof.
  pose proof (least_of_spec (filter P (keys m))) as H0. destruct (least_of _) as [k|]; simpl.
  - destruct H0 as [Hin Hle]. apply list_elem_of_filter in Hin as [HP Hin%elem_of_keys].
    split_and!; [done..|]. intros k' Hk' HP'. apply Hle, list_elem_of_filter. by rewrite elem_of_keys.
  - intros k' Hk' HP'. eapply not_elem_of_nil. rewrite <- H0.
    apply list_elem_of_filter. by rewrite elem_of_keys.
Qed.

Lemma greatest_of_filter m (P : bytes → Prop) `{∀ k, Decision (P k)} :
  greatest P m (greatest_of (filter P (keys m))).
Proof.
  pose proof (greatest_of_spec (filter P (keys m))) as H0. destruct (greatest_of _) as [k|]; simpl.
  - destruct H0 as [Hin Hle]. apply list_elem_of_filter in Hin as [HP Hin%elem_of_keys].
    split_and!; [done..|]. intros k' Hk' HP'. apply Hle, list_elem_of_filter. by rewrite elem_of_keys.
  - intros k' Hk' HP'. eapply not_elem_of_nil. rewrite <- H0.
    apply list_elem_of_filter. by rewrite elem_of_keys.
Qed.

Lemma filter_true (l : list bytes) : filter (λ _, True) l = l.
Proof. induction l as [|x l IH]; [done|]. by rewrite filter_cons_True, IH. Qed.

Lemma first_spec m : least (λ _, True) m (first m).
Proof. unfold first. rewrite <- (filter_true (keys m)). apply least_of_filter. Qed.
Lemma last_spec m : greatest (λ _, True) m (last m).
Proof. unfold last. rewrite <- (filter_true (keys m)). apply greatest_of_filter. Qed.

Lemma prev_spec m k : greatest (λ k', bytes_lt k' k) m (prev m (Some k)).
Proof.
  unfold prev. case_decide as E; [|apply (greatest_of_filter m (λ k', bytes_lt k' k))].
  pose proof (first_spec m) as Hf. rewrite <- E in Hf. destruct Hf as (_ & _ & Hle).
  intros k' Hk' Hlt. specialize (Hle k' Hk' I). unfold bytes_le, bytes_lt in *. congruence.
Qed.

Lemma view_del m k : del m k = delete k m.
Proof. unfold del. destruct (m !! k) eqn:E; [done|]. by rewrite delete_id. Qed.
End MemKv.

(** The memory engine implements the interface; it does not roll back. *)
Global Instance MemEngine : KvEngine (gmap bytes bytes) := {|
  kv_empty := ∅;
  kv_get := MemKv.get;
  kv_put := MemKv.put;
  kv_del := MemKv.del;
  kv_seek := MemKv.seek;
  kv_first := MemKv.first;
  kv_last := MemKv.last;
  kv_next := MemKv.next;
  kv_prev := MemKv.prev;
  kv_rolls_back := false;
  kv_view := id;
  kv_view_empty := eq_refl;
  kv_get_view m k := eq_refl;
  kv_view_put m k v := eq_refl;
  kv_view_del := MemKv.view_del;
  kv_seek_spec m k := MemKv.least_of_filter m (bytes_le k);
  kv_first_spec := MemKv.first_spec;
  kv_last_spec := MemKv.last_spec;
  kv_next_spec m k := MemKv.least_of_filter m (bytes_lt k);
  kv_prev_spec := MemKv.prev_spec;
|}.

(** ** Cursor walks *)

Section Walk.
Context {M : Type} `{!KvEngine M}.
Implicit Types (m : M) (k p : bytes).

(** The positions a loop [for (ok = ..; ok; ok = c->next())] visits. *)
Fixpoint walk (fuel : nat) (m : M) (pos : option bytes) : list bytes :=
  match fuel, pos with
  | S fuel', Some k => k :: walk fuel' m (kv_next m (Some k))
  | _, _ => []
  end.

(** No walk is longer than the map. *)
Definition walk_fuel (m : M) : nat := S (size (kv_view m)).
Definition walk_seek (m : M) (k : bytes) : list bytes := walk (walk_fuel m) m (kv_seek m k).
Definition walk_first (m : M) : list bytes := walk (walk_fuel m) m (kv_first m).

(** The scan pattern of the store: seek to [pfx], stop at the first key
    whose leading bytes differ ([k.size() < 16 || memcmp(k, pfx, 16) != 0]). *)
Fixpoint while_prefix (pfx : bytes) (ks : list bytes) : list bytes :=
  match ks with
  | [] => []
  | k :: ks' =>
      if decide (take (length pfx) k = pfx) then k :: while_prefix pfx ks' else []
  end.

(** A prefix scan: the rest of each key with the value under the cursor. *)
Definition entry (m : M) (pfx k : bytes) : bytes * bytes :=
  (drop (length pfx) k, default [] (kv_get m k)).
Definition scan_at (m : M) (pfx k : bytes) : list (bytes * bytes) :=
  entry m pfx <$> while_prefix pfx (walk_seek m k).
Definition scan (m : M) (pfx : bytes) : list (bytes * bytes) := scan_at m pfx pfx.

(** *** The walk visits exactly the keys from the start position, in order *)

Definition from_pos (pos : option bytes) (k' : bytes) : Prop :=
  match pos with Some k => bytes_le k k' | None => False end.
Local Instance from_pos_dec pos k' : Decision (from_pos pos k').
Proof. destruct pos; apply _. Defined.
Definition above (m : M) (pos : option bytes) : list bytes :=
  filter (from_pos pos) (map_to_list (kv_view m)).*1.

Lemma elem_of_kv_keys m k : k ∈ (map_to_list (kv_view m)).*1 ↔ is_Some (kv_view m !! k).
Proof. apply (MemKv.elem_of_keys (kv_view m)). Qed.

Lemma NoDup_kv_keys m : NoDup (map_to_list (kv_view m)).*1.
Proof. apply NoDup_fst_map_to_list. Qed.

Lemma elem_of_above m k k' :
  k' ∈ above m (Some k) ↔ bytes_le k k' ∧ is_Some (kv_view m !! k').
Proof. unfold above. by rewrite list_elem_of_filter, elem_of_kv_keys. Qed.

(** One cursor step removes one key from what is still to be visited. *)
Lemma length_above_next m k :
  is_Some (kv_view m !! k) →
  length (above m (Some k)) = S (length (above m (kv_next m (Some k)))).
Proof.
  intros Hk. pose proof (kv_next_spec m k) as Hn. unfold least in Hn.
  assert (∀ l P `{∀ x : bytes, Decision (P x)}, NoDup l → NoDup (filter P l)) as Hnd
    by (intros; by apply NoDup_filter).
  apply NoDup_length_insert with (y := k); try apply Hnd, NoDup_kv_keys.
  - destruct (kv_next m (Some k)) as [k1|].
    + rewrite elem_of_above. intros [Hle _]. destruct Hn as (_ & Hlt & _).
      by eapply bytes_lt_not_le.
    + unfold above. rewrite list_elem_of_filter. naive_solver.
  - intros x. rewrite elem_of_above. destruct (kv_next m (Some k)) as [k1|].
    + destruct Hn as (Hk1 & Hlt & Hleast). rewrite elem_of_above, bytes_le_lt. split.
      * intros [[->|Hx] Hin]; auto.
      * intros [->|[Hx Hin]]; eauto using bytes_lt_le_trans.
    + unfold above. rewrite list_elem_of_filter, bytes_le_lt. split.
      * intros [[->|Hx] Hin]; [auto|]. by destruct (Hn x Hin).
      * intros [->|[[] _]]. auto.
Qed.

Definition pos_ok (m : M) (pos : option bytes) : Prop :=
  match pos with Some k => is_Some (kv_view m !! k) | None => True end.

Lemma pos_ok_least P m pos : least P (kv_view m) pos → pos_ok m pos.
Proof. destruct pos; [|done]. by intros (? & _). Qed.

Lemma walk_spec fuel m pos :
  pos_ok m pos → (length (above m pos) <= fuel)%nat →
  StronglySorted bytes_lt (walk fuel m pos) ∧ ∀ k', k' ∈ walk fuel m pos ↔ k' ∈ above m pos.
Proof.
  revert pos. induction fuel as [|fuel IH]; intros [k|] Hok Hl; simpl in *.
  - rewrite (length_above_next m k Hok) in Hl. lia.
  - split; [constructor|]. unfold above. intros k'. rewrite list_elem_of_filter. set_solver.
  - pose proof (kv_next_spec m k) as Hn. rewrite (length_above_next m k Hok) in Hl.
    destruct (IH (kv_next m (Some k)) (pos_ok_least _ _ _ Hn) ltac:(lia)) as [Hs Hin].
    assert (∀ k', k' ∈ above m (kv_next m (Some k)) ↔ bytes_lt k k' ∧ is_Some (kv_view m !! k')) as Hab.
    { intros k'. destruct (kv_next m (Some k)) as [k1|] eqn:E; unfold least in Hn.
      - destruct Hn as (? & Hlt & Hleast). rewrite elem_of_above.
        split; intros [??]; split; eauto using bytes_lt_le_trans.
      - unfold above. rewrite list_elem_of_filter. naive_solver. }
    split.
    + constructor; [done|]. apply Forall_forall. intros k'. rewrite Hin, Hab. naive_solver.
    + intros k'. rewrite elem_of_cons, Hin, Hab, elem_of_above, bytes_le_lt. naive_solver.
  - split; [constructor|]. unfold above. intros k'. rewrite list_elem_of_filter. set_solver.
Qed.

Lemma above_fuel m pos : (length (above m pos) <= walk_fuel m)%nat.
Proof.
  unfold walk_fuel, above. etrans; [apply length_filter|].
  rewrite length_fmap, length_map_to_list. lia.
Qed.

Lemma walk_seek_sorted m k : StronglySorted bytes_lt (walk_seek m k).
Proof. apply walk_spec, above_fuel. eapply pos_ok_least, kv_seek_spec. Qed.

Lemma elem_of_walk_seek m k k' :
  k' ∈ walk_seek m k ↔ bytes_le k k' ∧ is_Some (kv_view m !! k').
Proof.
  pose proof (kv_seek_spec m k) as Hs. unfold walk_seek.
  rewrite (proj2 (walk_spec _ m _ (pos_ok_least _ _ _ Hs) (above_fuel _ _))).
  destruct (kv_seek m k) as [k1|]; unfold least in Hs.
  - destruct Hs as (? & Hle & Hleast). rewrite elem_of_above.
    split; intros [??]; split; eauto using bytes_le_trans.
  - unfold above. rewrite list_elem_of_filter. naive_solver.
Qed.

Lemma walk_first_sorted m : StronglySorted bytes_lt (walk_first m).
Proof. apply walk_spec, above_fuel. eapply pos_ok_least, kv_first_spec. Qed.

Lemma elem_of_walk_first m k' : k' ∈ walk_first m ↔ is_Some (kv_view m !! k').
Proof.
  pose proof (kv_first_spec m) as Hs. unfold walk_first.
  rewrite (proj2 (walk_spec _ m _ (pos_ok_least _ _ _ Hs) (above_fuel _ _))).
  destruct (kv_first m) as [k1|]; unfold least in Hs.
  - destruct Hs as (? & _ & Hleast). rewrite elem_of_above. naive_solver.
  - unfold above. rewrite list_elem_of_filter. naive_solver.
Qed.

(** *** Prefix scans: exactly the entries under the prefix, in name order *)

Lemma between_prefix (p k s : bytes) :
  bytes_le p k → bytes_le k (p ++ s) → ∃ t, k = p ++ t.
Proof.
  unfold bytes_le. revert k. induction p as [|x p IH]; intros [|y k]; simpl; eauto; try done.
  pose proof (Z.ltb_spec (bz x) (bz y)). pose proof (Z.ltb_spec (bz y) (bz x)).
  destruct (bz y <? bz x) eqn:?; [done|]. destruct (bz x <? bz y) eqn:?; [done|].
  assert (x = y) as -> by (apply bz_inj; rewrite Z.ltb_ge in *; lia).
  rewrite Z.eqb_refl. intros H1 H2. destruct (IH k H1 H2) as [t ->]. by exists t.
Qed.

Lemma bytes_le_app p s : bytes_le p (p ++ s).
Proof. unfold bytes_le. rewrite <- (app_nil_r p) at 2. rewrite bytes_ltb_app. by destruct s. Qed.

Lemma elem_of_while_prefix p ks k :
  StronglySorted bytes_lt ks → (∀ k', k' ∈ ks → bytes_le p k') →
  k ∈ while_prefix p ks ↔ k ∈ ks ∧ ∃ s, k = p ++ s.
Proof.
  induction 1 as [|k0 ks Hs IH H0]; intros Hge; simpl; [set_solver|].
  rewrite Forall_forall in H0. case_decide as E; rewrite take_prefix in E.
  - rewrite !elem_of_cons, IH by (intros; apply Hge; by right). naive_solver.
  - split; [set_solver|]. intros [Hin [s ->]]. exfalso. apply E.
    apply elem_of_cons in Hin as [<-|Hin]; [eauto|].
    apply between_prefix with s; [apply Hge; by left|]. apply bytes_le_lt. right. by apply H0.
Qed.

Lemma while_prefix_sorted p ks :
  StronglySorted bytes_lt ks → StronglySorted bytes_lt (while_prefix p ks).
Proof.
  induction 1 as [|k0 ks Hs IH H0]; simpl; [constructor|]. case_decide; constructor; [done|].
  rewrite Forall_forall in H0. apply Forall_forall. intros k Hk. apply H0. clear -Hk.
  induction ks as [|k1 ks IH]; simpl in *; [done|]. case_decide; set_solver.
Qed.

(** Entries are ordered by name. *)
Definition name_lt {A} (x y : bytes * A) : Prop := bytes_lt x.1 y.1.
Global Instance name_lt_trans {A} : Transitive (@name_lt A).
Proof. intros [??] [??] [??]. apply bytes_lt_trans. Qed.
Global Instance name_lt_irrefl {A} : Irreflexive (@name_lt A).
Proof. intros [? ?] H. by apply (irreflexivity bytes_lt) in H. Qed.

Lemma drop_pfx (p s : bytes) : drop (length p) (p ++ s) = s.
Proof. by rewrite drop_app_length. Qed.

Lemma elem_of_scan_at m p k n v :
  bytes_le p k →
  (n, v) ∈ scan_at m p k ↔ bytes_le k (p ++ n) ∧ kv_view m !! (p ++ n) = Some v.
Proof.
  intros Hpk. unfold scan_at, entry. rewrite list_elem_of_fmap.
  assert (∀ k', k' ∈ while_prefix p (walk_seek m k) ↔
    (bytes_le k k' ∧ is_Some (kv_view m !! k')) ∧ ∃ s, k' = p ++ s) as Hw.
  { intros k'. rewrite elem_of_while_prefix, elem_of_walk_seek; [done|apply walk_seek_sorted|].
    intros k1 [? _]%elem_of_walk_seek. by eapply bytes_le_trans. }
  split.
  - intros (k' & Heq & [[? [w Hlk]] [s ->]]%Hw). rewrite drop_pfx, kv_get_view, Hlk in Heq.
    simplify_eq/=. by split.
  - intros [Hle Hlk]. exists (p ++ n). rewrite drop_pfx, kv_get_view, Hlk, Hw. eauto.
Qed.

Lemma scan_at_sorted m p k : bytes_le p k → StronglySorted name_lt (scan_at m p k).
Proof.
  intros Hpk. apply sorted_fmap with bytes_lt; [|apply while_prefix_sorted, walk_seek_sorted].
  assert (∀ k', k' ∈ while_prefix p (walk_seek m k) → ∃ s, k' = p ++ s) as Hw.
  { intros k' Hk'. eapply elem_of_while_prefix; [apply (walk_seek_sorted m k)| |done].
    intros k1 [? _]%elem_of_walk_seek. by eapply bytes_le_trans. }
  intros x y [s ->]%Hw [t ->]%Hw. unfold name_lt, entry, bytes_lt; simpl.
  by rewrite !drop_pfx, bytes_ltb_app.
Qed.

Lemma bytes_le_refl a : bytes_le a a.
Proof. apply bytes_ltb_irrefl. Qed.

Lemma elem_of_scan m p n v : (n, v) ∈ scan m p ↔ kv_view m !! (p ++ n) = Some v.
Proof.
  unfold scan. rewrite elem_of_scan_at by apply bytes_le_refl. pose proof (bytes_le_app p n). naive_solver.
Qed.

Lemma scan_sorted m p : StronglySorted name_lt (scan m p).
Proof. apply scan_at_sorted, bytes_le_refl. Qed.

Lemma scan_NoDup m p : NoDup (scan m p).
Proof. eapply sorted_NoDup; [apply _ | apply scan_sorted]. Qed.

(** Scans only depend on the entries under the prefix. *)
Lemma scan_ext m m' p p' :
  (∀ n, kv_view m !! (p ++ n) = kv_view m' !! (p' ++ n)) → scan m p = scan m' p'.
Proof.
  intros Heq. apply sorted_ext with name_lt; try apply scan_sorted; try apply _.
  intros [n v]. by rewrite !elem_of_scan, Heq.
Qed.

Lemma scan_at_ext m m' p k :
  bytes_le p k → (∀ n, kv_view m !! (p ++ n) = kv_view m' !! (p ++ n)) →
  scan_at m p k = scan_at m' p k.
Proof.
  intros Hpk Heq. apply sorted_ext with name_lt; try apply scan_at_sorted; try apply _; try done.
  intros [n v]. by rewrite !elem_of_scan_at, Heq.
Qed.
End Walk.

(** ** The six sub-stores and transactions *)

Record KvData (M : Type) := mkKv {
  Nodes_ : M; DownLinks_ : M; UpLinks_ : M; Changes_ : M; Meta_ : M; Snaps_ : M
}.
Arguments mkKv {M} _ _ _ _ _ _.
Arguments Nodes_ {M} _.
Arguments DownLinks_ {M} _.
Arguments UpLinks_ {M} _.
Arguments Changes_ {M} _.
Arguments Meta_ {M} _.
Arguments Snaps_ {M} _.

Section Txn.
Context {M : Type} `{!KvEngine M}.

(** [m_data->store[size_t(k)]] *)
Definition sub (t : KvData M) (k : Kv) : M :=
  match k with
  | Nodes => Nodes_ t | DownLinks => DownLinks_ t | UpLinks => UpLinks_ t
  | Changes => Changes_ t | Meta => Meta_ t | Snaps => Snaps_ t
  end.
Definition set_s (t : KvData M) (k : Kv) (m : M) : KvData M :=
  match t with
  | mkKv n d u c me sn =>
      match k with
      | Nodes => mkKv m d u c me sn | DownLinks => mkKv n m u c me sn
      | UpLinks => mkKv n d m c me sn | Changes => mkKv n d u m me sn
      | Meta => mkKv n d u c m sn | Snaps => mkKv n d u c me m
      end
  end.

Definition t_get (t : KvData M) (k : Kv) (key : bytes) : option bytes := kv_get (sub t k) key.
Definition t_put (t : KvData M) (k : Kv) (key v : bytes) : KvData M := set_s t k (kv_put (sub t k) key v).
Definition t_del (t : KvData M) (k : Kv) (key : bytes) : KvData M := set_s t k (kv_del (sub t k) key).

(** End of a write transaction: the working copy is kept when it was
    committed, or when the engine applies writes directly; an engine that
    rolls back drops an uncommitted one ([~LmdbTxn] aborts). *)
Definition end_txn (base work : KvData M) (committed : bool) : KvData M :=
  if committed || negb kv_rolls_back then work else base.

Definition kv_new : KvData M := mkKv kv_empty kv_empty kv_empty kv_empty kv_empty kv_empty.

(** Reading a sub-store after a write to one of them. *)
Lemma sub_set_s t k k' m : sub (set_s t k m) k' = if decide (k' = k) then m else sub t k'.
Proof. by destruct t, k, k'. Qed.

Lemma view_put t k key v k' key' :
  kv_view (sub (t_put t k key v) k') !! key' =
    if decide (k' = k ∧ key' = key) then Some v else kv_view (sub t k') !! key'.
Proof.
  unfold t_put. rewrite sub_set_s. destruct (decide (k' = k)) as [->|].
  - rewrite kv_view_put. destruct (decide (key' = key)) as [->|].
    + by rewrite lookup_insert_eq, decide_True by done.
    + by rewrite lookup_insert_ne, decide_False by naive_solver.
  - by rewrite decide_False by naive_solver.
Qed.

Lemma view_t_del t k key k' key' :
  kv_view (sub (t_del t k key) k') !! key' =
    if decide (k' = k ∧ key' = key) then None else kv_view (sub t k') !! key'.
Proof.
  unfold t_del. rewrite sub_set_s. destruct (decide (k' = k)) as [->|].
  - rewrite kv_view_del. destruct (decide (key' = key)) as [->|].
    + by rewrite lookup_delete_eq, decide_True by done.
    + by rewrite lookup_delete_ne, decide_False by naive_solver.
  - by rewrite decide_False by naive_solver.
Qed.

Lemma t_get_view t k key : t_get t k key = kv_view (sub t k) !! key.
Proof. apply kv_get_view. Qed.
End Txn.
