(* ===== verification/Lmdb.v ===== *)
(** * Lmdb: the LMDB engine (src/storage/lmdb/kv.cpp)

    The cursor, transaction and store classes of the engine over the library
    liblmdb, which enters as the interface [Lmdb] with its documented laws; and
    that a client of [IKvTxn] gets the same answers from this engine as from any
    other, up to the first [put] that the library refuses, which throws. *)
From S2P Require Import Prelude Keys Kv.
Local Open Scope Z_scope.
Set Warnings "-clear-no-such-hyp".

(** ** The library *)

Inductive mdb_op := MDB_SET_RANGE | MDB_FIRST | MDB_LAST | MDB_NEXT | MDB_PREV.
(** Keys have 1 to 511 bytes (the default [MDB_MAXKEYSIZE]). *)
Definition key_ok (k : bytes) : Prop := 1 <= Z.of_nat (length k) <= 511.
Global Instance key_ok_dec k : Decision (key_ok k).
Proof. unfold key_ok. apply _. Defined.

(** Where a cursor move comes to: the entry at a position, or an error. *)
Definition lands (m : gmap bytes bytes) (r : Z * (bytes * bytes)) (o : option bytes) : Prop :=
  match o with
  | Some k => r.1 = 0 ∧ r.2.1 = k ∧ m !! k = Some r.2.2
  | None => r.1 ≠ 0
  end.

(** One database within a transaction. A function returns its status, 0 for
    success; [mdb_cursor_get] takes where the cursor stands and the key argument
    and returns the entry it moved to; [mdb_room] is that the map has room. *)
Class Lmdb (D : Type) := {
  mdb_view : D → gmap bytes bytes;
  mdb_room : D → bytes → bytes → Prop;
  mdb_get : D → bytes → Z * bytes;
  mdb_put : D → bytes → bytes → Z * D;
  mdb_del : D → bytes → Z * D;
  mdb_cursor_get : D → option bytes → bytes → mdb_op → Z * (bytes * bytes);
  mdb_get_law d k : match mdb_view d !! k with Some v => mdb_get d k = (0, v) | None => (mdb_get d k).1 ≠ 0 end;
  mdb_put_law d k v :
    (mdb_put d k v).1 = 0 ∧ mdb_view (mdb_put d k v).2 = <[k := v]> (mdb_view d) ∨
    (mdb_put d k v).1 ≠ 0 ∧ ¬ (key_ok k ∧ mdb_room d k v);
  mdb_del_law d k : mdb_view (mdb_del d k).2 = delete k (mdb_view d);
  mdb_range_law d p k : k ≠ [] →
    ∃ o, least (bytes_le k) (mdb_view d) o ∧ lands (mdb_view d) (mdb_cursor_get d p k MDB_SET_RANGE) o;
  mdb_first_law d p k : ∃ o, least (λ _, True) (mdb_view d) o ∧ lands (mdb_view d) (mdb_cursor_get d p k MDB_FIRST) o;
  mdb_last_law d p k : ∃ o, greatest (λ _, True) (mdb_view d) o ∧ lands (mdb_view d) (mdb_cursor_get d p k MDB_LAST) o;
  mdb_next_law d p k : ∃ o, least (bytes_lt p) (mdb_view d) o ∧ lands (mdb_view d) (mdb_cursor_get d (Some p) k MDB_NEXT) o;
  mdb_prev_law d p k : ∃ o, greatest (λ k', bytes_lt k' p) (mdb_view d) o ∧ lands (mdb_view d) (mdb_cursor_get d (Some p) k MDB_PREV) o
}.

(** [kvName]: the databases are kept apart by name. *)
Definition kvName (k : Kv) : bytes :=
  match k with
  | Nodes => str "nodes" | DownLinks => str "downlinks" | UpLinks => str "uplinks"
  | Changes => str "changes" | Meta => str "meta" | Snaps => str "snaps"
  end.
Lemma kvName_inj k1 k2 : kvName k1 = kvName k2 → k1 = k2.
Proof. by destruct k1, k2. Qed.

(** ** A client of the interface *)

(** What [PrfsStore] does with a transaction: point reads and writes, and scans
    with a cursor of its own. *)
Inductive Move := MSeek (key : bytes) | MFirst | MLast | MNext | MPrev.
Inductive Call :=
  | CGet (k : Kv) (key : bytes) | CPut (k : Kv) (key v : bytes) | CDel (k : Kv) (key : bytes)
  | CScan (k : Kv) (moves : list Move).
Inductive Answer := AGet (o : option bytes) | ADone | AScan (l : list (option (bytes * bytes))).
(** A loop [for (ok = ..; ok; ok = c->next())] asks [next] of a valid cursor only. *)
Definition may_move (valid : bool) (mv : Move) : bool := match mv with MNext | MPrev => valid | _ => true end.
(** No client seeks the empty key, which liblmdb refuses. *)
Definition move_ok (mv : Move) : bool := match mv with MSeek key => negb (bool_decide (key = [])) | _ => true end.
Definition call_ok (c : Call) : bool := match c with CScan _ moves => forallb move_ok moves | _ => true end.

(** *** On LMDB *)

Section Lmdb.
Context {D : Type} `{!Lmdb D}.

(** [LmdbCursor]: where the library's cursor stands, and the members. *)
Record LmdbCursor := mkCursor { m_at : option bytes; m_key : bytes; m_val : bytes; m_valid : bool }.
Definition lmdb_cursor : LmdbCursor := mkCursor None [] [] false.
Definition step (d : D) (c : LmdbCursor) (op : mdb_op) : LmdbCursor :=
  let '(rc, (k, v)) := mdb_cursor_get d (m_at c) (m_key c) op in
  if rc =? 0 then mkCursor (Some k) k v true else mkCursor (m_at c) k v false.
Definition lmdb_move (d : D) (c : LmdbCursor) (mv : Move) : LmdbCursor :=
  match mv with
  | MSeek key => step d (mkCursor (m_at c) key (m_val c) (m_valid c)) MDB_SET_RANGE
  | MFirst => step d c MDB_FIRST
  | MLast => step d c MDB_LAST
  | MNext => step d c MDB_NEXT
  | MPrev => step d c MDB_PREV
  end.
Definition cursor_shows (c : LmdbCursor) : option (bytes * bytes) := if m_valid c then Some (m_key c, m_val c) else None.
Fixpoint lmdb_scan (d : D) (c : LmdbCursor) (moves : list Move) : list (option (bytes * bytes)) :=
  match moves with
  | [] => []
  | mv :: moves' => let c := if may_move (m_valid c) mv then lmdb_move d c mv else c in cursor_shows c :: lmdb_scan d c moves'
  end.

(** [LmdbTxn]: [None] is the exception of [put]. *)
Definition txn_get (t : KvData D) (k : Kv) (key : bytes) : option bytes :=
  let '(rc, v) := mdb_get (sub t k) key in if rc =? 0 then Some v else None.
Definition txn_put (t : KvData D) (k : Kv) (key v : bytes) : option (KvData D) :=
  let '(rc, d) := mdb_put (sub t k) key v in if rc =? 0 then Some (set_s t k d) else None.
Definition txn_del (t : KvData D) (k : Kv) (key : bytes) : KvData D := set_s t k (mdb_del (sub t k) key).2.
Definition lmdb_call (t : KvData D) (c : Call) : option (Answer * KvData D) :=
  match c with
  | CGet k key => Some (AGet (txn_get t k key), t)
  | CPut k key v => (λ t', (ADone, t')) <$> txn_put t k key v
  | CDel k key => Some (ADone, txn_del t k key)
  | CScan k moves => Some (AScan (lmdb_scan (sub t k) lmdb_cursor moves), t)
  end.
Fixpoint lmdb_run (t : KvData D) (cs : list Call) : option (list Answer * KvData D) :=
  match cs with
  | [] => Some ([], t)
  | c :: cs' =>
      '(a, t) ← lmdb_call t c;
      '(l, t) ← lmdb_run t cs';
      Some (a :: l, t)
  end.
End Lmdb.

(** *** On any engine of the interface *)

Section Engine.
Context {M : Type} `{!KvEngine M}.
Definition eng_move (m : M) (pos : option bytes) (mv : Move) : option bytes :=
  match mv with
  | MSeek key => kv_seek m key
  | MFirst => kv_first m
  | MLast => kv_last m
  | MNext => kv_next m pos
  | MPrev => kv_prev m pos
  end.
Definition shows (m : M) (pos : option bytes) : option (bytes * bytes) :=
  k ← pos; v ← kv_get m k; Some (k, v).
Fixpoint eng_scan (m : M) (pos : option bytes) (moves : list Move) : list (option (bytes * bytes)) :=
  match moves with
  | [] => []
  | mv :: moves' => let pos := if may_move (bool_decide (is_Some pos)) mv then eng_move m pos mv else pos in shows m pos :: eng_scan m pos moves'
  end.
Definition eng_call (t : KvData M) (c : Call) : Answer * KvData M :=
  match c with
  | CGet k key => (AGet (t_get t k key), t)
  | CPut k key v => (ADone, t_put t k key v)
  | CDel k key => (ADone, t_del t k key)
  | CScan k moves => (AScan (eng_scan (sub t k) None moves), t)
  end.
Fixpoint eng_run (t : KvData M) (cs : list Call) : list Answer * KvData M :=
  match cs with
  | [] => ([], t)
  | c :: cs' => let '(a, t) := eng_call t c in let '(l, t) := eng_run t cs' in (a :: l, t)
  end.
End Engine.

(** ** The engines agree *)

Section Agree.
Context {M D : Type} `{!KvEngine M} `{!Lmdb D}.
Implicit Types (t : KvData M) (l : KvData D) (m : M) (d : D) (c : LmdbCursor).

Definition agree t l : Prop := ∀ k, kv_view (sub t k) = mdb_view (sub l k).

Lemma least_unique (P : bytes → Prop) (v : gmap bytes bytes) o1 o2 : least P v o1 → least P v o2 → o1 = o2.
Proof.
  destruct o1 as [k1|], o2 as [k2|]; simpl; [| |naive_solver|done].
  - intros (H1 & P1 & L1) (H2 & P2 & L2). f_equal. specialize (L1 _ H2 P2). specialize (L2 _ H1 P1).
    unfold bytes_le in *. apply bytes_ltb_false in L1 as [->|L1]; [done|]. congruence.
  - intros (H1 & P1 & _) H2. by destruct (H2 k1).
Qed.
Lemma greatest_unique (P : bytes → Prop) (v : gmap bytes bytes) o1 o2 : greatest P v o1 → greatest P v o2 → o1 = o2.
Proof.
  destruct o1 as [k1|], o2 as [k2|]; simpl; [| |naive_solver|done].
  - intros (H1 & P1 & L1) (H2 & P2 & L2). f_equal. specialize (L1 _ H2 P2). specialize (L2 _ H1 P1).
    unfold bytes_le in *. apply bytes_ltb_false in L1 as [->|L1]; [done|]. congruence.
  - intros (H1 & P1 & _) H2. by destruct (H2 k1).
Qed.

(** A cursor of LMDB stands where a position of the interface is. *)
Definition stands (v : gmap bytes bytes) c (pos : option bytes) : Prop :=
  match pos with
  | Some k => m_valid c = true ∧ m_at c = Some k ∧ m_key c = k ∧ v !! k = Some (m_val c)
  | None => m_valid c = false
  end.
Lemma step_stands d c op o :
  lands (mdb_view d) (mdb_cursor_get d (m_at c) (m_key c) op) o → stands (mdb_view d) (step d c op) o.
Proof.
  unfold lands, stands, step. destruct (mdb_cursor_get d (m_at c) (m_key c) op) as [rc [k v]]. cbn [fst snd].
  destruct o as [k'|].
  - intros (-> & -> & Hv). done.
  - intros Hrc. by rewrite (proj2 (Z.eqb_neq _ _) Hrc).
Qed.
Lemma move_stands m d c pos mv :
  kv_view m = mdb_view d → stands (kv_view m) c pos → move_ok mv = true →
  stands (kv_view m) (if may_move (m_valid c) mv then lmdb_move d c mv else c)
    (if may_move (bool_decide (is_Some pos)) mv then eng_move m pos mv else pos).
Proof.
  intros E Hs Hok. rewrite E in *. destruct mv as [key| | | |]; cbn [lmdb_move eng_move may_move].
  - assert (key ≠ []) as Hne by (intros ->; done).
    destruct (mdb_range_law d (m_at c) key Hne) as (o & Ho & Hl). pose proof (kv_seek_spec m key) as Hk. rewrite E in Hk.
    rewrite (least_unique _ _ _ _ Hk Ho). by apply step_stands.
  - destruct (mdb_first_law d (m_at c) (m_key c)) as (o & Ho & Hl). pose proof (kv_first_spec m) as Hk. rewrite E in Hk.
    rewrite (least_unique _ _ _ _ Hk Ho). by apply step_stands.
  - destruct (mdb_last_law d (m_at c) (m_key c)) as (o & Ho & Hl). pose proof (kv_last_spec m) as Hk. rewrite E in Hk.
    rewrite (greatest_unique _ _ _ _ Hk Ho). by apply step_stands.
  - destruct pos as [p|]; [|simpl in *; by rewrite Hs]. destruct Hs as (Hv & Ha & _). rewrite Hv, bool_decide_true by done.
    destruct (mdb_next_law d p (m_key c)) as (o & Ho & Hl). pose proof (kv_next_spec m p) as Hk. rewrite E in Hk.
    rewrite (least_unique _ _ _ _ Hk Ho). apply step_stands. by rewrite Ha.
  - destruct pos as [p|]; [|simpl in *; by rewrite Hs]. destruct Hs as (Hv & Ha & _). rewrite Hv, bool_decide_true by done.
    destruct (mdb_prev_law d p (m_key c)) as (o & Ho & Hl). pose proof (kv_prev_spec m p) as Hk. rewrite E in Hk.
    rewrite (greatest_unique _ _ _ _ Hk Ho). apply step_stands. by rewrite Ha.
Qed.
Lemma stands_shows m c pos : stands (kv_view m) c pos → cursor_shows c = shows m pos.
Proof.
  unfold cursor_shows, shows. destruct pos as [k|]; simpl; [|by intros ->].
  intros (-> & _ & <- & Hv). by rewrite kv_get_view, Hv.
Qed.
Lemma scan_agrees m d c pos moves :
  kv_view m = mdb_view d → stands (kv_view m) c pos → forallb move_ok moves = true →
  lmdb_scan d c moves = eng_scan m pos moves.
Proof.
  intros E. revert c pos. induction moves as [|mv moves IH]; intros c pos Hs; simpl; [done|].
  intros [Hok Hoks]%andb_true_iff. pose proof (move_stands m d c pos mv E Hs Hok) as Hs'.
  f_equal; [by apply stands_shows|by apply IH].
Qed.

Lemma txn_get_agrees t l k key : agree t l → txn_get l k key = t_get t k key.
Proof.
  intros Ha. unfold txn_get. rewrite t_get_view, Ha. pose proof (mdb_get_law (sub l k) key) as Hl.
  destruct (mdb_view (sub l k) !! key) as [v|]; [by rewrite Hl|].
  destruct (mdb_get (sub l k) key) as [rc w]. simpl in Hl. by rewrite (proj2 (Z.eqb_neq _ _) Hl).
Qed.
Lemma agree_set t l k m d : agree t l → kv_view m = mdb_view d → agree (set_s t k m) (set_s l k d).
Proof. intros Ha E k'. rewrite !sub_set_s. case_decide; [done|apply Ha]. Qed.
Lemma call_agrees t l (c : Call) :
  agree t l → call_ok c = true →
  match lmdb_call l c with
  | Some (a, l') => a = (eng_call t c).1 ∧ agree (eng_call t c).2 l'
  | None => ∃ k key v, c = CPut k key v ∧ ¬ (key_ok key ∧ mdb_room (sub l k) key v)
  end.
Proof.
  intros Ha Hok. destruct c as [k key|k key v|k key|k moves]; cbn [lmdb_call eng_call fst snd].
  - by rewrite (txn_get_agrees t).
  - unfold txn_put. pose proof (mdb_put_law (sub l k) key v) as Hl.
    destruct (mdb_put (sub l k) key v) as [rc d]. cbn [fst snd] in Hl. destruct Hl as [[-> Hv]|[Hrc Hno]].
    + cbn. split; [done|]. apply agree_set; [done|]. by rewrite kv_view_put, Hv, Ha.
    + rewrite (proj2 (Z.eqb_neq _ _) Hrc). cbn. by exists k, key, v.
  - split; [done|]. apply agree_set; [done|]. by rewrite kv_view_del, mdb_del_law, Ha.
  - split; [|done]. f_equal. by apply scan_agrees.
Qed.

(** Some [put] of the sequence has a key outside the limits of the library, or
    finds the map full. *)
Definition refused l (cs : list Call) : Prop :=
  ∃ cs1 k key v cs2 ans l1, cs = cs1 ++ CPut k key v :: cs2 ∧
    lmdb_run l cs1 = Some (ans, l1) ∧ ¬ (key_ok key ∧ mdb_room (sub l1 k) key v).

(** A sequence of calls: the same answers and the same data, up to a [put] that
    the library refuses. *)
Lemma run_agrees t l cs :
  agree t l → forallb call_ok cs = true →
  match lmdb_run l cs with
  | Some (ans, l') => ans = (eng_run t cs).1 ∧ agree (eng_run t cs).2 l'
  | None => refused l cs
  end.
Proof.
  revert t l. induction cs as [|c cs IH]; intros t l Ha; simpl; [done|]. intros [Hok Hoks]%andb_true_iff.
  pose proof (call_agrees t l c Ha Hok) as Hc. destruct (lmdb_call l c) as [[a l1]|] eqn:El.
  - destruct Hc as [-> Ha1]. cbn. destruct (eng_call t c) as [a t1]. cbn [fst snd] in *.
    specialize (IH t1 l1 Ha1 Hoks). destruct (lmdb_run l1 cs) as [[ans l2]|].
    + cbn. destruct (eng_run t1 cs) as [ans' t2]. cbn [fst snd] in *. destruct IH as [-> ?]. done.
    + cbn. destruct IH as (cs1 & k & key & v & cs2 & ans & l2 & -> & Hrun & Hno).
      exists (c :: cs1), k, key, v, cs2, (a :: ans), l2. split; [done|]. split; [|done].
      cbn [lmdb_run]. rewrite El. cbn. by rewrite Hrun.
  - cbn. destruct Hc as (k & key & v & -> & Hno). by exists [], k, key, v, cs, [], l.
Qed.
End Agree.

(** ** Keys of the store *)

(** Each record key of 8 or 16 bytes fits; the key of an up-link holds three
    numbers before the name, so it is refused from 488 bytes of name on. *)
Lemma uplink_key_ok a b c name :
  key_ok (be a ++ be b ++ be c ++ name) ↔ Z.of_nat (length name) <= 487.
Proof. unfold key_ok. rewrite !length_app, !length_be. lia. Qed.

(** ** The end of a transaction *)

Section End.
Context {D : Type} `{!Lmdb D}.
(** What [mdb_txn_commit] returns; with an error the library keeps what was
    committed before. *)
Variable mdb_txn_commit : KvData D → Z.

(** [LmdbTxn] within the environment: what is committed, the transaction's own
    view, and [m_done]. *)
Record LmdbTxn := mkTxn { m_env : KvData D; m_txn : KvData D; m_done : bool }.
Definition txn_begin (env : KvData D) : LmdbTxn := mkTxn env env false.
Definition txn_commit (x : LmdbTxn) : LmdbTxn :=
  mkTxn (if mdb_txn_commit (m_txn x) =? 0 then m_txn x else m_env x) (m_txn x) true.
Definition txn_abort (x : LmdbTxn) : LmdbTxn := mkTxn (m_env x) (m_env x) true.
(** [~LmdbTxn] aborts what was not ended; the environment is what is left. *)
Definition txn_destroy (x : LmdbTxn) : KvData D := m_env (if m_done x then x else txn_abort x).

(** One write transaction of a client: the calls, then [commit] or the destructor
    alone; an exception of [put] unwinds to the destructor. *)
Definition lmdb_txn (env : KvData D) (cs : list Call) (commit : bool) : option (list Answer) * KvData D :=
  match lmdb_run env cs with
  | Some (l, work) =>
      let x := mkTxn env work (m_done (txn_begin env)) in
      (Some l, txn_destroy (if commit then txn_commit x else x))
  | None => (None, txn_destroy (txn_begin env))
  end.
End End.

Section EndAgree.
Context {M D : Type} `{!KvEngine M} `{!Lmdb D}.

(** The engines are interchangeable, and a transaction on LMDB is all or
    nothing: a client gets the answers any engine of the interface gives, and a
    commit that the library accepts leaves the same data. Without [commit], or
    when the library refuses the commit, the environment is as before; the
    client is not told of the latter. A [put] throws only when its key is outside
    the limits of the library or the map is full, and then nothing is written. *)
Theorem lmdb_same_answers (mdb_txn_commit : KvData D → Z) (t : KvData M) (env : KvData D) cs commit :
  agree t env → forallb call_ok cs = true →
  match lmdb_txn mdb_txn_commit env cs commit with
  | (Some ans, env') =>
      ans = (eng_run t cs).1 ∧
      ((commit = true ∧ mdb_txn_commit env' = 0 ∧ agree (eng_run t cs).2 env') ∨
       env' = env ∧ (commit = true → ∃ work, agree (eng_run t cs).2 work ∧ mdb_txn_commit work ≠ 0))
  | (None, env') => env' = env ∧ refused env cs
  end.
Proof.
  intros Ha Hok. pose proof (run_agrees t env cs Ha Hok) as Hr. unfold lmdb_txn.
  destruct (lmdb_run env cs) as [[ans work]|]; [|done]. destruct Hr as [-> Hw]. split; [done|].
  destruct commit; [|by right]. unfold txn_destroy, txn_commit. cbn.
  destruct (Z.eqb_spec (mdb_txn_commit work) 0); [by left|]. right. eauto.
Qed.
End EndAgree.

(** ** An instance of the library's interface *)

Module Demo.
Definition entry_at (m : gmap bytes bytes) (o : option bytes) : Z * (bytes * bytes) :=
  match o with Some k => (0, (k, default [] (m !! k))) | None => (-30798, ([], [])) end.
Definition cursor_get (m : gmap bytes bytes) (p : option bytes) (k : bytes) (op : mdb_op) : Z * (bytes * bytes) :=
  entry_at m (match op with
              | MDB_SET_RANGE => MemKv.seek m k
              | MDB_FIRST => MemKv.first m
              | MDB_LAST => MemKv.last m
              | MDB_NEXT => MemKv.next m p
              | MDB_PREV => MemKv.prev m p
              end).
Definition put (m : gmap bytes bytes) (k v : bytes) : Z * gmap bytes bytes :=
  if decide (key_ok k) then (0, <[k := v]> m) else (-30781, m).
Definition get (m : gmap bytes bytes) (k : bytes) : Z * bytes :=
  match m !! k with Some v => (0, v) | None => (-30798, []) end.

Lemma entry_at_lands P m o : (least P m o ∨ greatest P m o) → lands m (entry_at m o) o.
Proof.
  destruct o as [k|]; [|done]. intros [([v Hv] & _)|([v Hv] & _)]; cbn; by rewrite Hv.
Qed.
Lemma get_law m k : match m !! k with Some v => get m k = (0, v) | None => (get m k).1 ≠ 0 end.
Proof. unfold get. by destruct (m !! k). Qed.
Lemma put_law m k v :
  (put m k v).1 = 0 ∧ (put m k v).2 = <[k := v]> m ∨ (put m k v).1 ≠ 0 ∧ ¬ (key_ok k ∧ True).
Proof. unfold put. case_decide; [by left|]. right. split; [done|]. naive_solver. Qed.
Ltac entry o law := exists o; split; [apply law|]; eapply entry_at_lands; first [left; apply law|right; apply law].
Lemma range_law m (p : option bytes) k : ∃ o, least (bytes_le k) m o ∧ lands m (cursor_get m p k MDB_SET_RANGE) o.
Proof. entry (MemKv.seek m k) (MemKv.least_of_filter m (bytes_le k)). Qed.
Lemma first_law m (p : option bytes) k : ∃ o, least (λ _, True) m o ∧ lands m (cursor_get m p k MDB_FIRST) o.
Proof. entry (MemKv.first m) (MemKv.first_spec m). Qed.
Lemma last_law m (p : option bytes) k : ∃ o, greatest (λ _, True) m o ∧ lands m (cursor_get m p k MDB_LAST) o.
Proof. entry (MemKv.last m) (MemKv.last_spec m). Qed.
Lemma next_law m (p : bytes) k : ∃ o, least (bytes_lt p) m o ∧ lands m (cursor_get m (Some p) k MDB_NEXT) o.
Proof. entry (MemKv.next m (Some p)) (MemKv.least_of_filter m (bytes_lt p)). Qed.
Lemma prev_law m (p : bytes) k : ∃ o, greatest (λ k', bytes_lt k' p) m o ∧ lands m (cursor_get m (Some p) k MDB_PREV) o.
Proof. entry (MemKv.prev m (Some p)) (MemKv.prev_spec m p). Qed.
End Demo.

#[local] Instance DemoLmdb : Lmdb (gmap bytes bytes) := {|
  mdb_view := id;
  mdb_room _ _ _ := True;
  mdb_get := Demo.get;
  mdb_put := Demo.put;
  mdb_del m k := (0, delete k m);
  mdb_cursor_get := Demo.cursor_get;
  mdb_get_law := Demo.get_law;
  mdb_put_law := Demo.put_law;
  mdb_del_law m k := eq_refl;
  mdb_range_law m p k _ := Demo.range_law m p k;
  mdb_first_law := Demo.first_law;
  mdb_last_law := Demo.last_law;
  mdb_next_law := Demo.next_law;
  mdb_prev_law := Demo.prev_law
|}.

(** Two records written, read back and walked in key order from the second, then
    a name too long for a key: the commit takes both, and the throw neither. *)
Definition demo_calls : list Call :=
  [CPut Nodes (str "b") (str "2"); CPut Nodes (str "a") (str "1"); CGet Nodes (str "b");
   CScan Nodes [MFirst; MNext; MNext; MSeek (str "aa"); MPrev]].
Definition demo_long : list Call := demo_calls ++ [CPut UpLinks (repeat "x"%byte 512) []].
Lemma lmdb_same_answers_witness :
  lmdb_txn (λ _, 0) kv_new demo_calls true =
    (Some [ADone; ADone; AGet (Some (str "2"));
           AScan [Some (str "a", str "1"); Some (str "b", str "2"); None; Some (str "b", str "2"); Some (str "a", str "1")]],
     (eng_run kv_new demo_calls).2) ∧
  (let r := lmdb_txn (λ _, 0) kv_new demo_calls true in r.1 = Some (eng_run kv_new demo_calls).1) ∧
  (lmdb_txn (λ _, 0) kv_new demo_long true).2 = kv_new ∧ refused kv_new demo_long.
Proof.
  assert (agree (M := gmap bytes bytes) kv_new kv_new) as Ha by (intros []; reflexivity).
  split; [vm_compute; reflexivity|].
  pose proof (lmdb_same_answers (λ _, 0) kv_new kv_new demo_calls true Ha eq_refl) as H1.
  pose proof (lmdb_same_answers (λ _, 0) kv_new kv_new demo_long true Ha eq_refl) as H2.
  destruct (lmdb_txn (λ _, 0) kv_new demo_calls true) as [r1 e1] eqn:E1.
  destruct (lmdb_txn (λ _, 0) kv_new demo_long true) as [r2 e2] eqn:E2.
  assert (r2 = None) as -> by (change (fst (r2, e2) = None); rewrite <- E2; vm_compute; reflexivity).
  destruct r1 as [ans|]; [|exfalso; assert (fst (lmdb_txn (λ _, 0) kv_new demo_calls true) ≠ None) as Hn by (vm_compute; discriminate); apply Hn; rewrite E1; reflexivity].
  destruct H1 as [-> _]. destruct H2 as [-> H2]. split; [reflexivity|]. split; [reflexivity|exact H2].
Defined.
