(* ===== verification/LmdbEnv.v ===== *)
(** * LmdbEnv: the environment of the LMDB engine (src/storage/lmdb/kv.cpp,
    [LmdbKv], [LmdbEngine], [makeLmdbKv])

    Opening a directory of the disk as a store of six databases, transactions on
    it, and opening it again. The file system and the part of liblmdb that has to
    do with files and handles are the interface [LmdbDisk]; [Lmdb] is one database
    within a transaction. A transaction is taken to begin: [mdb_txn_begin] fails
    for lack of memory only, and no other process has the directory open. *)
From stdpp Require Import functions.
From S2P Require Import Prelude Keys Kv Lmdb.
Local Open Scope Z_scope.
Set Warnings "-clear-no-such-hyp".

(** ** The library *)

Section Library.
Context {D : Type}.
(** An environment in use: the limits set before it is opened, and the handles
    that are open, each for a database by name. *)
Record MdbEnv := mkEnv { env_path : bytes; env_maxdbs : Z; env_mapsize : Z; env_names : gmap Z bytes }.
(** A transaction: the databases as it sees them, and the handles it can use. *)
Record MdbTxn := mkMdbTxn { x_dbs : gmap bytes D; x_names : gmap Z bytes }.
End Library.
Arguments MdbTxn : clear implicits.

(** [F] is the disk. [disk_dbs] is what was committed in a directory, nothing if
    there is no environment in it; [None] is an exception of the file system.
    A handle stands for the database it was opened for, which is made if it is
    not there; no more than [env_maxdbs] are open at once. A commit is whole or
    nothing, and what is committed is there when the directory is opened again. *)
Class LmdbDisk (D F : Type) `{!Lmdb D} := {
  disk_dbs : F → bytes → gmap bytes D;
  mdb_new : D;
  mdb_dbi_room : gmap bytes D → bytes → Prop;
  remove_all : F → bytes → option F;
  create_directories : F → bytes → option F;
  mdb_env_open : F → MdbEnv → Z * F;
  mdb_dbi_open : MdbEnv → MdbTxn D → bytes → Z * (MdbTxn D * Z);
  mdb_env_commit : F → MdbEnv → gmap bytes D → Z * F;
  mdb_new_law : mdb_view mdb_new = ∅;
  remove_all_law f p f' : remove_all f p = Some f' → disk_dbs f' p = ∅;
  create_directories_law f p f' : create_directories f p = Some f' → disk_dbs f' p = disk_dbs f p;
  mdb_env_open_law f e : disk_dbs (mdb_env_open f e).2 (env_path e) = disk_dbs f (env_path e);
  mdb_dbi_open_law e x n : let '(rc, (x', h)) := mdb_dbi_open e x n in
    rc = 0 ∧ x_dbs x' = (if decide (is_Some (x_dbs x !! n)) then x_dbs x else <[n := mdb_new]> (x_dbs x)) ∧
      x_names x' = <[h := n]> (x_names x) ∧ (x_names x !! h = None ∨ x_names x !! h = Some n) ∨
    rc ≠ 0 ∧ x' = x ∧ ¬ (Z.of_nat (size (x_names x)) < env_maxdbs e ∧ mdb_dbi_room (x_dbs x) n);
  mdb_env_commit_law f e dbs : disk_dbs (mdb_env_commit f e dbs).2 (env_path e) =
    if (mdb_env_commit f e dbs).1 =? 0 then dbs else disk_dbs f (env_path e)
}.

(** ** The engine *)

Section Engine.
Context {D F : Type} `{!Lmdb D} `{!LmdbDisk D F}.
Implicit Types (f : F) (x : MdbTxn D) (dbi : Kv → Z).

(** The order of [enum class Kv], which ends in [COUNT_]. *)
Definition all_kv : list Kv := [Nodes; DownLinks; UpLinks; Changes; Meta; Snaps].
(** The loop of the constructor, which does not look at what [mdb_dbi_open]
    returns; a handle that is not opened stays as it is. *)
Fixpoint open_dbis env x dbi (ks : list Kv) : MdbTxn D * (Kv → Z) :=
  match ks with
  | [] => (x, dbi)
  | k :: ks' =>
      let '(rc, (x, h)) := mdb_dbi_open env x (kvName k) in
      open_dbis env x (if rc =? 0 then <[k := h]> dbi else dbi) ks'
  end.
Record LmdbKv := mkLmdbKv { kv_env : MdbEnv; m_dbi : Kv → Z }.
(** [LmdbKv(path, clean)]: [None] is an exception. The status of the commit is
    not looked at; the handles of a transaction that is not committed are closed. *)
Definition makeLmdbKv f (path : bytes) (clean : bool) : option LmdbKv * F :=
  match (if clean then remove_all f path else Some f) with
  | None => (None, f)
  | Some f =>
      match create_directories f path with
      | None => (None, f)
      | Some f =>
          let env := mkEnv path (Z.of_nat (length all_kv)) (Z.shiftl 1 30) ∅ in
          let '(rc, f) := mdb_env_open f env in
          if negb (rc =? 0) then (None, f)
          else
            let '(x, dbi) := open_dbis env (mkMdbTxn (disk_dbs f path) ∅) (λ _, 0) all_kv in
            let '(rc, f) := mdb_env_commit f env (x_dbs x) in
            (Some (mkLmdbKv (if rc =? 0 then mkEnv path (env_maxdbs env) (env_mapsize env) (x_names x) else env) dbi), f)
      end
  end.

(** [LmdbTxn::db]: the database of a sub-store, through its handle. *)
Definition db (s : LmdbKv) (dbs : gmap bytes D) (k : Kv) : option D := n ← env_names (kv_env s) !! m_dbi s k; dbs !! n.
(** What a transaction sees; [None] if a handle is not one of an open database. *)
Definition kv_data (s : LmdbKv) f : option (KvData D) :=
  let dbs := disk_dbs f (env_path (kv_env s)) in
  a ← db s dbs Nodes; b ← db s dbs DownLinks; c ← db s dbs UpLinks;
  d ← db s dbs Changes; e ← db s dbs Meta; g ← db s dbs Snaps;
  Some (mkKv a b c d e g).
(** The databases of the environment with what a transaction made of the six. *)
Definition with_data (s : LmdbKv) (dbs : gmap bytes D) (t : KvData D) : gmap bytes D :=
  foldr (λ k dbs, match env_names (kv_env s) !! m_dbi s k with Some n => <[n := sub t k]> dbs | None => dbs end) dbs all_kv.
(** One write transaction: the answers, none if a [put] threw, and whether it
    took effect, of which the client is not told. *)
Definition kv_txn (s : LmdbKv) f (cs : list Call) (commit : bool) : option (option (list Answer) * bool * F) :=
  t ← kv_data s f;
  Some (match lmdb_run t cs with
        | None => (None, false, f)
        | Some (l, work) =>
            if commit then
              let '(rc, f) := mdb_env_commit f (kv_env s) (with_data s (disk_dbs f (env_path (kv_env s))) work) in
              (Some l, rc =? 0, f)
            else (Some l, false, f)
        end).
Fixpoint kv_txns (s : LmdbKv) f (ts : list (list Call * bool)) : option (list (option (list Answer) * bool) * F) :=
  match ts with
  | [] => Some ([], f)
  | (cs, commit) :: ts' =>
      '(a, took, f) ← kv_txn s f cs commit;
      '(l, f) ← kv_txns s f ts';
      Some ((a, took) :: l, f)
  end.
End Engine.

(** ** What is on the disk *)

Section Durable.
Context {M D F : Type} `{!KvEngine M} `{!Lmdb D} `{!LmdbDisk D F}.
Implicit Types (f : F) (x : MdbTxn D) (dbi : Kv → Z) (t : KvData M) (s : LmdbKv) (dbs : gmap bytes D).

(** A directory holds the data of [t]: a database that is not there is empty. *)
Definition holds_dbs dbs t : Prop := ∀ k, kv_view (sub t k) = from_option mdb_view ∅ (dbs !! kvName k).
Definition holds f (path : bytes) t : Prop := holds_dbs (disk_dbs f path) t.
(** Each handle is that of its own database, which is there. *)
Definition usable s : Prop := ∀ k, env_names (kv_env s) !! m_dbi s k = Some (kvName k).
Definition there dbs : Prop := ∀ k, is_Some (dbs !! kvName k).

(** The answers [outs] to the transactions [ts] are those of an engine of the
    interface from [t] on, where those that took effect, and they only, change
    the data; a [put] throws on what the library refuses only. *)
Fixpoint answered t (ts : list (list Call * bool)) (outs : list (option (list Answer) * bool)) t' : Prop :=
  match ts, outs with
  | [], [] => t' = t
  | (cs, commit) :: ts', (a, took) :: outs' =>
      (took = true → commit = true) ∧
      match a with
      | Some l => l = (eng_run t cs).1 ∧ answered (if took then (eng_run t cs).2 else t) ts' outs' t'
      | None => took = false ∧ (∃ l : KvData D, agree t l ∧ refused l cs) ∧ answered t ts' outs' t'
      end
  | _, _ => False
  end.

(** *** Opening *)

Lemma elem_all_kv k : k ∈ all_kv.
Proof. unfold all_kv. destruct k; set_solver. Qed.
Lemma holds_new dbs n t :
  holds_dbs (if decide (is_Some (dbs !! n)) then dbs else <[n := mdb_new]> dbs) t ↔ holds_dbs dbs t.
Proof.
  case_decide as H; [done|]. apply eq_None_not_Some in H. unfold holds_dbs. split; intros Hh k; rewrite Hh.
  all: destruct (decide (n = kvName k)) as [->|Hn]; [|by rewrite lookup_insert_ne].
  all: rewrite lookup_insert_eq, H; simpl; by rewrite mdb_new_law.
Qed.
Lemma open_dbis_holds env x dbi ks t : holds_dbs (x_dbs (open_dbis env x dbi ks).1) t ↔ holds_dbs (x_dbs x) t.
Proof.
  revert x dbi. induction ks as [|k ks IH]; intros x dbi; simpl; [done|].
  pose proof (mdb_dbi_open_law env x (kvName k)) as L. destruct (mdb_dbi_open env x (kvName k)) as [rc [x' h]]. rewrite IH.
  destruct L as [(_ & -> & _)|(_ & -> & _)]; [apply holds_new|done].
Qed.
(** The databases that handles stand for are there. *)
Definition named x : Prop := ∀ h n, x_names x !! h = Some n → is_Some (x_dbs x !! n).
Lemma dbi_open_named env x n : named x → named (mdb_dbi_open env x n).2.1.
Proof.
  intros Hx. pose proof (mdb_dbi_open_law env x n) as L. destruct (mdb_dbi_open env x n) as [rc [x' h]].
  destruct L as [(_ & Hd & Hn & _)|(_ & -> & _)]; [|done]. intros h' n'. cbn. rewrite Hn, Hd.
  intros [[<- <-]|[_ H]]%lookup_insert_Some.
  - case_decide; [done|]. rewrite lookup_insert_eq. by eexists.
  - apply Hx in H. case_decide; [done|]. by apply lookup_insert_is_Some'; right.
Qed.
Lemma open_dbis_named env x dbi ks : named x → named (open_dbis env x dbi ks).1.
Proof.
  revert x dbi. induction ks as [|k ks IH]; intros x dbi Hx; simpl; [done|].
  pose proof (dbi_open_named env x (kvName k) Hx) as H. destruct (mdb_dbi_open env x (kvName k)) as [rc [x' h]]. by apply IH.
Qed.
(** Six handles are enough: with room on the disk every database is opened. *)
Lemma open_dbis_all env x dbi (ks : list Kv) (P : Kv → Prop) :
  (∀ dbs n, mdb_dbi_room dbs n) → Z.of_nat (size (x_names x)) + Z.of_nat (length ks) <= env_maxdbs env →
  NoDup ks → (∀ k, P k → (k ∉ ks) ∧ x_names x !! dbi k = Some (kvName k)) →
  ∀ k, P k ∨ k ∈ ks → x_names (open_dbis env x dbi ks).1 !! (open_dbis env x dbi ks).2 k = Some (kvName k).
Proof.
  intros Hroom. revert x dbi P. induction ks as [|k ks IH]; intros x dbi P Hsz Hnd HP; simpl.
  { intros k [Hk|[]%elem_of_nil]. by apply HP. }
  apply NoDup_cons in Hnd as [Hk Hnd]. cbn [length] in Hsz.
  pose proof (mdb_dbi_open_law env x (kvName k)) as L. destruct (mdb_dbi_open env x (kvName k)) as [rc [x' h]].
  destruct L as [(-> & _ & Hn & Hh)|(_ & _ & [])]; [|split; [lia|done]].
  cbn. intros k' Hk'. apply (IH x' (<[k := h]> dbi) (λ j, P j ∨ j = k)); [|done|..|set_solver].
  - rewrite Hn. destruct Hh as [Hh|Hh]; [rewrite map_size_insert_None by done|rewrite map_size_insert_Some by eauto]; lia.
  - intros j [Hj| ->].
    + destruct (HP j Hj) as [Hj1 Hj2]. split; [set_solver|]. rewrite fn_lookup_insert_ne by set_solver.
      rewrite Hn. destruct (decide (dbi j = h)) as [<-|]; [|by rewrite lookup_insert_ne].
      rewrite lookup_insert_eq. destruct Hh as [Hh|Hh]; rewrite Hh in Hj2; [done|]. by injection Hj2 as [= ->].
    + split; [done|]. by rewrite fn_lookup_insert, Hn, lookup_insert_eq.
Qed.

(** *** One transaction *)

Lemma usable_db s dbs k : usable s → db s dbs k = dbs !! kvName k.
Proof. intros Hu. unfold db. by rewrite Hu. Qed.
Lemma kv_data_some s f t :
  usable s → there (disk_dbs f (env_path (kv_env s))) → holds f (env_path (kv_env s)) t →
  ∃ d, kv_data s f = Some d ∧ agree t d.
Proof.
  intros Hu Ht Hh. unfold kv_data, holds, holds_dbs in *. rewrite !usable_db by done.
  destruct (Ht Nodes) as [a Ea], (Ht DownLinks) as [b Eb], (Ht UpLinks) as [c Ec], (Ht Changes) as [d Ed],
    (Ht Meta) as [e Ee], (Ht Snaps) as [g Eg].
  rewrite Ea, Eb, Ec, Ed, Ee, Eg. eexists. split; [reflexivity|].
  intros []; rewrite Hh, ?Ea, ?Eb, ?Ec, ?Ed, ?Ee, ?Eg; reflexivity.
Qed.
Lemma with_data_lookup s dbs d k : usable s → with_data s dbs d !! kvName k = Some (sub d k).
Proof.
  intros Hu. unfold with_data. pose proof (elem_all_kv k) as Hk. induction all_kv as [|j l IH]; [by apply elem_of_nil in Hk|].
  cbn. rewrite (Hu j). destruct (decide (j = k)) as [->|Hj]; [by rewrite lookup_insert_eq|].
  rewrite lookup_insert_ne by (by intros ?%kvName_inj). apply IH. set_solver.
Qed.
Lemma kv_txn_spec s f t cs commit :
  usable s → there (disk_dbs f (env_path (kv_env s))) → holds f (env_path (kv_env s)) t → forallb call_ok cs = true →
  ∃ a took f', kv_txn s f cs commit = Some (a, took, f') ∧ there (disk_dbs f' (env_path (kv_env s))) ∧
    (took = true → commit = true) ∧
    match a with
    | Some l => l = (eng_run t cs).1 ∧ holds f' (env_path (kv_env s)) (if took then (eng_run t cs).2 else t)
    | None => took = false ∧ (∃ l : KvData D, agree t l ∧ refused l cs) ∧ holds f' (env_path (kv_env s)) t
    end.
Proof.
  intros Hu Ht Hh Hok. destruct (kv_data_some s f t Hu Ht Hh) as (d & E & Ha). unfold kv_txn. rewrite E. cbn.
  pose proof (run_agrees t d cs Ha Hok) as Hr. destruct (lmdb_run d cs) as [[l work]|].
  - destruct Hr as [-> Hw]. destruct commit; [|naive_solver].
    pose proof (mdb_env_commit_law f (kv_env s) (with_data s (disk_dbs f (env_path (kv_env s))) work)) as L.
    destruct (mdb_env_commit f (kv_env s) _) as [rc f']. cbn [fst snd] in L.
    do 3 eexists. split; [done|]. unfold holds, holds_dbs, there. rewrite L. destruct (rc =? 0); [|done].
    split_and!; [intros k; rewrite with_data_lookup by done; by eexists|done|done|].
    intros k. rewrite with_data_lookup by done. apply Hw.
  - do 3 eexists. split; [done|]. split; [done|]. split; [done|]. split; [done|]. eauto.
Qed.
Lemma kv_txns_spec s f t ts :
  usable s → there (disk_dbs f (env_path (kv_env s))) → holds f (env_path (kv_env s)) t →
  forallb (λ c, forallb call_ok c.1) ts = true →
  ∃ outs f' t', kv_txns s f ts = Some (outs, f') ∧ answered t ts outs t' ∧ holds f' (env_path (kv_env s)) t'.
Proof.
  intros Hu. revert f t. induction ts as [|[cs commit] ts IH]; intros f t Ht Hh Hok.
  { by exists [], f, t. }
  cbn in Hok. apply andb_true_iff in Hok as [Hok Hoks].
  destruct (kv_txn_spec s f t cs commit Hu Ht Hh Hok) as (a & took & f1 & E & Ht1 & Htook & Ha). cbn. rewrite E. cbn.
  destruct a as [l|].
  - destruct Ha as [-> Hh1]. destruct (IH f1 _ Ht1 Hh1 Hoks) as (outs & f2 & t' & -> & Han & Hh2).
    exists ((Some (eng_run t cs).1, took) :: outs), f2, t'. by split_and!.
  - destruct Ha as (-> & Hr & Hh1). destruct (IH f1 _ Ht1 Hh1 Hoks) as (outs & f2 & t' & -> & Han & Hh2).
    exists ((None, false) :: outs), f2, t'. by split_and!.
Qed.

(** *** Opening and opening again *)

Lemma makeLmdbKv_spec f path (clean : bool) t :
  (clean = false → holds f path t) →
  match makeLmdbKv f path clean with
  | (Some s, f') =>
      env_path (kv_env s) = path ∧ holds f' path (if clean then kv_new else t) ∧ (usable s → there (disk_dbs f' path))
  | (None, f') => clean = false → holds f' path t
  end.
Proof.
  intros Hh. unfold makeLmdbKv.
  assert (match (if clean then remove_all f path else Some f) with
          | Some f1 => holds f1 path (if clean then kv_new else t) | None => clean = true end) as Hr.
  { destruct clean; [|auto]. destruct (remove_all f path) as [f1|] eqn:E; [|done].
    unfold holds, holds_dbs. rewrite (remove_all_law _ _ _ E). intros k. rewrite lookup_empty. by destruct k; cbn; rewrite kv_view_empty. }
  destruct (if clean then _ else _) as [f1|]; [|by rewrite Hr].
  destruct (create_directories f1 path) as [f2|] eqn:E2; [|by intros ->].
  set (env := mkEnv path _ _ ∅). pose proof (mdb_env_open_law f2 env) as L3. destruct (mdb_env_open f2 env) as [rc f3].
  cbn [snd] in L3. change (env_path env) with path in L3.
  assert (holds f3 path (if clean then kv_new else t)) as Hh3.
  { unfold holds. by rewrite L3, (create_directories_law _ _ _ E2). }
  destruct (negb (rc =? 0)); [by intros ->|].
  set (x0 := mkMdbTxn (disk_dbs f3 path) ∅).
  assert (named (open_dbis env x0 (λ _, 0) all_kv).1) as Hn by (apply open_dbis_named; intros h n; cbn; by rewrite lookup_empty).
  pose proof (proj2 (open_dbis_holds env x0 (λ _, 0) all_kv _) Hh3) as Hx.
  destruct (open_dbis env x0 (λ _, 0) all_kv) as [x dbi]. cbn [fst] in *.
  pose proof (mdb_env_commit_law f3 env (x_dbs x)) as L4. destruct (mdb_env_commit f3 env (x_dbs x)) as [rc4 f4].
  cbn [fst snd] in L4. change (env_path env) with path in L4. unfold holds. rewrite L4.
  destruct (rc4 =? 0); (split; [done|]; split; [done|]); intros Hu k.
  - by apply (Hn (dbi k)), Hu.
  - specialize (Hu k). cbn in Hu. by rewrite lookup_empty in Hu.
Qed.

(** With room on the disk, and a commit that succeeds, opening gives a store
    that can be used: the limit of six databases is enough. *)
Lemma makeLmdbKv_usable f path clean s f1 :
  (∀ dbs n, mdb_dbi_room dbs n) → (∀ f e dbs, (mdb_env_commit f e dbs).1 = 0) →
  makeLmdbKv f path clean = (Some s, f1) → usable s.
Proof.
  intros Hroom Hc. unfold makeLmdbKv. destruct (if clean then _ else _) as [f2|]; [|done].
  destruct (create_directories f2 path) as [f3|]; [|done]. set (env := mkEnv path _ _ ∅).
  destruct (mdb_env_open f3 env) as [rc f4]. destruct (negb _); [done|]. set (x0 := mkMdbTxn _ ∅).
  pose proof (open_dbis_all env x0 (λ _, 0) all_kv (λ _, False) Hroom) as H.
  destruct (open_dbis env x0 (λ _, 0) all_kv) as [x dbi]. cbn [fst snd] in H.
  pose proof (Hc f4 env (x_dbs x)) as Hrc. destruct (mdb_env_commit f4 env (x_dbs x)) as [rc5 f5]. cbn in Hrc. subst rc5.
  intros [= <- _] k. apply H; [done| |naive_solver|right; apply elem_all_kv].
  by apply (bool_decide_eq_true (NoDup all_kv)).
Qed.
(** What [mdb_txn_commit] returns is not looked at: where it fails, a store
    without a database is handed out. *)
Lemma open_unchecked f path s f1 :
  (∀ f e dbs, (mdb_env_commit f e dbs).1 ≠ 0) → makeLmdbKv f path false = (Some s, f1) → ∀ dbs k, db s dbs k = None.
Proof.
  intros Hc. unfold makeLmdbKv. destruct (create_directories f path) as [f3|]; [|done].
  set (env := mkEnv path _ _ ∅). destruct (mdb_env_open f3 env) as [rc f4]. destruct (negb _); [done|].
  destruct (open_dbis _ _ _ _) as [x dbi]. pose proof (Hc f4 env (x_dbs x)) as Hrc.
  destruct (mdb_env_commit f4 env (x_dbs x)) as [rc5 f5]. cbn in Hrc. rewrite (proj2 (Z.eqb_neq _ _) Hrc).
  by intros [= <- _].
Qed.

(** C40. What a transaction over LMDB answers and what it leaves on the disk: on a
    directory opened as a store - emptied first if [clean] - every write
    transaction gets the answers of any engine of the interface that holds the
    data so far; exactly those take effect that are committed with the library's
    consent, as a whole; a [put] throws only on what the library refuses. Opening
    the directory again gives the data of those transactions. *)
Theorem lmdb_durable f path (clean : bool) t ts s f1 :
  (clean = false → holds f path t) → makeLmdbKv f path clean = (Some s, f1) → usable s →
  forallb (λ c, forallb call_ok c.1) ts = true →
  ∃ outs f2 t', kv_txns s f1 ts = Some (outs, f2) ∧ answered (if clean then kv_new else t) ts outs t' ∧
    match makeLmdbKv f2 path false with
    | (Some s2, f3) => usable s2 → ∃ d, kv_data s2 f3 = Some d ∧ agree t' d
    | (None, f3) => holds f3 path t'
    end.
Proof.
  intros Hh E Hu Hok. pose proof (makeLmdbKv_spec f path clean t Hh) as Hs. rewrite E in Hs.
  destruct Hs as (<- & Hh1 & Ht). destruct (kv_txns_spec s f1 _ ts Hu (Ht Hu) Hh1 Hok) as (outs & f2 & t' & Et & Ha & Hh2).
  exists outs, f2, t'. split_and!; [done..|]. pose proof (makeLmdbKv_spec f2 (env_path (kv_env s)) false t' (λ _, Hh2)) as Hs2.
  destruct (makeLmdbKv f2 _ false) as [[s2|] f3]; [|by apply Hs2]. destruct Hs2 as (Hp & Hh3 & Ht3). intros Hu2.
  rewrite <- Hp in Hh3, Ht3. by apply kv_data_some; [|apply Ht3|].
Qed.
End Durable.

(** ** An instance of the interface *)

Section Demo.
#[local] Existing Instance DemoLmdb.
Abbreviation Disk := (gmap bytes (gmap bytes (gmap bytes bytes))).
Implicit Types (f : Disk) (x : MdbTxn (gmap bytes bytes)).
Definition demo_dbi_open (e : MdbEnv) x (n : bytes) : Z * (MdbTxn (gmap bytes bytes) * Z) :=
  if decide (Z.of_nat (size (x_names x)) < env_maxdbs e) then
    let h := fresh (dom (x_names x)) in
    (0, (mkMdbTxn (if decide (is_Some (x_dbs x !! n)) then x_dbs x else <[n := ∅]> (x_dbs x)) (<[h := n]> (x_names x)), h))
  else (-30791, (x, 0)).
#[local] Program Instance DemoDisk : LmdbDisk (gmap bytes bytes) Disk := {|
  disk_dbs f p := default ∅ (f !! p);
  mdb_new := ∅;
  mdb_dbi_room _ _ := True;
  remove_all f p := Some (delete p f);
  create_directories f p := Some f;
  mdb_env_open f e := (0, f);
  mdb_dbi_open := demo_dbi_open;
  mdb_env_commit f e dbs := (0, <[env_path e := dbs]> f)
|}.
Next Obligation. done. Qed.
Next Obligation. intros f p f' [= <-]. by rewrite lookup_delete_eq. Qed.
Next Obligation. by intros f p f' [= <-]. Qed.
Next Obligation. done. Qed.
Next Obligation.
  intros e x n. unfold demo_dbi_open. case_decide as H; [|by right; naive_solver].
  left. split_and!; [done..|]. left. apply not_elem_of_dom, is_fresh.
Qed.
Next Obligation. intros f e dbs. cbn. by rewrite lookup_insert_eq. Qed.

(** A directory with old data is opened clean; two records are committed, a
    transaction with a key that is too long throws, a third is dropped. *)
Definition demo_disk : Disk := {[str "db" := {[str "nodes" := {[str "old" := str "x"]}]}]}.
Definition demo_ts : list (list Call * bool) := [(demo_calls, true); (demo_long, true); ([CDel Nodes (str "a")], false)].
Definition demo_open : option LmdbKv * Disk := makeLmdbKv demo_disk (str "db") true.
Definition demo_outs : list bool * option bytes :=
  match demo_open with
  | (Some s, f1) => match kv_txns s f1 demo_ts with
                    | Some (outs, f2) => (outs.*2, disk_dbs f2 (str "db") !! str "nodes" ≫= lookup (str "a"))
                    | None => ([], None)
                    end
  | _ => ([], None)
  end.
Lemma lmdb_durable_witness :
  demo_outs = ([true; false; false], Some (str "1")) ∧
  match demo_open with
  | (Some s, f1) =>
      ∃ outs f2 (t' : KvData (gmap bytes bytes)), kv_txns s f1 demo_ts = Some (outs, f2) ∧ answered (D := gmap bytes bytes) kv_new demo_ts outs t' ∧
        match makeLmdbKv f2 (str "db") false with
        | (Some s2, f3) => usable s2 → ∃ d, kv_data s2 f3 = Some d ∧ agree t' d
        | (None, f3) => holds f3 (str "db") t'
        end
  | (None, _) => False
  end.
Proof.
  split; [vm_compute; reflexivity|]. destruct demo_open as [[s|] f1] eqn:E.
  - apply (lmdb_durable demo_disk (str "db") true kv_new demo_ts s f1); [discriminate|exact E| |reflexivity].
    eapply makeLmdbKv_usable; [| |exact E]; [exact (λ _ _, I)|intros; reflexivity].
  - apply (f_equal fst) in E. vm_compute in E. discriminate.
Defined.
End Demo.
