(* ===== verification/NodeRec.v ===== *)
(** * NodeRec: node records and their on-disk form (src/core/prfs.cpp)

    The public enumerations (include/prfs/prfs.hpp), the versioned node record,
    its serialization ([serialize]/[deserialize], native-endian [memcpy] of
    each field) and the round trip between the two. *)
From S2P Require Import Prelude Keys.
Local Open Scope Z_scope.

(** ** Enumerations *)

Inductive FType := REG | DIR | LNK | BLK | CHR | FIFO | SOCK.
Global Instance FType_eq_dec : EqDecision FType.
Proof. solve_decision. Defined.
(** [uint32_t(Type)]: the enumerator's value, as records and handles carry it. *)
Definition tcode (t : FType) : Z :=
  match t with
  | REG => 0 | DIR => 1 | LNK => 2 | BLK => 3 | CHR => 4 | FIFO => 5 | SOCK => 6
  end.

Inductive Error := OK | NOENT | EXIST | NOTDIR | ISDIR | INVAL | NOTEMPTY | PERM.
Global Instance Error_eq_dec : EqDecision Error.
Proof. solve_decision. Defined.

(** Default permission bits of a fresh node. *)
Definition defaultMode (t : FType) : Z :=
  match t with
  | DIR => 493 (* 0755 *)
  | LNK => 511 (* 0777 *)
  | _ => 420   (* 0644 *)
  end.

(** ** Records *)

Record NodeRec := mkNode {
  r_type : Z; r_mode : Z; r_uid : Z; r_gid : Z; r_nlink : Z; r_atimeNs : Z; r_mtimeNs : Z;
  r_size : Z; r_atime : Z; r_mtime : Z; r_ctime : Z; r_spec : Z; r_dn : Z; r_up : Z;
  r_blob : bytes
}.
Global Instance NodeRec_eq_dec : EqDecision NodeRec.
Proof. solve_decision. Defined.

(** [NodeRec r;]: every field zero, no blob. *)
Definition NodeRec0 : NodeRec := mkNode 0 0 0 0 0 0 0 0 0 0 0 0 0 0 [].

(** Assignments to one field. *)
Definition set_type (x : Z) (r : NodeRec) := let 'mkNode _ m u g n an mn sz a t c sp d up b := r in mkNode x m u g n an mn sz a t c sp d up b.
Definition set_mode (x : Z) (r : NodeRec) := let 'mkNode ty _ u g n an mn sz a t c sp d up b := r in mkNode ty x u g n an mn sz a t c sp d up b.
Definition set_uid (x : Z) (r : NodeRec) := let 'mkNode ty m _ g n an mn sz a t c sp d up b := r in mkNode ty m x g n an mn sz a t c sp d up b.
Definition set_gid (x : Z) (r : NodeRec) := let 'mkNode ty m u _ n an mn sz a t c sp d up b := r in mkNode ty m u x n an mn sz a t c sp d up b.
Definition set_nlink (x : Z) (r : NodeRec) := let 'mkNode ty m u g _ an mn sz a t c sp d up b := r in mkNode ty m u g x an mn sz a t c sp d up b.
Definition set_atimeNs (x : Z) (r : NodeRec) := let 'mkNode ty m u g n _ mn sz a t c sp d up b := r in mkNode ty m u g n x mn sz a t c sp d up b.
Definition set_mtimeNs (x : Z) (r : NodeRec) := let 'mkNode ty m u g n an _ sz a t c sp d up b := r in mkNode ty m u g n an x sz a t c sp d up b.
Definition set_size (x : Z) (r : NodeRec) := let 'mkNode ty m u g n an mn _ a t c sp d up b := r in mkNode ty m u g n an mn x a t c sp d up b.
Definition set_atime (x : Z) (r : NodeRec) := let 'mkNode ty m u g n an mn sz _ t c sp d up b := r in mkNode ty m u g n an mn sz x t c sp d up b.
Definition set_mtime (x : Z) (r : NodeRec) := let 'mkNode ty m u g n an mn sz a _ c sp d up b := r in mkNode ty m u g n an mn sz a x c sp d up b.
Definition set_ctime (x : Z) (r : NodeRec) := let 'mkNode ty m u g n an mn sz a t _ sp d up b := r in mkNode ty m u g n an mn sz a t x sp d up b.
Definition set_spec (x : Z) (r : NodeRec) := let 'mkNode ty m u g n an mn sz a t c _ d up b := r in mkNode ty m u g n an mn sz a t c x d up b.
Definition set_dn (x : Z) (r : NodeRec) := let 'mkNode ty m u g n an mn sz a t c sp _ up b := r in mkNode ty m u g n an mn sz a t c sp x up b.
Definition set_up (x : Z) (r : NodeRec) := let 'mkNode ty m u g n an mn sz a t c sp d _ b := r in mkNode ty m u g n an mn sz a t c sp d x b.
Definition set_blob (x : bytes) (r : NodeRec) := let 'mkNode ty m u g n an mn sz a t c sp d up _ := r in mkNode ty m u g n an mn sz a t c sp d up x.

(** ** Serialization *)

(** Appending [n] raw bytes of the word [v]: the [n] bytes of the word in memory order
    (little-endian). *)
Fixpoint le (n : nat) (x : Z) : bytes :=
  match n with
  | O => []
  | S n' => zb (Z.land x 255) :: le n' (Z.shiftr x 8)
  end.
(** [memcpy(&x, p, n)] back. *)
Definition unle (p : bytes) : Z := foldr (λ b acc, Z.lor (Z.shiftl acc 8) (bz b)) 0 p.

Definition serialize (r : NodeRec) : bytes :=
  le 4 (r_type r) ++ le 4 (r_mode r) ++ le 4 (r_uid r) ++ le 4 (r_gid r) ++ le 4 (r_nlink r) ++
  le 8 (r_size r) ++ le 8 (r_atime r) ++ le 8 (r_mtime r) ++ le 8 (r_ctime r) ++
  le 8 (r_spec r) ++ le 8 (r_dn r) ++ le 8 (r_up r) ++
  le 4 (r_atimeNs r) ++ le 4 (r_mtimeNs r) ++ r_blob r.

(** [u32]/[u64] of [deserialize]: copy [n] bytes at the offset, advance it. *)
Definition rd (n : nat) (v : bytes) : Z * bytes := (unle (take n v), drop n v).

Definition deserialize (v : bytes) : NodeRec :=
  let '(ty, v) := rd 4 v in
  let '(mode, v) := rd 4 v in
  let '(uid, v) := rd 4 v in
  let '(gid, v) := rd 4 v in
  let '(nlink, v) := rd 4 v in
  let '(size, v) := rd 8 v in
  let '(atime, v) := rd 8 v in
  let '(mtime, v) := rd 8 v in
  let '(ctime, v) := rd 8 v in
  let '(spec, v) := rd 8 v in
  let '(dn, v) := rd 8 v in
  let '(up, v) := rd 8 v in
  let '(atimeNs, v) := rd 4 v in
  let '(mtimeNs, v) := rd 4 v in
  mkNode ty mode uid gid nlink atimeNs mtimeNs size atime mtime ctime spec dn up v.

(** ** Lemmas *)

(** Every field is in the range of its C type. *)
Definition rec_ok (r : NodeRec) : Prop :=
  (in32 (r_type r) ∧ in32 (r_mode r) ∧ in32 (r_uid r) ∧ in32 (r_gid r) ∧ in32 (r_nlink r) ∧
   in32 (r_atimeNs r) ∧ in32 (r_mtimeNs r)) ∧
  (in64 (r_size r) ∧ in64 (r_atime r) ∧ in64 (r_mtime r) ∧ in64 (r_ctime r) ∧ in64 (r_spec r)) ∧
  in64 (r_dn r) ∧ in64 (r_up r).

Lemma length_le n x : length (le n x) = n.
Proof. revert x. induction n as [|n IH]; intros; simpl; [done|]. by rewrite IH. Qed.

Lemma unle_le n x : unle (le n x) = x mod 256 ^ Z.of_nat n.
Proof.
  revert x. induction n as [|n IH]; intros x; [by rewrite Z.mod_1_r|].
  simpl le. unfold unle in *. cbn [foldr]. rewrite IH.
  change 255 with (2 ^ 8 - 1). rewrite land_low, bz_zb, Z.shiftr_div_pow2 by lia.
  change (2 ^ 8) with 256. rewrite Z.mod_mod by lia.
  pose proof (Z.mod_pos_bound x 256 ltac:(lia)).
  rewrite lor_shift_add by lia. rewrite Nat2Z.inj_succ, Z.pow_succ_r by lia.
  rewrite Z.rem_mul_r by lia. lia.
Qed.

Lemma rd_le n x t : 0 <= x < 256 ^ Z.of_nat n → rd n (le n x ++ t) = (x, t).
Proof.
  intros Hx. unfold rd. rewrite take_app_length', drop_app_length' by by rewrite length_le.
  by rewrite unle_le, Z.mod_small.
Qed.

Lemma rd4_le x t : in32 x → rd 4 (le 4 x ++ t) = (x, t).
Proof. intros. apply rd_le. word_lia. Qed.
Lemma rd8_le x t : in64 x → rd 8 (le 8 x ++ t) = (x, t).
Proof. intros. apply rd_le. word_lia. Qed.

Lemma deserialize_serialize r : rec_ok r → deserialize (serialize r) = r.
Proof.
  intros ((?&?&?&?&?&?&?) & (?&?&?&?&?) & ? & ?). unfold deserialize, serialize.
  repeat first [rewrite rd4_le by done | rewrite rd8_le by done]. by destruct r.
Qed.

Lemma rec_ok_NodeRec0 : rec_ok NodeRec0.
Proof. repeat split; simpl; lia. Qed.

Lemma in32_tcode t : in32 (tcode t).
Proof. destruct t; simpl; word_lia. Qed.
Lemma in32_defaultMode t : in32 (defaultMode t).
Proof. destruct t; simpl; word_lia. Qed.
Lemma tcode_inj t t' : tcode t = tcode t' → t = t'.
Proof. by destruct t, t'. Qed.

#[export] Hint Resolve in32_tcode in32_defaultMode rec_ok_NodeRec0 : prfs.

#[global] Arguments serialize : simpl never.
#[global] Arguments deserialize : simpl never.
