(* ===== verification/Spec.v ===== *)
(** * Spec: the abstract file system one snapshot promises

    A snapshot as a client sees it ([View]): the attributes of every node and
    the entries of every directory, with no versions and no encoding. The
    structural invariant of such a tree ([graph]), the abstract operations and
    the proof that each preserves the invariant. [View]s are compared on node
    ids only ([in64]), so the equivalence is coarser than equality. *)
From S2P Require Import Prelude Keys NodeRec.
Local Open Scope Z_scope.
Set Warnings "-clear-no-such-hyp".

(** ** Views *)

(** A record without its link versions. *)
Definition attrs (r : NodeRec) : NodeRec := set_dn 0 (set_up 0 r).

Record View := mkView { v_attr : Z → option NodeRec; v_ent : Z → bytes → option Z }.

Global Instance View_equiv : Equiv View := λ v w,
  ∀ id, in64 id → v_attr v id = v_attr w id ∧ ∀ n, v_ent v id n = v_ent w id n.
Global Instance View_equivalence : Equivalence (≡@{View}).
Proof.
  split.
  - by intros v id _.
  - intros v w H id Hid. destruct (H id Hid) as [-> He]. split; [done|]. intros n. by rewrite He.
  - intros u v w H1 H2 id Hid. destruct (H1 id Hid) as [-> E1], (H2 id Hid) as [-> E2].
    split; [done|]. intros n. by rewrite E1, E2.
Qed.

Definition is_dir (v : View) (id : Z) : Prop := ∃ r, v_attr v id = Some r ∧ r_type r = tcode DIR.
Definition edge (v : View) (x y : Z) : Prop := in64 x ∧ ∃ n, v_ent v x n = Some y.
(** The root counts one link more than its names. *)
Definition root_link (c : Z) : Z := if c =? 1 then 1 else 0.
(** [l] lists the names of [c]: every (directory, name) pair that holds it. *)
Definition names_of (v : View) (c : Z) (l : list (Z * bytes)) : Prop :=
  NoDup l ∧ ∀ d n, (d, n) ∈ l ↔ in64 d ∧ v_ent v d n = Some c.

Record graph (v : View) : Prop := {
  gr_root : is_dir v 1;
  gr_ent d n c : in64 d → v_ent v d n = Some c →
    n ≠ SNAPSHOT_NAME ∧ is_dir v d ∧ in64 c ∧ is_Some (v_attr v c);
  gr_nlink c r : in64 c → v_attr v c = Some r →
    ∃ l, names_of v c l ∧ r_nlink r = root_link c + Z.of_nat (length l);
  gr_acyc d : ¬ tc (edge v) d d
}.

(** ** Abstract operations *)

Definition v_update (f : NodeRec → NodeRec) (id : Z) (v : View) : View :=
  mkView (λ x, if decide (x = id) then f <$> v_attr v x else v_attr v x) (v_ent v).
Definition v_create (id : Z) (r : NodeRec) (v : View) : View :=
  mkView (λ x, if decide (x = id) then Some r else v_attr v x) (v_ent v).
Definition v_set_ent (d : Z) (n : bytes) (c : option Z) (v : View) : View :=
  mkView (v_attr v) (λ x m, if decide (x = d ∧ m = n) then c else v_ent v x m).

Definition inc_nlink (r : NodeRec) : NodeRec := set_nlink (u32 (r_nlink r + 1)) r.
Definition dec_nlink (r : NodeRec) : NodeRec :=
  if r_nlink r =? 0 then r else set_nlink (r_nlink r - 1) r.

Definition v_link (d : Z) (n : bytes) (c : Z) (v : View) : View :=
  v_update inc_nlink c (v_set_ent d n (Some c) v).
Definition v_unlink (d : Z) (n : bytes) (c : Z) (v : View) : View :=
  v_update dec_nlink c (v_set_ent d n None v).

(** The outcome of [link]: the first condition that applies decides. *)
Inductive link_res (v : View) (d : Z) (n : bytes) (c : Z) : Error → View → Prop :=
  | LinkReserved : n = SNAPSHOT_NAME → link_res v d n c INVAL v
  | LinkNoDir : n ≠ SNAPSHOT_NAME → v_attr v d = None → link_res v d n c NOENT v
  | LinkNotDir rd : n ≠ SNAPSHOT_NAME → v_attr v d = Some rd → r_type rd ≠ tcode DIR →
      link_res v d n c NOTDIR v
  | LinkNoChild : n ≠ SNAPSHOT_NAME → is_dir v d → v_attr v c = None → link_res v d n c NOENT v
  | LinkCycle : n ≠ SNAPSHOT_NAME → is_dir v d → is_dir v c → rtc (edge v) c d →
      link_res v d n c INVAL v
  | LinkExist rc x : n ≠ SNAPSHOT_NAME → is_dir v d → v_attr v c = Some rc →
      (r_type rc = tcode DIR → ¬ rtc (edge v) c d) → v_ent v d n = Some x → link_res v d n c EXIST v
  | LinkOk rc : n ≠ SNAPSHOT_NAME → is_dir v d → v_attr v c = Some rc →
      (r_type rc = tcode DIR → ¬ rtc (edge v) c d) → v_ent v d n = None →
      link_res v d n c OK (v_link d n c v).

Inductive unlink_res (v : View) (d : Z) (n : bytes) : Error → View → Prop :=
  | UnlinkNone : v_ent v d n = None → unlink_res v d n NOENT v
  | UnlinkOk c : v_ent v d n = Some c → unlink_res v d n OK (v_unlink d n c v).

(** [move] is [link] under the new name, then [unlink] of the old one. *)
Inductive move_res (v : View) (sd : Z) (sn : bytes) (dd : Z) (dn : bytes) : Error → View → Prop :=
  | MoveNone : v_ent v sd sn = None → move_res v sd sn dd dn NOENT v
  | MoveFail c e : v_ent v sd sn = Some c → link_res v dd dn c e v → e ≠ OK →
      move_res v sd sn dd dn e v
  | MoveOk c : v_ent v sd sn = Some c → link_res v dd dn c OK (v_link dd dn c v) →
      move_res v sd sn dd dn OK (v_unlink sd sn c (v_link dd dn c v)).

(** ** Closures *)

Lemma tc_inv {A} (R : relation A) x z : tc R x z → ∃ y, R x y ∧ rtc R y z.
Proof. destruct 1 as [x z|x y z ? ?%tc_rtc]; eauto using rtc_refl. Qed.
Lemma tc_mono {A} (R R' : relation A) x y : (∀ x y, R x y → R' x y) → tc R x y → tc R' x y.
Proof. intros HR. induction 1; eauto using tc_once, tc_l. Qed.

Section AddEdge.
Context {A : Type} (R R' : relation A) (d c : A).
Hypothesis HR' : ∀ x y, R' x y → R x y ∨ x = d ∧ y = c.

Lemma rtc_add_edge x y : ¬ rtc R c d → rtc R' x y → rtc R x y ∨ rtc R x d ∧ rtc R c y.
Proof.
  intros Hno. induction 1 as [x|x y z Hxy Hyz IH]; [by left|].
  apply HR' in Hxy as [Hxy|[-> ->]].
  - destruct IH as [IH|[IH1 IH2]]; [left|right; split; [|done]]; by eapply rtc_l.
  - destruct IH as [IH|[IH1 IH2]]; [by right|]. done.
Qed.

Lemma acyclic_add_edge :
  (∀ x, ¬ tc R x x) → ¬ rtc R c d → ∀ x, ¬ tc R' x x.
Proof.
  intros Hac Hno x (y & Hxy & Hyx)%tc_inv.
  apply rtc_add_edge in Hyx; [|done]. apply HR' in Hxy as [Hxy|[-> ->]].
  - destruct Hyx as [Hyx|[Hyd Hcx]]; [apply (Hac x); by eapply tc_rtc_r; [apply tc_once|]|].
    apply Hno. etrans; [done|]. by eapply rtc_l.
  - destruct Hyx as [Hyx|[Hyd _]]; by apply Hno.
Qed.
End AddEdge.

(** ** The operations respect the equivalence *)

Global Instance v_update_proper f id : Proper ((≡@{View}) ==> (≡)) (v_update f id).
Proof.
  intros v w H x Hx. destruct (H x Hx) as [E1 E2]. simpl. split; [|done]. by rewrite E1.
Qed.
Global Instance v_create_proper id r : Proper ((≡@{View}) ==> (≡)) (v_create id r).
Proof. intros v w H x Hx. destruct (H x Hx) as [E1 E2]. simpl. split; [|done]. by rewrite E1. Qed.
Global Instance v_set_ent_proper d n c : Proper ((≡@{View}) ==> (≡)) (v_set_ent d n c).
Proof.
  intros v w H x Hx. destruct (H x Hx) as [E1 E2]. simpl. split; [done|]. intros m. by rewrite E2.
Qed.
Global Instance v_link_proper d n c : Proper ((≡@{View}) ==> (≡)) (v_link d n c).
Proof. intros v w H. unfold v_link. by rewrite H. Qed.
Global Instance v_unlink_proper d n c : Proper ((≡@{View}) ==> (≡)) (v_unlink d n c).
Proof. intros v w H. unfold v_unlink. by rewrite H. Qed.

Lemma edge_equiv v w x y : v ≡ w → edge v x y → edge w x y.
Proof. intros H (Hx & n & He). split; [done|]. exists n. by rewrite <- (proj2 (H x Hx)). Qed.
Lemma is_dir_equiv v w id : v ≡ w → in64 id → is_dir v id → is_dir w id.
Proof. intros H Hid (r & Hr & ?). exists r. by rewrite <- (proj1 (H id Hid)). Qed.
Lemma names_of_equiv v w c l : v ≡ w → names_of v c l → names_of w c l.
Proof.
  intros H [Hnd Hl]. split; [done|]. intros d n. rewrite Hl.
  split; intros [Hd ?]; (split; [done|]); [rewrite <- (proj2 (H d Hd))|rewrite (proj2 (H d Hd))]; done.
Qed.

Lemma graph_equiv v w : v ≡ w → graph v → graph w.
Proof.
  intros H G. split.
  - eapply is_dir_equiv; [done|word_lia|apply G].
  - intros d n c Hd He. rewrite <- (proj2 (H d Hd)) in He.
    destruct (gr_ent _ G d n c Hd He) as (? & ? & Hc & ?). split_and!; [done| |done|].
    + by eapply is_dir_equiv.
    + by rewrite <- (proj1 (H c Hc)).
  - intros c r Hc Hr. rewrite <- (proj1 (H c Hc)) in Hr.
    destruct (gr_nlink _ G c r Hc Hr) as (l & Hl & ?). exists l. split; [|done]. by eapply names_of_equiv.
  - intros d Hcy. apply (gr_acyc _ G d). revert Hcy. apply tc_mono. intros x y.
    by apply edge_equiv.
Qed.
Global Instance graph_proper : Proper ((≡) ==> iff) graph.
Proof. intros v w H. split; apply graph_equiv; done. Qed.

(** ** Preservation of the invariant *)

Lemma edge_dir v x y : graph v → edge v x y → is_dir v x.
Proof. intros G (Hx & n & He). by destruct (gr_ent _ G _ _ _ Hx He) as (_ & ? & _). Qed.

(** Only a directory has a way out. *)
Lemma rtc_from_nondir v x y : graph v → ¬ is_dir v x → rtc (edge v) x y → x = y.
Proof. intros G Hn. destruct 1 as [|x z y Hxz _]; [done|]. by destruct Hn; eapply edge_dir. Qed.

(** Updating attributes, the type and the link count apart. *)
Lemma graph_update f id v :
  (∀ r, r_type (f r) = r_type r) → (∀ r, r_nlink (f r) = r_nlink r) → graph v → graph (v_update f id v).
Proof.
  intros Hty Hnl G.
  assert (∀ x, is_dir v x → is_dir (v_update f id v) x) as Hdir.
  { intros x (r & Hr & ?). unfold is_dir. simpl. rewrite Hr. case_decide; simpl; eexists; split; eauto.
    by rewrite Hty. }
  split.
  - apply Hdir, G.
  - intros d n c Hd He. destruct (gr_ent _ G d n c Hd He) as (? & ? & ? & ?).
    split_and!; [done|auto|done|]. simpl. case_decide; [by apply fmap_is_Some|done].
  - intros c r Hc Hr. simpl in Hr.
    assert (∃ r0, v_attr v c = Some r0 ∧ r_nlink r = r_nlink r0) as (r0 & Hr0 & ->).
    { case_decide; [|eauto]. apply fmap_Some in Hr as (r0 & ? & ->). eauto. }
    by apply G.
  - apply G.
Qed.

Lemma graph_create id r v :
  in64 id → v_attr v id = None → r_nlink r = 0 → id ≠ 1 → graph v → graph (v_create id r v).
Proof.
  intros Hid Hnone Hnl Hne G.
  assert (∀ x, is_dir v x → is_dir (v_create id r v) x) as Hdir.
  { intros x (r0 & Hr & ?). exists r0. simpl. rewrite decide_False by congruence. done. }
  split.
  - apply Hdir, G.
  - intros d n c Hd He. destruct (gr_ent _ G d n c Hd He) as (? & ? & ? & ?).
    split_and!; [done|auto|done|]. simpl. by case_decide.
  - intros c r0 Hc Hr. simpl in Hr. case_decide as E.
    + subst c. simplify_eq. exists []. split; [|unfold root_link; rewrite (proj2 (Z.eqb_neq _ _) Hne); done].
      split; [constructor|]. intros d n. simpl. split; [set_solver|]. intros [Hd He].
      destruct (gr_ent _ G d n id Hd He) as (_ & _ & _ & []%eq_None_not_Some). done.
    + by apply G.
  - apply G.
Qed.

Lemma names_of_set_ent_ne d n (o : option Z) v x l :
  v_ent v d n ≠ Some x → o ≠ Some x → names_of v x l → names_of (v_set_ent d n o v) x l.
Proof.
  intros Hne Ho [Hnd Hl]. split; [done|]. intros d' n'. rewrite Hl. simpl.
  case_decide; naive_solver.
Qed.

(** Adding the entry ([d], [n]) of [c]. *)
Lemma graph_link d n c rc v :
  graph v → in64 d → in64 c → n ≠ SNAPSHOT_NAME → is_dir v d → v_attr v c = Some rc →
  ¬ rtc (edge v) c d → v_ent v d n = None → 0 <= r_nlink rc → r_nlink rc + 1 < 2 ^ 32 →
  graph (v_link d n c v).
Proof.
  intros G Hd Hc Hn Hdir Hrc Hno Hfree Hpos Hmax.
  assert (∀ x, is_dir v x → is_dir (v_link d n c v) x) as Hdirs.
  { intros x (r & Hr & ?). unfold is_dir. simpl. rewrite Hr. case_decide; simpl; eexists; split; eauto.
    by destruct r. }
  assert (∀ x, is_Some (v_attr v x) → is_Some (v_attr (v_link d n c v) x)) as Hsome.
  { intros x ?. simpl. case_decide; [by apply fmap_is_Some|done]. }
  split.
  - apply Hdirs, G.
  - intros d' n' c' Hd' He. simpl in He. case_decide as E.
    + destruct E as [-> ->]. simplify_eq. split_and!; eauto.
    + destruct (gr_ent _ G d' n' c' Hd' He) as (? & ? & ? & ?). auto.
  - intros x r Hx Hr. simpl in Hr. case_decide as E.
    + subst x. rewrite Hrc in Hr. simplify_eq/=. destruct (gr_nlink _ G c rc Hc Hrc) as (l & [Hnd Hl] & Hlen).
      exists ((d, n) :: l). split; [split|].
      * constructor; [|done]. rewrite Hl, Hfree. naive_solver.
      * intros d' n'. rewrite elem_of_cons, Hl. simpl. case_decide; naive_solver.
      * unfold inc_nlink. destruct rc; simpl in *. rewrite u32_small by word_lia. lia.
    + destruct (gr_nlink _ G x r Hx Hr) as (l & Hl & ?). exists l. split; [|done].
      change (names_of (v_set_ent d n (Some c) v) x l).
      apply names_of_set_ent_ne; [by rewrite Hfree|congruence|done].
  - apply (acyclic_add_edge (edge v) _ d c); [|apply G|done].
    intros x y (Hx & m & He). simpl in He. case_decide as E; [naive_solver|].
    left. split; eauto.
Qed.

(** Removing the entry ([d], [n]) of [c]. *)
Lemma graph_unlink d n c v :
  graph v → in64 d → v_ent v d n = Some c → graph (v_unlink d n c v).
Proof.
  intros G Hd He. destruct (gr_ent _ G d n c Hd He) as (_ & _ & Hc & _).
  assert (∀ x, is_dir v x → is_dir (v_unlink d n c v) x) as Hdirs.
  { intros x (r & Hr & ?). unfold is_dir. simpl. rewrite Hr. case_decide; simpl; eexists; split; eauto.
    unfold dec_nlink. case_match; [done|]. by destruct r. }
  split.
  - apply Hdirs, G.
  - intros d' n' c' Hd' He'. simpl in He'. case_decide as E; [done|].
    destruct (gr_ent _ G d' n' c' Hd' He') as (? & ? & ? & ?). split_and!; auto.
    simpl. case_decide; [by apply fmap_is_Some|done].
  - intros x r Hx Hr. simpl in Hr. case_decide as E.
    + subst x. apply fmap_Some in Hr as (r0 & Hr0 & ->).
      destruct (gr_nlink _ G c r0 Hc Hr0) as (l & [Hnd Hl] & Hlen).
      assert ((d, n) ∈ l) as Hin by by apply Hl.
      apply list_elem_of_split in Hin as (l1 & l2 & ->).
      apply NoDup_app in Hnd as (Hnd1 & Hnd2 & Hnd3). apply NoDup_cons in Hnd3 as [Hnd3 Hnd4].
      exists (l1 ++ l2). split; [split|].
      * apply NoDup_app. split_and!; [done| |done]. intros y Hy ?. apply (Hnd2 y Hy). by right.
      * intros d' n'. simpl. specialize (Hl d' n'). rewrite elem_of_app, elem_of_cons in Hl.
        rewrite elem_of_app. case_decide as E.
        -- destruct E as [-> ->]. split; [|by intros [_ ?]]. intros [Hy|Hy]; [|done].
           destruct (Hnd2 _ Hy). by left.
        -- assert ((d', n') ≠ (d, n)) by (intros [= -> ->]; by apply E). tauto.
      * rewrite !length_app in *. simpl in Hlen.
        unfold dec_nlink. assert (0 <= root_link c) by (unfold root_link; case_match; lia).
        rewrite (proj2 (Z.eqb_neq (r_nlink r0) 0)) by lia. destruct r0; simpl in *. lia.
    + destruct (gr_nlink _ G x r Hx Hr) as (l & Hl & ?). exists l. split; [|done].
      change (names_of (v_set_ent d n None v) x l). apply names_of_set_ent_ne; [congruence|done|done].
  - intros x Hcy. apply (gr_acyc _ G x). revert Hcy. apply tc_mono. intros y z (Hy & m & Hm).
    simpl in Hm. case_decide; [done|]. split; eauto.
Qed.
