(* ===== verification/Store.v ===== *)
(** * Store: PrfsStore, the versioned file system over a key/value engine

    The operations of the class [PrfsStore] and of its node handles
    [PrfsNode] (src/core/prfs.cpp), over any engine [KvEngine]. A write
    transaction is a working copy of the engine's data, ended by [end_txn];
    [m_cur] and the other members are the fields of [Store]. *)
From S2P Require Import Prelude Dfs Keys Kv NodeRec.
Local Open Scope Z_scope.

(** ** Data (include/prfs/prfs.hpp) *)

(** A node handle: (nodeID, snapId). *)
Record Handle := mkHandle { h_id : Z; h_snap : Z }.
Global Instance Handle_eq_dec : EqDecision Handle.
Proof. solve_decision. Defined.

Record Stats := mkStats { st_nodes : list Z; st_links : Z; st_totalSize : Z }.
Definition Stats0 : Stats := mkStats [0; 0; 0; 0; 0; 0; 0] 0 0.

Inductive NodeChange := CREATED | NREMOVED | MODIFIED_CONTENT | MODIFIED_ATTRS.
Record NodeDiff := mkNodeDiff { nd_id : Z; nd_change : NodeChange }.

Record SnapInfo := mkSnapInfo { si_id : Z; si_ctime : Z; si_label : bytes }.

Inductive PathChange := ADDED | PREMOVED.
Record PathDiff := mkPathDiff { pd_change : PathChange; pd_parent : Z; pd_name : bytes; pd_child : Z }.

Record DirPage := mkPage { pg_entries : list (bytes * Handle); pg_cookie : bytes; pg_eof : bool }.

(** [std::set<uint64_t>] that is iterated: the ascending list of its elements. *)
Fixpoint zset_insert (x : Z) (l : list Z) : list Z :=
  match l with
  | [] => [x]
  | y :: l' => if x <? y then x :: l else if x =? y then l else y :: zset_insert x l'
  end.

(** [std::to_string(uint64_t)]: decimal digits, at most twenty. *)
Fixpoint to_string_loop (fuel : nat) (n : Z) (acc : bytes) : bytes :=
  match fuel with
  | O => acc
  | S fuel' =>
      let acc' := zb (48 + n mod 10) :: acc in
      if n / 10 =? 0 then acc' else to_string_loop fuel' (n / 10) acc'
  end.
Definition to_string (n : Z) : bytes := to_string_loop 20 n [].

(** [parseSnap]: a nonempty decimal string; the accumulator wraps at 64 bits. *)
Fixpoint parseSnap_loop (s : bytes) (v : Z) : option Z :=
  match s with
  | [] => Some v
  | c :: s' =>
      if (bz c <? 48) || (57 <? bz c) then None
      else parseSnap_loop s' (u64 (v * 10 + (bz c - 48)))
  end.
Definition parseSnap (s : bytes) : option Z :=
  match s with [] => None | _ => parseSnap_loop s 0 end.

Section Store.
Context {M : Type} `{!KvEngine M}.

Record Store := mkStore {
  m_kv : KvData M; m_next : Z; m_cur : Z; m_root : Z; m_clock : Z
}.
Definition set_kv (st : Store) (t : KvData M) : Store :=
  mkStore t (m_next st) (m_cur st) (m_root st) (m_clock st).

(** ** Private helpers *)

Definition rr (st : Store) (g : Z) : Z := if g =? LATEST then m_cur st else g.

Definition getMeta (t : KvData M) (key : bytes) : option Z :=
  match t_get t Meta key with Some v => Some (unle (take 8 v)) | None => None end.
Definition putMeta (t : KvData M) (key : bytes) (val : Z) : KvData M :=
  t_put t Meta key (le 8 val).

(** The newest record of [id] at or before [rg]: seek to (id, rg), step back
    unless the key is exact. *)
Definition loadNode (t : KvData M) (id rg : Z) : option NodeRec :=
  let c := sub t Nodes in
  let pos := kv_seek c (be id ++ be rg) in
  let pos' :=
    match pos with
    | Some k =>
        if (length k =? 16)%nat && (rdbe k =? id) && (rdbe (drop 8 k) =? rg)
        then pos else kv_prev c pos
    | None => kv_last c
    end in
  match pos' with
  | Some k =>
      if (length k =? 16)%nat && (rdbe k =? id) && (rdbe (drop 8 k) <=? rg)
      then Some (deserialize (default [] (kv_get c k))) else None
  | None => None
  end.

Definition storeNode (t : KvData M) (id snap : Z) (r : NodeRec) : KvData M :=
  t_put (t_put t Nodes (be id ++ be snap) (serialize r)) Changes (be snap ++ be id) [].

Definition scanDownlinks (t : KvData M) (dir dv : Z) : list (bytes * Z) :=
  prod_map id rdbe <$> scan (sub t DownLinks) (be dir ++ be dv).

(** A [std::map] filled from one scan: its entries in name order. *)
Definition linkSet (t : KvData M) (dir rg : Z) : list (bytes * Z) :=
  match loadNode t dir rg with
  | Some dr => if r_type dr =? tcode DIR then scanDownlinks t dir (r_dn dr) else []
  | None => []
  end.

(** [eachEffNode]: one pass over the node records in key order, keeping the
    last record at or before [rg] of the current id. *)
Definition eff_finish (curId : Z) (chosen : option NodeRec) : list (Z * NodeRec) :=
  match chosen with Some r => [(curId, r)] | None => [] end.
Fixpoint eff_loop (t : KvData M) (rg : Z) (ks : list bytes) (curId : Z) (chosen : option NodeRec)
    : list (Z * NodeRec) :=
  match ks with
  | [] => eff_finish curId chosen
  | k :: ks' =>
      let id := rdbe k in
      let snap := rdbe (drop 8 k) in
      let chosen1 := if id =? curId then chosen else None in
      let chosen2 :=
        if snap <=? rg then Some (deserialize (default [] (t_get t Nodes k))) else chosen1 in
      (if id =? curId then [] else eff_finish curId chosen) ++ eff_loop t rg ks' id chosen2
  end.
Definition eachEffNode (t : KvData M) (rg : Z) : list (Z * NodeRec) :=
  eff_loop t rg (walk_first (sub t Nodes)) 0 None.

(** The ids with a change record in (ra, rb]. *)
Fixpoint cand_loop (rb : Z) (ks : list bytes) (out : list Z) : list Z :=
  match ks with
  | [] => out
  | k :: ks' =>
      if rb <? rdbe k then out else cand_loop rb ks' (zset_insert (rdbe (drop 8 k)) out)
  end.
Definition candidates (t : KvData M) (ra rb : Z) : list Z :=
  cand_loop rb (walk_seek (sub t Changes) (be (u64 (ra + 1)))) [].

(** Copy-on-write of the link sets into the current version. *)
Definition ensureWritableDnLinks (cur : Z) (t : KvData M) (dir : Z) : KvData M * Z :=
  let r := default NodeRec0 (loadNode t dir cur) in
  if r_dn r =? cur then (t, cur)
  else
    let copies := scanDownlinks t dir (r_dn r) in
    let t1 := fold_left (λ t '(name, child),
                t_put t DownLinks (be dir ++ be cur ++ name) (be child)) copies t in
    (storeNode t1 dir cur (set_dn cur r), cur).

Definition ensureWritableUpLinks (cur : Z) (t : KvData M) (node : Z) : KvData M * Z :=
  let r := default NodeRec0 (loadNode t node cur) in
  if r_up r =? cur then (t, cur)
  else
    let copies := (scan (sub t UpLinks) (be node ++ be (r_up r))).*1 in
    let t1 := fold_left (λ t suffix,
                t_put t UpLinks (be node ++ be cur ++ suffix) []) copies t in
    (storeNode t1 node cur (set_up cur r), cur).

(** [reachable]: depth-first search over directory down-links. The head of
    [stack] is [st.back()]. *)
Definition dir_children (cur : Z) (t : KvData M) (n : Z) : list Z :=
  match loadNode t n cur with
  | Some r =>
      if r_type r =? tcode DIR then
        filter (λ child, match loadNode t child cur with
                         | Some cr => r_type cr =? tcode DIR
                         | None => false
                         end = true) (scanDownlinks t n (r_dn r)).*2
      else []
  | None => []
  end.
Definition reachable_loop (fuel : nat) (cur : Z) (t : KvData M) (to : Z)
    (stack : list Z) (seen : gset Z) : option bool :=
  dfs_loop (dir_children cur t) fuel to stack seen.
Definition reachable_fuel (t : KvData M) : nat := S (S (size (kv_view (sub t DownLinks)))).
Definition reachable (cur : Z) (t : KvData M) (from to : Z) : bool :=
  default true (reachable_loop (reachable_fuel t) cur t to [from] ∅).

Definition linkT (cur : Z) (t : KvData M) (dir : Z) (name : bytes) (child : Z) : Error * KvData M :=
  if decide (name = SNAPSHOT_NAME) then (INVAL, t)
  else match loadNode t dir cur with
  | None => (NOENT, t)
  | Some dr =>
    if negb (r_type dr =? tcode DIR) then (NOTDIR, t)
    else match loadNode t child cur with
    | None => (NOENT, t)
    | Some cr =>
      if (r_type cr =? tcode DIR) && reachable cur t child dir then (INVAL, t)
      else match t_get t DownLinks (be dir ++ be (r_dn dr) ++ name) with
      | Some _ => (EXIST, t)
      | None =>
        let '(t1, dv) := ensureWritableDnLinks cur t dir in
        let '(t2, uv) := ensureWritableUpLinks cur t1 child in
        let t3 := t_put t2 DownLinks (be dir ++ be dv ++ name) (be child) in
        let t4 := t_put t3 UpLinks (be child ++ be uv ++ be dir ++ name) [] in
        let cr' := default cr (loadNode t4 child cur) in
        (OK, storeNode t4 child cur (set_nlink (u32 (r_nlink cr' + 1)) cr'))
      end
    end
  end.

Definition unlinkT (cur : Z) (t : KvData M) (dir : Z) (name : bytes) : Error * KvData M :=
  match loadNode t dir cur with
  | None => (NOENT, t)
  | Some dr =>
    match t_get t DownLinks (be dir ++ be (r_dn dr) ++ name) with
    | None => (NOENT, t)
    | Some child =>
      let cid := rdbe child in
      let '(t1, dv) := ensureWritableDnLinks cur t dir in
      let '(t2, uv) := ensureWritableUpLinks cur t1 cid in
      let t3 := t_del t2 DownLinks (be dir ++ be dv ++ name) in
      let t4 := t_del t3 UpLinks (be cid ++ be uv ++ be dir ++ name) in
      let cr := default NodeRec0 (loadNode t4 cid cur) in
      let cr' := if r_nlink cr =? 0 then cr else set_nlink (r_nlink cr - 1) cr in
      (OK, storeNode t4 cid cur cr')
    end
  end.

Definition existedAt (t : KvData M) (id n : Z) : bool := bool_decide (is_Some (loadNode t id n)).

(** End a transaction that commits exactly when the result is [OK]. *)
Definition finish (st : Store) (res : Error * KvData M) : Error * Store :=
  (res.1, set_kv st (end_txn (m_kv st) res.2 (bool_decide (res.1 = OK)))).

Definition mutateNode (st : Store) (id : Z) (fn : NodeRec → NodeRec) : Store :=
  match loadNode (m_kv st) id (m_cur st) with
  | None => st
  | Some r => set_kv st (end_txn (m_kv st) (storeNode (m_kv st) id (m_cur st) (fn r)) true)
  end.

(** The typed mutators share: load, check the type, store. *)
Definition setBlob (st : Store) (n : Handle) (want : FType) (blob : bytes) : Error * Store :=
  finish st
    match loadNode (m_kv st) (h_id n) (m_cur st) with
    | None => (NOENT, m_kv st)
    | Some r =>
        if negb (r_type r =? tcode want) then (INVAL, m_kv st)
        else (OK, storeNode (m_kv st) (h_id n) (m_cur st) (set_blob blob r))
    end.

(** [alloc]: a fresh id, its record stamped with the clock, committed. *)
Definition alloc (st : Store) (type : FType) (blob : bytes) (spec : Z) : Handle * Store :=
  let id := m_next st in
  let next' := u64 (m_next st + 1) in
  let w := putMeta (m_kv st) (str "next_node") next' in
  let r := mkNode (tcode type) (defaultMode type) 0 0 0 0 0 0
                  (m_clock st) (m_clock st) (m_clock st) spec (m_cur st) (m_cur st) blob in
  (mkHandle id LATEST,
   mkStore (end_txn (m_kv st) (storeNode w id (m_cur st) r) true)
           next' (m_cur st) (m_root st) (m_clock st)).

(** Attributes as a handle reads them; a [.snapshot] directory mirrors the
    times of its base node. *)
Definition readNode_at (st : Store) (id snap : Z) : NodeRec :=
  default NodeRec0 (loadNode (m_kv st) id (rr st snap)).
Definition readNode (st : Store) (id snap : Z) : NodeRec :=
  if isSnapDir id then
    let base := readNode_at st (snapBase id) snap in
    mkNode (tcode DIR) 365 (* 0555 *) 0 0 1 0 0 0
           (r_atime base) (r_mtime base) (r_ctime base) 0 0 0 []
  else readNode_at st id snap.
End Store.
Arguments Store : clear implicits.
Arguments mkStore {M} _ _ _ _ _.

(** ** The public interface (class [IPrfs]) *)

Section Api.
Context {M : Type} `{!KvEngine M}.
Implicit Types (st : Store M) (name : bytes).

(** The constructor: adopt the persisted counters, or initialise the root. *)
Definition PrfsStore (kv : KvData M) : Store M :=
  match getMeta kv (str "root") with
  | None =>
      let r := mkNode (tcode DIR) 493 0 0 1 0 0 0 0 0 0 0 1 1 [] in
      let w := storeNode kv 1 1 r in
      let w := putMeta w (str "root") 1 in
      let w := putMeta w (str "next_node") 2 in
      let w := putMeta w (str "cur_snap") 1 in
      let w := putMeta w (str "clock") 0 in
      mkStore (end_txn kv w true) 2 1 1 0
  | Some root =>
      mkStore (end_txn kv kv true) (default 1 (getMeta kv (str "next_node")))
              (default 1 (getMeta kv (str "cur_snap"))) root
              (default 0 (getMeta kv (str "clock")))
  end.

Definition contentConfig st : bytes := default [] (t_get (m_kv st) Meta (str "content_config")).
Definition setContentConfig st (blob : bytes) : Store M :=
  set_kv st (end_txn (m_kv st) (t_put (m_kv st) Meta (str "content_config") blob) true).

Definition now st : Z := m_clock st.
Definition setTime st (t : Z) : Store M :=
  mkStore (end_txn (m_kv st) (putMeta (m_kv st) (str "clock") t) true)
          (m_next st) (m_cur st) (m_root st) t.

Definition rwRoot st : Handle := mkHandle (m_root st) LATEST.
Definition snapshotRoot st (n : Z) : Handle := mkHandle (m_root st) n.
Definition nodeById st (id snap : Z) : option Handle :=
  let base := if isSnapDir id then snapBase id else id in
  if existedAt (m_kv st) base (rr st snap) then Some (mkHandle id snap) else None.
Definition snapshots st : list Z := seqZ 1 (m_cur st - 1).

Definition mkdir st := alloc st DIR [] 0.
Definition mkfile st (c : bytes) := alloc st REG c 0.
Definition symlink st (t : bytes) := alloc st LNK t 0.
Definition mkfifo st := alloc st FIFO [] 0.
Definition mksock st := alloc st SOCK [] 0.
Definition mknod st (t : FType) (maj min : Z) := alloc st t [] (Z.lor (Z.shiftl maj 32) min).

Definition lookup_ st (dir : Handle) name : option Handle :=
  if isSnapDir (h_id dir) then
    let base := snapBase (h_id dir) in
    match parseSnap name with
    | None => None
    | Some n =>
        if (n <? 1) || (m_cur st <=? n) || negb (existedAt (m_kv st) base n) then None
        else Some (mkHandle base n)
    end
  else match loadNode (m_kv st) (h_id dir) (rr st (h_snap dir)) with
  | None => None
  | Some dr =>
      if bool_decide (name = SNAPSHOT_NAME) && (h_snap dir =? LATEST) && (r_type dr =? tcode DIR)
      then Some (mkHandle (Z.lor (h_id dir) SNAP_BIT) LATEST)
      else match t_get (m_kv st) DownLinks (be (h_id dir) ++ be (r_dn dr) ++ name) with
           | None => None
           | Some child => Some (mkHandle (rdbe child) (h_snap dir))
           end
  end.

Definition link st (dir : Handle) name (child : Handle) : Error * Store M :=
  finish st (linkT (m_cur st) (m_kv st) (h_id dir) name (h_id child)).
Definition unlink st (dir : Handle) name : Error * Store M :=
  finish st (unlinkT (m_cur st) (m_kv st) (h_id dir) name).

Definition moveT (cur : Z) (t : KvData M) (sdir : Z) (sn : bytes) (ddir : Z) (dn : bytes)
    : Error * KvData M :=
  match loadNode t sdir cur with
  | None => (NOENT, t)
  | Some sr =>
    match t_get t DownLinks (be sdir ++ be (r_dn sr) ++ sn) with
    | None => (NOENT, t)
    | Some child =>
        let '(e, t1) := linkT cur t ddir dn (rdbe child) in
        if decide (e = OK) then unlinkT cur t1 sdir sn else (e, t1)
    end
  end.
Definition move st (sdir : Handle) (sn : bytes) (ddir : Handle) (dn : bytes) : Error * Store M :=
  finish st (moveT (m_cur st) (m_kv st) (h_id sdir) sn (h_id ddir) dn).

Definition setContent st (reg : Handle) (c : bytes) := setBlob st reg REG c.
Definition setTarget st (lnk : Handle) (t : bytes) := setBlob st lnk LNK t.

Definition setRdev st (dev : Handle) (maj min : Z) : Error * Store M :=
  finish st
    match loadNode (m_kv st) (h_id dev) (m_cur st) with
    | None => (NOENT, m_kv st)
    | Some r =>
        if negb (r_type r =? tcode BLK) && negb (r_type r =? tcode CHR) then (INVAL, m_kv st)
        else (OK, storeNode (m_kv st) (h_id dev) (m_cur st)
                    (set_spec (Z.lor (Z.shiftl maj 32) min) r))
    end.

Definition setContentSeed st (reg : Handle) (seed : Z) : Error * Store M :=
  finish st
    match loadNode (m_kv st) (h_id reg) (m_cur st) with
    | None => (NOENT, m_kv st)
    | Some r =>
        if negb (r_type r =? tcode REG) then (INVAL, m_kv st)
        else (OK, storeNode (m_kv st) (h_id reg) (m_cur st) (set_spec seed r))
    end.

(** The ["N"] entries of a [.snapshot] directory, from snapshot [start] on. *)
Definition snap_ids st (base start : Z) : list Z :=
  filter (λ n, existedAt (m_kv st) base n = true) (seqZ start (m_cur st - start)).
Definition snap_entry (base n : Z) : bytes * Handle := (to_string n, mkHandle base n).

Definition readdir st (dir : Handle) : list (bytes * Handle) :=
  if isSnapDir (h_id dir) then
    let base := snapBase (h_id dir) in snap_entry base <$> snap_ids st base 1
  else match loadNode (m_kv st) (h_id dir) (rr st (h_snap dir)) with
  | None => []
  | Some dr =>
      prod_map id (λ c, mkHandle c (h_snap dir)) <$>
        scanDownlinks (m_kv st) (h_id dir) (r_dn dr)
  end.

(** The page loops: stop before the entry that would exceed [max]. *)
Fixpoint page_loop (max : nat) (ents acc : list (bytes * Handle)) (cookie : bytes) : DirPage :=
  match ents with
  | [] => mkPage acc cookie true
  | (name, h) :: ents' =>
      if decide (length acc = max) then mkPage acc cookie false
      else page_loop max ents' (acc ++ [(name, h)]) name
  end.
Fixpoint name_page_loop (max : nat) (after : bytes) (ents acc : list (bytes * Handle))
    (cookie : bytes) : DirPage :=
  match ents with
  | [] => mkPage acc cookie true
  | (name, h) :: ents' =>
      if negb (bytes_ltb after name) then name_page_loop max after ents' acc cookie
      else if decide (length acc = max) then mkPage acc cookie false
      else name_page_loop max after ents' (acc ++ [(name, h)]) name
  end.

Definition readdirPage st (dir : Handle) (after : bytes) (max : nat) : DirPage :=
  if isSnapDir (h_id dir) then
    let base := snapBase (h_id dir) in
    let start :=
      match after with
      | [] => 1
      | _ => match parseSnap after with Some c => u64 (c + 1) | None => 1 end
      end in
    page_loop max (snap_entry base <$> snap_ids st base start) [] []
  else match loadNode (m_kv st) (h_id dir) (rr st (h_snap dir)) with
  | None => mkPage [] [] true
  | Some dr =>
      let pfx := be (h_id dir) ++ be (r_dn dr) in
      name_page_loop max after
        (prod_map id (λ v, mkHandle (rdbe v) (h_snap dir)) <$>
           scan_at (sub (m_kv st) DownLinks) pfx (pfx ++ after)) [] []
  end.

(** [parents]: the containers of the up-links, each once, in key order. *)
Fixpoint parents_loop (ks : list bytes) (seen : gset Z) : list Z :=
  match ks with
  | [] => []
  | k :: ks' =>
      let container := rdbe k in
      if decide (container ∈ seen) then parents_loop ks' seen
      else container :: parents_loop ks' ({[container]} ∪ seen)
  end.
Definition parents st (node : Handle) : list Handle :=
  match loadNode (m_kv st) (h_id node) (rr st (h_snap node)) with
  | None => []
  | Some nr =>
      (λ c, mkHandle c (h_snap node)) <$>
        parents_loop (scan (sub (m_kv st) UpLinks) (be (h_id node) ++ be (r_up nr))).*1 ∅
  end.

Definition snapshot st (label : bytes) : Z * Store M :=
  let v := m_cur st in
  let cur' := u64 (v + 1) in
  let w := putMeta (m_kv st) (str "cur_snap") cur' in
  let w := t_put w Snaps (be v) (be (m_clock st) ++ label) in
  (v, mkStore (end_txn (m_kv st) w true) (m_next st) cur' (m_root st) (m_clock st)).

Definition snapInfo st (g : Z) : SnapInfo :=
  match t_get (m_kv st) Snaps (be g) with
  | Some rec =>
      if (8 <=? length rec)%nat then mkSnapInfo g (rdbe rec) (drop 8 rec) else mkSnapInfo g 0 []
  | None => mkSnapInfo g 0 []
  end.

Definition alive_at (t : KvData M) (id g : Z) : option NodeRec :=
  match loadNode t id g with Some r => if 0 <? r_nlink r then Some r else None | None => None end.
Definition content_differs (va vb : NodeRec) : bool :=
  bool_decide (r_blob va ≠ r_blob vb) || negb (r_spec va =? r_spec vb) ||
  negb (r_size va =? r_size vb).
Definition attrs_differ (va vb : NodeRec) : bool :=
  negb (r_mode va =? r_mode vb) || negb (r_uid va =? r_uid vb) ||
  negb (r_gid va =? r_gid vb) || negb (r_mtime va =? r_mtime vb).
Definition diffNode1 (t : KvData M) (ra rb id : Z) : list NodeDiff :=
  match alive_at t id ra, alive_at t id rb with
  | None, None => []
  | None, Some _ => [mkNodeDiff id CREATED]
  | Some _, None => [mkNodeDiff id NREMOVED]
  | Some va, Some vb =>
      if content_differs va vb then [mkNodeDiff id MODIFIED_CONTENT]
      else if attrs_differ va vb then [mkNodeDiff id MODIFIED_ATTRS]
      else []
  end.
Definition diffNodes st (a b : Z) : list NodeDiff :=
  candidates (m_kv st) (rr st a) (rr st b) ≫= diffNode1 (m_kv st) (rr st a) (rr st b).

Definition diffPath1 (t : KvData M) (ra rb dir : Z) : list PathDiff :=
  let sa := linkSet t dir ra in
  let sb := linkSet t dir rb in
  ((λ '(name, child), mkPathDiff ADDED dir name child) <$>
     filter (λ e, e.1 ∉ sa.*1) sb) ++
  ((λ '(name, child), mkPathDiff PREMOVED dir name child) <$>
     filter (λ e, e.1 ∉ sb.*1) sa).
Definition diffPaths st (a b : Z) : list PathDiff :=
  candidates (m_kv st) (rr st a) (rr st b) ≫= diffPath1 (m_kv st) (rr st a) (rr st b).

Definition stats_node (s : Stats) (n : NodeRec) : Stats :=
  if r_nlink n =? 0 then s
  else mkStats (alter (λ x, u64 (x + 1)) (Z.to_nat (r_type n)) (st_nodes s)) (st_links s)
               (if r_type n =? tcode REG then u64 (st_totalSize s + r_size n) else st_totalSize s).
Definition stats_links (t : KvData M) (s : Stats) (e : Z * NodeRec) : Stats :=
  if r_type e.2 =? tcode DIR then
    fold_left (λ s _, mkStats (st_nodes s) (u64 (st_links s + 1)) (st_totalSize s))
              (scanDownlinks t e.1 (r_dn e.2)) s
  else s.
Definition stats st (g : Z) : Stats :=
  let eff := eachEffNode (m_kv st) (rr st g) in
  fold_left (stats_links (m_kv st)) eff (fold_left stats_node eff.*2 Stats0).

(** ** Node handles (class [PrfsNode]) *)

Definition n_type st (h : Handle) : Z := r_type (readNode st (h_id h) (h_snap h)).
Definition n_mode st (h : Handle) : Z := r_mode (readNode st (h_id h) (h_snap h)).
Definition n_nlink st (h : Handle) : Z := r_nlink (readNode st (h_id h) (h_snap h)).
Definition n_uid st (h : Handle) : Z := r_uid (readNode st (h_id h) (h_snap h)).
Definition n_gid st (h : Handle) : Z := r_gid (readNode st (h_id h) (h_snap h)).
Definition n_size st (h : Handle) : Z := r_size (readNode st (h_id h) (h_snap h)).
Definition n_atime st (h : Handle) : Z := r_atime (readNode st (h_id h) (h_snap h)).
Definition n_mtime st (h : Handle) : Z := r_mtime (readNode st (h_id h) (h_snap h)).
Definition n_ctime st (h : Handle) : Z := r_ctime (readNode st (h_id h) (h_snap h)).
Definition n_atimeNsec st (h : Handle) : Z := r_atimeNs (readNode st (h_id h) (h_snap h)).
Definition n_mtimeNsec st (h : Handle) : Z := r_mtimeNs (readNode st (h_id h) (h_snap h)).

Definition put_mode st (h : Handle) (x : Z) := mutateNode st (h_id h) (set_mode x).
Definition put_uid st (h : Handle) (x : Z) := mutateNode st (h_id h) (set_uid x).
Definition put_gid st (h : Handle) (x : Z) := mutateNode st (h_id h) (set_gid x).
Definition put_size st (h : Handle) (x : Z) := mutateNode st (h_id h) (set_size x).
Definition put_atime st (h : Handle) (x : Z) :=
  mutateNode st (h_id h) (λ r, set_atimeNs 0 (set_atime x r)).
Definition put_mtime st (h : Handle) (x : Z) :=
  mutateNode st (h_id h) (λ r, set_mtimeNs 0 (set_mtime x r)).
Definition put_ctime st (h : Handle) (x : Z) := mutateNode st (h_id h) (set_ctime x).
Definition put_atimeNsec st (h : Handle) (x : Z) := mutateNode st (h_id h) (set_atimeNs x).
Definition put_mtimeNsec st (h : Handle) (x : Z) := mutateNode st (h_id h) (set_mtimeNs x).

Definition n_target st (h : Handle) : bytes :=
  let r := readNode st (h_id h) (h_snap h) in
  if r_type r =? tcode LNK then r_blob r else [].
Definition n_content st (h : Handle) : bytes :=
  let r := readNode st (h_id h) (h_snap h) in
  if r_type r =? tcode REG then r_blob r else [].
Definition n_rdev st (h : Handle) : Z * Z :=
  let s := r_spec (readNode st (h_id h) (h_snap h)) in
  (u32 (Z.shiftr s 32), u32 (Z.land s (2 ^ 32 - 1))).
Definition n_contentSeed st (h : Handle) : Z :=
  let r := readNode st (h_id h) (h_snap h) in
  if (r_type r =? tcode REG) && negb (r_spec r =? 0) then r_spec r else h_id h.
End Api.
