(* ===== verification/Views.v ===== *)
(** * Views: the typed content of the sub-stores

    What the byte-level keys and values mean: node records by (id, snapshot),
    down-links by (directory, version, name), up-links and change records;
    the well-formedness of the six maps ([kv_wf]); and the reading lemmas:
    [loadNode] is the newest record at or before a snapshot, a scan lists
    exactly the links of one version. *)
From S2P Require Import Prelude Keys Kv NodeRec Store.
Local Open Scope Z_scope.
Set Warnings "-clear-no-such-hyp".

(** ** Keys *)

Lemma be_app_inj x y s t : in64 x → in64 y → be x ++ s = be y ++ t → x = y ∧ s = t.
Proof.
  intros Hx Hy Heq. apply app_inj_1 in Heq as [Hb ->]; [|by rewrite !length_be].
  split; [by apply be_inj | done].
Qed.

Lemma rdbe_be' x : in64 x → rdbe (be x) = x.
Proof. intros. rewrite <- (app_nil_r (be x)). by apply rdbe_be. Qed.

Lemma drop8_be x s : drop 8 (be x ++ s) = s.
Proof. rewrite <- (length_be x) at 1. apply drop_pfx. Qed.

(** Solve an (in)equality between composite keys. *)
Ltac key_inj :=
  repeat match goal with
  | H : be ?x ++ _ = be ?y ++ _ |- _ =>
      apply be_app_inj in H as [? H]; [|solve [eauto with prfs]|solve [eauto with prfs]]
  | H : be ?x = be ?y |- _ => apply be_inj in H; [|solve [eauto with prfs]|solve [eauto with prfs]]
  end; simplify_eq.

Section Views.
Context {M : Type} `{!KvEngine M}.
Implicit Types (t : KvData M) (id s g d v c : Z) (n : bytes) (r : NodeRec).

Definition node t id s : option NodeRec :=
  deserialize <$> kv_view (Nodes_ t) !! (be id ++ be s).
Definition dn t d v n : option Z := rdbe <$> kv_view (DownLinks_ t) !! (be d ++ be v ++ n).
Definition up t c v d n : Prop := is_Some (kv_view (UpLinks_ t) !! (be c ++ be v ++ be d ++ n)).
Definition chg t s id : Prop := is_Some (kv_view (Changes_ t) !! (be s ++ be id)).

(** Every key and value has the shape its sub-store documents. *)
Record kv_wf t : Prop := {
  wf_nodes (k w : bytes) : kv_view (Nodes_ t) !! k = Some w →
    ∃ id s r, in64 id ∧ in64 s ∧ rec_ok r ∧ k = be id ++ be s ∧ w = serialize r;
  wf_down (k w : bytes) : kv_view (DownLinks_ t) !! k = Some w →
    ∃ d v n c, in64 d ∧ in64 v ∧ in64 c ∧ k = be d ++ be v ++ n ∧ w = be c;
  wf_up (k w : bytes) : kv_view (UpLinks_ t) !! k = Some w →
    ∃ c v d n, in64 c ∧ in64 v ∧ in64 d ∧ k = be c ++ be v ++ be d ++ n;
  wf_chg (k w : bytes) : kv_view (Changes_ t) !! k = Some w →
    ∃ s id, in64 s ∧ in64 id ∧ k = be s ++ be id
}.

Lemma node_ok t id s r : kv_wf t → node t id s = Some r → rec_ok r.
Proof.
  intros Hwf (w & Hk & ->)%fmap_Some. apply (wf_nodes _ Hwf) in Hk as (? & ? & r' & ? & ? & ? & _ & ->).
  by rewrite deserialize_serialize.
Qed.

Lemma dn_range t d v n c : dn t d v n = Some c → in64 c.
Proof. intros (w & _ & ->)%fmap_Some. apply rdbe_range. Qed.

(** ** [loadNode] *)

(** [r], stored at [s], is what [id] looks like at snapshot [g]. *)
Definition eff_at t id g s r : Prop :=
  in64 s ∧ s <= g ∧ node t id s = Some r ∧ ∀ s', s < s' <= g → node t id s' = None.

(** The cursor position [loadNode] inspects: the greatest key not above. *)
Lemma load_pos (m : M) id rg :
  in64 id → in64 rg →
  greatest (λ k, bytes_le k (be id ++ be rg)) (kv_view m)
    (match kv_seek m (be id ++ be rg) with
     | Some k =>
         if (length k =? 16)%nat && (rdbe k =? id) && (rdbe (drop 8 k) =? rg)
         then kv_seek m (be id ++ be rg) else kv_prev m (kv_seek m (be id ++ be rg))
     | None => kv_last m
     end).
Proof.
  intros Hid Hrg. set (key := be id ++ be rg). pose proof (kv_seek_spec m key) as Hs.
  destruct (kv_seek m key) as [k|]; simpl in Hs.
  - destruct Hs as (Hk & Hle & Hleast).
    assert ((length k =? 16)%nat && (rdbe k =? id) && (rdbe (drop 8 k) =? rg) = true ↔ k = key) as Hiff.
    { rewrite !andb_true_iff, Nat.eqb_eq, !Z.eqb_eq. split.
      - intros [[Hl <-] <-]. unfold key. rewrite <- (take_drop 8 k) at 1.
        rewrite (be_rdbe (drop 8 k)) by (rewrite length_drop; lia). f_equal.
        rewrite <- (be_rdbe (take 8 k)) by (rewrite length_take; lia).
        f_equal. unfold rdbe. by rewrite take_take.
      - intros ->. unfold key. rewrite length_app, !length_be, rdbe_be, drop8_be, rdbe_be' by done.
        done. }
    destruct (_ && _ && _).
    + assert (k = key) as -> by tauto. split; [done|]. split; [apply bytes_ltb_irrefl|done].
    + assert (bytes_lt key k) as Hlt.
      { apply bytes_le_lt in Hle as [<-|]; [|done]. exfalso. destruct Hiff as [_ Hiff].
        discriminate (Hiff eq_refl). }
      pose proof (kv_prev_spec m k) as Hp.
      assert (∀ k', is_Some (kv_view m !! k') → bytes_le k' key ↔ bytes_lt k' k) as Heq.
      { intros k' Hk'. split.
        - rewrite bytes_le_lt. intros [->|?]; [done|]. by etrans.
        - intros Hk''. destruct (decide (bytes_le k' key)) as [|Hn]; [done|].
          apply bytes_not_le in Hn. exfalso. apply (bytes_lt_not_le k' k); [done|].
          apply Hleast; [done|]. apply bytes_le_lt. by right. }
      destruct (kv_prev m (Some k)) as [k0|]; simpl in *.
      * destruct Hp as (H0 & Hlt0 & Hmax). split_and!; [done|by apply Heq|].
        intros k' Hk' ?. apply Hmax; [done|]. by apply Heq.
      * intros k' Hk' ?. eapply Hp; [done|]. by apply Heq.
  - pose proof (kv_last_spec m) as Hl. destruct (kv_last m) as [k0|]; simpl in *.
    + destruct Hl as (H0 & _ & Hmax). split_and!; [done| |by auto].
      apply Hs, bytes_not_le in H0. apply bytes_le_lt. by right.
    + intros k' Hk' _. by eapply Hl.
Qed.

Lemma key2_le id s id' s' :
  in64 id → in64 s → in64 id' → in64 s' →
  bytes_le (be id ++ be s) (be id' ++ be s') ↔ id < id' ∨ id = id' ∧ s <= s'.
Proof.
  intros. unfold bytes_le. rewrite be_ltb_app by done. rewrite be_ltb by done.
  rewrite orb_false_iff, andb_false_iff, !Z.ltb_ge, Z.eqb_neq. lia.
Qed.

Lemma loadNode_spec t id rg :
  kv_wf t → in64 id → in64 rg →
  match loadNode t id rg with
  | Some r => ∃ s, eff_at t id rg s r
  | None => ∀ s, in64 s → s <= rg → node t id s = None
  end.
Proof.
  intros Hwf Hid Hrg. unfold loadNode. simpl sub.
  pose proof (load_pos (Nodes_ t) id rg Hid Hrg) as Hpos.
  assert (∀ s, in64 s → node t id s = None ↔ kv_view (Nodes_ t) !! (be id ++ be s) = None) as Hnone.
  { intros s0 _. unfold node. by rewrite fmap_None. }
  match type of Hpos with greatest _ _ ?p => set (pos := p) in * end.
  destruct pos as [k|]; simpl in Hpos.
  - destruct Hpos as ([v Hk] & Hle & Hmax).
    destruct (wf_nodes _ Hwf _ _ Hk) as (id' & s & r & Hid' & Hs & Hr & -> & ->).
    rewrite length_app, !length_be, rdbe_be, drop8_be, rdbe_be' by done. simpl.
    apply key2_le in Hle; [|done..].
    destruct (Z.eqb_spec id' id) as [->|Hne]; simpl.
    + replace (s <=? rg) with true by (symmetry; apply Z.leb_le; lia).
      exists s. rewrite kv_get_view, Hk. simpl. rewrite deserialize_serialize by done.
      split_and!; [done|lia| |].
      * unfold node. rewrite Hk. simpl. by rewrite deserialize_serialize.
      * intros s' Hs'. apply Hnone; [word_lia|]. apply eq_None_not_Some. intros Hsome.
        apply Hmax in Hsome; rewrite key2_le in * by word_lia; lia.
    + intros s' Hs' Hle'. apply Hnone; [done|]. apply eq_None_not_Some. intros Hsome.
      apply Hmax in Hsome; rewrite key2_le in * by done; lia.
  - intros s Hs Hle. apply Hnone; [done|]. apply eq_None_not_Some. intros Hsome.
    eapply Hpos; [done|]. apply key2_le; [done..|]. right. lia.
Qed.

Lemma eff_at_unique t id g s r s' r' : eff_at t id g s r → eff_at t id g s' r' → s = s' ∧ r = r'.
Proof.
  intros (? & ? & Hn & Hmax) (? & ? & Hn' & Hmax').
  assert (s = s') as ->; [|by simplify_eq].
  destruct (Z.lt_trichotomy s s') as [|[|]]; [|done|].
  - rewrite Hmax in Hn' by lia. done.
  - rewrite Hmax' in Hn by lia. done.
Qed.

Lemma loadNode_Some t id g r :
  kv_wf t → in64 id → in64 g → loadNode t id g = Some r ↔ ∃ s, eff_at t id g s r.
Proof.
  intros Hwf Hid Hg. pose proof (loadNode_spec t id g Hwf Hid Hg) as Hl.
  destruct (loadNode t id g) as [r'|].
  - destruct Hl as [s Hs]. split; [intros ?; simplify_eq; by exists s|].
    intros [s' Hs']. destruct (eff_at_unique _ _ _ _ _ _ _ Hs Hs') as [_ ->]. done.
  - split; [done|]. intros (s & ? & ? & Hn & _). by rewrite Hl in Hn.
Qed.

Lemma loadNode_None t id g :
  kv_wf t → in64 id → in64 g →
  loadNode t id g = None ↔ ∀ s, in64 s → s <= g → node t id s = None.
Proof.
  intros Hwf Hid Hg. pose proof (loadNode_spec t id g Hwf Hid Hg) as Hl.
  destruct (loadNode t id g) as [r'|]; [|done].
  destruct Hl as (s & ? & ? & Hn & _). split; [done|]. intros Hnone. by rewrite Hnone in Hn.
Qed.

Lemma loadNode_ext t t' id g :
  kv_wf t → kv_wf t' → in64 id → in64 g →
  (∀ s, in64 s → s <= g → node t' id s = node t id s) → loadNode t' id g = loadNode t id g.
Proof.
  intros Hwf Hwf' Hid Hg Heq. apply option_eq. intros r.
  rewrite !loadNode_Some by done. f_equiv. intros s. unfold eff_at. split.
  - intros (Hs & Hle & Hn & Hmax). rewrite Heq in Hn by done. split_and!; [done..|].
    intros s' Hs'. rewrite <- Heq by word_lia. by apply Hmax.
  - intros (Hs & Hle & Hn & Hmax). split_and!; [done|done|by rewrite Heq|].
    intros s' Hs'. rewrite Heq by word_lia. by apply Hmax.
Qed.

Lemma loadNode_exact t id g r :
  kv_wf t → in64 id → in64 g → node t id g = Some r → loadNode t id g = Some r.
Proof. intros. apply loadNode_Some; [done..|]. exists g. split_and!; [done|lia|done|lia]. Qed.

Lemma loadNode_ok t id g r :
  kv_wf t → in64 id → in64 g → loadNode t id g = Some r → rec_ok r.
Proof. intros Hwf ?? (s & _ & _ & Hn & _)%loadNode_Some; try done. by eapply node_ok. Qed.

(** A node that exists at a snapshot exists at every later one. *)
Lemma loadNode_mono t id g g' :
  kv_wf t → in64 id → in64 g → in64 g' → g <= g' →
  is_Some (loadNode t id g) → is_Some (loadNode t id g').
Proof.
  intros Hwf Hid Hg Hg' Hle [r Hr]. destruct (loadNode t id g') eqn:E; [by eexists|].
  rewrite loadNode_None in E by done.
  apply loadNode_Some in Hr as (s & Hs & Hsg & Hn & _); try done. rewrite E in Hn; [done..|lia].
Qed.

(** ** Updates *)

Lemma node_put t k key w id s :
  node (t_put t k key w) id s =
    if decide (Nodes = k ∧ be id ++ be s = key) then Some (deserialize w) else node t id s.
Proof.
  unfold node. change (Nodes_ ?t) with (sub t Nodes). rewrite view_put. by case_decide.
Qed.
Lemma dn_put t k key w d v n :
  dn (t_put t k key w) d v n =
    if decide (DownLinks = k ∧ be d ++ be v ++ n = key) then Some (rdbe w) else dn t d v n.
Proof.
  unfold dn. change (DownLinks_ ?t) with (sub t DownLinks). rewrite view_put. by case_decide.
Qed.
Lemma up_put t k key w c v d n :
  up (t_put t k key w) c v d n ↔ (UpLinks = k ∧ be c ++ be v ++ be d ++ n = key) ∨ up t c v d n.
Proof.
  unfold up. change (UpLinks_ ?t) with (sub t UpLinks). rewrite view_put.
  case_decide; naive_solver.
Qed.
Lemma chg_put t k key w s id :
  chg (t_put t k key w) s id ↔ (Changes = k ∧ be s ++ be id = key) ∨ chg t s id.
Proof.
  unfold chg. change (Changes_ ?t) with (sub t Changes). rewrite view_put.
  case_decide; naive_solver.
Qed.
Lemma dn_del t k key d v n :
  dn (t_del t k key) d v n =
    if decide (DownLinks = k ∧ be d ++ be v ++ n = key) then None else dn t d v n.
Proof.
  unfold dn. change (DownLinks_ ?t) with (sub t DownLinks). rewrite view_t_del. by case_decide.
Qed.
Lemma up_del t k key c v d n :
  up (t_del t k key) c v d n ↔ ¬ (UpLinks = k ∧ be c ++ be v ++ be d ++ n = key) ∧ up t c v d n.
Proof.
  unfold up. change (UpLinks_ ?t) with (sub t UpLinks). rewrite view_t_del.
  case_decide; [|naive_solver]. split; [by intros [? ?]|naive_solver].
Qed.
Lemma node_del t k key id s : k ≠ Nodes → node (t_del t k key) id s = node t id s.
Proof.
  intros. unfold node. change (Nodes_ ?t) with (sub t Nodes).
  rewrite view_t_del, decide_False by naive_solver. done.
Qed.
Lemma chg_del t k key s id : k ≠ Changes → chg (t_del t k key) s id ↔ chg t s id.
Proof.
  intros. unfold chg. change (Changes_ ?t) with (sub t Changes).
  rewrite view_t_del, decide_False by naive_solver. done.
Qed.

Lemma kv_wf_del t k key : kv_wf t → kv_wf (t_del t k key).
Proof.
  intros [H1 H2 H3 H4].
  assert (∀ k' q w, kv_view (sub (t_del t k key) k') !! q = Some w → kv_view (sub t k') !! q = Some w)
    as Hsub by (intros ???; rewrite view_t_del; by case_decide).
  split; intros q w.
  - intros ?%(Hsub Nodes). eauto.
  - intros ?%(Hsub DownLinks). eauto.
  - intros ?%(Hsub UpLinks). eauto.
  - intros ?%(Hsub Changes). eauto.
Qed.

(** What a write must look like to keep the sub-stores well formed. *)
Definition put_ok (k : Kv) (key w : bytes) : Prop :=
  match k with
  | Nodes => ∃ id s r, in64 id ∧ in64 s ∧ rec_ok r ∧ key = be id ++ be s ∧ w = serialize r
  | DownLinks => ∃ d v n c, in64 d ∧ in64 v ∧ in64 c ∧ key = be d ++ be v ++ n ∧ w = be c
  | UpLinks => ∃ c v d n, in64 c ∧ in64 v ∧ in64 d ∧ key = be c ++ be v ++ be d ++ n
  | Changes => ∃ s id, in64 s ∧ in64 id ∧ key = be s ++ be id
  | Meta | Snaps => True
  end.
Lemma kv_wf_put t k key w : kv_wf t → put_ok k key w → kv_wf (t_put t k key w).
Proof.
  intros [H1 H2 H3 H4] Hok.
  assert (∀ k' q x, kv_view (sub (t_put t k key w) k') !! q = Some x →
    k' = k ∧ q = key ∧ x = w ∨ kv_view (sub t k') !! q = Some x) as Hsub
    by (intros ???; rewrite view_put; case_decide; naive_solver).
  split; intros q x.
  - intros [(<- & -> & ->)|?]%(Hsub Nodes); eauto.
  - intros [(<- & -> & ->)|?]%(Hsub DownLinks); eauto.
  - intros [(<- & -> & ->)|?]%(Hsub UpLinks); eauto.
  - intros [(<- & -> & ->)|?]%(Hsub Changes); eauto.
Qed.

(** *** [storeNode] *)

Lemma kv_wf_storeNode t id s r :
  kv_wf t → in64 id → in64 s → rec_ok r → kv_wf (storeNode t id s r).
Proof. intros. apply kv_wf_put; [apply kv_wf_put; [done|]|]; simpl; eauto 10. Qed.

Lemma node_storeNode t id s r id' s' :
  in64 id → in64 s → rec_ok r → in64 id' → in64 s' →
  node (storeNode t id s r) id' s' = if decide (id' = id ∧ s' = s) then Some r else node t id' s'.
Proof.
  intros. unfold storeNode. rewrite !node_put.
  rewrite (decide_False (P := Nodes = Changes ∧ _)) by naive_solver.
  case_decide as E; case_decide as E'.
  - by rewrite deserialize_serialize.
  - destruct E as [_ E]. key_inj. naive_solver.
  - destruct E' as [-> ->]. naive_solver.
  - done.
Qed.
Lemma dn_storeNode t id s r d v n : dn (storeNode t id s r) d v n = dn t d v n.
Proof. unfold storeNode. by rewrite !dn_put, !decide_False by naive_solver. Qed.
Lemma up_storeNode t id s r c v d n : up (storeNode t id s r) c v d n ↔ up t c v d n.
Proof. unfold storeNode. rewrite !up_put. naive_solver. Qed.
Lemma chg_storeNode t id s r s' id' :
  in64 id → in64 s → in64 id' → in64 s' →
  chg (storeNode t id s r) s' id' ↔ (s' = s ∧ id' = id) ∨ chg t s' id'.
Proof.
  intros. unfold storeNode. rewrite !chg_put. split; [|naive_solver].
  intros [[_ E]|[[? _]|?]]; [|done|auto]. key_inj. auto.
Qed.

(** *** Link writes *)

Lemma dn_put_link t d v n c d' v' n' :
  in64 d → in64 v → in64 c → in64 d' → in64 v' →
  dn (t_put t DownLinks (be d ++ be v ++ n) (be c)) d' v' n' =
    if decide (d' = d ∧ v' = v ∧ n' = n) then Some c else dn t d' v' n'.
Proof.
  intros. rewrite dn_put. case_decide as E; case_decide as E'; try done.
  - by rewrite rdbe_be'.
  - destruct E as [_ E]. key_inj. naive_solver.
  - naive_solver.
Qed.
Lemma dn_del_link t d v n d' v' n' :
  in64 d → in64 v → in64 d' → in64 v' →
  dn (t_del t DownLinks (be d ++ be v ++ n)) d' v' n' =
    if decide (d' = d ∧ v' = v ∧ n' = n) then None else dn t d' v' n'.
Proof.
  intros. rewrite dn_del. case_decide as E; case_decide as E'; try done.
  - destruct E as [_ E]. key_inj. naive_solver.
  - naive_solver.
Qed.
Lemma up_put_link t c v d n w c' v' d' n' :
  in64 c → in64 v → in64 d → in64 c' → in64 v' → in64 d' →
  up (t_put t UpLinks (be c ++ be v ++ be d ++ n) w) c' v' d' n' ↔
    (c' = c ∧ v' = v ∧ d' = d ∧ n' = n) ∨ up t c' v' d' n'.
Proof.
  intros. rewrite up_put. split; [|naive_solver]. intros [[_ E]|?]; [|auto]. key_inj. auto.
Qed.
Lemma up_del_link t c v d n c' v' d' n' :
  in64 c → in64 v → in64 d → in64 c' → in64 v' → in64 d' →
  up (t_del t UpLinks (be c ++ be v ++ be d ++ n)) c' v' d' n' ↔
    ¬ (c' = c ∧ v' = v ∧ d' = d ∧ n' = n) ∧ up t c' v' d' n'.
Proof.
  intros. rewrite up_del. split; [naive_solver|]. intros [Hne ?]. split; [|done].
  intros [_ E]. key_inj. naive_solver.
Qed.

(** ** Scans of one version *)

Lemma elem_of_scanDownlinks t d v n c :
  kv_wf t → in64 d → in64 v → (n, c) ∈ scanDownlinks t d v ↔ dn t d v n = Some c.
Proof.
  intros Hwf Hd Hv. unfold scanDownlinks, dn. rewrite list_elem_of_fmap, fmap_Some. simpl sub.
  split.
  - intros ([n' w] & Heq & Hin%elem_of_scan). simplify_eq/=. rewrite <- app_assoc in Hin. eauto.
  - intros (w & Hin & ->). exists (n, w). split; [done|].
    rewrite elem_of_scan. by rewrite <- app_assoc.
Qed.

Lemma scanDownlinks_sorted t d v : StronglySorted name_lt (scanDownlinks t d v).
Proof. unfold scanDownlinks. apply sorted_fmap with name_lt; [done|apply scan_sorted]. Qed.
Lemma scanDownlinks_NoDup t d v : NoDup (scanDownlinks t d v).
Proof. eapply sorted_NoDup; [apply _|apply scanDownlinks_sorted]. Qed.
Lemma scanDownlinks_names t d v : NoDup (scanDownlinks t d v).*1.
Proof.
  eapply (sorted_NoDup bytes_lt). apply sorted_fmap with name_lt; [done|apply scanDownlinks_sorted].
Qed.

Lemma scanDownlinks_ext t t' d v v' :
  (∀ n, kv_view (DownLinks_ t') !! (be d ++ be v' ++ n) = kv_view (DownLinks_ t) !! (be d ++ be v ++ n)) →
  scanDownlinks t' d v' = scanDownlinks t d v.
Proof.
  intros Heq. unfold scanDownlinks. f_equal. apply scan_ext. intros n. simpl sub.
  by rewrite <- !app_assoc, Heq.
Qed.

(** The up-link suffixes [container ++ name] of one version. *)
Definition upscan t c v : list bytes := (scan (sub t UpLinks) (be c ++ be v)).*1.

Lemma elem_of_upscan t c v (x : bytes) :
  kv_wf t → in64 c → in64 v → x ∈ upscan t c v ↔ ∃ d n, in64 d ∧ x = be d ++ n ∧ up t c v d n.
Proof.
  intros Hwf Hc Hv. unfold upscan, up. rewrite list_elem_of_fmap. simpl sub. split.
  - intros ([s' w] & -> & Hin%elem_of_scan). simpl. rewrite <- app_assoc in Hin.
    destruct (wf_up _ Hwf _ _ Hin) as (c' & v' & d & n & ? & ? & ? & E). key_inj. eauto 6.
  - intros (d & n & Hd & -> & w & Hin). exists (be d ++ n, w). split; [done|].
    rewrite elem_of_scan. by rewrite <- app_assoc.
Qed.

Lemma upscan_sorted t c v : StronglySorted bytes_lt (upscan t c v).
Proof. apply sorted_fmap with name_lt; [done|apply scan_sorted]. Qed.
Lemma upscan_NoDup t c v : NoDup (upscan t c v).
Proof. eapply sorted_NoDup; [apply _|apply upscan_sorted]. Qed.

Lemma upscan_ext t t' c v v' :
  kv_wf t → kv_wf t' → in64 c → in64 v → in64 v' →
  (∀ d n, in64 d → up t' c v' d n ↔ up t c v d n) → upscan t' c v' = upscan t c v.
Proof.
  intros ????? Heq. eapply (sorted_ext bytes_lt); [apply upscan_sorted..|].
  intros x. rewrite !elem_of_upscan by done. naive_solver.
Qed.
Lemma scanDownlinks_ext' t t' d v v' :
  kv_wf t → kv_wf t' → in64 d → in64 v → in64 v' →
  (∀ n, dn t' d v' n = dn t d v n) → scanDownlinks t' d v' = scanDownlinks t d v.
Proof.
  intros ????? Heq. eapply (sorted_ext name_lt); [apply scanDownlinks_sorted..|].
  intros [n c]. by rewrite !elem_of_scanDownlinks, Heq by done.
Qed.
End Views.
#[export] Hint Resolve dn_range : prfs.
