(* ===== verification/Shape.v ===== *)
(** * Shape: versions, copy-on-write and frozen snapshots

    The invariant that ties versions to records ([shape]): every record lies
    at or before the current snapshot, every link version belongs to a record
    of that version, every record has its change record. The primitive writes
    preserve it and never touch a version before the current one ([frozen]);
    the copy-on-write of a link set preserves what the links are. *)
From S2P Require Import Prelude Keys Kv NodeRec Store Views.
Local Open Scope Z_scope.
Set Warnings "-clear-no-such-hyp".

Lemma rec_ok_set_dn x r : rec_ok r → in64 x → rec_ok (set_dn x r).
Proof. destruct r. unfold rec_ok. simpl. tauto. Qed.
Lemma rec_ok_set_up x r : rec_ok r → in64 x → rec_ok (set_up x r).
Proof. destruct r. unfold rec_ok. simpl. tauto. Qed.
Lemma rec_ok_set_nlink x r : rec_ok r → in32 x → rec_ok (set_nlink x r).
Proof. destruct r. unfold rec_ok. simpl. tauto. Qed.
#[export] Hint Resolve rec_ok_set_dn rec_ok_set_up rec_ok_set_nlink : prfs.

Section Shape.
Context {M : Type} `{!KvEngine M}.
Implicit Types (t : KvData M) (id s g d v c : Z) (n : bytes) (r : NodeRec).

Record shape (cur next : Z) t : Prop := {
  sh_wf : kv_wf t;
  sh_cur : 1 <= cur < LATEST;
  sh_next : 2 <= next <= 2 ^ 63;
  sh_node id s r : in64 id → in64 s → node t id s = Some r →
    1 <= id < next ∧ 1 <= s <= cur ∧ 1 <= r_dn r <= s ∧ 1 <= r_up r <= s ∧
    ∃ ty, r_type r = tcode ty;
  sh_type id s s' r r' : in64 id → in64 s → in64 s' →
    node t id s = Some r → node t id s' = Some r' → r_type r = r_type r';
  sh_dn d v n c : in64 d → in64 v → dn t d v n = Some c → ∃ r, node t d v = Some r ∧ r_dn r = v;
  sh_up c v d n : in64 c → in64 v → in64 d → up t c v d n → ∃ r, node t c v = Some r ∧ r_up r = v;
  sh_chg s id : in64 s → in64 id → chg t s id ↔ is_Some (node t id s)
}.

(** Nothing recorded before version [cur] changes. *)
Definition frozen (cur : Z) t t' : Prop :=
  ∀ s, in64 s → s < cur →
    (∀ id, in64 id → node t' id s = node t id s) ∧
    (∀ d n, in64 d → dn t' d s n = dn t d s n) ∧
    (∀ c d n, in64 c → in64 d → up t' c s d n ↔ up t c s d n) ∧
    (∀ id, in64 id → chg t' s id ↔ chg t s id).

Global Instance frozen_refl cur : Reflexive (frozen cur).
Proof. intros t s Hs Hlt. split_and!; done. Qed.
Global Instance frozen_trans cur : Transitive (frozen cur).
Proof.
  intros t1 t2 t3 H12 H23 s Hs Hlt.
  destruct (H12 s Hs Hlt) as (A1 & A2 & A3 & A4), (H23 s Hs Hlt) as (B1 & B2 & B3 & B4).
  split_and!; intros.
  - by rewrite B1, A1.
  - by rewrite B2, A2.
  - by rewrite B3, A3.
  - by rewrite B4, A4.
Qed.

(** ** Loading *)

Lemma loadNode_in64 t id g r : loadNode t id g = Some r → in64 id.
Proof.
  unfold loadNode. destruct (match kv_seek _ _ with Some _ => _ | None => _ end) as [k|]; [|done].
  destruct (_ && _ && _) eqn:E; [|done]. rewrite !andb_true_iff, Z.eqb_eq in E.
  destruct E as [[_ <-] _]. intros _. apply rdbe_range.
Qed.

Lemma shape_in64_cur cur next t : shape cur next t → in64 cur.
Proof. intros H. pose proof (sh_cur _ _ _ H). unfold LATEST in *. word_lia. Qed.

Lemma load_node cur next t id g r :
  shape cur next t → in64 g → loadNode t id g = Some r →
  ∃ s, in64 s ∧ s <= g ∧ node t id s = Some r ∧ rec_ok r ∧
    1 <= id < next ∧ 1 <= s <= cur ∧ 1 <= r_dn r <= s ∧ 1 <= r_up r <= s.
Proof.
  intros Hsh Hg Hl. pose proof (loadNode_in64 _ _ _ _ Hl) as Hid.
  apply loadNode_Some in Hl as (s & Hs & Hle & Hn & _); [|apply Hsh|done..].
  exists s. pose proof (sh_node _ _ _ Hsh _ _ _ Hid Hs Hn) as (?&?&?&?&?).
  split_and!; try done; try lia. eapply node_ok; [apply Hsh|done].
Qed.

(** The record whose link version is the current one is stored there. *)
Lemma load_dn_cur cur next t id r :
  shape cur next t → loadNode t id cur = Some r → r_dn r = cur → node t id cur = Some r.
Proof.
  intros Hsh Hl Hdn. destruct (load_node _ _ _ _ _ _ Hsh (shape_in64_cur _ _ _ Hsh) Hl)
    as (s & ? & ? & Hn & ?). by replace cur with s by lia.
Qed.
Lemma load_up_cur cur next t id r :
  shape cur next t → loadNode t id cur = Some r → r_up r = cur → node t id cur = Some r.
Proof.
  intros Hsh Hl Hup. destruct (load_node _ _ _ _ _ _ Hsh (shape_in64_cur _ _ _ Hsh) Hl)
    as (s & ? & ? & Hn & ?). by replace cur with s by lia.
Qed.

Lemma loadNode_other t k key w id g :
  k ≠ Nodes → loadNode (t_put t k key w) id g = loadNode t id g.
Proof. by destruct t, k. Qed.
Lemma loadNode_other_del t k key id g :
  k ≠ Nodes → loadNode (t_del t k key) id g = loadNode t id g.
Proof. by destruct t, k. Qed.

Lemma loadNode_storeNode cur next t id r id' :
  shape cur next t → in64 id → rec_ok r → in64 id' →
  loadNode (storeNode t id cur r) id' cur =
    if decide (id' = id) then Some r else loadNode t id' cur.
Proof.
  intros Hsh Hid Hr Hid'. pose proof (shape_in64_cur _ _ _ Hsh) as Hcur.
  assert (kv_wf (storeNode t id cur r)) as Hwf by (apply kv_wf_storeNode; [apply Hsh|done..]).
  case_decide as E.
  - subst. apply loadNode_exact; [done..|]. rewrite node_storeNode by done. by rewrite decide_True.
  - apply loadNode_ext; [apply Hsh|done..|]. intros s ??.
    rewrite node_storeNode by done. by rewrite decide_False by naive_solver.
Qed.

(** Every earlier snapshot loads the same records. *)
Lemma frozen_loadNode cur next t t' id g :
  shape cur next t → kv_wf t' → frozen cur t t' → in64 id → in64 g → g < cur →
  loadNode t' id g = loadNode t id g.
Proof.
  intros Hsh Hwf Hf Hid Hg Hlt. apply loadNode_ext; [apply Hsh|done..|].
  intros s ??. apply Hf; [done|lia|done].
Qed.

(** ** Primitive writes *)

Lemma frozen_storeNode cur t id r :
  in64 cur → in64 id → rec_ok r → frozen cur t (storeNode t id cur r).
Proof.
  intros Hcur Hid Hr s Hs Hlt. split_and!; intros.
  - rewrite node_storeNode by done. rewrite decide_False by naive_solver lia. done.
  - apply dn_storeNode.
  - apply up_storeNode.
  - rewrite chg_storeNode by done. naive_solver lia.
Qed.

Lemma shape_storeNode cur next t id r r' :
  shape cur next t → loadNode t id cur = Some r → rec_ok r' → r_type r' = r_type r →
  r_dn r' = r_dn r ∨ r_dn r' = cur → r_up r' = r_up r ∨ r_up r' = cur →
  shape cur next (storeNode t id cur r').
Proof.
  intros Hsh Hl Hr' Hty Hdn Hup. pose proof (loadNode_in64 _ _ _ _ Hl) as Hid.
  pose proof (shape_in64_cur _ _ _ Hsh) as Hcur.
  pose proof (load_node _ _ _ _ _ _ Hsh Hcur Hl) as (s0 & Hs0 & Hle & Hn0 & _ & Hb).
  pose proof (sh_node _ _ _ Hsh _ _ _ Hid Hs0 Hn0) as (_&_&_&_& Hty0).
  split; try apply Hsh.
  - apply kv_wf_storeNode; [apply Hsh|done..].
  - intros id' s r'' ??. rewrite node_storeNode by done. case_decide as E.
    + destruct E as [-> ->]. intros [= <-]. rewrite Hty. split_and!; [lia..|done].
    + by apply Hsh.
  - intros id' s s' r1 r2 ???. rewrite !node_storeNode by done.
    repeat case_decide; try destruct_and!; subst; intros; simplify_eq; try done.
    + rewrite Hty. by apply (sh_type _ _ _ Hsh id s0 s').
    + rewrite Hty. by apply (sh_type _ _ _ Hsh id s s0).
    + by apply (sh_type _ _ _ Hsh id' s s').
  - intros d v n c ??. rewrite dn_storeNode, node_storeNode by done. intros Hd.
    destruct (sh_dn _ _ _ Hsh d v n c) as (r1 & Hr1 & Hv); [done..|].
    case_decide as E; [|eauto]. destruct E as [-> ->]. exists r'. split; [done|].
    assert (r1 = r) as ->; [|lia].
    apply loadNode_exact in Hr1; [|apply Hsh|done..]. congruence.
  - intros c v d n ???. rewrite up_storeNode, node_storeNode by done. intros Hu.
    destruct (sh_up _ _ _ Hsh c v d n) as (r1 & Hr1 & Hv); [done..|].
    case_decide as E; [|eauto]. destruct E as [-> ->]. exists r'. split; [done|].
    assert (r1 = r) as ->; [|lia].
    apply loadNode_exact in Hr1; [|apply Hsh|done..]. congruence.
  - intros s id' ??. rewrite chg_storeNode, node_storeNode, (sh_chg _ _ _ Hsh) by done.
    case_decide; naive_solver.
Qed.

(** A write to another sub-store than the first four is invisible. *)
Lemma shape_meta cur next t k key w :
  shape cur next t → k = Meta ∨ k = Snaps → shape cur next (t_put t k key w).
Proof.
  intros Hsh Hk. assert (∀ id s, node (t_put t k key w) id s = node t id s) as Hn.
  { intros. rewrite node_put, decide_False by (destruct Hk; naive_solver). done. }
  split; try apply Hsh; try setoid_rewrite Hn; try apply Hsh.
  - apply kv_wf_put; [apply Hsh|]. by destruct Hk as [-> | ->].
  - intros d v n c ??. rewrite dn_put, decide_False by (destruct Hk; naive_solver). by apply Hsh.
  - intros c v d n ???. rewrite up_put. intros [[? _]|?]; [destruct Hk; naive_solver|].
    by eapply Hsh.
  - intros s id ??. rewrite chg_put, (sh_chg _ _ _ Hsh) by done. destruct Hk; naive_solver.
Qed.
Lemma frozen_meta cur t k key w : k = Meta ∨ k = Snaps → frozen cur t (t_put t k key w).
Proof.
  intros Hk s ??. split_and!; intros.
  - rewrite node_put, decide_False by (destruct Hk; naive_solver). done.
  - rewrite dn_put, decide_False by (destruct Hk; naive_solver). done.
  - rewrite up_put. destruct Hk; naive_solver.
  - rewrite chg_put. destruct Hk; naive_solver.
Qed.

(** Adding or removing one link of the current version. *)
Lemma shape_put_dn cur next t d r n c :
  shape cur next t → loadNode t d cur = Some r → r_dn r = cur → in64 c →
  shape cur next (t_put t DownLinks (be d ++ be cur ++ n) (be c)).
Proof.
  intros Hsh Hl Hdn Hc. pose proof (loadNode_in64 _ _ _ _ Hl) as Hd.
  pose proof (shape_in64_cur _ _ _ Hsh) as Hcur.
  assert (∀ id s, node (t_put t DownLinks (be d ++ be cur ++ n) (be c)) id s = node t id s) as Hn
    by (intros; rewrite node_put, decide_False by naive_solver; done).
  split; try apply Hsh; try setoid_rewrite Hn; try apply Hsh.
  - apply kv_wf_put; [apply Hsh|]. simpl. eauto 10.
  - intros d' v n' c' ??. rewrite dn_put_link by done. case_decide as E; [|by apply Hsh].
    destruct E as (-> & -> & ->). intros _. eauto using load_dn_cur.
  - intros c' v d' n' ???. rewrite up_put. intros [[? _]|?]; [done|]. by eapply Hsh.
  - intros s id ??. rewrite chg_put, (sh_chg _ _ _ Hsh) by done. naive_solver.
Qed.
Lemma shape_del_dn cur next t key : shape cur next t → shape cur next (t_del t DownLinks key).
Proof.
  intros Hsh. assert (∀ id s, node (t_del t DownLinks key) id s = node t id s) as Hn
    by (intros; by rewrite node_del).
  split; try apply Hsh; try setoid_rewrite Hn; try apply Hsh.
  - apply kv_wf_del, Hsh.
  - intros d v n c ??. rewrite dn_del. case_decide; [done|]. by apply Hsh.
  - intros c v d n ???. rewrite up_del. intros [_ ?]. by eapply Hsh.
  - intros s id ??. rewrite chg_del by done. by apply Hsh.
Qed.
Lemma shape_put_up cur next t c r d n w :
  shape cur next t → loadNode t c cur = Some r → r_up r = cur → in64 d →
  shape cur next (t_put t UpLinks (be c ++ be cur ++ be d ++ n) w).
Proof.
  intros Hsh Hl Hup Hd. pose proof (loadNode_in64 _ _ _ _ Hl) as Hc.
  pose proof (shape_in64_cur _ _ _ Hsh) as Hcur.
  assert (∀ id s, node (t_put t UpLinks (be c ++ be cur ++ be d ++ n) w) id s = node t id s) as Hn
    by (intros; rewrite node_put, decide_False by naive_solver; done).
  split; try apply Hsh; try setoid_rewrite Hn; try apply Hsh.
  - apply kv_wf_put; [apply Hsh|]. simpl. eauto 10.
  - intros d' v n' c' ??. rewrite dn_put, decide_False by naive_solver. by apply Hsh.
  - intros c' v d' n' ???. rewrite up_put_link by done. intros [(-> & -> & -> & ->)|?].
    + eauto using load_up_cur.
    + by eapply Hsh.
  - intros s id ??. rewrite chg_put, (sh_chg _ _ _ Hsh) by done. naive_solver.
Qed.
Lemma shape_del_up cur next t key : shape cur next t → shape cur next (t_del t UpLinks key).
Proof.
  intros Hsh. assert (∀ id s, node (t_del t UpLinks key) id s = node t id s) as Hn
    by (intros; by rewrite node_del).
  split; try apply Hsh; try setoid_rewrite Hn; try apply Hsh.
  - apply kv_wf_del, Hsh.
  - intros d v n c ??. rewrite dn_del, decide_False by naive_solver. by apply Hsh.
  - intros c v d n ???. rewrite up_del. intros [_ ?]. by eapply Hsh.
  - intros s id ??. rewrite chg_del by done. by apply Hsh.
Qed.

Lemma frozen_dn cur t d n w :
  in64 cur → in64 d → frozen cur t (t_put t DownLinks (be d ++ be cur ++ n) w).
Proof.
  intros Hcur Hd s ??. split_and!; intros.
  - rewrite node_put, decide_False by naive_solver. done.
  - rewrite dn_put, decide_False; [done|]. intros [_ E]. key_inj. lia.
  - rewrite up_put. naive_solver.
  - rewrite chg_put. naive_solver.
Qed.
Lemma frozen_del_dn cur t d n :
  in64 cur → in64 d → frozen cur t (t_del t DownLinks (be d ++ be cur ++ n)).
Proof.
  intros Hcur Hd s ??. split_and!; intros.
  - by rewrite node_del.
  - rewrite dn_del, decide_False; [done|]. intros [_ E]. key_inj. lia.
  - rewrite up_del. naive_solver.
  - by rewrite chg_del.
Qed.
Lemma frozen_up cur t c x w :
  in64 cur → in64 c → frozen cur t (t_put t UpLinks (be c ++ be cur ++ x) w).
Proof.
  intros Hcur Hc s ??. split_and!; intros.
  - rewrite node_put, decide_False by naive_solver. done.
  - rewrite dn_put, decide_False by naive_solver. done.
  - rewrite up_put. split; [|by right]. intros [[_ E]|?]; [|done]. key_inj. lia.
  - rewrite chg_put. naive_solver.
Qed.
Lemma frozen_del_up cur t c x :
  in64 cur → in64 c → frozen cur t (t_del t UpLinks (be c ++ be cur ++ x)).
Proof.
  intros Hcur Hc s ??. split_and!; intros.
  - by rewrite node_del.
  - rewrite dn_del, decide_False by naive_solver. done.
  - rewrite up_del. split; [by intros [_ ?]|]. intros ?. split; [|done]. intros [_ E]. key_inj. lia.
  - by rewrite chg_del.
Qed.

(** ** Copy-on-write *)

(** A link set of the current version is empty until its record says so. *)
Lemma no_stale_dn cur next t d r n :
  shape cur next t → loadNode t d cur = Some r → r_dn r ≠ cur → dn t d cur n = None.
Proof.
  intros Hsh Hl Hne. pose proof (shape_in64_cur _ _ _ Hsh) as Hcur.
  pose proof (loadNode_in64 _ _ _ _ Hl). apply eq_None_not_Some. intros [c Hc].
  destruct (sh_dn _ _ _ Hsh d cur n c) as (r1 & Hr1 & ?); [done..|].
  apply loadNode_exact in Hr1; [|apply Hsh|done..]. congruence.
Qed.
Lemma no_stale_up cur next t c r d n :
  shape cur next t → loadNode t c cur = Some r → in64 d → r_up r ≠ cur → ¬ up t c cur d n.
Proof.
  intros Hsh Hl Hd Hne Hup. pose proof (shape_in64_cur _ _ _ Hsh) as Hcur.
  pose proof (loadNode_in64 _ _ _ _ Hl).
  destruct (sh_up _ _ _ Hsh c cur d n) as (r1 & Hr1 & ?); [done..|].
  apply loadNode_exact in Hr1; [|apply Hsh|done..]. congruence.
Qed.

Definition copy_dn (cur dir : Z) (copies : list (bytes * Z)) t : KvData M :=
  fold_left (λ t '(name, child), t_put t DownLinks (be dir ++ be cur ++ name) (be child)) copies t.
Definition copy_up (cur nd : Z) (copies : list bytes) t : KvData M :=
  fold_left (λ t suffix, t_put t UpLinks (be nd ++ be cur ++ suffix) []) copies t.

Lemma copy_dn_spec cur dir copies t :
  in64 cur → in64 dir → Forall (λ e, in64 e.2) copies → kv_wf t →
  let t' := copy_dn cur dir copies t in
  kv_wf t' ∧ frozen cur t t' ∧
  (∀ id s, node t' id s = node t id s) ∧
  (∀ c v d n, up t' c v d n ↔ up t c v d n) ∧ (∀ s id, chg t' s id ↔ chg t s id) ∧
  (∀ id g, loadNode t' id g = loadNode t id g).
Proof.
  intros Hcur Hdir Hc Hwf t'. subst t'. revert t Hwf.
  induction Hc as [|[n c] copies Hc Hcs IH]; intros t Hwf; simpl; [by split_and!|].
  destruct (IH (t_put t DownLinks (be dir ++ be cur ++ n) (be c))) as (A1&A2&A3&A4&A5&A6).
  { apply kv_wf_put; [done|]. simpl. eauto 10. }
  unfold copy_dn in *. split_and!; [done| | | | |].
  - etrans; [|done]. by apply frozen_dn.
  - intros id s. rewrite A3, node_put, decide_False by naive_solver. done.
  - intros. rewrite A4, up_put. naive_solver.
  - intros. rewrite A5, chg_put. naive_solver.
  - intros. by rewrite A6, loadNode_other.
Qed.

Lemma dn_copy_dn cur dir copies t d v n :
  in64 cur → in64 dir → Forall (λ e, in64 e.2) copies → NoDup copies.*1 → in64 d → in64 v →
  (∀ n', d = dir → v = cur → n' ∈ copies.*1 → dn t dir cur n' = None) →
  ∀ c, dn (copy_dn cur dir copies t) d v n = Some c ↔
    (d = dir ∧ v = cur ∧ (n, c) ∈ copies) ∨ dn t d v n = Some c.
Proof.
  intros Hcur Hdir Hc Hnd Hd Hv. revert t.
  induction Hc as [|[n1 c1] copies Hc Hcs IH]; intros t Hno c; simpl in *; [set_solver|].
  apply NoDup_cons in Hnd as [Hn1 Hnd]. unfold copy_dn in *. rewrite IH; [|done|].
  2: { intros n' -> -> Hn'. rewrite dn_put_link by done.
       rewrite decide_False by naive_solver. apply Hno; [done..|by right]. }
  rewrite dn_put_link, elem_of_cons by done. case_decide as E.
  - destruct E as (-> & -> & ->). specialize (Hno n1 eq_refl eq_refl ltac:(left)). rewrite Hno.
    split; [|naive_solver]. intros [(_ & _ & Hin)|[= ->]]; [|naive_solver].
    destruct Hn1. apply list_elem_of_fmap. by exists (n1, c).
  - naive_solver.
Qed.

Lemma copy_up_spec cur nd copies t :
  in64 cur → in64 nd → Forall (λ x, ∃ d n, in64 d ∧ x = be d ++ n) copies → kv_wf t →
  let t' := copy_up cur nd copies t in
  kv_wf t' ∧ frozen cur t t' ∧
  (∀ id s, node t' id s = node t id s) ∧
  (∀ d v n, dn t' d v n = dn t d v n) ∧ (∀ s id, chg t' s id ↔ chg t s id) ∧
  (∀ id g, loadNode t' id g = loadNode t id g).
Proof.
  intros Hcur Hnd Hc Hwf t'. subst t'. revert t Hwf.
  induction Hc as [|x copies (d & n & Hd & ->) Hcs IH]; intros t Hwf; simpl; [by split_and!|].
  destruct (IH (t_put t UpLinks (be nd ++ be cur ++ be d ++ n) [])) as (A1&A2&A3&A4&A5&A6).
  { apply kv_wf_put; [done|]. simpl. eauto 10. }
  unfold copy_up in *. split_and!; [done| | | | |].
  - etrans; [|done]. by apply frozen_up.
  - intros id s. rewrite A3, node_put, decide_False by naive_solver. done.
  - intros. rewrite A4, dn_put, decide_False by naive_solver. done.
  - intros. rewrite A5, chg_put. naive_solver.
  - intros. by rewrite A6, loadNode_other.
Qed.

Lemma up_copy_up cur nd copies t c v d n :
  in64 cur → in64 nd → Forall (λ x, ∃ d n, in64 d ∧ x = be d ++ n) copies →
  in64 c → in64 v → in64 d →
  up (copy_up cur nd copies t) c v d n ↔ (c = nd ∧ v = cur ∧ be d ++ n ∈ copies) ∨ up t c v d n.
Proof.
  intros Hcur Hnd Hc ???. revert t.
  induction Hc as [|x copies (d1 & n1 & Hd1 & ->) Hcs IH]; intros t; simpl; [set_solver|].
  unfold copy_up in *. rewrite IH, up_put_link, elem_of_cons by done. split.
  - intros [?|[(->&->&->&->)|?]]; naive_solver.
  - intros [(->&->&[E|?])|?]; [|naive_solver..]. key_inj. naive_solver.
Qed.

Lemma set_dn_id r : set_dn (r_dn r) r = r.
Proof. by destruct r. Qed.
Lemma set_up_id r : set_up (r_up r) r = r.
Proof. by destruct r. Qed.

(** What a copy-on-write leaves: the record points at the current version,
    which holds the links the record pointed at before. *)
Record cow_dn (cur next dir : Z) r t t' : Prop := {
  cd_shape : shape cur next t';
  cd_frozen : frozen cur t t';
  cd_load id : in64 id →
    loadNode t' id cur = if decide (id = dir) then Some (set_dn cur r) else loadNode t id cur;
  cd_dn d v n : in64 d → in64 v →
    dn t' d v n = if decide (d = dir ∧ v = cur) then dn t dir (r_dn r) n else dn t d v n;
  cd_up c v d n : up t' c v d n ↔ up t c v d n
}.
Record cow_up (cur next nd : Z) r t t' : Prop := {
  cu_shape : shape cur next t';
  cu_frozen : frozen cur t t';
  cu_load id : in64 id →
    loadNode t' id cur = if decide (id = nd) then Some (set_up cur r) else loadNode t id cur;
  cu_dn d v n : dn t' d v n = dn t d v n;
  cu_up c v d n : in64 c → in64 v → in64 d →
    up t' c v d n ↔ up t c (if decide (c = nd ∧ v = cur) then r_up r else v) d n
}.

(** [shape] only reads the views. *)
Lemma shape_views cur next t t' :
  shape cur next t → kv_wf t' →
  (∀ id s, in64 id → in64 s → node t' id s = node t id s) →
  (∀ s id, in64 s → in64 id → chg t' s id ↔ chg t s id) →
  (∀ d v n c, in64 d → in64 v → dn t' d v n = Some c → ∃ r, node t d v = Some r ∧ r_dn r = v) →
  (∀ c v d n, in64 c → in64 v → in64 d → up t' c v d n → ∃ r, node t c v = Some r ∧ r_up r = v) →
  shape cur next t'.
Proof.
  intros Hsh Hwf Hn Hc Hd Hu. split; try apply Hsh; try done.
  - intros id s r ??. rewrite Hn by done. by apply Hsh.
  - intros id s s' r r' ???. rewrite !Hn by done. by apply Hsh.
  - intros d v n c ???. rewrite Hn by done. by eapply Hd.
  - intros c v d n ????. rewrite Hn by done. by eapply Hu.
  - intros s id ??. rewrite Hc, Hn by done. by apply Hsh.
Qed.

(** What the two copy-on-write steps have in common: on a copy [t1] with the
    records of [t], the loads are those of [t] with the new record. *)
Lemma loadNode_cow cur next t t1 nd r' id :
  shape cur next (storeNode t nd cur r') → in64 nd → in64 cur → rec_ok r' → kv_wf t1 →
  (∀ id s, in64 id → in64 s → node t1 id s = node t id s) → in64 id →
  loadNode (storeNode t1 nd cur r') id cur = loadNode (storeNode t nd cur r') id cur.
Proof.
  intros Hsh0 ??? W N Hid. apply loadNode_ext; try done; [apply Hsh0|by apply kv_wf_storeNode|].
  intros s ??. rewrite !node_storeNode by done. by rewrite N.
Qed.
(** The links once a table is copied to the current generation. *)
Lemma dn_copied cur next t dir r d v n c :
  shape cur next t → loadNode t dir cur = Some r → in64 (r_dn r) → r_dn r ≠ cur →
  Forall (λ e, in64 e.2) (scanDownlinks t dir (r_dn r)) → in64 d → in64 v →
  dn (copy_dn cur dir (scanDownlinks t dir (r_dn r)) t) d v n = Some c ↔
    (d = dir ∧ v = cur ∧ dn t dir (r_dn r) n = Some c) ∨ dn t d v n = Some c.
Proof.
  intros Hsh Hl Hdn E Hcp ??. pose proof (shape_in64_cur _ _ _ Hsh). pose proof (loadNode_in64 _ _ _ _ Hl).
  rewrite dn_copy_dn; try done.
  - rewrite elem_of_scanDownlinks; [done|apply Hsh|done..].
  - apply scanDownlinks_names.
  - intros n' _ _ _. by eapply no_stale_dn.
Qed.
Lemma up_copied cur next t nd r c v d n :
  shape cur next t → in64 nd → in64 (r_up r) →
  Forall (λ x, ∃ d n, in64 d ∧ x = be d ++ n) (upscan t nd (r_up r)) → in64 c → in64 v → in64 d →
  up (copy_up cur nd (upscan t nd (r_up r)) t) c v d n ↔ (c = nd ∧ v = cur ∧ up t nd (r_up r) d n) ∨ up t c v d n.
Proof.
  intros Hsh Hnd Hup Hcp ???. pose proof (shape_in64_cur _ _ _ Hsh).
  rewrite up_copy_up by done. do 3 f_equiv. rewrite elem_of_upscan; [|apply Hsh|done..]. split; [|eauto 6].
  intros (d' & n' & ? & Heq & ?). key_inj. done.
Qed.
Lemma ensureWritableDnLinks_spec cur next t dir r :
  shape cur next t → loadNode t dir cur = Some r →
  ∃ t', ensureWritableDnLinks cur t dir = (t', cur) ∧ cow_dn cur next dir r t t'.
Proof.
  intros Hsh Hl. pose proof (shape_in64_cur _ _ _ Hsh) as Hcur.
  pose proof (loadNode_in64 _ _ _ _ Hl) as Hdir.
  pose proof (load_node _ _ _ _ _ _ Hsh Hcur Hl) as (s0 & ? & ? & _ & Hr & Hb).
  unfold ensureWritableDnLinks. rewrite Hl. simpl. destruct (Z.eqb_spec (r_dn r) cur) as [E|E].
  { exists t. split; [done|]. split; try done.
    - intros id ?. case_decide; [|done]. subst. by rewrite set_dn_id.
    - intros. case_decide; [|done]. destruct_and!. by subst. }
  fold (copy_dn cur dir (scanDownlinks t dir (r_dn r)) t).
  set (copies := scanDownlinks t dir (r_dn r)). set (t1 := copy_dn cur dir copies t).
  assert (in64 (r_dn r)) as Hdn by word_lia.
  assert (Forall (λ e, in64 e.2) copies) as Hcp.
  { apply Forall_forall. intros [n c] Hin%elem_of_scanDownlinks; [|apply Hsh|done..].
    by eapply dn_range. }
  destruct (copy_dn_spec cur dir copies t Hcur Hdir Hcp (sh_wf _ _ _ Hsh)) as (W & F & N & U & C & L).
  fold t1 in W, F, N, U, C, L.
  assert (rec_ok (set_dn cur r)) as Hr' by eauto with prfs.
  assert (∀ d v n c, in64 d → in64 v → dn t1 d v n = Some c ↔
    (d = dir ∧ v = cur ∧ dn t dir (r_dn r) n = Some c) ∨ dn t d v n = Some c) as D.
  { intros. by eapply dn_copied. }
  assert (shape cur next (storeNode t dir cur (set_dn cur r))) as Hsh0.
  { eapply shape_storeNode; try done; destruct r; simpl in *; auto. }
  eexists. split; [done|]. split.
  - apply shape_views with (storeNode t dir cur (set_dn cur r)); [done| | | | |].
    + by apply kv_wf_storeNode.
    + intros. rewrite !node_storeNode by done. by rewrite N.
    + intros. rewrite !chg_storeNode by done. by rewrite C.
    + intros d v n c ??. rewrite dn_storeNode, D by done. intros [(-> & -> & _)|Hd].
      * exists (set_dn cur r). rewrite node_storeNode, decide_True by done. by destruct r.
      * apply (sh_dn _ _ _ Hsh0 d v n c); [done..|]. by rewrite dn_storeNode.
    + intros c v d n ???. rewrite up_storeNode, U. intros Hu.
      apply (sh_up _ _ _ Hsh0 c v d n); [done..|]. by rewrite up_storeNode.
  - etrans; [exact F|]. by apply frozen_storeNode.
  - intros id ?. rewrite (loadNode_cow cur next t) by done. by rewrite (loadNode_storeNode _ next).
  - intros d v n ??. rewrite dn_storeNode. apply option_eq. intros c. rewrite D by done.
    case_decide as E'; [|naive_solver]. destruct E' as [-> ->].
    rewrite (no_stale_dn _ _ _ _ _ n Hsh Hl E). naive_solver.
  - intros. by rewrite up_storeNode, U.
Qed.

Lemma ensureWritableUpLinks_spec cur next t nd r :
  shape cur next t → loadNode t nd cur = Some r →
  ∃ t', ensureWritableUpLinks cur t nd = (t', cur) ∧ cow_up cur next nd r t t'.
Proof.
  intros Hsh Hl. pose proof (shape_in64_cur _ _ _ Hsh) as Hcur.
  pose proof (loadNode_in64 _ _ _ _ Hl) as Hnd.
  pose proof (load_node _ _ _ _ _ _ Hsh Hcur Hl) as (s0 & ? & ? & _ & Hr & Hb).
  unfold ensureWritableUpLinks. rewrite Hl. simpl. destruct (Z.eqb_spec (r_up r) cur) as [E|E].
  { exists t. split; [done|]. split; try done.
    - intros id ?. case_decide; [|done]. subst. by rewrite set_up_id.
    - intros. case_decide; [|done]. destruct_and!. by subst. }
  change (scan (UpLinks_ t) (be nd ++ be (r_up r))).*1 with (upscan t nd (r_up r)).
  fold (copy_up cur nd (upscan t nd (r_up r)) t).
  set (copies := upscan t nd (r_up r)). set (t1 := copy_up cur nd copies t).
  assert (in64 (r_up r)) as Hup by word_lia.
  assert (Forall (λ x, ∃ d n, in64 d ∧ x = be d ++ n) copies) as Hcp.
  { apply Forall_forall. intros x Hx. apply elem_of_upscan in Hx; [|apply Hsh|done..].
    destruct Hx as (d & n & ? & -> & _). eauto. }
  destruct (copy_up_spec cur nd copies t Hcur Hnd Hcp (sh_wf _ _ _ Hsh)) as (W & F & N & D & C & L).
  fold t1 in W, F, N, D, C, L.
  assert (rec_ok (set_up cur r)) as Hr' by eauto with prfs.
  assert (∀ c v d n, in64 c → in64 v → in64 d → up t1 c v d n ↔
    (c = nd ∧ v = cur ∧ up t nd (r_up r) d n) ∨ up t c v d n) as U.
  { intros. by eapply up_copied. }
  assert (shape cur next (storeNode t nd cur (set_up cur r))) as Hsh0.
  { eapply shape_storeNode; try done; destruct r; simpl in *; auto. }
  eexists. split; [done|]. split.
  - apply shape_views with (storeNode t nd cur (set_up cur r)); [done| | | | |].
    + by apply kv_wf_storeNode.
    + intros. rewrite !node_storeNode by done. by rewrite N.
    + intros. rewrite !chg_storeNode by done. by rewrite C.
    + intros d v n c ??. rewrite dn_storeNode, D. intros Hd.
      apply (sh_dn _ _ _ Hsh0 d v n c); [done..|]. by rewrite dn_storeNode.
    + intros c v d n ???. rewrite up_storeNode, U by done. intros [(-> & -> & _)|Hu].
      * exists (set_up cur r). rewrite node_storeNode, decide_True by done. by destruct r.
      * apply (sh_up _ _ _ Hsh0 c v d n); [done..|]. by rewrite up_storeNode.
  - etrans; [exact F|]. by apply frozen_storeNode.
  - intros id ?. rewrite (loadNode_cow cur next t) by done. by rewrite (loadNode_storeNode _ next).
  - intros. by rewrite dn_storeNode, D.
  - intros c v d n ???. rewrite up_storeNode, U by done. case_decide as E'; [|naive_solver].
    destruct E' as [-> ->]. pose proof (no_stale_up _ _ _ _ _ d n Hsh Hl ltac:(done) E). naive_solver.
Qed.
End Shape.
