(* ===== verification/Graph.v ===== *)
(** * Graph: what the sub-stores say about one snapshot

    The abstraction function ([view]) from the versioned sub-stores to the
    abstract tree of Spec.v, the agreement of the up-links with the entries
    ([backlinks]), that both are fixed for every earlier snapshot once frozen,
    the depth-first search [reachable] is exactly reachability along directory
    entries, and its fuel is enough. *)
From S2P Require Import Prelude Dfs Keys Kv NodeRec Spec Store Views Shape.
Local Open Scope Z_scope.
Set Warnings "-clear-no-such-hyp".

Section Graph.
Context {M : Type} `{!KvEngine M}.
Implicit Types (t : KvData M) (id s g d v c : Z) (n : bytes) (r : NodeRec).

(** The entry [n] of directory [d] at snapshot [g]. *)
Definition ent t g d n : option Z :=
  match loadNode t d g with Some r => dn t d (r_dn r) n | None => None end.
(** [d] holds [c] under the name [n], according to [c]'s up-links. *)
Definition par t g c d n : Prop :=
  match loadNode t c g with Some r => up t c (r_up r) d n | None => False end.

(** The abstraction of one snapshot. *)
Definition view t g : View := mkView (λ id, attrs <$> loadNode t id g) (ent t g).
Definition backlinks t g : Prop :=
  ∀ c d n, in64 c → in64 d → par t g c d n ↔ ent t g d n = Some c.

Lemma r_type_attrs r : r_type (attrs r) = r_type r.
Proof. by destruct r. Qed.
Lemma r_nlink_attrs r : r_nlink (attrs r) = r_nlink r.
Proof. by destruct r. Qed.

Lemma view_is_dir t g id :
  is_dir (view t g) id ↔ ∃ r, loadNode t id g = Some r ∧ r_type r = tcode DIR.
Proof.
  unfold is_dir. simpl. setoid_rewrite fmap_Some. split.
  - intros (r & (r' & ? & ->) & Hty). rewrite r_type_attrs in Hty. eauto.
  - intros (r & ? & Hty). exists (attrs r). rewrite r_type_attrs. eauto.
Qed.
Lemma view_attr_None t g id : v_attr (view t g) id = None ↔ loadNode t id g = None.
Proof. apply fmap_None. Qed.

Lemma ent_load t g d n c : ent t g d n = Some c → is_Some (loadNode t d g).
Proof. unfold ent. destruct (loadNode t d g); [eauto|done]. Qed.
Lemma par_load t g c d n : par t g c d n → is_Some (loadNode t c g).
Proof. unfold par. destruct (loadNode t c g); [eauto|done]. Qed.

(** An earlier snapshot keeps its view and its back-links. *)
Lemma frozen_ent cur next t t' g d n :
  shape cur next t → kv_wf t' → frozen cur t t' → in64 g → g < cur → in64 d →
  ent t' g d n = ent t g d n.
Proof.
  intros Hsh Hwf Hf Hg Hlt Hd. unfold ent.
  rewrite (frozen_loadNode cur next t t') by done. destruct (loadNode t d g) as [r|] eqn:Hl; [|done].
  destruct (load_node _ _ _ _ _ _ Hsh Hg Hl) as (s & ? & ? & _ & _ & ?).
  apply (Hf (r_dn r)); [word_lia|lia|done].
Qed.
Lemma frozen_par cur next t t' g c d n :
  shape cur next t → kv_wf t' → frozen cur t t' → in64 g → g < cur → in64 c → in64 d →
  par t' g c d n ↔ par t g c d n.
Proof.
  intros Hsh Hwf Hf Hg Hlt Hc Hd. unfold par.
  rewrite (frozen_loadNode cur next t t') by done. destruct (loadNode t c g) as [r|] eqn:Hl; [|done].
  destruct (load_node _ _ _ _ _ _ Hsh Hg Hl) as (s & ? & ? & _ & _ & ?).
  apply (Hf (r_up r)); [word_lia|lia|done..].
Qed.
Lemma frozen_view cur next t t' g :
  shape cur next t → kv_wf t' → frozen cur t t' → in64 g → g < cur → view t' g ≡ view t g.
Proof.
  intros Hsh Hwf Hf Hg Hlt id Hid. simpl. split.
  - by rewrite (frozen_loadNode cur next t t').
  - intros n. by eapply frozen_ent.
Qed.
Lemma frozen_backlinks cur next t t' g :
  shape cur next t → kv_wf t' → frozen cur t t' → in64 g → g < cur →
  backlinks t g → backlinks t' g.
Proof.
  intros Hsh Hwf Hf Hg Hlt Hb c d n Hc Hd.
  rewrite (frozen_par cur next t t'), (frozen_ent cur next t t') by done. by apply Hb.
Qed.

(** ** [reachable] *)

Lemma elem_of_dir_children cur next t (n c : Z) :
  shape cur next t →
  c ∈ dir_children cur t n ↔
    is_dir (view t cur) n ∧ is_dir (view t cur) c ∧ ∃ nm, ent t cur n nm = Some c.
Proof.
  intros Hsh. pose proof (shape_in64_cur _ _ _ Hsh) as Hcur. rewrite !view_is_dir. unfold dir_children, ent.
  destruct (loadNode t n cur) as [r|] eqn:Hl; [|set_solver].
  pose proof (loadNode_in64 _ _ _ _ Hl).
  destruct (load_node _ _ _ _ _ _ Hsh Hcur Hl) as (s & ? & ? & _ & _ & ?).
  destruct (Z.eqb_spec (r_type r) (tcode DIR)) as [E|E]; [|set_solver].
  rewrite list_elem_of_filter, list_elem_of_fmap.
  assert ((∃ y, c = y.2 ∧ y ∈ scanDownlinks t n (r_dn r)) ↔ ∃ nm, dn t n (r_dn r) nm = Some c) as ->.
  { split.
    - intros ([nm c'] & -> & Hin). exists nm. rewrite <- elem_of_scanDownlinks; [done|apply Hsh|word_lia..].
    - intros [nm Hin]. exists (nm, c). split; [done|]. apply elem_of_scanDownlinks; [apply Hsh|word_lia..|done]. }
  destruct (loadNode t c cur) as [cr|]; [rewrite Z.eqb_eq|]; naive_solver.
Qed.

(** The keys of the down-links a newly seen directory accounts for. *)
Definition link_keys cur t (n : Z) : list bytes :=
  match loadNode t n cur with
  | Some r => (λ e, be n ++ be (r_dn r) ++ e.1) <$> scanDownlinks t n (r_dn r)
  | None => []
  end.

Lemma link_keys_spec cur next t (n : Z) :
  shape cur next t →
  NoDup (link_keys cur t n) ∧ (length (dir_children cur t n) <= length (link_keys cur t n))%nat ∧
  ∀ k, k ∈ link_keys cur t n → is_Some (kv_view (DownLinks_ t) !! k) ∧ in64 n ∧ ∃ x, k = be n ++ x.
Proof.
  intros Hsh. pose proof (shape_in64_cur _ _ _ Hsh) as Hcur. unfold link_keys, dir_children.
  destruct (loadNode t n cur) as [r|] eqn:Hl; [|split_and!; [constructor|done|set_solver]].
  pose proof (loadNode_in64 _ _ _ _ Hl).
  destruct (load_node _ _ _ _ _ _ Hsh Hcur Hl) as (s & ? & ? & _ & _ & ?).
  split_and!.
  - pose proof (scanDownlinks_names t n (r_dn r)) as Hnd.
    assert (Inj (=) (=) (λ nm : bytes, be n ++ be (r_dn r) ++ nm)) by (intros x y E; by simplify_list_eq).
    apply (NoDup_fmap_2 (λ nm : bytes, be n ++ be (r_dn r) ++ nm)) in Hnd.
    by rewrite <- list_fmap_compose in Hnd.
  - case_match; [|simpl; lia]. rewrite length_filter, !length_fmap. lia.
  - intros k ([nm c] & -> & Hin)%list_elem_of_fmap.
    apply elem_of_scanDownlinks in Hin; [|apply Hsh|word_lia..].
    unfold dn in Hin. apply fmap_Some in Hin as (w & Hw & _). simpl. split_and!; eauto.
Qed.

(** The fuel is enough: every down-link is pushed at most once. *)
Lemma reachable_total cur next t from to :
  shape cur next t → is_Some (reachable_loop (reachable_fuel t) cur t to [from] ∅).
Proof.
  intros Hsh. unfold reachable_loop.
  apply (dfs_total _ (map_to_list (kv_view (DownLinks_ t))).*1 rdbe).
  - intros n. destruct (link_keys_spec cur next t n Hsh) as (Hnd & Hlen & Hk). etrans; [exact Hlen|].
    apply NoDup_length_incl; [done|]. intros k (Hin & Hn & x & ->)%Hk. apply list_elem_of_filter.
    rewrite rdbe_be by done. split; [done|]. by apply elem_of_kv_keys.
  - rewrite length_fmap, length_map_to_list. unfold reachable_fuel. simpl sub. lia.
Qed.

Lemma dir_children_edge cur next t x y : shape cur next t → y ∈ dir_children cur t x → edge (view t cur) x y.
Proof.
  intros Hsh. rewrite elem_of_dir_children, !view_is_dir by done. intros ((r & Hl & _) & _ & nm & He).
  split; [by eapply loadNode_in64|eauto].
Qed.

Lemma reachable_spec cur next t from to :
  shape cur next t → graph (view t cur) → is_dir (view t cur) to →
  reachable cur t from to = true ↔ rtc (edge (view t cur)) from to.
Proof.
  intros Hsh G Hto. unfold reachable.
  destruct (reachable_total cur next t from to Hsh) as [b Hb]. rewrite Hb. simpl.
  unfold reachable_loop in Hb.
  rewrite (dfs_correct _ _ _ _ _ Hb). clear Hb b. split; intros Hr.
  - apply rtc_subrel with (2 := Hr). intros x y. by apply (dir_children_edge _ next).
  - induction Hr as [x|x y z Hxy Hyz IH]; [done|].
    apply rtc_l with y; [|by apply IH].
    apply (elem_of_dir_children _ next); [done|].
    destruct Hxy as (Hx & nm & He). destruct (gr_ent _ G _ _ _ Hx He) as (_ & ? & _).
    split_and!; [done| |by exists nm]. destruct Hyz as [|y y' z (Hy & nm' & He') _]; [done|].
    by destruct (gr_ent _ G _ _ _ Hy He') as (_ & ? & _).
Qed.
End Graph.
