(* ===== verification/Links.v ===== *)
(** * Links: link, unlink and move refine the abstract operations

    Each write of [linkT] and [unlinkT] changes the abstract view in one way:
    copy-on-write not at all, a link write one entry or one back-link, a
    record write one node's attributes. Composed, the transactions produce
    exactly an outcome of [link_res], [unlink_res] and [move_res], keep the
    version invariant, leave every earlier snapshot untouched, and write
    nothing at all when they fail. *)
From S2P Require Import Prelude Keys Kv NodeRec Spec Store Views Shape Graph.
Local Open Scope Z_scope.
Set Warnings "-clear-no-such-hyp".

Section Links.
Context {M : Type} `{!KvEngine M}.
Implicit Types (t : KvData M) (id s g d v c : Z) (n : bytes) (r : NodeRec).

Lemma view_ent_eq t g (w : View) d n : view t g ≡ w → in64 d → ent t g d n = v_ent w d n.
Proof. intros V Hd. apply (proj2 (V d Hd) n). Qed.

(** The back-links at the current version, compared. *)
Definition same_par (cur : Z) t t' : Prop :=
  ∀ c d n, in64 c → in64 d → par t' cur c d n ↔ par t cur c d n.

Lemma attrs_set_dn x r : attrs (set_dn x r) = attrs r.
Proof. by destruct r. Qed.
Lemma attrs_set_up x r : attrs (set_up x r) = attrs r.
Proof. by destruct r. Qed.
Lemma attrs_inc r : attrs (inc_nlink r) = inc_nlink (attrs r).
Proof. by destruct r. Qed.
Lemma attrs_dec r : attrs (dec_nlink r) = dec_nlink (attrs r).
Proof. unfold dec_nlink. rewrite r_nlink_attrs. case_match; by destruct r. Qed.

(** ** One write at a time *)

Lemma cow_dn_view cur next dir r t t' :
  shape cur next t → loadNode t dir cur = Some r → cow_dn cur next dir r t t' →
  view t' cur ≡ view t cur ∧ same_par cur t t'.
Proof.
  intros Hsh Hl Hc. pose proof (shape_in64_cur _ _ _ Hsh) as Hcur. split.
  - intros id Hid. simpl. unfold ent. rewrite (cd_load _ _ _ _ _ _ Hc) by done. case_decide as E.
    + subst. rewrite Hl. simpl. rewrite attrs_set_dn. split; [done|]. intros n.
      replace (r_dn (set_dn cur r)) with cur by by destruct r.
      rewrite (cd_dn _ _ _ _ _ _ Hc) by done. by rewrite decide_True.
    + split; [done|]. intros n. destruct (loadNode t id cur) as [r'|] eqn:Hl'; [|done].
      destruct (load_node _ _ _ _ _ _ Hsh Hcur Hl') as (s & ? & ? & _ & _ & ?).
      rewrite (cd_dn _ _ _ _ _ _ Hc) by word_lia. by rewrite decide_False by naive_solver.
  - intros c d n ??. unfold par. rewrite (cd_load _ _ _ _ _ _ Hc) by done. case_decide as E.
    + subst. rewrite Hl. rewrite (cd_up _ _ _ _ _ _ Hc). by destruct r.
    + destruct (loadNode t c cur); [|done]. by rewrite (cd_up _ _ _ _ _ _ Hc).
Qed.

Lemma cow_up_view cur next nd r t t' :
  shape cur next t → loadNode t nd cur = Some r → cow_up cur next nd r t t' →
  view t' cur ≡ view t cur ∧ same_par cur t t'.
Proof.
  intros Hsh Hl Hc. pose proof (shape_in64_cur _ _ _ Hsh) as Hcur. split.
  - intros id Hid. simpl. unfold ent. rewrite (cu_load _ _ _ _ _ _ Hc) by done. case_decide as E.
    + subst. rewrite Hl. simpl. rewrite attrs_set_up. split; [done|]. intros n.
      rewrite (cu_dn _ _ _ _ _ _ Hc). by destruct r.
    + split; [done|]. intros n. destruct (loadNode t id cur); [|done].
      by rewrite (cu_dn _ _ _ _ _ _ Hc).
  - intros c d n ??. unfold par. rewrite (cu_load _ _ _ _ _ _ Hc) by done. case_decide as E.
    + subst. rewrite Hl. replace (r_up (set_up cur r)) with cur by by destruct r.
      rewrite (cu_up _ _ _ _ _ _ Hc) by done. by rewrite decide_True.
    + destruct (loadNode t c cur) as [r'|] eqn:Hl'; [|done].
      destruct (load_node _ _ _ _ _ _ Hsh Hcur Hl') as (s & ? & ? & _ & _ & ?).
      rewrite (cu_up _ _ _ _ _ _ Hc) by word_lia. by rewrite decide_False by naive_solver.
Qed.

Lemma put_dn_view cur next t d r n c :
  shape cur next t → loadNode t d cur = Some r → r_dn r = cur → in64 c →
  let t' := t_put t DownLinks (be d ++ be cur ++ n) (be c) in
  view t' cur ≡ v_set_ent d n (Some c) (view t cur) ∧ same_par cur t t'.
Proof.
  intros Hsh Hl Hdn Hc t'. pose proof (shape_in64_cur _ _ _ Hsh) as Hcur.
  pose proof (loadNode_in64 _ _ _ _ Hl) as Hd. split.
  - intros id Hid. unfold t'. simpl. unfold ent. rewrite loadNode_other by done. split; [done|]. intros m.
    destruct (loadNode t id cur) as [r'|] eqn:Hl'; [|rewrite decide_False by naive_solver; done].
    destruct (load_node _ _ _ _ _ _ Hsh Hcur Hl') as (s & ? & ? & _ & _ & ?).
    rewrite dn_put_link by word_lia. case_decide; case_decide; naive_solver.
  - intros c' d' m ??. unfold par, t'. rewrite loadNode_other by done.
    destruct (loadNode t c' cur); [|done]. rewrite up_put. naive_solver.
Qed.

Lemma del_dn_view cur next t d r n :
  shape cur next t → loadNode t d cur = Some r → r_dn r = cur →
  let t' := t_del t DownLinks (be d ++ be cur ++ n) in
  view t' cur ≡ v_set_ent d n None (view t cur) ∧ same_par cur t t'.
Proof.
  intros Hsh Hl Hdn t'. pose proof (shape_in64_cur _ _ _ Hsh) as Hcur.
  pose proof (loadNode_in64 _ _ _ _ Hl) as Hd. split.
  - intros id Hid. unfold t'. simpl. unfold ent. rewrite loadNode_other_del by done. split; [done|]. intros m.
    destruct (loadNode t id cur) as [r'|] eqn:Hl'; [|by case_decide].
    destruct (load_node _ _ _ _ _ _ Hsh Hcur Hl') as (s & ? & ? & _ & _ & ?).
    rewrite dn_del_link by word_lia. case_decide; case_decide; naive_solver.
  - intros c' d' m ??. unfold par, t'. rewrite loadNode_other_del by done.
    destruct (loadNode t c' cur); [|done]. rewrite up_del. naive_solver.
Qed.

Lemma put_up_view cur next t c r d n w :
  shape cur next t → loadNode t c cur = Some r → r_up r = cur → in64 d →
  let t' := t_put t UpLinks (be c ++ be cur ++ be d ++ n) w in
  view t' cur ≡ view t cur ∧
  ∀ c' d' n', in64 c' → in64 d' →
    par t' cur c' d' n' ↔ (c' = c ∧ d' = d ∧ n' = n) ∨ par t cur c' d' n'.
Proof.
  intros Hsh Hl Hup Hd t'. pose proof (shape_in64_cur _ _ _ Hsh) as Hcur.
  pose proof (loadNode_in64 _ _ _ _ Hl) as Hc. split.
  - intros id Hid. unfold t'. simpl. unfold ent. rewrite loadNode_other by done. split; [done|]. intros m.
    destruct (loadNode t id cur) as [r'|] eqn:Hl'; [|done].
    by rewrite dn_put, decide_False by naive_solver.
  - intros c' d' n' ??. unfold par, t'. rewrite loadNode_other by done.
    destruct (loadNode t c' cur) as [r'|] eqn:Hl'; [|naive_solver].
    destruct (load_node _ _ _ _ _ _ Hsh Hcur Hl') as (s & ? & ? & _ & _ & ?).
    rewrite up_put_link by word_lia. naive_solver.
Qed.

Lemma del_up_view cur next t c r d n :
  shape cur next t → loadNode t c cur = Some r → r_up r = cur → in64 d →
  let t' := t_del t UpLinks (be c ++ be cur ++ be d ++ n) in
  view t' cur ≡ view t cur ∧
  ∀ c' d' n', in64 c' → in64 d' →
    par t' cur c' d' n' ↔ ¬ (c' = c ∧ d' = d ∧ n' = n) ∧ par t cur c' d' n'.
Proof.
  intros Hsh Hl Hup Hd t'. pose proof (shape_in64_cur _ _ _ Hsh) as Hcur.
  pose proof (loadNode_in64 _ _ _ _ Hl) as Hc. split.
  - intros id Hid. unfold t'. simpl. unfold ent. rewrite loadNode_other_del by done. split; [done|]. intros m.
    destruct (loadNode t id cur) as [r'|] eqn:Hl'; [|done].
    by rewrite dn_del, decide_False by naive_solver.
  - intros c' d' n' ??. unfold par, t'. rewrite loadNode_other_del by done.
    destruct (loadNode t c' cur) as [r'|] eqn:Hl'; [|naive_solver].
    destruct (load_node _ _ _ _ _ _ Hsh Hcur Hl') as (s & ? & ? & _ & _ & ?).
    rewrite up_del_link by word_lia. naive_solver.
Qed.

Lemma storeNode_view cur next t id r r' :
  shape cur next t → loadNode t id cur = Some r → rec_ok r' → r_dn r' = r_dn r → r_up r' = r_up r →
  let t' := storeNode t id cur r' in
  view t' cur ≡ v_update (λ _, attrs r') id (view t cur) ∧ same_par cur t t'.
Proof.
  intros Hsh Hl Hr' Hdn Hup t'. pose proof (loadNode_in64 _ _ _ _ Hl) as Hid. split.
  - intros x Hx. unfold t'. simpl. unfold ent. rewrite (loadNode_storeNode _ next) by done. split.
    + case_decide; [|done]. subst. by rewrite Hl.
    + intros m. case_decide; [subst; rewrite Hl|destruct (loadNode t x cur); [|done]];
        by rewrite dn_storeNode, ?Hdn.
  - intros c d n ??. unfold par, t'. rewrite (loadNode_storeNode _ next) by done.
    case_decide; [subst; rewrite Hl|destruct (loadNode t c cur); [|done]];
      by rewrite up_storeNode, ?Hup.
Qed.

(** A record rewritten by a function of its attributes. *)
Lemma storeNode_update cur next t id r f :
  shape cur next t → loadNode t id cur = Some r → rec_ok (f r) →
  r_dn (f r) = r_dn r → r_up (f r) = r_up r → attrs (f r) = f (attrs r) →
  view (storeNode t id cur (f r)) cur ≡ v_update f id (view t cur).
Proof.
  intros Hsh Hl Hok Hdn Hup Hf.
  destruct (storeNode_view cur next t id r (f r)) as [-> _]; [done..|].
  intros x Hx. simpl. split; [|done]. case_decide; [|done]. subst. rewrite Hl. simpl. by rewrite Hf.
Qed.

(** ** The link bodies *)

Lemma same_par_trans cur t1 t2 t3 : same_par cur t1 t2 → same_par cur t2 t3 → same_par cur t1 t3.
Proof. intros H1 H2 c d n ??. by rewrite (H2 c d n), (H1 c d n). Qed.

(** Both ends of a link made writable. *)
Lemma cow_both cur next t d c dr cr :
  shape cur next t → loadNode t d cur = Some dr → loadNode t c cur = Some cr → d ≠ c →
  ∃ t1 t2, ensureWritableDnLinks cur t d = (t1, cur) ∧ ensureWritableUpLinks cur t1 c = (t2, cur) ∧
    shape cur next t2 ∧ frozen cur t t2 ∧
    loadNode t2 d cur = Some (set_dn cur dr) ∧ loadNode t2 c cur = Some (set_up cur cr) ∧
    view t2 cur ≡ view t cur ∧ same_par cur t t2.
Proof.
  intros Hsh Hd Hc Hne. pose proof (loadNode_in64 _ _ _ _ Hd). pose proof (loadNode_in64 _ _ _ _ Hc).
  destruct (ensureWritableDnLinks_spec _ _ _ _ _ Hsh Hd) as (t1 & E1 & C1).
  assert (loadNode t1 c cur = Some cr) as Hc1.
  { rewrite (cd_load _ _ _ _ _ _ C1) by done. by rewrite decide_False. }
  destruct (ensureWritableUpLinks_spec _ _ _ _ _ (cd_shape _ _ _ _ _ _ C1) Hc1) as (t2 & E2 & C2).
  destruct (cow_dn_view _ _ _ _ _ _ Hsh Hd C1) as [V1 P1].
  destruct (cow_up_view _ _ _ _ _ _ (cd_shape _ _ _ _ _ _ C1) Hc1 C2) as [V2 P2].
  exists t1, t2. split_and!; try done.
  - apply C2.
  - etrans; [apply C1|apply C2].
  - rewrite (cu_load _ _ _ _ _ _ C2), decide_False by done.
    rewrite (cd_load _ _ _ _ _ _ C1) by done. by rewrite decide_True.
  - rewrite (cu_load _ _ _ _ _ _ C2) by done. by rewrite decide_True.
  - by rewrite V2.
  - by eapply same_par_trans.
Qed.

Definition link_body (cur : Z) t dir (name : bytes) child (cr : NodeRec) : KvData M :=
  let '(t1, dv) := ensureWritableDnLinks cur t dir in
  let '(t2, uv) := ensureWritableUpLinks cur t1 child in
  let t3 := t_put t2 DownLinks (be dir ++ be dv ++ name) (be child) in
  let t4 := t_put t3 UpLinks (be child ++ be uv ++ be dir ++ name) [] in
  storeNode t4 child cur (inc_nlink (default cr (loadNode t4 child cur))).

Lemma link_body_spec cur next t d n c dr cr :
  shape cur next t → loadNode t d cur = Some dr → loadNode t c cur = Some cr → d ≠ c →
  let t' := link_body cur t d n c cr in
  shape cur next t' ∧ frozen cur t t' ∧ view t' cur ≡ v_link d n c (view t cur) ∧
  ∀ c' d' n', in64 c' → in64 d' →
    par t' cur c' d' n' ↔ (c' = c ∧ d' = d ∧ n' = n) ∨ par t cur c' d' n'.
Proof.
  intros Hsh Hd Hc Hne. pose proof (loadNode_in64 _ _ _ _ Hd). pose proof (loadNode_in64 _ _ _ _ Hc).
  pose proof (shape_in64_cur _ _ _ Hsh) as Hcur.
  destruct (cow_both _ _ _ _ _ _ _ Hsh Hd Hc Hne) as (t1 & t2 & E1 & E2 & S2 & F2 & Hd2 & Hc2 & V2 & P2).
  unfold link_body. rewrite E1, E2.
  set (t3 := t_put t2 DownLinks (be d ++ be cur ++ n) (be c)).
  set (t4 := t_put t3 UpLinks (be c ++ be cur ++ be d ++ n) []).
  assert (r_dn (set_dn cur dr) = cur) as Hdn by by destruct dr.
  assert (r_up (set_up cur cr) = cur) as Hup by by destruct cr.
  assert (shape cur next t3) as S3 by by eapply shape_put_dn.
  assert (loadNode t3 c cur = Some (set_up cur cr)) as Hc3 by by unfold t3; rewrite loadNode_other.
  assert (shape cur next t4) as S4 by by eapply shape_put_up.
  assert (loadNode t4 c cur = Some (set_up cur cr)) as Hc4 by by unfold t4; rewrite loadNode_other.
  rewrite Hc4. cbn [default from_option id].
  destruct (load_node _ _ _ _ _ _ S4 Hcur Hc4) as (_ & _ & _ & _ & Hok & _).
  assert (rec_ok (inc_nlink (set_up cur cr))) as Hok' by (apply rec_ok_set_nlink; [done|apply u32_range]).
  destruct (put_dn_view _ _ _ _ _ n c S2 Hd2 Hdn ltac:(done)) as [V3 P3]. fold t3 in V3, P3.
  destruct (put_up_view _ _ _ _ _ d n [] S3 Hc3 Hup ltac:(done)) as [V4 P4]. fold t4 in V4, P4.
  destruct (storeNode_view _ _ _ _ _ _ S4 Hc4 Hok') as [_ P5]; [by destruct cr..|].
  cbv zeta. split_and!.
  - eapply shape_storeNode; try done; destruct cr; simpl; auto.
  - transitivity t2; [done|]. transitivity t3; [by apply frozen_dn|].
    transitivity t4; [by apply frozen_up|]. by apply frozen_storeNode.
  - rewrite (storeNode_update _ _ _ _ _ inc_nlink S4 Hc4) by (try done; by destruct cr).
    unfold v_link. by rewrite V4, V3, V2.
  - intros c' d' n' ??. by rewrite (P5 c' d' n'), P4, (P3 c' d' n'), (P2 c' d' n') by done.
Qed.

Definition unlink_body (cur : Z) t dir (name : bytes) cid : KvData M :=
  let '(t1, dv) := ensureWritableDnLinks cur t dir in
  let '(t2, uv) := ensureWritableUpLinks cur t1 cid in
  let t3 := t_del t2 DownLinks (be dir ++ be dv ++ name) in
  let t4 := t_del t3 UpLinks (be cid ++ be uv ++ be dir ++ name) in
  storeNode t4 cid cur (dec_nlink (default NodeRec0 (loadNode t4 cid cur))).

Lemma rec_ok_dec r : rec_ok r → rec_ok (dec_nlink r).
Proof.
  intros Hr. unfold dec_nlink. case_match; [done|]. apply rec_ok_set_nlink; [done|].
  destruct Hr as ((_&_&_&_&?&_)&_). rewrite Z.eqb_neq in *. word_lia.
Qed.

Lemma unlink_body_spec cur next t d n c dr cr :
  shape cur next t → loadNode t d cur = Some dr → loadNode t c cur = Some cr → d ≠ c →
  let t' := unlink_body cur t d n c in
  shape cur next t' ∧ frozen cur t t' ∧ view t' cur ≡ v_unlink d n c (view t cur) ∧
  ∀ c' d' n', in64 c' → in64 d' →
    par t' cur c' d' n' ↔ ¬ (c' = c ∧ d' = d ∧ n' = n) ∧ par t cur c' d' n'.
Proof.
  intros Hsh Hd Hc Hne. pose proof (loadNode_in64 _ _ _ _ Hd). pose proof (loadNode_in64 _ _ _ _ Hc).
  pose proof (shape_in64_cur _ _ _ Hsh) as Hcur.
  destruct (cow_both _ _ _ _ _ _ _ Hsh Hd Hc Hne) as (t1 & t2 & E1 & E2 & S2 & F2 & Hd2 & Hc2 & V2 & P2).
  unfold unlink_body. rewrite E1, E2.
  set (t3 := t_del t2 DownLinks (be d ++ be cur ++ n)).
  set (t4 := t_del t3 UpLinks (be c ++ be cur ++ be d ++ n)).
  assert (r_dn (set_dn cur dr) = cur) as Hdn by by destruct dr.
  assert (r_up (set_up cur cr) = cur) as Hup by by destruct cr.
  assert (shape cur next t3) as S3 by by apply shape_del_dn.
  assert (loadNode t3 c cur = Some (set_up cur cr)) as Hc3 by by unfold t3; rewrite loadNode_other_del.
  assert (shape cur next t4) as S4 by by apply shape_del_up.
  assert (loadNode t4 c cur = Some (set_up cur cr)) as Hc4 by by unfold t4; rewrite loadNode_other_del.
  rewrite Hc4. cbn [default from_option id].
  destruct (load_node _ _ _ _ _ _ S4 Hcur Hc4) as (_ & _ & _ & _ & Hok & _).
  pose proof (rec_ok_dec _ Hok) as Hok'.
  assert (r_type (dec_nlink (set_up cur cr)) = r_type (set_up cur cr) ∧
    r_dn (dec_nlink (set_up cur cr)) = r_dn (set_up cur cr) ∧
    r_up (dec_nlink (set_up cur cr)) = r_up (set_up cur cr)) as (Ety & Edn & Eup)
    by (unfold dec_nlink; case_match; by destruct cr).
  destruct (del_dn_view _ _ _ _ _ n S2 Hd2 Hdn) as [V3 P3]. fold t3 in V3, P3.
  destruct (del_up_view _ _ _ _ _ d n S3 Hc3 Hup ltac:(done)) as [V4 P4]. fold t4 in V4, P4.
  destruct (storeNode_view _ _ _ _ _ _ S4 Hc4 Hok') as [_ P5]; [done..|].
  cbv zeta. split_and!.
  - eapply shape_storeNode; eauto.
  - transitivity t2; [done|]. transitivity t3; [by apply frozen_del_dn|].
    transitivity t4; [by apply frozen_del_up|]. by apply frozen_storeNode.
  - rewrite (storeNode_update _ _ _ _ _ dec_nlink S4 Hc4) by (done || apply attrs_dec).
    unfold v_unlink. by rewrite V4, V3, V2.
  - intros c' d' n' ??. by rewrite (P5 c' d' n'), P4, (P3 c' d' n'), (P2 c' d' n') by done.
Qed.

(** ** The transactions *)

Lemma dn_t_get t d v n : dn t d v n = rdbe <$> t_get t DownLinks (be d ++ be v ++ n).
Proof. by rewrite t_get_view. Qed.

(** The working invariant of a transaction at the current version. *)
Record tree (cur next : Z) t : Prop := {
  tr_shape : shape cur next t;
  tr_graph : graph (view t cur);
  tr_back : backlinks t cur
}.

(** What a transaction that ends in [w] must have done: the abstract outcome
    [R], nothing at all on an error, no earlier version touched. *)
Record outcome (cur next : Z) t (R : Error → View → Prop) (w : Error * KvData M) : Prop := {
  oc_res : ∃ v : View, R w.1 v ∧ view w.2 cur ≡ v;
  oc_fail : w.1 ≠ OK → w.2 = t;
  oc_shape : shape cur next w.2;
  oc_frozen : frozen cur t w.2;
  oc_back : backlinks w.2 cur
}.

Lemma outcome_fail cur next t (R : Error → View → Prop) e :
  tree cur next t → R e (view t cur) → outcome cur next t R (e, t).
Proof. intros [??]. split; simpl; eauto. done. Qed.

Lemma linkT_body cur t d n c dr cr :
  n ≠ SNAPSHOT_NAME → loadNode t d cur = Some dr → r_type dr = tcode DIR → loadNode t c cur = Some cr →
  linkT cur t d n c =
    if (r_type cr =? tcode DIR) && reachable cur t c d then (INVAL, t)
    else match ent t cur d n with
         | Some _ => (EXIST, t)
         | None => (OK, link_body cur t d n c cr)
         end.
Proof.
  intros Hn Hd Hty Hc. unfold linkT, ent, link_body. rewrite decide_False, Hd, Hty, Hc by done. simpl.
  rewrite dn_t_get. case_match; [done|]. destruct (t_get _ _ _); simpl; [done|].
  by destruct (ensureWritableDnLinks _ _ _), (ensureWritableUpLinks _ _ _).
Qed.

Lemma linkT_refines cur next t d n c :
  tree cur next t → in64 d → in64 c → outcome cur next t (link_res (view t cur) d n c) (linkT cur t d n c).
Proof.
  intros T Hd Hc. pose proof T as [Hsh G B].
  destruct (decide (n = SNAPSHOT_NAME)) as [->|Hn].
  { unfold linkT. rewrite decide_True by done. by apply outcome_fail; [|constructor]. }
  destruct (loadNode t d cur) as [dr|] eqn:Hld.
  2: { unfold linkT. rewrite decide_False, Hld by done. apply outcome_fail; [done|].
       constructor; [done|]. by apply view_attr_None. }
  destruct (decide (r_type dr = tcode DIR)) as [Hty|Hty].
  2: { unfold linkT. rewrite decide_False, Hld, (proj2 (Z.eqb_neq _ _) Hty) by done.
       apply outcome_fail; [done|]. apply (LinkNotDir _ _ _ _ (attrs dr)); [done| |by rewrite r_type_attrs].
       simpl. by rewrite Hld. }
  assert (is_dir (view t cur) d) as Hdir by (apply view_is_dir; eauto).
  destruct (loadNode t c cur) as [cr|] eqn:Hlc.
  2: { unfold linkT. rewrite decide_False, Hld, Hty, Hlc by done. apply outcome_fail; [done|].
       apply LinkNoChild; [done..|]. by apply view_attr_None. }
  rewrite (linkT_body _ _ _ _ _ dr cr) by done.
  pose proof (reachable_spec cur next t c d Hsh G Hdir) as Hreach.
  assert (v_attr (view t cur) c = Some (attrs cr)) as Hva by (simpl; by rewrite Hlc).
  destruct ((r_type cr =? tcode DIR) && reachable cur t c d) eqn:Ecyc.
  { apply andb_true_iff in Ecyc as [Ety Er]. apply Z.eqb_eq in Ety. apply outcome_fail; [done|].
    apply LinkCycle; [done..| |by apply Hreach]. apply view_is_dir. eauto. }
  assert (r_type (attrs cr) = tcode DIR → ¬ rtc (edge (view t cur)) c d) as Hno.
  { rewrite r_type_attrs. intros E Hr. apply Hreach in Hr. by rewrite E, Hr in Ecyc. }
  destruct (ent t cur d n) as [x|] eqn:He.
  { apply outcome_fail; [done|]. eapply LinkExist; eauto. }
  assert (d ≠ c) as Hne.
  { intros ->. simplify_eq. apply Hno; [by rewrite r_type_attrs|done]. }
  destruct (link_body_spec _ _ _ _ n _ _ _ Hsh Hld Hlc Hne) as (S & F & V & P).
  split; simpl; [|done..|]; [exists (v_link d n c (view t cur)); split; [|done]; by eapply LinkOk|].
  intros c' d' n' Hc' Hd'. rewrite P by done. rewrite (B c' d' n') by done.
  rewrite (view_ent_eq _ _ _ d' n' V) by done. simpl. case_decide; naive_solver.
Qed.

Lemma unlinkT_body cur t d n c :
  ent t cur d n = Some c → unlinkT cur t d n = (OK, unlink_body cur t d n c).
Proof.
  unfold unlinkT, ent, unlink_body. destruct (loadNode t d cur) as [dr|]; [|done].
  rewrite dn_t_get. destruct (t_get _ _ _) as [w|]; [|done]. intros [= <-].
  by destruct (ensureWritableDnLinks _ _ _), (ensureWritableUpLinks _ _ _).
Qed.

Lemma unlinkT_none cur t d n : ent t cur d n = None → unlinkT cur t d n = (NOENT, t).
Proof.
  unfold unlinkT, ent. destruct (loadNode t d cur) as [dr|]; [|done].
  rewrite dn_t_get. by destruct (t_get _ _ _).
Qed.

(** No entry of a tree leads from a directory to itself. *)
Lemma ent_ne cur next t d n c : tree cur next t → in64 d → ent t cur d n = Some c → d ≠ c.
Proof.
  intros [_ G _] Hd He ->. apply (gr_acyc _ G c), tc_once. split; [done|]. by exists n.
Qed.

Lemma unlinkT_refines cur next t d n :
  tree cur next t → in64 d → outcome cur next t (unlink_res (view t cur) d n) (unlinkT cur t d n).
Proof.
  intros T Hd. pose proof T as [Hsh G B]. destruct (ent t cur d n) as [c|] eqn:He.
  2: { rewrite unlinkT_none by done. apply outcome_fail; [done|]. by constructor. }
  rewrite (unlinkT_body _ _ _ _ c) by done. pose proof (ent_ne _ _ _ _ _ _ T Hd He) as Hne.
  destruct (gr_ent _ G d n c Hd He) as (_ & (dr & Hld & _)%view_is_dir & Hc & [cr' Hlc]).
  apply fmap_Some in Hlc as (cr & Hlc & _).
  destruct (unlink_body_spec _ _ _ _ n _ _ _ Hsh Hld Hlc Hne) as (S & F & V & P).
  split; simpl; [|done..|]; [exists (v_unlink d n c (view t cur)); split; [|done]; by constructor|].
  intros c' d' n' Hc' Hd'. rewrite P by done. rewrite (B c' d' n') by done.
  rewrite (view_ent_eq _ _ _ d' n' V) by done. simpl. case_decide; naive_solver.
Qed.

(** A link count has room for one more name. *)
Definition nlink_room (cur : Z) t c : Prop :=
  ∀ r, loadNode t c cur = Some r → r_nlink r + 1 < 2 ^ 32.

Lemma linkT_tree cur next t d n c :
  tree cur next t → in64 d → in64 c → nlink_room cur t c → tree cur next (linkT cur t d n c).2.
Proof.
  intros T Hd Hc Hroom. pose proof (linkT_refines cur next t d n c T Hd Hc) as O.
  destruct (decide ((linkT cur t d n c).1 = OK)) as [E|E]; [|by rewrite (oc_fail _ _ _ _ _ O)].
  destruct (oc_res _ _ _ _ _ O) as (v & Hres & Hv). rewrite E in Hres. inversion Hres; subst.
  split; [apply O| |apply O]. rewrite Hv.
  pose proof (tr_shape _ _ _ T) as Hsh. pose proof (shape_in64_cur _ _ _ Hsh) as Hcur.
  match goal with H : v_attr _ c = Some _ |- _ => rename H into Hr end.
  pose proof Hr as Hr'. apply fmap_Some in Hr' as (r & Hlr & ->).
  destruct (load_node _ _ _ _ _ _ Hsh Hcur Hlr) as (_ & _ & _ & _ & ((_&_&_&_&Hnl&_)&_) & _).
  eapply graph_link; try done; [apply T| | |].
  - destruct (decide (r_type (attrs r) = tcode DIR)); [auto|]. intros Hrt.
    apply (rtc_from_nondir _ _ _ (tr_graph _ _ _ T)) in Hrt as ->.
    + match goal with H : is_dir _ _ |- _ => destruct H as (? & ? & ?) end. congruence.
    + intros (r' & Hr' & ?). congruence.
  - rewrite r_nlink_attrs. word_lia.
  - rewrite r_nlink_attrs. by apply Hroom.
Qed.

Lemma unlinkT_tree cur next t d n :
  tree cur next t → in64 d → tree cur next (unlinkT cur t d n).2.
Proof.
  intros T Hd. pose proof (unlinkT_refines cur next t d n T Hd) as O.
  destruct (decide ((unlinkT cur t d n).1 = OK)) as [E|E]; [|by rewrite (oc_fail _ _ _ _ _ O)].
  destruct (oc_res _ _ _ _ _ O) as (v & Hres & Hv). rewrite E in Hres. inversion Hres; subst.
  split; [apply O| |apply O]. rewrite Hv. by apply graph_unlink; [apply T|..].
Qed.

Lemma moveT_none cur t sd sn dd dn_ : ent t cur sd sn = None → moveT cur t sd sn dd dn_ = (NOENT, t).
Proof.
  unfold moveT, ent. destruct (loadNode t sd cur) as [dr|]; [|done].
  rewrite dn_t_get. by destruct (t_get _ _ _).
Qed.
Lemma moveT_body cur t sd sn dd dn_ c :
  ent t cur sd sn = Some c →
  moveT cur t sd sn dd dn_ =
    if decide ((linkT cur t dd dn_ c).1 = OK) then unlinkT cur (linkT cur t dd dn_ c).2 sd sn
    else linkT cur t dd dn_ c.
Proof.
  unfold moveT, ent. destruct (loadNode t sd cur) as [dr|]; [|done].
  rewrite dn_t_get. destruct (t_get _ _ _) as [w|]; [|done]. intros [= <-].
  by destruct (linkT _ _ _ _ _).
Qed.

Lemma moveT_refines cur next t sd sn dd dn_ :
  tree cur next t → in64 sd → in64 dd →
  (∀ c, ent t cur sd sn = Some c → nlink_room cur t c) →
  outcome cur next t (move_res (view t cur) sd sn dd dn_) (moveT cur t sd sn dd dn_) ∧
  tree cur next (moveT cur t sd sn dd dn_).2.
Proof.
  intros T Hsd Hdd Hroom. destruct (ent t cur sd sn) as [c|] eqn:He.
  2: { rewrite moveT_none by done. split; [|done]. apply outcome_fail; [done|]. by apply MoveNone. }
  rewrite (moveT_body _ _ _ _ _ _ c) by done.
  destruct (gr_ent _ (tr_graph _ _ _ T) sd sn c Hsd He) as (_ & _ & Hc & _).
  pose proof (linkT_refines cur next t dd dn_ c T Hdd Hc) as O.
  pose proof (linkT_tree cur next t dd dn_ c T Hdd Hc (Hroom c eq_refl)) as T1.
  destruct (oc_res _ _ _ _ _ O) as (v & Hres & Hv). destruct (linkT cur t dd dn_ c) as [e t1]. simpl in *.
  case_decide as E.
  2: { pose proof (oc_fail _ _ _ _ _ O E) as Eq. simpl in Eq. subst t1. split; [|done].
       apply outcome_fail; [done|]. apply MoveFail with c; [done| |done].
       destruct Hres; (done || by econstructor). }
  subst e. inversion Hres; subst.
  assert (ent t1 cur sd sn = Some c) as He1.
  { rewrite (view_ent_eq _ _ _ sd sn Hv) by done. simpl. by case_decide. }
  pose proof (unlinkT_refines cur next t1 sd sn T1 Hsd) as O1.
  split; [|by apply unlinkT_tree].
  rewrite (unlinkT_body _ _ _ _ c) in * by done. destruct (oc_res _ _ _ _ _ O1) as (v1 & Hres1 & Hv1).
  inversion Hres1 as [|c' Hc']; subst. simpl in *. replace c' with c in * by congruence.
  split; [|done|apply O1| |apply O1].
  - exists (v_unlink sd sn c (v_link dd dn_ c (view t cur))). split; [by apply MoveOk|].
    simpl. by rewrite Hv1, Hv.
  - transitivity t1; [apply O|apply O1].
Qed.

(** ** Records, fresh nodes, new snapshots *)

(** [f] rewrites attributes only. *)
Record attr_fn (f : NodeRec → NodeRec) : Prop := {
  af_type r : r_type (f r) = r_type r;
  af_nlink r : r_nlink (f r) = r_nlink r;
  af_dn r : r_dn (f r) = r_dn r;
  af_up r : r_up (f r) = r_up r;
  af_attrs r : attrs (f r) = f (attrs r);
  af_ok r : rec_ok r → rec_ok (f r)
}.

Lemma storeNode_tree cur next t id r f :
  tree cur next t → loadNode t id cur = Some r → attr_fn f →
  let t' := storeNode t id cur (f r) in
  tree cur next t' ∧ frozen cur t t' ∧ view t' cur ≡ v_update f id (view t cur).
Proof.
  intros T Hl [Hty Hnl Hdn Hup Hat Hok] t'. pose proof T as [Hsh G B].
  pose proof (shape_in64_cur _ _ _ Hsh) as Hcur. pose proof (loadNode_in64 _ _ _ _ Hl) as Hid.
  destruct (load_node _ _ _ _ _ _ Hsh Hcur Hl) as (_ & _ & _ & _ & Hr & _).
  specialize (Hok r Hr).
  pose proof (storeNode_update _ _ _ _ _ f Hsh Hl Hok (Hdn r) (Hup r) (Hat r)) as V.
  destruct (storeNode_view _ _ _ _ _ _ Hsh Hl Hok (Hdn r) (Hup r)) as [_ P].
  split_and!; [split| |done].
  - eapply shape_storeNode; eauto.
  - unfold t'. rewrite V. by apply graph_update.
  - intros c d n ??. unfold t'. rewrite (P c d n) by done. rewrite (B c d n) by done.
    by rewrite (view_ent_eq _ _ _ d n V).
  - by apply frozen_storeNode.
Qed.

(** The id counter's node does not exist yet. *)
Lemma node_fresh cur next t s : shape cur next t → in64 s → node t next s = None.
Proof.
  intros Hsh Hs. destruct (node t next s) eqn:E; [|done].
  pose proof (sh_next _ _ _ Hsh). apply Hsh in E; [lia|word_lia|done].
Qed.
Lemma load_fresh cur next t : shape cur next t → loadNode t next cur = None.
Proof.
  intros Hsh. pose proof (sh_next _ _ _ Hsh). apply loadNode_None; [apply Hsh|word_lia|by eapply shape_in64_cur|].
  intros s ??. by eapply node_fresh.
Qed.

Lemma shape_create cur next t r :
  shape cur next t → next + 1 <= 2 ^ 63 → rec_ok r → (∃ ty, r_type r = tcode ty) →
  r_dn r = cur → r_up r = cur → shape cur (next + 1) (storeNode t next cur r).
Proof.
  intros Hsh Hmax Hr Hty Hdn Hup. pose proof (shape_in64_cur _ _ _ Hsh) as Hcur.
  pose proof (sh_next _ _ _ Hsh) as Hn. pose proof (sh_cur _ _ _ Hsh). assert (in64 next) by word_lia.
  split; try apply Hsh; try lia.
  - apply kv_wf_storeNode; [apply Hsh|done..].
  - intros id s r' ??. rewrite node_storeNode by done. case_decide as E.
    + destruct E as [-> ->]. intros [= <-]. split_and!; [lia..|done].
    + intros Hnode. destruct (sh_node _ _ _ Hsh id s r') as (?&?&?&?&?); try done. split_and!; [lia..|done].
  - intros id s s' r1 r2 ???. rewrite !node_storeNode by done.
    repeat case_decide; try destruct_and!; subst; intros; simplify_eq; try done.
    + by rewrite (node_fresh _ _ _ _ Hsh) in * by done.
    + by rewrite (node_fresh _ _ _ _ Hsh) in * by done.
    + by apply (sh_type _ _ _ Hsh id s s').
  - intros d v n c ??. rewrite dn_storeNode, node_storeNode by done. intros Hd.
    destruct (sh_dn _ _ _ Hsh d v n c) as (r1 & Hr1 & Hv); [done..|].
    case_decide as E; [|eauto]. destruct E as [-> ->]. by rewrite (node_fresh cur) in Hr1.
  - intros c v d n ???. rewrite up_storeNode, node_storeNode by done. intros Hu.
    destruct (sh_up _ _ _ Hsh c v d n) as (r1 & Hr1 & Hv); [done..|].
    case_decide as E; [|eauto]. destruct E as [-> ->]. by rewrite (node_fresh cur) in Hr1.
  - intros s id' ??. rewrite chg_storeNode, node_storeNode, (sh_chg _ _ _ Hsh) by done.
    case_decide; naive_solver.
Qed.

Lemma create_tree cur next t r :
  tree cur next t → next + 1 <= 2 ^ 63 → rec_ok r → (∃ ty, r_type r = tcode ty) →
  r_dn r = cur → r_up r = cur → r_nlink r = 0 →
  let t' := storeNode t next cur r in
  tree cur (next + 1) t' ∧ frozen cur t t' ∧ view t' cur ≡ v_create next (attrs r) (view t cur).
Proof.
  intros T Hmax Hr Hty Hdn Hup Hnl t'. pose proof T as [Hsh G B].
  pose proof (sh_next _ _ _ Hsh). assert (in64 next) by word_lia.
  pose proof (shape_in64_cur _ _ _ Hsh) as Hcur. pose proof (load_fresh _ _ _ Hsh) as Hl.
  pose proof (shape_create _ _ _ _ Hsh Hmax Hr Hty Hdn Hup) as Hsh'. fold t' in Hsh'.
  assert (∀ n, dn t next cur n = None) as Hnodn.
  { intros n. destruct (dn t next cur n) eqn:E; [|done].
    destruct (sh_dn _ _ _ Hsh next cur n z) as (r1 & Hr1 & _); [done..|]. by rewrite (node_fresh cur) in Hr1. }
  assert (∀ d n, in64 d → ¬ up t next cur d n) as Hnoup.
  { intros d n Hd Hu. destruct (sh_up _ _ _ Hsh next cur d n) as (r1 & Hr1 & _); [done..|].
    by rewrite (node_fresh cur) in Hr1. }
  assert (view t' cur ≡ v_create next (attrs r) (view t cur)) as V.
  { intros id Hid. unfold t'. simpl. unfold ent. rewrite (loadNode_storeNode _ next) by done.
    case_decide as E; [|split; [done|]; intros; destruct (loadNode t id _); by rewrite ?dn_storeNode].
    rewrite E, Hl. split; [done|]. intros n. by rewrite dn_storeNode, Hdn. }
  split_and!; [split; [done| |]| |done].
  - rewrite V. apply graph_create; [done|by apply view_attr_None| |lia|done]. by rewrite r_nlink_attrs.
  - intros c d n ??. rewrite (view_ent_eq _ _ _ d n V) by done. simpl. rewrite <- (B c d n) by done.
    unfold par, t'. rewrite (loadNode_storeNode _ next) by done. case_decide as E.
    + rewrite E, Hl, Hup, up_storeNode. split; [by intros ?%Hnoup|done].
    + destruct (loadNode t c _); by rewrite ?up_storeNode.
  - by apply frozen_storeNode.
Qed.

(** *** Starting a new current version *)

Lemma loadNode_later cur next t id g :
  shape cur next t → in64 id → cur <= g → in64 g → loadNode t id g = loadNode t id cur.
Proof.
  intros Hsh Hid Hle Hg. pose proof (shape_in64_cur _ _ _ Hsh) as Hcur. pose proof (sh_wf _ _ _ Hsh).
  apply option_eq. intros r. rewrite !loadNode_Some by done. f_equiv. intros s. unfold eff_at. split.
  - intros (Hs & Hsg & Hn & Hmax). pose proof (sh_node _ _ _ Hsh _ _ _ Hid Hs Hn) as (_ & ? & _).
    split_and!; [done|lia|done|]. intros s' ?. apply Hmax. lia.
  - intros (Hs & Hsg & Hn & Hmax). split_and!; [done|lia|done|]. intros s' ?.
    destruct (decide (s' <= cur)); [apply Hmax; lia|]. destruct (node t id s') as [r'|] eqn:E; [|done].
    apply Hsh in E; [lia|done|word_lia].
Qed.
Lemma view_later cur next t g : shape cur next t → cur <= g → in64 g → view t g ≡ view t cur.
Proof.
  intros Hsh Hle Hg id Hid. simpl. unfold ent. by rewrite (loadNode_later cur next).
Qed.

Lemma next_tree cur next t : tree cur next t → cur + 1 < LATEST → tree (cur + 1) next t.
Proof.
  intros [Hsh G B] Hlt. pose proof (sh_cur _ _ _ Hsh).
  assert (in64 (cur + 1)) by (unfold LATEST in *; word_lia).
  pose proof (view_later cur next t (cur + 1) Hsh ltac:(lia) ltac:(done)) as V.
  split; [|by rewrite V|].
  - split; try apply Hsh; [lia|]. intros id s r Hid Hs Hn.
    destruct (sh_node _ _ _ Hsh id s r) as (?&?&?&?&?); try done. split_and!; [lia..|done].
  - intros c d n ??. rewrite (view_ent_eq _ _ _ d n V) by done. simpl. rewrite <- (B c d n) by done.
    unfold par. by rewrite (loadNode_later cur next t c (cur + 1)) by (done || lia).
Qed.
End Links.
