(* ===== verification/Inv.v ===== *)
(** * Inv: the store as a state machine, and its refinement

    Every mutating call of the interface as one operation ([Op], [exec]), the
    invariant of the store ([inv]), the abstract file system in which a
    snapshot is a full copy of the tree ([FS], [fs_step]), and the simulation:
    each operation of [PrfsStore] preserves the invariant and is a step of the
    abstract file system. *)
From S2P Require Import Prelude Keys Kv NodeRec Spec Store Views Shape Graph Links.
Local Open Scope Z_scope.
Set Warnings "-clear-no-such-hyp".

(** ** Operations *)

Inductive Attr := AMode | AUid | AGid | ASize | AAtime | AMtime | ACtime | AAtimeNs | AMtimeNs.

(** What the attribute setters of [PrfsNode] assign. *)
Definition attr_set (a : Attr) (x : Z) (r : NodeRec) : NodeRec :=
  match a with
  | AMode => set_mode x r | AUid => set_uid x r | AGid => set_gid x r | ASize => set_size x r
  | AAtime => set_atimeNs 0 (set_atime x r) | AMtime => set_mtimeNs 0 (set_mtime x r)
  | ACtime => set_ctime x r | AAtimeNs => set_atimeNs x r | AMtimeNs => set_mtimeNs x r
  end.
Definition attr_ok (a : Attr) (x : Z) : Prop :=
  match a with AMode | AUid | AGid | AAtimeNs | AMtimeNs => in32 x | _ => in64 x end.

Inductive Op :=
  | OpMkdir | OpMkfile (c : bytes) | OpSymlink (t : bytes) | OpMkfifo | OpMksock
  | OpMknod (ty : FType) (maj min : Z)
  | OpLink (d : Handle) (n : bytes) (c : Handle) | OpUnlink (d : Handle) (n : bytes)
  | OpMove (sd : Handle) (sn : bytes) (dd : Handle) (dn : bytes)
  | OpSetContent (h : Handle) (c : bytes) | OpSetTarget (h : Handle) (t : bytes)
  | OpSetRdev (h : Handle) (maj min : Z) | OpSetSeed (h : Handle) (seed : Z)
  | OpPut (a : Attr) (h : Handle) (x : Z)
  | OpSetTime (t : Z) | OpSetConfig (blob : bytes) | OpSnapshot (label : bytes).

Section Exec.
Context {M : Type} `{!KvEngine M}.
Implicit Types (st : Store M).

Definition attr_put (a : Attr) st (h : Handle) (x : Z) : Store M :=
  match a with
  | AMode => put_mode st h x | AUid => put_uid st h x | AGid => put_gid st h x
  | ASize => put_size st h x | AAtime => put_atime st h x | AMtime => put_mtime st h x
  | ACtime => put_ctime st h x | AAtimeNs => put_atimeNsec st h x | AMtimeNs => put_mtimeNsec st h x
  end.

Definition exec st (op : Op) : Error * Store M :=
  match op with
  | OpMkdir => (OK, (mkdir st).2)
  | OpMkfile c => (OK, (mkfile st c).2)
  | OpSymlink t => (OK, (symlink st t).2)
  | OpMkfifo => (OK, (mkfifo st).2)
  | OpMksock => (OK, (mksock st).2)
  | OpMknod ty maj min => (OK, (mknod st ty maj min).2)
  | OpLink d n c => link st d n c
  | OpUnlink d n => unlink st d n
  | OpMove sd sn dd dn => move st sd sn dd dn
  | OpSetContent h c => setContent st h c
  | OpSetTarget h t => setTarget st h t
  | OpSetRdev h maj min => setRdev st h maj min
  | OpSetSeed h seed => setContentSeed st h seed
  | OpPut a h x => (OK, attr_put a st h x)
  | OpSetTime t => (OK, setTime st t)
  | OpSetConfig blob => (OK, setContentConfig st blob)
  | OpSnapshot label => (OK, (snapshot st label).2)
  end.

(** Arguments in the range of their C++ types, and the resources the code
    takes for granted: a free id, a free snapshot number, a link count below
    its 32-bit maximum. *)
Definition op_ok st (op : Op) : Prop :=
  match op with
  | OpMkdir | OpMkfile _ | OpSymlink _ | OpMkfifo | OpMksock => m_next st + 1 <= 2 ^ 63
  | OpMknod _ maj min => in32 maj ∧ in32 min ∧ m_next st + 1 <= 2 ^ 63
  | OpLink d n c => in64 (h_id d) ∧ in64 (h_id c) ∧ nlink_room (m_cur st) (m_kv st) (h_id c)
  | OpUnlink d n => in64 (h_id d)
  | OpMove sd sn dd dn => in64 (h_id sd) ∧ in64 (h_id dd) ∧
      ∀ c, ent (m_kv st) (m_cur st) (h_id sd) sn = Some c → nlink_room (m_cur st) (m_kv st) c
  | OpSetContent h _ | OpSetTarget h _ => in64 (h_id h)
  | OpSetRdev h maj min => in64 (h_id h) ∧ in32 maj ∧ in32 min
  | OpSetSeed h seed => in64 (h_id h) ∧ in64 seed
  | OpPut a h x => in64 (h_id h) ∧ attr_ok a x
  | OpSetTime t => in64 t
  | OpSetConfig _ => True
  | OpSnapshot _ => m_cur st + 1 < LATEST
  end.

(** The store's invariant: the current tree, every sealed one, and the
    counters as they are persisted. *)
Record inv st : Prop := {
  i_tree : tree (m_cur st) (m_next st) (m_kv st);
  i_old g : 1 <= g < m_cur st → graph (view (m_kv st) g) ∧ backlinks (m_kv st) g;
  i_root : m_root st = 1;
  i_clock : in64 (m_clock st);
  i_meta : getMeta (m_kv st) (str "root") = Some (m_root st) ∧
           getMeta (m_kv st) (str "next_node") = Some (m_next st) ∧
           getMeta (m_kv st) (str "cur_snap") = Some (m_cur st) ∧
           getMeta (m_kv st) (str "clock") = Some (m_clock st)
}.

Inductive reachable_from (s0 : Store M) : Store M → Prop :=
  | RefInit : reachable_from s0 s0
  | RefStep st op : reachable_from s0 st → op_ok st op → reachable_from s0 (exec st op).2.
End Exec.

(** ** The abstract file system *)

(** The live tree, and a full copy of it per snapshot taken. *)
Record FS := mkFS { f_cur : Z; f_next : Z; f_clock : Z; f_now : View; f_snap : Z → View }.
Global Instance FS_equiv : Equiv FS := λ s s',
  f_cur s = f_cur s' ∧ f_next s = f_next s' ∧ f_clock s = f_clock s' ∧ f_now s ≡ f_now s' ∧
  ∀ g, 1 <= g < f_cur s → f_snap s g ≡ f_snap s' g.

Global Instance FS_equivalence : Equivalence (≡@{FS}).
Proof.
  split.
  - intros s. by split_and!.
  - intros s s' (E1 & E2 & E3 & E4 & E5). split_and!; try done. intros g Hg. symmetry. apply E5. lia.
  - intros s1 s2 s3 (E1 & E2 & E3 & E4 & E5) (F1 & F2 & F3 & F4 & F5).
    split_and!; try congruence; [by etrans|]. intros g Hg. etrans; [by apply E5|apply F5; lia].
Qed.

Definition set_now (v : View) (s : FS) : FS := mkFS (f_cur s) (f_next s) (f_clock s) v (f_snap s).
Definition fresh_node (ty : FType) (blob : bytes) (spec clock : Z) : NodeRec :=
  mkNode (tcode ty) (defaultMode ty) 0 0 0 0 0 0 clock clock clock spec 0 0 blob.
Definition fs_create (ty : FType) (blob : bytes) (spec : Z) (s : FS) : FS :=
  mkFS (f_cur s) (f_next s + 1) (f_clock s)
       (v_create (f_next s) (fresh_node ty blob spec (f_clock s)) (f_now s)) (f_snap s).
Definition rdev_spec (maj min : Z) : Z := maj * 2 ^ 32 + min.

(** A typed mutator: absent, of the wrong type, or updated. *)
Inductive typed_res (v : View) (id : Z) (ok : Z → Prop) (f : NodeRec → NodeRec) : Error → View → Prop :=
  | TypedNone : v_attr v id = None → typed_res v id ok f NOENT v
  | TypedWrong r : v_attr v id = Some r → ¬ ok (r_type r) → typed_res v id ok f INVAL v
  | TypedOk r : v_attr v id = Some r → ok (r_type r) → typed_res v id ok f OK (v_update f id v).

Inductive fs_step (s : FS) : Op → Error → FS → Prop :=
  | FsMkdir : fs_step s OpMkdir OK (fs_create DIR [] 0 s)
  | FsMkfile c : fs_step s (OpMkfile c) OK (fs_create REG c 0 s)
  | FsSymlink t : fs_step s (OpSymlink t) OK (fs_create LNK t 0 s)
  | FsMkfifo : fs_step s OpMkfifo OK (fs_create FIFO [] 0 s)
  | FsMksock : fs_step s OpMksock OK (fs_create SOCK [] 0 s)
  | FsMknod ty maj min : fs_step s (OpMknod ty maj min) OK (fs_create ty [] (rdev_spec maj min) s)
  | FsLink d n c e v : link_res (f_now s) (h_id d) n (h_id c) e v → fs_step s (OpLink d n c) e (set_now v s)
  | FsUnlink d n e v : unlink_res (f_now s) (h_id d) n e v → fs_step s (OpUnlink d n) e (set_now v s)
  | FsMove sd sn dd dn e v : move_res (f_now s) (h_id sd) sn (h_id dd) dn e v →
      fs_step s (OpMove sd sn dd dn) e (set_now v s)
  | FsSetContent h c e v : typed_res (f_now s) (h_id h) (λ ty, ty = tcode REG) (set_blob c) e v →
      fs_step s (OpSetContent h c) e (set_now v s)
  | FsSetTarget h t e v : typed_res (f_now s) (h_id h) (λ ty, ty = tcode LNK) (set_blob t) e v →
      fs_step s (OpSetTarget h t) e (set_now v s)
  | FsSetRdev h maj min e v :
      typed_res (f_now s) (h_id h) (λ ty, ty = tcode BLK ∨ ty = tcode CHR)
        (set_spec (rdev_spec maj min)) e v →
      fs_step s (OpSetRdev h maj min) e (set_now v s)
  | FsSetSeed h seed e v : typed_res (f_now s) (h_id h) (λ ty, ty = tcode REG) (set_spec seed) e v →
      fs_step s (OpSetSeed h seed) e (set_now v s)
  | FsPut a h x : fs_step s (OpPut a h x) OK (set_now (v_update (attr_set a x) (h_id h) (f_now s)) s)
  | FsSetTime t : fs_step s (OpSetTime t) OK (mkFS (f_cur s) (f_next s) t (f_now s) (f_snap s))
  | FsSetConfig blob : fs_step s (OpSetConfig blob) OK s
  | FsSnapshot label : fs_step s (OpSnapshot label) OK
      (mkFS (f_cur s + 1) (f_next s) (f_clock s) (f_now s)
            (λ g, if g =? f_cur s then f_now s else f_snap s g)).

Definition abs {M} `{!KvEngine M} (st : Store M) : FS :=
  mkFS (m_cur st) (m_next st) (m_clock st) (view (m_kv st) (m_cur st)) (view (m_kv st)).

(** ** The simulation *)

Lemma attr_fn_put a x : attr_ok a x → attr_fn (attr_set a x).
Proof.
  intros Hx. destruct a; simpl in Hx; split; intros [];
    unfold attr_set, rec_ok in *; simpl; try done; try (intuition; word_lia).
Qed.
Lemma attr_fn_blob b : attr_fn (set_blob b).
Proof. split; intros []; unfold rec_ok; simpl; intuition. Qed.
Lemma attr_fn_spec x : in64 x → attr_fn (set_spec x).
Proof. intros. split; intros []; unfold rec_ok; simpl; intuition. Qed.

Lemma rdev_lor maj min : in32 min → Z.lor (Z.shiftl maj 32) min = rdev_spec maj min.
Proof. intros. rewrite lor_shift_add; [done|lia|word_lia]. Qed.
Lemma rdev_in64 maj min : in32 maj → in32 min → in64 (rdev_spec maj min).
Proof. unfold rdev_spec. word_lia. Qed.

Section Sim.
Context {M : Type} `{!KvEngine M}.
Implicit Types (st : Store M) (t : KvData M).

(** *** The metadata sub-stores *)

Definition same_meta t t' : Prop := sub t' Meta = sub t Meta ∧ sub t' Snaps = sub t Snaps.
Global Instance same_meta_refl : Reflexive same_meta.
Proof. by split. Qed.
Global Instance same_meta_trans : Transitive same_meta.
Proof. intros t1 t2 t3 [H1 H2] [H3 H4]. split; congruence. Qed.

Lemma same_meta_put t k key w : k ≠ Meta → k ≠ Snaps → same_meta t (t_put t k key w).
Proof. intros. by destruct t, k. Qed.
Lemma same_meta_del t k key : k ≠ Meta → k ≠ Snaps → same_meta t (t_del t k key).
Proof. intros. by destruct t, k. Qed.
Lemma same_meta_store t id s r : same_meta t (storeNode t id s r).
Proof. unfold storeNode. etrans; by apply same_meta_put. Qed.
Lemma same_meta_fold {A} (f : KvData M → A → KvData M) (l : list A) t :
  (∀ t x, same_meta t (f t x)) → same_meta t (fold_left f l t).
Proof. intros Hf. revert t. induction l as [|x l IH]; intros t; [done|]. simpl. etrans; [apply Hf|apply IH]. Qed.
Lemma same_meta_dn cur t dir : same_meta t (ensureWritableDnLinks cur t dir).1.
Proof.
  unfold ensureWritableDnLinks. case_match; [done|]. etrans; [|apply same_meta_store].
  apply same_meta_fold. intros t' [n c]. by apply same_meta_put.
Qed.
Lemma same_meta_up cur t nd : same_meta t (ensureWritableUpLinks cur t nd).1.
Proof.
  unfold ensureWritableUpLinks. case_match; [done|]. etrans; [|apply same_meta_store].
  apply same_meta_fold. intros t' x. by apply same_meta_put.
Qed.

Lemma same_meta_cow cur t d c t1 dv t2 uv :
  ensureWritableDnLinks cur t d = (t1, dv) → ensureWritableUpLinks cur t1 c = (t2, uv) → same_meta t t2.
Proof.
  intros E1 E2. pose proof (same_meta_dn cur t d) as H1. pose proof (same_meta_up cur t1 c) as H2.
  rewrite E1 in H1. rewrite E2 in H2. by etrans.
Qed.
Lemma same_meta_link cur t d n c : same_meta t (linkT cur t d n c).2.
Proof.
  unfold linkT. case_decide; [done|]. destruct (loadNode t d cur) as [dr|]; [|done].
  destruct (negb _); [done|]. destruct (loadNode t c cur) as [cr|]; [|done].
  destruct (_ && _); [done|]. destruct (t_get _ _ _); [done|].
  destruct (ensureWritableDnLinks _ _ _) as [t1 dv] eqn:E1.
  destruct (ensureWritableUpLinks _ _ _) as [t2 uv] eqn:E2.
  simpl. transitivity t2; [by eapply same_meta_cow|].
  etrans; [|apply same_meta_store]. etrans; by apply same_meta_put.
Qed.
Lemma same_meta_unlink cur t d n : same_meta t (unlinkT cur t d n).2.
Proof.
  unfold unlinkT. destruct (loadNode t d cur) as [dr|]; [|done]. destruct (t_get _ _ _) as [w|]; [|done].
  destruct (ensureWritableDnLinks _ _ _) as [t1 dv] eqn:E1.
  destruct (ensureWritableUpLinks _ _ _) as [t2 uv] eqn:E2.
  simpl. transitivity t2; [by eapply same_meta_cow|].
  etrans; [|apply same_meta_store]. etrans; by apply same_meta_del.
Qed.
Lemma same_meta_move cur t sd sn dd dn_ : same_meta t (moveT cur t sd sn dd dn_).2.
Proof.
  unfold moveT. destruct (loadNode t sd cur) as [dr|]; [|done]. destruct (t_get _ _ _) as [w|]; [|done].
  pose proof (same_meta_link cur t dd dn_ (rdbe w)) as H. destruct (linkT _ _ _ _ _) as [e t1].
  case_decide; [|done]. etrans; [exact H|]. apply same_meta_unlink.
Qed.

Lemma getMeta_same t t' key : same_meta t t' → getMeta t' key = getMeta t key.
Proof. intros [H _]. unfold getMeta, t_get. by rewrite H. Qed.
Lemma getMeta_put t key x key' :
  in64 x → getMeta (putMeta t key x) key' = if decide (key' = key) then Some x else getMeta t key'.
Proof.
  intros Hx. unfold getMeta, putMeta. rewrite !t_get_view, view_put.
  case_decide as E; case_decide; try naive_solver.
  rewrite take_ge by (rewrite length_le; lia). rewrite unle_le. f_equal. apply Z.mod_small. word_lia.
Qed.

(** *** Replacing the working copy *)

Lemma finish_kv st res :
  (res.1 ≠ OK → res.2 = m_kv st) → finish st res = (res.1, set_kv st res.2).
Proof.
  intros H. unfold finish, end_txn. case_bool_decide as E; simpl; [done|].
  rewrite (H E). by destruct (negb kv_rolls_back).
Qed.

Lemma inv_now st t next' :
  inv st → tree (m_cur st) next' t → frozen (m_cur st) (m_kv st) t →
  getMeta t (str "root") = Some (m_root st) ∧ getMeta t (str "next_node") = Some next' ∧
  getMeta t (str "cur_snap") = Some (m_cur st) ∧ getMeta t (str "clock") = Some (m_clock st) →
  let st' := mkStore t next' (m_cur st) (m_root st) (m_clock st) in
  inv st' ∧ abs st' ≡ mkFS (m_cur st) next' (m_clock st) (view t (m_cur st)) (view (m_kv st)).
Proof.
  intros [T Old Hroot Hclk Hmeta] T' F' Hm st'. pose proof (tr_shape _ _ _ T) as Hsh.
  pose proof (sh_wf _ _ _ (tr_shape _ _ _ T')) as Hwf. pose proof (sh_cur _ _ _ Hsh) as Hcur.
  assert (∀ g, 1 <= g < m_cur st → view t g ≡ view (m_kv st) g) as V.
  { intros g Hg. eapply frozen_view; try done; [|lia]. unfold LATEST in *. word_lia. }
  split; [split|]; try done.
  - intros g Hg. simpl in *. destruct (Old g Hg) as [G B]. split; [by rewrite V|].
    eapply frozen_backlinks; try done; [|lia]. unfold LATEST in *. word_lia.
Qed.

Lemma inv_kv st t :
  inv st → tree (m_cur st) (m_next st) t → frozen (m_cur st) (m_kv st) t → same_meta (m_kv st) t →
  inv (set_kv st t) ∧ abs (set_kv st t) ≡ set_now (view t (m_cur st)) (abs st).
Proof.
  intros I T F Hm. apply inv_now; [done..|]. rewrite !(getMeta_same _ _ _ Hm). by apply I.
Qed.

Lemma set_now_equiv (v w : View) (s s1 : FS) : s1 ≡ set_now v s → v ≡ w → s1 ≡ set_now w s.
Proof. intros (?&?&?&H&?) Hv. split_and!; try done. simpl in *. by rewrite H. Qed.

(** A transaction that ends in an outcome is a step of the live tree. *)
Lemma finish_sim st (R : Error → View → Prop) res :
  inv st → outcome (m_cur st) (m_next st) (m_kv st) R res →
  tree (m_cur st) (m_next st) res.2 → same_meta (m_kv st) res.2 →
  let w := finish st res in
  inv w.2 ∧ ∃ v, R w.1 v ∧ abs w.2 ≡ set_now v (abs st).
Proof.
  intros I O T Hm w. unfold w. rewrite (finish_kv st res (oc_fail _ _ _ _ _ O)). simpl.
  destruct (inv_kv st res.2 I T (oc_frozen _ _ _ _ _ O) Hm) as [I' A].
  split; [done|]. destruct (oc_res _ _ _ _ _ O) as (v & HR & Hv). exists v. split; [done|].
  by eapply set_now_equiv.
Qed.

(** The typed mutators: load, check, rewrite. *)
Lemma typed_sim st id (okb : Z → bool) (ok : Z → Prop) f :
  inv st → attr_fn f → (∀ z, okb z = true ↔ ok z) →
  let w := finish st
    match loadNode (m_kv st) id (m_cur st) with
    | None => (NOENT, m_kv st)
    | Some r => if okb (r_type r) then (OK, storeNode (m_kv st) id (m_cur st) (f r)) else (INVAL, m_kv st)
    end in
  inv w.2 ∧ ∃ v, typed_res (view (m_kv st) (m_cur st)) id ok f w.1 v ∧ abs w.2 ≡ set_now v (abs st).
Proof.
  intros I Hf Hok. pose proof (i_tree _ I) as T.
  assert (∀ e, outcome (m_cur st) (m_next st) (m_kv st)
            (typed_res (view (m_kv st) (m_cur st)) id ok f) (e, m_kv st) →
    let w := finish st (e, m_kv st) in
    inv w.2 ∧ ∃ v, typed_res (view (m_kv st) (m_cur st)) id ok f w.1 v ∧ abs w.2 ≡ set_now v (abs st)) as Hfail
    by (intros e O; by apply finish_sim).
  destruct (loadNode (m_kv st) id (m_cur st)) as [r|] eqn:Hl.
  2: { apply Hfail, outcome_fail; [done|]. constructor. by apply view_attr_None. }
  assert (v_attr (view (m_kv st) (m_cur st)) id = Some (attrs r)) as Ha by (simpl; by rewrite Hl).
  destruct (okb (r_type r)) eqn:E.
  - destruct (storeNode_tree _ _ _ _ _ _ T Hl Hf) as (T' & F & V).
    apply finish_sim; [done| |done|apply same_meta_store].
    split; simpl; [|done|apply T'|done|apply T'].
    eexists. split; [|exact V]. eapply TypedOk; [done|]. rewrite r_type_attrs. by apply Hok.
  - apply Hfail, outcome_fail; [done|]. eapply TypedWrong; [done|].
    rewrite r_type_attrs, <- Hok. by rewrite E.
Qed.

(** *** Metadata writes *)

Lemma view_meta t k key w g : k = Meta ∨ k = Snaps → view (t_put t k key w) g = view t g.
Proof. intros [-> | ->]; by destruct t. Qed.
Lemma backlinks_meta t k key w g : k = Meta ∨ k = Snaps → backlinks t g → backlinks (t_put t k key w) g.
Proof. intros [-> | ->]; by destruct t. Qed.
Lemma tree_meta cur next t k key w :
  k = Meta ∨ k = Snaps → tree cur next t → tree cur next (t_put t k key w).
Proof.
  intros Hk [S G B]. split; [by apply shape_meta|by rewrite view_meta|by apply backlinks_meta].
Qed.
Lemma getMeta_snaps t key w key' : getMeta (t_put t Snaps key w) key' = getMeta t key'.
Proof. by destruct t. Qed.
Lemma getMeta_config t w key' :
  key' ≠ str "content_config" → getMeta (t_put t Meta (str "content_config") w) key' = getMeta t key'.
Proof. intros. unfold getMeta. rewrite !t_get_view, view_put, decide_False by naive_solver. done. Qed.

(** *** The operations *)

Lemma alloc_sim st ty blob spec :
  inv st → m_next st + 1 <= 2 ^ 63 → in64 spec →
  inv (alloc st ty blob spec).2 ∧ abs (alloc st ty blob spec).2 ≡ fs_create ty blob spec (abs st).
Proof.
  intros I Hmax Hspec. pose proof (i_tree _ I) as T. pose proof (tr_shape _ _ _ T) as Hsh.
  pose proof (shape_in64_cur _ _ _ Hsh). pose proof (sh_next _ _ _ Hsh). pose proof (i_clock _ I).
  unfold alloc, end_txn. simpl. rewrite (u64_small (m_next st + 1)) by word_lia.
  set (w := putMeta (m_kv st) (str "next_node") (m_next st + 1)).
  set (r := mkNode _ _ _ _ _ _ _ _ _ _ _ _ _ _ _).
  assert (tree (m_cur st) (m_next st) w) as Tw by (apply tree_meta; auto).
  assert (rec_ok r) as Hr 
    by (unfold r, rec_ok; simpl; split_and!; auto with prfs).
  destruct (create_tree _ _ _ r Tw Hmax Hr) as (T' & F' & V'); [by exists ty|done..|].
  edestruct (inv_now st (storeNode w (m_next st) (m_cur st) r)) as [I' A']; [done|exact T'| | |].
  - transitivity w; [apply frozen_meta; auto|done].
  - rewrite !(getMeta_same _ _ _ (same_meta_store _ _ _ _)). unfold w.
    rewrite !getMeta_put by word_lia. simpl. split_and!; first [done | apply I].
  - split; [exact I'|]. etrans; [exact A'|]. split_and!; try done.
    simpl. rewrite V'. unfold w, putMeta. by rewrite view_meta by auto.
Qed.

Lemma snapshot_sim st label :
  inv st → m_cur st + 1 < LATEST →
  inv (snapshot st label).2 ∧
  ∃ s', fs_step (abs st) (OpSnapshot label) OK s' ∧ abs (snapshot st label).2 ≡ s'.
Proof.
  intros I Hmax. pose proof I as [T Old Hroot Hclk Hmeta]. pose proof (tr_shape _ _ _ T) as Hsh.
  pose proof (shape_in64_cur _ _ _ Hsh). pose proof (sh_cur _ _ _ Hsh).
  unfold snapshot, end_txn. simpl. rewrite (u64_small (m_cur st + 1)) by (unfold LATEST in *; word_lia).
  set (w := t_put _ Snaps _ _).
  assert (∀ g, view w g = view (m_kv st) g) as V by (intros g; unfold w, putMeta; by rewrite !view_meta by auto).
  assert (∀ g, backlinks (m_kv st) g → backlinks w g) as B
    by (intros g ?; unfold w, putMeta; do 2 (apply backlinks_meta; [auto|]); done).
  assert (tree (m_cur st) (m_next st) w) as Tw by (do 2 (apply tree_meta; [auto|]); done).
  split; [split|]; simpl; try done.
  - by apply next_tree.
  - intros g Hg. rewrite V. destruct (decide (g = m_cur st)) as [->|].
    + split; [apply T|]. apply B, T.
    + destruct (Old g ltac:(lia)). split; [done|]. by apply B.
  - unfold w. rewrite !getMeta_snaps, !getMeta_put by (unfold LATEST in *; word_lia). simpl.
    split_and!; first [done | apply I].
  - eexists. split; [constructor|]. split_and!; simpl; try done.
    + rewrite <- V. apply (view_later _ _ _ _ (tr_shape _ _ _ Tw)); [lia|unfold LATEST in *; word_lia].
    + intros g Hg. rewrite V. destruct (Z.eqb_spec g (m_cur st)) as [->|]; done.
Qed.

Lemma put_sim st a h x :
  inv st → attr_ok a x →
  inv (attr_put a st h x) ∧
  abs (attr_put a st h x) ≡ set_now (v_update (attr_set a x) (h_id h) (f_now (abs st))) (abs st).
Proof.
  intros I Hx. pose proof (i_tree _ I) as T.
  replace (attr_put a st h x) with (mutateNode st (h_id h) (attr_set a x)) by by destruct a.
  unfold mutateNode, end_txn. simpl. destruct (loadNode _ _ _) as [r|] eqn:Hl.
  - destruct (storeNode_tree _ _ _ _ _ _ T Hl (attr_fn_put a x Hx)) as (T' & F & V).
    destruct (inv_kv st _ I T' F (same_meta_store _ _ _ _)) as [I' A]. split; [done|].
    by eapply set_now_equiv.
  - split; [done|]. split_and!; try done. intros y Hy. simpl. split; [|done].
    case_decide; [|done]. subst. by rewrite Hl.
Qed.

(** One operation, as a step of the abstract file system; the operations on one
    node leave everything but the live view. *)
Definition sims st (op : Op) (w : Error * Store M) : Prop :=
  inv w.2 ∧ ∃ s', fs_step (abs st) op w.1 s' ∧ abs w.2 ≡ s'.
Lemma sim_alloc st op ty blob spec :
  inv st → m_next st + 1 <= 2 ^ 63 → in64 spec → fs_step (abs st) op OK (fs_create ty blob spec (abs st)) →
  sims st op (OK, (alloc st ty blob spec).2).
Proof. intros I ???. destruct (alloc_sim st ty blob spec I) as [? ?]; [done..|]. split; [done|]. eauto. Qed.
Lemma sim_now st op (R : Error → View → Prop) w :
  inv w.2 ∧ (∃ v, R w.1 v ∧ abs w.2 ≡ set_now v (abs st)) →
  (∀ e v, R e v → fs_step (abs st) op e (set_now v (abs st))) → sims st op w.
Proof. intros (? & v & HR & ?) Hstep. split; [done|]. eauto. Qed.
Lemma sim_setBlob st h want b :
  inv st → ∀ op,
  (∀ e v, typed_res (f_now (abs st)) (h_id h) (λ z, z = tcode want) (set_blob b) e v → fs_step (abs st) op e (set_now v (abs st))) →
  sims st op (setBlob st h want b).
Proof.
  intros I op Hstep. eapply sim_now; [|exact Hstep]. unfold setBlob.
  pose proof (typed_sim st (h_id h) (λ z, z =? tcode want) _ (set_blob b) I (attr_fn_blob b) (λ z, Z.eqb_eq z _)) as H.
  destruct (loadNode _ _ _) as [r|]; [|done]. by destruct (r_type r =? tcode want).
Qed.
Lemma sim_setRdev st h maj min : inv st → in32 maj → in32 min → sims st (OpSetRdev h maj min) (setRdev st h maj min).
Proof.
  intros I ??. eapply sim_now; [|by apply FsSetRdev]. unfold setRdev. rewrite rdev_lor by done.
  assert (∀ z, (z =? tcode BLK) || (z =? tcode CHR) = true ↔ z = tcode BLK ∨ z = tcode CHR) as Hb
    by (intros z; by rewrite orb_true_iff, !Z.eqb_eq).
  pose proof (typed_sim st (h_id h) _ _ (set_spec (rdev_spec maj min)) I
    (attr_fn_spec _ (rdev_in64 maj min ltac:(done) ltac:(done))) Hb) as Hs.
  destruct (loadNode _ _ _) as [r|]; [|done]. rewrite <- negb_orb.
  by destruct ((r_type r =? tcode BLK) || (r_type r =? tcode CHR)).
Qed.
Lemma sim_setContentSeed st h seed : inv st → in64 seed → sims st (OpSetSeed h seed) (setContentSeed st h seed).
Proof.
  intros I ?. eapply sim_now; [|by apply FsSetSeed]. unfold setContentSeed.
  pose proof (typed_sim st (h_id h) (λ z, z =? tcode REG) _ (set_spec seed) I (attr_fn_spec seed ltac:(done)) (λ z, Z.eqb_eq z _)) as Hs.
  destruct (loadNode _ _ _) as [r|]; [|done]. by destruct (r_type r =? tcode REG).
Qed.
Lemma sim_setTime st tm : inv st → in64 tm → sims st (OpSetTime tm) (OK, setTime st tm).
Proof.
  intros I ?. pose proof (i_tree _ I). unfold sims, setTime, end_txn. simpl. split; [split|]; simpl; try done.
  - apply tree_meta; auto.
  - intros g Hg. unfold putMeta. rewrite view_meta by auto. split; [by apply I|].
    apply backlinks_meta; [auto|by apply I].
  - apply I.
  - rewrite !getMeta_put by done. simpl. split_and!; first [done | apply I].
  - eexists. split; [constructor|]. unfold putMeta. split_and!; simpl; try done; intros; by rewrite view_meta by auto.
Qed.
Lemma sim_setContentConfig st b : inv st → sims st (OpSetConfig b) (OK, setContentConfig st b).
Proof.
  intros I. unfold sims, setContentConfig, end_txn. simpl. split; [split|]; simpl; try apply I.
  - apply tree_meta; [auto|apply I].
  - intros g Hg. rewrite view_meta by auto. split; [by apply I|].
    apply backlinks_meta; [auto|by apply I].
  - rewrite !getMeta_config by done. split_and!; first [done | apply I].
  - eexists. split; [constructor|]. split_and!; simpl; try done; intros; by rewrite view_meta by auto.
Qed.
(** Every operation keeps the invariant and refines a step of the abstract
    file system. *)
Lemma exec_sim st op :
  inv st → op_ok st op →
  inv (exec st op).2 ∧ ∃ s', fs_step (abs st) op (exec st op).1 s' ∧ abs (exec st op).2 ≡ s'.
Proof.
  intros I Hok. pose proof (i_tree _ I) as T. fold (sims st op (exec st op)).
  destruct op; cbn [exec op_ok] in *; try (apply sim_alloc; [done..|constructor]).
  - destruct Hok as (? & ? & ?). unfold mknod. rewrite rdev_lor by done.
    apply sim_alloc; [done..|by apply rdev_in64|constructor].
  - destruct Hok as (? & ? & ?). eapply sim_now; [|by apply FsLink].
    apply finish_sim; [done|by apply linkT_refines|by apply linkT_tree|apply same_meta_link].
  - eapply sim_now; [|by apply FsUnlink].
    apply finish_sim; [done|by apply unlinkT_refines|by apply unlinkT_tree|apply same_meta_unlink].
  - destruct Hok as (? & ? & ?). eapply sim_now; [|by apply FsMove].
    edestruct (moveT_refines _ _ _ (h_id sd) sn (h_id dd) dn T) as [O T']; [done..|].
    apply finish_sim; [done|exact O|exact T'|apply same_meta_move].
  - apply sim_setBlob; [done|]. by apply FsSetContent.
  - apply sim_setBlob; [done|]. by apply FsSetTarget.
  - destruct Hok as (? & ? & ?). by apply sim_setRdev.
  - destruct Hok as (? & ?). by apply sim_setContentSeed.
  - destruct Hok as (? & ?). destruct (put_sim st a h x I) as [? ?]; [done|]. split; [done|].
    eexists. split; [constructor|done].
  - by apply sim_setTime.
  - by apply sim_setContentConfig.
  - exact (snapshot_sim st label I Hok).
Qed.
End Sim.
