(* ===== verification/Init.v ===== *)
(** * Init: a fresh store, reachable stores, and opening a store again

    The constructor on an empty engine establishes the invariant, so every
    store reached by operations whose arguments are in range satisfies it; and
    constructing a store over the data of another one gives the same store
    back (all its counters are persisted). *)
From S2P Require Import Prelude Keys Kv NodeRec Spec Store Views Shape Graph Links Inv.
Local Open Scope Z_scope.
Set Warnings "-clear-no-such-hyp".

Section Init.
Context {M : Type} `{!KvEngine M}.
Implicit Types (st : Store M) (t : KvData M).

Definition root_rec : NodeRec := mkNode (tcode DIR) 493 0 0 1 0 0 0 0 0 0 0 1 1 [].

Lemma rec_ok_root : rec_ok root_rec.
Proof. unfold rec_ok, root_rec; simpl; repeat split; lia. Qed.

Lemma kv_wf_new : kv_wf (kv_new (M:=M)).
Proof. split; intros k w; simpl; by rewrite kv_view_empty, lookup_empty. Qed.
Lemma node_new id s : node (kv_new (M:=M)) id s = None.
Proof. unfold node. simpl. by rewrite kv_view_empty, lookup_empty. Qed.
Lemma dn_new d v n : dn (kv_new (M:=M)) d v n = None.
Proof. unfold dn. simpl. by rewrite kv_view_empty, lookup_empty. Qed.
Lemma up_new c v d n : ¬ up (kv_new (M:=M)) c v d n.
Proof. unfold up. simpl. rewrite kv_view_empty, lookup_empty. by intros []. Qed.
Lemma chg_new s id : ¬ chg (kv_new (M:=M)) s id.
Proof. unfold chg. simpl. rewrite kv_view_empty, lookup_empty. by intros []. Qed.

(** The tables of a fresh store hold the root's record and nothing else. *)
Definition init_t : KvData M := storeNode kv_new 1 1 root_rec.

Lemma node_init id s :
  in64 id → in64 s → node init_t id s = if decide (id = 1 ∧ s = 1) then Some root_rec else None.
Proof.
  intros. unfold init_t. rewrite node_storeNode by (word_lia || apply rec_ok_root).
  by rewrite node_new.
Qed.

Lemma shape_init : shape 1 2 init_t.
Proof.
  split; try (unfold LATEST; lia).
  - apply kv_wf_storeNode; [apply kv_wf_new|word_lia..|apply rec_ok_root].
  - intros id s r ??. rewrite node_init by done. case_decide as E; [|done]. intros [= <-].
    destruct E as [-> ->]. split_and!; simpl; try lia. by exists DIR.
  - intros id s s' r r' ???. rewrite !node_init by done. repeat case_decide; naive_solver.
  - intros d v n c ??. unfold init_t. by rewrite dn_storeNode, dn_new.
  - intros c v d n ???. unfold init_t. by rewrite up_storeNode; intros ?%up_new.
  - intros s id ??. unfold init_t at 1. rewrite chg_storeNode, node_init by word_lia.
    pose proof (chg_new s id). case_decide; naive_solver.
Qed.

Lemma view_init : view init_t 1 ≡ v_create 1 (attrs root_rec) (mkView (λ _, None) (λ _ _, None)).
Proof.
  intros id Hid. simpl. unfold ent.
  assert (loadNode init_t id 1 = if decide (id = 1) then Some root_rec else None) as ->.
  { case_decide as E.
    - apply loadNode_exact; [apply shape_init|word_lia..|]. rewrite node_init by word_lia.
      by rewrite decide_True.
    - apply loadNode_None; [apply shape_init|word_lia..|]. intros s ??. rewrite node_init by done.
      by rewrite decide_False by naive_solver. }
  case_decide; [|done]. split; [done|]. intros n. unfold init_t. by rewrite dn_storeNode, dn_new.
Qed.

Lemma tree_init : tree 1 2 init_t.
Proof.
  split; [apply shape_init| |].
  - rewrite view_init. split.
    + by exists (attrs root_rec).
    + done.
    + intros c r Hc Hr. simpl in Hr. case_decide; [|done]. simplify_eq. exists []. split; [|done].
      split; [constructor|]. intros d n. simpl. split; [set_solver|naive_solver].
    + intros d (y & (_ & n & Hn) & _)%tc_inv. done.
  - intros c d n Hc Hd. rewrite (view_ent_eq _ _ _ d n view_init) by done. simpl. split; [|done].
    unfold par. destruct (loadNode init_t c 1) as [r|]; [|done]. unfold init_t. rewrite up_storeNode.
    by intros ?%up_new.
Qed.

Lemma getMeta_new key : getMeta (kv_new (M:=M)) key = None.
Proof. unfold getMeta. rewrite t_get_view. simpl. by rewrite kv_view_empty, lookup_empty. Qed.

Lemma init_eq :
  PrfsStore (kv_new (M:=M)) =
    mkStore (putMeta (putMeta (putMeta (putMeta init_t (str "root") 1) (str "next_node") 2)
               (str "cur_snap") 1) (str "clock") 0) 2 1 1 0.
Proof. unfold PrfsStore. rewrite getMeta_new. done. Qed.

Lemma inv_init : inv (PrfsStore (kv_new (M:=M))).
Proof.
  rewrite init_eq. split; cbn [m_cur m_next m_kv m_root m_clock]; try done.
  - do 4 (apply tree_meta; [auto|]). apply tree_init.
  - intros g Hg. lia.
  - rewrite !getMeta_put by done. done.
Qed.

Lemma inv_reachable st : reachable_from (PrfsStore (kv_new (M:=M))) st → inv st.
Proof. induction 1 as [|st op _ IH Hok]; [apply inv_init|]. by apply exec_sim. Qed.

Lemma reopen st : inv st → PrfsStore (m_kv st) = st.
Proof.
  intros I. destruct (i_meta _ I) as (H1 & H2 & H3 & H4). unfold PrfsStore, end_txn.
  rewrite H1, H2, H3, H4. simpl. by destruct st.
Qed.

(** *** Runs: sequences of operations, with a decidable side condition *)

Global Instance nlink_room_dec cur t c : Decision (nlink_room cur t c).
Proof.
  refine (match loadNode t c cur as o return loadNode t c cur = o → _ with
          | Some r => λ E, cast_if (decide (r_nlink r + 1 < 2 ^ 32))
          | None => λ E, left _
          end eq_refl); unfold nlink_room; rewrite E; naive_solver.
Defined.
Global Instance attr_ok_dec a x : Decision (attr_ok a x).
Proof. destruct a; simpl; apply _. Defined.
Global Instance op_ok_dec st op : Decision (op_ok st op).
Proof.
  destruct op; simpl; try apply _.
  refine (match ent (m_kv st) (m_cur st) (h_id sd) sn as o
          return ent (m_kv st) (m_cur st) (h_id sd) sn = o → _ with
          | Some c => λ E, cast_if (decide (in64 (h_id sd) ∧ in64 (h_id dd) ∧ nlink_room (m_cur st) (m_kv st) c))
          | None => λ E, cast_if (decide (in64 (h_id sd) ∧ in64 (h_id dd)))
          end eq_refl); rewrite E; naive_solver.
Defined.

Definition run st (ops : list Op) : Store M := fold_left (λ s op, (exec s op).2) ops st.
Fixpoint run_ok st (ops : list Op) : bool :=
  match ops with
  | [] => true
  | op :: ops' => bool_decide (op_ok st op) && run_ok (exec st op).2 ops'
  end.

Lemma reachable_run s0 st ops :
  reachable_from s0 st → run_ok st ops = true → reachable_from s0 (run st ops).
Proof.
  revert st. induction ops as [|op ops IH]; intros st Hr; simpl; [done|].
  intros [Hok%bool_decide_eq_true Hrun]%andb_true_iff. apply IH; [by constructor|done].
Qed.
End Init.

(** A small concrete store over the memory engine: the tree [/d/f], a
    snapshot, then [f] moved to the root as [g]. *)
Definition demo_ops : list Op :=
  [OpMkdir; OpLink (mkHandle 1 LATEST) (str "d") (mkHandle 2 LATEST);
   OpMkfile []; OpLink (mkHandle 2 LATEST) (str "f") (mkHandle 3 LATEST);
   OpSetTime 7; OpSnapshot (str "monday");
   OpMove (mkHandle 2 LATEST) (str "f") (mkHandle 1 LATEST) (str "g")].
Definition demo0 : Store (gmap bytes bytes) := PrfsStore kv_new.
Definition demo : Store (gmap bytes bytes) := run demo0 demo_ops.
Lemma demo_reachable : reachable_from demo0 demo.
Proof. apply reachable_run; [constructor|by vm_compute]. Qed.
Lemma demo_inv : inv demo.
Proof. apply inv_reachable, demo_reachable. Qed.
