(* ===== verification/Reads.v ===== *)
(** * Reads: what the read operations return, in terms of the abstract tree

    Lookup, listing (whole and by pages), parents and the synthesized
    [.snapshot] directories, each characterised by the view of the snapshot
    the handle reads at. *)
From S2P Require Import Prelude Keys Kv NodeRec Spec Store Views Shape Graph Links Inv.
Local Open Scope Z_scope.
Set Warnings "-clear-no-such-hyp".

(** ** Decimal snapshot names *)

Lemma bz_digit d : 0 <= d < 10 → bz (zb (48 + d)) = 48 + d.
Proof. intros. rewrite bz_zb. apply Z.mod_small. lia. Qed.

(** [to_string_loop] prepends the digits of its argument. *)
Lemma to_string_loop_acc fuel n acc : to_string_loop fuel n acc = to_string_loop fuel n [] ++ acc.
Proof.
  revert n acc. induction fuel as [|fuel IH]; intros n acc; simpl; [done|].
  case_match; [done|]. rewrite IH, (IH _ [_]), <- app_assoc. done.
Qed.

Lemma to_string_loop_S fuel n :
  to_string_loop (S fuel) n [] =
    (if n / 10 =? 0 then [] else to_string_loop fuel (n / 10) []) ++ [zb (48 + n mod 10)].
Proof. cbn [to_string_loop]. case_match; [done|]. apply to_string_loop_acc. Qed.

Lemma parseSnap_loop_app s1 s2 v :
  parseSnap_loop (s1 ++ s2) v = match parseSnap_loop s1 v with
                                | Some v' => parseSnap_loop s2 v'
                                | None => None
                                end.
Proof.
  revert v. induction s1 as [|c s1 IH]; intros v; simpl; [done|]. by destruct (_ || _).
Qed.

Lemma parseSnap_to_string_loop fuel n :
  0 <= n < 10 ^ Z.of_nat fuel → n < 2 ^ 64 →
  parseSnap_loop (to_string_loop fuel n []) 0 = Some n.
Proof.
  revert n. induction fuel as [|fuel IH]; intros n Hn Hmax.
  { simpl in *. f_equal. lia. }
  rewrite to_string_loop_S, parseSnap_loop_app.
  rewrite Nat2Z.inj_succ, Z.pow_succ_r in Hn by lia.
  pose proof (Z.mod_pos_bound n 10 ltac:(lia)). pose proof (Z.div_mod n 10 ltac:(lia)).
  assert (parseSnap_loop (if n / 10 =? 0 then [] else to_string_loop fuel (n / 10) []) 0 = Some (n / 10)) as ->.
  { destruct (Z.eqb_spec (n / 10) 0) as [->|]; [done|]. apply IH; [|lia].
    split; [apply Z.div_pos; lia|]. apply Z.div_lt_upper_bound; lia. }
  simpl. rewrite bz_digit by lia.
  replace (48 + n mod 10 <? 48) with false by (symmetry; apply Z.ltb_ge; lia).
  replace (57 <? 48 + n mod 10) with false by (symmetry; apply Z.ltb_ge; lia).
  simpl. f_equal. rewrite u64_small by word_lia. lia.
Qed.

Lemma to_string_nonempty n : to_string n ≠ [].
Proof.
  unfold to_string. change 20%nat with (S 19). rewrite to_string_loop_S. intros E.
  apply (f_equal length) in E. rewrite length_app in E. simpl in E. lia.
Qed.

Lemma parseSnap_spec n : in64 n → parseSnap (to_string n) = Some n.
Proof.
  intros Hn. unfold parseSnap. pose proof (to_string_nonempty n).
  destruct (to_string n) eqn:E; [done|]. rewrite <- E. unfold to_string.
  apply parseSnap_to_string_loop; word_lia.
Qed.

Lemma to_string_inj n m : in64 n → in64 m → to_string n = to_string m → n = m.
Proof. intros Hn Hm E. apply parseSnap_spec in Hn, Hm. congruence. Qed.

(** ** Pages *)

(** The page a cursor listing of [ents] returns: at most [max] of them, the
    last name as the cookie, end of listing when none is left. *)
Definition page_of (max : nat) (ents : list (bytes * Handle)) : DirPage :=
  mkPage (take max ents) (default [] (last (take max ents).*1)) (bool_decide (length ents <= max)%nat).

Lemma page_loop_spec max ents acc cookie :
  (length acc <= max)%nat →
  page_loop max ents acc cookie =
    mkPage (acc ++ take (max - length acc) ents)
           (default cookie (last (take (max - length acc) ents).*1))
           (bool_decide (length acc + length ents <= max)%nat).
Proof.
  revert acc cookie. induction ents as [|[n h] ents IH]; intros acc cookie Hl; simpl.
  - rewrite take_nil, app_nil_r, bool_decide_true by lia. done.
  - case_decide as E.
    + rewrite E, Nat.sub_diag, bool_decide_false by lia. by rewrite app_nil_r.
    + rewrite IH by (rewrite length_app; simpl; lia). rewrite length_app. simpl.
      replace (max - length acc)%nat with (S (max - (length acc + 1)))%nat by lia. simpl.
      rewrite <- app_assoc. f_equal.
      * rewrite last_cons. by destruct (last _).
      * apply bool_decide_ext. lia.
Qed.

Lemma page_loop_of max ents : page_loop max ents [] [] = page_of max ents.
Proof. rewrite page_loop_spec by (simpl; lia). simpl. by rewrite Nat.sub_0_r. Qed.

Lemma name_page_loop_filter max after ents acc cookie :
  name_page_loop max after ents acc cookie =
    page_loop max (filter (λ e, bytes_lt after e.1) ents) acc cookie.
Proof.
  revert acc cookie. induction ents as [|[n h] ents IH]; intros acc cookie; [done|].
  simpl. destruct (bytes_ltb after n) eqn:E; simpl.
  - rewrite filter_cons_True by done. simpl. case_decide; [done|apply IH].
  - rewrite filter_cons_False by (simpl; unfold bytes_lt; congruence). apply IH.
Qed.

Section Reads.
Context {M : Type} `{!KvEngine M}.
Implicit Types (st : Store M) (t : KvData M) (h dir : Handle) (n after : bytes).

(** The tree a handle reads. *)
Definition at_ st h : View := view (m_kv st) (rr st (h_snap h)).
(** A handle that names a stored node, read at a representable snapshot. *)
Definition plain st h : Prop :=
  isSnapDir (h_id h) = false ∧ in64 (h_id h) ∧ in64 (rr st (h_snap h)).

Lemma inv_shape st : inv st → shape (m_cur st) (m_next st) (m_kv st).
Proof. intros I. apply I. Qed.

Lemma readdir_load st h r :
  isSnapDir (h_id h) = false → loadNode (m_kv st) (h_id h) (rr st (h_snap h)) = Some r →
  readdir st h = prod_map id (λ c, mkHandle c (h_snap h)) <$> scanDownlinks (m_kv st) (h_id h) (r_dn r).
Proof. intros Hs Hl. unfold readdir. by rewrite Hs, Hl. Qed.

Lemma readdir_sorted st h : isSnapDir (h_id h) = false → StronglySorted name_lt (readdir st h).
Proof.
  intros Hs. unfold readdir. rewrite Hs. destruct (loadNode _ _ _) as [r|]; [|constructor].
  apply sorted_fmap with name_lt; [done|apply scanDownlinks_sorted].
Qed.

Lemma elem_of_readdir st h n x :
  inv st → plain st h →
  (n, x) ∈ readdir st h ↔ ∃ c, v_ent (at_ st h) (h_id h) n = Some c ∧ x = mkHandle c (h_snap h).
Proof.
  intros I (Hs & Hid & Hg). pose proof (inv_shape st I) as Hsh. unfold at_. simpl. unfold ent.
  destruct (loadNode (m_kv st) (h_id h) (rr st (h_snap h))) as [r|] eqn:Hl.
  - rewrite (readdir_load _ _ _ Hs Hl), list_elem_of_fmap.
    destruct (load_node _ _ _ _ _ _ Hsh Hg Hl) as (s & ? & ? & _ & _ & ?).
    split.
    + intros ([n' c] & Heq & Hin). simplify_eq/=. exists c. split; [|done].
      rewrite <- elem_of_scanDownlinks; [done|apply Hsh|word_lia..].
    + intros (c & Hc & ->). exists (n, c). split; [done|].
      apply elem_of_scanDownlinks; [apply Hsh|word_lia..|done].
  - unfold readdir. rewrite Hs, Hl. split; [set_solver|naive_solver].
Qed.

Lemma lookup_plain st h n :
  inv st → plain st h → n ≠ SNAPSHOT_NAME ∨ h_snap h ≠ LATEST →
  lookup_ st h n = (λ c, mkHandle c (h_snap h)) <$> v_ent (at_ st h) (h_id h) n.
Proof.
  intros I (Hs & Hid & Hg) Hn. unfold lookup_, at_. rewrite Hs. simpl. unfold ent.
  destruct (loadNode _ _ _) as [r|]; [|done].
  replace (bool_decide (n = SNAPSHOT_NAME) && (h_snap h =? LATEST) && (r_type r =? tcode DIR)) with false.
  - rewrite dn_t_get. by destruct (t_get _ _ _).
  - symmetry. apply andb_false_iff. left. apply andb_false_iff. destruct Hn as [Hn|Hn].
    + left. by apply bool_decide_eq_false.
    + right. by apply Z.eqb_neq.
Qed.

Lemma readdirPage_plain st dir after max :
  inv st → plain st dir →
  readdirPage st dir after max = page_of max (filter (λ e, bytes_lt after e.1) (readdir st dir)).
Proof.
  intros I (Hs & Hid & Hg). unfold readdirPage, readdir. rewrite Hs.
  destruct (loadNode _ _ _) as [r|]; [|by rewrite filter_nil; unfold page_of; rewrite take_nil].
  rewrite name_page_loop_filter, page_loop_of. f_equal.
  set (p := be (h_id dir) ++ be (r_dn r)). pose proof (bytes_le_app p after) as Hle.
  eapply (sorted_ext name_lt).
  - apply sorted_filter, sorted_fmap with name_lt; [done|]. by apply scan_at_sorted.
  - apply sorted_filter, sorted_fmap with name_lt; [done|]. apply scanDownlinks_sorted.
  - intros [n x]. rewrite !list_elem_of_filter. simpl. split.
    + intros [Hlt ([n' w] & E & Hin)%list_elem_of_fmap]. split; [done|]. simplify_eq/=.
      apply elem_of_scan_at in Hin as [_ Hin]; [|done].
      apply list_elem_of_fmap. exists (n', rdbe w). split; [done|].
      apply list_elem_of_fmap. exists (n', w). split; [done|]. by apply elem_of_scan.
    + intros [Hlt ([n' c] & E & Hc)%list_elem_of_fmap]. split; [done|].
      apply list_elem_of_fmap in Hc as ([n2 w] & E2 & Hin%elem_of_scan). simplify_eq/=.
      apply list_elem_of_fmap. exists (n2, w). split; [done|]. apply elem_of_scan_at; [done|]. split; [|done].
      unfold bytes_le. rewrite bytes_ltb_app. by apply bytes_ltb_asym.
Qed.

(** ** Listing a directory page by page *)

(** The client's loop: ask for pages from the returned cookie until the end. *)
Fixpoint collect (fuel : nat) st dir after (max : nat) : option (list (bytes * Handle)) :=
  match fuel with
  | O => None
  | S fuel' =>
      let p := readdirPage st dir after max in
      if pg_eof p then Some (pg_entries p)
      else (λ l, pg_entries p ++ l) <$> collect fuel' st dir (pg_cookie p) max
  end.

Lemma page_of_all max ents :
  (length ents <= max)%nat → pg_eof (page_of max ents) = true ∧ pg_entries (page_of max ents) = ents.
Proof. intros. simpl. rewrite bool_decide_true by done. by rewrite take_ge. Qed.

Lemma page_of_more max ents :
  (0 < max < length ents)%nat →
  ∃ n x, last (take max ents) = Some (n, x) ∧ page_of max ents = mkPage (take max ents) n false.
Proof.
  intros Hmax. unfold page_of. rewrite bool_decide_false by lia.
  destruct (last (take max ents)) as [[n x]|] eqn:E.
  - exists n, x. by rewrite fmap_last, E.
  - apply last_None in E. apply (f_equal length) in E. rewrite length_take in E. simpl in E. lia.
Qed.

Lemma collect_plain st dir max fuel after :
  inv st → plain st dir → (0 < max)%nat →
  let l := filter (λ e, bytes_lt after e.1) (readdir st dir) in
  (length l < fuel)%nat → collect fuel st dir after max = Some l.
Proof.
  intros I P Hmax. revert after. induction fuel as [|fuel IH]; intros after l Hf; [lia|].
  cbn [collect]. rewrite readdirPage_plain by done. fold l.
  destruct (decide (length l <= max)%nat) as [Hle|Hgt].
  { destruct (page_of_all max l Hle) as [-> ->]. done. }
  destruct (page_of_more max l ltac:(lia)) as (n & x & Hlast & ->). cbn [pg_eof pg_entries pg_cookie].
  assert (StronglySorted name_lt (readdir st dir)) as Hs by (apply readdir_sorted, P).
  assert (filter (λ e, bytes_lt n e.1) (readdir st dir) = drop max l) as Hd.
  { rewrite <- (filter_after_take name_lt l max (n, x)); [|by apply sorted_filter|done].
    unfold l. symmetry. apply list_filter_filter_l. intros [m y] Hlt. unfold name_lt in Hlt; simpl in *.
    apply last_Some_elem_of, elem_of_take in Hlast as (i & Hi%list_elem_of_lookup_2 & _).
    apply list_elem_of_filter in Hi as [Hi _]. simpl in Hi. by etrans. }
  rewrite IH by (rewrite Hd, length_drop; lia). rewrite Hd. simpl. by rewrite take_drop.
Qed.

(** ** Synthesized [.snapshot] directories *)

Lemma elem_of_snap_ids st base start (n : Z) :
  n ∈ snap_ids st base start ↔ start <= n < m_cur st ∧ existedAt (m_kv st) base n = true.
Proof. unfold snap_ids. rewrite list_elem_of_filter, elem_of_seqZ. naive_solver lia. Qed.
Lemma seqZ_sorted start len : StronglySorted Z.lt (seqZ start len).
Proof.
  destruct (decide (0 <= len)) as [Hl|]; [|by rewrite seqZ_nil by lia; constructor].
  revert start. pattern len. apply natlike_ind; [|intros n Hn IH start|done].
  - intros start. rewrite seqZ_nil by lia. constructor.
  - rewrite seqZ_cons by lia. constructor; [|].
    + rewrite Z.pred_succ. apply IH.
    + apply Forall_forall. intros m Hm%elem_of_seqZ. lia.
Qed.
Lemma snap_ids_sorted st base start : StronglySorted Z.lt (snap_ids st base start).
Proof. apply sorted_filter, seqZ_sorted. Qed.

Lemma snap_ids_after st base start c :
  start <= c → snap_ids st base (c + 1) = filter (Z.lt c) (snap_ids st base start).
Proof.
  intros. apply (sorted_ext Z.lt); [apply snap_ids_sorted|apply sorted_filter, snap_ids_sorted|].
  intros n. rewrite list_elem_of_filter, !elem_of_snap_ids. intuition lia.
Qed.

Lemma readdirPage_snap st dir after max start :
  isSnapDir (h_id dir) = true →
  (after = [] ∧ start = 1 ∨ ∃ c, after = to_string c ∧ in64 (c + 1) ∧ in64 c ∧ start = c + 1) →
  readdirPage st dir after max =
    page_of max (snap_entry (snapBase (h_id dir)) <$> snap_ids st (snapBase (h_id dir)) start).
Proof.
  intros Hs Hst. unfold readdirPage. rewrite Hs, page_loop_of. do 3 f_equal.
  destruct Hst as [[-> ->]|(c & -> & ? & ? & ->)]; [done|].
  rewrite parseSnap_spec by done. pose proof (to_string_nonempty c). destruct (to_string c); [done|].
  by apply u64_small.
Qed.

Lemma readdir_snap st dir :
  isSnapDir (h_id dir) = true →
  readdir st dir = snap_entry (snapBase (h_id dir)) <$> snap_ids st (snapBase (h_id dir)) 1.
Proof. intros Hs. unfold readdir. by rewrite Hs. Qed.

Lemma collect_snap_from st dir max fuel after start :
  inv st → isSnapDir (h_id dir) = true → (0 < max)%nat → 1 <= start →
  (after = [] ∧ start = 1 ∨ ∃ c, after = to_string c ∧ in64 (c + 1) ∧ in64 c ∧ start = c + 1) →
  (length (snap_ids st (snapBase (h_id dir)) start) < fuel)%nat →
  collect fuel st dir after max =
    Some (snap_entry (snapBase (h_id dir)) <$> snap_ids st (snapBase (h_id dir)) start).
Proof.
  intros I Hs Hmax. revert after start. induction fuel as [|fuel IH]; intros after start Hpos Hst Hf; [lia|].
  cbn [collect]. rewrite (readdirPage_snap st dir after max start) by done.
  set (base := snapBase (h_id dir)) in *. set (ids := snap_ids st base start) in *.
  destruct (decide (length ids <= max)%nat) as [Hle|Hgt].
  { destruct (page_of_all max (snap_entry base <$> ids)) as [-> ->]; [by rewrite length_fmap|done]. }
  destruct (page_of_more max (snap_entry base <$> ids)) as (n & x & Hlast & ->); [rewrite length_fmap; lia|].
  cbn [pg_eof pg_entries pg_cookie]. rewrite <- fmap_take, fmap_last in Hlast.
  apply fmap_Some in Hlast as (c & Hc & [= -> ->]).
  assert (c ∈ ids) as Hin.
  { apply last_Some_elem_of, elem_of_take in Hc as (i & Hi & _). by eapply list_elem_of_lookup_2. }
  apply elem_of_snap_ids in Hin as [Hr _]. pose proof (sh_cur _ _ _ (inv_shape st I)).
  assert (snap_ids st base (c + 1) = drop max ids) as Hd.
  { rewrite (snap_ids_after st base start c) by lia.
    apply (filter_after_take Z.lt); [apply snap_ids_sorted|done]. }
  rewrite (IH _ (c + 1)); [|lia| |rewrite Hd, length_drop; lia].
  - rewrite Hd. simpl. by rewrite fmap_drop, take_drop.
  - right. exists c. unfold LATEST in *. split_and!; (done || word_lia).
Qed.

Lemma lookup_snap st dir n c :
  isSnapDir (h_id dir) = true →
  lookup_ st dir n = Some c ↔
    ∃ g, parseSnap n = Some g ∧ g ∈ snap_ids st (snapBase (h_id dir)) 1 ∧
      c = mkHandle (snapBase (h_id dir)) g.
Proof.
  intros Hs. unfold lookup_. rewrite Hs. destruct (parseSnap n) as [g|]; [|naive_solver].
  destruct ((g <? 1) || (m_cur st <=? g) || negb (existedAt (m_kv st) (snapBase (h_id dir)) g)) eqn:E.
  - split; [done|]. intros (g' & [= <-] & Hin%elem_of_snap_ids & ->). exfalso.
    destruct Hin as [Hr He]. rewrite He, orb_false_r, orb_true_iff in E.
    rewrite Z.ltb_lt, Z.leb_le in E. lia.
  - rewrite !orb_false_iff, Z.ltb_ge, Z.leb_gt, negb_false_iff in E. destruct E as [[? ?] ?].
    split; [|naive_solver]. intros [= <-]. exists g. split_and!; [done| |done].
    apply elem_of_snap_ids. split; [lia|done].
Qed.

(** A snapshot is a valid resolution point: sealed, or the current one. *)
Definition live st h : Prop := 1 <= rr st (h_snap h) <= m_cur st.

Lemma live_in64 st h : inv st → live st h → in64 (rr st (h_snap h)).
Proof. intros I L. pose proof (sh_cur _ _ _ (inv_shape st I)). unfold LATEST, live in *. word_lia. Qed.
Lemma inv_at st g : inv st → 1 <= g <= m_cur st → graph (view (m_kv st) g) ∧ backlinks (m_kv st) g.
Proof.
  intros I Hg. destruct (decide (g = m_cur st)) as [->|]; [split; apply I|].
  apply I. lia.
Qed.

Lemma parents_loop_spec (ks : list bytes) (seen : gset Z) :
  NoDup (parents_loop ks seen) ∧
  ∀ x, x ∈ parents_loop ks seen ↔ (x ∉ seen) ∧ ∃ k, k ∈ ks ∧ x = rdbe k.
Proof.
  revert seen. induction ks as [|k ks IH]; intros seen; simpl.
  { split; [constructor|]. set_solver. }
  case_decide as E.
  - destruct (IH seen) as [Hnd Hin]. split; [done|]. intros x. rewrite Hin. set_solver.
  - destruct (IH ({[rdbe k]} ∪ seen)) as [Hnd Hin]. split.
    + constructor; [|done]. rewrite Hin. set_solver.
    + intros x. rewrite elem_of_cons, Hin. destruct (decide (x = rdbe k)); set_solver.
Qed.

Lemma parents_spec st h :
  inv st → in64 (h_id h) → live st h →
  NoDup (parents st h) ∧
  ∀ x, x ∈ parents st h ↔
    ∃ d n, in64 d ∧ v_ent (at_ st h) d n = Some (h_id h) ∧ x = mkHandle d (h_snap h).
Proof.
  intros I Hid L. pose proof (live_in64 _ _ I L) as Hg. pose proof (inv_shape st I) as Hsh.
  destruct (inv_at st _ I L) as [G B]. unfold parents, at_. cbn [v_ent view].
  destruct (loadNode (m_kv st) (h_id h) (rr st (h_snap h))) as [r|] eqn:Hl.
  - change (scan (sub (m_kv st) UpLinks) (be (h_id h) ++ be (r_up r))).*1 with (upscan (m_kv st) (h_id h) (r_up r)).
    destruct (parents_loop_spec (upscan (m_kv st) (h_id h) (r_up r)) ∅) as [Hnd Hin].
    destruct (load_node _ _ _ _ _ _ Hsh Hg Hl) as (s & ? & ? & _ & _ & ?).
    split; [apply NoDup_fmap_2; [intros x y E; by simplify_eq|done]|].
    intros x. rewrite list_elem_of_fmap. setoid_rewrite Hin.
    assert (∀ d n, in64 d → up (m_kv st) (h_id h) (r_up r) d n ↔
      ent (m_kv st) (rr st (h_snap h)) d n = Some (h_id h)) as Hup.
    { intros d n Hd. rewrite <- (B (h_id h) d n) by done. unfold par. by rewrite Hl. }
    split.
    + intros (d & -> & _ & k & Hk & ->). apply elem_of_upscan in Hk; [|apply Hsh|word_lia..].
      destruct Hk as (d & n & Hd & -> & Hu). rewrite rdbe_be by done. exists d, n. by rewrite <- Hup.
    + intros (d & n & Hd & He & ->). exists d. split; [done|]. split; [set_solver|].
      exists (be d ++ n). rewrite rdbe_be by done. split; [|done].
      apply elem_of_upscan; [apply Hsh|word_lia..|]. exists d, n. by rewrite Hup.
  - split; [constructor|]. intros x. split; [set_solver|]. intros (d & n & Hd & He & _).
    destruct (gr_ent _ G d n _ Hd He) as (_ & _ & _ & [r' Hr']). simpl in Hr'. by rewrite Hl in Hr'.
Qed.

(** ** Attributes *)

Lemma readNode_plain st h :
  isSnapDir (h_id h) = false →
  attrs (readNode st (h_id h) (h_snap h)) = default NodeRec0 (v_attr (at_ st h) (h_id h)).
Proof.
  intros Hs. unfold readNode, readNode_at, at_. rewrite Hs. simpl. by destruct (loadNode _ _ _).
Qed.

(** Everything a handle at a sealed snapshot can read: attributes, entries
    and parents. *)
Definition observe st h : NodeRec * list (bytes * Handle) * list Handle :=
  (attrs (readNode st (h_id h) (h_snap h)), readdir st h, parents st h).
End Reads.
