(* ===== verification/Paths.v ===== *)
(** * Paths: path names in the tree of a view

    A path from the root, as text and as a list of names; what it resolves to
    through the store's [lookup]; and how a view grows when nodes and names are
    only added, which keeps every path. *)
From S2P Require Import Prelude Keys Kv NodeRec Spec Store Views Shape Graph Links Inv Init Reads.
Local Open Scope Z_scope.
Set Warnings "-clear-no-such-hyp".

(** ** Path names *)

Definition slash_b : byte := "/"%byte.
(** The names between the slashes of a path. *)
Fixpoint components (cur s : bytes) : list bytes :=
  match s with
  | [] => match cur with [] => [] | _ => [cur] end
  | c :: s' =>
      if decide (c = slash_b) then match cur with [] => components [] s' | _ => cur :: components [] s' end
      else components (cur ++ [c]) s'
  end.
Definition join (ns : list bytes) : bytes := concat ((λ n, slash_b :: n) <$> ns).
Definition a_name (n : bytes) : Prop := n ≠ [] ∧ slash_b ∉ n.

Lemma components_name n cur s : slash_b ∉ n → components cur (n ++ s) = components (cur ++ n) s.
Proof.
  revert cur. induction n as [|c n IH]; intros cur Hn; [by rewrite app_nil_r|].
  rewrite not_elem_of_cons in Hn. destruct Hn as [Hc Hn]. simpl. rewrite decide_False by congruence.
  rewrite IH by done. by rewrite <- app_assoc.
Qed.
Lemma components_join ns : Forall a_name ns → components [] (join ns) = ns.
Proof.
  assert (∀ cur, Forall a_name ns → components cur (join ns) = match cur with [] => ns | _ => cur :: ns end) as H.
  { induction ns as [|n ns IH]; intros cur Hns; [by destruct cur|].
    inversion_clear Hns as [|? ? [Hn Hs] Hns']. cbn [join fmap list_fmap concat]. simpl.
    rewrite components_name by done. fold (join ns). simpl. rewrite IH by done. destruct n; [done|]. by destruct cur. }
  apply H.
Qed.
Lemma join_snoc ns n : join (ns ++ [n]) = join ns ++ str "/" ++ n.
Proof. unfold join. rewrite fmap_app, concat_app. simpl. by rewrite app_nil_r. Qed.

(** ** Walking a view *)

Fixpoint v_walk (v : View) (d : Z) (ns : list bytes) : option Z :=
  match ns with [] => Some d | n :: ns' => c ← v_ent v d n; v_walk v c ns' end.
Lemma v_walk_snoc v d ns n : v_walk v d (ns ++ [n]) = (c ← v_walk v d ns; v_ent v c n).
Proof.
  revert d. induction ns as [|m ns IH]; intros d; simpl; [by destruct (v_ent v d n)|].
  destruct (v_ent v d m); simpl; [apply IH|done].
Qed.

(** The path [p] leads from the root to [c]. *)
Definition has_path (v : View) (p : bytes) (c : Z) : Prop :=
  ∃ ns, p = join ns ∧ Forall a_name ns ∧ v_walk v 1 ns = Some c.
Lemma has_path_root v : has_path v [] 1.
Proof. by exists []. Qed.
Lemma has_path_snoc v p d n c :
  has_path v p d → v_ent v d n = Some c → a_name n → has_path v (p ++ str "/" ++ n) c.
Proof.
  intros (ns & -> & Hns & Hw) He Hn. exists (ns ++ [n]). rewrite join_snoc, v_walk_snoc, Hw.
  split; [done|]. split; [|done]. apply Forall_app. by rewrite Forall_singleton.
Qed.

(** ** Growth *)

(** Names stay, nodes keep their type and their data. *)
Record grows (v w : View) : Prop := {
  g_ent d n c : in64 d → v_ent v d n = Some c → v_ent w d n = Some c;
  g_attr x r : in64 x → v_attr v x = Some r →
    ∃ r', v_attr w x = Some r' ∧ r_type r' = r_type r ∧ r_blob r' = r_blob r
}.
Global Instance grows_refl : Reflexive grows.
Proof. intros v. split; eauto. Qed.
Global Instance grows_trans : Transitive grows.
Proof.
  intros u v w [H1 H2] [H3 H4]. split; [eauto|]. intros x r Hx Hr.
  destruct (H2 x r Hx Hr) as (r1 & Hr1 & E1 & E2). destruct (H4 x r1 Hx Hr1) as (r2 & ? & ? & ?).
  exists r2. split_and!; congruence.
Qed.
Global Instance grows_proper : Proper ((≡@{View}) ==> (≡@{View}) ==> iff) grows.
Proof.
  intros v v' Hv w w' Hw.
  assert (∀ a a' b b' : View, a ≡ a' → b ≡ b' → grows a b → grows a' b') as Hone.
  { intros a a' b b' Ha Hb [G1 G2]. split.
    - intros d n c Hd. rewrite <- (proj2 (Ha d Hd)), <- (proj2 (Hb d Hd)). by apply G1.
    - intros x r Hx. rewrite <- (proj1 (Ha x Hx)), <- (proj1 (Hb x Hx)). by apply G2. }
  split; by apply Hone.
Qed.

Lemma grows_create v c r : v_attr v c = None → grows v (v_create c r v).
Proof. intros Hc. split; [done|]. intros x rx _ Hx. simpl. rewrite decide_False by congruence. eauto. Qed.
Lemma grows_update v f c :
  (∀ r, r_type (f r) = r_type r ∧ r_blob (f r) = r_blob r) → grows v (v_update f c v).
Proof.
  intros Hf. split; [done|]. intros x rx _ Hx. simpl. case_decide; [|eauto]. rewrite Hx. destruct (Hf rx). simpl. eauto.
Qed.
Lemma grows_link v d n c : v_ent v d n = None → grows v (v_link d n c v).
Proof.
  intros Hn. split.
  - intros d' n' c' _ He. simpl. rewrite decide_False; [done|]. intros [-> ->]. congruence.
  - intros x r _ Hr. simpl. case_decide; [|eauto]. rewrite Hr. exists (inc_nlink r). by destruct r.
Qed.

Lemma grows_dir v w d : grows v w → in64 d → is_dir v d → is_dir w d.
Proof. intros [_ G] Hd (r & Hr & E). destruct (G d r Hd Hr) as (r' & ? & ? & _). exists r'. split; congruence. Qed.
Lemma grows_walk v w d ns c : graph v → grows v w → in64 d → v_walk v d ns = Some c → v_walk w d ns = Some c.
Proof.
  intros G Hg. revert d. induction ns as [|n ns IH]; intros d Hd; simpl; [done|].
  destruct (v_ent v d n) as [x|] eqn:E; [|done]. simpl. rewrite (g_ent _ _ Hg _ _ _ Hd E). simpl.
  apply IH. by apply (gr_ent _ G d n x).
Qed.
Lemma grows_path v w p c : graph v → grows v w → has_path v p c → has_path w p c.
Proof. intros G Hg (ns & -> & Hns & Hw). exists ns. split_and!; [done..|]. by eapply grows_walk. Qed.

(** What a path leads to is a node. *)
Lemma walk_node v d ns c :
  graph v → in64 d → is_Some (v_attr v d) → v_walk v d ns = Some c → in64 c ∧ is_Some (v_attr v c).
Proof.
  intros G. revert d. induction ns as [|n ns IH]; intros d Hd Ha; simpl; [by intros [= <-]|].
  destruct (v_ent v d n) as [x|] eqn:E; [|done]. destruct (gr_ent _ G d n x Hd E) as (_ & _ & ? & ?). by apply IH.
Qed.
Lemma path_node v p c : graph v → has_path v p c → in64 c ∧ is_Some (v_attr v c).
Proof.
  intros G (ns & _ & _ & Hw). eapply walk_node; [done| | |exact Hw]; [word_lia|].
  destruct (gr_root _ G) as (r & Hr & _). by exists r.
Qed.

(** ** Trees that are all linked, with symbolic links that lead to files *)

Definition is_reg (v : View) (c : Z) : Prop := in64 c ∧ ∃ r, v_attr v c = Some r ∧ r_type r = tcode REG.
Lemma grows_reg v w c : grows v w → is_reg v c → is_reg w c.
Proof. intros [_ G] (Hc & r & Hr & E). destruct (G c r Hc Hr) as (r' & ? & ? & _). split; [done|]. exists r'. split; congruence. Qed.
Definition links_file (v : View) (p : bytes) : Prop := ∃ f, has_path v p f ∧ is_reg v f.

(** Every node from [n0] on has a path, and every symbolic link among them
    names the path of a regular file. *)
Record tree_ok (n0 next : Z) (v : View) : Prop := {
  t_path c : n0 <= c < next → ∃ p, has_path v p c;
  t_sym c r : n0 <= c → in64 c → v_attr v c = Some r → r_type r = tcode LNK → links_file v (r_blob r)
}.
Lemma tree_ok_step n0 next next' v w :
  graph v → grows v w → tree_ok n0 next v →
  (∀ c, next <= c < next' → ∃ p, has_path w p c) →
  (∀ c r, in64 c → v_attr v c = None → v_attr w c = Some r → r_type r = tcode LNK → links_file w (r_blob r)) →
  tree_ok n0 next' w.
Proof.
  intros G Hg [T1 T2] Hp Hs. split.
  - intros c Hc. destruct (decide (c < next)); [|apply Hp; lia]. destruct (T1 c) as [p ?]; [lia|].
    exists p. by eapply grows_path.
  - intros c r Hc Hc64 Hr Hty. destruct (v_attr v c) as [r0|] eqn:E; [|by eapply Hs].
    destruct (g_attr _ _ Hg c r0 Hc64 E) as (r' & Hr' & E1 & E2).
    assert (r' = r) as -> by congruence. destruct (T2 c r0 Hc Hc64 E) as (f & Hf & Hreg); [congruence|].
    exists f. rewrite E2. split; [by eapply grows_path|by eapply grows_reg].
Qed.
Lemma tree_ok_equiv n0 next v w : v ≡ w → graph v → tree_ok n0 next v → tree_ok n0 next w.
Proof.
  intros E G T. assert (grows v w) as Hg by by rewrite <- E.
  eapply tree_ok_step; [done..| |].
  - intros c ?. lia.
  - intros c r Hc. rewrite (proj1 (E c Hc)). congruence.
Qed.

(** ** On the store *)

Section Resolve.
Context {M : Type} `{!KvEngine M}.
Implicit Types (st : Store M).

Fixpoint walk_names st (h : Handle) (ns : list bytes) : option Handle :=
  match ns with [] => Some h | n :: ns' => c ← lookup_ st h n; walk_names st c ns' end.
(** What the path [p] leads to in the live tree. *)
Definition resolve st (p : bytes) : option Handle := walk_names st (rwRoot st) (components [] p).

(** The live tree. *)
Definition vw st : View := view (m_kv st) (m_cur st).
Lemma vw_graph st : inv st → graph (vw st).
Proof. intros I. pose proof (sh_cur _ _ _ (inv_shape st I)). by destruct (inv_at st (m_cur st) I ltac:(lia)). Qed.
Lemma live_rr st : rr st LATEST = m_cur st.
Proof. unfold rr. by rewrite Z.eqb_refl. Qed.
Lemma vw_ids st c r : inv st → in64 c → v_attr (vw st) c = Some r → 1 <= c < m_next st.
Proof.
  intros I Hc. simpl. destruct (loadNode _ _ _) as [r0|] eqn:Hl; [|done]. intros _.
  pose proof (inv_shape st I) as Hsh. assert (in64 (m_cur st)) as Hg by by eapply shape_in64_cur.
  by destruct (load_node _ _ _ _ _ _ Hsh Hg Hl) as (s & _ & _ & _ & _ & ? & _).
Qed.
Lemma vw_fresh st : inv st → v_attr (vw st) (m_next st) = None.
Proof. intros I. simpl. by rewrite (load_fresh _ _ _ (inv_shape st I)). Qed.
Lemma id_not_snapdir st c : inv st → 1 <= c < m_next st → isSnapDir c = false.
Proof.
  intros I Hc. pose proof (sh_next _ _ _ (inv_shape st I)). rewrite isSnapDir_spec by word_lia.
  apply Z.leb_gt. lia.
Qed.
Lemma is_dir_ids st d : inv st → in64 d → is_dir (vw st) d → 1 <= d < m_next st.
Proof. intros I Hd (r & Hr & _). by eapply vw_ids. Qed.

Lemma lookup_live st d n c :
  inv st → in64 d → v_ent (vw st) d n = Some c → lookup_ st (mkHandle d LATEST) n = Some (mkHandle c LATEST).
Proof.
  intros I Hd He. destruct (gr_ent _ (vw_graph st I) d n c Hd He) as (Hn & Hdir & _).
  pose proof (is_dir_ids st d I Hd Hdir). pose proof (sh_cur _ _ _ (inv_shape st I)).
  rewrite lookup_plain; [|done| |by left].
  - unfold at_. cbn [h_id h_snap]. rewrite live_rr. fold (vw st). by rewrite He.
  - split_and!; [by eapply id_not_snapdir|done|]. cbn [h_snap]. rewrite live_rr. unfold LATEST in *. word_lia.
Qed.
Lemma resolve_path st p c : inv st → has_path (vw st) p c → resolve st p = Some (mkHandle c LATEST).
Proof.
  intros I (ns & -> & Hns & Hw). unfold resolve, rwRoot. rewrite components_join by done. rewrite (i_root _ I).
  assert (in64 1) as H1 by word_lia. clear Hns. revert H1 Hw. set (d := 1). clearbody d. revert d.
  induction ns as [|n ns IH]; intros d Hd; cbn [v_walk walk_names]; [by intros [= ->]|].
  destruct (v_ent (vw st) d n) as [x|] eqn:E; [|done]. simpl. rewrite (lookup_live st d n x) by done. simpl.
  apply IH. by apply (gr_ent _ (vw_graph st I) d n x).
Qed.
Lemma read_live st c r : inv st → in64 c → v_attr (vw st) c = Some r →
  let h := mkHandle c LATEST in
  n_type st h = r_type r ∧ n_size st h = r_size r ∧ (r_type r = tcode LNK → n_target st h = r_blob r).
Proof.
  intros I Hc Hr. pose proof (id_not_snapdir st c I (vw_ids st c r I Hc Hr)) as Hs. simpl.
  unfold n_type, n_size, n_target, readNode, readNode_at. cbn [h_id h_snap]. rewrite Hs, live_rr.
  simpl in Hr. destruct (loadNode _ _ _) as [r0|]; [|done]. injection Hr as <-.
  destruct r0. simpl. split_and!; [done..|]. by intros ->.
Qed.
End Resolve.
