(* ===== verification/CStr.v ===== *)
(** * CStr: numbers in C strings

    What the code uses of the C++ library to read a decimal number: [strtoul] in
    the NFSv4 front-end, [atoi] for its port, [std::stoll] and [std::stoull] in the
    other plugins; and that they read back what [std::to_string] prints. *)
From S2P Require Import Prelude Keys Kv Store Reads.
Local Open Scope Z_scope.
Set Warnings "-clear-no-such-hyp".

Definition is_digit (c : byte) : bool := (48 <=? bz c) && (bz c <=? 57).
Definition isspace (c : byte) : bool := (bz c =? 32) || ((9 <=? bz c) && (bz c <=? 13)).
Fixpoint c_digits (s : bytes) (v : Z) : Z :=
  match s with
  | c :: s' => if (48 <=? bz c) && (bz c <=? 57) then c_digits s' (v * 10 + (bz c - 48)) else v
  | [] => v
  end.
Fixpoint c_skip_space (s : bytes) : bytes :=
  match s with c :: s' => if isspace c then c_skip_space s' else s | [] => [] end.
(** White space, then a sign: whether it is negative, and the rest. *)
Definition c_sign (s : bytes) : bool * bytes :=
  match c_skip_space s with
  | c :: s' => if bz c =? 45 then (true, s') else if bz c =? 43 then (false, s') else (false, c :: s')
  | [] => (false, [])
  end.
(** A number with its sign; [None] is [std::invalid_argument]. What follows the
    digits is ignored. *)
Definition c_number (s : bytes) : option (bool * Z) :=
  let '(neg, s) := c_sign s in
  match s with
  | c :: _ => if is_digit c then Some (neg, c_digits s 0) else None
  | [] => None
  end.
(** [None] is also [std::out_of_range]; a negative number wraps for [stoull]. *)
Definition stoll (s : bytes) : option Z :=
  '(neg, v) ← c_number s;
  let x := if (neg : bool) then - v else v in
  if bool_decide (- 2 ^ 63 <= x < 2 ^ 63) then Some x else None.
Definition stoull (s : bytes) : option Z :=
  '(neg, v) ← c_number s;
  if v <? 2 ^ 64 then Some (if (neg : bool) then u64 (- v) else v) else None.
(** [atoi]: [strtol] clips to 64 bits, the conversion to [int] keeps 32. *)
Definition s32 (z : Z) : Z := (z + 2 ^ 31) mod 2 ^ 32 - 2 ^ 31.
Definition atoi (s : bytes) : Z :=
  let '(neg, s) := c_sign s in
  let v := c_digits s 0 in
  s32 (Z.max (- 2 ^ 63) (Z.min (2 ^ 63 - 1) (if (neg : bool) then - v else v))).

(** ** Lemmas *)

Lemma is_digit_zb d : 0 <= d < 10 → is_digit (zb (48 + d)) = true ∧ bz (zb (48 + d)) - 48 = d.
Proof.
  intros Hd. unfold is_digit. rewrite bz_zb, Z.mod_small by lia. split; [|lia].
  apply andb_true_iff. rewrite !Z.leb_le. lia.
Qed.
Lemma c_digits_app s1 s2 v :
  Forall (λ c, is_digit c = true) s1 → c_digits (s1 ++ s2) v = c_digits s2 (c_digits s1 v).
Proof.
  intros Hs. revert v. induction Hs as [|c s1 Hc _ IH]; intros v; [done|]. simpl. unfold is_digit in Hc. rewrite Hc. apply IH.
Qed.
Lemma to_string_loop_digits fuel n :
  0 <= n < 10 ^ Z.of_nat fuel →
  Forall (λ c, is_digit c = true) (to_string_loop fuel n []) ∧ c_digits (to_string_loop fuel n []) 0 = n.
Proof.
  revert n. induction fuel as [|fuel IH]; intros n Hn.
  { simpl in *. split; [done|lia]. }
  pose proof (Z.mod_pos_bound n 10 ltac:(lia)). pose proof (Z.div_mod n 10 ltac:(lia)).
  destruct (is_digit_zb (n mod 10)) as [Hd Hv]; [done|].
  assert (0 <= n / 10 < 10 ^ Z.of_nat fuel) as Hq.
  { rewrite Nat2Z.inj_succ, Z.pow_succ_r in Hn by lia. split; [apply Z.div_pos; lia|apply Z.div_lt_upper_bound; lia]. }
  rewrite to_string_loop_S. destruct (IH _ Hq) as [IH1 IH2].
  assert (∀ s v, Forall (λ c, is_digit c = true) s → c_digits s 0 = v →
    Forall (λ c, is_digit c = true) (s ++ [zb (48 + n mod 10)]) ∧
    c_digits (s ++ [zb (48 + n mod 10)]) 0 = v * 10 + n mod 10) as Hsnoc.
  { intros s v Hs <-. split; [apply Forall_app; split; [done|by apply Forall_singleton]|].
    rewrite c_digits_app by done. cbn [c_digits]. unfold is_digit in Hd. rewrite Hd, Hv. done. }
  destruct (Z.eqb_spec (n / 10) 0) as [E|E].
  - destruct (Hsnoc [] 0) as [H1 H2]; [done..|]. split; [done|]. rewrite H2. lia.
  - destruct (Hsnoc _ _ IH1 IH2) as [H1 H2]. split; [done|]. rewrite H2. lia.
Qed.
Lemma length_to_string n : (length (to_string n) <= 20)%nat.
Proof.
  assert (∀ fuel n, (length (to_string_loop fuel n []) <= fuel)%nat) as H; [|apply H].
  induction fuel as [|fuel IH]; intros m; [done|]. rewrite to_string_loop_S, length_app. specialize (IH (m / 10)).
  destruct (_ =? 0); simpl; lia.
Qed.

Lemma to_string_digits n : in64 n → Forall (λ c, is_digit c = true) (to_string n) ∧ c_digits (to_string n) 0 = n.
Proof. intros Hn. apply to_string_loop_digits. simpl. word_lia. Qed.

(** A printed number is read back, whatever follows its digits. *)
Lemma c_number_to_string n s :
  in64 n → (∀ c s', s = c :: s' → is_digit c = false) → c_number (to_string n ++ s) = Some (false, n).
Proof.
  intros Hn Hs. destruct (to_string_digits n Hn) as [Hd Hv]. pose proof (to_string_nonempty n).
  assert (c_digits s n = n) as Hrest.
  { destruct s as [|c s']; [done|]. specialize (Hs c s' eq_refl). unfold is_digit in Hs. cbn [c_digits]. by rewrite Hs. }
  unfold c_number, c_sign. destruct (to_string n) as [|c l] eqn:E; [done|].
  pose proof (c_digits_app (c :: l) s 0 Hd) as Happ. rewrite Hv, Hrest in Happ.
  inversion_clear Hd as [|? ? Hc _]. pose proof Hc as Hc'. unfold is_digit in Hc'. rewrite andb_true_iff, !Z.leb_le in Hc'.
  assert (isspace c = false) as Hsp.
  { unfold isspace. rewrite orb_false_iff, andb_false_iff, !Z.leb_gt, Z.eqb_neq. lia. }
  rewrite <- app_comm_cons in *. cbn [c_skip_space].
  rewrite Hsp, (proj2 (Z.eqb_neq _ 45)), (proj2 (Z.eqb_neq _ 43)), Hc by lia. by rewrite Happ.
Qed.
Lemma stoull_to_string n s :
  in64 n → (∀ c s', s = c :: s' → is_digit c = false) → stoull (to_string n ++ s) = Some n.
Proof. intros Hn Hs. unfold stoull. rewrite c_number_to_string by done. cbn. rewrite (proj2 (Z.ltb_lt _ _)); [done|apply Hn]. Qed.
