(* ===== verification/Diff.v ===== *)
(** * Diff: whole-store scans, snapshot comparison and statistics

    [eachEffNode] visits every node that exists at a snapshot exactly once,
    with the record it has there; the change records between two snapshots
    cover every node that differs ([candidates]); so [stats], [diffNodes] and
    [diffPaths] are characterised by the views of the snapshots. *)
From S2P Require Import Prelude Keys Kv NodeRec Spec Store Views Shape Graph Links Inv Reads.
Local Open Scope Z_scope.
Set Warnings "-clear-no-such-hyp".

Section Eff.
Context {M : Type} `{!KvEngine M}.
Implicit Types (t : KvData M) (rg id : Z).

Definition rec_of t (k : bytes) : NodeRec := deserialize (default [] (t_get t Nodes k)).
Definition effk rg id (k : bytes) : Prop := rdbe k = id ∧ rdbe (drop 8 k) <= rg.
Local Instance effk_dec rg id k : Decision (effk rg id k).
Proof. unfold effk. apply _. Defined.
(** The last of the keys of [id] at or before [rg]. *)
Definition pick rg id (ks : list bytes) : option bytes := last (filter (effk rg id) ks).

Lemma pick_cons rg id k ks :
  pick rg id (k :: ks) =
    match pick rg id ks with Some k' => Some k' | None => if decide (effk rg id k) then Some k else None end.
Proof.
  unfold pick. rewrite filter_cons. case_decide; [|by destruct (last _)].
  rewrite last_cons. by destruct (last _).
Qed.
Lemma pick_elem rg id ks k : pick rg id ks = Some k → k ∈ ks ∧ effk rg id k.
Proof. intros [??]%last_Some_elem_of%list_elem_of_filter. done. Qed.

Definition ids_le : relation bytes := λ k k', rdbe k <= rdbe k'.

Lemma elem_of_eff_loop t rg ks cur ch id r :
  StronglySorted ids_le ks → Forall (λ k, cur <= rdbe k) ks →
  (id, r) ∈ eff_loop t rg ks cur ch ↔
    match pick rg id ks with
    | Some k => r = rec_of t k
    | None => id = cur ∧ ch = Some r
    end.
Proof.
  intros Hs. revert cur ch. induction Hs as [|k ks Hs IH H0]; intros cur ch Hge.
  { simpl. destruct ch as [r'|]; simpl; [rewrite list_elem_of_singleton|]; set_solver. }
  apply Forall_cons in Hge as [Hk Hge]. cbn [eff_loop].
  set (ch1 := if rdbe k =? cur then ch else None).
  set (ch2 := if rdbe (drop 8 k) <=? rg then Some (deserialize (default [] (t_get t Nodes k))) else ch1).
  rewrite elem_of_app, IH, pick_cons by done.
  assert ((id, r) ∈ (if rdbe k =? cur then [] else eff_finish cur ch) ↔
    rdbe k ≠ cur ∧ id = cur ∧ ch = Some r) as ->.
  { destruct (Z.eqb_spec (rdbe k) cur) as [E|E]; [set_solver|].
    destruct ch; simpl; [rewrite list_elem_of_singleton|]; naive_solver set_solver. }
  destruct (pick rg id ks) as [k'|] eqn:Ep.
  - apply pick_elem in Ep as [Hin [<- _]]. rewrite Forall_forall in H0. specialize (H0 k' Hin).
    unfold ids_le in H0. split; [|auto]. intros [(? & E & _)|]; [lia|done].
  - unfold ch2, ch1, effk. destruct (Z.leb_spec (rdbe (drop 8 k)) rg) as [Hle|Hgt].
    + case_decide as E.
      * destruct E as [<- _]. unfold rec_of. naive_solver.
      * assert (rdbe k ≠ id) by tauto. naive_solver.
    + rewrite decide_False by lia. destruct (Z.eqb_spec (rdbe k) cur); naive_solver.
Qed.

Lemma eff_loop_sorted t rg ks cur ch :
  StronglySorted ids_le ks → Forall (λ k, cur <= rdbe k) ks →
  StronglySorted Z.lt (eff_loop t rg ks cur ch).*1 ∧ Forall (λ e, cur <= e.1) (eff_loop t rg ks cur ch).
Proof.
  intros Hs. revert cur ch. induction Hs as [|k ks Hs IH H0]; intros cur ch Hge.
  { simpl. destruct ch; simpl; repeat constructor. simpl. lia. }
  apply Forall_cons in Hge as [Hk Hge]. cbn [eff_loop].
  set (ch2 := if rdbe (drop 8 k) <=? rg then _ else _).
  destruct (IH (rdbe k) ch2 H0) as [IH1 IH2].
  assert (Forall (λ e, cur <= e.1) (eff_loop t rg ks (rdbe k) ch2)) as IH3
    by (eapply Forall_impl; [done|]; simpl; lia).
  destruct (Z.eqb_spec (rdbe k) cur) as [E|E]; [done|]. destruct ch as [r|]; simpl; [|done]. split.
  - constructor; [done|]. apply Forall_fmap. eapply Forall_impl; [exact IH2|]. simpl. lia.
  - constructor; [simpl; lia|done].
Qed.

(** Key order refines id order. *)
Lemma nodes_sorted t : kv_wf t → StronglySorted ids_le (walk_first (sub t Nodes)).
Proof.
  intros Hwf. pose proof (walk_first_sorted (sub t Nodes)) as Hs.
  assert (∀ k, k ∈ walk_first (sub t Nodes) → ∃ id s, in64 id ∧ in64 s ∧ k = be id ++ be s) as Hk.
  { intros k [w Hw]%elem_of_walk_first. apply (wf_nodes _ Hwf) in Hw as (id & s & r & ? & ? & _ & -> & _). eauto. }
  rewrite <- (list_fmap_id (walk_first (sub t Nodes))). apply sorted_fmap with bytes_lt; [|done].
  intros x y (i & s & ? & ? & ->)%Hk (i' & s' & ? & ? & ->)%Hk Hlt. unfold ids_le. simpl.
  rewrite !rdbe_be by done. assert (bytes_le (be i ++ be s) (be i' ++ be s')) as Hle by (apply bytes_le_lt; auto).
  apply key2_le in Hle; [lia|done..].
Qed.

Lemma elem_of_eachEffNode t rg id r :
  kv_wf t → in64 rg → (id, r) ∈ eachEffNode t rg ↔ loadNode t id rg = Some r.
Proof.
  intros Hwf Hrg. unfold eachEffNode. pose proof (nodes_sorted t Hwf) as Hs.
  rewrite elem_of_eff_loop; [|done|apply Forall_forall; intros k _; pose proof (rdbe_range k); word_lia].
  assert (∀ k, k ∈ walk_first (sub t Nodes) → ∃ id s r, in64 id ∧ in64 s ∧
    k = be id ++ be s ∧ node t id s = Some r ∧ rec_of t k = r) as Hk.
  { intros k [w Hw]%elem_of_walk_first. pose proof Hw as Hw'.
    apply (wf_nodes _ Hwf) in Hw as (i & s & r' & ? & ? & Hok & -> & ->). exists i, s, r'.
    unfold node, rec_of. rewrite t_get_view. simpl sub in *. rewrite Hw'. simpl.
    by rewrite deserialize_serialize. }
  destruct (pick rg id (walk_first (sub t Nodes))) as [k|] eqn:Ep.
  - pose proof (pick_elem _ _ _ _ Ep) as [Hin [Hid Hle]].
    destruct (Hk k Hin) as (i & s & r' & Hi & Hs' & -> & Hn & Hrec).
    rewrite rdbe_be in Hid by done. subst i. rewrite drop8_be, rdbe_be' in Hle by done.
    rewrite Hrec. assert (loadNode t id rg = Some r') as ->; [|naive_solver].
    apply loadNode_Some; [done..|]. exists s. split_and!; [done..|]. intros s' Hs1.
    destruct (node t id s') as [r1|] eqn:E1; [|done]. exfalso.
    assert (be id ++ be s' ∈ filter (effk rg id) (walk_first (sub t Nodes))) as Hin'.
    { apply list_elem_of_filter. assert (in64 s') by word_lia. split.
      - unfold effk. rewrite rdbe_be, drop8_be, rdbe_be' by done. lia.
      - apply elem_of_walk_first. apply fmap_Some in E1 as (w & Hw & _). by exists w. }
    unfold pick in Ep. apply last_Some in Ep as [l0 El].
    assert (StronglySorted bytes_lt (filter (effk rg id) (walk_first (sub t Nodes)))) as Hsf
      by apply sorted_filter, walk_first_sorted.
    rewrite El in Hin', Hsf. apply StronglySorted_app in Hsf as (Hlt & _ & _).
    apply elem_of_app in Hin' as [Hin'|Hin'%list_elem_of_singleton].
    + specialize (Hlt _ (be id ++ be s) Hin' ltac:(left)).
      assert (bytes_le (be id ++ be s') (be id ++ be s)) as Hle' by (apply bytes_le_lt; auto).
      apply key2_le in Hle'; word_lia.
    + assert (in64 s') by word_lia. key_inj. lia.
  - split; [naive_solver|]. intros Hl. exfalso.
    pose proof (loadNode_in64 _ _ _ _ Hl) as Hid. apply loadNode_Some in Hl as (s & ? & ? & Hn & _); [|done..].
    unfold pick in Ep. apply last_None in Ep. eapply not_elem_of_nil. rewrite <- Ep.
    apply list_elem_of_filter. split.
    + unfold effk. instantiate (1 := be id ++ be s). by rewrite rdbe_be, drop8_be, rdbe_be' by done.
    + apply elem_of_walk_first. apply fmap_Some in Hn as (w & Hw & _). by exists w.
Qed.

Lemma eachEffNode_sorted t rg : kv_wf t → StronglySorted Z.lt (eachEffNode t rg).*1.
Proof.
  intros Hwf. apply eff_loop_sorted; [by apply nodes_sorted|].
  apply Forall_forall. intros k _. pose proof (rdbe_range k). word_lia.
Qed.
End Eff.

Section Cand.
Context {M : Type} `{!KvEngine M}.
Implicit Types (t : KvData M) (ra rb id s : Z).

Lemma elem_of_zset_insert x y l : x ∈ zset_insert y l ↔ x = y ∨ x ∈ l.
Proof.
  induction l as [|z l IH]; simpl; [set_solver|].
  destruct (y <? z); [set_solver|]. destruct (Z.eqb_spec y z); set_solver.
Qed.
Lemma zset_insert_sorted y l : StronglySorted Z.lt l → StronglySorted Z.lt (zset_insert y l).
Proof.
  induction 1 as [|z l Hl IH Hz]; simpl; [repeat constructor|]. rewrite Forall_forall in Hz.
  destruct (Z.ltb_spec y z).
  - constructor; [constructor; [done|by apply Forall_forall]|]. apply Forall_forall.
    intros x [->|Hx]%elem_of_cons; [done|]. specialize (Hz x Hx). lia.
  - destruct (Z.eqb_spec y z); [constructor; [done|by apply Forall_forall]|].
    constructor; [done|]. apply Forall_forall. intros x [->|Hx]%elem_of_zset_insert; [lia|auto].
Qed.

Lemma elem_of_cand_loop rb ks out x :
  StronglySorted ids_le ks →
  x ∈ cand_loop rb ks out ↔ x ∈ out ∨ ∃ k, k ∈ ks ∧ rdbe k <= rb ∧ x = rdbe (drop 8 k).
Proof.
  intros Hs. revert out. induction Hs as [|k ks Hs IH H0]; intros out; simpl; [set_solver|].
  rewrite Forall_forall in H0. destruct (Z.ltb_spec rb (rdbe k)) as [Hlt|Hge].
  - split; [auto|]. intros [?|(k' & [->|Hk]%elem_of_cons & ? & _)]; [done|lia|].
    specialize (H0 k' Hk). unfold ids_le in H0. lia.
  - rewrite IH, elem_of_zset_insert. set_solver.
Qed.
Lemma cand_loop_sorted rb ks out :
  StronglySorted Z.lt out → StronglySorted Z.lt (cand_loop rb ks out).
Proof.
  revert out. induction ks as [|k ks IH]; intros out Ho; simpl; [done|]. case_match; [done|].
  by apply IH, zset_insert_sorted.
Qed.
Lemma candidates_sorted t ra rb : StronglySorted Z.lt (candidates t ra rb).
Proof. apply cand_loop_sorted. constructor. Qed.

Lemma elem_of_candidates t ra rb id :
  kv_wf t → in64 (ra + 1) →
  id ∈ candidates t ra rb ↔ in64 id ∧ ∃ s, in64 s ∧ ra < s <= rb ∧ chg t s id.
Proof.
  intros Hwf Hra. unfold candidates. rewrite (u64_small (ra + 1)) by done.
  assert (∀ k, k ∈ walk_seek (sub t Changes) (be (ra + 1)) ↔
    ∃ s id, in64 s ∧ in64 id ∧ k = be s ++ be id ∧ ra + 1 <= s ∧ chg t s id) as Hk.
  { intros k. rewrite elem_of_walk_seek. simpl sub. split.
    - intros [Hle [w Hw]]. pose proof Hw as Hw'.
      apply (wf_chg _ Hwf) in Hw as (s & i & ? & ? & ->). exists s, i. split_and!; try done; [|by exists w].
      unfold bytes_le in Hle. rewrite <- (app_nil_r (be (ra + 1))), be_ltb_app in Hle by done.
      apply orb_false_iff in Hle as [Hle _]. apply Z.ltb_ge in Hle. lia.
    - intros (s & i & ? & ? & -> & Hle & Hc). split; [|done].
      unfold bytes_le. rewrite <- (app_nil_r (be (ra + 1))), be_ltb_app by done.
      apply orb_false_iff. rewrite Z.ltb_ge. split; [lia|].
      rewrite andb_false_iff. right. by destruct (be i). }
  rewrite elem_of_cand_loop.
  - split.
    + intros [[]%not_elem_of_nil|(k & (s & i & ? & ? & -> & ? & Hc)%Hk & Hle & ->)].
      rewrite rdbe_be in Hle by done. rewrite drop8_be, rdbe_be' by done. split; [done|]. exists s. eauto with lia.
    + intros (Hid & s & ? & Hr & Hc). right. exists (be s ++ be id).
      rewrite rdbe_be, drop8_be, rdbe_be', Hk by done. split_and!; [|lia|done].
      exists s, id. split_and!; (done || lia).
  - rewrite <- (list_fmap_id (walk_seek _ _)). apply sorted_fmap with bytes_lt; [|apply walk_seek_sorted].
    intros x y (s & i & ? & ? & -> & _)%Hk (s' & i' & ? & ? & -> & _)%Hk Hlt. unfold ids_le. simpl.
    rewrite !rdbe_be by done. assert (bytes_le (be s ++ be i) (be s' ++ be i')) as Hle by (apply bytes_le_lt; auto).
    apply key2_le in Hle; [lia|done..].
Qed.

(** A node without a change record in between is the same record. *)
Lemma unchanged cur next t ra rb id :
  shape cur next t → in64 ra → in64 rb → ra <= rb → in64 id → id ∉ candidates t ra rb →
  loadNode t id ra = loadNode t id rb.
Proof.
  intros Hsh Hra Hrb Hle Hid Hno. pose proof (sh_wf _ _ _ Hsh) as Hwf.
  assert (∀ s, ra < s <= rb → node t id s = None) as Hnone.
  { intros s Hs. assert (in64 s) by word_lia. apply eq_None_not_Some. intros Hn. apply Hno.
    apply elem_of_candidates; [done|word_lia|]. split; [done|]. exists s. split_and!; try done; try lia.
    by apply Hsh. }
  apply option_eq. intros r. rewrite !loadNode_Some by done. f_equiv. intros s. unfold eff_at. split.
  - intros (Hs & Hsg & Hn & Hmax). split_and!; [done|lia|done|]. intros s' ?.
    destruct (decide (s' <= ra)); [apply Hmax; lia|]. apply Hnone. lia.
  - intros (Hs & Hsg & Hn & Hmax). destruct (decide (s <= ra)); [|by rewrite Hnone in Hn by lia].
    split_and!; [done|lia|done|]. intros s' ?. apply Hmax. lia.
Qed.

(** *** Node differences *)

(** The class of a change, from the two attributes alone. *)
Definition alive (r : option NodeRec) : option NodeRec :=
  match r with Some x => if 0 <? r_nlink x then Some x else None | None => None end.
Definition node_change (a b : option NodeRec) : option NodeChange :=
  match alive a, alive b with
  | None, None => None
  | None, Some _ => Some CREATED
  | Some _, None => Some NREMOVED
  | Some va, Some vb =>
      if content_differs va vb then Some MODIFIED_CONTENT
      else if attrs_differ va vb then Some MODIFIED_ATTRS else None
  end.

Lemma diffNode1_spec t ra rb id :
  diffNode1 t ra rb id =
    match node_change (v_attr (view t ra) id) (v_attr (view t rb) id) with
    | Some c => [mkNodeDiff id c]
    | None => []
    end.
Proof.
  assert (∀ g, alive (v_attr (view t g) id) = attrs <$> alive_at t id g) as Hal.
  { intros g. unfold alive, alive_at. simpl. destruct (loadNode t id g); simpl; [|done].
    rewrite r_nlink_attrs. by case_match. }
  unfold diffNode1, node_change. rewrite !Hal.
  destruct (alive_at t id ra) as [va|], (alive_at t id rb) as [vb|]; try done. simpl.
  replace (content_differs (attrs va) (attrs vb)) with (content_differs va vb) by by destruct va, vb.
  replace (attrs_differ (attrs va) (attrs vb)) with (attrs_differ va vb) by by destruct va, vb.
  by repeat case_match.
Qed.

Lemma node_change_same a : node_change a a = None.
Proof.
  unfold node_change. destruct (alive a) as [r|]; [|done].
  unfold content_differs, attrs_differ. rewrite !Z.eqb_refl, bool_decide_false by (by intros []). done.
Qed.

Lemma elem_of_diffNodes st a b id c :
  inv st → 1 <= rr st a <= rr st b → rr st b <= m_cur st →
  mkNodeDiff id c ∈ diffNodes (M:=M) st a b ↔
    in64 id ∧ node_change (v_attr (view (m_kv st) (rr st a)) id) (v_attr (view (m_kv st) (rr st b)) id) = Some c.
Proof.
  intros I Hab Hcur. pose proof (inv_shape st I) as Hsh. pose proof (sh_cur _ _ _ Hsh).
  assert (in64 (rr st a) ∧ in64 (rr st b) ∧ in64 (rr st a + 1)) as (Ha & Hb & Ha1)
    by (unfold LATEST in *; word_lia).
  unfold diffNodes.
  rewrite list_elem_of_bind. setoid_rewrite diffNode1_spec. split.
  - intros (id' & Hin & Hc). destruct (node_change _ _) eqn:E; [|set_solver].
    apply list_elem_of_singleton in Hin. simplify_eq. split; [|done].
    by apply elem_of_candidates in Hc as [? _]; [|apply Hsh|].
  - intros [Hid Hc]. exists id. rewrite Hc. split; [by apply list_elem_of_singleton|].
    destruct (decide (id ∈ candidates (m_kv st) (rr st a) (rr st b))) as [|Hno]; [done|].
    exfalso. simpl in Hc. rewrite (unchanged _ _ _ _ _ _ Hsh Ha Hb ltac:(lia) Hid Hno) in Hc.
    by rewrite node_change_same in Hc.
Qed.

Lemma diffNodes_NoDup st a b : NoDup (nd_id <$> diffNodes (M:=M) st a b).
Proof.
  unfold diffNodes. pose proof (sorted_NoDup _ _ (candidates_sorted (m_kv st) (rr st a) (rr st b))) as Hnd.
  induction Hnd as [|id l Hid Hnd IH]; [constructor|]. simpl. rewrite fmap_app. apply NoDup_app.
  assert (∀ x, x ∈ nd_id <$> diffNode1 (m_kv st) (rr st a) (rr st b) id → x = id) as Hx.
  { intros x. rewrite diffNode1_spec. case_match; simpl; [|set_solver]. by intros ->%list_elem_of_singleton. }
  split_and!; [|intros x ->%Hx|done].
  - rewrite diffNode1_spec. case_match; simpl; repeat constructor; set_solver.
  - intros (d & -> & (i & Hd & Hi)%list_elem_of_bind)%list_elem_of_fmap. rewrite diffNode1_spec in Hd.
    case_match; [|set_solver]. apply list_elem_of_singleton in Hd as ->. done.
Qed.

(** *** Link differences *)

Lemma elem_of_linkSet cur next t d g n c :
  shape cur next t → graph (view t g) → in64 g → in64 d →
  (n, c) ∈ linkSet t d g ↔ ent t g d n = Some c.
Proof.
  intros Hsh G Hg Hd. unfold linkSet, ent. destruct (loadNode t d g) as [r|] eqn:Hl; [|set_solver].
  destruct (load_node _ _ _ _ _ _ Hsh Hg Hl) as (s & ? & ? & _ & _ & ?).
  destruct (Z.eqb_spec (r_type r) (tcode DIR)) as [E|E].
  - apply elem_of_scanDownlinks; [apply Hsh|word_lia..].
  - split; [set_solver|]. intros He.
    destruct (gr_ent _ G d n c Hd) as (_ & (r' & Hr' & Hty)%view_is_dir & _); [simpl; unfold ent; by rewrite Hl|].
    congruence.
Qed.
Lemma linkSet_names cur next t d g n :
  shape cur next t → graph (view t g) → in64 g → in64 d →
  n ∈ (linkSet t d g).*1 ↔ is_Some (ent t g d n).
Proof.
  intros. rewrite list_elem_of_fmap. split.
  - intros ([n' c] & -> & Hin). eapply elem_of_linkSet in Hin; [by eexists|done..].
  - intros [c Hc]. exists (n, c). split; [done|]. by eapply elem_of_linkSet.
Qed.

(** What [diffPath1] reports of one name: present on one side only. *)
Definition path_change (a b : option Z) : option (PathChange * Z) :=
  match a, b with
  | None, Some c => Some (ADDED, c)
  | Some c, None => Some (PREMOVED, c)
  | _, _ => None
  end.

Lemma elem_of_diffPath1 cur next t ra rb d p :
  shape cur next t → graph (view t ra) → graph (view t rb) → in64 ra → in64 rb → in64 d →
  p ∈ diffPath1 t ra rb d ↔
    ∃ n ch c, path_change (ent t ra d n) (ent t rb d n) = Some (ch, c) ∧ p = mkPathDiff ch d n c.
Proof.
  intros Hsh Ga Gb Ha Hb Hd. unfold diffPath1. rewrite elem_of_app, !list_elem_of_fmap. split.
  - intros [([n c] & -> & Hin)|([n c] & -> & Hin)]; apply list_elem_of_filter in Hin as [Hno Hin]; simpl in Hno;
      rewrite (linkSet_names cur next), <- eq_None_not_Some in Hno by done;
      rewrite (elem_of_linkSet cur next) in Hin by done.
    + exists n, ADDED, c. by rewrite Hno, Hin.
    + exists n, PREMOVED, c. by rewrite Hno, Hin.
  - intros (n & ch & c & Hc & ->). unfold path_change in Hc.
    destruct (ent t ra d n) as [x|] eqn:Ea, (ent t rb d n) as [y|] eqn:Eb; simplify_eq; [right|left];
      exists (n, c); (split; [done|]); rewrite list_elem_of_filter; simpl;
      rewrite (linkSet_names cur next), (elem_of_linkSet cur next), <- eq_None_not_Some by done; done.
Qed.

Lemma elem_of_diffPaths st a b p :
  inv st → 1 <= rr st a <= rr st b → rr st b <= m_cur st →
  p ∈ diffPaths (M:=M) st a b ↔
    ∃ d n ch c, in64 d ∧ p = mkPathDiff ch d n c ∧
      path_change (v_ent (view (m_kv st) (rr st a)) d n) (v_ent (view (m_kv st) (rr st b)) d n) = Some (ch, c).
Proof.
  intros I Hab Hcur. pose proof (inv_shape st I) as Hsh. pose proof (sh_cur _ _ _ Hsh).
  assert (in64 (rr st a) ∧ in64 (rr st b) ∧ in64 (rr st a + 1)) as (Ha & Hb & Ha1)
    by (unfold LATEST in *; word_lia).
  destruct (inv_at st (rr st a) I) as [Ga _]; [lia|]. destruct (inv_at st (rr st b) I) as [Gb _]; [lia|].
  unfold diffPaths. rewrite list_elem_of_bind. split.
  - intros (d & Hp & Hd). apply elem_of_candidates in Hd as [Hd _]; [|apply Hsh|done].
    eapply elem_of_diffPath1 in Hp; [|done..]. destruct Hp as (n & ch & c & Hc & ->). eauto 10.
  - intros (d & n & ch & c & Hd & -> & Hc). exists d. split.
    + apply (elem_of_diffPath1 (m_cur st) (m_next st)); try done. by exists n, ch, c.
    + destruct (decide (d ∈ candidates (m_kv st) (rr st a) (rr st b))) as [|Hno]; [done|]. exfalso.
      simpl in Hc. unfold ent in Hc.
      rewrite (unchanged _ _ _ _ _ _ Hsh Ha Hb ltac:(lia) Hd Hno) in Hc. unfold path_change in Hc.
      repeat case_match; simplify_eq.
Qed.
End Cand.

(** ** Statistics *)

(** The nodes of a type that have a link, and the sizes of the regular ones. *)
Definition alive_ty (ty : Z) (e : Z * NodeRec) : Prop := r_nlink e.2 ≠ 0 ∧ r_type e.2 = ty.
Global Instance alive_ty_dec ty e : Decision (alive_ty ty e).
Proof. unfold alive_ty. apply _. Defined.
Definition count_ty (ty : Z) (l : list (Z * NodeRec)) : Z := Z.of_nat (length (filter (alive_ty ty) l)).
Definition size_sum (l : list (Z * NodeRec)) : Z :=
  foldr (λ e acc, r_size e.2 + acc) 0 (filter (alive_ty (tcode REG)) l).

Lemma u64_add_l a b : u64 (u64 a + b) = u64 (a + b).
Proof. unfold u64. by rewrite Zplus_mod_idemp_l. Qed.

Section Stats.
Context {M : Type} `{!KvEngine M}.
Implicit Types (st : Store M) (t : KvData M).

Lemma fold_stats_node (l : list (Z * NodeRec)) (s : Stats) :
  Forall (λ x, u64 x = x) (st_nodes s) → u64 (st_totalSize s) = st_totalSize s →
  Forall (λ e, ∃ ty, r_type e.2 = tcode ty) l → length (st_nodes s) = 7%nat →
  let s' := fold_left stats_node l.*2 s in
  (∀ ty x, st_nodes s !! Z.to_nat (tcode ty) = Some x →
     st_nodes s' !! Z.to_nat (tcode ty) = Some (u64 (x + count_ty (tcode ty) l))) ∧
  st_links s' = st_links s ∧ st_totalSize s' = u64 (st_totalSize s + size_sum l).
Proof.
  revert s. induction l as [|[id r] l IH]; intros s Hn Ht Hty Hlen; cbn zeta.
  { simpl. split_and!; [|done|by rewrite Z.add_0_r]. intros ty x Hx. rewrite Hx. f_equal.
    unfold count_ty. simpl. rewrite Z.add_0_r. by rewrite Forall_lookup in Hn; rewrite (Hn _ _ Hx). }
  apply Forall_cons in Hty as [[ty0 Hty0] Hty]. simpl in Hty0. rewrite fmap_cons. cbn [fold_left snd].
  assert (Forall (λ x, u64 x = x) (st_nodes (stats_node s r)) ∧
    u64 (st_totalSize (stats_node s r)) = st_totalSize (stats_node s r) ∧
    length (st_nodes (stats_node s r)) = 7%nat) as (Hn' & Ht' & Hlen').
  { unfold stats_node. case_match; [done|]. simpl. split_and!; [|case_match; [|done]|by rewrite length_alter].
    - apply Forall_alter; [done|]. intros x _ _. apply u64_small, u64_range.
    - apply u64_small, u64_range. }
  destruct (IH _ Hn' Ht' Hty Hlen') as (I1 & I2 & I3). split_and!.
  - intros ty x Hx. unfold count_ty. rewrite filter_cons.
    destruct (decide (r_nlink r = 0)) as [E|E].
    + assert (stats_node s r = s) as Es by (unfold stats_node; by rewrite E).
      rewrite Es in I1. rewrite Es, (I1 ty x) by done.
      rewrite decide_False by (unfold alive_ty; simpl; tauto). done.
    + assert (st_nodes (stats_node s r) = alter (λ x, u64 (x + 1)) (Z.to_nat (tcode ty0)) (st_nodes s)) as Es
        by (unfold stats_node; rewrite (proj2 (Z.eqb_neq _ _) E), Hty0; done).
      rewrite Es in I1. destruct (decide (ty = ty0)) as [->|Hne].
      * rewrite (I1 ty0 (u64 (x + 1))) by (rewrite list_lookup_alter_eq, Hx; done).
        rewrite decide_True by (unfold alive_ty; simpl; split; [done|congruence]). simpl.
        rewrite u64_add_l. do 2 f_equal. unfold count_ty. lia.
      * rewrite (I1 ty x).
        2: { rewrite list_lookup_alter_ne; [done|]. by destruct ty, ty0. }
        rewrite decide_False; [done|]. unfold alive_ty. simpl. rewrite Hty0. intros [_ ?%tcode_inj]. done.
  - rewrite I2. unfold stats_node. by case_match.
  - rewrite I3. unfold size_sum. rewrite filter_cons. destruct (decide (r_nlink r = 0)) as [E|E].
    + replace (stats_node s r) with s by (unfold stats_node; by rewrite E).
      by rewrite decide_False by (unfold alive_ty; simpl; tauto).
    + unfold stats_node. rewrite (proj2 (Z.eqb_neq _ _) E). cbn [st_totalSize].
      destruct (Z.eqb_spec (r_type r) (tcode REG)) as [E'|E'].
      * rewrite decide_True by done. simpl. rewrite u64_add_l. f_equal. simpl. lia.
      * by rewrite decide_False by (unfold alive_ty; simpl; tauto).
Qed.

Lemma fold_stats_link (l : list (bytes * Z)) (s : Stats) :
  u64 (st_links s) = st_links s →
  fold_left (λ s _, mkStats (st_nodes s) (u64 (st_links s + 1)) (st_totalSize s)) l s =
    mkStats (st_nodes s) (u64 (st_links s + Z.of_nat (length l))) (st_totalSize s).
Proof.
  revert s. induction l as [|x l IH]; intros s Hs; simpl.
  { destruct s; simpl in *. by rewrite Z.add_0_r, Hs. }
  rewrite IH by apply u64_small, u64_range. simpl. rewrite u64_add_l. f_equal. f_equal. lia.
Qed.

(** The live links of the directories a scan yields. *)
Definition links_of t (l : list (Z * NodeRec)) : list (Z * bytes) :=
  l ≫= λ e, if r_type e.2 =? tcode DIR then (λ x, (e.1, x.1)) <$> scanDownlinks t e.1 (r_dn e.2) else [].

Lemma fold_stats_links t (l : list (Z * NodeRec)) (s : Stats) :
  u64 (st_links s) = st_links s →
  fold_left (stats_links t) l s =
    mkStats (st_nodes s) (u64 (st_links s + Z.of_nat (length (links_of t l)))) (st_totalSize s).
Proof.
  revert s. induction l as [|[id r] l IH]; intros s Hs; simpl.
  { destruct s; simpl in *. by rewrite Z.add_0_r, Hs. }
  unfold stats_links at 2. simpl. rewrite length_app. case_match.
  - rewrite fold_stats_link by done. rewrite IH by apply u64_small, u64_range. simpl.
    rewrite u64_add_l, length_fmap. f_equal. f_equal. lia.
  - by rewrite IH by done.
Qed.

Lemma stats_eq st g :
  Forall (λ e, ∃ ty, r_type e.2 = tcode ty) (eachEffNode (m_kv st) (rr st g)) →
  let l := eachEffNode (m_kv st) (rr st g) in
  let s := stats st g in
  (∀ ty, st_nodes s !! Z.to_nat (tcode ty) = Some (u64 (count_ty (tcode ty) l))) ∧
  st_links s = u64 (Z.of_nat (length (links_of (m_kv st) l))) ∧ st_totalSize s = u64 (size_sum l).
Proof.
  intros Hty l s. unfold s, stats. fold l.
  destruct (fold_stats_node l Stats0) as (H1 & H2 & H3); [by repeat constructor|done|done|done|].
  rewrite fold_stats_links by (rewrite H2; done). simpl. rewrite H2, H3. split_and!; [|done|done].
  intros ty. rewrite (H1 ty 0) by by destruct ty. done.
Qed.
End Stats.

Section StatsView.
Context {M : Type} `{!KvEngine M}.
Implicit Types (st : Store M) (t : KvData M).

(** The nodes of a snapshot as its view shows them. *)
Definition view_nodes t g : list (Z * NodeRec) := prod_map id attrs <$> eachEffNode t g.

Lemma count_ty_attrs ty (l : list (Z * NodeRec)) : count_ty ty (prod_map id attrs <$> l) = count_ty ty l.
Proof.
  unfold count_ty. f_equal. induction l as [|[i r] l IH]; [done|]. rewrite fmap_cons, !filter_cons.
  assert (alive_ty ty (prod_map id attrs (i, r)) ↔ alive_ty ty (i, r)) as Hiff by by destruct r.
  repeat case_decide; cbn [length]; rewrite ?IH; (done || tauto).
Qed.
Lemma size_sum_attrs (l : list (Z * NodeRec)) : size_sum (prod_map id attrs <$> l) = size_sum l.
Proof.
  unfold size_sum. induction l as [|[i r] l IH]; [done|]. rewrite fmap_cons, !filter_cons.
  assert (alive_ty (tcode REG) (prod_map id attrs (i, r)) ↔ alive_ty (tcode REG) (i, r)) as Hiff by by destruct r.
  assert (r_size (attrs r) = r_size r) as Hsz by by destruct r.
  repeat case_decide; cbn [foldr prod_map fst snd]; rewrite ?IH, ?Hsz; (done || tauto).
Qed.

Lemma elem_of_links_of cur next t g d n :
  shape cur next t → graph (view t g) → in64 g →
  (d, n) ∈ links_of t (eachEffNode t g) ↔ in64 d ∧ is_Some (ent t g d n).
Proof.
  intros Hsh G Hg. unfold links_of. rewrite list_elem_of_bind. split.
  - intros ([i r] & Hin & He). apply elem_of_eachEffNode in He; [|apply Hsh|done]. simpl in Hin.
    destruct (load_node _ _ _ _ _ _ Hsh Hg He) as (s & ? & ? & _ & _ & ?).
    case_match; [|set_solver]. apply list_elem_of_fmap in Hin as ([m c] & [= -> ->] & Hin).
    pose proof (loadNode_in64 _ _ _ _ He). apply elem_of_scanDownlinks in Hin; [|apply Hsh|word_lia..].
    split; [done|]. unfold ent. rewrite He. by exists c.
  - intros [Hd [c Hc]]. pose proof (gr_ent _ G d n c Hd Hc) as (_ & (r & Hl & Hty)%view_is_dir & _).
    exists (d, r). split; [|apply elem_of_eachEffNode; [apply Hsh|done..]]. simpl. rewrite Hty. simpl.
    destruct (load_node _ _ _ _ _ _ Hsh Hg Hl) as (s & ? & ? & _ & _ & ?).
    apply list_elem_of_fmap. exists (n, c). split; [done|].
    apply elem_of_scanDownlinks; [apply Hsh|word_lia..|]. unfold ent in Hc. by rewrite Hl in Hc.
Qed.

Lemma links_of_NoDup t (l : list (Z * NodeRec)) : NoDup l.*1 → NoDup (links_of t l).
Proof.
  induction l as [|[i r] l IH]; intros Hnd; [constructor|]. simpl. apply NoDup_cons in Hnd as [Hi Hnd].
  apply NoDup_app. split_and!; [| |by apply IH].
  - case_match; [|constructor]. pose proof (scanDownlinks_names t i (r_dn r)) as Hs.
    apply (NoDup_fmap_2 (pair i)) in Hs. by rewrite <- list_fmap_compose in Hs.
  - intros x Hx (e & Hx' & He)%list_elem_of_bind. destruct Hi. apply list_elem_of_fmap. exists e.
    split; [|done]. simpl in Hx. case_match; [|set_solver]. case_match; [|set_solver].
    apply list_elem_of_fmap in Hx as (? & -> & _), Hx' as (? & ? & _). simplify_eq/=. done.
Qed.

Lemma stats_sound cur next st g :
  shape cur next (m_kv st) → graph (view (m_kv st) (rr st g)) → in64 (rr st g) →
  ∃ (nodes : list (Z * NodeRec)) (links : list (Z * bytes)),
    let v := view (m_kv st) (rr st g) in let s := stats st g in
    NoDup nodes.*1 ∧ (∀ id r, (id, r) ∈ nodes ↔ v_attr v id = Some r) ∧
    NoDup links ∧ (∀ d n, (d, n) ∈ links ↔ in64 d ∧ is_Some (v_ent v d n)) ∧
    (∀ ty, st_nodes s !! Z.to_nat (tcode ty) = Some (u64 (count_ty (tcode ty) nodes))) ∧
    st_links s = u64 (Z.of_nat (length links)) ∧ st_totalSize s = u64 (size_sum nodes).
Proof.
  intros Hsh G Hg. set (t := m_kv st) in *. set (eff := eachEffNode t (rr st g)).
  exists (view_nodes t (rr st g)), (links_of t eff). cbv zeta.
  assert (NoDup eff.*1) as Hnd by (eapply (sorted_NoDup Z.lt), eachEffNode_sorted, Hsh).
  destruct (stats_eq st g) as (H1 & H2 & H3).
  { apply Forall_forall. intros [i r] He. apply elem_of_eachEffNode in He; [|apply Hsh|done]. simpl.
    pose proof (loadNode_in64 _ _ _ _ He) as Hi. apply loadNode_Some in He as (s & Hs & _ & Hn & _); [|apply Hsh|done..].
    by destruct (sh_node _ _ _ Hsh i s r Hi Hs Hn) as (_ & _ & _ & _ & ?). }
  fold t in H1, H2, H3. fold eff in H1, H2, H3. split_and!.
  - unfold view_nodes. rewrite <- list_fmap_compose. done.
  - intros i r. unfold view_nodes. rewrite list_elem_of_fmap. simpl. rewrite fmap_Some. split.
    + intros ([i' r'] & [= -> ->] & He). apply elem_of_eachEffNode in He; [|apply Hsh|done]. eauto.
    + intros (r' & Hl & ->). exists (i, r'). split; [done|]. apply elem_of_eachEffNode; [apply Hsh|done..].
  - by apply links_of_NoDup.
  - intros d n. by apply (elem_of_links_of cur next).
  - intros ty. unfold view_nodes. by rewrite H1, count_ty_attrs.
  - done.
  - unfold view_nodes. by rewrite H3, size_sum_attrs.
Qed.
End StatsView.
