(* ===== verification/StoreProps.v ===== *)
(** * StoreProps: the correctness theorems of the versioned store

    Stated over every store reached from a fresh one, for any engine that
    satisfies the interface of Kv.v: refinement of the abstract file system,
    structure of every snapshot's tree, snapshot isolation, failed operations,
    and what each read returns. Each theorem is followed by a witness on the
    concrete store [demo]. *)
From S2P Require Import Prelude Keys Kv NodeRec Spec Store Views Shape Graph Links Inv Init Reads Diff.
Local Open Scope Z_scope.
Set Warnings "-clear-no-such-hyp".

Abbreviation fresh_store := (PrfsStore kv_new).

(** ** Shared lemmas *)

(** Handles ordered by node id. *)
Definition handle_lt (x y : Handle) : Prop := h_id x < h_id y.
Global Instance handle_lt_trans : Transitive handle_lt.
Proof. intros x y z. unfold handle_lt. lia. Qed.
Global Instance handle_lt_irrefl : Irreflexive handle_lt.
Proof. intros x. unfold complement, handle_lt. lia. Qed.

Section Lemmas.
Context {M : Type} `{!KvEngine M}.
Implicit Types (st : Store M).

Lemma parents_loop_sorted (ks : list bytes) (seen : gset Z) :
  StronglySorted ids_le ks → StronglySorted Z.lt (parents_loop ks seen).
Proof.
  intros Hs. revert seen. induction Hs as [|k ks Hs IH H0]; intros seen; simpl; [constructor|].
  case_decide; [apply IH|]. constructor; [apply IH|]. apply Forall_forall. intros x Hx.
  rewrite Forall_forall in H0. apply parents_loop_spec in Hx as (Hne & k' & Hk' & ->).
  specialize (H0 k' Hk'). unfold ids_le in H0. assert (rdbe k' ≠ rdbe k) by set_solver. lia.
Qed.

Lemma parents_sorted st h :
  inv st → in64 (h_id h) → live st h →
  StronglySorted handle_lt (parents st h).
Proof.
  intros I Hid L. pose proof (live_in64 _ _ I L) as Hg. pose proof (inv_shape st I) as Hsh.
  unfold parents. destruct (loadNode _ _ _) as [r|] eqn:Hl; [|constructor].
  destruct (load_node _ _ _ _ _ _ Hsh Hg Hl) as (s & ? & ? & _ & _ & ?).
  eapply sorted_fmap with (R := Z.lt); [done|]. apply parents_loop_sorted.
  change (scan (sub (m_kv st) UpLinks) (be (h_id h) ++ be (r_up r))).*1 with (upscan (m_kv st) (h_id h) (r_up r)).
  rewrite <- (list_fmap_id (upscan _ _ _)). apply sorted_fmap with bytes_lt; [|apply upscan_sorted].
  intros x y Hx Hy Hlt. apply elem_of_upscan in Hx, Hy; try apply Hsh; try word_lia.
  destruct Hx as (d & n & ? & -> & _), Hy as (d' & n' & ? & -> & _).
  unfold ids_le. simpl. rewrite !rdbe_be by done. unfold bytes_lt in Hlt. rewrite be_ltb_app in Hlt by done.
  apply orb_true_iff in Hlt as [Hlt%Z.ltb_lt|[Hlt%Z.eqb_eq _]%andb_true_iff]; lia.
Qed.

(** What a handle reads is determined by the view it reads at. *)
Lemma observe_view st st' h :
  inv st → inv st' → in64 (h_id h) → isSnapDir (h_id h) = false → live st h → live st' h →
  at_ st' h ≡ at_ st h → observe st' h = observe st h.
Proof.
  intros I I' Hid Hs L L' V. unfold observe. f_equal; [f_equal|].
  - rewrite !readNode_plain by done. by rewrite (proj1 (V _ Hid)).
  - apply (sorted_ext name_lt); [by apply readdir_sorted..|]. intros [n x].
    rewrite !elem_of_readdir; try done; try (by split_and!; eauto using live_in64).
    by rewrite (proj2 (V _ Hid)).
  - apply (sorted_ext handle_lt); [by apply parents_sorted..|]. intros x. rewrite (proj2 (parents_spec st' h I' Hid L')), (proj2 (parents_spec st h I Hid L)).
    split; intros (d & n & Hd & He & ->); exists d, n; (split_and!; [done| |done]);
      [rewrite <- (proj2 (V _ Hd))|rewrite (proj2 (V _ Hd))]; done.
Qed.
End Lemmas.

(** ** The state machine *)

Section Machine.
Context {M : Type} `{!KvEngine M}.
Implicit Types (st : Store M).

(** No operation changes what a handle at a sealed snapshot reads. *)
Lemma sealed_reads st op h n :
  inv st → op_ok st op →
  in64 (h_id h) → isSnapDir (h_id h) = false → 1 <= h_snap h < m_cur st →
  observe (exec st op).2 h = observe st h ∧ lookup_ (exec st op).2 h n = lookup_ st h n.
Proof.
  intros I Hok Hid Hs Hg.
  destruct (exec_sim st op I Hok) as (I' & s' & Hstep & (E1 & _ & _ & _ & Hold)).
  pose proof (sh_cur _ _ _ (inv_shape st I)) as Hcur.
  assert (h_snap h ≠ LATEST) as Hne by lia.
  assert (∀ st1 : Store M, rr st1 (h_snap h) = h_snap h) as Hrr
    by (intros st1; unfold rr; by rewrite (proj2 (Z.eqb_neq _ _) Hne)).
  assert (m_cur st <= m_cur (exec st op).2 ∧ at_ (exec st op).2 h ≡ at_ st h) as [Hcur' V].
  { unfold at_. rewrite !Hrr. simpl in E1, Hold.
    inversion Hstep; subst; simpl in *; (split; [lia|]); (etrans; [apply Hold; simpl; lia|]); try done.
    by rewrite (proj2 (Z.eqb_neq (h_snap h) (m_cur st))) by lia. }
  assert (live st h ∧ live (exec st op).2 h) as [L L'] by (unfold live; rewrite !Hrr; lia).
  split; [by apply observe_view|].
  rewrite !lookup_plain; [by rewrite (proj2 (V _ Hid))|done| |by right|done| |by right];
    split_and!; try done; by apply live_in64.
Qed.

(** C1. Refinement: every operation of the store, on every branch, is a step
    of the abstract file system in which a snapshot is a full copy of the
    tree; error codes included. *)
Theorem exec_refines st op :
  reachable_from fresh_store st → op_ok st op →
  ∃ s', fs_step (abs st) op (exec st op).1 s' ∧ abs (exec st op).2 ≡ s'.
Proof. intros R Hok. apply exec_sim; [by apply inv_reachable|done]. Qed.

(** C2. Snapshot isolation: no operation changes what a handle at a sealed
    snapshot reads - attributes, listing, parents or lookups. *)
Theorem snapshot_isolation st op h n :
  reachable_from fresh_store st → op_ok st op →
  in64 (h_id h) → isSnapDir (h_id h) = false → 1 <= h_snap h < m_cur st →
  observe (exec st op).2 h = observe st h ∧ lookup_ (exec st op).2 h n = lookup_ st h n.
Proof. intros R. by apply sealed_reads, inv_reachable. Qed.

(** C16. Structure: in every snapshot of every reachable store the up-links
    are exactly the entries reversed, link counts count names, children
    exist, [.snapshot] is never a stored name and directories form no cycle. *)
Theorem snapshot_trees st g :
  reachable_from fresh_store st → 1 <= g <= m_cur st →
  graph (view (m_kv st) g) ∧ backlinks (m_kv st) g.
Proof. intros R Hg. apply inv_at; [by apply inv_reachable|done]. Qed.

(** C18. Failure atomicity: an operation that returns an error leaves the
    store exactly as it was, whether or not the engine can roll back. *)
Theorem failed_op_noop st op :
  reachable_from fresh_store st → op_ok st op → (exec st op).1 ≠ OK → (exec st op).2 = st.
Proof.
  intros R Hok. pose proof (inv_reachable _ R) as I. pose proof (i_tree _ I) as T.
  assert (∀ res, (res.1 ≠ OK → res.2 = m_kv st) → (finish st res).1 ≠ OK → (finish st res).2 = st) as Hf.
  { intros res Hres. rewrite finish_kv by done. simpl. intros He. rewrite Hres by done. by destruct st. }
  destruct op; simpl in *; try done; apply Hf; destruct_and?.
  - eapply oc_fail, linkT_refines; eauto.
  - eapply oc_fail, unlinkT_refines; eauto.
  - eapply oc_fail, moveT_refines; eauto.
  - destruct (loadNode _ _ _); [by destruct (negb _)|done].
  - destruct (loadNode _ _ _); [by destruct (negb _)|done].
  - destruct (loadNode _ _ _); [by destruct (_ && _)|done].
  - destruct (loadNode _ _ _); [by destruct (negb _)|done].
Qed.

(** C19. A successful [move] renames: the child leaves the old name, appears
    under the new one, and no attribute of any node - the child's link count
    included - changes. *)
Theorem move_renames st sd sn dd dn_ :
  reachable_from fresh_store st → op_ok st (OpMove sd sn dd dn_) → (move st sd sn dd dn_).1 = OK →
  ∃ c, let v := f_now (abs st) in let v' := f_now (abs (move st sd sn dd dn_).2) in
    v_ent v (h_id sd) sn = Some c ∧ v_ent v (h_id dd) dn_ = None ∧
    ∀ id, in64 id → v_attr v' id = v_attr v id ∧
      ∀ n, v_ent v' id n = if decide (id = h_id sd ∧ n = sn) then None
                           else if decide (id = h_id dd ∧ n = dn_) then Some c else v_ent v id n.
Proof.
  intros R Hok He. pose proof (inv_reachable _ R) as I.
  destruct (exec_sim st _ I Hok) as (_ & s' & Hstep & (_ & _ & _ & Hv & _)).
  destruct Hok as (Hsd & Hdd & Hroom). cbn [exec] in Hstep, Hv. rewrite He in Hstep.
  inversion Hstep as [| | | | | | | |? ? ? ? ? w Hres| | | | | | | |]; subst.
  inversion Hres as [|? ? ? ? Hne|c Hc Hl]; subst; [by destruct Hne|]. exists c. cbv zeta.
  inversion Hl as [| | | | | |rc _ Hdir Hrc Hno Hfree]; subst.
  split_and!; [done|done|]. intros id Hid. destruct (Hv id Hid) as [Ha Hn]. split.
  - rewrite Ha. simpl. case_decide as E; [|done]. subst id.
    simpl in Hrc. destruct (loadNode (m_kv st) c (m_cur st)) as [r|] eqn:Hlr; [|done]. simpl. f_equal.
    pose proof (Hroom c Hc r Hlr) as Hmax.
    destruct (load_node _ _ _ _ _ _ (inv_shape st I) (shape_in64_cur _ _ _ (inv_shape st I)) Hlr)
      as (_ & _ & _ & _ & ((_&_&_&_&Hnl&_)&_) & _).
    destruct r; unfold dec_nlink, inc_nlink; simpl in *. rewrite u32_small by word_lia.
    rewrite (proj2 (Z.eqb_neq _ _)) by word_lia. by rewrite Z.add_simpl_r.
  - intros n. rewrite Hn. simpl. done.
Qed.

(** C28. Persistence: constructing a store over the data of a reachable store
    gives that store back, counters and clock included. *)
Theorem reopen_store st : reachable_from fresh_store st → PrfsStore (m_kv st) = st.
Proof. intros R. by apply reopen, inv_reachable. Qed.
End Machine.

Lemma exec_refines_witness :
  ∃ s', fs_step (abs demo) (OpUnlink (mkHandle 1 LATEST) (str "g")) OK s' ∧
        abs (exec demo (OpUnlink (mkHandle 1 LATEST) (str "g"))).2 ≡ s'.
Proof.
  pose proof (exec_refines demo (OpUnlink (mkHandle 1 LATEST) (str "g")) demo_reachable) as H.
  apply H. by vm_compute.
Defined.

Lemma snapshot_isolation_witness :
  observe (exec demo (OpUnlink (mkHandle 1 LATEST) (str "g"))).2 (mkHandle 2 1) = observe demo (mkHandle 2 1) ∧
  lookup_ (exec demo (OpUnlink (mkHandle 1 LATEST) (str "g"))).2 (mkHandle 2 1) (str "f") = lookup_ demo (mkHandle 2 1) (str "f").
Proof. apply (snapshot_isolation demo); [apply demo_reachable|by vm_compute..]. Defined.

Lemma snapshot_trees_witness : graph (view (m_kv demo) 1) ∧ backlinks (m_kv demo) 1.
Proof. apply (snapshot_trees demo 1 demo_reachable). by vm_compute. Defined.

Lemma failed_op_noop_witness :
  (exec demo (OpLink (mkHandle 1 LATEST) (str "g") (mkHandle 2 LATEST))).1 = EXIST ∧
  (exec demo (OpLink (mkHandle 1 LATEST) (str "g") (mkHandle 2 LATEST))).2 = demo.
Proof.
  split; [by vm_compute|]. apply (failed_op_noop demo _ demo_reachable).
  - by apply (bool_decide_eq_true (op_ok demo _)); vm_compute.
  - by vm_compute.
Defined.

Definition demo_move : Op := OpMove (mkHandle 1 LATEST) (str "g") (mkHandle 2 LATEST) (str "h").
Lemma move_renames_witness :
  ∃ c, let v := f_now (abs demo) in
       let v' := f_now (abs (move demo (mkHandle 1 LATEST) (str "g") (mkHandle 2 LATEST) (str "h")).2) in
      v_ent v 1 (str "g") = Some c ∧ v_ent v 2 (str "h") = None ∧
      ∀ id, in64 id → v_attr v' id = v_attr v id ∧
        ∀ n, v_ent v' id n = if decide (id = 1 ∧ n = str "g") then None
                             else if decide (id = 2 ∧ n = str "h") then Some c else v_ent v id n.
Proof.
  apply (move_renames demo (mkHandle 1 LATEST) (str "g") (mkHandle 2 LATEST) (str "h") demo_reachable).
  - by apply (bool_decide_eq_true (op_ok demo demo_move)); vm_compute.
  - by vm_compute.
Defined.

Lemma reopen_store_witness : PrfsStore (m_kv demo) = demo.
Proof. apply (reopen_store demo demo_reachable). Defined.

(** ** Reads *)

Section ReadProps.
Context {M : Type} `{!KvEngine M}.
Implicit Types (st : Store M) (h dir : Handle) (n : bytes).

(** Lookup and listing agree: a name other than [.snapshot] resolves to a
    node exactly when the listing has that entry, and names are unique. *)
Theorem lookup_iff_readdir st h n x :
  reachable_from fresh_store st → plain st h → n ≠ SNAPSHOT_NAME →
  (lookup_ st h n = Some x ↔ (n, x) ∈ readdir st h) ∧ NoDup (readdir st h).*1.
Proof.
  intros R P Hn. pose proof (inv_reachable _ R) as I. split.
  - rewrite lookup_plain, elem_of_readdir by auto. rewrite fmap_Some. naive_solver.
  - eapply (sorted_NoDup bytes_lt). apply sorted_fmap with name_lt; [done|]. apply readdir_sorted, P.
Qed.


(** The [.snapshot] directory of a node: paging lists exactly the sealed
    snapshots the node existed at, and each listed name resolves to the node
    at that snapshot. *)
Theorem snapshot_dir_listing st dir max :
  reachable_from fresh_store st → isSnapDir (h_id dir) = true → (0 < max)%nat →
  collect (S (length (readdir st dir))) st dir [] max = Some (readdir st dir) ∧
  ∀ n x, (n, x) ∈ readdir st dir ↔
    ∃ g, n = to_string g ∧ 1 <= g < m_cur st ∧ existedAt (m_kv st) (snapBase (h_id dir)) g = true ∧
      lookup_ st dir n = Some x.
Proof.
  intros R Hs Hmax. pose proof (inv_reachable _ R) as I. split.
  - rewrite (collect_snap_from st dir max _ [] 1); try done; [by rewrite readdir_snap|by auto|].
    rewrite readdir_snap, length_fmap by done. lia.
  - intros n x. rewrite readdir_snap by done. rewrite list_elem_of_fmap. split.
    + intros (g & [= -> ->] & Hg). pose proof Hg as [Hr He]%elem_of_snap_ids.
      pose proof (sh_cur _ _ _ (inv_shape st I)). exists g. split_and!; [done|lia|lia|done|].
      apply lookup_snap; [done|]. exists g. rewrite parseSnap_spec by (unfold LATEST in *; word_lia). done.
    + intros (g & -> & Hr & He & (g' & Hp & Hin & ->)%lookup_snap); [|done].
      pose proof (sh_cur _ _ _ (inv_shape st I)).
      rewrite parseSnap_spec in Hp by (unfold LATEST in *; word_lia). simplify_eq.
      by exists g'.
Qed.

(** [parents] lists each directory that holds a name of the node, once,
    in id order. *)
Theorem parents_are_containers st h x :
  reachable_from fresh_store st → in64 (h_id h) → live st h →
  StronglySorted handle_lt (parents st h) ∧
  (x ∈ parents st h ↔
    ∃ d n, in64 d ∧ v_ent (at_ st h) d n = Some (h_id h) ∧ x = mkHandle d (h_snap h)).
Proof.
  intros R Hid L. pose proof (inv_reachable _ R) as I. split; [by apply parents_sorted|].
  by apply parents_spec.
Qed.

(** The cycle check: the depth-first search terminates within its fuel
    and decides reachability along directory entries. *)
Theorem reachable_decides st from to :
  reachable_from fresh_store st → is_dir (f_now (abs st)) to →
  is_Some (reachable_loop (reachable_fuel (m_kv st)) (m_cur st) (m_kv st) to [from] ∅) ∧
  (reachable (m_cur st) (m_kv st) from to = true ↔ rtc (edge (f_now (abs st))) from to).
Proof.
  intros R Hto. pose proof (inv_reachable _ R) as I. split.
  - eapply reachable_total, (inv_shape st I).
  - apply reachable_spec with (m_next st); [apply I|apply I|done].
Qed.

(** [loadNode] returns the newest record of the node at or before the
    snapshot, and fails only when there is none. *)
Theorem loadNode_newest st id g :
  reachable_from fresh_store st → in64 id → in64 g →
  match loadNode (m_kv st) id g with
  | Some r => ∃ s, in64 s ∧ s <= g ∧ node (m_kv st) id s = Some r ∧
                ∀ s', s < s' <= g → node (m_kv st) id s' = None
  | None => ∀ s, in64 s → s <= g → node (m_kv st) id s = None
  end.
Proof.
  intros R Hid Hg. apply loadNode_spec; [|done..].
  apply sh_wf with (m_cur st) (m_next st). by apply inv_shape, inv_reachable.
Qed.

(** C32. [diffNodes] reports every node whose attributes differ between two
    snapshots in the sense of [node_change], once, and nothing else. *)
Theorem diffNodes_correct st a b id c :
  reachable_from fresh_store st → 1 <= rr st a <= rr st b → rr st b <= m_cur st →
  (mkNodeDiff id c ∈ diffNodes st a b ↔
    in64 id ∧ node_change (v_attr (view (m_kv st) (rr st a)) id)
                          (v_attr (view (m_kv st) (rr st b)) id) = Some c) ∧
  NoDup (nd_id <$> diffNodes st a b).
Proof.
  intros R Hab Hb. split; [|apply diffNodes_NoDup].
  apply elem_of_diffNodes; [by apply inv_reachable|done..].
Qed.


(** [stats]: the counts of linked nodes by type, of live links, and the
    total size of linked files, each modulo 2^64. *)
Theorem stats_correct st g :
  reachable_from fresh_store st → 1 <= rr st g <= m_cur st →
  ∃ (nodes : list (Z * NodeRec)) (links : list (Z * bytes)),
    let v := view (m_kv st) (rr st g) in let s := stats st g in
    NoDup nodes.*1 ∧ (∀ id r, (id, r) ∈ nodes ↔ v_attr v id = Some r) ∧
    NoDup links ∧ (∀ d n, (d, n) ∈ links ↔ in64 d ∧ is_Some (v_ent v d n)) ∧
    (∀ ty, st_nodes s !! Z.to_nat (tcode ty) = Some (u64 (count_ty (tcode ty) nodes))) ∧
    st_links s = u64 (Z.of_nat (length links)) ∧ st_totalSize s = u64 (size_sum nodes).
Proof.
  intros R Hg. pose proof (inv_reachable _ R) as I. pose proof (inv_shape st I) as Hsh.
  destruct (inv_at st _ I Hg) as [G _].
  assert (in64 (rr st g)) as Hg64 by (pose proof (sh_cur _ _ _ Hsh); unfold LATEST in *; word_lia).
  apply (stats_sound (m_cur st) (m_next st)); done.
Qed.
End ReadProps.

Lemma lookup_iff_readdir_witness :
  (lookup_ demo (mkHandle 1 LATEST) (str "g") = Some (mkHandle 3 LATEST) ↔
   (str "g", mkHandle 3 LATEST) ∈ readdir demo (mkHandle 1 LATEST)) ∧ NoDup (readdir demo (mkHandle 1 LATEST)).*1.
Proof. apply (lookup_iff_readdir demo); [apply demo_reachable|by vm_compute|by vm_compute]. Defined.


Definition demo_snapdir : Handle := mkHandle (1 + 2 ^ 63) LATEST.
Lemma snapshot_dir_listing_witness :
  collect (S (length (readdir demo demo_snapdir))) demo demo_snapdir [] 1 = Some (readdir demo demo_snapdir) ∧
  ∀ n x, (n, x) ∈ readdir demo demo_snapdir ↔
    ∃ g, n = to_string g ∧ 1 <= g < m_cur demo ∧
      existedAt (m_kv demo) (snapBase (h_id demo_snapdir)) g = true ∧ lookup_ demo demo_snapdir n = Some x.
Proof. apply (snapshot_dir_listing demo); [apply demo_reachable|by vm_compute|lia]. Defined.

Lemma parents_are_containers_witness :
  StronglySorted handle_lt (parents demo (mkHandle 3 1)) ∧
  (mkHandle 2 1 ∈ parents demo (mkHandle 3 1) ↔
    ∃ d n, in64 d ∧ v_ent (at_ demo (mkHandle 3 1)) d n = Some 3 ∧ mkHandle 2 1 = mkHandle d 1).
Proof. apply (parents_are_containers demo (mkHandle 3 1)); [apply demo_reachable|by vm_compute..]. Defined.

Lemma reachable_decides_witness :
  is_Some (reachable_loop (reachable_fuel (m_kv demo)) (m_cur demo) (m_kv demo) 2 [1] ∅) ∧
  (reachable (m_cur demo) (m_kv demo) 1 2 = true ↔ rtc (edge (f_now (abs demo))) 1 2).
Proof.
  apply (reachable_decides demo 1 2 demo_reachable). apply view_is_dir.
  eexists. split; by vm_compute.
Defined.

Lemma loadNode_newest_witness :
  match loadNode (m_kv demo) 3 2 with
  | Some r => ∃ s, in64 s ∧ s <= 2 ∧ node (m_kv demo) 3 s = Some r ∧
                ∀ s', s < s' <= 2 → node (m_kv demo) 3 s' = None
  | None => ∀ s, in64 s → s <= 2 → node (m_kv demo) 3 s = None
  end.
Proof. apply (loadNode_newest demo); [apply demo_reachable|by vm_compute..]. Defined.

Lemma diffNodes_correct_witness :
  (mkNodeDiff 3 CREATED ∈ diffNodes demo 1 LATEST ↔
    in64 3 ∧ node_change (v_attr (view (m_kv demo) (rr demo 1)) 3)
                         (v_attr (view (m_kv demo) (rr demo LATEST)) 3) = Some CREATED) ∧
  NoDup (nd_id <$> diffNodes demo 1 LATEST).
Proof. apply (diffNodes_correct demo); [apply demo_reachable|by vm_compute..]. Defined.


Lemma stats_correct_witness :
  ∃ (nodes : list (Z * NodeRec)) (links : list (Z * bytes)),
    let v := view (m_kv demo) (rr demo 1) in let s := stats demo 1 in
    NoDup nodes.*1 ∧ (∀ id r, (id, r) ∈ nodes ↔ v_attr v id = Some r) ∧
    NoDup links ∧ (∀ d n, (d, n) ∈ links ↔ in64 d ∧ is_Some (v_ent v d n)) ∧
    (∀ ty, st_nodes s !! Z.to_nat (tcode ty) = Some (u64 (count_ty (tcode ty) nodes))) ∧
    st_links s = u64 (Z.of_nat (length links)) ∧ st_totalSize s = u64 (size_sum nodes).
Proof. apply (stats_correct demo 1 demo_reachable). by vm_compute. Defined.

(** ** Empty names *)

(** The empty name can be linked and is listed by [readdir], but no page
    of [readdirPage] ever returns it. *)
Theorem pages_hide_empty_name :
  let st := run demo [OpLink (mkHandle 1 LATEST) [] (mkHandle 3 LATEST)] in
  (exec demo (OpLink (mkHandle 1 LATEST) [] (mkHandle 3 LATEST))).1 = OK ∧
  ([], mkHandle 3 LATEST) ∈ readdir st (mkHandle 1 LATEST) ∧
  collect 5 st (mkHandle 1 LATEST) [] 10 =
    Some [(str "d", mkHandle 2 LATEST); (str "g", mkHandle 3 LATEST)].
Proof. split_and!; [by vm_compute| |by vm_compute]. vm_compute. left. Qed.

(** ** Snapshot metadata and device numbers *)

Section MetaProps.
Context {M : Type} `{!KvEngine M}.
Implicit Types (st : Store M).

Definition same_snaps (t t' : KvData M) : Prop := sub t' Snaps = sub t Snaps.

Lemma same_snaps_finish st res :
  same_snaps (m_kv st) res.2 → same_snaps (m_kv st) (m_kv (finish st res).2).
Proof. unfold finish, end_txn. intros H. simpl. by destruct (_ || _). Qed.

Lemma same_snaps_store t id s r : same_snaps t (storeNode t id s r).
Proof. apply same_meta_store. Qed.

(** Only [snapshot] writes to the snapshot table, under the number it seals. *)
Lemma exec_snaps st op g :
  inv st → op_ok st op → in64 g → g < m_cur st →
  m_cur st <= m_cur (exec st op).2 ∧
  t_get (m_kv (exec st op).2) Snaps (be g) = t_get (m_kv st) Snaps (be g).
Proof.
  intros I Hok Hg Hlt. destruct (exec_sim st op I Hok) as (_ & s' & Hstep & (E & _)).
  split; [simpl in E; rewrite E; inversion Hstep; subst; simpl; lia|].
  assert (∀ t t', same_snaps t t' → t_get t' Snaps (be g) = t_get t Snaps (be g)) as Hs
    by (intros t t' H; unfold t_get; by rewrite H).
  assert (∀ ty b sp, same_snaps (m_kv st) (m_kv (alloc st ty b sp).2)) as Ha
    by (intros; unfold alloc, end_txn; simpl; etrans; [apply same_snaps_store|]; by destruct (m_kv st)).
  destruct op; cbn [exec snd]; try (apply Hs; try apply Ha; apply same_snaps_finish).
  - apply same_meta_link.
  - apply same_meta_unlink.
  - apply same_meta_move.
  - destruct (loadNode _ _ _); [destruct (negb _)|]; (done || apply same_snaps_store).
  - destruct (loadNode _ _ _); [destruct (negb _)|]; (done || apply same_snaps_store).
  - destruct (loadNode _ _ _); [destruct (_ && _)|]; (done || apply same_snaps_store).
  - destruct (loadNode _ _ _); [destruct (negb _)|]; (done || apply same_snaps_store).
  - apply Hs. replace (attr_put a st h x) with (mutateNode st (h_id h) (attr_set a x)) by by destruct a.
    unfold mutateNode, end_txn. destruct (loadNode _ _ _); [apply same_snaps_store|done].
  - apply Hs. unfold setTime, putMeta. simpl. by destruct (m_kv st).
  - apply Hs. simpl. by destruct (m_kv st).
  - pose proof (sh_cur _ _ _ (inv_shape st I)). unfold snapshot, end_txn. simpl. rewrite !t_get_view, view_put.
    rewrite decide_False; [by destruct (m_kv st)|]. intros [_ Eq]. apply be_inj in Eq; [lia|done|].
    unfold LATEST in *. word_lia.
Qed.

(** [snapshot] seals the current number, records the clock and the label
    for it, and no later operation changes that record. *)
Theorem snapInfo_stable st label st' :
  reachable_from fresh_store st → m_cur st + 1 < LATEST →
  reachable_from (snapshot st label).2 st' →
  (snapshot st label).1 = m_cur st ∧ snapInfo st' (m_cur st) = mkSnapInfo (m_cur st) (m_clock st) label.
Proof.
  intros R Hmax R'. split; [done|]. pose proof (inv_reachable _ R) as I.
  assert (in64 (m_cur st)) as Hg by eapply shape_in64_cur, inv_shape, I.
  assert (inv st' ∧ m_cur st < m_cur st' ∧
    t_get (m_kv st') Snaps (be (m_cur st)) = Some (be (m_clock st) ++ label)) as (_ & _ & Hget).
  { induction R' as [|st1 op _ (I1 & Hlt & Hget) Hok].
    - split; [by apply snapshot_sim|]. unfold snapshot, end_txn. simpl.
      rewrite u64_small by (unfold LATEST in *; word_lia). split; [lia|].
      by rewrite t_get_view, view_put, decide_True.
    - destruct (exec_snaps st1 op _ I1 Hok Hg Hlt) as [? ?].
      split_and!; [by apply exec_sim|lia|congruence]. }
  unfold snapInfo. rewrite Hget, length_app, length_be. simpl.
  rewrite rdbe_be by apply I. by rewrite drop8_be.
Qed.

(** Device numbers: [setRdev] stores the pair that [rdev] returns, at
    full 32-bit width. *)
Theorem rdev_roundtrip st h maj min :
  reachable_from fresh_store st → op_ok st (OpSetRdev h maj min) → h_snap h = LATEST →
  isSnapDir (h_id h) = false → (setRdev st h maj min).1 = OK →
  n_rdev (setRdev st h maj min).2 h = (maj, min).
Proof.
  intros R (Hid & Hmaj & Hmin) Hl Hs. pose proof (inv_reachable _ R) as I. pose proof (inv_shape st I) as Hsh.
  unfold setRdev. destruct (loadNode _ _ _) as [r|] eqn:Hr; [|done]. destruct (_ && _); [done|]. intros _.
  unfold n_rdev, readNode, readNode_at, rr, finish, end_txn. rewrite Hs, Hl. simpl.
  destruct (load_node _ _ _ _ _ _ Hsh (shape_in64_cur _ _ _ Hsh) Hr) as (_ & _ & _ & _ & Hok & _).
  rewrite rdev_lor by done.
  rewrite (loadNode_storeNode _ (m_next st)); [|done|done|by apply attr_fn_spec; [apply rdev_in64|]|done].
  rewrite decide_True by done. simpl.
  replace (r_spec (set_spec (rdev_spec maj min) r)) with (rdev_spec maj min) by by destruct r.
  unfold rdev_spec. f_equal.
  - rewrite Z.shiftr_div_pow2, Z.div_add_l, Z.div_small by word_lia. rewrite Z.add_0_r. by apply u32_small.
  - rewrite land_low, Z.add_comm, Z.mod_add, Z.mod_small by word_lia. by apply u32_small.
Qed.
End MetaProps.

Lemma snapInfo_stable_witness :
  (snapshot demo (str "tue")).1 = m_cur demo ∧
  snapInfo (run (snapshot demo (str "tue")).2 [OpMkdir; OpSetTime 9]) (m_cur demo)
    = mkSnapInfo (m_cur demo) (m_clock demo) (str "tue").
Proof.
  apply (snapInfo_stable demo (str "tue")); [apply demo_reachable|by vm_compute|].
  apply reachable_run; [constructor|by vm_compute].
Defined.

Definition demo_dev : Store (gmap bytes bytes) := run demo [OpMknod BLK 0 0].
Lemma rdev_roundtrip_witness :
  n_rdev (setRdev demo_dev (mkHandle 4 LATEST) 8 4294967295).2 (mkHandle 4 LATEST) = (8, 4294967295).
Proof.
  apply (rdev_roundtrip demo_dev (mkHandle 4 LATEST)); [|by vm_compute..].
  apply reachable_run; [apply demo_reachable|by vm_compute].
Defined.
