(* ===== verification/Types.v ===== *)
(** * Types: the type of a node (include/prfs/prfs.hpp: "immutable type fixed
    here", "mutators (type-guarded; never change type)")

    No operation changes a node's type or removes the node, the typed mutators
    succeed on their types only, and only a directory ever has entries. *)
From S2P Require Import Prelude Keys Kv NodeRec Spec Store Views Shape Graph Links Inv Init Reads Paths StoreProps.
Local Open Scope Z_scope.
Set Warnings "-clear-no-such-hyp".

(** ** Views with the same nodes of the same types *)

Definition retains (v w : View) : Prop :=
  ∀ c r, v_attr v c = Some r → ∃ r', v_attr w c = Some r' ∧ r_type r' = r_type r.
Global Instance retains_refl : Reflexive retains.
Proof. intros v c r Hr. eauto. Qed.
Global Instance retains_trans : Transitive retains.
Proof. intros u v w H1 H2 c r Hr. destruct (H1 c r Hr) as (r1 & Hr1 & <-). by apply H2. Qed.

Lemma retains_update f id v : (∀ r, r_type (f r) = r_type r) → retains v (v_update f id v).
Proof. intros Hf c r Hr. simpl. case_decide; [|eauto]. rewrite Hr. exists (f r). by rewrite Hf. Qed.
Lemma retains_set_ent d n c v : retains v (v_set_ent d n c v).
Proof. intros x r Hr. eauto. Qed.
Lemma retains_create id x v : v_attr v id = None → retains v (v_create id x v).
Proof. intros Hid c r Hr. simpl. rewrite decide_False by congruence. eauto. Qed.
Lemma type_inc r : r_type (inc_nlink r) = r_type r.
Proof. by destruct r. Qed.
Lemma type_dec r : r_type (dec_nlink r) = r_type r.
Proof. unfold dec_nlink. destruct r. simpl. by destruct (_ =? 0). Qed.
Lemma retains_link d n c v : retains v (v_link d n c v).
Proof. etrans; [apply retains_set_ent|]. apply retains_update, type_inc. Qed.
Lemma retains_unlink d n c v : retains v (v_unlink d n c v).
Proof. etrans; [apply retains_set_ent|]. apply retains_update, type_dec. Qed.
Lemma retains_link_res v d n c e w : link_res v d n c e w → retains v w.
Proof. destruct 1; first [reflexivity|apply retains_link]. Qed.
Lemma retains_typed v id ok f e w : (∀ r, r_type (f r) = r_type r) → typed_res v id ok f e w → retains v w.
Proof. intros Hf. destruct 1; first [reflexivity|by apply retains_update]. Qed.

Lemma retains_step s op e s' : v_attr (f_now s) (f_next s) = None → fs_step s op e s' → retains (f_now s) (f_now s').
Proof.
  intros Hn. destruct 1; simpl; try (by apply retains_create); try reflexivity.
  - by eapply retains_link_res.
  - match goal with H : unlink_res _ _ _ _ _ |- _ => destruct H end; [reflexivity|apply retains_unlink].
  - match goal with H : move_res _ _ _ _ _ _ _ |- _ => destruct H end; [reflexivity|by eapply retains_link_res|].
    etrans; [apply retains_link|apply retains_unlink].
  - eapply retains_typed; [|done]. by intros [].
  - eapply retains_typed; [|done]. by intros [].
  - eapply retains_typed; [|done]. by intros [].
  - eapply retains_typed; [|done]. by intros [].
  - apply retains_update. by destruct a; intros [].
Qed.

(** Every node has one of the seven types. *)
Definition valid (v : View) : Prop := ∀ c r, in64 c → v_attr v c = Some r → ∃ ty, r_type r = tcode ty.
Lemma valid_equiv v w : v ≡ w → valid v → valid w.
Proof. intros E H c r Hc. rewrite <- (proj1 (E c Hc)). by apply H. Qed.
Lemma valid_update f id v : (∀ r, r_type (f r) = r_type r) → valid v → valid (v_update f id v).
Proof.
  intros Hf H c r Hc. simpl. case_decide; [|by apply H]. intros (r0 & Hr0 & ->)%fmap_Some. rewrite Hf. by apply (H c).
Qed.
Lemma valid_set_ent d n c v : valid v → valid (v_set_ent d n c v).
Proof. intros H x r Hx Hr. by apply (H x). Qed.
Lemma valid_create id x v : (∃ ty, r_type x = tcode ty) → valid v → valid (v_create id x v).
Proof. intros Hx H c r Hc. simpl. case_decide; [by intros [= <-]|by apply H]. Qed.
Lemma valid_link d n c v : valid v → valid (v_link d n c v).
Proof. intros H. by apply valid_update, valid_set_ent; [apply type_inc|]. Qed.
Lemma valid_unlink d n c v : valid v → valid (v_unlink d n c v).
Proof. intros H. by apply valid_update, valid_set_ent; [apply type_dec|]. Qed.
Lemma valid_link_res v d n c e w : link_res v d n c e w → valid v → valid w.
Proof. by destruct 1; try apply valid_link. Qed.
Lemma valid_typed v id ok f e w : (∀ r, r_type (f r) = r_type r) → typed_res v id ok f e w → valid v → valid w.
Proof. intros Hf. destruct 1; try done. by apply valid_update. Qed.
Lemma valid_step s op e s' : fs_step s op e s' → valid (f_now s) → valid (f_now s').
Proof.
  intros Hs Hv. destruct Hs; simpl; try (apply valid_create; [by eexists|done]); try done.
  - by eapply valid_link_res.
  - match goal with H : unlink_res _ _ _ _ _ |- _ => destruct H end; [done|by apply valid_unlink].
  - match goal with H : move_res _ _ _ _ _ _ _ |- _ => destruct H end; [done|by eapply valid_link_res|].
    by apply valid_unlink, valid_link.
  - eapply valid_typed; [|done..]. by intros [].
  - eapply valid_typed; [|done..]. by intros [].
  - eapply valid_typed; [|done..]. by intros [].
  - eapply valid_typed; [|done..]. by intros [].
  - apply valid_update; [by destruct a; intros []|done].
Qed.

(** ** The store *)

(** The types on which a typed mutator may succeed. *)
Definition op_types (op : Op) : list (Z * FType) :=
  match op with
  | OpSetContent h _ | OpSetSeed h _ => [(h_id h, REG)]
  | OpSetTarget h _ => [(h_id h, LNK)]
  | OpSetRdev h _ _ => [(h_id h, BLK); (h_id h, CHR)]
  | _ => []
  end.

Section Types.
Context {M : Type} `{!KvEngine M}.
Implicit Types (st : Store M).

Lemma exec_retains st op c r :
  inv st → op_ok st op → in64 c → v_attr (vw st) c = Some r →
  ∃ r', v_attr (vw (exec st op).2) c = Some r' ∧ r_type r' = r_type r.
Proof.
  intros I Hok Hc Hr. destruct (exec_sim st op I Hok) as (_ & s' & Hs & (_ & _ & _ & E & _)).
  destruct (retains_step (abs st) op _ s' (vw_fresh st I) Hs c r Hr) as (r' & Hr' & Ht).
  exists r'. split; [|done]. rewrite <- Hr'. apply (E c Hc).
Qed.
Lemma valid_reachable st : reachable_from fresh_store st → valid (vw st).
Proof.
  induction 1 as [|st op R IH Hok].
  - intros c r Hc Hr. destruct (decide (c = 1)) as [->|Hne].
    + destruct (gr_root _ (vw_graph (PrfsStore kv_new) inv_init)) as (r' & Hr' & Ht). exists DIR. congruence.
    + pose proof (vw_ids (PrfsStore kv_new) c r inv_init Hc Hr). assert (m_next (PrfsStore (kv_new (M:=M))) = 2) by by rewrite init_eq. lia.
  - destruct (exec_sim st op (inv_reachable _ R) Hok) as (_ & s' & Hs & (_ & _ & _ & E & _)).
    eapply valid_equiv; [symmetry; exact E|]. by eapply valid_step.
Qed.

(** C17. Types: every node of a reachable store has one of the seven types, no
    operation changes it or removes the node, a typed mutator - content, seed,
    target, device - succeeds only on a node of its types, and a node with
    entries is a directory. *)
Theorem node_types st op c :
  reachable_from fresh_store st → op_ok st op → in64 c → is_Some (v_attr (vw st) c) →
  let h := mkHandle c LATEST in
  (∃ ty, n_type st h = tcode ty) ∧
  n_type (exec st op).2 h = n_type st h ∧
  ((exec st op).1 = OK → ∀ ty, (c, ty) ∈ op_types op → ∃ ty', (c, ty') ∈ op_types op ∧ n_type st h = tcode ty') ∧
  (readdir st h ≠ [] → n_type st h = tcode DIR).
Proof.
  intros R Hok Hc [r Hr] h. pose proof (inv_reachable _ R) as I. pose proof (valid_reachable st R) as Hv.
  destruct (read_live st c r I Hc Hr) as [Ht _]. fold h in Ht. rewrite Ht. split_and!.
  - by apply (Hv c).
  - destruct (exec_retains st op c r I Hok Hc Hr) as (r' & Hr' & <-).
    by apply (read_live (exec st op).2 c r' (inv_reachable _ (RefStep _ st op R Hok))).
  - intros HOK ty Hin. destruct (exec_sim st op I Hok) as (_ & s' & Hs & _). rewrite HOK in Hs.
    assert (∀ id ok f w, typed_res (f_now (abs st)) id ok f OK w → id = c → ok (r_type r)) as Htyped.
    { intros id ok f w H ->. inversion H as [| |r0 Hr0 Hty]; subst. change (v_attr (vw st) c = Some r0) in Hr0. congruence. }
    destruct op; simpl in Hin; try (by apply elem_of_nil in Hin); inversion Hs; subst;
      repeat match goal with H : (_, _) ∈ _ :: _ |- _ => apply elem_of_cons in H as [[= -> ->]|H] | H : _ ∈ [] |- _ => by apply elem_of_nil in H end.
    + exists REG. split; [left|]. by eapply Htyped.
    + exists LNK. split; [left|]. by eapply Htyped.
    + eapply Htyped in H4 as [?|?]; [exists BLK; split; [left|done]|exists CHR; split; [right; left|done]|done].
    + eapply Htyped in H4 as [?|?]; [exists BLK; split; [left|done]|exists CHR; split; [right; left|done]|done].
    + exists REG. split; [left|]. by eapply Htyped.
  - intros Hne. destruct (readdir st h) as [|[n x] l] eqn:E; [done|].
    pose proof (vw_ids st c r I Hc Hr). pose proof (sh_cur _ _ _ (inv_shape st I)).
    assert ((n, x) ∈ readdir st h) as Hin by (rewrite E; left).
    apply elem_of_readdir in Hin as (y & Hy & _); [|done|].
    + unfold at_ in Hy. cbn [h h_id h_snap] in Hy. rewrite live_rr in Hy. fold (vw st) in Hy.
      destruct (gr_ent _ (vw_graph st I) c n y Hc Hy) as (_ & (r' & Hr' & Ht') & _). congruence.
    + split_and!; [by eapply id_not_snapdir|done|]. cbn [h h_snap]. rewrite live_rr. unfold LATEST in *. word_lia.
Qed.
End Types.

Lemma node_types_witness :
  (∃ ty, n_type demo (mkHandle 3 LATEST) = tcode ty) ∧
  n_type (exec demo (OpSetSeed (mkHandle 3 LATEST) 9)).2 (mkHandle 3 LATEST) = n_type demo (mkHandle 3 LATEST).
Proof.
  destruct (node_types demo (OpSetSeed (mkHandle 3 LATEST) 9) 3) as (H1 & H2 & _).
  - exact demo_reachable.
  - vm_compute. repeat split; discriminate.
  - vm_compute. split; [discriminate|reflexivity].
  - apply not_eq_None_Some. vm_compute. discriminate.
  - exact (conj H1 H2).
Defined.
