(* ===== verification/MemStore.v ===== *)
(** * MemStore: the reference model used as test oracle (src/reference/memstore.cpp)

    A version list per node and a list of lifetime intervals per (directory,
    name); everything else is recomputed by scanning. A version's attributes
    and blob are one [NodeRec] whose link versions stay 0. *)
From S2P Require Import Prelude Dfs Keys Kv NodeRec Store.
Local Open Scope Z_scope.

(** ** State *)

Record NodeVer := mkVer { nv_snap : Z; nv_rec : NodeRec }.
(** [iv_dead = 0]: still live. *)
Record LinkIv := mkIv { iv_born : Z; iv_dead : Z; iv_child : Z }.

(** [std::set<std::string>]: the ascending list of its elements. *)
Fixpoint name_insert (x : bytes) (l : list bytes) : list bytes :=
  match l with
  | [] => [x]
  | y :: l' => if bytes_ltb x y then x :: l else if decide (x = y) then l else y :: name_insert x l'
  end.

Record MemStore := mkMem {
  mm_nodes : gmap Z (list NodeVer);
  mm_links : gmap (Z * bytes) (list LinkIv);
  mm_names : gmap Z (list bytes);
  mm_changes : gmap Z (list Z);
  mm_snaps : gmap Z SnapInfo;
  mm_config : bytes;
  mm_next : Z; mm_cur : Z; mm_root : Z; mm_clock : Z
}.

Definition mm_set_nodes (st : MemStore) x := mkMem x (mm_links st) (mm_names st) (mm_changes st) (mm_snaps st) (mm_config st) (mm_next st) (mm_cur st) (mm_root st) (mm_clock st).
Definition mm_set_links (st : MemStore) x := mkMem (mm_nodes st) x (mm_names st) (mm_changes st) (mm_snaps st) (mm_config st) (mm_next st) (mm_cur st) (mm_root st) (mm_clock st).
Definition mm_set_names (st : MemStore) x := mkMem (mm_nodes st) (mm_links st) x (mm_changes st) (mm_snaps st) (mm_config st) (mm_next st) (mm_cur st) (mm_root st) (mm_clock st).
Definition mm_set_changes (st : MemStore) x := mkMem (mm_nodes st) (mm_links st) (mm_names st) x (mm_snaps st) (mm_config st) (mm_next st) (mm_cur st) (mm_root st) (mm_clock st).

(** ** Helpers *)

Definition mm_resolve (st : MemStore) (g : Z) : Z := if g =? LATEST then mm_cur st else g.

(** Largest version at or before [rg]: the loop stops at the first later one. *)
Fixpoint effR_loop (vs : list NodeVer) (rg : Z) (best : option NodeVer) : option NodeVer :=
  match vs with
  | [] => best
  | v :: vs' => if nv_snap v <=? rg then effR_loop vs' rg (Some v) else best
  end.
Definition effR (st : MemStore) (id rg : Z) : option NodeVer :=
  match mm_nodes st !! id with Some vs => effR_loop vs rg None | None => None end.
Definition mm_eff (st : MemStore) (id g : Z) : option NodeVer := effR st id (mm_resolve st g).
Definition effAttr_at (st : MemStore) (id g : Z) : NodeRec :=
  match mm_eff st id g with Some v => nv_rec v | None => NodeRec0 end.
Definition effAttr (st : MemStore) (id g : Z) : NodeRec :=
  if isSnapDir id then
    let base := effAttr_at st (snapBase id) g in
    mkNode (tcode DIR) 365 0 0 1 0 0 0 (r_atime base) (r_mtime base) (r_ctime base) 0 0 0 []
  else effAttr_at st id g.

(** [liveVer]: copy-on-write into the current version; the caller then assigns
    through the returned reference ([f]). *)
Definition push_ver (cur : Z) (vs : list NodeVer) : list NodeVer :=
  match last vs with
  | Some v => if nv_snap v =? cur then vs else vs ++ [mkVer cur (nv_rec v)]
  | None => [mkVer cur NodeRec0]
  end.
Fixpoint upd_last (f : NodeRec → NodeRec) (vs : list NodeVer) : list NodeVer :=
  match vs with
  | [] => []
  | [v] => [mkVer (nv_snap v) (f (nv_rec v))]
  | v :: vs' => v :: upd_last f vs'
  end.
Definition liveVer (st : MemStore) (id : Z) (f : NodeRec → NodeRec) : MemStore :=
  mm_set_nodes st (<[id := upd_last f (push_ver (mm_cur st) (default [] (mm_nodes st !! id)))]> (mm_nodes st)).
Definition touch (st : MemStore) (id : Z) : MemStore :=
  mm_set_changes st (<[mm_cur st := zset_insert id (default [] (mm_changes st !! mm_cur st))]> (mm_changes st)).

Definition liveAt (iv : LinkIv) (rg : Z) : bool :=
  (iv_born iv <=? rg) && ((iv_dead iv =? 0) || (rg <? iv_dead iv)).
Fixpoint liveAtR (ivs : list LinkIv) (rg : Z) : option Z :=
  match ivs with
  | [] => None
  | iv :: ivs' => if liveAt iv rg then Some (iv_child iv) else liveAtR ivs' rg
  end.
Definition linkLiveR (st : MemStore) (key : Z * bytes) (rg : Z) : option Z :=
  match mm_links st !! key with Some ivs => liveAtR ivs rg | None => None end.
Definition linkLiveAt (st : MemStore) (key : Z * bytes) (g : Z) : option Z :=
  linkLiveR st key (mm_resolve st g).

(** [reachable]: live directory children in name order. *)
Definition mm_names_of (st : MemStore) (d : Z) : list bytes := default [] (mm_names st !! d).
Definition mm_children (st : MemStore) (n : Z) : list Z :=
  omap (λ name, match linkLiveAt st (n, name) LATEST with
                | Some child =>
                    match mm_eff st child LATEST with
                    | Some cv => if r_type (nv_rec cv) =? tcode DIR then Some child else None
                    | None => None
                    end
                | None => None
                end) (mm_names_of st n).
Definition name_pairs (st : MemStore) : list (Z * bytes) :=
  map_to_list (mm_names st) ≫= λ e, pair e.1 <$> e.2.
Definition mm_fuel (st : MemStore) : nat := S (S (length (name_pairs st))).
Definition mm_reachable (st : MemStore) (from to : Z) : bool :=
  default true (dfs_loop (mm_children st) (mm_fuel st) to [from] ∅).

Definition mm_alloc (st : MemStore) (t : FType) (blob : bytes) (spec : Z) : Handle * MemStore :=
  let id := mm_next st in
  let a := mkNode (tcode t) (defaultMode t) 0 0 0 0 0 0 (mm_clock st) (mm_clock st) (mm_clock st) spec 0 0 blob in
  let st1 := mkMem (<[id := default [] (mm_nodes st !! id) ++ [mkVer (mm_cur st) a]]> (mm_nodes st))
                   (mm_links st) (mm_names st) (mm_changes st) (mm_snaps st) (mm_config st)
                   (u64 (mm_next st + 1)) (mm_cur st) (mm_root st) (mm_clock st) in
  (mkHandle id LATEST, touch st1 id).

(** ** Operations *)

Definition MemStore0 : MemStore :=
  let a := mkNode (tcode DIR) 493 0 0 1 0 0 0 0 0 0 0 0 0 [] in
  mkMem {[ 1 := [mkVer 1 a] ]} ∅ ∅ {[ 1 := [1] ]} ∅ [] 2 1 1 0.

Definition mm_contentConfig (st : MemStore) : bytes := mm_config st.
Definition mm_setContentConfig (st : MemStore) (blob : bytes) : MemStore :=
  mkMem (mm_nodes st) (mm_links st) (mm_names st) (mm_changes st) (mm_snaps st) blob (mm_next st) (mm_cur st) (mm_root st) (mm_clock st).
Definition mm_now (st : MemStore) : Z := mm_clock st.
Definition mm_setTime (st : MemStore) (t : Z) : MemStore :=
  mkMem (mm_nodes st) (mm_links st) (mm_names st) (mm_changes st) (mm_snaps st) (mm_config st) (mm_next st) (mm_cur st) (mm_root st) t.
Definition mm_rwRoot (st : MemStore) : Handle := mkHandle (mm_root st) LATEST.
Definition mm_snapshotRoot (st : MemStore) (n : Z) : Handle := mkHandle (mm_root st) n.
Definition mm_nodeById (st : MemStore) (id snap : Z) : option Handle :=
  let base := if isSnapDir id then snapBase id else id in
  match effR st base (mm_resolve st snap) with Some _ => Some (mkHandle id snap) | None => None end.
Definition mm_snapshots (st : MemStore) : list Z := seqZ 1 (mm_cur st - 1).

Definition mm_mkdir st := mm_alloc st DIR [] 0.
Definition mm_mkfile st (c : bytes) := mm_alloc st REG c 0.
Definition mm_symlink st (t : bytes) := mm_alloc st LNK t 0.
Definition mm_mkfifo st := mm_alloc st FIFO [] 0.
Definition mm_mksock st := mm_alloc st SOCK [] 0.
Definition mm_mknod st (t : FType) (maj min : Z) := mm_alloc st t [] (Z.lor (Z.shiftl maj 32) min).

Definition mm_type (st : MemStore) (h : Handle) : Z := r_type (effAttr st (h_id h) (h_snap h)).

Definition mm_lookup (st : MemStore) (dir : Handle) (name : bytes) : option Handle :=
  if isSnapDir (h_id dir) then
    let base := snapBase (h_id dir) in
    match parseSnap name with
    | None => None
    | Some n =>
        if (n <? 1) || (mm_cur st <=? n) || bool_decide (effR st base n = None) then None
        else Some (mkHandle base n)
    end
  else if bool_decide (name = SNAPSHOT_NAME) && (h_snap dir =? LATEST) && (mm_type st dir =? tcode DIR)
  then Some (mkHandle (Z.lor (h_id dir) SNAP_BIT) LATEST)
  else (λ c, mkHandle c (h_snap dir)) <$> linkLiveAt st (h_id dir, name) (h_snap dir).

Definition mm_link (st : MemStore) (dir : Handle) (name : bytes) (child : Handle) : Error * MemStore :=
  if decide (name = SNAPSHOT_NAME) then (INVAL, st)
  else if negb (mm_type st dir =? tcode DIR) then (NOTDIR, st)
  else if (mm_type st child =? tcode DIR) && mm_reachable st (h_id child) (h_id dir) then (INVAL, st)
  else match linkLiveAt st (h_id dir, name) LATEST with
  | Some _ => (EXIST, st)
  | None =>
      let key := (h_id dir, name) in
      let st1 := mm_set_links st (<[key := default [] (mm_links st !! key) ++ [mkIv (mm_cur st) 0 (h_id child)]]> (mm_links st)) in
      let st2 := mm_set_names st1 (<[h_id dir := name_insert name (mm_names_of st1 (h_id dir))]> (mm_names st1)) in
      let st3 := liveVer st2 (h_id child) (λ r, set_nlink (u32 (r_nlink r + 1)) r) in
      (OK, touch (touch st3 (h_id dir)) (h_id child))
  end.

(** [unlink]'s edit of one interval list: the first interval live at [cur] is
    erased when it was born there, closed otherwise. *)
Fixpoint kill_live (cur : Z) (ivs : list LinkIv) : option (Z * list LinkIv) :=
  match ivs with
  | [] => None
  | iv :: ivs' =>
      if liveAt iv cur then
        Some (iv_child iv, if iv_born iv =? cur then ivs' else mkIv (iv_born iv) cur (iv_child iv) :: ivs')
      else prod_map id (cons iv) <$> kill_live cur ivs'
  end.
Definition mm_unlink (st : MemStore) (dir : Handle) (name : bytes) : Error * MemStore :=
  let key := (h_id dir, name) in
  match mm_links st !! key with
  | None => (NOENT, st)
  | Some ivs =>
      match kill_live (mm_cur st) ivs with
      | None => (NOENT, st)
      | Some (child, ivs') =>
          let st1 := mm_set_links st (<[key := ivs']> (mm_links st)) in
          let st2 := liveVer st1 child (λ r, set_nlink (u32 (r_nlink r - 1)) r) in
          (OK, touch (touch st2 (h_id dir)) child)
      end
  end.

Definition mm_move (st : MemStore) (sdir : Handle) (sn : bytes) (ddir : Handle) (dn : bytes) : Error * MemStore :=
  match linkLiveAt st (h_id sdir, sn) LATEST with
  | None => (NOENT, st)
  | Some child =>
      let '(e, st1) := mm_link st ddir dn (mkHandle child LATEST) in
      if decide (e = OK) then mm_unlink st1 sdir sn else (e, st1)
  end.

Definition mm_setContent (st : MemStore) (reg : Handle) (c : bytes) : Error * MemStore :=
  if negb (mm_type st reg =? tcode REG) then (INVAL, st)
  else (OK, touch (liveVer st (h_id reg) (set_blob c)) (h_id reg)).
Definition mm_setTarget (st : MemStore) (lnk : Handle) (t : bytes) : Error * MemStore :=
  if negb (mm_type st lnk =? tcode LNK) then (INVAL, st)
  else (OK, touch (liveVer st (h_id lnk) (set_blob t)) (h_id lnk)).
Definition mm_setRdev (st : MemStore) (dev : Handle) (maj min : Z) : Error * MemStore :=
  if negb (mm_type st dev =? tcode BLK) && negb (mm_type st dev =? tcode CHR) then (INVAL, st)
  else (OK, touch (liveVer st (h_id dev) (set_spec (Z.lor (Z.shiftl maj 32) min))) (h_id dev)).
Definition mm_setContentSeed (st : MemStore) (reg : Handle) (seed : Z) : Error * MemStore :=
  if negb (mm_type st reg =? tcode REG) then (INVAL, st)
  else (OK, touch (liveVer st (h_id reg) (set_spec seed)) (h_id reg)).

Definition mm_snap_ids (st : MemStore) (base start : Z) : list Z :=
  filter (λ n, effR st base n ≠ None) (seqZ start (mm_cur st - start)).
(** The entries live in the handle's view, in name order. *)
Definition mm_entries (st : MemStore) (dir : Handle) (names : list bytes) : list (bytes * Handle) :=
  omap (λ name, (λ c, (name, mkHandle c (h_snap dir))) <$> linkLiveAt st (h_id dir, name) (h_snap dir)) names.
Definition mm_readdir (st : MemStore) (dir : Handle) : list (bytes * Handle) :=
  if isSnapDir (h_id dir) then
    let base := snapBase (h_id dir) in snap_entry base <$> mm_snap_ids st base 1
  else match mm_names st !! h_id dir with
  | None => []
  | Some names => mm_entries st dir names
  end.

Definition mm_readdirPage (st : MemStore) (dir : Handle) (after : bytes) (max : nat) : DirPage :=
  if isSnapDir (h_id dir) then
    let base := snapBase (h_id dir) in
    let start :=
      match after with
      | [] => 1
      | _ => match parseSnap after with Some c => u64 (c + 1) | None => 1 end
      end in
    page_loop max (snap_entry base <$> mm_snap_ids st base start) [] []
  else match mm_names st !! h_id dir with
  | None => mkPage [] [] true
  | Some names => name_page_loop max after (mm_entries st dir names) [] []
  end.

(** [std::map] iteration over the links: ascending (directory, name). *)
Definition key_leb (a b : Z * bytes) : bool :=
  (a.1 <? b.1) || ((a.1 =? b.1) && negb (bytes_ltb b.2 a.2)).
Definition key_le (a b : (Z * bytes) * list LinkIv) : Prop := key_leb a.1 b.1 = true.
Global Instance key_le_dec a b : Decision (key_le a b).
Proof. unfold key_le. apply _. Defined.
Definition links_in_order (st : MemStore) : list ((Z * bytes) * list LinkIv) :=
  merge_sort key_le (map_to_list (mm_links st)).

Fixpoint mm_parents_loop (id rg : Z) (ps : list (Z * LinkIv)) (seen : gset Z) : list Z :=
  match ps with
  | [] => []
  | (d, iv) :: ps' =>
      if (iv_child iv =? id) && liveAt iv rg then
        if decide (d ∈ seen) then mm_parents_loop id rg ps' seen
        else d :: mm_parents_loop id rg ps' ({[d]} ∪ seen)
      else mm_parents_loop id rg ps' seen
  end.
Definition mm_parents (st : MemStore) (node : Handle) : list Handle :=
  (λ d, mkHandle d (h_snap node)) <$>
    mm_parents_loop (h_id node) (mm_resolve st (h_snap node))
      (links_in_order st ≫= λ '(k, ivs), (λ iv, (k.1, iv)) <$> ivs) ∅.

Definition mm_snapshot (st : MemStore) (label : bytes) : Z * MemStore :=
  let v := mm_cur st in
  (v, mkMem (mm_nodes st) (mm_links st) (mm_names st) (mm_changes st)
            (<[v := mkSnapInfo v (mm_clock st) label]> (mm_snaps st)) (mm_config st)
            (mm_next st) (u64 (mm_cur st + 1)) (mm_root st) (mm_clock st)).
Definition mm_snapInfo (st : MemStore) (g : Z) : SnapInfo :=
  default (mkSnapInfo g 0 []) (mm_snaps st !! g).

Definition mm_alive (st : MemStore) (id g : Z) : option NodeRec :=
  match effR st id g with
  | Some v => if 0 <? r_nlink (nv_rec v) then Some (nv_rec v) else None
  | None => None
  end.
Definition mm_candidates (st : MemStore) (ra rb : Z) : list Z :=
  foldr (λ '(s, ids) acc, if (ra <? s) && (s <=? rb) then foldr zset_insert acc ids else acc)
        [] (map_to_list (mm_changes st)).
Definition mm_diffNode1 (st : MemStore) (ra rb id : Z) : list NodeDiff :=
  match mm_alive st id ra, mm_alive st id rb with
  | None, None => []
  | None, Some _ => [mkNodeDiff id CREATED]
  | Some _, None => [mkNodeDiff id NREMOVED]
  | Some va, Some vb =>
      if content_differs va vb then [mkNodeDiff id MODIFIED_CONTENT]
      else if attrs_differ va vb then [mkNodeDiff id MODIFIED_ATTRS] else []
  end.
Definition mm_diffNodes (st : MemStore) (a b : Z) : list NodeDiff :=
  mm_candidates st (mm_resolve st a) (mm_resolve st b) ≫=
    mm_diffNode1 st (mm_resolve st a) (mm_resolve st b).

Definition mm_diffPath1 (ra rb : Z) (e : (Z * bytes) * list LinkIv) : list PathDiff :=
  let '((d, n), ivs) := e in
  match liveAtR ivs ra, liveAtR ivs rb with
  | None, Some cb => [mkPathDiff ADDED d n cb]
  | Some ca, None => [mkPathDiff PREMOVED d n ca]
  | Some ca, Some cb =>
      if ca =? cb then [] else [mkPathDiff PREMOVED d n ca; mkPathDiff ADDED d n cb]
  | None, None => []
  end.
Definition mm_diffPaths (st : MemStore) (a b : Z) : list PathDiff :=
  links_in_order st ≫= mm_diffPath1 (mm_resolve st a) (mm_resolve st b).

Definition mm_stats (st : MemStore) (g : Z) : Stats :=
  let rg := mm_resolve st g in
  let s := fold_left (λ s e, match effR st e.1 rg with
                             | Some v => stats_node s (nv_rec v)
                             | None => s
                             end) (map_to_list (mm_nodes st)) Stats0 in
  fold_left (λ s iv, if liveAt iv rg
                     then mkStats (st_nodes s) (u64 (st_links s + 1)) (st_totalSize s) else s)
            ((map_to_list (mm_links st)).*2 ≫= id) s.

(** ** Node handles (class [MemNode]) *)

Definition mn_attr (st : MemStore) (h : Handle) : NodeRec := effAttr st (h_id h) (h_snap h).
Definition mn_mutate (st : MemStore) (h : Handle) (f : NodeRec → NodeRec) : MemStore :=
  touch (liveVer st (h_id h) f) (h_id h).
Definition mn_blob (st : MemStore) (h : Handle) (want : FType) : bytes :=
  if mm_type st h =? tcode want
  then match mm_eff st (h_id h) (h_snap h) with Some v => r_blob (nv_rec v) | None => [] end
  else [].
Definition mn_target st h := mn_blob st h LNK.
Definition mn_content st h := mn_blob st h REG.
Definition mn_rdev (st : MemStore) (h : Handle) : Z * Z :=
  let s := match mm_eff st (h_id h) (h_snap h) with Some v => r_spec (nv_rec v) | None => 0 end in
  (u32 (Z.shiftr s 32), u32 (Z.land s (2 ^ 32 - 1))).
Definition mn_contentSeed (st : MemStore) (h : Handle) : Z :=
  if negb (mm_type st h =? tcode REG) then h_id h
  else match mm_eff st (h_id h) (h_snap h) with
       | Some v => if r_spec (nv_rec v) =? 0 then h_id h else r_spec (nv_rec v)
       | None => h_id h
       end.
