(* ===== verification/MemSim.v ===== *)
(** * MemSim: the reference model refines the same abstract file system

    The view of a snapshot in [MemStore], its invariant, and the effect of each
    primitive on every snapshot's view. *)
From S2P Require Import Prelude Dfs Keys Kv NodeRec Spec Store Inv MemStore.
Local Open Scope Z_scope.
Set Warnings "-clear-no-such-hyp".

Implicit Types (st : MemStore) (id g d c cur : Z) (n : bytes) (vs : list NodeVer) (ivs : list LinkIv).

Definition mview st g : View :=
  mkView (λ id, nv_rec <$> effR st id g) (λ d n, linkLiveR st (d, n) g).

(** ** Version lists *)

Definition ver_lt (v w : NodeVer) : Prop := nv_snap v < nv_snap w.
Definition vers_ok cur vs : Prop :=
  vs ≠ [] ∧ StronglySorted ver_lt vs ∧ Forall (λ v, 1 <= nv_snap v <= cur ∧ in32 (r_nlink (nv_rec v))) vs.

Lemma effR_loop_app vs v rg best :
  Forall (λ w, nv_snap w <= rg) vs →
  effR_loop (vs ++ [v]) rg best = if nv_snap v <=? rg then Some v else effR_loop vs rg best.
Proof.
  intros Hvs. revert best. induction Hvs as [|w vs Hw Hvs IH]; intros best; simpl.
  - by case_match.
  - rewrite (proj2 (Z.leb_le _ _) Hw). apply IH.
Qed.

Lemma effR_loop_cut vs v rg best :
  rg < nv_snap v → effR_loop (vs ++ [v]) rg best = effR_loop vs rg best.
Proof.
  intros Hv. revert best. induction vs as [|w vs IH]; intros best; simpl.
  - by rewrite (proj2 (Z.leb_gt _ _) Hv).
  - case_match; [apply IH|done].
Qed.

Lemma effR_loop_cur cur vs g : vers_ok cur vs → cur <= g → effR_loop vs g None = last vs.
Proof.
  intros (Hne & _ & Hb) Hg. destruct vs as [|v vs _] using rev_ind; [done|].
  apply Forall_app in Hb as [Hb Hv]. rewrite Forall_singleton in Hv.
  rewrite effR_loop_app, last_snoc.
  - by rewrite (proj2 (Z.leb_le _ _)) by lia.
  - eapply Forall_impl; [exact Hb|]. simpl. lia.
Qed.

Lemma upd_last_snoc f vs v : upd_last f (vs ++ [v]) = vs ++ [mkVer (nv_snap v) (f (nv_rec v))].
Proof.
  induction vs as [|w vs IH]; [done|]. simpl. rewrite IH. by destruct vs.
Qed.

(** One assignment through [liveVer] changes the current version only. *)
Lemma liveVer_vers cur vs f :
  vers_ok cur vs → 1 <= cur → (∀ r, in32 (r_nlink r) → in32 (r_nlink (f r))) →
  let vs' := upd_last f (push_ver cur vs) in
  vers_ok cur vs' ∧ (∀ g, g < cur → effR_loop vs' g None = effR_loop vs g None) ∧
  nv_rec <$> effR_loop vs' cur None = f <$> (nv_rec <$> effR_loop vs cur None).
Proof.
  intros V Hcur Hf. pose proof V as (Hne & Hs & Hb). cbv zeta.
  rewrite (effR_loop_cur cur vs cur V) by lia.
  destruct vs as [|v vs _] using rev_ind; [done|]. unfold push_ver. rewrite last_snoc.
  apply Forall_app in Hb as [Hb Hv]. rewrite Forall_singleton in Hv. destruct Hv as [Hv Hnl].
  assert (Forall (λ w, nv_snap w <= cur) (vs ++ [v])) as Hle.
  { apply Forall_app. split; [eapply Forall_impl; [exact Hb|]; simpl; lia|]. apply Forall_singleton. lia. }
  apply StronglySorted_app in Hs as (H12 & H1 & H2).
  destruct (Z.eqb_spec (nv_snap v) cur) as [E|E]; rewrite upd_last_snoc.
  - assert (vers_ok cur (vs ++ [mkVer (nv_snap v) (f (nv_rec v))])) as V'.
    { split_and!; [by destruct vs| |].
      - apply StronglySorted_app. split_and!; [|done|repeat constructor].
        intros x y Hx ->%list_elem_of_singleton. apply (H12 x v Hx). by left.
      - apply Forall_app. split; [done|]. apply Forall_singleton. simpl. auto. }
    split_and!; [done| |].
    + intros g Hg. rewrite !effR_loop_cut by (simpl; lia). done.
    + rewrite (effR_loop_cur cur _ cur V') by lia. by rewrite last_snoc.
  - assert (vers_ok cur ((vs ++ [v]) ++ [mkVer cur (f (nv_rec v))])) as V'.
    { split_and!; [by destruct vs| |].
      - apply StronglySorted_app. split_and!; [|apply StronglySorted_app; done|repeat constructor].
        intros x y Hx ->%list_elem_of_singleton. unfold ver_lt. simpl.
        apply elem_of_app in Hx as [Hx| ->%list_elem_of_singleton]; [|lia].
        specialize (H12 x v Hx ltac:(left)). unfold ver_lt in H12. lia.
      - apply Forall_app. split; [apply Forall_app; split; [done|by apply Forall_singleton]|].
        apply Forall_singleton. simpl. split; [lia|auto]. }
    simpl. split_and!; [done| |].
    + intros g Hg. rewrite effR_loop_cut by (simpl; lia). done.
    + rewrite (effR_loop_cur cur _ cur V') by lia. by rewrite last_snoc.
Qed.

(** ** Link lifetimes *)

Definition iv_before (i j : LinkIv) : Prop := iv_dead i ≠ 0 ∧ iv_dead i <= iv_born j.
Definition iv_ok cur (i : LinkIv) : Prop :=
  1 <= iv_born i <= cur ∧ (iv_dead i = 0 ∨ iv_born i < iv_dead i <= cur).
Definition ivs_ok cur ivs : Prop := StronglySorted iv_before ivs ∧ Forall (iv_ok cur) ivs.

Lemma liveAt_spec (i : LinkIv) g : liveAt i g = true ↔ iv_born i <= g ∧ (iv_dead i = 0 ∨ g < iv_dead i).
Proof. unfold liveAt. rewrite andb_true_iff, orb_true_iff, Z.leb_le, Z.eqb_eq, Z.ltb_lt. done. Qed.

Lemma liveAtR_snoc ivs i g :
  liveAtR (ivs ++ [i]) g =
    match liveAtR ivs g with Some c => Some c | None => if liveAt i g then Some (iv_child i) else None end.
Proof. induction ivs as [|j ivs IH]; simpl; [by case_match|]. by destruct (liveAt j g). Qed.

(** A new interval: alive from the current version on. *)
Lemma ivs_link cur ivs c :
  ivs_ok cur ivs → 1 <= cur → liveAtR ivs cur = None →
  let ivs' := ivs ++ [mkIv cur 0 c] in
  ivs_ok cur ivs' ∧ (∀ g, g < cur → liveAtR ivs' g = liveAtR ivs g) ∧ liveAtR ivs' cur = Some c.
Proof.
  intros [Hs Hb] Hcur Hno ivs'. split_and!.
  - split; [apply StronglySorted_app; split_and!; [|done|repeat constructor]|].
    + intros i j Hi ->%list_elem_of_singleton. unfold iv_before. simpl.
      rewrite Forall_forall in Hb. destruct (Hb i Hi) as [Hbi [Hd|Hd]]; [|lia]. exfalso.
      clear -Hno Hi Hbi Hd. induction ivs as [|k ivs IH]; [set_solver|]. simpl in Hno.
      destruct (liveAt k cur) eqn:E; [done|]. apply elem_of_cons in Hi as [<-|Hi]; [|auto].
      rewrite (proj2 (liveAt_spec i cur)) in E; [done|lia].
    + apply Forall_app. split; [done|]. apply Forall_singleton. split; simpl; lia.
  - intros g Hg. unfold ivs'. rewrite liveAtR_snoc.
    replace (liveAt (mkIv cur 0 c) g) with false; [by destruct (liveAtR ivs g)|].
    symmetry. apply not_true_iff_false. rewrite liveAt_spec. simpl. lia.
  - unfold ivs'. rewrite liveAtR_snoc, Hno. by rewrite (proj2 (liveAt_spec _ cur)) by (simpl; lia).
Qed.

Lemma kill_live_elem cur ivs c ivs' j :
  kill_live cur ivs = Some (c, ivs') → j ∈ ivs' → ∃ j', j' ∈ ivs ∧ iv_born j = iv_born j'.
Proof.
  revert ivs'. induction ivs as [|i ivs IH]; intros ivs'; simpl; [done|]. destruct (liveAt i cur).
  - intros [= <- <-]. case_match; [intros; exists j; set_solver|].
    intros [->|Hj]%elem_of_cons; [exists i|exists j]; set_solver.
  - intros ([c1 ivs1] & Hk & [= -> ->])%fmap_Some [->|Hj]%elem_of_cons; [exists i; set_solver|].
    destruct (IH ivs1 Hk Hj) as (j' & ? & ?). exists j'. set_solver.
Qed.

(** Closing or erasing the interval that is live now. *)
Lemma ivs_kill cur ivs c ivs' :
  ivs_ok cur ivs → kill_live cur ivs = Some (c, ivs') →
  ivs_ok cur ivs' ∧ (∀ g, g < cur → liveAtR ivs' g = liveAtR ivs g) ∧
  liveAtR ivs cur = Some c ∧ liveAtR ivs' cur = None.
Proof.
  intros [Hs Hb]. revert ivs'. induction Hs as [|i ivs Hs IH H0]; intros ivs' Hk; [done|].
  apply Forall_cons in Hb as [Hi Hb]. simpl in Hk. rewrite Forall_forall in H0.
  destruct (liveAt i cur) eqn:E.
  - pose proof E as El. apply liveAt_spec in El as [_ El]. destruct Hi as [Hbi Hdi].
    assert (ivs = []) as ->.
    { destruct ivs as [|j ivs]; [done|]. destruct (H0 j ltac:(left)) as [? Hle].
      apply Forall_cons in Hb as [[? _] _]. lia. }
    simplify_eq. simpl. rewrite E. destruct (Z.eqb_spec (iv_born i) cur) as [E'|E']; simpl.
    + split_and!; [split; constructor| |done|done]. intros g Hg.
      by replace (liveAt i g) with false by (symmetry; apply not_true_iff_false; rewrite liveAt_spec; lia).
    + split_and!; [split; repeat constructor; simpl; lia| |done|].
      * intros g Hg. unfold liveAt. simpl. destruct (iv_born i <=? g) eqn:?; simpl; [|done].
        rewrite (proj2 (Z.eqb_neq cur 0)), (proj2 (Z.ltb_lt g cur)) by lia. simpl.
        destruct Hdi as [->|?]; [done|]. rewrite (proj2 (Z.ltb_lt g (iv_dead i))) by lia. by rewrite orb_true_r.
      * replace (liveAt (mkIv (iv_born i) cur (iv_child i)) cur) with false; [done|].
        symmetry. apply not_true_iff_false. rewrite liveAt_spec. simpl. lia.
  - apply fmap_Some in Hk as ([c' ivs1] & Hk & [= -> ->]).
    destruct (IH Hb ivs1 Hk) as ([Hs1 Hb1] & Hg1 & Hc1 & Hn1). simpl. rewrite E. split_and!; [|..|done|done].
    + split; constructor; try done. apply Forall_forall. intros j Hj.
      apply (kill_live_elem cur ivs c' ivs1) in Hj as (j' & Hj' & Hbj); [|done].
      destruct (H0 j' Hj') as [? ?]. split; [done|]. by rewrite Hbj.
    + intros g Hg. case_match; [done|]. by apply Hg1.
Qed.

(** ** The invariant *)

(** The tables alone, then with every snapshot's tree. *)
Record mem_shape st : Prop := {
  mi_cur : 1 <= mm_cur st < LATEST;
  mi_next : 2 <= mm_next st <= 2 ^ 63;
  mi_nodes id vs : mm_nodes st !! id = Some vs → 1 <= id < mm_next st ∧ vers_ok (mm_cur st) vs;
  mi_links d n ivs : mm_links st !! (d, n) = Some ivs →
    in64 d ∧ ivs_ok (mm_cur st) ivs ∧ n ∈ mm_names_of st d;
  mi_names d : StronglySorted bytes_lt (mm_names_of st d);
}.
Record mem_inv st : Prop := {
  mi_shape :> mem_shape st;
  mi_graph g : 1 <= g <= mm_cur st → graph (mview st g)
}.

Definition abs_mem st : FS := mkFS (mm_cur st) (mm_next st) (mm_clock st) (mview st (mm_cur st)) (mview st).

Lemma elem_of_name_insert x y (l : list bytes) : x ∈ name_insert y l ↔ x = y ∨ x ∈ l.
Proof.
  induction l as [|z l IH]; simpl; [set_solver|].
  destruct (bytes_ltb y z); [set_solver|]. case_decide; set_solver.
Qed.
Lemma name_insert_sorted y (l : list bytes) :
  StronglySorted bytes_lt l → StronglySorted bytes_lt (name_insert y l).
Proof.
  induction 1 as [|z l Hl IH Hz]; simpl; [repeat constructor|]. rewrite Forall_forall in Hz.
  destruct (bytes_ltb y z) eqn:E.
  - constructor; [constructor; [done|by apply Forall_forall]|]. apply Forall_forall.
    intros x [->|Hx]%elem_of_cons; [done|]. etrans; [exact E|by apply Hz].
  - case_decide; [constructor; [done|by apply Forall_forall]|].
    constructor; [done|]. apply Forall_forall. intros x [->|Hx]%elem_of_name_insert; [|auto].
    apply bytes_ltb_false in E as [->|E]; done.
Qed.

Lemma mem_graph_now st : mem_inv st → graph (mview st (mm_cur st)).
Proof. intros I. apply I. pose proof (mi_cur _ I). lia. Qed.
Lemma mem_resolve_latest st : mm_resolve st LATEST = mm_cur st.
Proof. done. Qed.

(** What each primitive does to the views. *)
Lemma mview_touch st id g : mview (touch st id) g = mview st g.
Proof. done. Qed.

Lemma mview_liveVer st id vs f g :
  mem_shape st → mm_nodes st !! id = Some vs → (∀ r, in32 (r_nlink r) → in32 (r_nlink (f r))) →
  (g < mm_cur st → mview (liveVer st id f) g ≡ mview st g) ∧
  mview (liveVer st id f) (mm_cur st) ≡ v_update f id (mview st (mm_cur st)).
Proof.
  intros I Hvs Hf. destruct (mi_nodes _ I _ _ Hvs) as [_ V].
  destruct (liveVer_vers _ _ f V) as (_ & Hold & Hnow); [apply I|done|].
  assert (∀ x g, effR (liveVer st id f) x g =
    if decide (x = id) then effR_loop (upd_last f (push_ver (mm_cur st) vs)) g None else effR st x g) as He.
  { intros x g'. unfold effR, liveVer. simpl. rewrite Hvs. simpl. case_decide.
    - subst. by rewrite lookup_insert_eq.
    - by rewrite lookup_insert_ne. }
  split.
  - intros Hg x _. simpl. rewrite He. split; [|done]. case_decide; [|done]. subst.
    rewrite Hold by done. unfold effR. by rewrite Hvs.
  - intros x _. simpl. rewrite He. split; [|done]. case_decide; [|done]. subst.
    rewrite Hnow. unfold effR. by rewrite Hvs.
Qed.

Lemma effR_now st id vs : mem_shape st → mm_nodes st !! id = Some vs → is_Some (effR st id (mm_cur st)).
Proof.
  intros I Hvs. destruct (mi_nodes _ I _ _ Hvs) as [_ V]. unfold effR. rewrite Hvs.
  rewrite (effR_loop_cur _ _ _ V) by lia. destruct V as (Hne & _ & _).
  destruct vs as [|v vs _] using rev_ind; [done|]. rewrite last_snoc. eauto.
Qed.
Lemma effR_node st id g v : effR st id g = Some v → is_Some (mm_nodes st !! id).
Proof. unfold effR. destruct (mm_nodes st !! id); [eauto|done]. Qed.

Lemma liveVer_shape st id f :
  mem_shape st → is_Some (mm_nodes st !! id) → (∀ r, in32 (r_nlink r) → in32 (r_nlink (f r))) →
  mem_shape (liveVer st id f).
Proof.
  intros I [vs Hvs] Hf. destruct (mi_nodes _ I _ _ Hvs) as [Hid Vok].
  split; try apply I. intros x vs'. unfold liveVer. simpl. rewrite Hvs. simpl. intros Hx.
  destruct (decide (x = id)) as [->|Hne].
  - rewrite lookup_insert_eq in Hx. simplify_eq. split; [done|].
    apply liveVer_vers; [done|apply I|done].
  - rewrite lookup_insert_ne in Hx by done. by apply I.
Qed.

(** A state whose earlier views are the old ones, with a new current tree. *)
Lemma mem_now st st' (v : View) :
  mem_inv st → mem_shape st' → mm_cur st' = mm_cur st → mm_next st' = mm_next st →
  mm_clock st' = mm_clock st → (∀ g, g < mm_cur st → mview st' g ≡ mview st g) →
  mview st' (mm_cur st) ≡ v → graph v →
  mem_inv st' ∧ abs_mem st' ≡ set_now v (abs_mem st).
Proof.
  intros I Sh Ec En Et Hold Hnow G. split.
  - split; [done|]. rewrite Ec. intros g Hg. destruct (decide (g = mm_cur st)) as [->|].
    + by rewrite Hnow.
    + rewrite Hold by lia. by apply I.
  - split_and!; simpl; rewrite ?Ec; try done. intros g Hg. apply Hold. lia.
Qed.

(** Rewriting the current version of an existing node. *)
Lemma liveVer_inv st id f :
  mem_inv st → is_Some (v_attr (mview st (mm_cur st)) id) → (∀ r, in32 (r_nlink r) → in32 (r_nlink (f r))) →
  graph (v_update f id (mview st (mm_cur st))) →
  let st' := touch (liveVer st id f) id in
  mem_inv st' ∧ abs_mem st' ≡ set_now (v_update f id (mview st (mm_cur st))) (abs_mem st).
Proof.
  intros I [r Hr] Hf G st'. apply fmap_Some in Hr as (v & Hv & _).
  pose proof (effR_node _ _ _ _ Hv) as Hn. pose proof Hn as [vs Hvs].
  pose proof (λ g, mview_liveVer st id vs f g I Hvs Hf) as V.
  apply mem_now; try done.
  - pose proof (liveVer_shape st id f I Hn Hf) as []. by split.
  - intros g Hg. by apply (V g).
  - apply (V 0).
Qed.

(** Editing the intervals of one name; every earlier view keeps. *)
Lemma mview_set_link st d n ivs' (c : option Z) g :
  (∀ g, g < mm_cur st → liveAtR ivs' g = linkLiveR st (d, n) g) → liveAtR ivs' (mm_cur st) = c →
  let st' := mm_set_links st (<[(d, n) := ivs']> (mm_links st)) in
  (g < mm_cur st → mview st' g ≡ mview st g) ∧
  mview st' (mm_cur st) ≡ v_set_ent d n c (mview st (mm_cur st)).
Proof.
  intros Hold Hnow st'.
  assert (∀ x m g, linkLiveR st' (x, m) g =
    if decide (x = d ∧ m = n) then liveAtR ivs' g else linkLiveR st (x, m) g) as He.
  { intros x m g'. unfold linkLiveR, st'. simpl. case_decide as E.
    - destruct E as [-> ->]. by rewrite lookup_insert_eq.
    - rewrite lookup_insert_ne by naive_solver. done. }
  split.
  - intros Hg x _. simpl. split; [done|]. intros m. rewrite He. case_decide as E; [|done].
    destruct E as [-> ->]. by apply Hold.
  - intros x _. simpl. split; [done|]. intros m. rewrite He. case_decide; [|done]. done.
Qed.

(** ** The cycle check *)

Lemma elem_of_mm_children st (n c : Z) :
  mem_inv st →
  c ∈ mm_children st n ↔ is_dir (mview st (mm_cur st)) c ∧ ∃ nm, v_ent (mview st (mm_cur st)) n nm = Some c.
Proof.
  intros I. unfold mm_children, linkLiveAt, mm_eff. rewrite !mem_resolve_latest.
  rewrite list_elem_of_omap. unfold is_dir. cbn [v_attr v_ent mview]. split.
  - intros (nm & _ & Hc). destruct (linkLiveR st (n, nm) (mm_cur st)) as [c'|] eqn:E; [|done].
    destruct (effR st c' (mm_cur st)) as [cv|] eqn:E'; [|done].
    destruct (Z.eqb_spec (r_type (nv_rec cv)) (tcode DIR)) as [Hty|]; [|done]. injection Hc as ->.
    split; [|eauto]. exists (nv_rec cv). split; [|done]. unfold effR in *. by rewrite E'.
  - intros ((r & Hr & Hty) & nm & He). apply fmap_Some in Hr as (cv & Hcv & ->).
    exists nm. rewrite He, Hcv, Hty. split; [|done].
    unfold linkLiveR in He. destruct (mm_links st !! (n, nm)) eqn:E; [|done].
    by destruct (mi_links _ I _ _ _ E) as (_ & _ & ?).
Qed.

Lemma mm_reachable_spec st from to :
  mem_inv st → in64 from → is_dir (mview st (mm_cur st)) to →
  mm_reachable st from to = true ↔ rtc (edge (mview st (mm_cur st))) from to.
Proof.
  intros I Hfrom Hto. pose proof (mem_graph_now _ I) as G.
  assert (is_Some (dfs_loop (mm_children st) (mm_fuel st) to [from] ∅)) as [b Hb].
  { apply (dfs_total _ (name_pairs st) fst); [|unfold mm_fuel; lia].
    intros n. transitivity (length (mm_names_of st n)); [apply length_omap_le|].
    destruct (mm_names st !! n) as [l|] eqn:E; unfold mm_names_of; rewrite E; simpl; [|lia].
    rewrite <- (length_fmap (pair n) l). apply NoDup_length_incl.
    - apply NoDup_fmap_2; [by intros ?? [=]|]. eapply (sorted_NoDup bytes_lt).
      pose proof (mi_names _ I n) as Hs. unfold mm_names_of in Hs. by rewrite E in Hs.
    - intros x (m & -> & Hm)%list_elem_of_fmap. apply list_elem_of_filter. split; [done|].
      unfold name_pairs. apply list_elem_of_bind. exists (n, l). split; [|by apply elem_of_map_to_list].
      apply list_elem_of_fmap. eauto. }
  unfold mm_reachable. rewrite Hb. simpl. rewrite (dfs_correct _ _ _ _ _ Hb). clear Hb b. split; intros Hr.
  - induction Hr as [x|x y z Hxy Hyz IH]; [done|].
    apply elem_of_mm_children in Hxy as [Hd [nm He]]; [|done].
    assert (in64 y) as Hy by (apply (gr_ent _ G x nm y Hfrom He)).
    apply rtc_l with y; [split; eauto|by apply IH].
  - clear Hfrom. induction Hr as [x|x y z Hxy Hyz IH]; [done|]. apply rtc_l with y; [|by apply IH].
    apply elem_of_mm_children; [done|]. destruct Hxy as (Hx & nm & He). split; [|eauto].
    destruct Hyz as [|y y' z Hyy _]; [done|]. by eapply edge_dir.
Qed.
