(* ===== verification/MemOps.v ===== *)
(** * MemOps: every operation of the reference model is a step of the abstract
    file system

    The same operations as [Inv.Op], run on [MemStore]; each keeps [mem_inv]
    and refines [fs_step], provided its handles name existing, live nodes
    ([fs_ok]): the reference model looks a missing node up as a zero record
    and would create it on the first write. *)
From S2P Require Import Prelude Dfs Keys Kv NodeRec Spec Store Links Inv MemStore MemSim.
Local Open Scope Z_scope.
Set Warnings "-clear-no-such-hyp".

Implicit Types (st : MemStore) (id g d c cur : Z) (s : FS).

Definition exec_mem st (op : Op) : Error * MemStore :=
  match op with
  | OpMkdir => (OK, (mm_mkdir st).2)
  | OpMkfile c => (OK, (mm_mkfile st c).2)
  | OpSymlink t => (OK, (mm_symlink st t).2)
  | OpMkfifo => (OK, (mm_mkfifo st).2)
  | OpMksock => (OK, (mm_mksock st).2)
  | OpMknod ty maj min => (OK, (mm_mknod st ty maj min).2)
  | OpLink d n c => mm_link st d n c
  | OpUnlink d n => mm_unlink st d n
  | OpMove sd sn dd dn => mm_move st sd sn dd dn
  | OpSetContent h c => mm_setContent st h c
  | OpSetTarget h t => mm_setTarget st h t
  | OpSetRdev h maj min => mm_setRdev st h maj min
  | OpSetSeed h seed => mm_setContentSeed st h seed
  | OpPut a h x => (OK, mn_mutate st h (attr_set a x))
  | OpSetTime t => (OK, mm_setTime st t)
  | OpSetConfig blob => (OK, mm_setContentConfig st blob)
  | OpSnapshot label => (OK, (mm_snapshot st label).2)
  end.

(** A handle to an existing node of the live tree. *)
Definition fs_handle s (h : Handle) : Prop :=
  h_snap h = LATEST ∧ 0 <= h_id h < 2 ^ 63 ∧ is_Some (v_attr (f_now s) (h_id h)).
Definition fs_room s c : Prop := ∀ r, v_attr (f_now s) c = Some r → r_nlink r + 1 < 2 ^ 32.
Definition fs_ok s (op : Op) : Prop :=
  match op with
  | OpMkdir | OpMkfile _ | OpSymlink _ | OpMkfifo | OpMksock => f_next s + 1 <= 2 ^ 63
  | OpMknod _ maj min => in32 maj ∧ in32 min ∧ f_next s + 1 <= 2 ^ 63
  | OpLink d n c => fs_handle s d ∧ fs_handle s c ∧ fs_room s (h_id c)
  | OpUnlink d n => fs_handle s d
  | OpMove sd sn dd dn => fs_handle s sd ∧ fs_handle s dd ∧
      ∀ c, v_ent (f_now s) (h_id sd) sn = Some c → fs_room s c
  | OpSetContent h _ | OpSetTarget h _ => fs_handle s h
  | OpSetRdev h maj min => fs_handle s h ∧ in32 maj ∧ in32 min
  | OpSetSeed h seed => fs_handle s h ∧ in64 seed
  | OpPut a h x => fs_handle s h ∧ attr_ok a x
  | OpSetTime t => in64 t
  | OpSetConfig _ => True
  | OpSnapshot _ => f_cur s + 1 < LATEST
  end.

(** ** Reading through live handles *)

Lemma fs_handle_in64 s h : fs_handle s h → in64 (h_id h).
Proof. intros (_ & ? & _). word_lia. Qed.
Lemma isSnapDir_small id : 0 <= id < 2 ^ 63 → isSnapDir id = false.
Proof. intros. rewrite isSnapDir_spec by word_lia. apply Z.leb_gt. lia. Qed.

Lemma mm_type_live st h r :
  fs_handle (abs_mem st) h → v_attr (mview st (mm_cur st)) (h_id h) = Some r → mm_type st h = r_type r.
Proof.
  intros (Hs & Hid & _) Hr. unfold mm_type, effAttr, effAttr_at, mm_eff.
  rewrite isSnapDir_small, Hs, mem_resolve_latest by done.
  apply fmap_Some in Hr as (v & -> & ->). done.
Qed.
Lemma mm_live_ent st d n : linkLiveAt st (d, n) LATEST = v_ent (mview st (mm_cur st)) d n.
Proof. done. Qed.

Lemma mem_nlink st id r :
  mem_shape st → v_attr (mview st (mm_cur st)) id = Some r → in32 (r_nlink r).
Proof.
  intros Sh Hr. apply fmap_Some in Hr as (v & Hv & ->). destruct (effR_node _ _ _ _ Hv) as [vs Hvs].
  unfold effR in Hv. rewrite Hvs in Hv. destruct (mi_nodes _ Sh _ _ Hvs) as [_ V].
  rewrite (effR_loop_cur _ _ _ V) in Hv by lia. destruct V as (_ & _ & Hb).
  apply last_Some in Hv as [l ->]. apply Forall_app in Hb as [_ Hb]. rewrite Forall_singleton in Hb. apply Hb.
Qed.
Lemma mem_id st id r : mem_shape st → v_attr (mview st (mm_cur st)) id = Some r → 1 <= id < mm_next st.
Proof.
  intros Sh Hr. apply fmap_Some in Hr as (v & Hv & ->). destruct (effR_node _ _ _ _ Hv) as [vs Hvs].
  by apply (mi_nodes _ Sh _ _ Hvs).
Qed.

(** ** link *)

Definition mm_add_entry st d (n : bytes) c : MemStore :=
  let st1 := mm_set_links st (<[(d, n) := default [] (mm_links st !! (d, n)) ++ [mkIv (mm_cur st) 0 c]]> (mm_links st)) in
  mm_set_names st1 (<[d := name_insert n (mm_names_of st1 d)]> (mm_names st1)).

Lemma mm_add_entry_spec st d n c :
  mem_shape st → in64 d → v_ent (mview st (mm_cur st)) d n = None →
  let st' := mm_add_entry st d n c in
  mem_shape st' ∧ (∀ g, g < mm_cur st → mview st' g ≡ mview st g) ∧
  mview st' (mm_cur st) ≡ v_set_ent d n (Some c) (mview st (mm_cur st)).
Proof.
  intros Sh Hd Hno st'.
  assert (ivs_ok (mm_cur st) (default [] (mm_links st !! (d, n)))) as Hiv.
  { destruct (mm_links st !! (d, n)) eqn:E; simpl; [by apply (mi_links _ Sh _ _ _ E)|]. split; constructor. }
  assert (∀ g, liveAtR (default [] (mm_links st !! (d, n))) g = linkLiveR st (d, n) g) as Hl.
  { intros g. unfold linkLiveR. by destruct (mm_links st !! (d, n)). }
  destruct (ivs_link (mm_cur st) _ c Hiv) as (Hok & Hold & Hnow); [apply Sh|by rewrite Hl|].
  assert (∀ x, mm_names_of st' x = if decide (x = d) then name_insert n (mm_names_of st d) else mm_names_of st x) as Hn.
  { intros x. unfold st', mm_add_entry, mm_names_of. simpl. case_decide; subst;
      [by rewrite lookup_insert_eq|by rewrite lookup_insert_ne]. }
  split_and!.
  - split; try apply Sh.
    + intros x m ivs. rewrite Hn. unfold st', mm_add_entry. simpl. intros Hx.
      destruct (decide ((x, m) = (d, n))) as [[= -> ->]|Hne].
      * rewrite lookup_insert_eq in Hx. simplify_eq. split_and!; [done|done|].
        rewrite decide_True by done. apply elem_of_name_insert. by left.
      * rewrite lookup_insert_ne in Hx by done. destruct (mi_links _ Sh _ _ _ Hx) as (? & ? & ?).
        split_and!; [done..|]. case_decide; [|done]. subst. apply elem_of_name_insert. by right.
    + intros x. rewrite Hn. case_decide; [apply name_insert_sorted|]; apply Sh.
  - intros g Hg. apply (mview_set_link st d n _ (Some c) g); [|done|done]. intros g' ?. by rewrite Hold.
  - apply (mview_set_link st d n _ (Some c) 0); [|done]. intros g' ?. by rewrite Hold.
Qed.

Lemma mm_link_sim st (dir : Handle) n (child : Handle) :
  mem_inv st → fs_handle (abs_mem st) dir → fs_handle (abs_mem st) child → fs_room (abs_mem st) (h_id child) →
  let w := mm_link st dir n child in
  mem_inv w.2 ∧ ∃ v, link_res (mview st (mm_cur st)) (h_id dir) n (h_id child) w.1 v ∧
    abs_mem w.2 ≡ set_now v (abs_mem st).
Proof.
  intros I Hd Hc Hroom. pose proof (mem_graph_now _ I) as G.
  pose proof Hd as (_ & _ & [rd Hrd]). pose proof Hc as (_ & _ & [rc Hrc]). simpl in Hrd, Hrc, Hroom.
  assert (∀ e, link_res (mview st (mm_cur st)) (h_id dir) n (h_id child) e (mview st (mm_cur st)) →
    mem_inv st ∧ ∃ v, link_res (mview st (mm_cur st)) (h_id dir) n (h_id child) e v ∧
      abs_mem st ≡ set_now v (abs_mem st)) as Hsame by eauto.
  unfold mm_link. destruct (decide (n = SNAPSHOT_NAME)); [apply Hsame; by constructor|].
  rewrite (mm_type_live _ _ _ Hd Hrd), (mm_type_live _ _ _ Hc Hrc).
  destruct (Z.eqb_spec (r_type rd) (tcode DIR)) as [Hty|]; cbn [negb]; [|apply Hsame; by eapply LinkNotDir].
  assert (is_dir (mview st (mm_cur st)) (h_id dir)) as Hdir by (exists rd; done).
  pose proof (mm_reachable_spec st (h_id child) (h_id dir) I (fs_handle_in64 _ _ Hc) Hdir) as Hreach.
  destruct ((r_type rc =? tcode DIR) && mm_reachable st (h_id child) (h_id dir)) eqn:Ecyc.
  { apply andb_true_iff in Ecyc as [Etc ?%Hreach]. apply Z.eqb_eq in Etc. apply Hsame, LinkCycle; try done.
    by exists rc. }
  assert (r_type rc = tcode DIR → ¬ rtc (edge (mview st (mm_cur st))) (h_id child) (h_id dir)) as Hno.
  { intros E%Z.eqb_eq Hr%Hreach. by rewrite E, Hr in Ecyc. }
  rewrite mm_live_ent. destruct (v_ent _ _ n) as [x|] eqn:Ee; [apply Hsame; by eapply LinkExist|].
  destruct (mm_add_entry_spec st (h_id dir) n (h_id child) I (fs_handle_in64 _ _ Hd) Ee) as (Sh & Vold & Vnow).
  apply fmap_Some in Hrc as (cv & Hcv & Hrc).
  pose proof (effR_node _ _ _ _ Hcv) as Hn. pose proof Hn as [vs Hvs].
  change (mm_nodes st) with (mm_nodes (mm_add_entry st (h_id dir) n (h_id child))) in Hn, Hvs.
  assert (∀ r, in32 (r_nlink r) → in32 (r_nlink (inc_nlink r))) as Hinc.
  { intros [] ?. unfold inc_nlink. simpl. apply u32_range. }
  pose proof (λ g, mview_liveVer _ _ _ inc_nlink g Sh Hvs Hinc) as V.
  assert (v_attr (mview st (mm_cur st)) (h_id child) = Some rc) as Hrc' by (simpl; by rewrite Hcv, Hrc).
  cbn [fst snd]. match goal with |- mem_inv ?x ∧ _ => set (st' := x) end.
  destruct (mem_now st st' (v_link (h_id dir) n (h_id child) (mview st (mm_cur st))) I) as [I' A];
    [..|split; [exact I'|]; eexists; split; [by eapply LinkOk|exact A]]; try done.
  - pose proof (liveVer_shape _ _ _ Sh Hn Hinc) as Sh'. destruct Sh'. by split.
  - intros g Hg. etrans; [by apply (V g)|by apply Vold].
  - etrans; [apply (V 0)|]. unfold v_link. by apply v_update_proper.
  - eapply graph_link; try done; [by apply fs_handle_in64 in Hd|by apply fs_handle_in64 in Hc| | |].
    + destruct (decide (r_type rc = tcode DIR)) as [E|E]; [by apply Hno|]. intros Hr.
      apply rtc_from_nondir in Hr; [|done|intros (r & Hr' & ?); congruence]. rewrite Hr in Hrc'. simpl in Hrc'. congruence.
    + pose proof (mem_nlink _ _ _ I Hrc'). word_lia.
    + by apply Hroom.
Qed.

(** ** unlink *)

Lemma kill_live_None (cur : Z) ivs : kill_live cur ivs = None ↔ liveAtR ivs cur = None.
Proof.
  induction ivs as [|i ivs IH]; simpl; [done|]. destruct (liveAt i cur); [done|]. by rewrite fmap_None.
Qed.

Lemma mm_set_ivs_shape st d n ivs0 ivs :
  mem_shape st → mm_links st !! (d, n) = Some ivs0 → ivs_ok (mm_cur st) ivs →
  mem_shape (mm_set_links st (<[(d, n) := ivs]> (mm_links st))).
Proof.
  intros Sh H0 Hok. split; try apply Sh. intros x m jvs. simpl. intros Hx.
  destruct (mi_links _ Sh _ _ _ H0) as (? & _ & ?). destruct (decide ((x, m) = (d, n))) as [[= -> ->]|Hne].
  - rewrite lookup_insert_eq in Hx. by simplify_eq.
  - rewrite lookup_insert_ne in Hx by done. by apply (mi_links _ Sh _ _ _ Hx).
Qed.

Lemma linked_nlink v dir n c rc :
  graph v → in64 dir → v_ent v dir n = Some c → v_attr v c = Some rc → 1 <= r_nlink rc.
Proof.
  intros G Hd He Hrc. destruct (gr_ent _ G _ _ _ Hd He) as (_ & _ & Hc & _).
  destruct (gr_nlink _ G c rc Hc Hrc) as (l & [_ Hln] & Hlen).
  assert ((dir, n) ∈ l) as Hin by by apply Hln.
  assert (1 <= Z.of_nat (length l)) by (destruct l; [set_solver|simpl; lia]).
  assert (0 <= root_link c) by (unfold root_link; case_match; lia). lia.
Qed.
Lemma mm_unlink_sim st (dir : Handle) n :
  mem_inv st → in64 (h_id dir) →
  let w := mm_unlink st dir n in
  mem_inv w.2 ∧ ∃ v, unlink_res (mview st (mm_cur st)) (h_id dir) n w.1 v ∧
    abs_mem w.2 ≡ set_now v (abs_mem st).
Proof.
  intros I Hd. pose proof (mem_graph_now _ I) as G. unfold mm_unlink.
  assert (v_ent (mview st (mm_cur st)) (h_id dir) n = None →
    mem_inv st ∧ ∃ v, unlink_res (mview st (mm_cur st)) (h_id dir) n NOENT v ∧
      abs_mem st ≡ set_now v (abs_mem st)) as Hsame.
  { intros Hno. split; [done|]. eexists. split; [by apply UnlinkNone|done]. }
  destruct (mm_links st !! (h_id dir, n)) as [ivs|] eqn:Hl.
  2:{ apply Hsame. simpl. unfold linkLiveR. by rewrite Hl. }
  destruct (kill_live (mm_cur st) ivs) as [[c ivs']|] eqn:Hk.
  2:{ apply Hsame. simpl. unfold linkLiveR. rewrite Hl. by apply kill_live_None. }
  destruct (mi_links _ I _ _ _ Hl) as (_ & Hiv & _).
  destruct (ivs_kill _ _ _ _ Hiv Hk) as (Hok & Hold & Hwas & Hnow).
  assert (v_ent (mview st (mm_cur st)) (h_id dir) n = Some c) as He by (simpl; unfold linkLiveR; by rewrite Hl).
  destruct (gr_ent _ G _ _ _ Hd He) as (_ & _ & Hc & [rc Hrc]).
  assert (∀ g, g < mm_cur st → liveAtR ivs' g = linkLiveR st (h_id dir, n) g) as Hold'.
  { intros g ?. unfold linkLiveR. rewrite Hl. by apply Hold. }
  pose proof (λ g, mview_set_link st (h_id dir) n ivs' None g Hold' Hnow) as V1.
  pose proof (mm_set_ivs_shape st (h_id dir) n ivs ivs' I Hl Hok) as Sh1.
  set (st1 := mm_set_links st _) in *.
  pose proof Hrc as (cv & Hcv & Erc)%fmap_Some. pose proof (effR_node _ _ _ _ Hcv) as Hn. pose proof Hn as [vs Hvs].
  change (mm_nodes st) with (mm_nodes st1) in Hn, Hvs.
  set (f := λ r, set_nlink (u32 (r_nlink r - 1)) r).
  assert (∀ r, in32 (r_nlink r) → in32 (r_nlink (f r))) as Hf by (intros [] ?; apply u32_range).
  pose proof (λ g, mview_liveVer _ _ _ f g Sh1 Hvs Hf) as V2.
  set (st' := touch _ c).
  destruct (mem_now st st' (v_unlink (h_id dir) n c (mview st (mm_cur st))) I) as [I' A];
    [..|split; [exact I'|]; eexists; split; [by eapply UnlinkOk|exact A]]; try done.
  - pose proof (liveVer_shape _ _ _ Sh1 Hn Hf) as []. by split.
  - intros g Hg. etrans; [by apply (V2 g)|by apply V1].
  - etrans; [apply (V2 0)|]. etrans; [apply v_update_proper, (V1 0)|].
    intros x Hx. simpl. split; [|done]. case_decide as E; [|done]. subst x.
    change (f <$> v_attr (mview st (mm_cur st)) c = dec_nlink <$> v_attr (mview st (mm_cur st)) c).
    rewrite Hrc. simpl. f_equal. pose proof (mem_nlink _ _ _ I Hrc).
    pose proof (linked_nlink _ _ _ _ _ G Hd He Hrc).
    unfold f, dec_nlink. rewrite (proj2 (Z.eqb_neq (r_nlink rc) 0)) by lia.
    by rewrite u32_small by word_lia.
  - by apply graph_unlink.
Qed.

(** ** move *)

Lemma mm_move_sim st (sd : Handle) sn (dd : Handle) dn_ :
  mem_inv st → fs_handle (abs_mem st) sd → fs_handle (abs_mem st) dd →
  (∀ c, v_ent (mview st (mm_cur st)) (h_id sd) sn = Some c → fs_room (abs_mem st) c) →
  let w := mm_move st sd sn dd dn_ in
  mem_inv w.2 ∧ ∃ v, move_res (mview st (mm_cur st)) (h_id sd) sn (h_id dd) dn_ w.1 v ∧
    abs_mem w.2 ≡ set_now v (abs_mem st).
Proof.
  intros I Hs Hd Hroom. pose proof (mem_graph_now _ I) as G. unfold mm_move.
  rewrite mm_live_ent. destruct (v_ent _ (h_id sd) sn) as [c|] eqn:He.
  2:{ split; [done|]. eexists. split; [by apply MoveNone|done]. }
  destruct (gr_ent _ G _ _ _ (fs_handle_in64 _ _ Hs) He) as (_ & _ & Hc & [rc Hrc]).
  assert (fs_handle (abs_mem st) (mkHandle c LATEST)) as Hch.
  { split_and!; simpl; [done|word_lia| |by eauto]. pose proof (mem_id _ _ _ I Hrc). pose proof (mi_next _ I). lia. }
  destruct (mm_link_sim st dd dn_ (mkHandle c LATEST) I Hd Hch (Hroom c eq_refl)) as (I1 & v1 & HR1 & A1).
  destruct (mm_link st dd dn_ (mkHandle c LATEST)) as [e st1]. simpl in I1, HR1, A1.
  case_decide as Ee; simpl.
  2:{ split; [done|]. exists v1. split; [|done]. assert (v1 = mview st (mm_cur st)) as -> by by destruct HR1.
    by eapply MoveFail. }
  subst e. assert (v1 = v_link (h_id dd) dn_ c (mview st (mm_cur st))) as -> by by inversion HR1.
  destruct (mm_unlink_sim st1 sd sn I1 (fs_handle_in64 _ _ Hs)) as (I2 & v2 & HR2 & A2).
  destruct (mm_unlink st1 sd sn) as [e2 st2]. simpl in I2, HR2, A2.
  destruct A1 as (Ec & En & Et & Ev & Eg). simpl in Ec, En, Et, Ev.
  assert (v_ent (mview st1 (mm_cur st1)) (h_id sd) sn = Some c) as He1.
  { rewrite (proj2 (Ev _ (fs_handle_in64 _ _ Hs))). simpl. by case_decide. }
  destruct HR2 as [Hno|c' Hc']; [congruence|]. assert (c' = c) as -> by congruence.
  split; [done|]. eexists. split; [by eapply MoveOk|].
  etrans; [exact A2|]. split_and!; simpl; try done.
  - by apply v_unlink_proper.
Qed.

(** ** Creation, typed mutators, snapshots *)

Lemma mm_alloc_sim st (ty : FType) (blob : bytes) (spec : Z) :
  mem_inv st → mm_next st + 1 <= 2 ^ 63 →
  let st' := (mm_alloc st ty blob spec).2 in
  mem_inv st' ∧ abs_mem st' ≡ fs_create ty blob spec (abs_mem st).
Proof.
  intros I Hroom st'. pose proof (mi_next _ I) as Hnx. pose proof (mi_cur _ I) as Hcur.
  set (a := fresh_node ty blob spec (mm_clock st)).
  assert (mm_nodes st !! mm_next st = None) as Hfresh.
  { destruct (mm_nodes st !! mm_next st) eqn:E; [|done]. destruct (mi_nodes _ I _ _ E). lia. }
  assert (mm_nodes st' = <[mm_next st := [mkVer (mm_cur st) a]]> (mm_nodes st)) as En.
  { unfold st', mm_alloc. simpl. by rewrite Hfresh. }
  assert (mm_next st' = mm_next st + 1) as Enx by (apply u64_small; word_lia).
  assert (∀ x g, effR st' x g = if decide (x = mm_next st) then
    (if mm_cur st <=? g then Some (mkVer (mm_cur st) a) else None) else effR st x g) as He.
  { intros x g. unfold effR. rewrite En. case_decide; [subst; by rewrite lookup_insert_eq|by rewrite lookup_insert_ne]. }
  assert (effR st (mm_next st) (mm_cur st) = None) as Hnone by (unfold effR; by rewrite Hfresh).
  assert (∀ g, g < mm_cur st → mview st' g ≡ mview st g) as Vold.
  { intros g Hg x _. simpl. rewrite He. split; [|done]. case_decide; [|done]. subst.
    rewrite (proj2 (Z.leb_gt _ _)) by lia. unfold effR. by rewrite Hfresh. }
  assert (mview st' (mm_cur st) ≡ v_create (mm_next st) a (mview st (mm_cur st))) as Vnow.
  { intros x _. simpl. rewrite He. split; [|done]. case_decide; [|done]. by rewrite Z.leb_refl. }
  split; [split|].
  - split; try apply I.
    + rewrite Enx. lia.
    + intros x vs. rewrite En, Enx. intros Hx. destruct (decide (x = mm_next st)) as [->|].
      * rewrite lookup_insert_eq in Hx. simplify_eq. split; [lia|]. split_and!; [done|repeat constructor|].
        apply Forall_singleton. simpl. split; [lia|word_lia].
      * rewrite lookup_insert_ne in Hx by done. destruct (mi_nodes _ I _ _ Hx). split; [lia|done].
  - intros g Hg. change (mm_cur st') with (mm_cur st) in Hg. destruct (decide (g = mm_cur st)) as [->|].
    + rewrite Vnow. apply graph_create; try done; [word_lia| |lia|by apply mem_graph_now].
      simpl. by rewrite Hnone.
    + rewrite Vold by lia. by apply I.
  - split_and!; simpl; try done. intros g Hg. apply Vold. lia.
Qed.

Lemma vers_ok_mono cur cur' vs : cur <= cur' → vers_ok cur vs → vers_ok cur' vs.
Proof.
  intros Hle (? & ? & H). split_and!; [done..|]. eapply Forall_impl; [exact H|]. simpl. intuition lia.
Qed.
Lemma ivs_ok_mono cur cur' ivs : cur <= cur' → ivs_ok cur ivs → ivs_ok cur' ivs.
Proof.
  intros Hle (? & H). split; [done|]. eapply Forall_impl; [exact H|]. unfold iv_ok. intuition lia.
Qed.
Lemma liveAtR_later cur ivs g : ivs_ok cur ivs → cur <= g → liveAtR ivs g = liveAtR ivs cur.
Proof.
  intros [_ Hb] Hg. induction Hb as [|i ivs Hi _ IH]; simpl; [done|]. rewrite IH.
  replace (liveAt i g) with (liveAt i cur); [done|]. apply eq_bool_prop_intro.
  rewrite !Is_true_true, !liveAt_spec. unfold iv_ok in Hi. intuition lia.
Qed.

Lemma mem_later st g : mem_shape st → mm_cur st <= g → mview st g ≡ mview st (mm_cur st).
Proof.
  intros Sh Hg x _. simpl. split.
  - unfold effR. destruct (mm_nodes st !! x) as [vs|] eqn:E; [|done].
    destruct (mi_nodes _ Sh _ _ E) as [_ V]. by rewrite !(effR_loop_cur _ _ _ V) by lia.
  - intros n. unfold linkLiveR. destruct (mm_links st !! (x, n)) as [ivs|] eqn:E; [|done].
    destruct (mi_links _ Sh _ _ _ E) as (_ & V & _). by apply liveAtR_later.
Qed.

Lemma mm_snapshot_sim st label :
  mem_inv st → mm_cur st + 1 < LATEST →
  let st' := (mm_snapshot st label).2 in
  mem_inv st' ∧ ∃ s', fs_step (abs_mem st) (OpSnapshot label) OK s' ∧ abs_mem st' ≡ s'.
Proof.
  intros I Hroom st'. pose proof (mi_cur _ I) as Hcur.
  assert (mm_cur st' = mm_cur st + 1) as Ec by (apply u64_small; unfold LATEST in *; word_lia).
  assert (∀ g, mview st' g = mview st g) as V by done.
  assert (mview st (mm_cur st + 1) ≡ mview st (mm_cur st)) as Vlater by (apply mem_later; [apply I|lia]).
  split; [split|].
  - split; rewrite ?Ec; try apply I; [lia| |].
    + intros x vs Hx. destruct (mi_nodes _ I _ _ Hx). split; [done|]. eapply vers_ok_mono; [|done]. lia.
    + intros d n ivs Hx. destruct (mi_links _ I _ _ _ Hx) as (? & ? & ?). split_and!; [done| |done].
      eapply ivs_ok_mono; [|done]. lia.
  - rewrite Ec. intros g Hg. rewrite V. destruct (decide (g = mm_cur st + 1)) as [->|].
    + rewrite Vlater. by apply mem_graph_now.
    + apply I. lia.
  - eexists. split; [constructor|]. unfold abs_mem. rewrite Ec. split_and!; simpl; try done.
    intros g Hg. destruct (Z.eqb_spec g (mm_cur st)) as [->|]; done.
Qed.

Lemma mn_mutate_sim st (h : Handle) f :
  mem_inv st → fs_handle (abs_mem st) h → attr_fn f →
  let st' := mn_mutate st h f in
  mem_inv st' ∧ abs_mem st' ≡ set_now (v_update f (h_id h) (mview st (mm_cur st))) (abs_mem st).
Proof.
  intros I (_ & _ & Hr) Hf. apply liveVer_inv; [done|done| |].
  - intros r. by rewrite (af_nlink _ Hf).
  - apply graph_update; [apply Hf|apply Hf|by apply mem_graph_now].
Qed.

(** A mutator guarded by the node's type. *)
Lemma mm_typed_sim st (h : Handle) (okb : Z → bool) (ok : Z → Prop) f :
  mem_inv st → fs_handle (abs_mem st) h → attr_fn f → (∀ z, okb z = true ↔ ok z) →
  let w := if negb (okb (mm_type st h)) then (INVAL, st) else (OK, mn_mutate st h f) in
  mem_inv w.2 ∧ ∃ v, typed_res (mview st (mm_cur st)) (h_id h) ok f w.1 v ∧
    abs_mem w.2 ≡ set_now v (abs_mem st).
Proof.
  intros I Hh Hf Hok. pose proof Hh as (_ & _ & [r Hr]). simpl in Hr.
  rewrite (mm_type_live _ _ _ Hh Hr). destruct (okb (r_type r)) eqn:E; cbn [negb fst snd].
  - destruct (mn_mutate_sim st h f I Hh Hf) as [I' A].
    split; [exact I'|]. eexists. split; [|exact A]. eapply TypedOk; [exact Hr|by apply Hok].
  - split; [done|]. eexists. split; [|done]. eapply TypedWrong; [exact Hr|]. rewrite <- Hok. by rewrite E.
Qed.

(** The reference model, too, keeps its invariant and refines the abstract
    file system. *)
Lemma exec_mem_sim st op :
  mem_inv st → fs_ok (abs_mem st) op →
  mem_inv (exec_mem st op).2 ∧
  ∃ s', fs_step (abs_mem st) op (exec_mem st op).1 s' ∧ abs_mem (exec_mem st op).2 ≡ s'.
Proof.
  intros I Hok.
  assert (∀ ty blob spec, mm_next st + 1 <= 2 ^ 63 →
    fs_step (abs_mem st) op OK (fs_create ty blob spec (abs_mem st)) →
    mem_inv (mm_alloc st ty blob spec).2 ∧
    ∃ s', fs_step (abs_mem st) op OK s' ∧ abs_mem (mm_alloc st ty blob spec).2 ≡ s') as Halloc.
  { intros ty blob spec Hn ?. destruct (mm_alloc_sim st ty blob spec I Hn) as [? ?]. eauto. }
  assert (∀ (R : Error → View → Prop) (w : Error * MemStore),
    mem_inv w.2 ∧ (∃ v, R w.1 v ∧ abs_mem w.2 ≡ set_now v (abs_mem st)) →
    (∀ e v, R e v → fs_step (abs_mem st) op e (set_now v (abs_mem st))) →
    mem_inv w.2 ∧ ∃ s', fs_step (abs_mem st) op w.1 s' ∧ abs_mem w.2 ≡ s') as Hnow.
  { intros R w (? & v & HR & ?) Hstep. split; [done|]. eauto. }
  destruct op; cbn [exec_mem fst snd fs_ok] in *.
  - apply Halloc; [done..|constructor].
  - apply Halloc; [done..|constructor].
  - apply Halloc; [done..|constructor].
  - apply Halloc; [done..|constructor].
  - apply Halloc; [done..|constructor].
  - destruct Hok as (? & ? & ?). unfold mm_mknod. rewrite rdev_lor by done. apply Halloc; [done..|constructor].
  - destruct Hok as (? & ? & ?). eapply Hnow; [|by apply FsLink]. by apply mm_link_sim.
  - eapply Hnow; [|by apply FsUnlink]. apply mm_unlink_sim; [done|by eapply fs_handle_in64].
  - destruct Hok as (? & ? & ?). eapply Hnow; [|by apply FsMove]. by apply mm_move_sim.
  - eapply Hnow; [|by apply FsSetContent].
    apply (mm_typed_sim st h (λ z, z =? tcode REG)); [done..|apply attr_fn_blob|intros; apply Z.eqb_eq].
  - eapply Hnow; [|by apply FsSetTarget].
    apply (mm_typed_sim st h (λ z, z =? tcode LNK)); [done..|apply attr_fn_blob|intros; apply Z.eqb_eq].
  - destruct Hok as (? & ? & ?). eapply Hnow; [|by apply FsSetRdev]. unfold mm_setRdev.
    rewrite rdev_lor, <- negb_orb by done.
    apply (mm_typed_sim st h (λ z, (z =? tcode BLK) || (z =? tcode CHR))); [done..|by apply attr_fn_spec, rdev_in64|].
    intros z. by rewrite orb_true_iff, !Z.eqb_eq.
  - destruct Hok as (? & ?). eapply Hnow; [|by apply FsSetSeed].
    apply (mm_typed_sim st h (λ z, z =? tcode REG)); [done..|by apply attr_fn_spec|intros; apply Z.eqb_eq].
  - destruct Hok as (? & ?). destruct (mn_mutate_sim st h (attr_set a x) I) as [? ?]; [done|by apply attr_fn_put|].
    split; [done|]. eexists. split; [constructor|done].
  - split; [split; [|apply I]; split; apply I|]. eexists. split; [constructor|]. by split_and!.
  - split; [split; [|apply I]; split; apply I|]. eexists. split; [constructor|]. by split_and!.
  - by apply mm_snapshot_sim.
Qed.
