(* ===== verification/Oracle.v ===== *)
(** * Oracle: the store and the reference model agree

    The two implementations refine one abstract file system whose steps are
    deterministic, so on any run of operations over existing nodes they return
    the same errors and every handle reads the same from both. *)
From Stdlib Require Import Sorting.Sorted.
From S2P Require Import Prelude Keys Kv NodeRec Spec Store Views Shape Graph Links Inv Init Reads Diff StoreProps MemStore MemSim MemOps.
Local Open Scope Z_scope.
Set Warnings "-clear-no-such-hyp".

(** ** Steps are deterministic *)

Lemma link_res_fun v d n c e e' w w' :
  link_res v d n c e w → link_res v d n c e' w' → e = e' ∧ w = w'.
Proof.
  intros H H'. unfold is_dir in *.
  destruct H; inversion H'; subst; unfold is_dir in *; try done;
    repeat match goal with H : ∃ _, _ |- _ => destruct H as (? & ? & ?) end; simplify_eq;
    try done; try congruence; exfalso; eauto; naive_solver.
Qed.
Lemma unlink_res_fun v d n e e' w w' :
  unlink_res v d n e w → unlink_res v d n e' w' → e = e' ∧ w = w'.
Proof. intros []; inversion 1; subst; naive_solver. Qed.
Lemma move_res_fun v sd sn dd dn_ e e' w w' :
  move_res v sd sn dd dn_ e w → move_res v sd sn dd dn_ e' w' → e = e' ∧ w = w'.
Proof.
  intros H H'. destruct H as [Hn|c e Hc Hl He|c Hc Hl];
    inversion H' as [Hn'|c' ? Hc' Hl' He'|c' Hc' Hl']; subst; simplify_eq; try done;
    destruct (link_res_fun _ _ _ _ _ _ _ _ Hl Hl') as [? ?]; simplify_eq; done.
Qed.
Lemma typed_res_fun v id ok f e e' w w' :
  typed_res v id ok f e w → typed_res v id ok f e' w' → e = e' ∧ w = w'.
Proof. intros []; inversion 1; subst; naive_solver. Qed.

Lemma rtc_edge_equiv v w x y : v ≡ w → rtc (edge v) x y → rtc (edge w) x y.
Proof. intros H. induction 1; [done|]. eapply rtc_l; [by eapply edge_equiv|done]. Qed.

(** Equivalent trees have equivalent outcomes. *)
Lemma link_res_equiv v v' d n c e w :
  v ≡ v' → in64 d → in64 c → link_res v d n c e w → ∃ w', link_res v' d n c e w' ∧ w ≡ w'.
Proof.
  intros E Hd Hc HR. destruct (E d Hd) as [Ead Eed], (E c Hc) as [Eac _]. pose proof (symmetry E) as E'.
  pose proof (λ i (Hi : in64 i), is_dir_equiv v v' i E Hi) as Hdir.
  destruct HR; eexists; (split; [|try exact E]).
  - by apply LinkReserved.
  - apply LinkNoDir; [done|congruence].
  - eapply LinkNotDir; [done| |done]. by rewrite <- Ead.
  - apply LinkNoChild; [done|by apply Hdir|congruence].
  - apply LinkCycle; [done|by apply Hdir..|by eapply rtc_edge_equiv].
  - eapply LinkExist; [done|by apply Hdir|by rewrite <- Eac| |by rewrite <- Eed].
    intros ? ?. by eapply H2, (rtc_edge_equiv v').
  - eapply LinkOk; [done|by apply Hdir|by rewrite <- Eac| |by rewrite <- Eed].
    intros ? ?. by eapply H2, (rtc_edge_equiv v').
  - by apply v_link_proper.
Qed.
Lemma unlink_res_equiv v v' d n e w :
  v ≡ v' → in64 d → unlink_res v d n e w → ∃ w', unlink_res v' d n e w' ∧ w ≡ w'.
Proof.
  intros E Hd HR. destruct (E d Hd) as [_ Ee]. destruct HR.
  - eexists. split; [apply UnlinkNone; by rewrite <- Ee|done].
  - eexists. split; [apply UnlinkOk; by rewrite <- Ee|by apply v_unlink_proper].
Qed.
Lemma move_res_equiv v v' sd sn dd dn_ e w :
  v ≡ v' → graph v → in64 sd → in64 dd → move_res v sd sn dd dn_ e w →
  ∃ w', move_res v' sd sn dd dn_ e w' ∧ w ≡ w'.
Proof.
  intros E G Hs Hd HR. destruct (E sd Hs) as [_ Ee]. destruct HR as [Hn|c e Hc Hl He|c Hc Hl].
  - eexists. split; [apply MoveNone; by rewrite <- Ee|done].
  - destruct (gr_ent _ G _ _ _ Hs Hc) as (_ & _ & Hc64 & _).
    destruct (link_res_equiv _ _ _ _ _ _ _ E Hd Hc64 Hl) as (w' & Hl' & Ew).
    assert (w' = v') as -> by by destruct Hl'.
    eexists. split; [eapply MoveFail; [by rewrite <- Ee|done|done]|done].
  - destruct (gr_ent _ G _ _ _ Hs Hc) as (_ & _ & Hc64 & _).
    destruct (link_res_equiv _ _ _ _ _ _ _ E Hd Hc64 Hl) as (w' & Hl' & Ew).
    assert (w' = v_link dd dn_ c v') as -> by by inversion Hl'.
    eexists. split; [eapply MoveOk; [by rewrite <- Ee|done]|by apply v_unlink_proper].
Qed.
Lemma typed_res_equiv v v' id ok f e w :
  v ≡ v' → in64 id → typed_res v id ok f e w → ∃ w', typed_res v' id ok f e w' ∧ w ≡ w'.
Proof.
  intros E Hid HR. destruct (E id Hid) as [Ea _]. destruct HR.
  - eexists. split; [apply TypedNone; congruence|done].
  - eexists. split; [eapply TypedWrong; [by rewrite <- Ea|done]|done].
  - eexists. split; [eapply TypedOk; [by rewrite <- Ea|done]|by apply v_update_proper].
Qed.

Lemma set_now_proper v v' (s s' : FS) : v ≡ v' → s ≡ s' → set_now v s ≡ set_now v' s'.
Proof. intros E (?&?&?&?&?). by split_and!. Qed.

(** From equivalent states one operation has one outcome. *)
Lemma fs_step_det s1 s2 op e1 e2 s1' s2' :
  s1 ≡ s2 → graph (f_now s1) → fs_ok s1 op →
  fs_step s1 op e1 s1' → fs_step s2 op e2 s2' → e1 = e2 ∧ s1' ≡ s2'.
Proof.
  intros Es G Hok H1 H2. pose proof Es as (Ec & En & Et & Ev & Eg).
  assert (∀ (R1 R2 : Error → View → Prop) v1 v2, R1 e1 v1 → R2 e2 v2 →
    (∀ e w, R1 e w → ∃ w', R2 e w' ∧ w ≡ w') → (∀ e e' w w', R2 e w → R2 e' w' → e = e' ∧ w = w') →
    e1 = e2 ∧ set_now v1 s1 ≡ set_now v2 s2) as Hres.
  { intros R1 R2 v1 v2 HR1 HR2 Heq Hfun. destruct (Heq _ _ HR1) as (w' & Hw & ?).
    destruct (Hfun _ _ _ _ Hw HR2) as [-> <-]. split; [done|]. by apply set_now_proper. }
  assert (∀ ty blob spec, fs_create ty blob spec s1 ≡ fs_create ty blob spec s2) as Hcr.
  { intros. split_and!; simpl; rewrite ?En, ?Et; try done. by apply v_create_proper. }
  destruct H1; inversion H2; subst; simpl in Hok; destruct_and?; try done;
    repeat match goal with H : fs_handle _ _ |- _ => apply fs_handle_in64 in H end;
    try (eapply Hres; [eassumption|eassumption|intros; eauto using link_res_equiv, unlink_res_equiv,
      move_res_equiv, typed_res_equiv|eauto using link_res_fun, unlink_res_fun, move_res_fun, typed_res_fun]).
  all: try by (split; [done|apply set_now_proper; [by apply v_update_proper|done]]).
  all: split; [done|]; split_and!; simpl; try done.
  - congruence.
  - rewrite <- Ec. intros g Hg. case_match; [done|]. apply Eg. lia.
Qed.

(** ** Running both *)

Lemma mem_inv_init : mem_inv MemStore0.
Proof.
  assert (mem_shape MemStore0) as Sh.
  { split; simpl; try (unfold LATEST; lia).
    - intros id vs [<- <-]%lookup_singleton_Some. split; [lia|]. split_and!; [done|repeat constructor|].
      apply Forall_singleton. simpl. split; [lia|word_lia].
    - intros d n ivs. by rewrite lookup_empty.
    - intros d. unfold mm_names_of. simpl. rewrite lookup_empty. constructor. }
  split; [done|]. simpl. intros g Hg. assert (g = 1) as -> by lia.
  assert (mview MemStore0 1 ≡ v_create 1 (attrs root_rec) (mkView (λ _, None) (λ _ _, None))) as ->.
  { intros x _. simpl. unfold effR, linkLiveR. simpl. setoid_rewrite lookup_empty. split; [|done].
    case_decide; [by subst|]. rewrite lookup_singleton_ne by done. done. }
  split.
  - by exists (attrs root_rec).
  - done.
  - intros c r Hc Hr. simpl in Hr. case_decide; [|done]. simplify_eq. exists []. split; [|done].
    split; [constructor|]. intros d n. simpl. split; [set_solver|naive_solver].
  - intros d (y & (_ & n & Hn) & _)%tc_inv. done.
Qed.

(** ** Reads of the reference model *)

(** At most one interval of a name is live at a snapshot. *)
Lemma liveAtR_elem cur ivs g c :
  ivs_ok cur ivs → liveAtR ivs g = Some c ↔ ∃ iv, iv ∈ ivs ∧ liveAt iv g = true ∧ iv_child iv = c.
Proof.
  intros [Hs _]. induction Hs as [|i ivs Hs IH Hi]; simpl; [set_solver|]. rewrite Forall_forall in Hi.
  destruct (liveAt i g) eqn:E.
  - split; [intros [= <-]; exists i; set_solver|]. intros (j & [->|Hj]%elem_of_cons & Hl & <-); [done|].
    destruct (Hi j Hj). apply liveAt_spec in E, Hl. lia.
  - rewrite IH. split; [intros (j & ? & ? & ?); exists j; set_solver|].
    intros (j & [->|Hj]%elem_of_cons & Hl & <-); [congruence|eauto].
Qed.

Implicit Types (ms : MemStore) (h : Handle).

Definition mem_at ms h : View := mview ms (mm_resolve ms (h_snap h)).

Lemma mm_readdir_sorted ms h : mem_inv ms → isSnapDir (h_id h) = false → StronglySorted name_lt (mm_readdir ms h).
Proof.
  intros I Hs. unfold mm_readdir. rewrite Hs. pose proof (mi_names _ I (h_id h)) as Hn. unfold mm_names_of in Hn.
  destruct (mm_names ms !! h_id h) as [l|]; [|constructor]. simpl in Hn. unfold mm_entries.
  eapply sorted_omap; [|exact Hn]. intros x y u v Hxy Hu Hv.
  apply fmap_Some in Hu as (? & _ & ->). apply fmap_Some in Hv as (? & _ & ->). done.
Qed.

Lemma elem_of_mm_readdir ms h n x :
  mem_inv ms → isSnapDir (h_id h) = false →
  (n, x) ∈ mm_readdir ms h ↔ ∃ c, v_ent (mem_at ms h) (h_id h) n = Some c ∧ x = mkHandle c (h_snap h).
Proof.
  intros I Hs. unfold mm_readdir, mem_at. rewrite Hs. simpl.
  assert (∀ c, linkLiveR ms (h_id h, n) (mm_resolve ms (h_snap h)) = Some c → n ∈ mm_names_of ms (h_id h)) as Hn.
  { intros c. unfold linkLiveR. destruct (mm_links ms !! _) eqn:E; [|done]. intros _.
    by apply (mi_links _ I _ _ _ E). }
  unfold mm_names_of in Hn. destruct (mm_names ms !! h_id h) as [l|]; simpl in Hn.
  - unfold mm_entries, linkLiveAt. rewrite list_elem_of_omap. split.
    + intros (m & _ & (c & Hc & [= -> ->])%fmap_Some). eauto.
    + intros (c & Hc & ->). exists n. split; [eauto|]. by rewrite Hc.
  - split; [set_solver|]. intros (c & Hc & _). specialize (Hn c Hc). set_solver.
Qed.

(** *** Containers *)

Lemma key_leb_total a b : key_leb a b = false → key_leb b a = true.
Proof.
  destruct a as [d n], b as [d' n']. unfold key_leb. simpl. intros H.
  apply orb_false_iff in H as [H1%Z.ltb_ge H2]. apply orb_true_iff.
  destruct (Z.ltb_spec d' d); [by left|]. right. assert (d = d') as <- by lia. rewrite Z.eqb_refl in *. simpl in *.
  apply negb_false_iff in H2. destruct (bytes_ltb n n') eqn:E; [|done].
  destruct (irreflexivity bytes_lt n). etrans; [exact E|exact H2].
Qed.
Global Instance key_le_total : Total key_le.
Proof. intros a b. unfold key_le. destruct (key_leb a.1 b.1) eqn:E; [by left|right; by apply key_leb_total]. Qed.
Lemma key_le_fst a b : key_le a b → a.1.1 <= b.1.1.
Proof.
  unfold key_le, key_leb. intros [H%Z.ltb_lt|[H%Z.eqb_eq _]%andb_true_iff]%orb_true_iff; lia.
Qed.
Definition fst_le {A} (a b : Z * A) : Prop := a.1 <= b.1.

Lemma mm_parents_loop_spec id rg ps seen x :
  x ∈ mm_parents_loop id rg ps seen ↔
    (x ∉ seen) ∧ (∃ iv, (x, iv) ∈ ps ∧ iv_child iv = id ∧ liveAt iv rg = true).
Proof.
  revert seen. induction ps as [|[d iv] ps IH]; intros seen; simpl; [set_solver|].
  destruct ((iv_child iv =? id) && liveAt iv rg) eqn:E.
  - apply andb_true_iff in E as [E1%Z.eqb_eq E2]. case_decide as Hd.
    + rewrite IH. split; intros [Hs (iv' & Hin & ?)]; (split; [done|]); exists iv'; [set_solver|].
      apply elem_of_cons in Hin as [[= -> ->]|]; [by destruct Hs|done].
    + rewrite elem_of_cons, IH. split.
      * intros [->|[Hs (iv' & Hin & ?)]]; [split; [done|]; exists iv; set_solver|].
        split; [set_solver|]. exists iv'. set_solver.
      * intros [Hs (iv' & Hin & ?)]. destruct (decide (x = d)); [by left|right]. split; [set_solver|].
        exists iv'. set_solver.
  - rewrite IH. split; intros [Hs (iv' & Hin & Hc & Hl)]; (split; [done|]); exists iv'; [set_solver|].
    apply elem_of_cons in Hin as [[= -> ->]|]; [|done]. by rewrite Hc, Z.eqb_refl, Hl in E.
Qed.

Lemma mm_parents_loop_sorted id rg ps seen :
  StronglySorted fst_le ps → StronglySorted Z.lt (mm_parents_loop id rg ps seen).
Proof.
  intros Hs. revert seen. induction Hs as [|[d iv] ps Hs IH H0]; intros seen; simpl; [constructor|].
  destruct (_ && _); [|apply IH]. case_decide; [apply IH|]. constructor; [apply IH|].
  apply Forall_forall. intros x (Hne & iv' & Hin & _)%mm_parents_loop_spec.
  rewrite Forall_forall in H0. specialize (H0 _ Hin). unfold fst_le in H0. simpl in H0.
  assert (x ≠ d) by set_solver. lia.
Qed.

Lemma links_in_order_elem ms k ivs : (k, ivs) ∈ links_in_order ms ↔ mm_links ms !! k = Some ivs.
Proof. unfold links_in_order. by rewrite merge_sort_Permutation, elem_of_map_to_list. Qed.

Lemma mm_parents_spec ms h x :
  mem_inv ms → x ∈ mm_parents ms h ↔
    ∃ d n, in64 d ∧ v_ent (mem_at ms h) d n = Some (h_id h) ∧ x = mkHandle d (h_snap h).
Proof.
  intros I. unfold mm_parents, mem_at. rewrite list_elem_of_fmap. cbn [v_ent mview]. split.
  - intros (d & -> & (_ & iv & Hin & Hc & Hl)%mm_parents_loop_spec). 
    apply list_elem_of_bind in Hin as ([[d' n] ivs] & Hiv & Hk%links_in_order_elem).
    apply list_elem_of_fmap in Hiv as (? & [= -> ->] & Hiv). destruct (mi_links _ I _ _ _ Hk) as (Hd & Hok & _).
    exists d', n. split_and!; [done| |done]. unfold linkLiveR. rewrite Hk. apply (liveAtR_elem _ _ _ _ Hok). eauto.
  - intros (d & n & Hd & He & ->). exists d. split; [done|]. apply mm_parents_loop_spec. split; [set_solver|].
    unfold linkLiveR in He. destruct (mm_links ms !! (d, n)) as [ivs|] eqn:Hk; [|done].
    destruct (mi_links _ I _ _ _ Hk) as (_ & Hok & _). apply (liveAtR_elem _ _ _ _ Hok) in He as (iv & Hin & Hl & Hc).
    exists iv. split_and!; [|done..]. apply list_elem_of_bind. exists ((d, n), ivs). split.
    + apply list_elem_of_fmap. eauto.
    + by apply links_in_order_elem.
Qed.

Lemma mm_parents_sorted ms h : StronglySorted handle_lt (mm_parents ms h).
Proof.
  unfold mm_parents. eapply sorted_fmap with (R := Z.lt); [done|]. apply mm_parents_loop_sorted.
  apply sorted_bind with (R := λ a b, a.1.1 <= b.1.1).
  - intros [[d n] ivs] _. induction ivs as [|iv ivs IH]; simpl; [constructor|]. constructor; [done|].
    apply Forall_forall. intros y (iv' & -> & _)%list_elem_of_fmap. unfold fst_le. simpl. lia.
  - intros [[d n] ivs] [[d' n'] ivs'] u v Hle (? & -> & _)%list_elem_of_fmap (? & -> & _)%list_elem_of_fmap. done.
  - apply Sorted_StronglySorted; [intros a b c; simpl; lia|]. unfold links_in_order.
    apply (Sorted_weaken key_le); [apply key_le_fst|apply Sorted_merge_sort, _].
Qed.

Section Lockstep.
Context {M : Type} `{!KvEngine M}.
Implicit Types (st : Store M).

(** Both implementations driven by the same operations, each within the
    range of its arguments and over existing nodes. *)
Inductive lockstep : Store M → MemStore → Prop :=
  | LockInit : lockstep fresh_store MemStore0
  | LockStep st ms op : lockstep st ms → fs_ok (abs st) op →
      lockstep (exec st op).2 (exec_mem ms op).2.

Lemma fs_ok_op_ok st op : inv st → fs_ok (abs st) op → op_ok st op.
Proof.
  intros I.
  assert (∀ c, fs_room (abs st) c → nlink_room (m_cur st) (m_kv st) c) as Hroom.
  { intros c Hc r Hr. specialize (Hc (attrs r)). simpl in Hc. rewrite Hr in Hc.
    specialize (Hc eq_refl). by destruct r. }
  destruct op; simpl; try done.
  - intros (?%fs_handle_in64 & ?%fs_handle_in64 & ?). auto.
  - apply fs_handle_in64.
  - intros (?%fs_handle_in64 & ?%fs_handle_in64 & ?). auto.
  - apply fs_handle_in64.
  - apply fs_handle_in64.
  - intros (?%fs_handle_in64 & ? & ?). auto.
  - intros (?%fs_handle_in64 & ?). auto.
  - intros (?%fs_handle_in64 & ?). auto.
Qed.

Lemma fs_ok_equiv s s' op : s ≡ s' → graph (f_now s) → fs_ok s op → fs_ok s' op.
Proof.
  intros (Ec & En & Et & Ev & Eg) G.
  assert (∀ h, fs_handle s h → fs_handle s' h) as Hh.
  { intros h (Hs & Hid & Hn). split; [done|]. split; [done|].
    by rewrite <- (proj1 (Ev (h_id h) ltac:(word_lia))). }
  assert (∀ c, in64 c → fs_room s c → fs_room s' c) as Hr.
  { intros c Hc H r. rewrite <- (proj1 (Ev c Hc)). apply H. }
  destruct op; simpl; rewrite <- ?En, <- ?Ec; try done; try (intros; destruct_and?; by auto).
  - intros (? & Hc & ?). split_and!; auto. apply Hr; [by eapply fs_handle_in64|done].
  - intros (Hs & ? & Hroom). split_and!; auto. intros c Hc. pose proof (fs_handle_in64 _ _ Hs) as Hid.
    rewrite <- (proj2 (Ev _ Hid)) in Hc. apply Hr; [by apply (gr_ent _ G _ _ _ Hid Hc)|by apply Hroom].
Qed.

Lemma abs_init : abs (PrfsStore (kv_new (M:=M))) ≡ abs_mem MemStore0.
Proof.
  rewrite init_eq. split_and!; try done; cbn [f_now f_cur f_snap abs abs_mem m_cur m_kv].
  - unfold putMeta. rewrite !view_meta by auto. rewrite view_init. intros x _. simpl.
    unfold effR, linkLiveR. simpl. setoid_rewrite lookup_empty. split; [|done].
    case_decide; [by subst|]. by rewrite lookup_singleton_ne.
  - intros g Hg. lia.
Qed.

Lemma lockstep_inv st ms : lockstep st ms → inv st ∧ mem_inv ms ∧ abs st ≡ abs_mem ms.
Proof.
  induction 1 as [|st ms op _ (I & J & E) Hok]; [split_and!; [apply inv_init|apply mem_inv_init|apply abs_init]|].
  assert (graph (f_now (abs st))) as G by apply I.
  destruct (exec_sim st op I (fs_ok_op_ok _ _ I Hok)) as (I' & s1 & H1 & E1).
  destruct (exec_mem_sim ms op J (fs_ok_equiv _ _ _ E G Hok)) as (J' & s2 & H2 & E2).
  split_and!; [done|done|]. rewrite E1, E2. apply (fs_step_det _ _ _ _ _ _ _ E G Hok H1 H2).
Qed.

Lemma lockstep_reachable st ms : lockstep st ms → reachable_from fresh_store st.
Proof.
  induction 1 as [|st ms op HL IH Hok]; [constructor|]. constructor; [done|].
  apply fs_ok_op_ok; [|done]. by apply (lockstep_inv st ms).
Qed.
(** A handle reads equivalent trees from both. *)
Lemma lockstep_at st ms h : lockstep st ms → live st h → at_ st h ≡ mem_at ms h.
Proof.
  intros HL L. destruct (lockstep_inv _ _ HL) as (I & J & (Ec & _ & _ & En & Eg)). simpl in *.
  unfold at_, mem_at, rr, mm_resolve, live in *. rewrite <- Ec. destruct (Z.eqb_spec (h_snap h) LATEST) as [E|E].
  - rewrite En. by rewrite Ec.
  - unfold rr in L. rewrite (proj2 (Z.eqb_neq _ _) E) in L.
    destruct (decide (h_snap h = m_cur st)) as [->|]; [rewrite En; by rewrite Ec|]. apply Eg. lia.
Qed.

Lemma lockstep_attr st ms h :
  lockstep st ms → live st h → in64 (h_id h) → isSnapDir (h_id h) = false →
  attrs (readNode st (h_id h) (h_snap h)) = mn_attr ms h.
Proof.
  intros HL L Hid Hs. rewrite readNode_plain by done. rewrite (proj1 (lockstep_at _ _ _ HL L _ Hid)).
  unfold mn_attr, effAttr, effAttr_at, mm_eff, mem_at. rewrite Hs. simpl. by destruct (effR _ _ _).
Qed.

Lemma lockstep_readdir st ms h :
  lockstep st ms → live st h → plain st h → readdir st h = mm_readdir ms h.
Proof.
  intros HL L P. destruct (lockstep_inv _ _ HL) as (I & J & _). pose proof P as (Hs & Hid & _).
  apply (sorted_ext name_lt); [by apply readdir_sorted|by apply mm_readdir_sorted|].
  intros [n x]. rewrite elem_of_readdir, elem_of_mm_readdir by done.
  by rewrite (proj2 (lockstep_at _ _ _ HL L _ Hid)).
Qed.

Lemma lockstep_parents st ms h :
  lockstep st ms → live st h → in64 (h_id h) → parents st h = mm_parents ms h.
Proof.
  intros HL L Hid. destruct (lockstep_inv _ _ HL) as (I & J & _).
  apply (sorted_ext handle_lt); [by apply parents_sorted|apply mm_parents_sorted|].
  intros x. rewrite (proj2 (parents_spec _ _ I Hid L)), mm_parents_spec by done.
  split; intros (d & n & Hd & He & ->); exists d, n; (split_and!; [done| |done]);
    pose proof (proj2 (lockstep_at _ _ _ HL L d Hd) n); congruence.
Qed.
Lemma lockstep_lookup st ms h n :
  lockstep st ms → live st h → plain st h → lookup_ st h n = mm_lookup ms h n.
Proof.
  intros HL L P. destruct (lockstep_inv _ _ HL) as (I & J & _). pose proof P as (Hs & Hid & _).
  pose proof (lockstep_attr _ _ _ HL L Hid Hs) as Ha. apply (f_equal r_type) in Ha.
  change (r_type (mn_attr ms h)) with (mm_type ms h) in Ha. rewrite r_type_attrs in Ha.
  pose proof (proj2 (lockstep_at _ _ _ HL L _ Hid) n) as He.
  destruct (bool_decide (n = SNAPSHOT_NAME) && (h_snap h =? LATEST)) eqn:E.
  - unfold lookup_, mm_lookup. rewrite Hs, E, <- Ha. unfold readNode, readNode_at. rewrite Hs.
    unfold at_, mem_at in He. simpl in He. unfold ent in He. unfold linkLiveAt. rewrite <- He.
    destruct (loadNode _ _ _) as [r|]; [|done]. change (default NodeRec0 (Some r)) with r.
    destruct (r_type r =? tcode DIR); [done|]. cbn [andb].
    rewrite dn_t_get. by destruct (t_get _ _ _).
  - rewrite lookup_plain; [|done..|].
    + unfold mm_lookup. rewrite Hs, E. rewrite He. done.
    + apply andb_false_iff in E as [E|E]; [left; by apply bool_decide_eq_false in E|right; by apply Z.eqb_neq].
Qed.

(** ** Differences *)

Definition changes_at ms g : list Z := default [] (mm_changes ms !! g).
(** Every version of a node is recorded in the change set of its snapshot. *)
Definition touched ms : Prop := ∀ id vs v,
  mm_nodes ms !! id = Some vs → v ∈ vs → id ∈ changes_at ms (nv_snap v).

Lemma elem_of_touch ms id g x :
  x ∈ changes_at (touch ms id) g ↔ (g = mm_cur ms ∧ x = id) ∨ x ∈ changes_at ms g.
Proof.
  unfold changes_at. simpl. destruct (decide (g = mm_cur ms)) as [->|].
  - rewrite lookup_insert_eq. simpl. rewrite elem_of_zset_insert. naive_solver.
  - rewrite lookup_insert_ne by done. naive_solver.
Qed.

Lemma elem_of_live_vers cur vs f v :
  v ∈ upd_last f (push_ver cur vs) → nv_snap v = cur ∨ ∃ v', v' ∈ vs ∧ nv_snap v = nv_snap v'.
Proof.
  assert (∀ vs v, v ∈ upd_last f vs → ∃ v', v' ∈ vs ∧ nv_snap v = nv_snap v') as Hup.
  { clear. induction vs as [|w vs IH]; simpl; [set_solver|]. intros v. destruct vs as [|w' vs].
    - intros ->%list_elem_of_singleton. exists w. set_solver.
    - intros [->|(v' & ? & ?)%IH]%elem_of_cons; [exists w|exists v']; set_solver. }
  intros (v' & Hv' & ->)%Hup. unfold push_ver in Hv'. destruct (last vs) as [w|].
  - case_match; [eauto|]. apply elem_of_app in Hv' as [?| ->%list_elem_of_singleton]; eauto.
  - apply list_elem_of_singleton in Hv' as ->. by left.
Qed.

(** One node rewritten and touched. *)
Lemma touched_live ms ms' id vs :
  touched ms → mm_nodes ms' = <[id := vs]> (mm_nodes ms) →
  (∀ v, v ∈ vs → nv_snap v = mm_cur ms ∨ ∃ v', v' ∈ default [] (mm_nodes ms !! id) ∧ nv_snap v = nv_snap v') →
  id ∈ changes_at ms' (mm_cur ms) → (∀ g x, x ∈ changes_at ms g → x ∈ changes_at ms' g) → touched ms'.
Proof.
  intros T En Hvs Hid Hch x vs' v. rewrite En. intros Hx Hin. destruct (decide (x = id)) as [->|Hne].
  - rewrite lookup_insert_eq in Hx. simplify_eq. destruct (Hvs _ Hin) as [->|(v' & Hv' & ->)]; [done|].
    apply Hch. destruct (mm_nodes ms !! id) as [ws|] eqn:E; simpl in Hv'; [|set_solver]. by eapply T.
  - rewrite lookup_insert_ne in Hx by done. apply Hch. by eapply T.
Qed.

Lemma touched_alloc ms ty blob spec : touched ms → touched (mm_alloc ms ty blob spec).2.
Proof.
  intros T. eapply touched_live; [exact T|reflexivity| | |].
  - intros v [?| ->%list_elem_of_singleton]%elem_of_app; eauto.
  - apply elem_of_touch. by left.
  - intros g x ?. apply elem_of_touch. by right.
Qed.
Lemma touched_mutate ms h f : touched ms → touched (mn_mutate ms h f).
Proof.
  intros T. eapply touched_live; [exact T|reflexivity|apply elem_of_live_vers|apply elem_of_touch; by left|].
  intros g x ?. apply elem_of_touch. by right.
Qed.
Lemma touched_link ms d n c : touched ms → touched (mm_link ms d n c).2.
Proof.
  intros T. unfold mm_link. case_decide; [done|]. destruct (negb _); [done|]. destruct (_ && _); [done|].
  destruct (linkLiveAt _ _ _); [done|].
  eapply touched_live; [exact T|reflexivity|apply elem_of_live_vers|apply elem_of_touch; by left|].
  intros g x ?. apply elem_of_touch. right. apply elem_of_touch. by right.
Qed.
Lemma touched_unlink ms d n : touched ms → touched (mm_unlink ms d n).2.
Proof.
  intros T. unfold mm_unlink. destruct (mm_links ms !! _) as [ivs|]; [|done].
  destruct (kill_live _ _) as [[c ivs']|]; [|done].
  eapply touched_live; [exact T|reflexivity|apply elem_of_live_vers|apply elem_of_touch; by left|].
  intros g x ?. apply elem_of_touch. right. apply elem_of_touch. by right.
Qed.

Lemma touched_exec ms op : touched ms → touched (exec_mem ms op).2.
Proof.
  intros T. destruct op; cbn [exec_mem snd]; try exact (touched_alloc _ _ _ _ T).
  - by apply touched_link.
  - by apply touched_unlink.
  - unfold mm_move. destruct (linkLiveAt _ _ _); [|done].
    pose proof (touched_link ms dd dn (mkHandle z LATEST) T) as T1. destruct (mm_link _ _ _ _) as [e ms1].
    case_decide; [by apply touched_unlink|done].
  - unfold mm_setContent. destruct (negb _); [done|by apply touched_mutate].
  - unfold mm_setTarget. destruct (negb _); [done|by apply touched_mutate].
  - unfold mm_setRdev. destruct (_ && _); [done|by apply touched_mutate].
  - unfold mm_setContentSeed. destruct (negb _); [done|by apply touched_mutate].
  - by apply touched_mutate.
  - done.
  - done.
  - done.
Qed.

Lemma lockstep_touched st ms : lockstep st ms → touched ms.
Proof.
  induction 1; [|by apply touched_exec].
  intros id vs v. simpl. intros [<- <-]%lookup_singleton_Some ->%list_elem_of_singleton. by vm_compute; left.
Qed.

(** *** Node differences *)

Lemma elem_of_mm_candidates ms ra rb id :
  id ∈ mm_candidates ms ra rb ↔ ∃ g, ra < g <= rb ∧ id ∈ changes_at ms g.
Proof.
  assert (∀ ids acc, id ∈ foldr zset_insert acc ids ↔ id ∈ ids ∨ id ∈ acc) as Hin.
  { intros ids acc. induction ids as [|x ids IH]; simpl; [set_solver|].
    rewrite elem_of_zset_insert, IH, elem_of_cons. tauto. }
  transitivity (∃ g ids, (g, ids) ∈ map_to_list (mm_changes ms) ∧ ra < g <= rb ∧ id ∈ ids).
  - unfold mm_candidates. induction (map_to_list (mm_changes ms)) as [|[g ids] l IH]; simpl; [set_solver|].
    destruct ((ra <? g) && (g <=? rb)) eqn:E.
    + apply andb_true_iff in E as [E1%Z.ltb_lt E2%Z.leb_le]. rewrite Hin, IH. split.
      * intros [?|(g' & ids' & ? & ?)]; [exists g, ids|exists g', ids']; set_solver.
      * intros (g' & ids' & [[= -> ->]|?]%elem_of_cons & ? & ?); [by left|right; eauto].
    + rewrite IH. split; intros (g' & ids' & Hel & Hr & ?); exists g', ids'; (split; [|done]); [by right|].
      apply elem_of_cons in Hel as [[= -> ->]|]; [|done]. exfalso.
      apply andb_false_iff in E as [E%Z.ltb_ge|E%Z.leb_gt]; lia.
  - split.
    + intros (g & ids & Hg%elem_of_map_to_list & ? & ?). exists g. split; [done|]. unfold changes_at. by rewrite Hg.
    + intros (g & ? & Hx). unfold changes_at in Hx. destruct (mm_changes ms !! g) as [ids|] eqn:E; simpl in Hx; [|set_solver].
      exists g, ids. split; [by apply elem_of_map_to_list|done].
Qed.

Lemma mm_candidates_sorted ms ra rb : StronglySorted Z.lt (mm_candidates ms ra rb).
Proof.
  unfold mm_candidates. induction (map_to_list (mm_changes ms)) as [|[g ids] l IH]; simpl; [constructor|].
  case_match; [|done]. induction ids as [|x ids IH']; simpl; [done|by apply zset_insert_sorted].
Qed.
Definition nd_lt (x y : NodeDiff) : Prop := nd_id x < nd_id y.
#[local] Instance nd_lt_trans : Transitive nd_lt.
Proof. intros x y z. unfold nd_lt. lia. Qed.
#[local] Instance nd_lt_irrefl : Irreflexive nd_lt.
Proof. intros x. unfold complement, nd_lt. lia. Qed.

Lemma diffNodes_sorted st a b : StronglySorted nd_lt (diffNodes st a b).
Proof.
  unfold diffNodes. apply sorted_bind with Z.lt; [| |apply candidates_sorted].
  - intros x _. rewrite diffNode1_spec. case_match; repeat constructor.
  - intros x y u v Hlt. rewrite !diffNode1_spec. destruct (node_change _ _); [|set_solver].
    intros ->%list_elem_of_singleton. case_match; [|set_solver]. intros ->%list_elem_of_singleton. done.
Qed.

Lemma mm_diffNode1_spec ms ra rb id :
  mm_diffNode1 ms ra rb id =
    match node_change (v_attr (mview ms ra) id) (v_attr (mview ms rb) id) with
    | Some c => [mkNodeDiff id c]
    | None => []
    end.
Proof.
  unfold mm_diffNode1, node_change. assert (∀ g, alive (v_attr (mview ms g) id) = mm_alive ms id g) as Hal.
  { intros g. unfold alive, mm_alive. simpl. by destruct (effR ms id g). }
  rewrite !Hal. destruct (mm_alive ms id ra), (mm_alive ms id rb); try done. by repeat case_match.
Qed.

Lemma mm_diffNodes_sorted ms a b : StronglySorted nd_lt (mm_diffNodes ms a b).
Proof.
  unfold mm_diffNodes. apply sorted_bind with Z.lt; [| |apply mm_candidates_sorted].
  - intros x _. rewrite mm_diffNode1_spec. case_match; repeat constructor.
  - intros x y u v Hlt. rewrite !mm_diffNode1_spec. destruct (node_change _ _); [|set_solver].
    intros ->%list_elem_of_singleton. case_match; [|set_solver]. intros ->%list_elem_of_singleton. done.
Qed.

Lemma effR_loop_gap vs ra rb best :
  ra <= rb → (∀ v, v ∈ vs → ¬ ra < nv_snap v <= rb) → effR_loop vs ra best = effR_loop vs rb best.
Proof.
  intros Hle. revert best. induction vs as [|v vs IH]; intros best Hgap; simpl; [done|].
  assert (¬ ra < nv_snap v <= rb) by (apply Hgap; left).
  destruct (Z.leb_spec (nv_snap v) ra).
  - rewrite (proj2 (Z.leb_le _ _)) by lia. apply IH. intros; apply Hgap. by right.
  - by rewrite (proj2 (Z.leb_gt _ _)) by lia.
Qed.

Lemma elem_of_mm_diffNodes ms a b id c :
  touched ms → mm_resolve ms a <= mm_resolve ms b →
  mkNodeDiff id c ∈ mm_diffNodes ms a b ↔
    node_change (v_attr (mview ms (mm_resolve ms a)) id) (v_attr (mview ms (mm_resolve ms b)) id) = Some c.
Proof.
  intros T Hab. unfold mm_diffNodes. rewrite list_elem_of_bind. setoid_rewrite mm_diffNode1_spec. split.
  - intros (id' & Hin & _). destruct (node_change _ _) eqn:E; [|set_solver].
    apply list_elem_of_singleton in Hin. by simplify_eq.
  - intros Hc. exists id. rewrite Hc. split; [by apply list_elem_of_singleton|].
    destruct (decide (id ∈ mm_candidates ms (mm_resolve ms a) (mm_resolve ms b))) as [|Hno]; [done|].
    exfalso. assert (effR ms id (mm_resolve ms a) = effR ms id (mm_resolve ms b)) as He.
    { unfold effR. destruct (mm_nodes ms !! id) as [vs|] eqn:E; [|done]. apply effR_loop_gap; [done|].
      intros v Hv Hr. apply Hno, elem_of_mm_candidates. exists (nv_snap v). split; [done|by eapply T]. }
    simpl in Hc. rewrite He, node_change_same in Hc. done.
Qed.

Lemma lockstep_diffNodes st ms a b :
  lockstep st ms → 1 <= rr st a <= rr st b → rr st b <= m_cur st →
  diffNodes st a b = mm_diffNodes ms a b.
Proof.
  intros HL Hab Hb. destruct (lockstep_inv _ _ HL) as (I & J & (Ec & _)). simpl in Ec.
  assert (∀ g, mm_resolve ms g = rr st g) as Hrr by (intros g; unfold mm_resolve, rr; by rewrite Ec).
  pose proof (lockstep_touched _ _ HL) as T.
  assert (∀ g, 1 <= rr st g <= m_cur st → view (m_kv st) (rr st g) ≡ mview ms (rr st g)) as V.
  { intros g Hg. rewrite <- (Hrr g) at 2. apply (lockstep_at st ms (mkHandle 1 g) HL). exact Hg. }
  apply (sorted_ext nd_lt); [apply diffNodes_sorted|apply mm_diffNodes_sorted|]. intros [id c].
  rewrite elem_of_diffNodes by done. rewrite elem_of_mm_diffNodes by (rewrite ?Hrr; lia || done). rewrite !Hrr.
  split.
  - intros [Hid Hc]. by rewrite <- (proj1 (V a ltac:(lia) id Hid)), <- (proj1 (V b ltac:(lia) id Hid)).
  - intros Hc. assert (in64 id) as Hid.
    { assert (is_Some (mm_nodes ms !! id)) as [vs Hvs].
      { simpl in Hc. unfold effR in Hc. destruct (mm_nodes ms !! id); [eauto|by simpl in Hc]. }
      pose proof (mi_nodes _ J _ _ Hvs). pose proof (mi_next _ J). word_lia. }
    split; [done|]. by rewrite (proj1 (V a ltac:(lia) id Hid)), (proj1 (V b ltac:(lia) id Hid)).
Qed.
End Lockstep.
