(* ===== verification/OracleProps.v ===== *)
(** * OracleProps: what the test oracle promises, and where it differs

    The two implementations return the same errors and the same reads on every
    run over existing nodes; the theorems after that show two inputs on
    which they do not agree. *)
From S2P Require Import Prelude Keys Kv NodeRec Spec Store Views Shape Graph Links Inv Init Reads Diff StoreProps MemStore MemSim MemOps Oracle.
Local Open Scope Z_scope.
Set Warnings "-clear-no-such-hyp".

Section Props.
Context {M : Type} `{!KvEngine M}.
Implicit Types (st : Store M) (ms : MemStore) (h : Handle).

(** C4. Store and reference model return the same error for every operation
    on existing nodes, at any point of a common run. *)
Theorem oracle_same_errors st ms op :
  lockstep st ms → fs_ok (abs st) op → (exec st op).1 = (exec_mem ms op).1.
Proof.
  intros HL Hok. destruct (lockstep_inv _ _ HL) as (I & J & E).
  assert (graph (f_now (abs st))) as G by apply I.
  destruct (exec_sim st op I (fs_ok_op_ok _ _ I Hok)) as (_ & s1 & H1 & _).
  destruct (exec_mem_sim ms op J (fs_ok_equiv _ _ _ E G Hok)) as (_ & s2 & H2 & _).
  apply (fs_step_det _ _ _ _ _ _ _ E G Hok H1 H2).
Qed.

(** C3. After a common run every handle to a node, at the live tree or at a
    sealed snapshot, reads the same attributes, listing, lookups and
    containers from both. *)
Theorem oracle_same_reads st ms h n :
  lockstep st ms → plain st h → live st h →
  attrs (readNode st (h_id h) (h_snap h)) = mn_attr ms h ∧ readdir st h = mm_readdir ms h ∧
  lookup_ st h n = mm_lookup ms h n ∧ parents st h = mm_parents ms h.
Proof.
  intros HL P L. pose proof P as (Hs & Hid & _). split_and!.
  - by apply lockstep_attr.
  - by apply lockstep_readdir.
  - by apply lockstep_lookup.
  - by apply lockstep_parents.
Qed.

(** [diffNodes] of both gives the same list. *)
Theorem oracle_same_diff st ms a b :
  lockstep st ms → 1 <= rr st a <= rr st b → rr st b <= m_cur st → diffNodes st a b = mm_diffNodes ms a b.
Proof. intros. by apply lockstep_diffNodes. Qed.
End Props.

(** ** Concrete runs *)

Global Instance fs_handle_dec s h : Decision (fs_handle s h).
Proof. unfold fs_handle. apply _. Defined.
Global Instance fs_room_dec s c : Decision (fs_room s c).
Proof.
  refine (match v_attr (f_now s) c as o return v_attr (f_now s) c = o → _ with
          | Some r => λ E, cast_if (decide (r_nlink r + 1 < 2 ^ 32))
          | None => λ E, left _
          end eq_refl); unfold fs_room; rewrite E; naive_solver.
Defined.
Global Instance fs_ok_dec s op : Decision (fs_ok s op).
Proof.
  destruct op; simpl; try apply _.
  refine (match v_ent (f_now s) (h_id sd) sn as o return v_ent (f_now s) (h_id sd) sn = o → _ with
          | Some c => λ E, cast_if (decide (fs_handle s sd ∧ fs_handle s dd ∧ fs_room s c))
          | None => λ E, cast_if (decide (fs_handle s sd ∧ fs_handle s dd))
          end eq_refl); rewrite E; naive_solver.
Defined.

Fixpoint lock_ok (st : Store (gmap bytes bytes)) (ops : list Op) : bool :=
  match ops with
  | [] => true
  | op :: ops' => bool_decide (fs_ok (abs st) op) && lock_ok (exec st op).2 ops'
  end.
Definition run_mem (ms : MemStore) (ops : list Op) : MemStore := fold_left (λ s op, (exec_mem s op).2) ops ms.
Lemma lockstep_run st ms ops : lockstep st ms → lock_ok st ops = true → lockstep (run st ops) (run_mem ms ops).
Proof.
  revert st ms. induction ops as [|op ops IH]; intros st ms HL; simpl; [done|].
  intros [Hok%bool_decide_eq_true Hrun]%andb_true_iff. apply IH; [by constructor|done].
Qed.

Definition mem_demo : MemStore := run_mem MemStore0 demo_ops.
Lemma lockstep_demo : lockstep demo mem_demo.
Proof. apply lockstep_run; [constructor|by vm_compute]. Qed.

Lemma oracle_same_errors_witness :
  (exec demo (OpLink (mkHandle 1 LATEST) (str "g") (mkHandle 2 LATEST))).1 = EXIST ∧
  (exec demo (OpLink (mkHandle 1 LATEST) (str "g") (mkHandle 2 LATEST))).1 =
  (exec_mem mem_demo (OpLink (mkHandle 1 LATEST) (str "g") (mkHandle 2 LATEST))).1.
Proof.
  split; [by vm_compute|]. apply (oracle_same_errors demo mem_demo _ lockstep_demo).
  by apply (bool_decide_eq_true (fs_ok (abs demo) _)); vm_compute.
Defined.

Lemma oracle_same_reads_witness :
  let h := mkHandle 2 1 in
  attrs (readNode demo 2 1) = mn_attr mem_demo h ∧ readdir demo h = mm_readdir mem_demo h ∧
  lookup_ demo h (str "f") = mm_lookup mem_demo h (str "f") ∧ parents demo h = mm_parents mem_demo h.
Proof. apply (oracle_same_reads demo mem_demo (mkHandle 2 1) (str "f") lockstep_demo); by vm_compute. Defined.

Lemma oracle_same_diff_witness : diffNodes demo 1 LATEST = mm_diffNodes mem_demo 1 LATEST.
Proof. apply (oracle_same_diff demo mem_demo 1 LATEST lockstep_demo); by vm_compute. Defined.

(** ** Where they differ *)

(** The operations that replace the child of one name between two snapshots. *)
Definition replace_ops : list Op :=
  [OpMkfile []; OpLink (mkHandle 1 LATEST) (str "x") (mkHandle 2 LATEST); OpSnapshot [];
   OpMkfile []; OpUnlink (mkHandle 1 LATEST) (str "x"); OpLink (mkHandle 1 LATEST) (str "x") (mkHandle 3 LATEST)].

(** The reference model reports a name whose child was replaced as
    removed and added; on the same run the store reports nothing. *)
Theorem oracle_reports_replaced :
  lockstep (run demo0 replace_ops) (run_mem MemStore0 replace_ops) ∧
  mm_diffPaths (run_mem MemStore0 replace_ops) 1 LATEST =
    [mkPathDiff PREMOVED 1 (str "x") 2; mkPathDiff ADDED 1 (str "x") 3] ∧
  diffPaths (run demo0 replace_ops) 1 LATEST = [].
Proof. split; [apply lockstep_run; [constructor|by vm_compute]|by vm_compute]. Qed.

(** Outside existing nodes they part: linking a [.snapshot] directory
    handle as a child fails in the store and succeeds in the model, which then
    lists it. *)
Theorem oracle_links_snapdir :
  let snapdir := mkHandle (Z.lor 1 SNAP_BIT) LATEST in
  let op := OpLink (mkHandle 1 LATEST) (str "s") snapdir in
  lookup_ demo (mkHandle 1 LATEST) SNAPSHOT_NAME = Some snapdir ∧
  (exec demo op).1 = NOENT ∧ (exec_mem mem_demo op).1 = OK ∧
  (str "s", snapdir) ∈ mm_readdir (exec_mem mem_demo op).2 (mkHandle 1 LATEST).
Proof.
  split_and!; [by vm_compute..|]. vm_compute. repeat constructor.
Qed.
