(* ===== verification/Content.v ===== *)
(** * Content: deterministic file bytes (src/content/content.cpp)

    The provider of synthetic file content: a block is a hole, a duplicate of
    a shared corpus entry or unique, decided by a coordinate hash, and its
    bytes come from a counter-based generator. The generator's algorithm
    (Random123, called by src/rng/philox.cpp and threefry.cpp) is a parameter. *)
From S2P Require Import Prelude.
Local Open Scope Z_scope.
Set Warnings "-clear-no-such-hyp".

(** ** Configuration *)

Record ContentConfig := mkConfig {
  blockSize : Z; entropy : Z; sparsePercent : Z; dedupPercent : Z; dedupCorpus : Z
}.
Definition default_config : ContentConfig := mkConfig 4096 255 0 0 65536.

Fixpoint le_bytes (n : nat) (v : Z) : bytes :=
  match n with O => [] | S n' => zb v :: le_bytes n' (Z.shiftr v 8) end.
Definition config_magic : bytes := str "PCC1".
Definition config_serialize (c : ContentConfig) : bytes :=
  config_magic ++ le_bytes 4 (blockSize c) ++ [zb (entropy c); zb (sparsePercent c); zb (dedupPercent c); zb 0] ++
  le_bytes 4 (dedupCorpus c).

(** [v[i]] and the little-endian word at [off]. *)
Definition byte_at (v : bytes) (i : nat) : Z := from_option bz 0 (v !! i).
Definition u32_at (v : bytes) (off : nat) : Z :=
  fold_left (λ x i, Z.lor x (Z.shiftl (byte_at v (off + i)) (8 * Z.of_nat i))) (seq 0 4) 0.
(** [None]: the exception "bad config blob". *)
Definition config_deserialize (v : bytes) : option ContentConfig :=
  match v with
  | [] => Some default_config
  | _ => if (length v <? 16)%nat || negb (bool_decide (take 4 v = config_magic)) then None
         else Some (mkConfig (u32_at v 4) (byte_at v 8) (byte_at v 9) (byte_at v 10) (u32_at v 12))
  end.

(** ** Decisions *)

Definition GOLDEN : Z := 0x9E3779B97F4A7C15.
Definition HOLE_TAG : Z := 1.
Definition DUP_TAG : Z := 2.
Definition DUP2_TAG : Z := 3.
Definition DATA_TAG : Z := 4.
Definition CORPUS_TAG : Z := 5.

Definition mix64 (x : Z) : Z :=
  let x := Z.lxor x (Z.shiftr x 30) in
  let x := u64 (x * 0xbf58476d1ce4e5b9) in
  let x := Z.lxor x (Z.shiftr x 27) in
  let x := u64 (x * 0x94d049bb133111eb) in
  Z.lxor x (Z.shiftr x 31).
Definition hash (a b tag : Z) : Z := mix64 (u64 (mix64 (u64 (u64 (a * GOLDEN) + b)) + tag)).

(** [lround(pow(2, 8e/255))] clamped to [1, 256]: the least [K] whose upper
    rounding boundary [K + 1/2] lies above [2^(8e/255)], compared after raising
    both to the power 255. *)
Definition pow_below (e K : Z) : bool := 2 ^ (8 * e + 255) <? (2 * K + 1) ^ 255.
Fixpoint round_up (fuel : nat) (e K : Z) : Z :=
  match fuel with
  | O => K
  | S fuel' => if pow_below e K then K else round_up fuel' e (K + 1)
  end.
Definition alphabet (e : Z) : Z := Z.min 256 (Z.max 1 (round_up 256 e 0)).
Definition mapByte (v K : Z) : Z := if K <=? 1 then 0 else ((v mod K) * 255) / (K - 1).

Definition isHole (c : ContentConfig) (seed b : Z) : bool :=
  (0 <? sparsePercent c) && (hash seed b HOLE_TAG mod 100 <? sparsePercent c).
Definition blockSrc (c : ContentConfig) (seed b : Z) : Z :=
  if (0 <? dedupPercent c) && (0 <? dedupCorpus c) && (hash seed b DUP_TAG mod 100 <? dedupPercent c)
  then hash 0 (hash seed b DUP2_TAG mod dedupCorpus c) CORPUS_TAG
  else hash seed b DATA_TAG.

(** ** Generation *)

(** The generator interface [IRng]: four words from a counter and a key. *)
Record words := mkWords { w0 : Z; w1 : Z; w2 : Z; w3 : Z }.
Definition IRng := words → Z * Z → words.
Definition word (w : words) (i : nat) : Z :=
  match i with 0%nat => w0 w | 1%nat => w1 w | 2%nat => w2 w | _ => w3 w end.

Section Content.
Context (gen : IRng).

(** One group of (at most) sixteen bytes at offset [off] of a block. *)
Definition gen_group (b src : Z) (K bs off g : Z) : bytes :=
  let out := gen (mkWords (u32 b) (u32 (Z.shiftr b 32)) g 0) (u32 src, u32 (Z.shiftr src 32)) in
  (λ i, zb (mapByte (u8 (Z.shiftr (word out (i / 4)) (8 * Z.of_nat (i mod 4)))) K)) <$>
    seq 0 (Z.to_nat (Z.min 16 (bs - off))).
(** [off] is a 32-bit counter: it wraps for block sizes above 2^32 - 16, and
    the loop never ends ([None]). *)
Fixpoint gen_loop (fuel : nat) (b src K bs off g : Z) : option bytes :=
  if off <? bs then
    match fuel with
    | O => None
    | S fuel' => (λ r, gen_group b src K bs off g ++ r) <$> gen_loop fuel' b src K bs (u32 (off + 16)) (u32 (g + 1))
    end
  else Some [].
(** The bytes [genBlock] writes to the front of its buffer. *)
Definition genBlock (c : ContentConfig) (seed b K : Z) : option bytes :=
  let bs := blockSize c in
  if isHole c seed b then Some (replicate (Z.to_nat bs) (zb 0))
  else gen_loop (S (Z.to_nat (bs / 16))) b (blockSrc c seed b) K bs 0 0.

(** [memcpy(out + pos, src + from, n)]; [None] outside either buffer. *)
Definition memcpy (out : bytes) (pos : Z) (src : bytes) (from n : Z) : option bytes :=
  if (pos + n <=? Z.of_nat (length out)) && (from + n <=? Z.of_nat (length src))
  then Some (take (Z.to_nat pos) out ++ take (Z.to_nat n) (drop (Z.to_nat from) src) ++ drop (Z.to_nat (pos + n)) out)
  else None.

Fixpoint read_loop (c : ContentConfig) (seed K bs offset end_ : Z) (blocks : list Z)
    (block out : bytes) : option bytes :=
  match blocks with
  | [] => Some out
  | b :: blocks' =>
      g ← genBlock c seed b K;
      let block := g ++ drop (length g) block in
      let bstart := u64 (b * bs) in
      let s := Z.max offset bstart in
      let e := Z.min end_ (u64 (bstart + bs)) in
      out ← memcpy out (u64 (s - offset)) block (u64 (s - bstart)) (u64 (e - s));
      read_loop c seed K bs offset end_ blocks' block out
  end.
(** [content::read]: the count and the filled buffer; [None] where the code
    leaves its buffers. *)
Definition content_read (c : ContentConfig) (seed size offset : Z) (out : bytes) (len : Z) : option (Z * bytes) :=
  if (size <=? offset) || (len =? 0) then Some (0, out)
  else
    let end_ := Z.min (u64 (offset + len)) size in
    let bs := if blockSize c =? 0 then 1 else blockSize c in
    let K := alphabet (entropy c) in
    let last := u64 (end_ - 1) / bs in
    out ← read_loop c seed K bs offset end_ (seqZ (offset / bs) (last - offset / bs + 1))
            (replicate (Z.to_nat bs) (zb 0)) out;
    Some (u64 (end_ - offset), out).
End Content.

Definition allocatedBlocks (c : ContentConfig) (seed size : Z) : Z :=
  if size =? 0 then 0
  else
    let bs := if blockSize c =? 0 then 1 else blockSize c in
    let nblocks := u64 (u64 (size + bs) - 1) / bs in
    let allocBytes := fold_left (λ acc b, if isHole c seed b then acc
                                          else u64 (acc + Z.min bs (u64 (size - u64 (b * bs)))))
                                (seqZ 0 nblocks) 0 in
    u64 (allocBytes + 511) / 512.

(** ** Lemmas *)

Section Blocks.
Context (gen : IRng) (c : ContentConfig) (seed : Z).

Lemma length_gen_group b src K bs off g :
  0 <= bs - off → Z.of_nat (length (gen_group gen b src K bs off g)) = Z.min 16 (bs - off).
Proof. intros. unfold gen_group. rewrite length_fmap, length_seq. lia. Qed.

Lemma gen_loop_total fuel b src K bs off g :
  0 <= off → bs <= 2 ^ 32 - 16 → bs - off < 16 * Z.of_nat fuel →
  ∃ r, gen_loop gen fuel b src K bs off g = Some r ∧ Z.of_nat (length r) = Z.max 0 (bs - off).
Proof.
  intros Hoff Hbs. revert off g Hoff. induction fuel as [|fuel IH]; intros off g Hoff Hf; simpl.
  - rewrite (proj2 (Z.ltb_ge _ _)) by lia. exists []. split; [done|simpl; lia].
  - destruct (Z.ltb_spec off bs).
    + rewrite (u32_small (off + 16)) by word_lia.
      destruct (IH (off + 16) (u32 (g + 1)) ltac:(lia) ltac:(lia)) as (r & -> & Hr). simpl. eexists.
      split; [done|]. rewrite length_app, Nat2Z.inj_add, length_gen_group, Hr by lia. lia.
    + exists []. split; [done|simpl; lia].
Qed.

(** Every block is generated, and fills its buffer exactly. *)
Lemma genBlock_total b K :
  0 <= blockSize c <= 2 ^ 32 - 16 →
  ∃ g, genBlock gen c seed b K = Some g ∧ Z.of_nat (length g) = blockSize c.
Proof.
  intros Hbs. unfold genBlock. destruct (isHole c seed b).
  - eexists. split; [done|]. rewrite length_replicate. lia.
  - destruct (gen_loop_total (S (Z.to_nat (blockSize c / 16))) b (blockSrc c seed b) K (blockSize c) 0 0)
      as (r & -> & Hr); [lia|lia| |exists r; split; [done|lia]].
    pose proof (Z.mod_pos_bound (blockSize c) 16 ltac:(lia)). pose proof (Z.div_mod (blockSize c) 16 ltac:(lia)). lia.
Qed.

(** The byte of the file at [x], whatever range is read. *)
Definition eff_bs : Z := if blockSize c =? 0 then 1 else blockSize c.
Definition content_byte (x : Z) : byte :=
  default (zb 0) (default [] (genBlock gen c seed (x / eff_bs) (alphabet (entropy c))) !! Z.to_nat (x mod eff_bs)).
Definition file_bytes (from n : Z) : bytes := content_byte <$> seqZ from n.

Lemma length_file_bytes from n : 0 <= n → Z.of_nat (length (file_bytes from n)) = n.
Proof. intros. unfold file_bytes. rewrite length_fmap, length_seqZ. lia. Qed.
Lemma file_bytes_app from n m :
  0 <= n → 0 <= m → file_bytes from (n + m) = file_bytes from n ++ file_bytes (from + n) m.
Proof. intros. unfold file_bytes. by rewrite seqZ_app, fmap_app by done. Qed.

(** A stretch inside one block is that block's slice. *)
Lemma file_bytes_block b g from n block :
  0 < eff_bs → genBlock gen c seed b (alphabet (entropy c)) = Some g →
  (∀ i, (i < Z.to_nat eff_bs)%nat → block !! i = Some (default (zb 0) (g !! i))) →
  0 <= from → 0 <= n → from + n <= eff_bs →
  take (Z.to_nat n) (drop (Z.to_nat from) block) = file_bytes (b * eff_bs + from) n.
Proof.
  intros Hbs Hg Hblock Hf Hn Hfn. apply list_eq. intros i. unfold file_bytes. rewrite list_lookup_fmap.
  destruct (decide (i < Z.to_nat n)%nat) as [Hi|Hi].
  - rewrite lookup_take_lt, lookup_drop by done. rewrite Hblock by lia.
    rewrite lookup_seqZ_lt by lia. simpl. f_equal. unfold content_byte.
    assert ((b * eff_bs + from + Z.of_nat i) / eff_bs = b) as ->.
    { symmetry. apply Z.div_unique with (from + Z.of_nat i); lia. }
    assert ((b * eff_bs + from + Z.of_nat i) mod eff_bs = from + Z.of_nat i) as ->.
    { symmetry. apply Z.mod_unique with b; lia. }
    rewrite Hg. simpl. do 2 f_equal. lia.
  - rewrite lookup_take_ge, lookup_seqZ_ge by lia. done.
Qed.

Lemma memcpy_spec (done_ rest src : bytes) pos from n :
  Z.of_nat (length done_) = pos → 0 <= n → n <= Z.of_nat (length rest) →
  0 <= from → from + n <= Z.of_nat (length src) →
  memcpy (done_ ++ rest) pos src from n =
    Some (done_ ++ take (Z.to_nat n) (drop (Z.to_nat from) src) ++ drop (Z.to_nat n) rest).
Proof.
  intros Hp Hn Hr Hf Hs. unfold memcpy. rewrite length_app.
  rewrite !(proj2 (Z.leb_le _ _)) by lia. cbn [andb]. do 2 f_equal.
  - rewrite take_app_length'; [done|lia].
  - f_equal. rewrite drop_app_ge by lia. f_equal. lia.
Qed.

Lemma eff_bs_pos : 0 <= blockSize c → 0 < eff_bs.
Proof. intros. unfold eff_bs. destruct (Z.eqb_spec (blockSize c) 0); lia. Qed.

(** The buffer after [genBlock]: the block's bytes (a single zero byte when the
    block size is 0). *)
Definition block_ok (block : bytes) : Prop :=
  length block = Z.to_nat eff_bs ∧ (blockSize c = 0 → block = [zb 0]).
Lemma genBlock_buffer b K g block :
  0 <= blockSize c <= 2 ^ 32 - 16 → genBlock gen c seed b K = Some g → block_ok block →
  block_ok (g ++ drop (length g) block) ∧
  ∀ i, (i < Z.to_nat eff_bs)%nat → (g ++ drop (length g) block) !! i = Some (default (zb 0) (g !! i)).
Proof.
  intros Hbs Hg [Hl Hz]. destruct (genBlock_total b K Hbs) as (g' & Hg' & Hlen). simplify_eq.
  unfold block_ok, eff_bs in *. destruct (Z.eqb_spec (blockSize c) 0) as [E|E].
  - assert (g = []) as -> by (apply nil_length_inv; lia). rewrite (Hz E). split; [done|].
    intros [|i] ?; [done|simpl in *; lia].
  - assert (length g = length block) as -> by lia. rewrite drop_all, app_nil_r. split; [split; [lia|done]|].
    intros i Hi. destruct (lookup_lt_is_Some_2 g i ltac:(lia)) as [x Hx]. by rewrite Hx.
Qed.

(** Each round copies the part of one block that the range covers. *)
Lemma read_loop_spec (n : nat) b offset end_ block out0 :
  let pos := Z.min end_ (Z.max offset (b * eff_bs)) in
  0 <= blockSize c <= 2 ^ 32 - 16 → 0 <= offset < end_ → end_ + eff_bs <= 2 ^ 64 →
  end_ - offset <= Z.of_nat (length out0) → 0 <= b → b + Z.of_nat n = (end_ - 1) / eff_bs + 1 →
  offset < (b + 1) * eff_bs → block_ok block →
  read_loop gen c seed (alphabet (entropy c)) eff_bs offset end_ (seqZ b (Z.of_nat n)) block
    (file_bytes offset (pos - offset) ++ drop (Z.to_nat (pos - offset)) out0) =
  Some (file_bytes offset (end_ - offset) ++ drop (Z.to_nat (end_ - offset)) out0).
Proof.
  intros pos Hbs Hoff Hend Hout Hb Hn Hcover Hok. pose proof (eff_bs_pos ltac:(lia)) as Hpos.
  pose proof (Z.div_mod (end_ - 1) eff_bs ltac:(lia)). pose proof (Z.mod_pos_bound (end_ - 1) eff_bs Hpos).
  revert b block pos Hb Hn Hcover Hok. induction n as [|n IH]; intros b block pos Hb Hn Hcover Hok.
  - simpl. by replace pos with end_ by nia.
  - rewrite seqZ_cons by lia. simpl.
    destruct (genBlock_total b (alphabet (entropy c)) Hbs) as (g & Hg & _). rewrite Hg. simpl.
    destruct (genBlock_buffer _ _ _ _ Hbs Hg Hok) as [Hok' Hblk].
    set (block' := g ++ drop (length g) block) in *.
    assert (b * eff_bs <= end_ - 1) by nia.
    assert (pos = Z.max offset (b * eff_bs)) as Epos by lia.
    rewrite (u64_small (b * eff_bs)), (u64_small (b * eff_bs + eff_bs)) by word_lia. rewrite <- Epos.
    set (e := Z.min end_ (b * eff_bs + eff_bs)).
    rewrite !u64_small by word_lia.
    rewrite memcpy_spec; [|by rewrite length_file_bytes by lia|lia|rewrite length_drop; lia|lia|destruct Hok' as [-> _]; lia].
    simpl. rewrite (file_bytes_block b g) by (done || lia). rewrite drop_drop, app_assoc.
    replace (b * eff_bs + (pos - b * eff_bs)) with (offset + (pos - offset)) by lia.
    rewrite <- file_bytes_app by lia.
    replace (pos - offset + (e - pos)) with (e - offset) by lia.
    replace (Z.to_nat (pos - offset) + Z.to_nat (e - pos))%nat with (Z.to_nat (e - offset)) by lia.
    replace (Z.pred (Z.of_nat (S n))) with (Z.of_nat n) by lia.
    replace (e - offset) with (Z.min end_ (Z.max offset (Z.succ b * eff_bs)) - offset) by lia.
    apply IH; [lia|lia|lia|done].
Qed.
End Blocks.
