(* ===== verification/ContentProps.v ===== *)
(** * ContentProps: the correctness of the content generator

    Random access, size authority, the configuration blob, the alphabet, holes
    and duplicates; the inputs on which 64-bit arithmetic wraps. *)
From S2P Require Import Prelude Content.
Local Open Scope Z_scope.
Set Warnings "-clear-no-such-hyp".

Definition config_ok (c : ContentConfig) : Prop :=
  in32 (blockSize c) ∧ in8 (entropy c) ∧ in8 (sparsePercent c) ∧ in8 (dedupPercent c) ∧ in32 (dedupCorpus c).

(** ** Lemmas *)

Lemma u32_at_le v x off :
  in32 x → (∀ i, (i < 4)%nat → v !! (off + i)%nat = le_bytes 4 x !! i) → u32_at v off = x.
Proof.
  intros Hx Hv. unfold u32_at, byte_at. cbn [seq fold_left]. rewrite !Hv by lia.
  cbn [le_bytes lookup list_lookup from_option]. rewrite !bz_zb, !Z.shiftr_shiftr by lia.
  rewrite !Z.shiftr_div_pow2 by lia.
  change (8 * Z.of_nat 0) with 0. change (8 * Z.of_nat 1) with 8. change (8 * Z.of_nat 2) with 16.
  change (8 * Z.of_nat 3) with 24. rewrite Z.shiftl_0_r, Z.lor_0_l.
  set (a := x mod 256). set (b := (x / 2 ^ 8) mod 256). set (d := (x / 2 ^ (8 + 8)) mod 256).
  set (e := (x / 2 ^ (8 + 8 + 8)) mod 256).
  assert (0 <= a < 256 ∧ 0 <= b < 256 ∧ 0 <= d < 256 ∧ 0 <= e < 256) as (? & ? & ? & ?)
    by (split_and!; apply Z.mod_pos_bound; lia).
  rewrite (Z.lor_comm a), lor_shift_add by lia.
  rewrite (Z.lor_comm _ (Z.shiftl d 16)), lor_shift_add by lia.
  rewrite (Z.lor_comm _ (Z.shiftl e 24)), lor_shift_add by lia.
  unfold in32, a, b, d, e in *. change (2 ^ (8 + 8)) with 65536. change (2 ^ (8 + 8 + 8)) with 16777216.
  Z.to_euclidean_division_equations. lia.
Qed.

Lemma config_serialize_lookup c i :
  (i < 4)%nat → config_serialize c !! (4 + i)%nat = le_bytes 4 (blockSize c) !! i ∧
  config_serialize c !! (12 + i)%nat = le_bytes 4 (dedupCorpus c) !! i.
Proof. intros Hi. do 4 (destruct i as [|i]; [done|]). lia. Qed.

Lemma mapByte_lt K x y :
  2 <= K <= 256 → 0 <= x → x < y → (x * 255) / (K - 1) < (y * 255) / (K - 1).
Proof.
  intros HK Hx Hxy. apply Z.lt_le_trans with ((x * 255 + 1 * (K - 1)) / (K - 1)).
  - rewrite Z.div_add by lia. lia.
  - apply Z.div_le_mono; lia.
Qed.
Lemma mapByte_range v K : 1 <= K <= 256 → 0 <= mapByte v K < 256.
Proof.
  intros HK. unfold mapByte. destruct (Z.leb_spec K 1); [lia|].
  pose proof (Z.mod_pos_bound v K ltac:(lia)). split; [apply Z.div_pos; lia|].
  apply Z.div_lt_upper_bound; nia.
Qed.

(** The search of [alphabet]. *)
Lemma round_up_spec fuel e K :
  let R := round_up fuel e K in
  K <= R <= K + Z.of_nat fuel ∧ (∀ x, K <= x < R → pow_below e x = false) ∧
  (R < K + Z.of_nat fuel → pow_below e R = true).
Proof.
  revert K. induction fuel as [|fuel IH]; intros K; cbn [round_up]; cbv zeta.
  - split_and!; [lia..|intros; lia|lia].
  - destruct (pow_below e K) eqn:E.
    + split_and!; [lia..|intros; lia|done].
    + destruct (IH (K + 1)) as (H1 & H2 & H3). split_and!; [lia..| |intros; apply H3; lia].
      intros x Hx. destruct (decide (x = K)) as [->|]; [done|]. apply H2. lia.
Qed.

Lemma pow_below_zero e : 0 <= e → pow_below e 0 = false.
Proof.
  intros He. apply Z.ltb_ge. change ((2 * 0 + 1) ^ 255) with (2 ^ 0). apply Z.pow_le_mono_r; lia.
Qed.
Lemma pow_below_max e : in8 e → pow_below e 256 = true.
Proof.
  intros He. apply Z.ltb_lt. apply Z.le_lt_trans with (2 ^ 2295); [|by vm_compute].
  apply Z.pow_le_mono_r; word_lia.
Qed.

Lemma alphabet_spec e :
  in8 e → let K := alphabet e in 1 <= K <= 256 ∧ pow_below e (K - 1) = false ∧ pow_below e K = true.
Proof.
  intros He. destruct (round_up_spec 256 e 0) as (H1 & H2 & H3). unfold alphabet. cbv zeta.
  set (R := round_up 256 e 0) in *. change (Z.of_nat 256) with 256 in *.
  assert (0 < R).
  { destruct (decide (R = 0)) as [E|]; [|lia]. rewrite E in H3. specialize (H3 ltac:(lia)).
    by rewrite pow_below_zero in H3 by word_lia. }
  replace (Z.min 256 (Z.max 1 R)) with R by lia. split_and!; [lia..|apply H2; lia|].
  destruct (decide (R = 256)) as [->|]; [by apply pow_below_max|apply H3; lia].
Qed.

Section ContentProps.
Context (gen : IRng) (c : ContentConfig) (seed : Z).

Lemma gen_loop_elem fuel b src K bs off g r x :
  gen_loop gen fuel b src K bs off g = Some r → x ∈ r → ∃ v, in8 v ∧ x = zb (mapByte v K).
Proof.
  revert off g r. induction fuel as [|fuel IH]; intros off g r; simpl; destruct (off <? bs).
  - done.
  - intros [= <-]. set_solver.
  - intros (r' & Hr' & ->)%fmap_Some [Hx|Hx]%elem_of_app; [|by eapply IH].
    apply list_elem_of_fmap in Hx as (i & -> & _). eexists. split; [|done]. apply Z.mod_pos_bound. lia.
  - intros [= <-]. set_solver.
Qed.
Lemma genBlock_elem b K g x :
  genBlock gen c seed b K = Some g → x ∈ g → ∃ v, in8 v ∧ x = zb (mapByte v K).
Proof.
  unfold genBlock. destruct (isHole c seed b); [|apply gen_loop_elem].
  intros [= <-] [-> _]%elem_of_replicate. exists 0. split; [word_lia|]. unfold mapByte.
  destruct (K <=? 1); [done|]. rewrite Zmod_0_l. done.
Qed.

(** Positions that carry data, block by block. *)
Definition has_data (x : Z) : Prop := isHole c seed (x / eff_bs c) = false.
#[local] Instance has_data_dec x : Decision (has_data x).
Proof. unfold has_data. apply _. Defined.
Definition data_bytes (n : Z) : Z := Z.of_nat (length (filter has_data (seqZ 0 n))).

Lemma data_bytes_block b n :
  0 < eff_bs c → 0 <= b → 0 <= n <= eff_bs c →
  data_bytes (b * eff_bs c + n) = data_bytes (b * eff_bs c) + if isHole c seed b then 0 else n.
Proof.
  intros Hbs Hb Hn. unfold data_bytes. rewrite seqZ_app, filter_app, length_app, Nat2Z.inj_add by nia. f_equal.
  assert (∀ x, x ∈ seqZ (0 + b * eff_bs c) n → x / eff_bs c = b) as Hdiv.
  { intros x [? ?]%elem_of_seqZ. symmetry. apply Z.div_unique with (x - b * eff_bs c); lia. }
  assert (length (seqZ (0 + b * eff_bs c) n) = Z.to_nat n) as Hlen by apply length_seqZ.
  destruct (isHole c seed b) eqn:E.
  - replace (filter has_data _) with (@nil Z); [done|]. symmetry. apply filter_none, Forall_forall.
    intros x Hx. unfold has_data. rewrite (Hdiv x Hx), E. done.
  - rewrite filter_all; [lia|]. apply Forall_forall. intros x Hx. unfold has_data. by rewrite (Hdiv x Hx).
Qed.

Lemma alloc_loop size (n : nat) :
  0 < eff_bs c → 0 <= size → size + eff_bs c <= 2 ^ 64 → Z.of_nat n <= (size + eff_bs c - 1) / eff_bs c →
  fold_left (λ acc b, if isHole c seed b then acc
                      else u64 (acc + Z.min (eff_bs c) (u64 (size - u64 (b * eff_bs c)))))
            (seqZ 0 (Z.of_nat n)) 0 = data_bytes (Z.min size (Z.of_nat n * eff_bs c)).
Proof.
  intros Hbs Hsize Hmax Hn.
  pose proof (Z.mul_div_le (size + eff_bs c - 1) (eff_bs c) Hbs).
  induction n as [|n IH]; [by rewrite Z.min_r by lia|].
  replace (Z.of_nat (S n)) with (Z.of_nat n + 1) in * by lia.
  rewrite seqZ_app, fold_left_app, IH by lia. cbn [seqZ]. change (seqZ (0 + Z.of_nat n) 1) with [0 + Z.of_nat n].
  cbn [fold_left]. rewrite Z.add_0_l. assert (Z.of_nat n * eff_bs c <= size - 1) by nia.
  rewrite (Z.min_r size (Z.of_nat n * eff_bs c)) by lia.
  set (k := Z.min (eff_bs c) (size - Z.of_nat n * eff_bs c)).
  replace (Z.min size ((Z.of_nat n + 1) * eff_bs c)) with (Z.of_nat n * eff_bs c + k) by lia.
  rewrite data_bytes_block by lia. destruct (isHole c seed (Z.of_nat n)); [lia|].
  rewrite (u64_small (Z.of_nat n * eff_bs c)), (u64_small (size - Z.of_nat n * eff_bs c)) by word_lia. fold k.
  apply u64_small. assert (data_bytes (Z.of_nat n * eff_bs c) <= Z.of_nat n * eff_bs c).
  { unfold data_bytes. pose proof (length_filter has_data (seqZ 0 (Z.of_nat n * eff_bs c))) as Hl.
    rewrite length_seqZ in Hl. lia. }
  unfold data_bytes in *. word_lia.
Qed.

(** Any range, read. *)
Lemma content_read_spec size offset out len :
  0 <= blockSize c <= 2 ^ 32 - 16 → 0 <= offset → 0 <= len <= Z.of_nat (length out) →
  offset + len < 2 ^ 64 → 0 <= size → size + eff_bs c <= 2 ^ 64 →
  let n := Z.max 0 (Z.min len (size - offset)) in
  content_read gen c seed size offset out len =
    Some (n, file_bytes gen c seed offset n ++ drop (Z.to_nat n) out).
Proof.
  intros Hbs Hoff Hlen Hol Hsize Hmax n. unfold content_read.
  destruct ((size <=? offset) || (len =? 0)) eqn:E.
  { apply orb_true_iff in E as [E%Z.leb_le|E%Z.eqb_eq]; by replace n with 0 by lia. }
  apply orb_false_iff in E as [E1%Z.leb_gt E2%Z.eqb_neq].
  pose proof (eff_bs_pos c ltac:(lia)) as Hpos. change (if blockSize c =? 0 then 1 else blockSize c) with (eff_bs c).
  rewrite (u64_small (offset + len)) by word_lia. set (end_ := Z.min (offset + len) size).
  rewrite (u64_small (end_ - 1)), (u64_small (end_ - offset)) by word_lia.
  replace n with (end_ - offset) by lia.
  pose proof (Z.div_le_mono offset (end_ - 1) (eff_bs c) Hpos ltac:(lia)).
  pose proof (Z.div_mod offset (eff_bs c) ltac:(lia)). pose proof (Z.mod_pos_bound offset (eff_bs c) Hpos).
  pose proof (Z.div_pos offset (eff_bs c) ltac:(lia) Hpos).
  replace ((end_ - 1) / eff_bs c - offset / eff_bs c + 1)
    with (Z.of_nat (Z.to_nat ((end_ - 1) / eff_bs c - offset / eff_bs c + 1))) by lia.
  pose proof (read_loop_spec gen c seed (Z.to_nat ((end_ - 1) / eff_bs c - offset / eff_bs c + 1))
    (offset / eff_bs c) offset end_ (replicate (Z.to_nat (eff_bs c)) (zb 0)) out) as H'. cbv zeta in H'.
  replace (Z.min end_ (Z.max offset (offset / eff_bs c * eff_bs c)) - offset) with 0 in H' by lia.
  change (file_bytes gen c seed offset 0 ++ drop (Z.to_nat 0) out) with out in H'.
  rewrite H'; [done|lia..|nia|].
  split; [by rewrite length_replicate|]. intros E. unfold eff_bs. by rewrite E.
Qed.

Lemma config_deserialize_serialize : config_ok c → config_deserialize (config_serialize c) = Some c.
Proof.
  intros (Hbs & He & Hsp & Hd & Hc).
  change (config_deserialize (config_serialize c)) with
    (Some (mkConfig (u32_at (config_serialize c) 4) (byte_at (config_serialize c) 8) (byte_at (config_serialize c) 9)
      (byte_at (config_serialize c) 10) (u32_at (config_serialize c) 12))).
  rewrite (u32_at_le _ (blockSize c)), (u32_at_le _ (dedupCorpus c)); [|done|apply config_serialize_lookup|done|apply config_serialize_lookup].
  unfold byte_at. cbn. rewrite !bz_zb, !Z.mod_small by word_lia. by destruct c.
Qed.

(** ** Properties *)

(** C15. Random access: reading any range writes exactly the bytes of that
    range, each a function of its own position, clipped to the size; nothing
    beyond them is written. *)
Theorem content_read_range size offset out len :
  0 <= blockSize c <= 2 ^ 32 - 16 → 0 <= offset → 0 <= len <= Z.of_nat (length out) →
  offset + len < 2 ^ 64 → 0 <= size → size + eff_bs c <= 2 ^ 64 →
  let n := Z.max 0 (Z.min len (size - offset)) in
  content_read gen c seed size offset out len =
    Some (n, file_bytes gen c seed offset n ++ drop (Z.to_nat n) out).
Proof. apply content_read_spec. Qed.

(** C39. The bytes of a file at entropy [e] use at most [K = alphabet e]
    symbols: [K] is [2^(8e/255)] rounded to the nearest integer, every byte
    comes from [mapByte _ K], and [mapByte] separates exactly the residues
    modulo [K]. *)
Theorem content_alphabet x :
  0 <= blockSize c <= 2 ^ 32 - 16 → in8 (entropy c) →
  let K := alphabet (entropy c) in
  1 <= K <= 256 ∧
  ((2 * (K - 1) + 1) ^ 255 <= 2 ^ (8 * entropy c + 255) ∧ 2 ^ (8 * entropy c + 255) < (2 * K + 1) ^ 255) ∧
  (∃ v, in8 v ∧ content_byte gen c seed x = zb (mapByte v K)) ∧
  ∀ v w, in8 v → in8 w → zb (mapByte v K) = zb (mapByte w K) ↔ v mod K = w mod K.
Proof.
  intros Hbs He K.
  destruct (alphabet_spec (entropy c) He) as (HK & Hlo%Z.ltb_ge & Hhi%Z.ltb_lt). fold K in HK, Hlo, Hhi.
  split; [done|]. split; [done|]. clear Hlo Hhi. split.
  - unfold content_byte. destruct (genBlock_total gen c seed (x / eff_bs c) K Hbs) as (g & Hg & _).
    fold K. rewrite Hg. simpl. destruct (g !! _) as [y|] eqn:Hy.
    + eapply genBlock_elem; [exact Hg|]. by eapply list_elem_of_lookup_2.
    + exists 0. split; [word_lia|]. unfold mapByte. destruct (K <=? 1); [done|]. by rewrite Zmod_0_l.
  - intros v w Hv Hw. split.
    + intros Heq. apply (f_equal bz) in Heq. rewrite !bz_zb, !Z.mod_small in Heq by (by apply mapByte_range).
      unfold mapByte in Heq. destruct (Z.leb_spec K 1); [assert (K = 1) as -> by lia; by rewrite !Z.mod_1_r|].
      pose proof (Z.mod_pos_bound v K ltac:(lia)). pose proof (Z.mod_pos_bound w K ltac:(lia)).
      destruct (Z.lt_total (v mod K) (w mod K)) as [Hlt|[|Hlt]]; [|done|];
        apply (mapByte_lt K) in Hlt; lia.
    + intros Heq. unfold mapByte. by rewrite Heq.
Qed.
(** [allocatedBlocks] is the number of 512-byte units that hold the bytes
    outside holes, for sizes whose rounding does not wrap. *)
Theorem allocated_counts_data size :
  0 <= blockSize c → 0 <= size → size + eff_bs c <= 2 ^ 64 → size + 511 < 2 ^ 64 →
  allocatedBlocks c seed size = (data_bytes size + 511) / 512.
Proof.
  intros Hb Hsize Hmax Hmax'. pose proof (eff_bs_pos c Hb) as Hbs. unfold allocatedBlocks.
  destruct (Z.eqb_spec size 0) as [->|Hne]; [done|].
  change (if blockSize c =? 0 then 1 else blockSize c) with (eff_bs c).
  assert (u64 (u64 (size + eff_bs c) - 1) = size + eff_bs c - 1) as ->.
  { destruct (decide (size + eff_bs c = 2 ^ 64)) as [E|]; [by rewrite E|].
    by rewrite (u64_small (size + _)), u64_small by word_lia. }
  set (n := (size + eff_bs c - 1) / eff_bs c).
  assert (0 <= n) by (apply Z.div_pos; lia).
  pose proof (alloc_loop size (Z.to_nat n) Hbs Hsize Hmax ltac:(lia)) as Hloop.
  rewrite Z2Nat.id in Hloop by done. rewrite Hloop.
  pose proof (Z.div_mod (size + eff_bs c - 1) (eff_bs c) ltac:(lia)).
  pose proof (Z.mod_pos_bound (size + eff_bs c - 1) (eff_bs c) Hbs).
  rewrite Z.min_l by (unfold n; nia).
  assert (0 <= data_bytes size <= size).
  { unfold data_bytes. pose proof (length_filter has_data (seqZ 0 size)) as Hl. rewrite length_seqZ in Hl. lia. }
  by rewrite u64_small by word_lia.
Qed.

(** The configuration blob: every configuration is read back from its
    serialisation, the empty blob means the defaults, and a blob of the wrong
    length or magic is refused. *)
Theorem config_roundtrip v :
  config_ok c →
  config_deserialize (config_serialize c) = Some c ∧ config_deserialize [] = Some default_config ∧
  (v ≠ [] → (length v < 16)%nat ∨ take 4 v ≠ config_magic → config_deserialize v = None).
Proof.
  intros Hc. split_and!; [by apply config_deserialize_serialize|done|].
  - intros Hne Hbad. unfold config_deserialize. destruct v as [|b v]; [done|].
    destruct Hbad as [Hl|Hm].
    + by rewrite (proj2 (Nat.ltb_lt _ _) Hl).
    + by rewrite bool_decide_false, orb_true_r.
Qed.
End ContentProps.

(** ** Duplicates *)

(** Block [b] of the file [seed] is a duplicate of corpus entry [canon]. *)
Definition dup_of (c : ContentConfig) (seed b canon : Z) : Prop :=
  isHole c seed b = false ∧ 0 < dedupPercent c ∧ 0 < dedupCorpus c ∧
  hash seed b DUP_TAG mod 100 < dedupPercent c ∧ hash seed b DUP2_TAG mod dedupCorpus c = canon.

Lemma dup_of_src c seed b canon : dup_of c seed b canon → blockSrc c seed b = hash 0 canon CORPUS_TAG.
Proof.
  intros (_ & H1%Z.ltb_lt & H2%Z.ltb_lt & H3%Z.ltb_lt & <-). unfold blockSrc. rewrite H1, H2, H3. reflexivity.
Qed.

(** A generator for the concrete runs: it copies its inputs. *)
Definition demo_gen : IRng := λ ctr key, mkWords (w0 ctr) (w2 ctr) key.1 key.2.
Definition demo_config : ContentConfig := mkConfig 32 64 0 100 1.

(** Cross-file duplicates: blocks of any two files that are duplicates of
    one corpus entry and have the same index hold the same bytes. Within one
    index only: the block index is part of the generator's counter, and blocks
    1 and 2 of one file, both duplicates of the only corpus entry, differ. *)
Theorem dedup_across_files :
  (∀ gen c s1 s2 b canon K, dup_of c s1 b canon → dup_of c s2 b canon →
    genBlock gen c s1 b K = genBlock gen c s2 b K) ∧
  dup_of demo_config 7 1 0 ∧ dup_of demo_config 7 2 0 ∧
  genBlock demo_gen demo_config 7 1 (alphabet 64) ≠ genBlock demo_gen demo_config 7 2 (alphabet 64).
Proof.
  split_and!; [|by vm_compute..|vm_compute; congruence].
  intros gen c s1 s2 b canon K D1 D2. unfold genBlock. rewrite (dup_of_src _ _ _ _ D1), (dup_of_src _ _ _ _ D2).
  destruct D1 as [-> _], D2 as [-> _]. reflexivity.
Qed.

(** Near 2^64 the arithmetic wraps: reading one byte at offset 2^64 - 4096
    of a file of the largest size copies the whole 4096-byte block into the
    caller's one-byte buffer, and such a file is said to occupy no block. *)
Theorem content_read_overruns :
  let c := mkConfig 4096 0 0 0 0 in let size := 2 ^ 64 - 1 in let offset := 2 ^ 64 - 4096 in
  content_read demo_gen c 1 size offset [zb 0] 1 = None ∧
  content_read demo_gen c 1 size offset (replicate 4096 (zb 1)) 1 = Some (1, replicate 4096 (zb 0)) ∧
  allocatedBlocks c 1 size = 0.
Proof. by vm_compute. Qed.

(** ** Witnesses *)

Lemma content_read_range_witness :
  content_read demo_gen demo_config 7 100 30 (replicate 10 (zb 1)) 8 =
    Some (8, file_bytes demo_gen demo_config 7 30 8 ++ [zb 1; zb 1]).
Proof.
  apply (content_read_range demo_gen demo_config 7 100 30 (replicate 10 (zb 1)) 8); cbn; lia.
Defined.

Lemma content_alphabet_witness :
  let K := alphabet 64 in
  1 <= K <= 256 ∧
  ((2 * (K - 1) + 1) ^ 255 <= 2 ^ (8 * 64 + 255) ∧ 2 ^ (8 * 64 + 255) < (2 * K + 1) ^ 255) ∧
  (∃ v, in8 v ∧ content_byte demo_gen demo_config 7 40 = zb (mapByte v K)) ∧
  ∀ v w, in8 v → in8 w → zb (mapByte v K) = zb (mapByte w K) ↔ v mod K = w mod K.
Proof. apply (content_alphabet demo_gen demo_config 7 40); [cbn; lia|by vm_compute]. Defined.

Lemma allocated_counts_data_witness :
  allocatedBlocks (mkConfig 512 0 50 0 0) 3 5000 = (data_bytes (mkConfig 512 0 50 0 0) 3 5000 + 511) / 512.
Proof. apply (allocated_counts_data (mkConfig 512 0 50 0 0) 3 5000); vm_compute; congruence. Defined.

Lemma config_roundtrip_witness :
  config_deserialize (config_serialize demo_config) = Some demo_config ∧
  config_deserialize [] = Some default_config ∧
  (str "xx" ≠ [] → (length (str "xx") < 16)%nat ∨ take 4 (str "xx") ≠ config_magic →
    config_deserialize (str "xx") = None).
Proof. apply (config_roundtrip demo_config (str "xx")). by vm_compute. Defined.
