(* ===== verification/Di.v ===== *)
(** * Di: the provider registry (include/prfs/di.hpp) and the run-wide choices
    made through it (src/rng/rng.cpp, the provider selection of
    src/content/content.cpp)

    [A] stands for the type-erased implementation pointers. [std::map]
    iteration is the list of keys in ascending order. *)
From Stdlib Require Import Sorting.Sorted.
From S2P Require Import Prelude.
Set Warnings "-clear-no-such-hyp".

Definition Key : Type := bytes * bytes.
Definition key_ltb (a b : Key) : bool := bytes_ltb a.1 b.1 || (bool_decide (a.1 = b.1) && bytes_ltb a.2 b.2).

Section Registry.
Context {A : Type}.

Record Registry := mkRegistry { m_map : gmap Key A; m_required : list Key }.
Implicit Types (r : Registry) (id name : bytes) (k : Key).

Definition Registry0 : Registry := mkRegistry ∅ [].
Definition add r id name (impl : A) : Registry := mkRegistry (<[(id, name) := impl]> (m_map r)) (m_required r).
Definition remove r id name : Registry := mkRegistry (delete (id, name) (m_map r)) (m_required r).
Definition find r id name : option A := m_map r !! (id, name).
Definition require r id name : Registry := mkRegistry (m_map r) (m_required r ++ [(id, name)]).
Definition has r id name : bool := bool_decide (find r id name ≠ None).

(** Iteration order of the map. *)
Definition kv_le (a b : Key * A) : Prop := key_ltb b.1 a.1 = false.
#[global] Instance kv_le_dec a b : Decision (kv_le a b).
Proof. unfold kv_le. apply _. Defined.
Definition in_order r : list (Key * A) := merge_sort kv_le (map_to_list (m_map r)).

Definition names r id : list bytes :=
  omap (λ e, if decide (e.1.1 = id) then Some e.1.2 else None) (in_order r).
Definition findAll r id : list A :=
  omap (λ e, if decide (e.1.1 = id) then Some e.2 else None) (in_order r).
Fixpoint ids_loop (out : list bytes) (l : list (Key * A)) : list bytes :=
  match l with
  | [] => out
  | (k, _) :: l' => ids_loop (if decide (last out = Some k.1) then out else out ++ [k.1]) l'
  end.
Definition ids r : list bytes := ids_loop [] (in_order r).

(** The text of the exception, [None] when everything required is there. *)
Definition missing_of r : list Key := filter (λ k, m_map r !! k = None) (m_required r).
Definition missing_name (k : Key) : bytes :=
  match k.2 with [] => k.1 | _ => k.1 ++ str "[" ++ k.2 ++ str "]" end.
Definition requireAllResolved r : option bytes :=
  match missing_of r with
  | [] => None
  | k :: ks => Some (fold_left (λ s k, s ++ (if decide (s = []) then [] else str ", ") ++ missing_name k) (k :: ks) [])
  end.
End Registry.
Arguments Registry : clear implicits.

(** ** The active generator (rng.cpp) *)

Section Rng.
Context {A : Type} (default_rng : bytes).
Implicit Types (r : Registry A).

Definition rng_ID : bytes := str "prfs.rng/1".
Definition rng_active (s_active : bytes) : bytes := match s_active with [] => default_rng | _ => s_active end.
(** [None]: [std::out_of_range]; the choice is then unchanged. *)
Definition rng_setActive r (name : bytes) : option bytes := if has r rng_ID name then Some name else None.
Definition activeRng r (s_active : bytes) : option A := find r rng_ID (rng_active s_active).
Definition rng_has r name : bool := has r rng_ID name.
Definition rng_names r : list bytes := names r rng_ID.
End Rng.

(** ** The active content provider (content.cpp) *)

Definition content_ID : bytes := str "prfs.content/1".
Definition provider (s_provider : bytes) : bytes := match s_provider with [] => str "config" | _ => s_provider end.
Definition setProvider {A} (r : Registry A) (name : bytes) : option bytes :=
  if has r content_ID name then Some name else None.
Definition activeProvider {A} (r : Registry A) (s_provider : bytes) : option A :=
  find r content_ID (provider s_provider).

(** ** Lemmas *)

Section Laws.
Context {A : Type}.
Implicit Types (r : Registry A) (k : Key).

Lemma key_ltb_total k1 k2 : key_ltb k1 k2 = false → k1 = k2 ∨ key_ltb k2 k1 = true.
Proof.
  destruct k1 as [a n], k2 as [b m]. unfold key_ltb. simpl. intros [H1 H2]%orb_false_iff.
  apply bytes_ltb_false in H1 as [->|H1]; [|right; by rewrite H1].
  rewrite bool_decide_true in * by done. simpl in *. apply bytes_ltb_false in H2 as [->|H2]; [by left|].
  right. by rewrite H2, orb_true_r.
Qed.
Lemma key_ltb_trans k1 k2 k3 : key_ltb k1 k2 = true → key_ltb k2 k3 = true → key_ltb k1 k3 = true.
Proof.
  destruct k1 as [a n], k2 as [b m], k3 as [c o]. unfold key_ltb. simpl. intros H1 H2.
  apply orb_true_iff in H1 as [H1|[->%bool_decide_eq_true H1]%andb_true_iff];
    apply orb_true_iff in H2 as [H2|[E%bool_decide_eq_true H2]%andb_true_iff].
  - by rewrite (bytes_ltb_trans a b c).
  - subst. by rewrite H1.
  - by rewrite H2.
  - subst. rewrite bool_decide_true by done. rewrite (bytes_ltb_trans n m o) by done. by rewrite orb_true_r.
Qed.
Lemma key_ltb_irrefl k : key_ltb k k = false.
Proof. unfold key_ltb. rewrite !bytes_ltb_irrefl. by rewrite andb_false_r. Qed.

#[global] Instance kv_le_total : Total (kv_le (A:=A)).
Proof.
  intros a b. unfold kv_le. destruct (key_ltb b.1 a.1) eqn:E; [|by left]. right.
  destruct (key_ltb a.1 b.1) eqn:E'; [|done].
  pose proof (key_ltb_trans _ _ _ E E') as H. by rewrite key_ltb_irrefl in H.
Qed.

Lemma elem_of_in_order r k a : (k, a) ∈ in_order r ↔ m_map r !! k = Some a.
Proof. unfold in_order. by rewrite merge_sort_Permutation, elem_of_map_to_list. Qed.
Lemma in_order_keys r : NoDup (in_order r).*1.
Proof. unfold in_order. rewrite merge_sort_Permutation. apply NoDup_fst_map_to_list. Qed.

Definition kv_lt (a b : Key * A) : Prop := key_ltb a.1 b.1 = true.
Lemma in_order_sorted r : StronglySorted kv_lt (in_order r).
Proof.
  assert (Transitive (kv_le (A:=A))) as Htr.
  { intros a b c H1 H2. unfold kv_le in *. destruct (key_ltb c.1 a.1) eqn:E; [|done].
    apply key_ltb_total in H1 as [H1|H1]; [rewrite <- H1 in E; congruence|].
    pose proof (key_ltb_trans _ _ _ E H1). congruence. }
  assert (StronglySorted kv_le (in_order r)) as Hs by (apply StronglySorted_merge_sort; apply _).
  pose proof (in_order_keys r) as Hnd. induction Hs as [|x l Hl IH Hx]; [constructor|].
  rewrite fmap_cons in Hnd. apply NoDup_cons in Hnd as [Hni Hnd]. constructor; [by apply IH|].
  rewrite Forall_forall in *. intros y Hy. specialize (Hx y Hy). apply key_ltb_total in Hx as [E|E]; [|done].
  destruct Hni. rewrite <- E. by apply list_elem_of_fmap_2.
Qed.

Lemma names_sorted r id : StronglySorted bytes_lt (names r id).
Proof.
  unfold names. eapply sorted_omap; [|apply in_order_sorted]. intros [[i n] a] [[j m] b] u v Hlt Hu Hv. simpl in *.
  case_decide; [|done]. case_decide; [|done]. simplify_eq. unfold kv_lt, key_ltb in Hlt. simpl in Hlt.
  by rewrite bytes_ltb_irrefl, bool_decide_true in Hlt.
Qed.
Lemma elem_of_names r id n : n ∈ names r id ↔ is_Some (find r id n).
Proof.
  unfold names, find. rewrite list_elem_of_omap. split.
  - intros ([[i m] a] & Hin%elem_of_in_order & Hn). simpl in Hn. case_decide; simplify_eq. eauto.
  - intros [a Ha]. exists ((id, n), a). split; [by apply elem_of_in_order|]. simpl. by rewrite decide_True.
Qed.

(** The last element bounds the list so far, so comparing with it suffices. *)
Lemma ids_loop_spec out l :
  StronglySorted bytes_lt out → StronglySorted kv_lt l →
  (∀ x k a, x ∈ out → (k, a) ∈ l → bytes_le x k.1) →
  StronglySorted bytes_lt (ids_loop out l) ∧
  ∀ x, x ∈ ids_loop out l ↔ x ∈ out ∨ ∃ k a, (k, a) ∈ l ∧ x = k.1.
Proof.
  intros Hout Hl. revert out Hout. induction Hl as [|[k a] l Hl IH H0]; intros out Hout Hle.
  - split; [done|]. intros x. set_solver.
  - rewrite Forall_forall in H0. simpl.
    assert (∀ k' a', (k', a') ∈ l → bytes_le k.1 k'.1) as Hk.
    { intros k' a' Hin. specialize (H0 _ Hin). unfold kv_lt, key_ltb in H0. simpl in H0. apply bytes_le_lt.
      apply orb_true_iff in H0 as [?|[E%bool_decide_eq_true _]%andb_true_iff]; [by right|by left]. }
    case_decide as E.
    + destruct (IH out Hout) as [IH1 IH2]; [intros x k' a' Hx Hin; eapply Hle; [done|by right]|].
      split; [done|]. intros x. rewrite IH2. split; [|].
      * intros [?|(k' & a' & ? & ?)]; [by left|right; exists k', a'; set_solver].
      * intros [?|(k' & a' & [[= -> ->]|?]%elem_of_cons & ->)]; [by left|left|right; eauto].
        apply last_Some_elem_of in E. done.
    + assert (∀ x, x ∈ out → bytes_lt x k.1) as Hlt.
      { intros x Hx. pose proof (Hle x k a Hx ltac:(left)) as Hxk. apply bytes_le_lt in Hxk as [->|]; [|done].
        exfalso. apply E. apply last_Some. destruct out as [|y out _] using rev_ind; [set_solver|].
        apply elem_of_app in Hx as [Hx| ->%list_elem_of_singleton]; [|eauto].
        apply StronglySorted_app in Hout as (H12 & _ & _). specialize (H12 _ y Hx ltac:(left)).
        pose proof (Hle y k a ltac:(apply elem_of_app; right; left) ltac:(left)) as Hy.
        destruct (irreflexivity bytes_lt k.1). by eapply bytes_lt_le_trans. }
      destruct (IH (out ++ [k.1])) as [IH1 IH2].
      * apply StronglySorted_app. split_and!; [|done|repeat constructor].
        intros x y Hx ->%list_elem_of_singleton. by apply Hlt.
      * intros x k' a' [Hx| ->%list_elem_of_singleton]%elem_of_app Hin; [|by eapply Hk].
        apply bytes_le_lt. right. eapply bytes_lt_le_trans; [by apply Hlt|by eapply Hk].
      * split; [done|]. intros x. rewrite IH2, elem_of_app, list_elem_of_singleton. split.
        -- intros [[?| ->]|(k' & a' & ? & ?)]; [by left|right; exists k, a; set_solver|right; exists k', a'; set_solver].
        -- intros [?|(k' & a' & [[= -> ->]|?]%elem_of_cons & ->)]; [by left; left|by left; right|right; eauto].
Qed.

(** The registry: a provided implementation resolves under its name until
    it is withdrawn and disturbs no other; names and interface ids are listed
    in order, each once, exactly those registered; the startup check passes
    exactly when every declared requirement is registered. *)
Theorem registry_laws r id name impl :
  find (add r id name impl) id name = Some impl ∧ find (remove r id name) id name = None ∧
  (∀ i n, (i, n) ≠ (id, name) → find (add r id name impl) i n = find r i n ∧ find (remove r id name) i n = find r i n) ∧
  StronglySorted bytes_lt (names r id) ∧ (∀ n, n ∈ names r id ↔ is_Some (find r id n)) ∧
  StronglySorted bytes_lt (ids r) ∧ (∀ i, i ∈ ids r ↔ ∃ n, is_Some (find r i n)) ∧
  (requireAllResolved r = None ↔ ∀ k, k ∈ m_required r → is_Some (find r k.1 k.2)).
Proof.
  unfold find, add, remove. simpl. split; [by rewrite lookup_insert_eq|]. split; [by rewrite lookup_delete_eq|].
  split; [intros i n Hne; by rewrite lookup_insert_ne, lookup_delete_ne|].
  split; [apply names_sorted|]. split; [apply elem_of_names|].
  destruct (ids_loop_spec [] (in_order r)) as [Hs Hin]; [constructor|apply in_order_sorted|set_solver|].
  split; [done|]. split.
  - intros i. unfold ids. rewrite Hin. split.
    + intros [?|([j n] & a & Ha%elem_of_in_order & ->)]; [set_solver|]. simpl. eauto.
    + intros (n & a & Ha). right. exists (i, n), a. by rewrite elem_of_in_order.
  - unfold requireAllResolved, missing_of. split.
    + destruct (filter _ _) as [|k' ks] eqn:E; [|done]. intros _ k Hk. apply not_eq_None_Some. intros Hno.
      assert (k ∈ filter (λ k, m_map r !! k = None) (m_required r)) as H.
      { apply list_elem_of_filter. by destruct k. }
      rewrite E in H. set_solver.
    + intros Hall. rewrite filter_none; [done|]. apply Forall_forall. intros [i n] Hk Hno.
      apply eq_None_not_Some in Hno. apply Hno. exact (Hall _ Hk).
Qed.
End Laws.
