(* ===== verification/FsStat.v ===== *)
(** * FsStat: the FSSTAT and FSINFO projections (src/nfs/fsstat.cpp)

    What the NFS front-ends report about the volume: pure functions of the
    store's statistics and of an advertised capacity. *)
From S2P Require Import Prelude Store.
Local Open Scope Z_scope.
Set Warnings "-clear-no-such-hyp".

Record FsConfig := mkFsConfig {
  fc_blockSize : Z; fc_capacityBytes : Z; fc_capacityFiles : Z;
  fc_rtmax : Z; fc_rtpref : Z; fc_rtmult : Z; fc_wtmax : Z; fc_wtpref : Z; fc_wtmult : Z; fc_dtpref : Z;
  fc_maxfilesize : Z; fc_timeDeltaSec : Z; fc_timeDeltaNsec : Z; fc_properties : Z
}.
Definition fsf_LINK : Z := 0x1.
Definition fsf_SYMLINK : Z := 0x2.
Definition fsf_HOMOGENEOUS : Z := 0x8.
Definition fsf_CANSETTIME : Z := 0x10.
Definition FsConfig0 : FsConfig :=
  mkFsConfig 4096 (2 ^ 40) (2 ^ 32) (2 ^ 20) (2 ^ 20) 4096 (2 ^ 20) (2 ^ 20) 4096 (2 ^ 16) (2 ^ 63 - 1) 0 1
    (Z.lor fsf_LINK (Z.lor fsf_SYMLINK (Z.lor fsf_HOMOGENEOUS fsf_CANSETTIME))).

Record FsStat := mkFsStat {
  fs_tbytes : Z; fs_fbytes : Z; fs_abytes : Z; fs_tfiles : Z; fs_ffiles : Z; fs_afiles : Z; fs_invarsec : Z
}.
Record FsInfo := mkFsInfo {
  fi_rtmax : Z; fi_rtpref : Z; fi_rtmult : Z; fi_wtmax : Z; fi_wtpref : Z; fi_wtmult : Z; fi_dtpref : Z;
  fi_maxfilesize : Z; fi_timeDeltaSec : Z; fi_timeDeltaNsec : Z; fi_properties : Z
}.

Definition freeOf (used capacity : Z) : Z := if used <? capacity then u64 (capacity - used) else 0.

Definition fsStat (s : Stats) (cfg : FsConfig) : FsStat :=
  let usedFiles := fold_left (λ acc n, u64 (acc + n)) (st_nodes s) 0 in
  let block := if fc_blockSize cfg =? 0 then 1 else fc_blockSize cfg in
  let usedBytes := u64 (u64 (u64 (st_totalSize s + block) - 1) / block * block) in
  let tbytes := if usedBytes <? fc_capacityBytes cfg then fc_capacityBytes cfg else usedBytes in
  let tfiles := if usedFiles <? fc_capacityFiles cfg then fc_capacityFiles cfg else usedFiles in
  let fbytes := freeOf usedBytes tbytes in
  let ffiles := freeOf usedFiles tfiles in
  mkFsStat tbytes fbytes fbytes tfiles ffiles ffiles 0.

Definition fsInfo (cfg : FsConfig) : FsInfo :=
  mkFsInfo (fc_rtmax cfg) (fc_rtpref cfg) (fc_rtmult cfg) (fc_wtmax cfg) (fc_wtpref cfg) (fc_wtmult cfg)
    (fc_dtpref cfg) (fc_maxfilesize cfg) (fc_timeDeltaSec cfg) (fc_timeDeltaNsec cfg) (fc_properties cfg).

(** The overload over a store: the statistics of one snapshot, projected. *)
Definition fsStat_store {M} `{!Kv.KvEngine M} (st : Store M) (cfg : FsConfig) (g : Z) : FsStat :=
  fsStat (stats st g) cfg.

(** ** Lemmas *)

Lemma fold_sum_in64 (l : list Z) : in64 (fold_left (λ acc n, u64 (acc + n)) l 0).
Proof.
  induction l as [|x l _] using rev_ind; [simpl; word_lia|]. rewrite fold_left_app. apply u64_range.
Qed.

(** The used bytes, rounded up to whole blocks. *)
Definition roundup (n block : Z) : Z := (n + block - 1) / block * block.

Lemma freeOf_split used cap : in64 used → in64 cap → used <= cap → freeOf used cap = cap - used.
Proof.
  intros. unfold freeOf. destruct (Z.ltb_spec used cap); [by rewrite u64_small by word_lia|lia].
Qed.

(** The reported volume is consistent: free and available agree, used
    (whole blocks, unless the rounding wraps) plus free is the total for bytes
    and for files, and the total covers the advertised capacity. *)
Theorem fsStat_consistent s cfg :
  in64 (st_totalSize s) → in64 (fc_blockSize cfg) → in64 (fc_capacityBytes cfg) → in64 (fc_capacityFiles cfg) →
  let r := fsStat s cfg in let block := if fc_blockSize cfg =? 0 then 1 else fc_blockSize cfg in
  fs_abytes r = fs_fbytes r ∧ fs_afiles r = fs_ffiles r ∧
  0 <= fs_fbytes r <= fs_tbytes r ∧ fc_capacityBytes cfg <= fs_tbytes r ∧
  fs_tfiles r = fs_ffiles r + fold_left (λ acc n, u64 (acc + n)) (st_nodes s) 0 ∧
  fc_capacityFiles cfg <= fs_tfiles r ∧
  (st_totalSize s + block <= 2 ^ 64 → fs_tbytes r = fs_fbytes r + roundup (st_totalSize s) block) ∧
  (st_totalSize s + block <= 2 ^ 64 → st_totalSize s <= roundup (st_totalSize s) block < st_totalSize s + block).
Proof.
  intros Hs Hb Hc Hf r block. assert (0 < block) as Hpos by (unfold block; destruct (Z.eqb_spec (fc_blockSize cfg) 0); word_lia).
  pose proof (fold_sum_in64 (st_nodes s)) as Hfiles.
  unfold r, fsStat. fold block. cbn [fs_abytes fs_fbytes fs_afiles fs_ffiles fs_tbytes fs_tfiles].
  set (usedF := fold_left _ _ _) in *. set (usedB := u64 (u64 (u64 (st_totalSize s + block) - 1) / block * block)).
  assert (in64 usedB) as HuB by apply u64_range.
  assert (st_totalSize s + block <= 2 ^ 64 → usedB = roundup (st_totalSize s) block ∧
    st_totalSize s <= usedB < st_totalSize s + block) as Hround.
  { intros Hle. unfold usedB. assert (u64 (u64 (st_totalSize s + block) - 1) = st_totalSize s + block - 1) as ->.
    { destruct (decide (st_totalSize s + block = 2 ^ 64)) as [E|]; [by rewrite E|].
      by rewrite (u64_small (_ + _)), u64_small by word_lia. }
    pose proof (Z.div_mod (st_totalSize s + block - 1) block ltac:(lia)).
    pose proof (Z.mod_pos_bound (st_totalSize s + block - 1) block Hpos).
    unfold roundup. rewrite u64_small by word_lia. word_lia. }
  assert (∀ u cap, in64 u → in64 cap → let t := if u <? cap then cap else u in
    cap <= t ∧ 0 <= freeOf u t <= t ∧ t = freeOf u t + u) as Hfree.
  { intros u cap ?? t. assert (in64 t ∧ u <= t ∧ cap <= t) as (? & ? & ?)
      by (unfold t; destruct (Z.ltb_spec u cap); split_and!; word_lia).
    rewrite freeOf_split by done. word_lia. }
  destruct (Hfree usedB _ HuB Hc) as (HB1 & HB2 & HB3), (Hfree usedF _ Hfiles Hf) as (HF1 & HF2 & HF3).
  split_and!; [done|done|apply HB2|apply HB2|done|done|done| |].
  - intros Hle. destruct (Hround Hle) as [<- _]. done.
  - intros Hle. destruct (Hround Hle) as [<- ?]. done.
Qed.

Lemma fsStat_consistent_witness :
  let s := mkStats [2; 1] 3 5000 in let r := fsStat s FsConfig0 in
  fs_abytes r = fs_fbytes r ∧ fs_afiles r = fs_ffiles r ∧
  0 <= fs_fbytes r <= fs_tbytes r ∧ fc_capacityBytes FsConfig0 <= fs_tbytes r ∧
  fs_tfiles r = fs_ffiles r + fold_left (λ acc n, u64 (acc + n)) (st_nodes s) 0 ∧
  fc_capacityFiles FsConfig0 <= fs_tfiles r ∧
  (st_totalSize s + 4096 <= 2 ^ 64 → fs_tbytes r = fs_fbytes r + roundup (st_totalSize s) 4096) ∧
  (st_totalSize s + 4096 <= 2 ^ 64 → st_totalSize s <= roundup (st_totalSize s) 4096 < st_totalSize s + 4096).
Proof. apply (fsStat_consistent (mkStats [2; 1] 3 5000) FsConfig0); by vm_compute. Defined.
