(* ===== verification/Host.v ===== *)
(** * Host: the services lent to the front-ends (src/host/host.cpp)

    The bytes of a regular file as a front-end serves them - the store's
    attributes, the content seed and the configured provider composed - and the
    option bag. The loader is in [Loader]. *)
From S2P Require Import Prelude Keys Kv NodeRec Spec Store Views Shape Graph Links Inv Init Reads Diff StoreProps Content ContentProps Di.
Local Open Scope Z_scope.
Set Warnings "-clear-no-such-hyp".

(** ** File bytes *)

(** A content provider ([IContentProvider]). A result of [None] is an
    exception or a write outside the buffers. *)
Record Provider := mkProvider {
  cp_read : bytes → Z → Z → Z → bytes → Z → option (Z * bytes);
  cp_allocatedBlocks : bytes → Z → Z → option Z
}.
Definition DefaultProvider (gen : IRng) : Provider :=
  mkProvider (λ cfg seed size off out len, c ← config_deserialize cfg; content_read gen c seed size off out len)
             (λ cfg seed size, c ← config_deserialize cfg; Some (allocatedBlocks c seed size)).

Section Host.
Context {M : Type} `{!KvEngine M}.
Implicit Types (st : Store M) (h : Handle).

Definition host_read (reg : Registry Provider) (s_provider : bytes) st h (off : Z) (out : bytes) (len : Z)
    : option (Z * bytes) :=
  let size := n_size st h in
  if (size <=? off) || (len =? 0) then Some (0, out)
  else
    let want := Z.min len (u64 (size - off)) in
    match find reg content_ID (provider s_provider) with
    | Some cp => cp_read cp (contentConfig st) (n_contentSeed st h) size off out len
    | None => Some (want, replicate (Z.to_nat want) (zb 0) ++ drop (Z.to_nat want) out)
    end.
End Host.

(** ** Options *)

Definition Options := gmap bytes bytes.
Definition option_ (o : Options) (key : bytes) : bytes := default [] (o !! key).
Definition setOption (o : Options) (key value : bytes) : Options := <[key := value]> o.

(** ** Lemmas *)

Section Laws.
Context {M : Type} `{!KvEngine M}.
Implicit Types (st : Store M) (h : Handle) (t : KvData M).

Definition config_of t : option bytes := t_get t Meta (str "content_config").

Lemma config_same t t' : same_meta t t' → config_of t' = config_of t.
Proof. intros [H _]. unfold config_of, t_get. by rewrite H. Qed.
Lemma config_putMeta t key x : key ≠ str "content_config" → config_of (putMeta t key x) = config_of t.
Proof. intros. unfold config_of, putMeta. by rewrite !t_get_view, view_put, decide_False by naive_solver. Qed.
Lemma config_finish st res :
  same_meta (m_kv st) res.2 → config_of (m_kv (finish st res).2) = config_of (m_kv st).
Proof. intros H. unfold finish, end_txn. simpl. destruct (_ || _); [by apply config_same|done]. Qed.
Lemma config_alloc st ty b sp : config_of (m_kv (alloc st ty b sp).2) = config_of (m_kv st).
Proof.
  unfold alloc, end_txn. cbn [snd m_kv].
  etrans; [apply config_same, same_meta_store|by apply config_putMeta].
Qed.

(** Only [setContentConfig] changes the content policy. *)
Lemma exec_config st op :
  (∀ b, op ≠ OpSetConfig b) → contentConfig (exec st op).2 = contentConfig st.
Proof.
  intros Hne. unfold contentConfig. f_equal. change (config_of (m_kv (exec st op).2) = config_of (m_kv st)).
  destruct op; cbn [exec snd]; try apply config_alloc; try apply config_finish.
  - apply same_meta_link.
  - apply same_meta_unlink.
  - apply same_meta_move.
  - destruct (loadNode _ _ _); [destruct (negb _)|]; (done || apply same_meta_store).
  - destruct (loadNode _ _ _); [destruct (negb _)|]; (done || apply same_meta_store).
  - destruct (loadNode _ _ _); [destruct (_ && _)|]; (done || apply same_meta_store).
  - destruct (loadNode _ _ _); [destruct (negb _)|]; (done || apply same_meta_store).
  - replace (attr_put a st h x) with (mutateNode st (h_id h) (attr_set a x)) by by destruct a.
    unfold mutateNode, end_txn. destruct (loadNode _ _ _); [apply config_same, same_meta_store|done].
  - unfold setTime, end_txn. cbn [m_kv]. by apply config_putMeta.
  - by destruct (Hne blob).
  - unfold snapshot. cbn [snd m_kv].
    etrans; [|by apply (config_putMeta (m_kv st) (str "cur_snap") (u64 (m_cur st + 1)))].
    by destruct (putMeta (m_kv st) (str "cur_snap") (u64 (m_cur st + 1))).
Qed.

(** The bytes served for a file: with the default provider and a stored
    configuration, a read returns the bytes of the requested range as a
    function of the file's seed, clipped to its size, and copies nothing else;
    with no provider it returns as many zeros. *)
Theorem host_read_bytes gen c reg st h off out len :
  find reg content_ID (str "config") = Some (DefaultProvider gen) →
  contentConfig st = config_serialize c → config_ok c → blockSize c <= 2 ^ 32 - 16 →
  0 <= off → 0 <= len <= Z.of_nat (length out) → off + len < 2 ^ 64 →
  0 <= n_size st h → n_size st h + eff_bs c <= 2 ^ 64 →
  let n := Z.max 0 (Z.min len (n_size st h - off)) in
  host_read reg [] st h off out len =
    Some (n, file_bytes gen c (n_contentSeed st h) off n ++ drop (Z.to_nat n) out) ∧
  host_read Registry0 [] st h off out len = Some (n, replicate (Z.to_nat n) (zb 0) ++ drop (Z.to_nat n) out).
Proof.
  intros Hreg Hcfg Hc Hbs Hoff Hlen Hol Hsize Hmax n. unfold host_read. cbn [provider].
  destruct ((n_size st h <=? off) || (len =? 0)) eqn:E.
  { apply orb_true_iff in E as [E%Z.leb_le|E%Z.eqb_eq]; by replace n with 0 by lia. }
  apply orb_false_iff in E as [E1%Z.leb_gt E2%Z.eqb_neq]. rewrite Hreg.
  assert (0 <= blockSize c) by (destruct Hc as [? _]; word_lia). pose proof (eff_bs_pos c ltac:(done)). split.
  - cbn [cp_read DefaultProvider]. rewrite Hcfg, config_deserialize_serialize by done. simpl.
    apply content_read_spec; try done; lia.
  - unfold find, Registry0. cbn [m_map]. rewrite lookup_empty, u64_small by word_lia. unfold n. by rewrite Z.max_r by lia.
Qed.

(** Archived bytes are stable: no operation but a change of the content
    policy changes what is read from a file at a sealed snapshot. *)
Theorem host_read_isolated reg s_provider st op h off out len :
  reachable_from fresh_store st → op_ok st op → (∀ b, op ≠ OpSetConfig b) →
  in64 (h_id h) → isSnapDir (h_id h) = false → 1 <= h_snap h < m_cur st →
  host_read reg s_provider (exec st op).2 h off out len = host_read reg s_provider st h off out len.
Proof.
  intros R Hok Hne Hid Hs Hg. pose proof (inv_reachable _ R) as I.
  destruct (sealed_reads st op h [] I Hok Hid Hs Hg) as [Hobs _].
  assert (attrs (readNode (exec st op).2 (h_id h) (h_snap h)) = attrs (readNode st (h_id h) (h_snap h))) as Ha
    by (by apply (f_equal (λ o, o.1.1)) in Hobs).
  assert (∀ r, r_size r = r_size (attrs r) ∧ r_type r = r_type (attrs r) ∧ r_spec r = r_spec (attrs r)) as Hat
    by (by intros []).
  assert (n_size (exec st op).2 h = n_size st h) as Hsize.
  { unfold n_size. rewrite (proj1 (Hat _)), Ha. symmetry. apply Hat. }
  assert (n_contentSeed (exec st op).2 h = n_contentSeed st h) as Hseed.
  { unfold n_contentSeed. destruct (Hat (readNode (exec st op).2 (h_id h) (h_snap h))) as (_ & -> & ->).
    destruct (Hat (readNode st (h_id h) (h_snap h))) as (_ & -> & ->). by rewrite Ha. }
  unfold host_read. rewrite Hsize, Hseed. by rewrite exec_config.
Qed.
End Laws.

(** ** Witnesses *)

Definition demo_registry : Registry Provider := add Registry0 content_ID (str "config") (DefaultProvider demo_gen).
(** [demo] with a content policy and a 100-byte file 3. *)
Definition demo_host : Store (gmap bytes bytes) :=
  run demo [OpSetConfig (config_serialize demo_config); OpPut ASize (mkHandle 3 LATEST) 100; OpSnapshot (str "sized")].
Lemma demo_host_reachable : reachable_from demo0 demo_host.
Proof. apply reachable_run; [apply demo_reachable|by vm_compute]. Qed.

Lemma host_read_bytes_witness :
  host_read demo_registry [] demo_host (mkHandle 3 LATEST) 90 (replicate 12 (zb 1)) 12 =
    Some (10, file_bytes demo_gen demo_config 3 90 10 ++ drop (Z.to_nat 10) (replicate 12 (zb 1))) ∧
  host_read Registry0 [] demo_host (mkHandle 3 LATEST) 90 (replicate 12 (zb 1)) 12 =
    Some (10, replicate (Z.to_nat 10) (zb 0) ++ drop (Z.to_nat 10) (replicate 12 (zb 1))).
Proof.
  pose proof (host_read_bytes demo_gen demo_config demo_registry demo_host (mkHandle 3 LATEST) 90 (replicate 12 (zb 1)) 12) as H.
  assert (n_size demo_host (mkHandle 3 LATEST) = 100) as Hsize by by vm_compute.
  assert (n_contentSeed demo_host (mkHandle 3 LATEST) = 3) as Hseed by by vm_compute.
  cbv zeta in H. rewrite Hsize, Hseed in H. change (Z.max 0 (Z.min 12 (100 - 90))) with 10 in H.
  apply H; clear H Hsize Hseed.
  - apply lookup_insert_eq.
  - vm_compute. reflexivity.
  - vm_compute. repeat split; discriminate.
  - cbn; lia.
  - lia.
  - rewrite length_replicate. lia.
  - lia.
  - lia.
  - change (eff_bs demo_config) with 32. lia.
Defined.

Lemma host_read_isolated_witness :
  host_read demo_registry [] (exec demo_host (OpPut ASize (mkHandle 3 LATEST) 5)).2 (mkHandle 3 2) 90 (replicate 12 (zb 1)) 12 =
  host_read demo_registry [] demo_host (mkHandle 3 2) 90 (replicate 12 (zb 1)) 12.
Proof. apply (host_read_isolated demo_registry [] demo_host); [apply demo_host_reachable|by vm_compute|done|by vm_compute..]. Defined.
