(* ===== verification/Loader.v ===== *)
(** * Loader: the host process (src/host/host.cpp, src/host/main.cpp,
    src/core/open.cpp, plugins/null/null.cpp)

    The choice of the storage engine, the loading of plugins, the start and
    stop of their services and their destruction, and [main]. What is on disk -
    shared objects, directories - is an [Env]; a plugin provides one service
    under one name in its constructor and withdraws it in its destructor, as
    the six plugins of the repository do. The log records the calls and
    library operations in order. *)
From S2P Require Import Prelude Keys Kv NodeRec Spec Store Di Host.
Local Open Scope Z_scope.
Set Warnings "-clear-no-such-hyp".

(** ** The calls of the process *)

(** A plugin object is a number, fresh for every [create]. [EvStart o ok]: the
    start returned, [ok] being whether with [OK]; [EvThrow]: it threw. *)
Inductive Ev :=
  | EvOpen (path : bytes) | EvClose (path : bytes)
  | EvCreate (o : Z) | EvDestroy (o : Z)
  | EvStart (o : Z) (ok : bool) | EvThrow (o : Z) | EvStop (o : Z).

(** What is alive, newest first. *)
Record Life := mkLife { lf_open : list bytes; lf_live : list Z; lf_running : list Z }.
Definition no_life : Life := mkLife [] [] [].
(** One call; [None] is a call on a destroyed object or out of order. *)
Definition life_step (l : Life) (e : Ev) : option Life :=
  match e with
  | EvOpen p => Some (mkLife (p :: lf_open l) (lf_live l) (lf_running l))
  | EvClose p =>
      match lf_open l with
      | q :: ps => if decide (q = p) then Some (mkLife ps (lf_live l) (lf_running l)) else None
      | [] => None
      end
  | EvCreate o => if decide (o ∈ lf_live l) then None else Some (mkLife (lf_open l) (o :: lf_live l) (lf_running l))
  | EvDestroy o =>
      match lf_live l with
      | q :: os => if decide (q = o ∧ o ∉ lf_running l) then Some (mkLife (lf_open l) os (lf_running l)) else None
      | [] => None
      end
  | EvStart o ok =>
      if decide (o ∈ lf_live l ∧ o ∉ lf_running l)
      then Some (mkLife (lf_open l) (lf_live l) (if ok then o :: lf_running l else lf_running l))
      else None
  | EvThrow o => if decide (o ∈ lf_live l) then Some l else None
  | EvStop o =>
      match lf_running l with
      | q :: os => if decide (q = o ∧ o ∈ lf_live l) then Some (mkLife (lf_open l) (lf_live l) os) else None
      | [] => None
      end
  end.
Fixpoint life (evs : list Ev) (l : Life) : option Life :=
  match evs with [] => Some l | e :: evs' => l' ← life_step l e; life evs' l' end.

(** ** Plugin file names (main.cpp) *)

(** The position of the last [c] in [s], counted from the end. *)
Fixpoint rfind_loop (c : byte) (s : bytes) (i : Z) (r : option Z) : option Z :=
  match s with [] => r | x :: s' => rfind_loop c s' (i + 1) (if decide (x = c) then Some i else r) end.
Definition rfind (c : byte) (s : bytes) : option Z := rfind_loop c s 0 None.
(** [path::extension] of a file name: from its last dot, unless that is its
    first byte. *)
Definition extension (name : bytes) : bytes :=
  match rfind x2e name with
  | Some i => if i =? 0 then [] else if decide (name = str "..") then [] else drop (Z.to_nat i) name
  | None => []
  end.
(** [path / name]. *)
Definition path_join (dir name : bytes) : bytes :=
  match last dir with
  | None => name
  | Some c => if decide (c = x2f) then dir ++ name else dir ++ str "/" ++ name
  end.
(** [path::parent_path] of an absolute path of single slashes. *)
Definition parent_path (p : bytes) : bytes :=
  match rfind x2f p with
  | Some i => if i =? 0 then str "/" else take (Z.to_nat i) p
  | None => []
  end.
(** [readlink] gives at most 4095 bytes. *)
Definition exeDir (link : option bytes) : bytes :=
  match link with
  | Some p => if decide (p = []) then str "." else parent_path (take 4095 p)
  | None => str "."
  end.

(** ** Engines (open.cpp) *)

Definition engine_ID : bytes := str "prfs.engine/1".
Definition storageEngine (default_engine s_engine : bytes) : bytes :=
  match s_engine with [] => default_engine | _ => s_engine end.
(** [None]: [std::out_of_range]. *)
Definition setStorageEngine {A} (r : Registry A) (name : bytes) : option bytes :=
  if has r engine_ID name then Some name else None.

Section Loader.
Context {M : Type} `{!KvEngine M}.

(** [IStorageEngine::open]: path, clean; [None] throws. *)
Definition Engine : Type := bytes → bool → option (KvData M).
Definition openPrfs (r : Registry Engine) (default_engine s_engine path : bytes) (clean : bool) : option (Store M) :=
  engine ← find r engine_ID (storageEngine default_engine s_engine);
  kv ← engine path clean;
  Some (PrfsStore kv).

(** ** Host, services, plugins *)

(** What the services act on: the store, the options, which services run (by
    name) and the ports listened on. *)
Record HostState := mkHost {
  hs_fs : Store M; hs_options : Options; hs_running : gset bytes; hs_ports : gset Z
}.
(** [IService]: the object and its virtual functions; a start that is [None]
    throws. *)
Record Service := mkService {
  sv_obj : Z; sv_start : HostState → option (Error * HostState); sv_stop : HostState → HostState
}.
Record Plugin := mkPlugin {
  pl_name : bytes; pl_start : HostState → option (Error * HostState); pl_stop : HostState → HostState
}.
Definition service_ID : bytes := str "prfs.service/1".
(** A shared object: its [prfs_abi], [prfs_plugin_create] and
    [prfs_plugin_destroy], where it exports them. *)
Record Image := mkImage { im_abi : option Z; im_create : option Plugin; im_destroy : bool }.
Definition ABI : Z := 2.

(** The constructor and the destructor of a plugin. *)
Definition plugin_create (r : Registry Service) (o : Z) (p : Plugin) : Registry Service :=
  add r service_ID (pl_name p) (mkService o (pl_start p) (pl_stop p)).
Definition plugin_destroy (r : Registry Service) (p : Plugin) : Registry Service := remove r service_ID (pl_name p).

(** ** The loader (host.cpp) *)

Record Entry := mkEntry { en_obj : Z; en_destroy : option Plugin; en_handle : option bytes }.
Record Loader := mkLoader {
  l_host : HostState; l_registry : Registry Service; l_next : Z;
  m_entries : list Entry; m_started : list Service; l_log : list Ev
}.
Implicit Types (l : Loader) (s : Service).
Definition say (e : Ev) l : Loader :=
  mkLoader (l_host l) (l_registry l) (l_next l) (m_entries l) (m_started l) (l_log l ++ [e]).

Definition adopt l (o : Z) : Loader :=
  mkLoader (l_host l) (l_registry l) (l_next l) (m_entries l ++ [mkEntry o None None]) (m_started l) (l_log l).
Definition load (dlopen : bytes → option Image) (path : bytes) l : bool * Loader :=
  match dlopen path with
  | None => (false, l)
  | Some im =>
      let l := say (EvOpen path) l in
      match im_abi im, im_create im, im_destroy im with
      | Some abi, Some p, true =>
          if negb (abi =? ABI) then (false, say (EvClose path) l)
          else
            let o := l_next l in
            (true, say (EvCreate o)
               (mkLoader (l_host l) (plugin_create (l_registry l) o p) (o + 1)
                  (m_entries l ++ [mkEntry o (Some p) (Some path)]) (m_started l) (l_log l)))
      | _, _, _ => (false, say (EvClose path) l)
      end
  end.
(** The result is [false] when a start throws. *)
Fixpoint start_loop (svcs : list Service) l : bool * Loader :=
  match svcs with
  | [] => (true, l)
  | s :: svcs' =>
      match sv_start s (l_host l) with
      | None => (false, say (EvThrow (sv_obj s)) l)
      | Some (e, h) =>
          let ok := bool_decide (e = OK) in
          start_loop svcs' (say (EvStart (sv_obj s) ok)
            (mkLoader h (l_registry l) (l_next l) (m_entries l)
               (if ok then m_started l ++ [s] else m_started l) (l_log l)))
      end
  end.
Definition startServices l : bool * Loader := start_loop (findAll (l_registry l) service_ID) l.
Definition stop_one l s : Loader :=
  say (EvStop (sv_obj s)) (mkLoader (sv_stop s (l_host l)) (l_registry l) (l_next l) (m_entries l) (m_started l) (l_log l)).
Definition clear_started l : Loader :=
  mkLoader (l_host l) (l_registry l) (l_next l) (m_entries l) [] (l_log l).
Definition stopAll l : Loader := clear_started (fold_left stop_one (reverse (m_started l)) l).
Definition destroy_entry l (e : Entry) : Loader :=
  let l := match en_destroy e with
           | Some p => say (EvDestroy (en_obj e)) (mkLoader (l_host l) (plugin_destroy (l_registry l) p) (l_next l)
                         (m_entries l) (m_started l) (l_log l))
           | None => l
           end in
  match en_handle e with Some path => say (EvClose path) l | None => l end.
(** [~Loader]. *)
Definition destroy_loader l : Loader := let l := stopAll l in fold_left destroy_entry (reverse (m_entries l)) l.

(** ** The program (main.cpp) *)

(** The command line as CLI11 hands it over. *)
Record Cli := mkCli {
  a_store : bytes; a_clean : bool; a_engine : bytes; a_port : Z; a_time : Z; a_timeAdvance : bool;
  a_control : bytes; a_plugins : list bytes; a_pluginDirs : list bytes; a_sets : list bytes
}.
(** What the process finds: the shared object of a path, the entries of a
    directory with whether each is a regular file ([None] cannot be scanned),
    the link to the executable, the ports others listen on, and what the
    services do between their start and the signal. *)
Record Env := mkEnv {
  e_dlopen : bytes → option Image; e_dir : bytes → option (list (bytes * bool)); e_exe : option bytes;
  e_ports : gset Z; e_serve : HostState → HostState
}.

(** [find('=')] and the two substrings; [None] is ignored. *)
Fixpoint split_eq (kv : bytes) : option (bytes * bytes) :=
  match kv with
  | [] => None
  | c :: kv' => if decide (c = x3d) then Some ([], kv') else '(k, v) ← split_eq kv'; Some (c :: k, v)
  end.
Definition set_one (o : Options) (kv : bytes) : Options :=
  match split_eq kv with Some (k, v) => setOption o k v | None => o end.
(** [std::to_string] of an [int]. *)
Definition int_to_string (z : Z) : bytes := if z <? 0 then str "-" ++ to_string (- z) else to_string z.
Definition host_options (a : Cli) : Options :=
  let o : Options := ∅ in
  let o := if a_port a =? 0 then o else setOption o (str "port") (int_to_string (a_port a)) in
  let o := if a_timeAdvance a then setOption o (str "time-advance") (str "1") else o in
  let o := if decide (a_control a = []) then o else setOption o (str "control") (a_control a) in
  fold_left set_one (a_sets a) o.

Section Main.
Context (env : Env).
Definition load_path (l : Loader) (path : bytes) : Loader := (load (e_dlopen env) path l).2.
Definition plugin_files (dir : bytes) (skip : list bytes) (ents : list (bytes * bool)) : list bytes :=
  merge_sort bytes_le
    (path_join dir <$> (filter (λ e, e.2 = true ∧ extension e.1 = str ".so" ∧ e.1 ∉ skip) ents).*1).
Definition loadDir (skip : list bytes) (l : Loader) (dir : bytes) : Loader :=
  match e_dir env dir with
  | Some ents => fold_left load_path (plugin_files dir skip ents) l
  | None => l
  end.
Definition load_plugins (a : Cli) (l : Loader) : Loader :=
  let l := fold_left load_path (a_plugins a) l in
  let l := fold_left (loadDir []) (a_pluginDirs a) l in
  if bool_decide (a_plugins a = []) && bool_decide (a_pluginDirs a = [])
  then loadDir [str "null.so"] l (exeDir (e_exe env)) else l.
(** The part of [main] with a loader, up to the end of its scope, and whether
    it was left by an exception. *)
Definition serve (a : Cli) (h : HostState) : bool * Loader :=
  let '(ok, l) := startServices (load_plugins a (mkLoader h Registry0 0 [] [] [])) in
  if ok : bool then
    let n := length (findAll (l_registry l) service_ID) in
    let h' := if (n =? 0)%nat then l_host l else e_serve env (l_host l) in
    (true, destroy_loader (stopAll (mkLoader h' (l_registry l) (l_next l) (m_entries l) (m_started l) (l_log l))))
  else (false, destroy_loader l).
(** The exit status and, when a store was opened, the loader after its scope. *)
Definition main (engines : Registry Engine) (default_engine : bytes) (a : Cli) : Z * option Loader :=
  match (if decide (a_engine a = []) then Some [] else setStorageEngine engines (a_engine a)) with
  | None => (1, None)
  | Some s_engine =>
      match openPrfs engines default_engine s_engine (a_store a) (a_clean a) with
      | None => (1, None)
      | Some fs =>
          let fs := if 0 <=? a_time a then setTime fs (u64 (a_time a)) else fs in
          let '(ok, l) := serve a (mkHost fs (host_options a) ∅ (e_ports env)) in
          ((if ok then 0 else 1), Some l)
      end
  end.
End Main.

(** ** The null plugin (null.cpp) *)

Definition null_start (h : HostState) : option (Error * HostState) :=
  Some (OK, mkHost (mkdir (hs_fs h)).2 (hs_options h) ({[str "null"]} ∪ hs_running h) (hs_ports h)).
Definition null_stop (h : HostState) : HostState :=
  mkHost (hs_fs h) (hs_options h) (hs_running h ∖ {[str "null"]}) (hs_ports h).
Definition null_plugin : Plugin := mkPlugin (str "null") null_start null_stop.
Definition null_image : Image := mkImage (Some ABI) (Some null_plugin) true.
End Loader.
Arguments Engine : clear implicits.
Arguments HostState : clear implicits.
Arguments Service : clear implicits.
Arguments Plugin : clear implicits.
Arguments Image : clear implicits.
Arguments Entry : clear implicits.
Arguments Loader : clear implicits.
Arguments Env : clear implicits.

(** ** Waiting for the signal (main.cpp) *)

(** [while (!g_stop) pause();]: between the test and [pause] is a point of its
    own, at which a signal can arrive. *)
Inductive WaitPc := AtTest | BeforePause | InPause | Left.
Record Wait := mkWait { w_pc : WaitPc; g_stop : bool }.
Inductive wait_step : Wait → Wait → Prop :=
  | wait_test b : wait_step (mkWait AtTest b) (mkWait (if b then Left else BeforePause) b)
  | wait_pause b : wait_step (mkWait BeforePause b) (mkWait InPause b).
(** [onSignal]; a signal during [pause] makes it return. *)
Definition onSignal (w : Wait) : Wait :=
  mkWait (match w_pc w with InPause => AtTest | pc => pc end) true.

(** ** Lemmas *)

Lemma life_app evs evs' l : life (evs ++ evs') l = l' ← life evs l; life evs' l'.
Proof. revert l. induction evs as [|e evs IH]; intros l; simpl; [done|]. destruct (life_step l e); simpl; auto. Qed.
Lemma life_snoc evs e l0 l : life evs l0 = Some l → life (evs ++ [e]) l0 = life_step l e.
Proof. intros H. rewrite life_app, H. simpl. by destruct (life_step l e). Qed.

Section Laws.
Context {M : Type} `{!KvEngine M}.
Implicit Types (l : Loader M) (s : Service M) (p : Plugin M) (env : Env M).

Definition objs l : list Z := en_obj <$> m_entries l.
Definition handles l : list bytes := omap en_handle (m_entries l).
Definition from_disk (e : Entry M) : Prop := is_Some (en_destroy e) ∧ is_Some (en_handle e).
(** The log leads to what the loader's vectors say is alive, objects are fresh,
    and every provided service is one of a loaded plugin's, under its name. *)
Record loader_ok l : Prop := {
  lo_life : life (l_log l) no_life = Some (mkLife (reverse (handles l)) (reverse (objs l)) (reverse (sv_obj <$> m_started l)));
  lo_disk : Forall from_disk (m_entries l);
  lo_fresh : ∀ o, o ∈ objs l → o < l_next l;
  lo_nodup : NoDup (objs l);
  lo_provided : ∀ k s, m_map (l_registry l) !! k = Some s →
    ∃ e p, e ∈ m_entries l ∧ en_obj e = sv_obj s ∧ en_destroy e = Some p ∧ k = (service_ID, pl_name p);
  lo_started : ∀ o, o ∈ sv_obj <$> m_started l → o ∈ objs l
}.

Lemma loader_ok_0 (h : HostState M) : loader_ok (mkLoader h Registry0 0 [] [] []).
Proof. split; unfold objs, handles; simpl; try done; try constructor; try set_solver. Qed.

Lemma load_ok dlopen path l : loader_ok l → m_started l = [] → loader_ok (load dlopen path l).2 ∧ m_started (load dlopen path l).2 = [].
Proof.
  intros [Hl Hd Hf Hn Hp _] Hs. rewrite Hs in Hl. unfold load.
  assert (loader_ok l) as Hok by (split; rewrite ?Hs; done || set_solver).
  destruct (dlopen path) as [im|]; [|done].
  assert (life (l_log l ++ [EvOpen path]) no_life =
    Some (mkLife (path :: reverse (handles l)) (reverse (objs l)) [])) as Hopen.
  { rewrite (life_snoc _ _ _ _ Hl). done. }
  assert (loader_ok (say (EvClose path) (say (EvOpen path) l))) as Hclose.
  { split; simpl; try done; [|rewrite Hs; set_solver].
    rewrite (life_snoc _ _ _ _ Hopen), Hs. simpl. by rewrite decide_True. }
  destruct (im_abi im) as [abi|]; [|done]. destruct (im_create im) as [p|]; [|done]. destruct (im_destroy im); [|done].
  destruct (negb _); [done|]. simpl. split; [|done]. clear Hclose. split; unfold objs, handles in *; simpl.
  - rewrite (life_snoc _ _ _ _ Hopen), Hs. simpl. rewrite decide_False.
    + by rewrite fmap_app, omap_app, !reverse_app.
    + rewrite elem_of_reverse. intros Hin%Hf. lia.
  - apply Forall_app. split; [done|]. constructor; [|done]. split; eauto.
  - intros o Hin. rewrite fmap_app in Hin. apply elem_of_app in Hin as [Hin%Hf|Hin]; [lia|].
    apply list_elem_of_singleton in Hin as ->. simpl. lia.
  - rewrite fmap_app. apply NoDup_app. split_and!; [done| |apply NoDup_singleton].
    intros o Hin%Hf ->%list_elem_of_singleton. simpl in *. lia.
  - intros k s. unfold plugin_create, add. simpl. rewrite lookup_insert_Some. intros [[<- <-]|[_ Hin]].
    + eexists _, p. split_and!; [apply elem_of_app; right; by left|done..].
    + destruct (Hp _ _ Hin) as (e & p' & ? & ? & ? & ->). exists e, p'. rewrite elem_of_app. eauto.
  - rewrite Hs. set_solver.
Qed.

Lemma load_plugins_ok env a l :
  loader_ok l → m_started l = [] → loader_ok (load_plugins env a l) ∧ m_started (load_plugins env a l) = [].
Proof.
  assert (∀ paths l, loader_ok l → m_started l = [] →
    loader_ok (fold_left (load_path env) paths l) ∧ m_started (fold_left (load_path env) paths l) = []) as Hf.
  { intros paths. induction paths as [|path paths IH]; intros l0 H1 H2; simpl; [done|].
    destruct (load_ok (e_dlopen env) path l0 H1 H2). by apply IH. }
  assert (∀ skip dir l, loader_ok l → m_started l = [] →
    loader_ok (loadDir env skip l dir) ∧ m_started (loadDir env skip l dir) = []) as Hdir.
  { intros skip dir l0 H1 H2. unfold loadDir. destruct (e_dir env dir); [by apply Hf|done]. }
  assert (∀ dirs l, loader_ok l → m_started l = [] →
    loader_ok (fold_left (loadDir env []) dirs l) ∧ m_started (fold_left (loadDir env []) dirs l) = []) as Hdirs.
  { intros dirs. induction dirs as [|dir dirs IH]; intros l0 H1 H2; simpl; [done|].
    destruct (Hdir [] dir l0 H1 H2). by apply IH. }
  intros H1 H2. unfold load_plugins. destruct (Hf (a_plugins a) l H1 H2) as [H3 H4].
  destruct (Hdirs (a_pluginDirs a) _ H3 H4) as [H5 H6]. destruct (_ && _); [by apply Hdir|done].
Qed.

(** The services found are distinct objects, all alive. *)
Lemma services_ok l :
  loader_ok l →
  NoDup (sv_obj <$> findAll (l_registry l) service_ID) ∧
  ∀ s, s ∈ findAll (l_registry l) service_ID → sv_obj s ∈ objs l.
Proof.
  intros [_ _ _ Hn Hp _]. split.
  - unfold findAll. pose proof (in_order_keys (l_registry l)) as Hk.
    assert (∀ k s, (k, s) ∈ in_order (l_registry l) → m_map (l_registry l) !! k = Some s) as Hin
      by (intros; by apply elem_of_in_order).
    revert Hk Hin. induction (in_order (l_registry l)) as [|[k s] es IH]; intros Hk Hin; [constructor|].
    rewrite fmap_cons in Hk. apply NoDup_cons in Hk as [Hni Hk].
    assert (NoDup (sv_obj <$> omap (λ x : Key * Service M, if decide (x.1.1 = service_ID) then Some x.2 else None) es)) as IHs.
    { apply IH; [done|]. intros; apply Hin; by right. }
    csimpl. case_decide; [|done]. csimpl. constructor; [|done].
    intros (s' & Hs & ([k' s''] & Hin' & Hs')%list_elem_of_omap)%list_elem_of_fmap.
    simpl in Hs'. case_decide; simplify_eq.
    destruct (Hp k s (Hin _ _ ltac:(left))) as (e1 & p1 & ? & Ho1 & Hd1 & ->).
    destruct (Hp k' s' (Hin _ _ ltac:(by right))) as (e2 & p2 & ? & Ho2 & Hd2 & ->).
    assert (e1 = e2) as -> by (eapply (NoDup_fmap_eq en_obj); eauto; congruence).
    rewrite Hd1 in Hd2. injection Hd2 as ->. apply Hni.
    apply list_elem_of_fmap. by eexists (_, s').
  - intros s ([k s'] & Hin%elem_of_in_order & Hs)%list_elem_of_omap. simpl in Hs. case_decide; simplify_eq.
    destruct (Hp _ _ Hin) as (e & p & He & Ho & _). unfold objs. rewrite <- Ho.
    by apply list_elem_of_fmap_2.
Qed.

Lemma start_loop_ok svcs l :
  loader_ok l → NoDup ((sv_obj <$> m_started l) ++ (sv_obj <$> svcs)) → (∀ s, s ∈ svcs → sv_obj s ∈ objs l) →
  let l' := (start_loop svcs l).2 in loader_ok l' ∧ m_entries l' = m_entries l ∧ l_registry l' = l_registry l.
Proof.
  cbv zeta. revert l. induction svcs as [|s svcs IH]; intros l Hok Hn Hin; [done|].
  pose proof Hok as [Hl Hd Hf Hno Hp Hs].
  assert (sv_obj s ∈ objs l) as Hlive by (apply Hin; left).
  assert (sv_obj s ∉ sv_obj <$> m_started l) as Hnew.
  { intros Hx. apply NoDup_app in Hn as (_ & Hn & _). apply (Hn _ Hx). csimpl. left. }
  csimpl. destruct (sv_start s (l_host l)) as [[err h]|].
  - destruct (IH (say (EvStart (sv_obj s) (bool_decide (err = OK)))
      (mkLoader h (l_registry l) (l_next l) (m_entries l)
         (if bool_decide (err = OK) then m_started l ++ [s] else m_started l) (l_log l)))) as (H1 & H2 & H3); [| | |done].
    + split; unfold objs, handles in *; simpl; [|done..|].
      * rewrite (life_snoc _ _ _ _ Hl). simpl. rewrite decide_True by by rewrite !elem_of_reverse.
        case_bool_decide; [|done]. rewrite fmap_app. csimpl. by rewrite reverse_snoc.
      * intros o. case_bool_decide; [|auto]. rewrite fmap_app, elem_of_app.
        intros [Ho|Ho%list_elem_of_singleton]; [auto|by subst].
    + simpl. case_bool_decide.
      * by rewrite fmap_app, <- app_assoc.
      * rewrite NoDup_app in *. destruct Hn as (Hn1 & Hn2 & Hn3). csimpl in *. apply NoDup_cons in Hn3 as [_ Hn3].
        split_and!; [done| |done]. intros o Ho Ho'. apply (Hn2 o Ho). by right.
    + intros s' Hs'. apply Hin. by right.
  - simpl. split; [|done]. split; unfold objs, handles in *; simpl; try done.
    rewrite (life_snoc _ _ _ _ Hl). simpl. by rewrite decide_True by by rewrite elem_of_reverse.
Qed.

Lemma stopAll_ok l : loader_ok l → loader_ok (stopAll l) ∧ m_started (stopAll l) = [] ∧ m_entries (stopAll l) = m_entries l.
Proof.
  intros [Hl Hd Hf Hn Hp Hs]. unfold stopAll.
  assert (∀ svcs l0, m_entries l0 = m_entries l → l_registry l0 = l_registry l → l_next l0 = l_next l →
    (∀ s, s ∈ svcs → sv_obj s ∈ objs l) →
    life (l_log l0) no_life = Some (mkLife (reverse (handles l)) (reverse (objs l)) (sv_obj <$> svcs)) →
    let l' := fold_left stop_one svcs l0 in
    m_entries l' = m_entries l ∧ l_registry l' = l_registry l ∧ l_next l' = l_next l ∧
    life (l_log l') no_life = Some (mkLife (reverse (handles l)) (reverse (objs l)) [])) as H.
  { intros svcs. cbv zeta. induction svcs as [|s svcs IH]; intros l0 H1 H2 H3 H4 H5; simpl; [done|].
    apply IH; simpl; try done; [intros; apply H4; by right|].
    rewrite (life_snoc _ _ _ _ H5). csimpl. rewrite decide_True; [done|]. split; [done|].
    rewrite elem_of_reverse. apply H4. left. }
  destruct (H (reverse (m_started l)) l) as (H1 & H2 & H3 & H4); [done..| | |].
  - intros s Hin. rewrite elem_of_reverse in Hin. apply Hs. by apply list_elem_of_fmap_2.
  - by rewrite Hl, fmap_reverse.
  - split; [|done]. split; unfold objs, handles, clear_started in *; csimpl; rewrite ?H1, ?H2, ?H3; try done. set_solver.
Qed.

(** The destruction of the entries, last first. *)
Lemma destroy_entries_ok es l :
  Forall from_disk es →
  life (l_log l) no_life = Some (mkLife (omap en_handle es) (en_obj <$> es) []) →
  let l' := fold_left destroy_entry es l in
  life (l_log l') no_life = Some no_life ∧
  ∀ k s, m_map (l_registry l') !! k = Some s →
    m_map (l_registry l) !! k = Some s ∧ ∀ e p, e ∈ es → en_destroy e = Some p → k ≠ (service_ID, pl_name p).
Proof.
  cbv zeta. revert l. induction es as [|e es IH]; intros l Hd Hl; simpl.
  { split; [done|]. set_solver. }
  apply Forall_cons in Hd as [[[p Hp] [path Hh]] Hd]. destruct (IH (destroy_entry l e) Hd) as [H1 H2].
  - unfold destroy_entry. rewrite Hp, Hh. simpl.
    rewrite (life_snoc _ _ _ (mkLife (path :: omap en_handle es) (en_obj <$> es) [])).
    + simpl. by rewrite decide_True.
    + rewrite (life_snoc _ _ _ _ Hl). csimpl. rewrite Hh. simpl. rewrite decide_True by set_solver. done.
  - split; [done|]. intros k s Hk. destruct (H2 k s Hk) as [H3 H4]. unfold destroy_entry in H3.
    rewrite Hp, Hh in H3. simpl in H3. apply lookup_delete_Some in H3 as [H5 H3]. split; [done|].
    intros e' p' Hin Hp'. apply elem_of_cons in Hin as [->|Hin]; [|by eapply H4]. rewrite Hp in Hp'. by simplify_eq.
Qed.

Lemma omap_rev {A B} (f : A → option B) (xs : list A) : omap f (reverse xs) = reverse (omap f xs).
Proof.
  induction xs as [|x xs IH]; [done|]. rewrite reverse_cons, omap_app, IH. csimpl. destruct (f x); csimpl;
    by rewrite ?reverse_cons, ?app_nil_r.
Qed.
Lemma destroy_loader_ok l :
  loader_ok l →
  life (l_log (destroy_loader l)) no_life = Some no_life ∧ m_map (l_registry (destroy_loader l)) = ∅.
Proof.
  intros Hok. destruct (stopAll_ok l Hok) as (Hok' & Hs & He). unfold destroy_loader. pose proof Hok' as [Hl Hd Hf Hn Hp _].
  destruct (destroy_entries_ok (reverse (m_entries (stopAll l))) (stopAll l)) as [H1 H2].
  - apply Forall_forall. intros e Hin. rewrite elem_of_reverse in Hin. rewrite Forall_forall in Hd. auto.
  - rewrite Hl, Hs. unfold handles, objs. by rewrite fmap_reverse, omap_rev.
  - split; [done|]. apply map_eq. intros k. rewrite lookup_empty. apply eq_None_not_Some. intros [s Hk].
    destruct (H2 k s Hk) as [H3 H4]. destruct (Hp k s H3) as (e & p & Hin & _ & Hde & ->).
    by eapply (H4 e p); [apply elem_of_reverse| |].
Qed.

(** [load] succeeds exactly on an object that exports the three symbols with
    this ABI. *)
Lemma load_accepts dlopen path l :
  (load dlopen path l).1 = true ↔
  ∃ im p, dlopen path = Some im ∧ im_abi im = Some ABI ∧ im_create im = Some p ∧ im_destroy im = true.
Proof.
  unfold load. destruct (dlopen path) as [[abi c d]|]; simpl; [|naive_solver].
  destruct abi as [abi|], c as [p|], d; simpl; try naive_solver.
  destruct (Z.eqb_spec abi ABI); simpl; split; try naive_solver; try done.
Qed.

(** *** Where the services come from *)

(** The services by name, in the order they are started. *)
Definition named l : list (bytes * Service M) :=
  omap (λ x : Key * Service M, if decide (x.1.1 = service_ID) then Some (x.1.2, x.2) else None) (in_order (l_registry l)).
Lemma named_snd l : (named l).*2 = findAll (l_registry l) service_ID.
Proof.
  unfold named, findAll. induction (in_order _) as [|x xs IH]; [done|]. csimpl. repeat case_decide; csimpl; first [done | exact IH | f_equal; exact IH].
Qed.
Lemma named_fst l : (named l).*1 = names (l_registry l) service_ID.
Proof.
  unfold named, names. induction (in_order _) as [|x xs IH]; [done|]. csimpl. repeat case_decide; csimpl; first [done | exact IH | f_equal; exact IH].
Qed.
(** Services are started in the order of their names, whatever the order in
    which their plugins were loaded. *)
Lemma named_sorted l : StronglySorted bytes_lt (named l).*1.
Proof. rewrite named_fst. apply names_sorted. Qed.

(** Loading touches the registry only. *)
Lemma load_plugins_host env a l : l_host (load_plugins env a l) = l_host l.
Proof.
  assert (∀ path l, l_host (load_path env l path) = l_host l) as H1.
  { intros path l0. unfold load_path, load. repeat case_match; done. }
  assert (∀ paths l, l_host (fold_left (load_path env) paths l) = l_host l) as Hf.
  { intros paths. induction paths as [|path paths IH]; intros l0; simpl; [done|]. by rewrite IH. }
  assert (∀ skip dir l, l_host (loadDir env skip l dir) = l_host l) as Hdir.
  { intros skip dir l0. unfold loadDir. destruct (e_dir env dir); [apply Hf|done]. }
  assert (∀ dirs l, l_host (fold_left (loadDir env []) dirs l) = l_host l) as Hdirs.
  { intros dirs. induction dirs as [|dir dirs IH]; intros l0; simpl; [done|]. by rewrite IH. }
  unfold load_plugins. destruct (_ && _); by rewrite ?Hdir, Hdirs, Hf.
Qed.

Section Provided.
Context (Q : Plugin M → Prop).
(** Every service is that of a plugin of [Q]. *)
Definition of_plugin (n : bytes) s : Prop := ∃ p, Q p ∧ n = pl_name p ∧ sv_start s = pl_start p ∧ sv_stop s = pl_stop p.
Definition provided_ok l : Prop := ∀ n s, m_map (l_registry l) !! (service_ID, n) = Some s → of_plugin n s.
Definition images_ok env : Prop := ∀ path im p, e_dlopen env path = Some im → im_create im = Some p → Q p.

Lemma load_provided env path l : images_ok env → provided_ok l → provided_ok (load (e_dlopen env) path l).2.
Proof.
  intros He Hl. unfold load. destruct (e_dlopen env path) as [im|] eqn:E; [|done].
  destruct (im_abi im); [|done]. destruct (im_create im) as [p|] eqn:Ep; [|done]. destruct (im_destroy im); [|done].
  destruct (negb _); [done|]. intros n s. simpl. unfold plugin_create, add. simpl.
  rewrite lookup_insert_Some. intros [[[= <-] <-]|[_ Hin]]; [|by apply Hl]. exists p. split; [by eapply He|done].
Qed.
Lemma load_plugins_provided env a l : images_ok env → provided_ok l → provided_ok (load_plugins env a l).
Proof.
  intros He Hl.
  assert (∀ paths l, provided_ok l → provided_ok (fold_left (load_path env) paths l)) as Hf.
  { intros paths. induction paths as [|path paths IH]; intros l0 H0; simpl; [done|]. by apply IH, load_provided. }
  assert (∀ skip dir l, provided_ok l → provided_ok (loadDir env skip l dir)) as Hdir.
  { intros skip dir l0 H0. unfold loadDir. destruct (e_dir env dir); [by apply Hf|done]. }
  assert (∀ dirs l, provided_ok l → provided_ok (fold_left (loadDir env []) dirs l)) as Hdirs.
  { intros dirs. induction dirs as [|dir dirs IH]; intros l0 H0; simpl; [done|]. by apply IH, Hdir. }
  unfold load_plugins. destruct (_ && _); [apply Hdir|]; apply Hdirs, Hf, Hl.
Qed.
Lemma named_provided l n s : provided_ok l → (n, s) ∈ named l → of_plugin n s.
Proof.
  intros Hl ([[i m] s'] & Hin%elem_of_in_order & Hs)%list_elem_of_omap. simpl in Hs. case_decide; [|done]. simplify_eq. by apply Hl.
Qed.

(** [P ns h]: the host while the services of the names [ns] are not yet
    started; [S h]: the host from then on. *)
Context (P : list bytes → HostState M → Prop) (S : HostState M → Prop).
Hypothesis P_start : ∀ p ns h e h', Q p → pl_name p ∉ ns → P (pl_name p :: ns) h → pl_start p h = Some (e, h') → P ns h'.
Hypothesis P_end : ∀ ns h, P ns h → S h.
Hypothesis S_stop : ∀ p h, Q p → S h → S (pl_stop p h).

Lemma start_loop_host svcs l :
  NoDup svcs.*1 → (∀ n s, (n, s) ∈ svcs → of_plugin n s) → (∀ s, s ∈ m_started l → ∃ n, of_plugin n s) →
  P svcs.*1 (l_host l) →
  let l' := (start_loop svcs.*2 l).2 in
  S (l_host l') ∧ ∀ s, s ∈ m_started l' → ∃ n, of_plugin n s.
Proof.
  cbv zeta. revert l. induction svcs as [|[n s] svcs IH]; intros l Hn Hof Hst HP; csimpl in *; [split; [by eapply P_end|done]|].
  apply NoDup_cons in Hn as [Hn0 Hn]. destruct (Hof n s ltac:(left)) as (p & Hp & -> & Hs & Ht).
  destruct (sv_start s (l_host l)) as [[e h]|] eqn:E; [|split; [by eapply P_end|done]].
  apply IH; simpl; [done|intros; apply Hof; by right| |].
  - intros x. case_bool_decide; [|apply Hst]. rewrite elem_of_app, list_elem_of_singleton. intros [?| ->]; [by apply Hst|].
    exists (pl_name p). apply Hof. left.
  - eapply P_start; [done|done|done|]. by rewrite <- Hs.
Qed.
Lemma stopAll_host l :
  (∀ s, s ∈ m_started l → ∃ n, of_plugin n s) → S (l_host l) → S (l_host (stopAll l)).
Proof.
  intros Hst. unfold stopAll, clear_started. cbn [l_host].
  assert (∀ s, s ∈ reverse (m_started l) → ∃ n, of_plugin n s) as H by (intros s Hs; apply Hst; by rewrite elem_of_reverse in Hs).
  revert H. generalize (reverse (m_started l)) as svcs. clear Hst. intros svcs. revert l.
  induction svcs as [|s svcs IH]; intros l Hst HS; simpl; [done|]. apply IH; [intros; apply Hst; by right|]. simpl.
  destruct (Hst s ltac:(left)) as (n & p & Hp & _ & _ & ->). by apply S_stop.
Qed.
Lemma destroy_host l : l_host (destroy_loader l) = l_host (stopAll l).
Proof.
  unfold destroy_loader. generalize (reverse (m_entries (stopAll l))). intros es. generalize (stopAll l). clear l.
  induction es as [|e es IH]; intros l; simpl; [done|]. rewrite IH. unfold destroy_entry. by destruct (en_destroy e), (en_handle e).
Qed.
Lemma stopAll_started l : m_started (stopAll l) = [].
Proof. done. Qed.

(** What holds of the host through a run. *)
Lemma serve_host env a h :
  images_ok env → (∀ ns, P ns h) → (∀ h, S h → S (e_serve env h)) → S (l_host (serve env a h).2).
Proof.
  intros He HP Hserve. unfold serve. set (l0 := mkLoader h Registry0 0 [] [] []).
  assert (provided_ok l0) as H0 by (intros n s; simpl; by rewrite lookup_empty).
  pose proof (load_plugins_provided env a l0 He H0) as H1.
  destruct (load_plugins_ok env a l0) as [_ Hst]; [apply loader_ok_0|done|].
  assert (l_host (load_plugins env a l0) = h) as Hh by apply load_plugins_host.
  set (l1 := load_plugins env a l0) in *. clearbody l1. unfold startServices. rewrite <- named_snd.
  destruct (start_loop_host (named l1) l1) as [H2 H3].
  - rewrite named_fst. apply (sorted_NoDup bytes_lt), names_sorted.
  - intros n s. by apply named_provided.
  - rewrite Hst. set_solver.
  - rewrite Hh. apply HP.
  - destruct (start_loop (named l1).*2 l1) as [ok l2]. cbn [snd] in *. destruct ok; cbn [snd]; rewrite destroy_host.
    + apply stopAll_host; [rewrite stopAll_started; set_solver|]. apply stopAll_host; [done|]. cbn [l_host].
      destruct (_ =? 0)%nat; auto.
    + by apply stopAll_host.
Qed.
End Provided.

(** C9. The life of the host process: whatever is on disk and however the
    services behave - a start that fails, a start that throws - every service
    that started is stopped exactly once, in reverse, then every plugin is
    destroyed and every shared object closed, in reverse; nothing is called on
    a destroyed object, and no provider is left in the registry. *)
Theorem main_lifecycle env engines default_engine a code l :
  main env engines default_engine a = (code, Some l) →
  life (l_log l) no_life = Some no_life ∧ m_map (l_registry l) = ∅ ∧ m_started l = [] ∧ (code = 0 ∨ code = 1).
Proof.
  unfold main. destruct (if decide _ then _ else _) as [s_engine|]; [|done].
  destruct (openPrfs _ _ _ _ _) as [fs|]; [|done].
  destruct (serve _ _ _) as [ok l'] eqn:E. intros H. simplify_eq.
  set (h := mkHost _ _ _ _) in E. unfold serve in E. clearbody h.
  destruct (load_plugins_ok env a (mkLoader h Registry0 0 [] [] [])) as [H1 H2]; [apply loader_ok_0|done|].
  set (l0 := load_plugins env a _) in *. clearbody l0. destruct (services_ok l0 H1) as [Hnd Hin].
  destruct (start_loop_ok (findAll (l_registry l0) service_ID) l0 H1) as (H3 & H4 & H5); [by rewrite H2|done|].
  unfold startServices in E. destruct (start_loop _ l0) as [ok1 l1]. cbn [snd] in *.
  assert (∀ l, loader_ok l → let l' := destroy_loader l in
    life (l_log l') no_life = Some no_life ∧ m_map (l_registry l') = ∅ ∧ m_started l' = []) as Hend.
  { intros l2 Hok. destruct (destroy_loader_ok l2 Hok) as [H6 H7]. split_and!; [done..|].
    unfold destroy_loader. destruct (stopAll_ok l2 Hok) as (_ & Hs & _). revert Hs. generalize (stopAll l2).
    intros l3 Hs. generalize (reverse (m_entries l3)). intros es. revert l3 Hs.
    induction es as [|e es IH]; intros l3 Hs; [done|]. apply IH. unfold destroy_entry. by destruct (en_destroy e), (en_handle e). }
  destruct ok1; simplify_eq.
  - assert (∀ h, loader_ok (mkLoader h (l_registry l1) (l_next l1) (m_entries l1) (m_started l1) (l_log l1))) as Hh
      by (intros h'; by destruct H3; split).
    destruct (Hend _ (proj1 (stopAll_ok _ (Hh (if (length (findAll (l_registry l1) service_ID) =? 0)%nat
      then l_host l1 else e_serve env (l_host l1)))))) as (? & ? & ?). split_and!; auto.
  - destruct (Hend _ H3) as (? & ? & ?). split_and!; auto.
Qed.
End Laws.

(** ** The wait *)

Lemma onSignal_stop w : g_stop (onSignal w) = true.
Proof. done. Qed.
(** A signal in [pause], or one that came before the test, ends the wait. *)
Lemma wait_ends b :
  wait_step (onSignal (mkWait InPause b)) (mkWait Left true) ∧ wait_step (onSignal (mkWait AtTest b)) (mkWait Left true).
Proof. split; apply (wait_test true). Qed.
(** A signal that comes between the test and [pause] is lost: the process
    sleeps, with [g_stop] set, until another signal. *)
Lemma wait_lost :
  ∃ w, wait_step (mkWait AtTest false) w ∧ wait_step (onSignal w) (mkWait InPause true) ∧
       ∀ w', ¬ wait_step (mkWait InPause true) w'.
Proof. exists (mkWait BeforePause false). split_and!; [apply (wait_test false)|constructor|]. intros w' H. inversion H. Qed.

(** ** Names and options *)

Lemma split_eq_spec kv k v : split_eq kv = Some (k, v) ↔ kv = k ++ x3d :: v ∧ x3d ∉ k.
Proof.
  revert k. induction kv as [|c kv IH]; intros k; simpl.
  { split; [done|]. intros [H _]. by destruct k. }
  case_decide as Hc.
  - subst. split.
    + intros [= <- <-]. split; [done|]. by apply not_elem_of_nil.
    + intros [H Hk]. destruct k as [|c k]; simplify_eq/=; [done|]. destruct Hk. left.
  - destruct (split_eq kv) as [[k' v']|] eqn:E; simpl.
    + split.
      * intros [= <- <-]. destruct (proj1 (IH k')) as [-> Hk]; [done|]. split; [done|]. intros [?|?]%elem_of_cons; [congruence|done].
      * intros [H Hk]. destruct k as [|c' k]; simplify_eq/=. apply not_elem_of_cons in Hk as [_ Hk].
        pose proof (proj2 (IH k) (conj eq_refl Hk)) as H. by injection H as -> ->.
    + split; [done|]. intros [H Hk]. destruct k as [|c' k]; simplify_eq/=. apply not_elem_of_cons in Hk as [_ Hk].
      by pose proof (proj2 (IH k) (conj eq_refl Hk)).
Qed.

(** [--set] wins over the dedicated flags, the last one wins, and a value may
    hold an equals sign. *)
Example host_options_sets :
  let a := mkCli [] false [] 20490 (-1) true (str "/tmp/c") [] []
             [str "port=1"; str "nonsense"; str "bigtree.x=a=b"; str "bigtree.x=c=d"] in
  (λ k, option_ (host_options a) (str k)) <$> ["port"; "time-advance"; "control"; "nonsense"; "bigtree.x"]%string =
  [str "1"; str "1"; str "/tmp/c"; []; str "c=d"].
Proof. by vm_compute. Qed.

(** ** Witness *)

(** The memory engine, and a directory with two plugins, one of which has
    another ABI, next to the executable. *)
Definition demo_engines : Registry (Engine (gmap bytes bytes)) :=
  add Registry0 engine_ID (str "memory") (λ _ _, Some kv_new).
Definition demo_env : Env (gmap bytes bytes) :=
  mkEnv (λ p, if decide (p = str "/b/a.so") then Some null_image
              else if decide (p = str "/b/old.so") then Some (mkImage (Some 1) (Some null_plugin) true) else None)
        (λ d, if decide (d = str "/b") then
                Some [(str "old.so", true); (str "README", true); (str "a.so", true); (str "null.so", true)] else None)
        (Some (str "/b/prfs-host")) ∅ id.
Definition demo_cli : Cli := mkCli (str "/tmp/s") true (str "memory") 0 (-1) false [] [] [] [].

Lemma main_lifecycle_witness :
  match main demo_env demo_engines (str "lmdb") demo_cli with
  | (code, Some l) =>
      code = 0 ∧ l_log l = [EvOpen (str "/b/a.so"); EvCreate 0; EvOpen (str "/b/old.so"); EvClose (str "/b/old.so");
                            EvStart 0 true; EvStop 0; EvDestroy 0; EvClose (str "/b/a.so")] ∧
      life (l_log l) no_life = Some no_life
  | _ => False
  end.
Proof.
  destruct (main demo_env demo_engines (str "lmdb") demo_cli) as [code [l|]] eqn:E.
  - split_and!; [..|exact (proj1 (main_lifecycle demo_env demo_engines (str "lmdb") demo_cli code l E))].
    + assert ((main demo_env demo_engines (str "lmdb") demo_cli).1 = code) as <- by (rewrite E; reflexivity). vm_compute. reflexivity.
    + assert (match (main demo_env demo_engines (str "lmdb") demo_cli).2 with Some l => l_log l | None => [] end = l_log l) as <-
        by (rewrite E; reflexivity). vm_compute. reflexivity.
  - assert (match (main demo_env demo_engines (str "lmdb") demo_cli).2 with Some _ => true | None => false end = true) as H
      by (vm_compute; reflexivity).
    rewrite E in H. discriminate H.
Defined.

(** An unknown engine name ends the program before a store is opened. *)
Lemma main_unknown_engine {M} `{!KvEngine M} env (engines : Registry (Engine M)) d a :
  a_engine a ≠ [] → find engines engine_ID (a_engine a) = None → main env engines d a = (1, None).
Proof. intros Ha Hf. unfold main, setStorageEngine, has. by rewrite decide_False, Hf. Qed.
