(* ===== verification/Xdr.v ===== *)
(** * Xdr: the XDR reader and writer of the NFSv3 front-end
    (plugins/nfsv3/nfsv3.cpp, [Reader], [Writer], [readCred])

    The reader is a cursor over one RPC message with a latched [ok]; the writer
    appends big-endian words. A result of [None] is an access outside the
    message. *)
From S2P Require Import Prelude.
Local Open Scope Z_scope.
Set Warnings "-clear-no-such-hyp".

(** ** Reader *)

Record Reader := mkReader { rd_p : bytes; rd_pos : Z; rd_ok : bool }.
Implicit Types (r : Reader).

Definition rd_n r : Z := Z.of_nat (length (rd_p r)).
Definition rd_adv r (k : Z) : Reader := mkReader (rd_p r) (rd_pos r + k) (rd_ok r).
Definition rd_fail r : Reader := mkReader (rd_p r) (rd_pos r) false.

(** [p[i]], [rd32(p + i)], [rd64(p + i)]. *)
Definition p_at (p : bytes) (i : Z) : Z := from_option bz 0 (p !! Z.to_nat i).
Definition rd32 (p : bytes) (i : Z) : Z :=
  Z.lor (Z.lor (Z.lor (Z.shiftl (p_at p i) 24) (Z.shiftl (p_at p (i + 1)) 16)) (Z.shiftl (p_at p (i + 2)) 8)) (p_at p (i + 3)).
Definition rd64 (p : bytes) (i : Z) : Z := Z.lor (Z.shiftl (rd32 p i) 32) (rd32 p (i + 4)).

Definition r_u32 r : Z * Reader :=
  if rd_n r <? rd_pos r + 4 then (0, rd_fail r) else (rd32 (rd_p r) (rd_pos r), rd_adv r 4).
Definition r_u64 r : Z * Reader :=
  let '(hi, r) := r_u32 r in
  let '(lo, r) := r_u32 r in
  (Z.lor (Z.shiftl hi 32) lo, r).

(** [(len + 3u) & ~3]: the sum is a 32-bit one. *)
Definition pad_of (len : Z) : Z := u32 (len + 3) / 4 * 4.
Definition r_skipOpaque r : Reader :=
  let '(len, r) := r_u32 r in
  let pad := pad_of len in
  if rd_n r <? rd_pos r + pad then rd_fail r else rd_adv r pad.
Definition r_str r : option (bytes * Reader) :=
  let '(len, r) := r_u32 r in
  let pad := pad_of len in
  if negb (rd_ok r) || (rd_n r <? rd_pos r + pad) then Some ([], rd_fail r)
  else if rd_n r <? rd_pos r + len then None
  else Some (take (Z.to_nat len) (drop (Z.to_nat (rd_pos r)) (rd_p r)), rd_adv r pad).
Definition r_skip r (k : Z) : Reader := if rd_n r <? rd_pos r + k then rd_fail r else rd_adv r k.
Definition r_skipAuth r : Reader := r_skipOpaque (r_u32 r).2.
(** [fh]: the pair (nodeID, snapId), [None] when it is refused. *)
Definition r_fh r : option (Z * Z) * Reader :=
  let '(len, r) := r_u32 r in
  if negb (rd_ok r) || negb (len =? 16) || (rd_n r <? rd_pos r + 16) then (None, rd_fail r)
  else (Some (rd64 (rd_p r) (rd_pos r), rd64 (rd_p r) (rd_pos r + 8)), rd_adv r 16).

Record Cred := mkCred { cr_uid : Z; cr_gid : Z; cr_sys : bool }.
Definition Cred0 : Cred := mkCred 0 0 false.
Definition AUTH_SYS : Z := 1.
Definition readCred r : Cred * Reader :=
  let '(flavor, r) := r_u32 r in
  let '(len, r) := r_u32 r in
  let end_ := rd_pos r + pad_of len in
  if negb (rd_ok r) || (rd_n r <? end_) then (Cred0, rd_fail r)
  else if flavor =? AUTH_SYS then
    let '(_, r) := r_u32 r in
    let r := r_skipOpaque r in
    let '(uid, r) := r_u32 r in
    let '(gid, r) := r_u32 r in
    (mkCred uid gid true, mkReader (rd_p r) end_ (rd_ok r))
  else (Cred0, mkReader (rd_p r) end_ (rd_ok r)).

(** ** Writer *)

Definition w_u32 (v : bytes) (x : Z) : bytes :=
  v ++ [zb (Z.shiftr x 24); zb (Z.shiftr x 16); zb (Z.shiftr x 8); zb x].
Definition w_u64 (v : bytes) (x : Z) : bytes := w_u32 (w_u32 v (u32 (Z.shiftr x 32))) (u32 x).
Definition w_fh (v : bytes) (id snap : Z) : bytes := w_u64 (w_u64 (w_u32 v 16) id) snap.
(** [while (v.size() % 4) v.push_back(0)]. *)
Definition w_pad (v : bytes) : bytes := v ++ replicate ((4 - length v mod 4) mod 4) (zb 0).
Definition w_str (v s : bytes) : bytes := w_pad (w_u32 v (u32 (Z.of_nat (length s))) ++ s).
Definition w_opaque (v data : bytes) : bytes := w_pad (w_u32 v (u32 (Z.of_nat (length data))) ++ data).
Definition w_time (v : bytes) (t : Z) : bytes := w_u32 (w_u32 v (u32 t)) 0.
Definition w_timeNs (v : bytes) (t ns : Z) : bytes := w_u32 (w_u32 v (u32 t)) ns.

(** ** Lemmas *)

(** The cursor stays inside the message. *)
Definition rd_inv r : Prop := 0 <= rd_pos r <= rd_n r.

Lemma rd_n_adv r k : rd_n (rd_adv r k) = rd_n r.
Proof. done. Qed.
Lemma pad_of_nonneg len : 0 <= pad_of len.
Proof. unfold pad_of. pose proof (u32_range (len + 3)). pose proof (Z.div_pos (u32 (len + 3)) 4). word_lia. Qed.
Lemma pad_of_ge len : 0 <= len <= 2 ^ 32 - 4 → len <= pad_of len < len + 4.
Proof.
  intros. unfold pad_of. rewrite u32_small by word_lia.
  pose proof (Z.div_mod (len + 3) 4 ltac:(lia)). pose proof (Z.mod_pos_bound (len + 3) 4 ltac:(lia)). lia.
Qed.

Lemma rd32_range p i : in32 (rd32 p i).
Proof.
  assert (∀ j, 0 <= p_at p j < 256) as Ha.
  { intros j. unfold p_at. destruct (p !! _); simpl; [apply bz_range|lia]. }
  unfold rd32. pose proof (Ha i). pose proof (Ha (i + 1)). pose proof (Ha (i + 2)). pose proof (Ha (i + 3)).
  rewrite (lor_shift_add (p_at p i)) by (rewrite ?Z.shiftl_mul_pow2; lia).
  replace (p_at p i * 2 ^ 24 + Z.shiftl (p_at p (i + 1)) 16) with (Z.shiftl (p_at p i * 256 + p_at p (i + 1)) 16)
    by (rewrite !Z.shiftl_mul_pow2; lia).
  rewrite lor_shift_add by (rewrite ?Z.shiftl_mul_pow2; lia).
  replace ((p_at p i * 256 + p_at p (i + 1)) * 2 ^ 16 + Z.shiftl (p_at p (i + 2)) 8)
    with (Z.shiftl ((p_at p i * 256 + p_at p (i + 1)) * 256 + p_at p (i + 2)) 8) by (rewrite !Z.shiftl_mul_pow2; lia).
  rewrite lor_shift_add by lia. word_lia.
Qed.

Lemma r_u32_inv r : rd_inv r → rd_inv (r_u32 r).2 ∧ rd_p (r_u32 r).2 = rd_p r ∧ in32 (r_u32 r).1.
Proof.
  unfold rd_inv, r_u32. intros I. destruct (Z.ltb_spec (rd_n r) (rd_pos r + 4)); cbn [fst snd].
  - split; [exact I|]. split; [done|word_lia].
  - rewrite rd_n_adv. cbn [rd_adv rd_pos]. split; [lia|]. split; [done|apply rd32_range].
Qed.
Lemma r_skip_inv r k : rd_inv r → 0 <= k → rd_inv (r_skip r k) ∧ rd_p (r_skip r k) = rd_p r.
Proof.
  unfold rd_inv, r_skip. intros. destruct (Z.ltb_spec (rd_n r) (rd_pos r + k)); simpl; [done|].
  rewrite rd_n_adv. unfold rd_adv. simpl. split; [lia|done].
Qed.
Lemma r_skipOpaque_inv r : rd_inv r → rd_inv (r_skipOpaque r) ∧ rd_p (r_skipOpaque r) = rd_p r.
Proof.
  intros I. unfold r_skipOpaque. destruct (r_u32_inv r I) as (I1 & E1 & _). destruct (r_u32 r) as [len r1]. simpl in *.
  rewrite <- E1. apply (r_skip_inv r1 (pad_of len) I1 (pad_of_nonneg len)).
Qed.
Lemma r_fh_inv r : rd_inv r → rd_inv (r_fh r).2 ∧ rd_p (r_fh r).2 = rd_p r.
Proof.
  intros I. unfold r_fh. destruct (r_u32_inv r I) as (I1 & E1 & _). destruct (r_u32 r) as [len r1]. simpl in *.
  destruct (negb (rd_ok r1) || negb (len =? 16)); simpl; [done|]. unfold rd_inv in *.
  destruct (Z.ltb_spec (rd_n r1) (rd_pos r1 + 16)); simpl; [done|]. rewrite rd_n_adv. unfold rd_adv. simpl. split; [lia|done].
Qed.
Lemma r_str_inv r s r' : rd_inv r → r_str r = Some (s, r') → rd_inv r' ∧ rd_p r' = rd_p r.
Proof.
  intros I. unfold r_str. destruct (r_u32_inv r I) as (I1 & E1 & _). destruct (r_u32 r) as [len r1]. simpl in *.
  unfold rd_inv in *. destruct (negb (rd_ok r1)); simpl; [by intros [= <- <-]|].
  destruct (Z.ltb_spec (rd_n r1) (rd_pos r1 + pad_of len)); [by intros [= <- <-]|].
  case_match; [done|]. intros [= <- <-]. rewrite rd_n_adv. unfold rd_adv. simpl.
  pose proof (pad_of_nonneg len). split; [lia|done].
Qed.
Lemma readCred_inv r : rd_inv r → rd_inv (readCred r).2 ∧ rd_p (readCred r).2 = rd_p r.
Proof.
  intros I. unfold readCred. destruct (r_u32_inv r I) as (I1 & E1 & _). destruct (r_u32 r) as [fl r1]. simpl in *.
  destruct (r_u32_inv r1 I1) as (I2 & E2 & _). destruct (r_u32 r1) as [len r2]. simpl in *.
  assert (rd_p r2 = rd_p r) as E by congruence. unfold rd_inv, rd_n in *.
  pose proof (pad_of_nonneg len). destruct (negb (rd_ok r2)); simpl; [by rewrite E in *|].
  destruct (Z.ltb_spec (Z.of_nat (length (rd_p r2))) (rd_pos r2 + pad_of len)); simpl; [by rewrite E in *|].
  destruct (fl =? AUTH_SYS); simpl; [|by rewrite E in *; split; [lia|]].
  destruct (r_u32_inv r2 I2) as (I3 & E3 & _). destruct (r_u32 r2) as [x r3]. simpl in *.
  destruct (r_skipOpaque_inv r3 I3) as (I4 & E4).
  destruct (r_u32_inv _ I4) as (I5 & E5 & _). destruct (r_u32 (r_skipOpaque r3)) as [y r5]. simpl in *.
  destruct (r_u32_inv _ I5) as (I6 & E6 & _). destruct (r_u32 r5) as [z r6]. simpl in *.
  assert (rd_p r6 = rd_p r) as -> by congruence. rewrite E in *. split; [lia|done].
Qed.

(** A string is refused or copied from inside the message, unless its length
    word is one of the last three 32-bit values. *)
Lemma r_str_total r :
  rd_inv r → (r_u32 r).1 <= 2 ^ 32 - 4 → ∃ s r', r_str r = Some (s, r').
Proof.
  intros I Hlen. unfold r_str. destruct (r_u32_inv r I) as (I1 & E1 & Hl). destruct (r_u32 r) as [len r1]. simpl in *.
  destruct (negb (rd_ok r1) || _) eqn:E; [eauto|]. apply orb_false_iff in E as [_ E%Z.ltb_ge].
  pose proof (pad_of_ge len ltac:(word_lia)). rewrite (proj2 (Z.ltb_ge _ _)) by lia. eauto.
Qed.

(** *** Reading back what was written *)

Definition be4 (x : Z) : bytes := [zb (Z.shiftr x 24); zb (Z.shiftr x 16); zb (Z.shiftr x 8); zb x].
(** A reader at the end of [v] inside [v ++ q]. *)
Definition rd_at (v q : bytes) : Reader := mkReader (v ++ q) (Z.of_nat (length v)) true.

Lemma p_at_app v q k : p_at (v ++ q) (Z.of_nat (length v) + Z.of_nat k) = p_at q (Z.of_nat k).
Proof.
  unfold p_at. rewrite <- Nat2Z.inj_add, !Nat2Z.id, lookup_app_r by lia. by replace (length v + k - length v)%nat with k by lia.
Qed.

Lemma rd32_be4 v x q : in32 x → rd32 (v ++ be4 x ++ q) (Z.of_nat (length v)) = x.
Proof.
  intros Hx. unfold rd32.
  pose proof (p_at_app v (be4 x ++ q) 0) as H0. pose proof (p_at_app v (be4 x ++ q) 1) as H1.
  pose proof (p_at_app v (be4 x ++ q) 2) as H2. pose proof (p_at_app v (be4 x ++ q) 3) as H3.
  change (Z.of_nat 0) with 0 in H0. change (Z.of_nat 1) with 1 in H1. change (Z.of_nat 2) with 2 in H2.
  change (Z.of_nat 3) with 3 in H3. rewrite Z.add_0_r in H0. rewrite H0, H1, H2, H3.
  change (p_at (be4 x ++ q) 0) with (bz (zb (Z.shiftr x 24))). change (p_at (be4 x ++ q) 1) with (bz (zb (Z.shiftr x 16))).
  change (p_at (be4 x ++ q) 2) with (bz (zb (Z.shiftr x 8))). change (p_at (be4 x ++ q) 3) with (bz (zb x)).
  rewrite !bz_zb, !Z.shiftr_div_pow2 by lia.
  set (a := (x / 2 ^ 24) mod 256). set (b := (x / 2 ^ 16) mod 256). set (c := (x / 2 ^ 8) mod 256). set (d := x mod 256).
  assert (0 <= a < 256 ∧ 0 <= b < 256 ∧ 0 <= c < 256 ∧ 0 <= d < 256) as (? & ? & ? & ?)
    by (split_and!; apply Z.mod_pos_bound; lia).
  rewrite (lor_shift_add a) by (rewrite ?Z.shiftl_mul_pow2; lia).
  replace (a * 2 ^ 24 + Z.shiftl b 16) with (Z.shiftl (a * 256 + b) 16) by (rewrite !Z.shiftl_mul_pow2; lia).
  rewrite lor_shift_add by (rewrite ?Z.shiftl_mul_pow2; lia).
  replace ((a * 256 + b) * 2 ^ 16 + Z.shiftl c 8) with (Z.shiftl ((a * 256 + b) * 256 + c) 8)
    by (rewrite !Z.shiftl_mul_pow2; lia).
  rewrite lor_shift_add by lia. unfold in32, a, b, c, d in *.
  change (2 ^ 24) with 16777216. change (2 ^ 16) with 65536. change (2 ^ 8) with 256.
  Z.to_euclidean_division_equations. lia.
Qed.

Lemma w_u32_eq v x : w_u32 v x = v ++ be4 x.
Proof. done. Qed.
Lemma r_u32_at v x q : in32 x → r_u32 (rd_at v (be4 x ++ q)) = (x, rd_at (v ++ be4 x) q).
Proof.
  intros Hx. unfold r_u32, rd_at, rd_n, rd_adv. cbn [rd_p rd_pos rd_ok]. rewrite !length_app.
  change (length (be4 x)) with 4%nat. rewrite (proj2 (Z.ltb_ge _ _)) by lia. rewrite rd32_be4 by done.
  do 2 f_equal; [by rewrite app_assoc|lia].
Qed.

Definition be8 (x : Z) : bytes := be4 (u32 (Z.shiftr x 32)) ++ be4 (u32 x).
Lemma w_u64_eq v x : w_u64 v x = v ++ be8 x.
Proof. unfold w_u64, be8. rewrite !w_u32_eq. by rewrite app_assoc. Qed.
Lemma split64 x : in64 x → Z.lor (Z.shiftl (u32 (Z.shiftr x 32)) 32) (u32 x) = x.
Proof.
  intros Hx. rewrite lor_shift_add by (pose proof (u32_range x); word_lia). rewrite Z.shiftr_div_pow2 by lia.
  rewrite (u32_small (x / 2 ^ 32)) by (split; [apply Z.div_pos; word_lia|apply Z.div_lt_upper_bound; word_lia]).
  unfold u32. pose proof (Z.div_mod x (2 ^ 32) ltac:(lia)). lia.
Qed.
Lemma r_u64_at v x q : in64 x → r_u64 (rd_at v (be8 x ++ q)) = (x, rd_at (v ++ be8 x) q).
Proof.
  intros Hx. unfold r_u64, be8. rewrite <- app_assoc, r_u32_at by apply u32_range.
  rewrite r_u32_at by apply u32_range. rewrite split64 by done. by rewrite !app_assoc.
Qed.
Lemma rd64_be8 v x q : in64 x → rd64 (v ++ be8 x ++ q) (Z.of_nat (length v)) = x.
Proof.
  intros Hx. unfold rd64, be8. rewrite <- app_assoc, rd32_be4 by apply u32_range.
  replace (Z.of_nat (length v) + 4) with (Z.of_nat (length (v ++ be4 (u32 (Z.shiftr x 32)))))
    by (rewrite length_app; change (length (be4 _)) with 4%nat; lia).
  rewrite (app_assoc v), rd32_be4 by apply u32_range. by apply split64.
Qed.

Lemma w_fh_eq v id snap : w_fh v id snap = v ++ be4 16 ++ be8 id ++ be8 snap.
Proof. unfold w_fh. rewrite w_u32_eq, !w_u64_eq. by rewrite !app_assoc. Qed.
Lemma r_fh_at v id snap q :
  in64 id → in64 snap →
  r_fh (rd_at v (be4 16 ++ be8 id ++ be8 snap ++ q)) = (Some (id, snap), rd_at (v ++ be4 16 ++ be8 id ++ be8 snap) q).
Proof.
  intros Hi Hs. unfold r_fh. rewrite r_u32_at by word_lia. unfold rd_at, rd_n, rd_adv. cbn [rd_p rd_pos rd_ok negb orb Z.eqb Pos.eqb].
  rewrite (proj2 (Z.ltb_ge _ _)) by (rewrite !length_app; change (length (be8 id)) with 8%nat; change (length (be8 snap)) with 8%nat; lia).
  rewrite rd64_be8 by done.
  replace (Z.of_nat (length (v ++ be4 16)) + 8) with (Z.of_nat (length ((v ++ be4 16) ++ be8 id)))
    by (rewrite (length_app _ (be8 id)); change (length (be8 id)) with 8%nat; lia).
  rewrite (app_assoc _ (be8 id)), rd64_be8 by done.
  do 2 f_equal; [by rewrite !app_assoc|].
  rewrite !length_app. change (length (be8 id)) with 8%nat. change (length (be8 snap)) with 8%nat. change (length (be4 16)) with 4%nat. lia.
Qed.

(** Strings, in a word-aligned stream. *)
Definition pad_str (s : bytes) : bytes := s ++ replicate ((4 - length s mod 4) mod 4) (zb 0).
Lemma w_str_eq v s : (length v mod 4 = 0)%nat → w_str v s = v ++ be4 (u32 (Z.of_nat (length s))) ++ pad_str s.
Proof.
  intros Hv. unfold w_str, w_pad, pad_str. rewrite w_u32_eq, !length_app. change (length (be4 _)) with 4%nat.
  assert ((length v + 4 + length s) mod 4 = length s mod 4)%nat as ->.
  { rewrite <- Nat.Div0.add_mod_idemp_l. replace ((length v + 4) mod 4)%nat with 0%nat; [done|].
    rewrite <- Nat.Div0.add_mod_idemp_l, Hv. done. }
  by rewrite <- !app_assoc.
Qed.
Lemma length_pad_str s : Z.of_nat (length s) <= 2 ^ 32 - 4 → Z.of_nat (length (pad_str s)) = pad_of (Z.of_nat (length s)).
Proof.
  intros Hs. unfold pad_str, pad_of. rewrite length_app, length_replicate, u32_small by word_lia.
  rewrite Nat2Z.inj_add, Nat2Z.inj_mod, Nat2Z.inj_sub by (pose proof (Nat.mod_upper_bound (length s) 4); lia).
  rewrite Nat2Z.inj_mod. change (Z.of_nat 4) with 4. Z.to_euclidean_division_equations. lia.
Qed.
Lemma r_str_at v s q :
  Z.of_nat (length s) <= 2 ^ 32 - 4 →
  r_str (rd_at v (be4 (u32 (Z.of_nat (length s))) ++ pad_str s ++ q)) =
    Some (s, rd_at (v ++ be4 (u32 (Z.of_nat (length s))) ++ pad_str s) q).
Proof.
  intros Hs. unfold r_str. rewrite r_u32_at by apply u32_range. rewrite u32_small by word_lia.
  pose proof (length_pad_str s Hs) as Hp. pose proof (pad_of_ge (Z.of_nat (length s)) ltac:(lia)).
  unfold rd_at, rd_n, rd_adv. cbn [rd_p rd_pos rd_ok negb orb].
  rewrite !(proj2 (Z.ltb_ge _ _)) by (rewrite !length_app in *; lia).
  rewrite Nat2Z.id. rewrite Nat2Z.id, drop_app_length. unfold pad_str at 1. rewrite <- app_assoc, take_app_length.
  do 3 f_equal; [by rewrite !app_assoc|]. rewrite !length_app in *. lia.
Qed.
