(* ===== verification/Nfs3.v ===== *)
(** * Nfs3: the NFSv3 and MOUNT procedures (plugins/nfsv3/nfsv3.cpp)

    Every procedure as a state-passing program over the store, the cursor of
    the call, the reply under construction and the READDIR cookie cache. The
    store changes only through the operations of [Inv.exec]. [None] stands for
    an escaping exception or an access outside a buffer. *)
From S2P Require Import Prelude Keys Kv NodeRec Store Inv Content Di FsStat Host Xdr.
Local Open Scope Z_scope.
Set Warnings "-clear-no-such-hyp".

(** ** Constants *)

Definition RPC_CALL := 0.
Definition RPC_REPLY := 1.
Definition MSG_ACCEPTED := 0.
Definition SUCCESS := 0.
Definition PROG_UNAVAIL := 1.
Definition PROG_MISMATCH := 2.
Definition PROC_UNAVAIL := 3.
Definition GARBAGE_ARGS := 4.
Definition PROG_NFS := 100003.
Definition NFS_V3 := 3.
Definition PROG_MOUNT := 100005.
Definition MOUNT_V3 := 3.
Definition MNT3_OK := 0.
Definition CREATE_GUARDED := 1.
Definition CREATE_EXCLUSIVE := 2.
Definition WRITE_FILE_SYNC := 2.
Definition NF3BLK := 3.
Definition NF3CHR := 4.
Definition NF3SOCK := 6.
Definition NF3FIFO := 7.
Definition SET_TO_SERVER_TIME := 1.
Definition SET_TO_CLIENT_TIME := 2.
Definition MAX_READ := 2 ^ 20.
Definition NFS3_COOKIEVERFSIZE := 8.
Definition PATHCONF_LINKMAX := 0xFFFF.
Definition PATHCONF_NAMEMAX := 255.
Definition NFS3_OK := 0.
Definition NFS3ERR_PERM := 1.
Definition NFS3ERR_NOENT := 2.
Definition NFS3ERR_EXIST := 17.
Definition NFS3ERR_NOTDIR := 20.
Definition NFS3ERR_ISDIR := 21.
Definition NFS3ERR_INVAL := 22.
Definition NFS3ERR_ROFS := 30.
Definition NFS3ERR_NOTEMPTY := 66.
Definition NFS3ERR_STALE := 70.
Definition NFS3ERR_BAD_COOKIE := 10003.
Definition NFS3ERR_BADTYPE := 10007.
Definition CK_DOT := 1.
Definition CK_DOTDOT := 2.
Definition CK_ENTRY := 2 ^ 63.
Definition CK_CACHE_MAX := 2 ^ 16.
(** The numbers of the procedures. *)
Abbreviation NFSPROC3_NULL := 0%Z (only parsing).
Abbreviation NFSPROC3_GETATTR := 1%Z (only parsing).
Abbreviation NFSPROC3_SETATTR := 2%Z (only parsing).
Abbreviation NFSPROC3_LOOKUP := 3%Z (only parsing).
Abbreviation NFSPROC3_ACCESS := 4%Z (only parsing).
Abbreviation NFSPROC3_READLINK := 5%Z (only parsing).
Abbreviation NFSPROC3_READ := 6%Z (only parsing).
Abbreviation NFSPROC3_WRITE := 7%Z (only parsing).
Abbreviation NFSPROC3_CREATE := 8%Z (only parsing).
Abbreviation NFSPROC3_MKDIR := 9%Z (only parsing).
Abbreviation NFSPROC3_SYMLINK := 10%Z (only parsing).
Abbreviation NFSPROC3_MKNOD := 11%Z (only parsing).
Abbreviation NFSPROC3_REMOVE := 12%Z (only parsing).
Abbreviation NFSPROC3_RMDIR := 13%Z (only parsing).
Abbreviation NFSPROC3_RENAME := 14%Z (only parsing).
Abbreviation NFSPROC3_LINK := 15%Z (only parsing).
Abbreviation NFSPROC3_READDIR := 16%Z (only parsing).
Abbreviation NFSPROC3_READDIRPLUS := 17%Z (only parsing).
Abbreviation NFSPROC3_FSSTAT := 18%Z (only parsing).
Abbreviation NFSPROC3_FSINFO := 19%Z (only parsing).
Abbreviation NFSPROC3_PATHCONF := 20%Z (only parsing).
Abbreviation NFSPROC3_COMMIT := 21%Z (only parsing).
Abbreviation MOUNTPROC3_NULL := 0%Z (only parsing).
Abbreviation MOUNTPROC3_MNT := 1%Z (only parsing).
Abbreviation MOUNTPROC3_UMNT := 3%Z (only parsing).
Abbreviation MOUNTPROC3_EXPORT := 5%Z (only parsing).

(** ** Pure helpers *)

Definition viewFileid (id snap : Z) : Z :=
  if snap =? LATEST then id
  else
    let h := Z.lxor id (u64 (snap * 0x9E3779B97F4A7C15)) in
    let h := u64 (Z.lxor h (Z.shiftr h 30) * 0xbf58476d1ce4e5b9) in
    let h := u64 (Z.lxor h (Z.shiftr h 27) * 0x94d049bb133111eb) in
    Z.lor (Z.lxor h (Z.shiftr h 31)) 1.
Definition ftype3 (t : Z) : Z := default 0 ([1; 2; 5; 3; 4; 7; 6] !! Z.to_nat t).
Definition toNfsStat (e : Error) : Z :=
  match e with
  | OK => NFS3_OK | NOENT => NFS3ERR_NOENT | EXIST => NFS3ERR_EXIST | NOTDIR => NFS3ERR_NOTDIR
  | ISDIR => NFS3ERR_ISDIR | NOTEMPTY => NFS3ERR_NOTEMPTY | PERM => NFS3ERR_PERM | INVAL => NFS3ERR_INVAL
  end.
Definition live (snap : Z) : bool := snap =? LATEST.
Definition mixSeed (seed off : Z) (data : bytes) : Z :=
  let h := fold_left (λ h c, u64 (Z.lxor h (bz c) * 0x100000001B3)) data
             (Z.lxor seed (u64 (off + 0x9E3779B97F4A7C15))) in
  if h =? 0 then 1 else h.
Definition pad4 (n : Z) : Z := (n + 3) / 4 * 4.
Definition nameCookie (name : bytes) : Z :=
  Z.lor (fold_left (λ h c, u64 (Z.lxor h (bz c) * 1099511628211)) name 1469598103934665603) CK_ENTRY.
Definition isMutating (proc : Z) : bool :=
  bool_decide (proc ∈ [NFSPROC3_SETATTR; NFSPROC3_WRITE; NFSPROC3_CREATE; NFSPROC3_MKDIR; NFSPROC3_SYMLINK; NFSPROC3_MKNOD;
    NFSPROC3_REMOVE; NFSPROC3_RMDIR; NFSPROC3_RENAME; NFSPROC3_LINK]).

Record PreAttr := mkPre { pa_have : bool; pa_size : Z; pa_mtime : Z; pa_ctime : Z }.
Definition PreAttr0 : PreAttr := mkPre false 0 0 0.
Record DirEnt := mkDirEnt { de_name : bytes; de_cookie : Z; de_node : Handle }.

(** ** State *)

Record NState (M : Type) := mkNs { ns_fs : Store M; ns_rd : Reader; ns_out : bytes; ns_ck : gmap Z bytes }.
Arguments mkNs {M} _ _ _ _.
Arguments ns_fs {M} _.
Arguments ns_rd {M} _.
Arguments ns_out {M} _.
Arguments ns_ck {M} _.

(** The program of a procedure. *)
Definition Proc (M A : Type) : Type := NState M → option (A * NState M).
Global Instance proc_ret M : MRet (Proc M) := λ A x s, Some (x, s).
Global Instance proc_bind M : MBind (Proc M) := λ A B f m s, match m s with Some (x, s') => f x s' | None => None end.

Section Nfs3.
Context {M : Type} `{!KvEngine M}.
(** The registry of the host, the selected provider, the published content
    policy ([g_used]) and the [time-advance] option. *)
Context (reg : Registry Provider) (s_provider : bytes) (g_used : option ContentConfig) (m_advance : bool).
Abbreviation P := (Proc M).
Implicit Types (fs : Store M) (n dir : Handle) (out name : bytes).

(** *** Primitives: the store, the call, the reply *)

Definition fs_get {A} (f : Store M → A) : P A := λ s, Some (f (ns_fs s), s).
Definition fs_op (op : Op) : P Error := λ s,
  let '(e, fs) := exec (ns_fs s) op in Some (e, mkNs fs (ns_rd s) (ns_out s) (ns_ck s)).
(** A creating operation returns the handle of the next id. *)
Definition fs_new (op : Op) : P Handle := λ s,
  Some (mkHandle (m_next (ns_fs s)) LATEST, mkNs (exec (ns_fs s) op).2 (ns_rd s) (ns_out s) (ns_ck s)).
Definition rd {A} (f : Reader → A * Reader) : P A := λ s,
  let '(x, r) := f (ns_rd s) in Some (x, mkNs (ns_fs s) r (ns_out s) (ns_ck s)).
Definition rd_str : P bytes := λ s,
  match r_str (ns_rd s) with Some (x, r) => Some (x, mkNs (ns_fs s) r (ns_out s) (ns_ck s)) | None => None end.
Definition rd_is_ok : P bool := λ s, Some (rd_ok (ns_rd s), s).
Definition wr (f : Store M → bytes → bytes) : P unit := λ s,
  Some (tt, mkNs (ns_fs s) (ns_rd s) (f (ns_fs s) (ns_out s)) (ns_ck s)).
Definition wr_u32 (x : Z) : P unit := wr (λ _ out, w_u32 out (u32 x)).
Definition wr_u64 (x : Z) : P unit := wr (λ _ out, w_u64 out x).

(** *** Encoders *)

Definition usedBytes fs n : Z :=
  match g_used with
  | Some cfg => if n_type fs n =? tcode REG then u64 (allocatedBlocks cfg (n_contentSeed fs n) (n_size fs n) * 512)
                else n_size fs n
  | None => n_size fs n
  end.
Definition encodeFattr fs out n : bytes :=
  let '(maj, min) := if (n_type fs n =? tcode BLK) || (n_type fs n =? tcode CHR) then n_rdev fs n else (0, 0) in
  let out := w_u32 out (ftype3 (n_type fs n)) in
  let out := w_u32 out (n_mode fs n) in
  let out := w_u32 out (n_nlink fs n) in
  let out := w_u32 out (n_uid fs n) in
  let out := w_u32 out (n_gid fs n) in
  let out := w_u64 out (n_size fs n) in
  let out := w_u64 out (usedBytes fs n) in
  let out := w_u32 out maj in
  let out := w_u32 out min in
  let snap := h_snap n in
  let out := w_u64 out (if snap =? LATEST then 0 else snap) in
  let out := w_u64 out (viewFileid (h_id n) snap) in
  let out := w_timeNs out (n_atime fs n) (n_atimeNsec fs n) in
  let out := w_timeNs out (n_mtime fs n) (n_mtimeNsec fs n) in
  w_time out (n_ctime fs n).
Definition encodePostOp fs out (n : option Handle) : bytes :=
  match n with Some n => encodeFattr fs (w_u32 out 1) n | None => w_u32 out 0 end.
Definition preOf fs (n : option Handle) : PreAttr :=
  match n with Some n => mkPre true (n_size fs n) (n_mtime fs n) (n_ctime fs n) | None => PreAttr0 end.
Definition encodePre out (p : PreAttr) : bytes :=
  if pa_have p then w_time (w_time (w_u64 (w_u32 out 1) (pa_size p)) (pa_mtime p)) (pa_ctime p) else w_u32 out 0.
Definition encodeWcc fs out (before : PreAttr) (after : option Handle) : bytes :=
  encodePostOp fs (encodePre out before) after.

Definition wr_fattr n : P unit := wr (λ fs out, encodeFattr fs out n).
Definition wr_postop (n : option Handle) : P unit := wr (λ fs out, encodePostOp fs out n).
Definition wr_wcc (p : PreAttr) (n : option Handle) : P unit := wr (λ fs out, encodeWcc fs out p n).
Definition wr_wcc_now (n : option Handle) : P unit := wr (λ fs out, encodeWcc fs out (preOf fs n) n).
Definition wr_fh (id snap : Z) : P unit := wr (λ _ out, w_fh out id snap).

(** *** Attributes from the call *)

Definition put (a : Attr) n (x : Z) : P unit := _ ← fs_op (OpPut a n x); mret tt.
Definition applyCred (cred : Cred) n : P unit :=
  if cr_sys cred then _ ← put AUid n (cr_uid cred); put AGid n (cr_gid cred) else mret tt.

(** [if (r.u32()) { x = r.u32(); n->attr(x); }]. *)
Definition sattr_opt (read : Reader → Z * Reader) (a : Attr) n : P unit :=
  set ← rd r_u32;
  if set =? 0 then mret tt else x ← rd read; put a n x.
Definition sattr_time (a ans : Attr) n : P unit :=
  how ← rd r_u32;
  if how =? SET_TO_SERVER_TIME then t ← fs_get now; put a n t
  else if how =? SET_TO_CLIENT_TIME then
    sec ← rd r_u32; nsec ← rd r_u32; _ ← put a n sec; put ans n nsec
  else mret tt.
Definition applySattr n : P unit :=
  _ ← sattr_opt r_u32 AMode n;
  _ ← sattr_opt r_u32 AUid n;
  _ ← sattr_opt r_u32 AGid n;
  _ ← sattr_opt r_u64 ASize n;
  _ ← sattr_time AAtime AAtimeNs n;
  sattr_time AMtime AMtimeNs n.

Definition touchDir dir : P unit := t ← fs_get now; _ ← put AMtime dir t; put ACtime dir t.

(** *** Read-only procedures *)

(** [if (!r.fh(id, snap)) return GARBAGE_ARGS]. *)
Definition with_fh (k : Z → Z → P Z) : P Z :=
  h ← rd r_fh;
  match h with Some (id, snap) => k id snap | None => mret GARBAGE_ARGS end.
(** [if (!r.ok) return GARBAGE_ARGS]. *)
Definition if_ok (k : P Z) : P Z := ok ← rd_is_ok; if (ok : bool) then k else mret GARBAGE_ARGS.
(** [Node n = nodeById(id, snap); if (!n) { w.u32(NFS3ERR_STALE); return SUCCESS; }]. *)
Definition with_node (id snap : Z) (k : Handle → P Z) : P Z :=
  n ← fs_get (λ fs, nodeById fs id snap);
  match n with Some n => k n | None => _ ← wr_u32 NFS3ERR_STALE; mret SUCCESS end.
(** A status, then the attributes of [n]. *)
Definition fail_attr (st : Z) n : P Z := _ ← wr_u32 st; _ ← wr_postop (Some n); mret SUCCESS.

Definition nfsGetattr : P Z := with_fh (λ id snap, with_node id snap (λ n,
  _ ← wr_u32 NFS3_OK; _ ← wr_fattr n; mret SUCCESS)).

Definition nfsReadlink : P Z := with_fh (λ id snap, with_node id snap (λ n,
  ty ← fs_get (λ fs, n_type fs n);
  if negb (ty =? tcode LNK) then fail_attr NFS3ERR_INVAL n
  else
    _ ← wr_u32 NFS3_OK; _ ← wr_postop (Some n);
    _ ← wr (λ fs out, w_str out (n_target fs n)); mret SUCCESS)).

Definition nfsLookup : P Z := with_fh (λ id snap,
  name ← rd_str;
  if_ok (with_node id snap (λ dir,
    ty ← fs_get (λ fs, n_type fs dir);
    if negb (ty =? tcode DIR) then fail_attr NFS3ERR_NOTDIR dir
    else
      child ← fs_get (λ fs, lookup_ fs dir name);
      match child with
      | None => fail_attr NFS3ERR_NOENT dir
      | Some child =>
          _ ← wr_u32 NFS3_OK; _ ← wr_fh (h_id child) (h_snap child);
          _ ← wr_postop (Some child); _ ← wr_postop (Some dir); mret SUCCESS
      end))).

Definition nfsAccess : P Z := with_fh (λ id snap,
  want ← rd r_u32;
  if_ok (with_node id snap (λ n,
    _ ← wr_u32 NFS3_OK; _ ← wr_postop (Some n); _ ← wr_u32 want; mret SUCCESS))).

(** [m_host.read] into a buffer of [cnt] zero bytes. *)
Definition host_read_into n (off cnt : Z) : P (Z * bytes) := λ s,
  match host_read reg s_provider (ns_fs s) n off (replicate (Z.to_nat cnt) (zb 0)) cnt with
  | Some r => Some (r, s)
  | None => None
  end.
Definition nfsRead : P Z := with_fh (λ id snap,
  off ← rd r_u64; cnt ← rd r_u32;
  if_ok (with_node id snap (λ n,
    ty ← fs_get (λ fs, n_type fs n);
    if ty =? tcode DIR then fail_attr NFS3ERR_ISDIR n
    else if negb (ty =? tcode REG) then fail_attr NFS3ERR_INVAL n
    else
      let cnt := if MAX_READ <? cnt then MAX_READ else cnt in
      '(got, buf) ← host_read_into n off cnt;
      size ← fs_get (λ fs, n_size fs n);
      let eof := size <=? u64 (off + got) in
      _ ← wr_u32 NFS3_OK; _ ← wr_postop (Some n); _ ← wr_u32 got; _ ← wr_u32 (if eof then 1 else 0);
      _ ← wr (λ _ out, w_opaque out (take (Z.to_nat got) buf)); mret SUCCESS))).

(** *** Directory pages *)

Definition ck_get : P (gmap Z bytes) := λ s, Some (ns_ck s, s).
Definition rememberCookie (ck : Z) name : P unit := λ s,
  let m := if CK_CACHE_MAX <=? Z.of_nat (size (ns_ck s)) then ∅ else ns_ck s in
  Some (tt, mkNs (ns_fs s) (ns_rd s) (ns_out s) (<[ck := name]> m)).

(** The scan of [resumeName]; every page but the last is non-empty, so the
    number of entries bounds the rounds. *)
Fixpoint resume_scan (fuel : nat) fs dir (ck : Z) (after : bytes) : option (option bytes) :=
  match fuel with
  | O => None
  | S fuel' =>
      let pg := readdirPage fs dir after 256 in
      match list_find (λ e, nameCookie e.1 = ck) (pg_entries pg) with
      | Some (_, e) => Some (Some e.1)
      | None => if bool_decide (pg_entries pg = []) || pg_eof pg then Some None
                else resume_scan fuel' fs dir ck (pg_cookie pg)
      end
  end.
Definition page_fuel fs dir : nat := S (length (readdir fs dir)).
Definition resumeName dir (ck : Z) : P (option bytes) := λ s,
  match ns_ck s !! ck with
  | Some name => Some (Some name, s)
  | None => match resume_scan (page_fuel (ns_fs s) dir) (ns_fs s) dir ck [] with
            | Some r => Some (r, s)
            | None => None
            end
  end.

(** [fits]: the budget after one more entry, if it stays within [maxBytes]. *)
Definition fits (maxBytes perEntry budget : Z) name : option Z :=
  let budget' := budget + (4 + 8 + 4 + pad4 (Z.of_nat (length name)) + 8 + perEntry) in
  if maxBytes <? budget' then None else Some budget'.
(** One page's entries: [None] for the budget when it is reached. *)
Fixpoint page_entries (maxBytes perEntry budget : Z) (ents : list (bytes * Handle)) (acc : list DirEnt)
    : P (list DirEnt * option Z) :=
  match ents with
  | [] => mret (acc, Some budget)
  | (name, node) :: ents' =>
      match fits maxBytes perEntry budget name with
      | None => mret (acc, None)
      | Some budget' =>
          _ ← rememberCookie (nameCookie name) name;
          page_entries maxBytes perEntry budget' ents' (acc ++ [mkDirEnt name (nameCookie name) node])
      end
  end.
Fixpoint page_loop3 (fuel : nat) dir (maxBytes perEntry budget : Z) (after : bytes) (acc : list DirEnt)
    : P (list DirEnt * bool) :=
  match fuel with
  | O => λ _, None
  | S fuel' =>
      pg ← fs_get (λ fs, readdirPage fs dir after 512);
      '(acc, b) ← page_entries maxBytes perEntry budget (pg_entries pg) acc;
      match b with
      | None => mret (acc, false)
      | Some budget =>
          if bool_decide (pg_entries pg = []) || pg_eof pg then mret (acc, true)
          else page_loop3 fuel' dir maxBytes perEntry budget (pg_cookie pg) acc
      end
  end.
(** [pageDir]: status, entries, eof. *)
Definition pageDir dir (cookie maxBytes perEntry : Z) : P (Z * list DirEnt * bool) :=
  match (if cookie <? CK_DOT then fits maxBytes perEntry 128 (str ".") else Some 128) with
  | None => mret (NFS3_OK, [], false)
  | Some budget =>
    let acc := if cookie <? CK_DOT then [mkDirEnt (str ".") CK_DOT dir] else [] in
    match (if cookie <? CK_DOTDOT then fits maxBytes perEntry budget (str "..") else Some budget) with
    | None => mret (NFS3_OK, acc, false)
    | Some budget =>
      ps ← fs_get (λ fs, parents fs dir);
      let acc := if cookie <? CK_DOTDOT
                 then acc ++ [mkDirEnt (str "..") CK_DOTDOT (default dir (head ps))] else acc in
      rn ← (if Z.land cookie CK_ENTRY =? 0 then mret (Some []) else resumeName dir cookie);
      match rn with
      | None => mret (NFS3ERR_BAD_COOKIE, acc, false)
      | Some after =>
          fuel ← fs_get (λ fs, page_fuel fs dir);
          '(acc, eof) ← page_loop3 fuel dir maxBytes perEntry budget after acc;
          mret (NFS3_OK, acc, eof)
      end
    end
  end.

Definition wr_entries (one : Store M → bytes → DirEnt → bytes) (ents : list DirEnt) (eof : bool) : P unit :=
  wr (λ fs out, w_u32 (w_u32 (fold_left (one fs) ents out) 0) (if eof then 1 else 0)).
Definition entry3 (fs : Store M) (out : bytes) (e : DirEnt) : bytes :=
  w_u64 (w_str (w_u64 (w_u32 out 1) (viewFileid (h_id (de_node e)) (h_snap (de_node e)))) (de_name e)) (de_cookie e).
Definition entryplus3 (fs : Store M) (out : bytes) (e : DirEnt) : bytes :=
  w_fh (w_u32 (encodePostOp fs (entry3 fs out e) (Some (de_node e))) 1) (h_id (de_node e)) (h_snap (de_node e)).
Definition readdir_body dir (cookie maxBytes perEntry : Z) (one : Store M → bytes → DirEnt → bytes) : P Z :=
  ty ← fs_get (λ fs, n_type fs dir);
  if negb (ty =? tcode DIR) then fail_attr NFS3ERR_NOTDIR dir
  else
    '(st, ents, eof) ← pageDir dir cookie maxBytes perEntry;
    if negb (st =? NFS3_OK) then fail_attr st dir
    else
      _ ← wr_u32 NFS3_OK; _ ← wr_postop (Some dir); _ ← wr_u32 0; _ ← wr_u32 0;
      _ ← wr_entries one ents eof; mret SUCCESS.

Definition nfsReaddir : P Z := with_fh (λ id snap,
  cookie ← rd r_u64; _ ← rd (λ r, (tt, r_skip r NFS3_COOKIEVERFSIZE)); count ← rd r_u32;
  if_ok (with_node id snap (λ dir, readdir_body dir cookie count 0 entry3))).
Definition nfsReaddirPlus : P Z := with_fh (λ id snap,
  cookie ← rd r_u64; _ ← rd (λ r, (tt, r_skip r NFS3_COOKIEVERFSIZE)); _ ← rd r_u32; maxcount ← rd r_u32;
  if_ok (with_node id snap (λ dir, readdir_body dir cookie maxcount (88 + 24) entryplus3))).

(** *** Volume information *)

Definition nfsFsstat : P Z := with_fh (λ id snap, with_node id snap (λ n,
  st ← fs_get (λ fs, fsStat_store fs FsConfig0 snap);
  _ ← wr_u32 NFS3_OK; _ ← wr_postop (Some n);
  _ ← wr_u64 (fs_tbytes st); _ ← wr_u64 (fs_fbytes st); _ ← wr_u64 (fs_abytes st);
  _ ← wr_u64 (fs_tfiles st); _ ← wr_u64 (fs_ffiles st); _ ← wr_u64 (fs_afiles st);
  _ ← wr_u32 (fs_invarsec st); mret SUCCESS)).
Definition nfsFsinfo : P Z := with_fh (λ id snap, with_node id snap (λ n,
  let fi := fsInfo FsConfig0 in
  _ ← wr_u32 NFS3_OK; _ ← wr_postop (Some n);
  _ ← wr_u32 (fi_rtmax fi); _ ← wr_u32 (fi_rtpref fi); _ ← wr_u32 (fi_rtmult fi);
  _ ← wr_u32 (fi_wtmax fi); _ ← wr_u32 (fi_wtpref fi); _ ← wr_u32 (fi_wtmult fi);
  _ ← wr_u32 (fi_dtpref fi); _ ← wr_u64 (fi_maxfilesize fi);
  _ ← wr_u32 (fi_timeDeltaSec fi); _ ← wr_u32 (fi_timeDeltaNsec fi); _ ← wr_u32 (fi_properties fi); mret SUCCESS)).
Definition nfsPathconf : P Z := with_fh (λ id snap, with_node id snap (λ n,
  _ ← wr_u32 NFS3_OK; _ ← wr_postop (Some n);
  _ ← wr_u32 PATHCONF_LINKMAX; _ ← wr_u32 PATHCONF_NAMEMAX;
  _ ← wr_u32 1; _ ← wr_u32 1; _ ← wr_u32 0; _ ← wr_u32 1; mret SUCCESS)).

(** *** Mutating procedures *)

(** As [with_node], where the failure carries an empty [wcc_data]. *)
Definition with_node_wcc (id snap : Z) (k : Handle → P Z) : P Z :=
  n ← fs_get (λ fs, nodeById fs id snap);
  match n with
  | Some n => k n
  | None => _ ← wr_u32 NFS3ERR_STALE; _ ← wr_wcc PreAttr0 None; mret SUCCESS
  end.
(** A status, then the current [wcc_data] of [n]. *)
Definition fail_wcc (st : Z) n : P Z := _ ← wr_u32 st; _ ← wr_wcc_now (Some n); mret SUCCESS.

Definition nfsSetattr : P Z := with_fh (λ id snap, with_node_wcc id snap (λ n,
  if negb (live snap) then fail_wcc NFS3ERR_ROFS n
  else
    pre ← fs_get (λ fs, preOf fs (Some n));
    _ ← applySattr n;
    guard ← rd r_u32;
    _ ← (if guard =? 0 then mret tt else _ ← rd r_u32; _ ← rd r_u32; mret tt);
    t ← fs_get now; _ ← put ACtime n t;
    _ ← wr_u32 NFS3_OK; _ ← wr_wcc pre (Some n); mret SUCCESS)).

Definition nfsWrite : P Z := with_fh (λ id snap,
  off ← rd r_u64; _ ← rd r_u32; _ ← rd r_u32; data ← rd_str;
  if_ok (with_node_wcc id snap (λ n,
    ty ← fs_get (λ fs, n_type fs n);
    if negb (ty =? tcode REG) then fail_wcc NFS3ERR_INVAL n
    else if negb (live snap) then fail_wcc NFS3ERR_ROFS n
    else
      pre ← fs_get (λ fs, preOf fs (Some n));
      seed ← fs_get (λ fs, n_contentSeed fs n);
      _ ← fs_op (OpSetSeed n (mixSeed seed off data));
      size ← fs_get (λ fs, n_size fs n);
      let end_ := u64 (off + Z.of_nat (length data)) in
      _ ← (if size <? end_ then put ASize n end_ else mret tt);
      t ← fs_get now; _ ← put AMtime n t;
      _ ← wr_u32 NFS3_OK; _ ← wr_wcc pre (Some n); _ ← wr_u32 (Z.of_nat (length data));
      _ ← wr_u32 WRITE_FILE_SYNC; _ ← wr_u32 0; _ ← wr_u32 0; mret SUCCESS))).

(** The shared preamble: [None] when it has already answered (or found the
    arguments garbage, which every caller ignores). *)
Definition diropParent : P (option (Handle * PreAttr * bytes)) :=
  h ← rd r_fh;
  match h with
  | None => mret None
  | Some (id, snap) =>
      name ← rd_str;
      ok ← rd_is_ok;
      if negb ok then mret None
      else
        dir ← fs_get (λ fs, nodeById fs id snap);
        match dir with
        | None => _ ← wr_u32 NFS3ERR_STALE; _ ← wr_wcc PreAttr0 None; mret None
        | Some dir =>
            ty ← fs_get (λ fs, n_type fs dir);
            if negb (ty =? tcode DIR) then _ ← fail_wcc NFS3ERR_NOTDIR dir; mret None
            else if negb (live snap) then _ ← fail_wcc NFS3ERR_ROFS dir; mret None
            else pre ← fs_get (λ fs, preOf fs (Some dir)); mret (Some (dir, pre, name))
        end
  end.
(** [if (diropParent(...) != NFS3_OK) return SUCCESS]. *)
Definition with_parent (k : Handle → PreAttr → bytes → P Z) : P Z :=
  p ← diropParent;
  match p with Some (dir, pre, name) => k dir pre name | None => mret SUCCESS end.

Definition wr_new_object (child : Handle) (pre : PreAttr) dir : P unit :=
  _ ← wr_u32 1; _ ← wr_fh (h_id child) LATEST; _ ← wr_postop (Some child); wr_wcc pre (Some dir).
Definition finishCreate dir (pre : PreAttr) name (child : Handle) : P Z :=
  e ← fs_op (OpLink dir name child);
  if negb (bool_decide (e = OK)) then _ ← wr_u32 (toNfsStat e); _ ← wr_wcc pre (Some dir); mret SUCCESS
  else _ ← touchDir dir; _ ← wr_u32 NFS3_OK; _ ← wr_new_object child pre dir; mret SUCCESS.

Definition nfsCreate (cred : Cred) : P Z := with_parent (λ dir pre name,
  mode ← rd r_u32;
  if_ok (
    existing ← fs_get (λ fs, lookup_ fs dir name);
    let attrs_from n := if mode =? CREATE_EXCLUSIVE then rd (λ r, (tt, r_skip r 8)) else applySattr n in
    match existing with
    | Some existing =>
        if mode =? CREATE_GUARDED then _ ← wr_u32 NFS3ERR_EXIST; _ ← wr_wcc pre (Some dir); mret SUCCESS
        else _ ← attrs_from existing; _ ← wr_u32 NFS3_OK; _ ← wr_new_object existing pre dir; mret SUCCESS
    | None =>
        child ← fs_new (OpMkfile []);
        _ ← applyCred cred child; _ ← attrs_from child;
        finishCreate dir pre name child
    end)).
Definition nfsMkdir (cred : Cred) : P Z := with_parent (λ dir pre name,
  child ← fs_new OpMkdir;
  _ ← applyCred cred child; _ ← applySattr child;
  finishCreate dir pre name child).
Definition nfsSymlink (cred : Cred) : P Z := with_parent (λ dir pre name,
  child ← fs_new (OpSymlink []);
  _ ← applyCred cred child; _ ← applySattr child;
  target ← rd_str;
  if_ok (_ ← fs_op (OpSetTarget child target); finishCreate dir pre name child)).
Definition nfsMknod (cred : Cred) : P Z := with_parent (λ dir pre name,
  type ← rd r_u32;
  if (type =? NF3BLK) || (type =? NF3CHR) then
    child ← fs_new (OpMknod (if type =? NF3BLK then BLK else CHR) 0 0);
    _ ← applyCred cred child; _ ← applySattr child;
    maj ← rd r_u32; min ← rd r_u32;
    _ ← fs_op (OpSetRdev child maj min);
    finishCreate dir pre name child
  else if (type =? NF3FIFO) || (type =? NF3SOCK) then
    child ← fs_new (if type =? NF3FIFO then OpMkfifo else OpMksock);
    _ ← applyCred cred child; _ ← applySattr child;
    finishCreate dir pre name child
  else _ ← wr_u32 NFS3ERR_BADTYPE; _ ← wr_wcc pre (Some dir); mret SUCCESS).

Definition nfsRemove : P Z := with_parent (λ dir pre name,
  e ← fs_op (OpUnlink dir name);
  _ ← (if bool_decide (e = OK) then touchDir dir else mret tt);
  _ ← wr_u32 (toNfsStat e); _ ← wr_wcc pre (Some dir); mret SUCCESS).
Definition nfsRmdir : P Z := with_parent (λ dir pre name,
  child ← fs_get (λ fs, lookup_ fs dir name);
  st ← match child with
       | None => mret NFS3ERR_NOENT
       | Some child =>
           ty ← fs_get (λ fs, n_type fs child);
           ents ← fs_get (λ fs, readdir fs child);
           if negb (ty =? tcode DIR) then mret NFS3ERR_NOTDIR
           else if negb (bool_decide (ents = [])) then mret NFS3ERR_NOTEMPTY
           else
             e ← fs_op (OpUnlink dir name);
             _ ← (if bool_decide (e = OK) then touchDir dir else mret tt);
             mret (toNfsStat e)
       end;
  _ ← wr_u32 st; _ ← wr_wcc pre (Some dir); mret SUCCESS).

Definition nfsRename : P Z := with_fh (λ fid fsnap,
  fromName ← rd_str;
  with_fh (λ tid tsnap,
    toName ← rd_str;
    if_ok (
      fromDir ← fs_get (λ fs, nodeById fs fid fsnap);
      toDir ← fs_get (λ fs, nodeById fs tid tsnap);
      match fromDir, toDir with
      | Some fromDir, Some toDir =>
          fpre ← fs_get (λ fs, preOf fs (Some fromDir));
          tpre ← fs_get (λ fs, preOf fs (Some toDir));
          st ← (if live fsnap && live tsnap then
                  e ← fs_op (OpMove fromDir fromName toDir toName);
                  _ ← (if bool_decide (e = OK) then _ ← touchDir fromDir; touchDir toDir else mret tt);
                  mret (toNfsStat e)
                else mret NFS3ERR_ROFS);
          _ ← wr_u32 st; _ ← wr_wcc fpre (Some fromDir); _ ← wr_wcc tpre (Some toDir); mret SUCCESS
      | _, _ =>
          _ ← wr_u32 NFS3ERR_STALE; _ ← wr_wcc_now fromDir; _ ← wr_wcc_now toDir; mret SUCCESS
      end))).

Definition nfsLink : P Z := with_fh (λ fid fsnap, with_fh (λ did dsnap,
  name ← rd_str;
  if_ok (
    file ← fs_get (λ fs, nodeById fs fid fsnap);
    dir ← fs_get (λ fs, nodeById fs did dsnap);
    match file, dir with
    | Some file, Some dir =>
        pre ← fs_get (λ fs, preOf fs (Some dir));
        st ← (if live dsnap then e ← fs_op (OpLink dir name file); mret (toNfsStat e) else mret NFS3ERR_ROFS);
        _ ← (if st =? NFS3_OK then touchDir dir else mret tt);
        _ ← wr_u32 st; _ ← wr_postop (Some file); _ ← wr_wcc pre (Some dir); mret SUCCESS
    | _, _ =>
        _ ← wr_u32 NFS3ERR_STALE; _ ← wr_postop file; _ ← wr_wcc_now dir; mret SUCCESS
    end))).

Definition nfsCommit : P Z := with_fh (λ id snap,
  _ ← rd r_u64; _ ← rd r_u32;
  with_node_wcc id snap (λ n,
    _ ← wr_u32 NFS3_OK; _ ← wr_wcc_now (Some n); _ ← wr_u32 0; _ ← wr_u32 0; mret SUCCESS)).

(** *** Dispatch *)

Definition nfsCall (proc : Z) (cred : Cred) : P Z :=
  match proc with
  | NFSPROC3_NULL => mret SUCCESS
  | NFSPROC3_GETATTR => nfsGetattr
  | NFSPROC3_SETATTR => nfsSetattr
  | NFSPROC3_LOOKUP => nfsLookup
  | NFSPROC3_ACCESS => nfsAccess
  | NFSPROC3_READLINK => nfsReadlink
  | NFSPROC3_READ => nfsRead
  | NFSPROC3_WRITE => nfsWrite
  | NFSPROC3_CREATE => nfsCreate cred
  | NFSPROC3_MKDIR => nfsMkdir cred
  | NFSPROC3_SYMLINK => nfsSymlink cred
  | NFSPROC3_MKNOD => nfsMknod cred
  | NFSPROC3_REMOVE => nfsRemove
  | NFSPROC3_RMDIR => nfsRmdir
  | NFSPROC3_RENAME => nfsRename
  | NFSPROC3_LINK => nfsLink
  | NFSPROC3_READDIR => nfsReaddir
  | NFSPROC3_READDIRPLUS => nfsReaddirPlus
  | NFSPROC3_FSSTAT => nfsFsstat
  | NFSPROC3_FSINFO => nfsFsinfo
  | NFSPROC3_PATHCONF => nfsPathconf
  | NFSPROC3_COMMIT => nfsCommit
  | _ => mret PROC_UNAVAIL
  end.

Definition mountMnt : P Z :=
  _ ← rd_str;
  if_ok (
    root ← fs_get rwRoot;
    _ ← wr_u32 MNT3_OK; _ ← wr_fh (h_id root) LATEST; _ ← wr_u32 2; _ ← wr_u32 0; _ ← wr_u32 1; mret SUCCESS).
Definition mountUmnt : P Z := _ ← rd_str; if_ok (mret SUCCESS).
Definition mountExport : P Z :=
  _ ← wr_u32 1; _ ← wr (λ _ out, w_str out (str "/")); _ ← wr_u32 0; _ ← wr_u32 0; mret SUCCESS.
Definition mountCall (proc : Z) : P Z :=
  match proc with
  | MOUNTPROC3_NULL => mret SUCCESS
  | MOUNTPROC3_MNT => mountMnt
  | MOUNTPROC3_UMNT => mountUmnt
  | MOUNTPROC3_EXPORT => mountExport
  | _ => mret PROC_UNAVAIL
  end.

Definition dispatch_run (prog vers proc : Z) (cred : Cred) : P Z :=
  if prog =? PROG_NFS then (if vers =? NFS_V3 then nfsCall proc cred else mret PROG_MISMATCH)
  else if prog =? PROG_MOUNT then (if vers =? MOUNT_V3 then mountCall proc else mret PROG_MISMATCH)
  else mret PROG_UNAVAIL.
Definition dispatch (prog vers proc : Z) (cred : Cred) : P Z :=
  if (prog =? PROG_NFS) && isMutating proc then
    st ← dispatch_run prog vers proc cred;
    _ ← (if m_advance then t ← fs_get now; _ ← fs_op (OpSetTime (u64 (t + 1))); mret tt else mret tt);
    mret st
  else dispatch_run prog vers proc cred.

(** [reply]: the record-marked accepted reply; the store and the cookie cache
    go on to the next call. *)
Definition reply_frame (xid astat : Z) (result : bytes) : bytes :=
  let rep := w_u32 (w_u32 (w_u32 (w_u32 (w_u32 (w_u32 [] xid) RPC_REPLY) MSG_ACCEPTED) 0) 0) astat in
  let rep := if astat =? PROG_MISMATCH then w_u32 (w_u32 rep NFS_V3) NFS_V3 else rep in
  let rep := rep ++ result in
  w_u32 [] (Z.lor 0x80000000 (u32 (Z.of_nat (length rep)))) ++ rep.

Inductive Outcome := Closed | Replied (frame : bytes).
(** One round of [session]: the record mark and the message it announces.
    [None] stands for an access outside a buffer or an escaping exception, of
    which nothing is said. *)
Definition session_step fs (ck : gmap Z bytes) (mark : Z) (msg : bytes)
    : option (Outcome * Store M * gmap Z bytes) :=
  let len := Z.land mark 0x7fffffff in
  if (len <? 24) || (2 ^ 20 <? len) then Some (Closed, fs, ck)
  else
    let r := mkReader msg 0 true in
    let '(xid, r) := r_u32 r in
    let '(mtype, r) := r_u32 r in
    if negb (mtype =? RPC_CALL) then Some (Closed, fs, ck)
    else
      let '(_, r) := r_u32 r in
      let '(prog, r) := r_u32 r in
      let '(vers, r) := r_u32 r in
      let '(proc, r) := r_u32 r in
      let '(cred, r) := readCred r in
      let r := r_skipAuth r in
      match dispatch prog vers proc cred (mkNs fs r [] ck) with
      | Some (astat, s) => Some (Replied (reply_frame xid astat (ns_out s)), ns_fs s, ns_ck s)
      | None => None
      end.
End Nfs3.
