(* ===== verification/NfsSteps.v ===== *)
(** * NfsSteps: a program logic for the NFSv3 procedures

    A procedure moves the store by a bounded sequence of in-range operations
    ([steps]); [hoare k p Φ] says so for at most [k] operations and bounds the
    result by [Φ]. A store with room for [k] operations can run them. *)
From S2P Require Import Prelude Keys Kv NodeRec Spec Store Views Shape Graph Links Inv Init Reads Di Content Host Xdr StoreProps Nfs3.
Local Open Scope Z_scope.
Set Warnings "-clear-no-such-hyp".

(** ** Room *)

(** Operations of the front-ends whose arguments are in range. *)
Definition op_args (op : Op) : Prop :=
  match op with
  | OpMknod _ maj min => in32 maj ∧ in32 min
  | OpLink d _ c => in64 (h_id d) ∧ in64 (h_id c)
  | OpUnlink d _ => in64 (h_id d)
  | OpMove sd _ dd _ => in64 (h_id sd) ∧ in64 (h_id dd)
  | OpSetContent h _ | OpSetTarget h _ => in64 (h_id h)
  | OpSetRdev h maj min => in64 (h_id h) ∧ in32 maj ∧ in32 min
  | OpSetSeed h seed => in64 (h_id h) ∧ in64 seed
  | OpPut a h x => in64 (h_id h) ∧ attr_ok a x
  | OpSetTime t => in64 t
  | OpMkdir | OpMkfile _ | OpSymlink _ | OpMkfifo | OpMksock => True
  | OpSetConfig _ | OpSnapshot _ => False
  end.

(** Ids and link counts leave room for [k] more operations. *)
Definition fs_slack (k : Z) (s : FS) : Prop :=
  k < 2 ^ 32 ∧ f_next s + k <= 2 ^ 63 ∧
  ∀ c r, in64 c → v_attr (f_now s) c = Some r → 0 <= r_nlink r ∧ r_nlink r + k < 2 ^ 32.
Lemma fs_slack_equiv k s s' : s ≡ s' → fs_slack k s → fs_slack k s'.
Proof.
  intros (_ & En & _ & Ev & _) (Hk & Hn & Hr). split_and!; [done|by rewrite <- En|].
  intros c r Hc. rewrite <- (proj1 (Ev c Hc)). by apply Hr.
Qed.
Lemma fs_slack_le k k' s : k' <= k → fs_slack k s → fs_slack k' s.
Proof. intros Hle (? & ? & Hr). split_and!; [lia..|]. intros c r Hc Hc'. specialize (Hr c r Hc Hc'). lia. Qed.

(** A view whose link counts are at most one higher. *)
Definition one_more (v w : View) : Prop :=
  ∀ c r', in64 c → v_attr w c = Some r' → ∃ r, v_attr v c = Some r ∧
    (0 <= r_nlink r < 2 ^ 32 - 1 → 0 <= r_nlink r' <= r_nlink r + 1).
Lemma one_more_refl v : one_more v v.
Proof. intros c r ? ?. exists r. split; [done|lia]. Qed.
Lemma one_more_update v f id :
  (∀ r, 0 <= r_nlink r < 2 ^ 32 - 1 → 0 <= r_nlink (f r) <= r_nlink r + 1) → one_more v (v_update f id v).
Proof.
  intros Hf c r' _. simpl. case_decide; [|intros; exists r'; split; [done|lia]].
  intros (r & Hr & ->)%fmap_Some. eauto.
Qed.
Lemma inc_nlink_one r : 0 <= r_nlink r < 2 ^ 32 - 1 → r_nlink (inc_nlink r) = r_nlink r + 1.
Proof. intros. unfold inc_nlink. destruct r; simpl in *. apply u32_small. word_lia. Qed.
Lemma dec_nlink_le r : 0 <= r_nlink r → 0 <= r_nlink (dec_nlink r) <= r_nlink r.
Proof. intros. unfold dec_nlink. destruct (Z.eqb_spec (r_nlink r) 0); destruct r; simpl in *; lia. Qed.
Lemma one_more_link v d n c : one_more v (v_link d n c v).
Proof. intros. apply (one_more_update (v_set_ent d n (Some c) v)). intros r Hr. rewrite inc_nlink_one by done. lia. Qed.
Lemma one_more_unlink v d n c : one_more v (v_unlink d n c v).
Proof. apply (one_more_update (v_set_ent d n None v)). intros r Hr. pose proof (dec_nlink_le r). lia. Qed.
Lemma one_more_move v sd sn dd dn c : one_more v (v_unlink sd sn c (v_link dd dn c v)).
Proof.
  intros x r' Hx. simpl. case_decide as E; [subst x|intros; exists r'; split; [done|lia]].
  rewrite <- option_fmap_compose. intros (r & Hr & ->)%fmap_Some. exists r. split; [done|]. intros Hn. simpl.
  pose proof (inc_nlink_one r Hn). pose proof (dec_nlink_le (inc_nlink r)). lia.
Qed.
Lemma one_more_typed v id ok f e w :
  (∀ r, r_nlink (f r) = r_nlink r) → typed_res v id ok f e w → one_more v w.
Proof.
  intros Hf. destruct 1; [apply one_more_refl..|]. apply one_more_update. intros r' ?. rewrite Hf. lia.
Qed.
Lemma one_more_linkres v d n c e w : link_res v d n c e w → one_more v w.
Proof. destruct 1; first [apply one_more_refl|apply one_more_link]. Qed.

Lemma fs_slack_more k s v : 0 <= k → fs_slack (k + 1) s → one_more (f_now s) v → fs_slack k (set_now v s).
Proof.
  intros Hk (? & ? & Hr) Hm. split_and!; [lia|simpl; lia|]. intros c r' Hc Hr'.
  destruct (Hm c r' Hc Hr') as (r & Hr0 & Hle). specialize (Hr c r Hc Hr0). lia.
Qed.
Lemma fs_slack_create k s ty blob spec : 0 <= k → fs_slack (k + 1) s → fs_slack k (fs_create ty blob spec s).
Proof.
  intros Hk (? & ? & Hr). split_and!; [lia|simpl; lia|]. intros c r Hc. simpl.
  case_decide; [intros [= <-]; simpl; lia|]. intros Hr'. specialize (Hr c r Hc Hr'). lia.
Qed.

(** One operation uses one unit of room, and takes no snapshot. *)
Lemma fs_step_slack k s op e s' :
  0 <= k → op_args op → fs_step s op e s' → fs_slack (k + 1) s → fs_slack k s' ∧ f_cur s' = f_cur s.
Proof.
  intros Hk Ha Hs Hsl. split.
  - destruct Hs; simpl in Ha; try done; try (by apply fs_slack_create); try apply fs_slack_more; try done.
    + by eapply one_more_linkres.
    + match goal with H : unlink_res _ _ _ _ _ |- _ => destruct H end; [apply one_more_refl|apply one_more_unlink].
    + match goal with H : move_res _ _ _ _ _ _ _ |- _ => destruct H end; [apply one_more_refl| |apply one_more_move].
      by eapply one_more_linkres.
    + eapply one_more_typed; [|done]. by intros [].
    + eapply one_more_typed; [|done]. by intros [].
    + eapply one_more_typed; [|done]. by intros [].
    + eapply one_more_typed; [|done]. by intros [].
    + apply one_more_update. intros r ?. destruct a, r; simpl in *; lia.
    + apply one_more_refl.
  - by destruct Hs.
Qed.

Section Steps.
Context {M : Type} `{!KvEngine M}.
Implicit Types (st fs : Store M).

Definition room (k : Z) st : Prop := fs_slack k (abs st).
Lemma room_le k k' st : k' <= k → room k st → room k' st.
Proof. apply fs_slack_le. Qed.

Lemma op_args_ok st op : inv st → room 1 st → op_args op → op_ok st op.
Proof.
  intros I (_ & Hn & Hr) Ha. pose proof (i_tree _ I) as T. simpl in Hn.
  assert (∀ c, in64 c → nlink_room (m_cur st) (m_kv st) c) as Hroom.
  { intros c Hc r Hl. specialize (Hr c (attrs r) Hc). simpl in Hr. rewrite Hl in Hr.
    specialize (Hr eq_refl). destruct r; simpl in *; lia. }
  destruct op; simpl in *; try done; try intuition.
  match goal with He : ent _ _ _ _ = Some ?c |- _ => apply Hroom;
    by eapply (gr_ent _ (tr_graph _ _ _ T) (h_id sd) sn c) end.
Qed.

(** The store moved by a sequence of at most [k] operations, each applied
    within its precondition. *)
Definition steps (k : Z) st st' : Prop :=
  ∃ ops, Z.of_nat (length ops) <= k ∧ Forall op_args ops ∧ run_ok st ops = true ∧ st' = run st ops.

Lemma run_app st ops1 ops2 : run st (ops1 ++ ops2) = run (run st ops1) ops2.
Proof. apply fold_left_app. Qed.
Lemma run_ok_app st ops1 ops2 : run_ok st (ops1 ++ ops2) = run_ok st ops1 && run_ok (run st ops1) ops2.
Proof. revert st. induction ops1 as [|op ops IH]; intros st; simpl; [done|]. by rewrite IH, andb_assoc. Qed.

Lemma steps_refl k st : 0 <= k → steps k st st.
Proof. intros. exists []. by split_and!. Qed.
Lemma steps_one st op : op_args op → op_ok st op → steps 1 st (exec st op).2.
Proof. intros. exists [op]. split_and!; [done|by apply Forall_singleton| |done]. simpl. by rewrite bool_decide_true. Qed.
Lemma steps_trans j k st1 st2 st3 : steps j st1 st2 → steps k st2 st3 → steps (j + k) st1 st3.
Proof.
  intros (o1 & ? & ? & ? & ->) (o2 & ? & ? & ? & ->). exists (o1 ++ o2).
  rewrite length_app, run_ok_app, run_app. split_and!; [lia|by apply Forall_app|by apply andb_true_iff|done].
Qed.
Lemma steps_le j k st st' : j <= k → steps j st st' → steps k st st'.
Proof. intros ? (ops & ? & ?). exists ops. split; [lia|done]. Qed.
Lemma steps_0 st st' : steps 0 st st' → st' = st.
Proof. intros ([|] & ? & _ & _ & ->); [done|simpl in *; lia]. Qed.

Lemma exec_room k st op :
  0 <= k → inv st → room (k + 1) st → op_args op →
  inv (exec st op).2 ∧ room k (exec st op).2 ∧ m_cur (exec st op).2 = m_cur st.
Proof.
  intros Hk I Hr Ha. assert (op_ok st op) as Hok by (apply op_args_ok; [done|by eapply (room_le (k + 1)); [lia|]|done]).
  destruct (exec_sim st op I Hok) as (I' & s' & Hstep & E).
  destruct (fs_step_slack k _ _ _ _ Hk Ha Hstep Hr) as [Hs Hc].
  split; [done|]. split; [by apply fs_slack_equiv with s'|].
  destruct E as (E & _). simpl in E. rewrite E. exact Hc.
Qed.
Lemma steps_inv j k st st' :
  0 <= k → inv st → room (j + k) st → steps j st st' → inv st' ∧ room k st' ∧ m_cur st' = m_cur st.
Proof.
  intros Hk I Hr (ops & Hl & Hops & _ & ->). apply (room_le _ (Z.of_nat (length ops) + k)) in Hr; [|lia]. clear Hl.
  revert st I Hr. induction Hops as [|op ops Ha _ IH]; intros st I Hr; simpl; [done|].
  destruct (exec_room (Z.of_nat (length ops) + k) st op) as (I' & Hr' & <-); [lia|done| |done|by apply IH].
  eapply room_le; [|done]. simpl. lia.
Qed.

(** What is sealed reads the same after any number of steps. *)
Lemma steps_sealed k st st' h n :
  inv st → room k st → steps k st st' →
  in64 (h_id h) → isSnapDir (h_id h) = false → 1 <= h_snap h < m_cur st →
  observe st' h = observe st h ∧ lookup_ st' h n = lookup_ st h n.
Proof.
  intros I Hr (ops & Hl & Hops & _ & ->) Hid Hs. apply (room_le _ (Z.of_nat (length ops))) in Hr; [|lia]. clear Hl.
  revert st I Hr. induction Hops as [|op ops Ha _ IH]; intros st I Hr Hg; simpl; [done|].
  destruct (exec_room (Z.of_nat (length ops)) st op) as (I' & Hr' & Hc);
    [lia|done|eapply room_le; [|done]; simpl; lia|done|].
  destruct (IH _ I' Hr') as [-> ->]; [by rewrite Hc|].
  apply sealed_reads; [done| |done..]. apply op_args_ok; [done|eapply room_le; [|done]; simpl; lia|done].
Qed.

(** ** The logic *)

Definition hoare {A} (k : Z) (p : Proc M A) (Φ : A → Prop) : Prop := ∀ s x s',
  inv (ns_fs s) → room k (ns_fs s) → p s = Some (x, s') → Φ x ∧ steps k (ns_fs s) (ns_fs s').

Lemma hoare_ret {A} k (x : A) (Φ : A → Prop) : 0 <= k → Φ x → hoare k (mret x) Φ.
Proof. intros ?? s y s' _ _ [= <- <-]. split; [done|by apply steps_refl]. Qed.
Lemma hoare_bind {A B} k j (p : Proc M A) (f : A → Proc M B) Φ Ψ :
  hoare j p Φ → 0 <= j <= k → (∀ x, Φ x → hoare (k - j) (f x) Ψ) → hoare k (p ≫= f) Ψ.
Proof.
  intros Hp Hj Hf s y s' I Hr. unfold mbind, proc_bind. destruct (p s) as [[x s1]|] eqn:E; [|done].
  destruct (Hp s x s1 I) as [HΦ H1]; [eapply room_le; [|done]; lia|done|].
  destruct (steps_inv j (k - j) (ns_fs s) (ns_fs s1)) as (I1 & R1 & _);
    [lia|done|by replace (j + (k - j)) with k by lia|done|].
  intros E2. destruct (Hf x HΦ _ _ _ I1 R1 E2) as [? H2]. split; [done|].
  replace k with (j + (k - j)) by lia. by eapply steps_trans.
Qed.
Lemma hoare_weaken {A} k j (p : Proc M A) (Φ Ψ : A → Prop) :
  hoare j p Φ → j <= k → (∀ x, Φ x → Ψ x) → hoare k p Ψ.
Proof.
  intros Hp Hle HΦ s x s' I Hr E. destruct (Hp s x s' I) as [? ?]; [by eapply room_le|done|].
  split; [by apply HΦ|by eapply steps_le].
Qed.
Lemma hoare_pure {A} (p : Proc M A) (Φ : A → Prop) :
  (∀ s x s', inv (ns_fs s) → p s = Some (x, s') → Φ x ∧ ns_fs s' = ns_fs s) → hoare 0 p Φ.
Proof. intros Hp s x s' I _ E. destruct (Hp s x s' I E) as [? ->]. split; [done|by apply steps_refl]. Qed.
End Steps.

(** ** Primitives *)

Definition anything {A} : A → Prop := λ _, True.
Definition in64_pair (o : option (Z * Z)) : Prop :=
  match o with Some (id, snap) => in64 id ∧ in64 snap | None => True end.
Definition good_handle (o : option Handle) : Prop := ∀ h, o = Some h → in64 (h_id h).

Lemma rd64_in64 p i : in64 (rd64 p i).
Proof.
  unfold rd64. pose proof (rd32_range p i). pose proof (rd32_range p (i + 4)).
  rewrite lor_shift_add by word_lia. word_lia.
Qed.
Lemma r_u32_in32 r : in32 (r_u32 r).1.
Proof. unfold r_u32. case_match; simpl; [word_lia|apply rd32_range]. Qed.
Lemma r_u64_in64 r : in64 (r_u64 r).1.
Proof.
  unfold r_u64. pose proof (r_u32_in32 r) as H1. destruct (r_u32 r) as [hi r1].
  pose proof (r_u32_in32 r1) as H2. destruct (r_u32 r1) as [lo r2]. simpl in *.
  rewrite lor_shift_add by word_lia. word_lia.
Qed.
Lemma r_fh_in64 r : in64_pair (r_fh r).1.
Proof. unfold r_fh. destruct (r_u32 r). case_match; simpl; [done|]. split; apply rd64_in64. Qed.
Lemma in32_in64 x : in32 x → in64 x.
Proof. word_lia. Qed.

Lemma unle_range p : 0 <= unle p < 2 ^ (8 * Z.of_nat (length p)).
Proof.
  induction p as [|b p IH]; [done|]. change (unle (b :: p)) with (Z.lor (Z.shiftl (unle p) 8) (bz b)).
  pose proof (bz_range b). rewrite lor_shift_add by lia. cbn [length].
  replace (8 * Z.of_nat (S (length p))) with (8 * Z.of_nat (length p) + 8) by lia.
  rewrite Z.pow_add_r by lia. lia.
Qed.
Lemma spec_in64 v : in64 (r_spec (deserialize v)).
Proof.
  unfold deserialize, NodeRec.rd. cbn [r_spec]. set (p := drop _ _). pose proof (unle_range (take 8 p)) as Hr.
  pose proof (firstn_le_length 8 p) as Hl. fold (take 8 p) in Hl.
  assert (2 ^ (8 * Z.of_nat (length (take 8 p))) <= 2 ^ 64) by (apply Z.pow_le_mono_r; lia). unfold in64. lia.
Qed.
Lemma lxor_in64 x y : in64 x → in64 y → in64 (Z.lxor x y).
Proof.
  intros Hx Hy. assert (Z.lxor x y = Z.lxor x y mod 2 ^ 64) as ->; [|by apply Z.mod_pos_bound].
  apply Z.bits_inj'. intros i Hi. destruct (decide (i < 64)); [by rewrite Z.mod_pow2_bits_low by lia|].
  rewrite Z.mod_pow2_bits_high by lia. rewrite Z.lxor_spec.
  rewrite <- (Z.mod_small x (2 ^ 64)), <- (Z.mod_small y (2 ^ 64)) by done. by rewrite !Z.mod_pow2_bits_high by lia.
Qed.

Section Primitives.
Context {M : Type} `{!KvEngine M}.
Implicit Types (st fs : Store M).

Lemma lookup_in64 fs dir name c : in64 (h_id dir) → lookup_ fs dir name = Some c → in64 (h_id c).
Proof.
  intros Hd. unfold lookup_. destruct (isSnapDir (h_id dir)) eqn:Hs.
  - repeat case_match; try done. intros [= <-]. simpl. rewrite snapBase_spec.
    pose proof (Z.mod_pos_bound (h_id dir) (2 ^ 63) ltac:(lia)). word_lia.
  - rewrite isSnapDir_spec, Z.leb_gt in Hs by done. repeat case_match; try done; intros [= <-]; simpl; [|auto with prfs].
    rewrite lor_SNAP_BIT by word_lia. word_lia.
Qed.
Lemma readNode_spec fs id snap : in64 (r_spec (readNode fs id snap)).
Proof.
  unfold readNode, readNode_at. case_match; [done|]. destruct (loadNode _ _ _) as [r|] eqn:E; [|done]. simpl.
  unfold loadNode in E. repeat case_match; simplify_eq/=; apply spec_in64.
Qed.
Lemma contentSeed_in64 fs n : in64 (h_id n) → in64 (n_contentSeed fs n).
Proof. intros Hn. unfold n_contentSeed. case_match; [apply readNode_spec|done]. Qed.
Lemma mixSeed_in64 seed off data : in64 seed → in64 (mixSeed seed off data).
Proof.
  intros Hs. unfold mixSeed. cbv zeta. destruct (_ =? 0); [word_lia|].
  assert (∀ h, in64 h → in64 (fold_left (λ h c, u64 (Z.lxor h (bz c) * 0x100000001B3)) data h)) as Hf.
  { induction data as [|c data IH]; intros h Hh; simpl; [done|]. apply IH, u64_range. }
  apply Hf, lxor_in64; [done|apply u64_range].
Qed.

Lemma hoare_get {A} (f : Store M → A) (Φ : A → Prop) : (∀ fs, inv fs → Φ (f fs)) → hoare 0 (fs_get f) Φ.
Proof. intros Hf. apply hoare_pure. intros s x s' I [= <- <-]. auto. Qed.
Lemma hoare_get_any {A} (f : Store M → A) : hoare 0 (fs_get f) anything.
Proof. by apply hoare_get. Qed.
Lemma hoare_now : hoare 0 (fs_get (M:=M) now) in64.
Proof. apply hoare_get. intros fs I. apply I. Qed.
Lemma hoare_nodeById id snap : in64 id → hoare (M:=M) 0 (fs_get (λ fs, nodeById fs id snap)) good_handle.
Proof. intros Hid. apply hoare_get. intros fs _ h. unfold nodeById. case_match; [|done]. by intros [= <-]. Qed.
Lemma hoare_lookup dir name :
  in64 (h_id dir) → hoare (M:=M) 0 (fs_get (λ fs, lookup_ fs dir name)) good_handle.
Proof. intros Hd. apply hoare_get. intros fs I h. by apply lookup_in64. Qed.
Lemma hoare_contentSeed n :
  in64 (h_id n) → hoare (M:=M) 0 (fs_get (λ fs, n_contentSeed fs n)) in64.
Proof. intros Hd. apply hoare_get. intros fs I. by apply contentSeed_in64. Qed.

Lemma hoare_op op : op_args op → hoare (M:=M) 1 (fs_op op) anything.
Proof.
  intros Ha s x s' I Hr. unfold fs_op. pose proof (steps_one (ns_fs s) op Ha (op_args_ok _ _ I Hr Ha)) as Hs.
  destruct (exec (ns_fs s) op) as [e fs]. by intros [= <- <-].
Qed.
Lemma hoare_new op : op_args op → hoare (M:=M) 1 (fs_new op) (λ h, in64 (h_id h)).
Proof.
  intros Ha s x s' I Hr [= <- <-]. pose proof (sh_next _ _ _ (inv_shape _ I)). split; [simpl; word_lia|].
  apply steps_one; [done|by apply op_args_ok].
Qed.
Lemma hoare_rd {A} (f : Reader → A * Reader) (Φ : A → Prop) : (∀ r, Φ (f r).1) → hoare (M:=M) 0 (rd f) Φ.
Proof.
  intros Hf. apply hoare_pure. intros s x s' _. unfold rd. specialize (Hf (ns_rd s)).
  destruct (f (ns_rd s)) as [y r]. by intros [= <- <-].
Qed.
Lemma hoare_rd_any {A} (f : Reader → A * Reader) : hoare (M:=M) 0 (rd f) anything.
Proof. by apply hoare_rd. Qed.
Lemma hoare_u32 : hoare (M:=M) 0 (rd r_u32) in32.
Proof. apply hoare_rd, r_u32_in32. Qed.
Lemma hoare_u64 : hoare (M:=M) 0 (rd r_u64) in64.
Proof. apply hoare_rd, r_u64_in64. Qed.
Lemma hoare_fh : hoare (M:=M) 0 (rd r_fh) in64_pair.
Proof. apply hoare_rd, r_fh_in64. Qed.
Lemma hoare_str : hoare (M:=M) 0 rd_str anything.
Proof. apply hoare_pure. intros s x s' _. unfold rd_str. destruct (r_str _) as [[y r]|]; [|done]. by intros [= <- <-]. Qed.
Lemma hoare_is_ok : hoare (M:=M) 0 rd_is_ok anything.
Proof. apply hoare_pure. by intros s x s' _ [= <- <-]. Qed.
Lemma hoare_wr (f : Store M → bytes → bytes) : hoare 0 (wr f) anything.
Proof. apply hoare_pure. by intros s x s' _ [= <- <-]. Qed.
Lemma hoare_cookie ck name : hoare (M:=M) 0 (rememberCookie ck name) anything.
Proof. apply hoare_pure. by intros s x s' _ [= <- <-]. Qed.
Lemma hoare_resume dir ck : hoare (M:=M) 0 (resumeName dir ck) anything.
Proof.
  apply hoare_pure. intros s x s' _. unfold resumeName. case_match; [by intros [= <- <-]|].
  case_match; [by intros [= <- <-]|done].
Qed.
Lemma hoare_host reg p n off cnt : hoare (M:=M) 0 (host_read_into reg p n off cnt) anything.
Proof. apply hoare_pure. intros s x s' _. unfold host_read_into. case_match; [by intros [= <- <-]|done]. Qed.
End Primitives.
