(* ===== verification/NfsSafe.v ===== *)
(** * NfsSafe: what the NFSv3 procedures can do to the store

    Every procedure obeys the logic of [NfsSteps]: the mutating ones move the
    store by at most sixteen in-range operations, the others not at all. *)
From S2P Require Import Prelude Keys Kv NodeRec Spec Store Views Shape Inv Init Reads Di Content FsStat Host Xdr StoreProps Nfs3 NfsSteps.
Local Open Scope Z_scope.
Set Warnings "-clear-no-such-hyp".

Create HintDb hoare discriminated.
#[export] Hint Constants Opaque : hoare.
#[export] Hint Resolve hoare_now hoare_u32 hoare_u64 hoare_fh hoare_str hoare_is_ok hoare_wr hoare_cookie
  hoare_resume hoare_host : hoare.
#[export] Hint Resolve hoare_nodeById hoare_lookup hoare_contentSeed hoare_op hoare_new : hoare.
Lemma good_handle_Some h : good_handle (Some h) → in64 (h_id h).
Proof. intros H. by apply H. Qed.
#[export] Hint Resolve in32_in64 good_handle_Some : hoare.

(** One step of a procedure: its primitive by the hints, a branch by cases, a
    compound first part with the cost given. *)
Ltac hoare_args := repeat case_match; simpl; split_and?; first [done | assumption | by eauto 3 with hoare].
Ltac hoare_prim :=
  lazymatch goal with
  | |- hoare _ (fs_op _) _ => eapply hoare_op; hoare_args
  | |- hoare _ (fs_new _) _ => eapply hoare_new; hoare_args
  | |- hoare _ (fs_get _) _ => first [solve [eauto 3 with hoare nocore] | apply hoare_get_any]
  | |- hoare _ (rd _) _ => first [solve [eauto 3 with hoare nocore] | apply hoare_rd_any]
  | |- hoare _ _ _ => solve [eauto 3 with hoare nocore]
  end.
Ltac hoare_step :=
  lazymatch goal with
  | |- hoare _ (mret _) _ => apply hoare_ret; [lia|first [done | exact I]]
  | |- hoare _ (mbind _ _) _ => eapply hoare_bind; [hoare_prim|lia|intros ? ?]
  | |- hoare _ (let x := ?e in _) _ => cbv zeta
  | |- hoare _ (match ?x with _ => _ end) _ => destruct x eqn:?
  end.

Section Combinators.
Context {M : Type} `{!KvEngine M}.

Lemma hoare_if {A} k (b : bool) (p q : Proc M A) Φ : hoare k p Φ → hoare k q Φ → hoare k (if b then p else q) Φ.
Proof. by destruct b. Qed.
Lemma hoare_wr_u32 x : hoare (M:=M) 0 (wr_u32 x) anything.
Proof. apply hoare_wr. Qed.
Lemma hoare_wr_u64 x : hoare (M:=M) 0 (wr_u64 x) anything.
Proof. apply hoare_wr. Qed.
Lemma hoare_wr_postop g n : hoare (M:=M) 0 (wr_postop g n) anything.
Proof. apply hoare_wr. Qed.
Lemma hoare_wr_fattr g n : hoare (M:=M) 0 (wr_fattr g n) anything.
Proof. apply hoare_wr. Qed.
Lemma hoare_wr_wcc g p n : hoare (M:=M) 0 (wr_wcc g p n) anything.
Proof. apply hoare_wr. Qed.
Lemma hoare_wr_wcc_now g n : hoare (M:=M) 0 (wr_wcc_now g n) anything.
Proof. apply hoare_wr. Qed.
Lemma hoare_wr_fh id snap : hoare (M:=M) 0 (wr_fh id snap) anything.
Proof. apply hoare_wr. Qed.
Lemma hoare_wr_entries one ents eof : hoare (M:=M) 0 (wr_entries one ents eof) anything.
Proof. apply hoare_wr. Qed.
End Combinators.
#[export] Hint Resolve hoare_wr_u32 hoare_wr_u64 hoare_wr_postop hoare_wr_fattr hoare_wr_wcc hoare_wr_wcc_now
  hoare_wr_fh hoare_wr_entries : hoare.

Section Safe.
Context {M : Type} `{!KvEngine M}.
Context (reg : Registry Provider) (prov : bytes) (used : option ContentConfig) (adv : bool).
Implicit Types (n dir : Handle).

(** ** Shared parts *)

Lemma hoare_put a n x : in64 (h_id n) → attr_ok a x → hoare (M:=M) 1 (put a n x) anything.
Proof. intros. unfold put. repeat hoare_step. Qed.
Lemma hoare_touchDir dir : in64 (h_id dir) → hoare (M:=M) 2 (touchDir dir) anything.
Proof.
  intros. unfold touchDir. hoare_step. eapply hoare_bind; [by apply hoare_put|lia|intros ? _]. by apply hoare_put.
Qed.
Lemma hoare_applyCred cred n :
  in64 (h_id n) → in32 (cr_uid cred) → in32 (cr_gid cred) → hoare (M:=M) 2 (applyCred cred n) anything.
Proof.
  intros. unfold applyCred. hoare_step; [|hoare_step].
  eapply hoare_bind; [by apply hoare_put|lia|intros ? _]. by apply hoare_put.
Qed.
Lemma hoare_sattr_opt read a n :
  in64 (h_id n) → (∀ r, attr_ok a (read r).1) → hoare (M:=M) 1 (sattr_opt read a n) anything.
Proof.
  intros Hn Hr. unfold sattr_opt. hoare_step. hoare_step; [hoare_step|].
  eapply hoare_bind; [by apply (hoare_rd _ (attr_ok a))|lia|intros y Hy]. by apply hoare_put.
Qed.
Lemma hoare_sattr_time a ans n :
  in64 (h_id n) → (∀ x, in64 x → attr_ok a x) → (∀ x, in32 x → attr_ok ans x) →
  hoare (M:=M) 2 (sattr_time a ans n) anything.
Proof.
  intros Hn Ha Hans. unfold sattr_time. hoare_step. hoare_step.
  - hoare_step. eapply hoare_weaken; [apply hoare_put; auto|lia|done].
  - hoare_step; [|hoare_step]. do 2 hoare_step.
    eapply hoare_bind; [apply hoare_put; [done|]; auto with hoare|lia|intros ? _]. apply hoare_put; auto.
Qed.
Lemma hoare_applySattr n : in64 (h_id n) → hoare (M:=M) 8 (applySattr n) anything.
Proof.
  intros Hn. unfold applySattr.
  do 3 (eapply hoare_bind; [apply hoare_sattr_opt; [done|exact r_u32_in32]|lia|intros ? _]).
  eapply hoare_bind; [apply hoare_sattr_opt; [done|exact r_u64_in64]|lia|intros ? _].
  eapply hoare_bind; [by apply hoare_sattr_time|lia|intros ? _]. by apply hoare_sattr_time.
Qed.

Lemma hoare_with_fh k (K : Z → Z → Proc M Z) :
  0 <= k → (∀ id snap, in64 id → in64 snap → hoare k (K id snap) anything) → hoare k (with_fh K) anything.
Proof.
  intros Hk HK. unfold with_fh. eapply hoare_bind; [apply hoare_fh|lia|]. rewrite Z.sub_0_r.
  intros [[id snap]|] H; [by apply HK; apply H|by apply hoare_ret].
Qed.
Lemma hoare_if_ok k (K : Proc M Z) : 0 <= k → hoare k K anything → hoare k (if_ok K) anything.
Proof.
  intros Hk HK. unfold if_ok. eapply hoare_bind; [apply hoare_is_ok|lia|]. rewrite Z.sub_0_r.
  intros [] _; [done|by apply hoare_ret].
Qed.
Lemma hoare_with_node k id snap (K : Handle → Proc M Z) :
  0 <= k → in64 id → (∀ n, in64 (h_id n) → hoare k (K n) anything) → hoare k (with_node id snap K) anything.
Proof.
  intros Hk Hid HK. unfold with_node. eapply hoare_bind; [by apply hoare_nodeById|lia|]. rewrite Z.sub_0_r.
  intros [n|] Hn; [apply HK; by apply Hn|]. repeat hoare_step.
Qed.
Lemma hoare_with_node_wcc k id snap (K : Handle → Proc M Z) :
  0 <= k → in64 id → (∀ n, in64 (h_id n) → hoare k (K n) anything) →
  hoare k (with_node_wcc used id snap K) anything.
Proof.
  intros Hk Hid HK. unfold with_node_wcc. eapply hoare_bind; [by apply hoare_nodeById|lia|]. rewrite Z.sub_0_r.
  intros [n|] Hn; [apply HK; by apply Hn|]. repeat hoare_step.
Qed.

(** ** The read-only procedures *)

Lemma hoare_fail_attr st n : hoare (M:=M) 0 (fail_attr used st n) anything.
Proof. unfold fail_attr. repeat hoare_step. Qed.
Lemma hoare_fail_wcc st n : hoare (M:=M) 0 (fail_wcc used st n) anything.
Proof. unfold fail_wcc. repeat hoare_step. Qed.

Lemma hoare_page_entries mb per budget ents acc : hoare (M:=M) 0 (page_entries mb per budget ents acc) anything.
Proof.
  revert budget acc. induction ents as [|[name node] ents IH]; intros budget acc; simpl; [by hoare_step|].
  hoare_step; [|by hoare_step]. hoare_step. apply IH.
Qed.
Lemma hoare_page_loop3 fuel dir mb per budget after acc :
  hoare (M:=M) 0 (page_loop3 fuel dir mb per budget after acc) anything.
Proof.
  revert budget after acc. induction fuel as [|fuel IH]; intros budget after acc; [by intros ???|]. simpl.
  hoare_step. eapply hoare_bind; [apply hoare_page_entries|lia|intros [acc' b] _].
  destruct b as [b|]; [|by hoare_step]. destruct (_ || _); [by hoare_step|apply IH].
Qed.
Lemma hoare_pageDir dir cookie mb per : hoare (M:=M) 0 (pageDir dir cookie mb per) anything.
Proof.
  unfold pageDir. destruct (if cookie <? CK_DOT then _ else _); [|by hoare_step].
  destruct (if cookie <? CK_DOTDOT then _ else _); [|by hoare_step]. hoare_step.
  eapply (hoare_bind _ 0 _ _ anything); [destruct (_ =? 0); [by hoare_step|apply hoare_resume]|lia|].
  intros [after|] _; [|by hoare_step]. hoare_step.
  eapply hoare_bind; [apply hoare_page_loop3|lia|intros [acc' eof] _]. by hoare_step.
Qed.
Lemma hoare_readdir_body dir cookie mb per one : hoare (M:=M) 0 (readdir_body used dir cookie mb per one) anything.
Proof.
  unfold readdir_body. hoare_step. apply hoare_if; [apply hoare_fail_attr|].
  eapply hoare_bind; [apply hoare_pageDir|lia|intros [[st ents] eof] _].
  apply hoare_if; [apply hoare_fail_attr|]. repeat hoare_step.
Qed.
End Safe.
#[export] Hint Resolve hoare_fail_attr hoare_fail_wcc hoare_readdir_body hoare_touchDir hoare_applySattr
  hoare_put hoare_applyCred : hoare.

(** The whole of a procedure: its preambles, primitives, branches, and the
    shared parts. *)
Ltac hoare_go1 :=
  lazymatch goal with
  | |- hoare _ (if_ok _) _ => apply hoare_if_ok; [lia|]
  | |- hoare _ (with_fh _) _ => apply hoare_with_fh; [lia|intros ?id ?snap ? ?]
  | |- hoare _ (with_node _ _ _) _ => apply hoare_with_node; [lia|done|intros ?n ?]
  | |- hoare _ (with_node_wcc _ _ _ _) _ => apply hoare_with_node_wcc; [lia|done|intros ?n ?]
  | |- hoare _ (mret _) _ => hoare_step
  | |- hoare _ (mbind _ _) _ => hoare_step
  | |- hoare _ (let x := _ in _) _ => hoare_step
  | |- hoare _ (match _ with _ => _ end) _ => hoare_step
  | |- hoare _ _ _ => eapply hoare_weaken; [solve [eauto 3 with hoare nocore]|lia|done]
  end.
Ltac hoare_go := repeat hoare_go1.

Section Procs.
Context {M : Type} `{!KvEngine M}.
Context (reg : Registry Provider) (prov : bytes) (used : option ContentConfig) (adv : bool).

Lemma hoare_nfsGetattr : hoare (M:=M) 0 (nfsGetattr used) anything.
Proof. unfold nfsGetattr. hoare_go. Qed.
Lemma hoare_nfsReadlink : hoare (M:=M) 0 (nfsReadlink used) anything.
Proof. unfold nfsReadlink. hoare_go. Qed.
Lemma hoare_nfsLookup : hoare (M:=M) 0 (nfsLookup used) anything.
Proof. unfold nfsLookup. hoare_go. Qed.
Lemma hoare_nfsAccess : hoare (M:=M) 0 (nfsAccess used) anything.
Proof. unfold nfsAccess. hoare_go. Qed.
Lemma hoare_nfsRead : hoare (M:=M) 0 (nfsRead reg prov used) anything.
Proof.
  unfold nfsRead. hoare_go. 
Qed.
Lemma hoare_nfsReaddir : hoare (M:=M) 0 (nfsReaddir used) anything.
Proof. unfold nfsReaddir. hoare_go. Qed.
Lemma hoare_nfsReaddirPlus : hoare (M:=M) 0 (nfsReaddirPlus used) anything.
Proof. unfold nfsReaddirPlus. hoare_go. Qed.
Lemma hoare_nfsFsstat : hoare (M:=M) 0 (nfsFsstat used) anything.
Proof. unfold nfsFsstat. hoare_go. Qed.
Lemma hoare_nfsFsinfo : hoare (M:=M) 0 (nfsFsinfo used) anything.
Proof. unfold nfsFsinfo. hoare_go. Qed.
Lemma hoare_nfsPathconf : hoare (M:=M) 0 (nfsPathconf used) anything.
Proof. unfold nfsPathconf. hoare_go. Qed.
Lemma hoare_nfsCommit : hoare (M:=M) 0 (nfsCommit used) anything.
Proof. unfold nfsCommit. hoare_go. Qed.

(** ** The mutating procedures *)

Lemma hoare_nfsSetattr : hoare (M:=M) 9 (nfsSetattr used) anything.
Proof.
  unfold nfsSetattr. hoare_go.
  eapply (hoare_bind _ 0 _ _ anything); [hoare_go|lia|intros ? _]. hoare_go.
Qed.
Lemma hoare_nfsWrite : hoare (M:=M) 3 (nfsWrite used) anything.
Proof.
  unfold nfsWrite. hoare_go.
  - eapply hoare_bind; [apply hoare_op; split; [done|by apply mixSeed_in64]|lia|intros ? _]. hoare_go.
    eapply (hoare_bind _ 1 _ _ anything); [|lia|intros ? _; hoare_go].
    destruct (_ <? _); [|hoare_go]. apply hoare_put; [done|apply u64_range].
Qed.

Definition good_parent (p : option (Handle * PreAttr * bytes)) : Prop :=
  match p with Some (dir, _, _) => in64 (h_id dir) | None => True end.
Lemma hoare_diropParent : hoare (M:=M) 0 (diropParent used) good_parent.
Proof.
  unfold diropParent. hoare_step. destruct x as [[id snap]|]; [|by hoare_step].
  do 2 hoare_step. hoare_step; [by hoare_step|]. 
  eapply hoare_bind; [apply hoare_nodeById; naive_solver|lia|intros [dir|] Hdir].
  - hoare_step. hoare_step; [hoare_go|]. hoare_step; [hoare_go|]. hoare_step. apply hoare_ret; [lia|]. by apply Hdir.
  - hoare_go.
Qed.
Lemma hoare_with_parent k (K : Handle → PreAttr → bytes → Proc M Z) :
  0 <= k → (∀ dir pre name, in64 (h_id dir) → hoare k (K dir pre name) anything) →
  hoare k (with_parent used K) anything.
Proof.
  intros Hk HK. unfold with_parent. eapply hoare_bind; [apply hoare_diropParent|lia|]. rewrite Z.sub_0_r.
  intros [[[dir pre] name]|] H; [by apply HK|by apply hoare_ret].
Qed.
Lemma hoare_wr_new_object child pre dir : hoare (M:=M) 0 (wr_new_object used child pre dir) anything.
Proof. unfold wr_new_object. hoare_go. Qed.
Hint Resolve hoare_wr_new_object : hoare.
Lemma hoare_finishCreate dir pre name child :
  in64 (h_id dir) → in64 (h_id child) → hoare (M:=M) 3 (finishCreate used dir pre name child) anything.
Proof. intros. unfold finishCreate. hoare_go. Qed.
Definition good_cred (c : Cred) : Prop := in32 (cr_uid c) ∧ in32 (cr_gid c).
Lemma hoare_cred cred n : good_cred cred → in64 (h_id n) → hoare (M:=M) 2 (applyCred cred n) anything.
Proof. intros [? ?] ?. by apply hoare_applyCred. Qed.
End Procs.
#[export] Hint Resolve hoare_finishCreate hoare_cred hoare_wr_new_object : hoare.

Section Mutating.
Context {M : Type} `{!KvEngine M}.
Context (used : option ContentConfig).
Context (cred : Cred) (Hcred : good_cred cred).

Ltac hoare_parent := apply hoare_with_parent; [lia|intros dir pre name ?].

Lemma hoare_nfsCreate : hoare (M:=M) 14 (nfsCreate used cred) anything.
Proof.
  assert (∀ (mode : Z) (n : Handle), in64 (h_id n) → 
    hoare (M:=M) 8 (if mode =? CREATE_EXCLUSIVE then rd (λ r, (tt, r_skip r 8)) else applySattr n) anything) as Hattrs.
  { intros mode n Hn. destruct (_ =? _); [|by apply hoare_applySattr].
    eapply hoare_weaken; [apply hoare_rd_any|lia|done]. }
  unfold nfsCreate. hoare_parent. hoare_go1. hoare_go1. 
  eapply hoare_bind; [by apply hoare_lookup|lia|intros [ex|] Hex].
  - specialize (Hex ex eq_refl). hoare_go1; [hoare_go|].
    eapply hoare_bind; [by apply Hattrs|lia|intros ? _]. hoare_go.
  - hoare_go1. hoare_go1. eapply hoare_bind; [by apply Hattrs|lia|intros ? _]. hoare_go.
Qed.
Lemma hoare_nfsMkdir : hoare (M:=M) 14 (nfsMkdir used cred) anything.
Proof. unfold nfsMkdir. hoare_parent. hoare_go. Qed.
Lemma hoare_nfsSymlink : hoare (M:=M) 15 (nfsSymlink used cred) anything.
Proof. unfold nfsSymlink. hoare_parent. hoare_go. Qed.
Lemma hoare_nfsMknod : hoare (M:=M) 15 (nfsMknod used cred) anything.
Proof. unfold nfsMknod. hoare_parent. hoare_go. Qed.
Lemma hoare_nfsRemove : hoare (M:=M) 3 (nfsRemove used) anything.
Proof.
  unfold nfsRemove. hoare_parent. hoare_go1.
  eapply (hoare_bind _ 2 _ _ anything); [hoare_go|lia|intros ? _]. hoare_go.
Qed.
Lemma hoare_nfsRmdir : hoare (M:=M) 3 (nfsRmdir used) anything.
Proof.
  unfold nfsRmdir. hoare_parent. eapply hoare_bind; [by apply hoare_lookup|lia|intros child _].
  eapply (hoare_bind _ 3 _ _ anything); [|lia|intros ? _; hoare_go].
  hoare_go. eapply (hoare_bind _ 2 _ _ anything); [hoare_go|lia|intros ? _]. hoare_go.
Qed.
Lemma hoare_nfsRename : hoare (M:=M) 5 (nfsRename used) anything.
Proof.
  unfold nfsRename. hoare_go. 
  eapply (hoare_bind _ 5 _ _ anything); [|lia|intros ? _; hoare_go].
  hoare_go. eapply (hoare_bind _ 4 _ _ anything); [hoare_go|lia|intros ? _]. hoare_go.
Qed.
Lemma hoare_nfsLink : hoare (M:=M) 3 (nfsLink used) anything.
Proof.
  unfold nfsLink. hoare_go.
  eapply (hoare_bind _ 1 _ _ anything); [hoare_go|lia|intros ? _].
  eapply (hoare_bind _ 2 _ _ anything); [hoare_go|lia|intros ? _]. hoare_go.
Qed.
End Mutating.
