(* ===== verification/NfsPages.v ===== *)
(** * NfsPages: READDIR pages (plugins/nfsv3/nfsv3.cpp, [pageDir])

    The pages of one call, their byte budget and the cookies, as positions in
    one list: [.], [..], then the directory's entries in key order. *)
From S2P Require Import Prelude Keys Kv NodeRec Spec Store Views Shape Inv Init Reads Di Content FsStat Host Xdr Nfs3.
Local Open Scope Z_scope.
Set Warnings "-clear-no-such-hyp".

(** ** The store's pages, after any name *)

Section Rest.
Context {M : Type} `{!KvEngine M}.
Implicit Types (st : Store M) (dir : Handle) (after : bytes).

Definition snap_start after : Z :=
  match after with [] => 1 | _ => match parseSnap after with Some c => u64 (c + 1) | None => 1 end end.
(** The entries a page after [after] is cut from. *)
Definition rest st dir after : list (bytes * Handle) :=
  if isSnapDir (h_id dir)
  then snap_entry (snapBase (h_id dir)) <$> snap_ids st (snapBase (h_id dir)) (snap_start after)
  else filter (λ e, bytes_lt after e.1) (readdir st dir).
Definition handle_ok dir : Prop := in64 (h_id dir) ∧ in64 (h_snap dir).

Lemma rr_in64 st g : inv st → in64 g → in64 (rr st g).
Proof. intros I Hg. unfold rr. case_match; [apply (shape_in64_cur _ _ _ (inv_shape _ I))|done]. Qed.
Lemma readdirPage_rest st dir after max :
  inv st → handle_ok dir → readdirPage st dir after max = page_of max (rest st dir after).
Proof.
  intros I [Hid Hg]. unfold rest. destruct (isSnapDir (h_id dir)) eqn:Hs.
  - unfold readdirPage. rewrite Hs, page_loop_of. by destruct after.
  - apply readdirPage_plain; [done|]. split_and!; [done..|by apply rr_in64].
Qed.

Lemma snap_ids_range st base start c : c ∈ snap_ids st base start → start <= c < m_cur st.
Proof. intros H%elem_of_snap_ids. lia. Qed.
Lemma snap_start_canon st c : inv st → 0 <= c < m_cur st → snap_start (to_string c) = c + 1.
Proof.
  intros I Hc. pose proof (sh_cur _ _ _ (inv_shape _ I)). unfold LATEST in *.
  unfold snap_start. rewrite parseSnap_spec by word_lia. pose proof (to_string_nonempty c).
  destruct (to_string c); [done|]. apply u64_small. word_lia.
Qed.
Lemma snap_start_nonneg after : 0 <= snap_start after.
Proof. unfold snap_start. repeat case_match; try lia. apply u64_range. Qed.

(** After the last entry of a prefix comes what the prefix leaves. *)
Lemma rest_after st dir after i n x :
  inv st → handle_ok dir → rest st dir after !! i = Some (n, x) →
  rest st dir n = drop (S i) (rest st dir after).
Proof.
  assert (∀ {A} (l : list A) y, l !! i = Some y → last (take (S i) l) = Some y) as last_take.
  { intros A l y Hy. by rewrite (take_S_r _ _ _ Hy), last_snoc. }
  intros I [Hid _] Hi. unfold rest in *. destruct (isSnapDir (h_id dir)) eqn:Hs.
  - rewrite list_lookup_fmap in Hi. apply fmap_Some in Hi as (c & Hc & [= -> ->]).
    pose proof (list_elem_of_lookup_2 _ _ _ Hc) as Hin%snap_ids_range. pose proof (snap_start_nonneg after).
    rewrite (snap_start_canon st) by (done || lia). rewrite <- fmap_drop. f_equal.
    rewrite (snap_ids_after st _ (snap_start after)) by lia.
    apply (filter_after_take Z.lt); [apply snap_ids_sorted|]. by apply last_take.
  - rewrite <- (filter_after_take name_lt _ (S i) (n, x)); [| |by apply last_take].
    2: { by apply sorted_filter, readdir_sorted. }
    symmetry. apply list_filter_filter_l. intros [m y] Hlt. unfold name_lt in Hlt. simpl in *.
    apply list_elem_of_lookup_2, list_elem_of_filter in Hi as [Hi _]. simpl in Hi. by etrans.
Qed.

Lemma length_rest st dir after : (length (rest st dir after) <= page_fuel st dir)%nat.
Proof.
  unfold rest, page_fuel. destruct (isSnapDir (h_id dir)) eqn:Hs.
  - rewrite readdir_snap, !length_fmap by done. set (base := snapBase (h_id dir)).
    change (S (length (snap_ids st base 1))) with (length (0 :: snap_ids st base 1)).
    apply submseteq_length, NoDup_submseteq.
    + apply NoDup_filter, NoDup_seqZ.
    + intros n [Hn ?]%elem_of_snap_ids. pose proof (snap_start_nonneg after).
      rewrite elem_of_cons, elem_of_snap_ids. destruct (decide (n = 0)); [by left|right; split; [lia|done]].
  - pose proof (length_filter (λ e : bytes * Handle, bytes_lt after e.1) (readdir st dir)). lia.
Qed.

(** What READDIR shows of a directory: its entries, but for an empty name. *)
Definition visible st dir : list (bytes * Handle) := filter (λ e, e.1 ≠ []) (readdir st dir).
Lemma bytes_lt_nil n : bytes_lt [] n ↔ n ≠ [].
Proof. by destruct n. Qed.
Lemma rest_nil st dir : rest st dir [] = visible st dir.
Proof.
  unfold rest, visible. destruct (isSnapDir (h_id dir)) eqn:Hs.
  - rewrite readdir_snap by done. rewrite filter_all; [done|].
    apply Forall_forall. intros e (c & -> & _)%list_elem_of_fmap. apply to_string_nonempty.
  - apply list_filter_iff. intros e. apply bytes_lt_nil.
Qed.
Lemma rest_visible st dir i n x :
  inv st → handle_ok dir → visible st dir !! i = Some (n, x) → rest st dir n = drop (S i) (visible st dir).
Proof. intros I Hd. rewrite <- rest_nil. by apply rest_after. Qed.
End Rest.

(** ** Fitting entries into a reply *)

Section Fit.
Context {M : Type} `{!KvEngine M}.
Implicit Types (st : Store M) (dir : Handle) (after : bytes) (s : NState M).

Definition dirent (e : bytes * Handle) : DirEnt := mkDirEnt e.1 (nameCookie e.1) e.2.
(** The entries that fit from the front of a list, and the budget left when
    all of them do. *)
Fixpoint fit (maxBytes perEntry budget : Z) (l : list DirEnt) : list DirEnt * option Z :=
  match l with
  | [] => ([], Some budget)
  | e :: l' =>
      match fits maxBytes perEntry budget (de_name e) with
      | None => ([], None)
      | Some budget' => let '(t, o) := fit maxBytes perEntry budget' l' in (e :: t, o)
      end
  end.
Lemma fit_app mb per b l1 l2 :
  fit mb per b (l1 ++ l2) =
    match fit mb per b l1 with
    | (t, Some b') => (t ++ (fit mb per b' l2).1, (fit mb per b' l2).2)
    | (t, None) => (t, None)
    end.
Proof.
  revert b. induction l1 as [|e l1 IH]; intros b; simpl; [by destruct (fit mb per b l2)|].
  destruct (fits _ _ _ _) as [b'|]; [|done]. rewrite IH. by destruct (fit mb per b' l1) as [t [b''|]].
Qed.
Lemma fit_prefix mb per b l :
  ∃ k, (fit mb per b l).1 = take k l ∧ (k <= length l)%nat ∧ ((fit mb per b l).2 ≠ None → k = length l).
Proof.
  revert b. induction l as [|e l IH]; intros b; simpl; [by exists 0%nat|].
  destruct (fits _ _ _ _) as [b'|]; [|exists 0%nat; split_and!; [done|lia|done]].
  destruct (IH b') as (k & Hk & Hle & Hl). exists (S k). destruct (fit mb per b' l) as [t o]. simpl in *.
  split_and!; [by rewrite Hk|lia|]. intros Ho. by rewrite Hl.
Qed.

(** One page of what is left from position [i]: all of it, or a page that ends
    with an entry, if each entry alone fits. *)
Lemma fit_page mb per l i :
  Forall (λ e, is_Some (fits mb per 128 (de_name e))) l →
  let r := fit mb per 128 (drop i l) in
  is_Some r.2 ∧ r.1 = drop i l ∨
  ∃ k e, r.2 = None ∧ r.1 = take (S k) (drop i l) ∧ l !! (i + k)%nat = Some e ∧ last r.1 = Some e.
Proof.
  intros Hfit r. destruct (fit_prefix mb per 128 (drop i l)) as (k & Hk & Hle & Hk2). fold r in Hk, Hk2.
  destruct r.2 as [b|] eqn:Hend.
  { left. split; [done|]. rewrite Hk, Hk2 by done. apply firstn_all. }
  right. assert (∃ k', k = S k') as [k' ->].
  { destruct (drop i l) as [|e l'] eqn:Hl; [by unfold r in Hend|]. destruct k; [|eauto]. exfalso.
    assert (e ∈ l) as He by (rewrite <- (take_drop i l), Hl; set_solver).
    pose proof (proj1 (Forall_forall _ l) Hfit e He) as [b Hb]. unfold r in Hk. simpl in Hk. rewrite Hb in Hk. by destruct (fit mb per b l'). }
  rewrite length_drop in Hle. destruct (l !! (i + k')%nat) as [e|] eqn:He; [|apply lookup_ge_None in He; lia].
  exists k', e. split; [done|]. split; [done|]. split; [done|].
  rewrite Hk, (take_S_r _ _ e) by by rewrite lookup_drop. apply last_snoc.
Qed.
Lemma take_drop_on {A} (l : list A) i k : take (S k) (drop i l) ++ drop (S (i + k)) l = drop i l.
Proof. replace (S (i + k))%nat with (i + S k)%nat by lia. by rewrite <- drop_drop, take_drop. Qed.

(** [s] with more cookies remembered: only names that were shown. *)
Definition same_but_ck (names : list bytes) s s' : Prop :=
  ns_fs s' = ns_fs s ∧ ns_rd s' = ns_rd s ∧ ns_out s' = ns_out s ∧
  ∀ ck n, ns_ck s' !! ck = Some n → ns_ck s !! ck = Some n ∨ n ∈ names ∧ ck = nameCookie n.
Lemma same_but_ck_refl names s : same_but_ck names s s.
Proof. split_and!; auto. Qed.
Lemma same_but_ck_trans names s1 s2 s3 :
  same_but_ck names s1 s2 → same_but_ck names s2 s3 → same_but_ck names s1 s3.
Proof.
  intros (E1 & E2 & E3 & E4) (F1 & F2 & F3 & F4). split_and!; try congruence.
  intros ck n [H|H]%F4; [by apply E4|by right].
Qed.
Lemma same_but_ck_sub names names' s s' :
  (∀ n, n ∈ names → n ∈ names') → same_but_ck names s s' → same_but_ck names' s s'.
Proof. intros Hs (E1 & E2 & E3 & E4). split_and!; try done. intros ck n [H|[H ->]]%E4; auto. Qed.
Lemma rememberCookie_spec ck n s s' :
  rememberCookie ck n s = Some (tt, s') → ck = nameCookie n → same_but_ck [n] s s'.
Proof.
  intros [= <-] ->. split_and!; try done. simpl. intros ck m. destruct (decide (ck = nameCookie n)) as [->|Hne].
  - rewrite lookup_insert_eq. intros [= <-]. right. split; [set_solver|done].
  - rewrite lookup_insert_ne by done. case_match; [by rewrite lookup_empty|auto].
Qed.

Lemma page_entries_spec mb per ents b acc s :
  ∃ s', page_entries mb per b ents acc s =
    Some ((acc ++ (fit mb per b (dirent <$> ents)).1, (fit mb per b (dirent <$> ents)).2), s') ∧
    same_but_ck ents.*1 s s'.
Proof.
  revert b acc s. induction ents as [|[n x] ents IH]; intros b acc s; simpl.
  - rewrite app_nil_r. eexists. split; [done|apply same_but_ck_refl].
  - destruct (fits mb per b n) as [b'|]; [|rewrite app_nil_r; eexists; split; [done|apply same_but_ck_refl]].
    unfold mbind, proc_bind. destruct (rememberCookie (nameCookie n) n s) as [[[] s1]|] eqn:E; [|done].
    destruct (IH b' (acc ++ [mkDirEnt n (nameCookie n) x]) s1) as (s2 & -> & H2).
    exists s2. split.
    + change (list_fmap _ _ dirent ents) with (dirent <$> ents).
      destruct (fit mb per b' (dirent <$> ents)) as [t o]. simpl. by rewrite <- app_assoc.
    + apply same_but_ck_trans with s1.
      * eapply same_but_ck_sub; [|by eapply rememberCookie_spec]. intros m ->%list_elem_of_singleton. by left.
      * eapply same_but_ck_sub; [|done]. intros m Hm. by right.
Qed.

(** The loop over the store's pages is one pass over what is left, and ends
    within its fuel. *)
Lemma page_loop3_spec mb per dir fuel b after acc s :
  inv (ns_fs s) → handle_ok dir → (length (rest (ns_fs s) dir after) <= fuel)%nat → (1 <= fuel)%nat →
  let r := fit mb per b (dirent <$> rest (ns_fs s) dir after) in
  ∃ s', page_loop3 fuel dir mb per b after acc s = Some ((acc ++ r.1, bool_decide (is_Some r.2)), s') ∧
    same_but_ck (rest (ns_fs s) dir after).*1 s s'.
Proof.
  intros I Hd. revert b after acc s I. induction fuel as [|fuel IH]; intros b after acc s I Hl H1 r; [lia|].
  cbn [page_loop3]. unfold mbind at 1, proc_bind at 1, fs_get. rewrite readdirPage_rest by done.
  set (l := rest (ns_fs s) dir after) in *.
  destruct (page_entries_spec mb per (pg_entries (page_of 512 l)) b acc s) as (s1 & E & Hs1).
  unfold mbind, proc_bind. rewrite E. clear E. cbn [pg_entries page_of] in *.
  assert (dirent <$> l = (dirent <$> take 512 l) ++ (dirent <$> drop 512 l)) as Hsplit
    by by rewrite <- fmap_app, take_drop.
  assert (same_but_ck l.*1 s s1) as Hs1'.
  { eapply same_but_ck_sub; [|done]. intros n. rewrite !list_elem_of_fmap. intros (e & -> & (i & Hi & _)%elem_of_take).
    exists e. split; [done|]. by eapply list_elem_of_lookup_2. }
  unfold r. rewrite Hsplit, fit_app. destruct (fit mb per b (dirent <$> take 512 l)) as [t [b'|]]; cbn [fst snd page_of pg_entries pg_eof pg_cookie].
  2: { exists s1. split; [|done]. done. }
  destruct (decide (length l <= 512)%nat) as [Hle|Hgt].
  - rewrite (bool_decide_true (length l <= 512)%nat), orb_true_r by done. rewrite (drop_ge l) by done. simpl.
    exists s1. split; [|done]. by rewrite app_nil_r.
  - rewrite (bool_decide_false (length l <= 512)%nat), orb_false_r by done.
    rewrite bool_decide_false by (destruct l; [simpl in Hgt; lia|done]).
    destruct (l !! 511%nat) as [[n x]|] eqn:Hi; [|apply lookup_ge_None in Hi; lia].
    assert (default [] (last (take 512 l).*1) = n) as ->.
    { rewrite (take_S_r _ _ _ Hi), fmap_app. simpl. by rewrite last_snoc. }
    assert (rest (ns_fs s1) dir n = drop 512 l) as Hr.
    { destruct Hs1' as (-> & _). by apply (rest_after _ _ _ 511 n x). }
    destruct (IH b' n (acc ++ t) s1) as (s2 & E2 & Hs2);
      [by destruct Hs1' as (-> & _)|rewrite Hr, length_drop; lia|lia|].
    rewrite Hr in *. exists s2. split; [by rewrite E2, <- app_assoc|].
    eapply same_but_ck_trans; [done|]. eapply same_but_ck_sub; [|done].
    intros m. rewrite !list_elem_of_fmap. intros (e & -> & He). exists e. split; [done|].
    rewrite <- (take_drop 512 l). apply elem_of_app. by right.
Qed.
End Fit.

(** ** Cookies *)

Section Cookies.
Context {M : Type} `{!KvEngine M}.
Implicit Types (st : Store M) (dir : Handle) (n after : bytes) (s : NState M).

Lemma list_find_head {A} (P : A → Prop) `{!∀ x, Decision (P x)} (l : list A) :
  snd <$> list_find P l = head (filter P l).
Proof.
  induction l as [|x l IH]; [done|]. simpl. case_decide as E.
  - by rewrite filter_cons_True.
  - rewrite filter_cons_False by done. rewrite <- IH. by destruct (list_find P l) as [[i y]|].
Qed.

(** The scan finds the first entry with the cookie's hash, or that there is none. *)
Lemma resume_scan_spec st dir ck fuel after :
  inv st → handle_ok dir → (length (rest st dir after) <= fuel)%nat → (1 <= fuel)%nat →
  resume_scan fuel st dir ck after = Some (fst <$> head (filter (λ e, nameCookie e.1 = ck) (rest st dir after))).
Proof.
  intros I Hd. revert after. induction fuel as [|fuel IH]; intros after Hl H1; [lia|].
  cbn [resume_scan]. rewrite readdirPage_rest by done. set (l := rest st dir after) in *.
  cbn [page_of pg_entries pg_eof pg_cookie].
  assert (filter (λ e, nameCookie e.1 = ck) l =
    filter (λ e, nameCookie e.1 = ck) (take 256 l) ++ filter (λ e, nameCookie e.1 = ck) (drop 256 l)) as ->
    by by rewrite <- filter_app, take_drop.
  pose proof (list_find_head (λ e : bytes * Handle, nameCookie e.1 = ck) (take 256 l)) as Hh.
  destruct (list_find _ (take 256 l)) as [[i e]|]; simpl in Hh.
  { destruct (filter _ (take 256 l)); [done|]. by injection Hh as ->. }
  destruct (filter _ (take 256 l)); [|done]. clear Hh. cbn [app].
  destruct (decide (length l <= 256)%nat) as [Hle|Hgt].
  - rewrite (bool_decide_true (length l <= 256)%nat), orb_true_r by done. by rewrite (drop_ge l).
  - rewrite (bool_decide_false (length l <= 256)%nat), orb_false_r by done.
    rewrite bool_decide_false by (destruct l; [simpl in Hgt; lia|done]).
    destruct (l !! 255%nat) as [[n x]|] eqn:Hi; [|apply lookup_ge_None in Hi; lia].
    assert (default [] (last (take 256 l).*1) = n) as ->.
    { rewrite (take_S_r _ _ _ Hi), fmap_app. simpl. by rewrite last_snoc. }
    assert (rest st dir n = drop 256 l) as Hr by by apply (rest_after _ _ _ 255 n x).
    rewrite IH; [by rewrite Hr|rewrite Hr, length_drop; lia|lia].
Qed.

(** Cookies name entries: within the directory, and in the cache. *)
Definition cookies_ok dir s : Prop := ∀ n m,
  n ∈ (visible (ns_fs s) dir).*1 →
  m ∈ (visible (ns_fs s) dir).*1 ∧ nameCookie m = nameCookie n ∨ ns_ck s !! nameCookie n = Some m → m = n.

Lemma cookies_ok_more dir s s' :
  cookies_ok dir s → same_but_ck (visible (ns_fs s) dir).*1 s s' → cookies_ok dir s'.
Proof.
  intros Hc (E & _ & _ & Hck) n m. rewrite E. intros Hn [H|H]; [by apply Hc; [|left]|].
  apply Hck in H as [H|[H H']]; [by apply Hc; [|right]|]. by apply Hc; [|left].
Qed.
Lemma resumeName_spec dir s n :
  inv (ns_fs s) → handle_ok dir → cookies_ok dir s → n ∈ (visible (ns_fs s) dir).*1 →
  resumeName dir (nameCookie n) s = Some (Some n, s).
Proof.
  intros I Hd Hc Hn. unfold resumeName. destruct (ns_ck s !! nameCookie n) as [m|] eqn:E.
  { by rewrite (Hc n m Hn (or_intror E)). }
  rewrite resume_scan_spec; [|done..|apply length_rest|unfold page_fuel; lia]. rewrite rest_nil.
  destruct (filter _ _) as [|[m x] l] eqn:Hf.
  - exfalso. apply list_elem_of_fmap in Hn as ([n' x] & -> & Hx).
    assert ((n', x) ∈ ([] : list (bytes * Handle))) as [] % elem_of_nil.
    rewrite <- Hf. by apply list_elem_of_filter.
  - simpl. assert ((m, x) ∈ (m, x) :: l) as Hm by set_solver. rewrite <- Hf in Hm.
    apply list_elem_of_filter in Hm as [Hm Hin]. rewrite (Hc n m); [done..|].
    left. split; [|done]. apply list_elem_of_fmap. by exists (m, x).
Qed.

Lemma CK_ENTRY_set n : Z.land (nameCookie n) CK_ENTRY ≠ 0 ∧ CK_ENTRY <= nameCookie n.
Proof.
  unfold nameCookie. set (h := fold_left _ _ _).
  assert (in64 h) as Hh.
  { unfold h. assert (∀ l x, in64 x → in64 (fold_left (λ h c, u64 (Z.lxor h (bz c) * 1099511628211)) l x)) as Hf;
      [|by apply Hf]. induction l as [|c l IH]; intros y Hy; simpl; [done|]. apply IH, u64_range. }
  assert (Z.testbit (Z.lor h CK_ENTRY) 63 = true) as Hb by (rewrite Z.lor_spec; apply orb_true_r). split.
  - intros E. apply (f_equal (λ z, Z.testbit z 63)) in E. rewrite Z.land_spec, Hb in E. done.
  - apply Z.testbit_true in Hb; [|lia]. change (2 ^ 63) with CK_ENTRY in Hb.
    assert (0 <= Z.lor h CK_ENTRY) by (apply Z.lor_nonneg; split; [word_lia|done]).
    destruct (Z.lt_ge_cases (Z.lor h CK_ENTRY) CK_ENTRY) as [Hlt|]; [|done].
    rewrite Z.div_small in Hb by lia. done.
Qed.
End Cookies.

(** ** A call as a position in the listing *)

Section Listing.
Context {M : Type} `{!KvEngine M}.
Implicit Types (st : Store M) (dir : Handle) (s : NState M).

Definition listing st dir : list DirEnt :=
  mkDirEnt (str ".") CK_DOT dir ::
  mkDirEnt (str "..") CK_DOTDOT (default dir (head (parents st dir))) ::
  (dirent <$> visible st dir).
(** The cookie that resumes after [i] entries. *)
Definition cookie_at (l : list DirEnt) (i : nat) : Z :=
  match i with O => 0 | S j => default 0 (de_cookie <$> l !! j) end.

Lemma pageDir_tail dir mb per b after acc s :
  inv (ns_fs s) → handle_ok dir →
  let r := fit mb per b (dirent <$> rest (ns_fs s) dir after) in
  ∃ s', (fuel ← fs_get (λ fs, page_fuel fs dir);
         '(acc, eof) ← page_loop3 fuel dir mb per b after acc;
         mret (NFS3_OK, acc, eof)) s = Some ((NFS3_OK, acc ++ r.1, bool_decide (is_Some r.2)), s') ∧
    same_but_ck (rest (ns_fs s) dir after).*1 s s'.
Proof.
  intros I Hd r. 
  destruct (page_loop3_spec mb per dir (page_fuel (ns_fs s) dir) b after acc s) as (s' & E & Hs');
    [done..|apply length_rest|unfold page_fuel; lia|].
  exists s'. split; [|done]. unfold mbind, proc_bind, fs_get. by rewrite E.
Qed.

Lemma cookie_at_entry fs dir j n x :
  visible fs dir !! j = Some (n, x) → cookie_at (listing fs dir) (S (S (S j))) = nameCookie n.
Proof.
  intros Hj. change (default 0 (de_cookie <$> (dirent <$> visible fs dir) !! j) = nameCookie n).
  by rewrite list_lookup_fmap, Hj.
Qed.
Lemma entry_cookie n : Z.land (nameCookie n) CK_ENTRY ≠ 0 ∧ (nameCookie n <? CK_DOT) = false ∧ (nameCookie n <? CK_DOTDOT) = false.
Proof.
  destruct (CK_ENTRY_set n) as [Hne Hge]. split; [done|]. unfold CK_ENTRY, CK_DOT, CK_DOTDOT in *.
  split; apply Z.ltb_ge; lia.
Qed.

(** One call from position [i]: the entries that fit, from there on. *)
Lemma pageDir_spec dir mb per s i :
  inv (ns_fs s) → handle_ok dir → cookies_ok dir s → (i <= length (listing (ns_fs s) dir))%nat →
  let r := fit mb per 128 (drop i (listing (ns_fs s) dir)) in
  ∃ s', pageDir dir (cookie_at (listing (ns_fs s) dir) i) mb per s =
      Some ((NFS3_OK, r.1, bool_decide (is_Some r.2)), s') ∧
    same_but_ck (visible (ns_fs s) dir).*1 s s'.
Proof.
  intros I Hd Hc Hi r. unfold r. clear r. pose proof (pageDir_tail dir mb per) as Htail.
  assert (same_but_ck (visible (ns_fs s) dir).*1 s s) as Hrefl by apply same_but_ck_refl.
  set (dotdot := default dir (head (parents (ns_fs s) dir))) in *.
  assert (∀ b acc, ∃ s',
    (rn ← mret (Some []); match rn with
      | None => mret (NFS3ERR_BAD_COOKIE, acc, false)
      | Some after => fuel ← fs_get (λ fs, page_fuel fs dir);
          '(acc, eof) ← page_loop3 fuel dir mb per b after acc; mret (NFS3_OK, acc, eof)
      end) s = Some ((NFS3_OK, acc ++ (fit mb per b (dirent <$> visible (ns_fs s) dir)).1,
        bool_decide (is_Some (fit mb per b (dirent <$> visible (ns_fs s) dir)).2)), s') ∧
    same_but_ck (visible (ns_fs s) dir).*1 s s') as Hstart.
  { intros b acc. destruct (Htail b [] acc s I Hd) as (s' & E & Hs'). rewrite rest_nil in *. eauto. }
  destruct i as [|[|[|j]]].
  - (* from the start *)
    unfold pageDir. cbn [cookie_at]. change (0 <? CK_DOT) with true. change (0 <? CK_DOTDOT) with true.
    cbn [drop listing fit de_name]. destruct (fits mb per 128 (str ".")) as [b1|]; [|by exists s].
    destruct (fits mb per b1 (str "..")) as [b2|]; [|by exists s].
    destruct (Hstart b2 [mkDirEnt (str ".") CK_DOT dir; mkDirEnt (str "..") CK_DOTDOT dotdot]) as (s' & E & Hs').
    exists s'. split; [|done]. etrans; [exact E|]. by destruct (fit mb per b2 _).
  - change (cookie_at (listing (ns_fs s) dir) 1) with CK_DOT. unfold pageDir.
    change (CK_DOT <? CK_DOT) with false. change (CK_DOT <? CK_DOTDOT) with true.
    cbn [drop listing fit de_name]. destruct (fits mb per 128 (str "..")) as [b2|]; [|by exists s].
    destruct (Hstart b2 [mkDirEnt (str "..") CK_DOTDOT dotdot]) as (s' & E & Hs').
    exists s'. split; [|done]. etrans; [exact E|]. by destruct (fit mb per b2 _).
  - change (cookie_at (listing (ns_fs s) dir) 2) with CK_DOTDOT. unfold pageDir.
    change (CK_DOTDOT <? CK_DOT) with false. change (CK_DOTDOT <? CK_DOTDOT) with false.
    cbn [drop listing]. destruct (Hstart 128 []) as (s' & E & Hs'). by exists s'.
  - cbn [length listing] in Hi. rewrite length_fmap in Hi.
    destruct (visible (ns_fs s) dir !! j) as [[n x]|] eqn:Hj; [|apply lookup_ge_None in Hj; lia].
    rewrite (cookie_at_entry _ _ _ _ _ Hj). destruct (entry_cookie n) as (Hne & H1 & H2).
    destruct (Htail 128 n [] s I Hd) as (s' & E & Hs'). rewrite (rest_visible _ _ j n x) in E, Hs' by done.
    exists s'. split.
    + unfold pageDir. rewrite H1, H2, (proj2 (Z.eqb_neq _ _) Hne).
      unfold mbind at 1 2, proc_bind at 1 2, fs_get at 1. rewrite resumeName_spec; [|done..|].
      2: { apply list_elem_of_fmap. exists (n, x). split; [done|]. by eapply list_elem_of_lookup_2. }
      unfold listing. rewrite !skipn_cons, skipn_map. exact E.
    + eapply same_but_ck_sub; [|done]. intros m. rewrite !list_elem_of_fmap. intros (e & -> & He).
      exists e. split; [done|]. rewrite <- (take_drop (S j) (visible (ns_fs s) dir)). apply elem_of_app. by right.
Qed.

(** A client that asks again from the last cookie until the end. *)
Fixpoint client_list (fuel : nat) dir (cookie mb per : Z) : Proc M (list DirEnt) :=
  match fuel with
  | O => λ _, None
  | S fuel' =>
      '(st, ents, eof) ← pageDir dir cookie mb per;
      if (eof : bool) then mret ents
      else match last ents with
           | Some e => more ← client_list fuel' dir (de_cookie e) mb per; mret (ents ++ more)
           | None => λ _, None
           end
  end.

Lemma client_list_spec dir mb per fuel s i :
  inv (ns_fs s) → handle_ok dir → cookies_ok dir s → (i <= length (listing (ns_fs s) dir))%nat →
  Forall (λ e, is_Some (fits mb per 128 (de_name e))) (listing (ns_fs s) dir) →
  (length (listing (ns_fs s) dir) - i < fuel)%nat →
  ∃ s', client_list fuel dir (cookie_at (listing (ns_fs s) dir) i) mb per s =
    Some (drop i (listing (ns_fs s) dir), s') ∧ ns_fs s' = ns_fs s.
Proof.
  intros I Hd. revert s i I. induction fuel as [|fuel IH]; intros s i I Hc Hi Hfit Hf; [lia|].
  cbn [client_list]. destruct (pageDir_spec dir mb per s i I Hd Hc Hi) as (s1 & E & Hs1).
  unfold mbind at 1, proc_bind at 1. rewrite E. clear E.
  set (l := listing (ns_fs s) dir) in *.
  destruct (fit_page mb per l i Hfit) as [[Hend ->]|(k & e & -> & Hk & He & Hlast)].
  { rewrite bool_decide_true by done. exists s1. split; [done|apply Hs1]. }
  rewrite bool_decide_false by by intros [? ?]. rewrite Hlast, Hk.
  assert (de_cookie e = cookie_at l (S (i + k))) as -> by (simpl; by rewrite He). apply lookup_lt_Some in He.
  destruct Hs1 as (E1 & Hs1). destruct (IH s1 (S (i + k))%nat) as (s2 & E2 & Hs2);
    [by rewrite E1|eapply cookies_ok_more; [done|by split]|rewrite E1; fold l; lia|by rewrite E1|rewrite E1; fold l; lia|].
  rewrite E1 in E2. fold l in E2. unfold mbind, proc_bind. rewrite E2. exists s2. split; [|congruence].
  by rewrite take_drop_on.
Qed.
End Listing.
