(* ===== verification/NfsProps.v ===== *)
(** * NfsProps: what the NFSv3 front-end guarantees *)
From S2P Require Import Prelude Keys Kv NodeRec Spec Store Views Shape Graph Links Inv Init Reads Di Content FsStat Host Xdr StoreProps Nfs3 NfsSteps NfsSafe NfsPages.
Local Open Scope Z_scope.
Set Warnings "-clear-no-such-hyp".

#[export] Hint Resolve hoare_nfsGetattr hoare_nfsSetattr hoare_nfsLookup hoare_nfsAccess hoare_nfsReadlink
  hoare_nfsRead hoare_nfsWrite hoare_nfsCreate hoare_nfsMkdir hoare_nfsSymlink hoare_nfsMknod hoare_nfsRemove
  hoare_nfsRmdir hoare_nfsRename hoare_nfsLink hoare_nfsReaddir hoare_nfsReaddirPlus hoare_nfsFsstat
  hoare_nfsFsinfo hoare_nfsPathconf hoare_nfsCommit : hoare.

Section Dispatch.
Context {M : Type} `{!KvEngine M}.
Context (reg : Registry Provider) (prov : bytes) (used : option ContentConfig) (adv : bool).
Implicit Types (st : Store M).

Lemma hoare_nfsCall proc cred : good_cred cred → hoare (M:=M) 15 (nfsCall reg prov used proc cred) anything.
Proof.
  intros Hc. unfold nfsCall. repeat case_match; hoare_go.
Qed.
Lemma hoare_nfsCall_ro proc cred :
  isMutating proc = false → hoare (M:=M) 0 (nfsCall reg prov used proc cred) anything.
Proof.
  intros Hm. unfold nfsCall. repeat case_match; try (by vm_compute in Hm); hoare_go.
Qed.
Lemma hoare_mountCall proc : hoare (M:=M) 0 (mountCall proc) anything.
Proof. unfold mountCall, mountMnt, mountUmnt, mountExport. repeat case_match; hoare_go. Qed.
Hint Resolve hoare_mountCall : hoare.
Lemma hoare_dispatch_run prog vers proc cred k :
  0 <= k → hoare (M:=M) k (nfsCall reg prov used proc cred) anything →
  hoare (M:=M) k (dispatch_run reg prov used prog vers proc cred) anything.
Proof.
  intros Hk H. unfold dispatch_run. repeat apply hoare_if; [done|hoare_go..].
Qed.
Lemma hoare_dispatch prog vers proc cred :
  good_cred cred → hoare (M:=M) 16 (dispatch reg prov used adv prog vers proc cred) anything.
Proof.
  intros Hc. assert (hoare (M:=M) 15 (dispatch_run reg prov used prog vers proc cred) anything)
    by (apply hoare_dispatch_run; [lia|by apply hoare_nfsCall]).
  unfold dispatch. apply hoare_if; [|eapply hoare_weaken; [done|lia|done]].
  eapply hoare_bind; [done|lia|intros ? _]. eapply (hoare_bind _ 1 _ _ anything); [|lia|intros ? _; hoare_go].
  destruct adv; [|hoare_go]. hoare_go1. eapply hoare_bind; [apply hoare_op; apply u64_range|lia|intros ? _; hoare_go].
Qed.
Lemma hoare_dispatch_ro prog vers proc cred :
  (prog =? PROG_NFS) && isMutating proc = false →
  hoare (M:=M) 0 (dispatch reg prov used adv prog vers proc cred) anything.
Proof.
  intros Hro. unfold dispatch. rewrite Hro. unfold dispatch_run.
  destruct (prog =? PROG_NFS); simpl in Hro; repeat apply hoare_if;
    first [by apply hoare_nfsCall_ro|hoare_go].
Qed.

Lemma readCred_good r : good_cred (readCred r).1.
Proof.
  unfold readCred. destruct (r_u32 r) as [fl r1]. destruct (r_u32 r1) as [len r2].
  repeat case_match; try done.
  match goal with H1 : r_u32 ?a = (?x, _), H2 : r_u32 ?b = (?y, _) |- good_cred (mkCred ?x ?y _, _).1 =>
    pose proof (r_u32_in32 a) as Ha; pose proof (r_u32_in32 b) as Hb; rewrite H1 in Ha; rewrite H2 in Hb end.
  by split.
Qed.

Lemma room_0 st : inv st → room 0 st.
Proof.
  intros I. pose proof (inv_shape _ I) as Hsh. pose proof (shape_in64_cur _ _ _ Hsh) as Hcur.
  split; [lia|]. split; [simpl; pose proof (sh_next _ _ _ Hsh); lia|].
  intros c r Hc. simpl. intros (r' & Hl & ->)%fmap_Some.
  destruct (load_node _ _ _ _ _ _ Hsh Hcur Hl) as (s & _ & _ & _ & Hok & _).
  destruct r'. unfold rec_ok in Hok. simpl in *. destruct_and!. word_lia.
Qed.
Lemma reachable_run_steps k st st' : reachable_from fresh_store st → steps k st st' → reachable_from fresh_store st'.
Proof. intros R (ops & _ & _ & Hok & ->). by apply reachable_run. Qed.

Lemma nfs_session_steps st ck mark msg o st' ck' :
  reachable_from fresh_store st → room 16 st →
  session_step reg prov used adv st ck mark msg = Some (o, st', ck') → steps 16 st st'.
Proof.
  intros R Hr Hs. pose proof (inv_reachable _ R) as I.
  revert Hs. unfold session_step. case_match; [intros [= _ <- _]; by apply steps_refl|].
  repeat (case_match; try done; try (intros [= _ <- _]; by apply steps_refl)).
  intros [= _ <- _].
  match goal with Hd : dispatch _ _ _ _ _ _ _ ?c _ = _, Hc : readCred ?r = (?c, _) |- _ =>
    pose proof (readCred_good r) as Hg; rewrite Hc in Hg;
    by destruct ((λ I Hr, hoare_dispatch _ _ _ c Hg _ _ _ I Hr Hd) I Hr) end.
Qed.

(** Safety of the wire: whatever a client sends, one round of a session
    moves a reachable store with room by at most sixteen operations, each
    within its precondition, so the store stays reachable, and no snapshot
    reads differently afterwards. *)
Theorem nfs_session_safe st ck mark msg o st' ck' :
  reachable_from fresh_store st → room 16 st →
  session_step reg prov used adv st ck mark msg = Some (o, st', ck') →
  steps 16 st st' ∧ reachable_from fresh_store st' ∧
  ∀ h n, in64 (h_id h) → isSnapDir (h_id h) = false → 1 <= h_snap h < m_cur st →
    observe st' h = observe st h ∧ lookup_ st' h n = lookup_ st h n.
Proof.
  intros R Hr Hs. pose proof (inv_reachable _ R) as I. pose proof (nfs_session_steps _ _ _ _ _ _ _ R Hr Hs) as H.
  split; [done|]. split; [by eapply reachable_run_steps|intros; by eapply steps_sealed].
Qed.

(** Calls that the server runs under its shared lock do not write: every
    procedure outside the mutating set leaves the store exactly as it was. *)
Theorem nfs_readers_do_not_write prog vers proc cred s x s' :
  reachable_from fresh_store (ns_fs s) →
  (prog =? PROG_NFS) && isMutating proc = false →
  dispatch reg prov used adv prog vers proc cred s = Some (x, s') → ns_fs s' = ns_fs s.
Proof.
  intros R Hro Hd. pose proof (inv_reachable _ R) as I.
  destruct (hoare_dispatch_ro _ _ _ _ Hro _ _ _ I (room_0 _ I) Hd) as [_ H]. by apply steps_0.
Qed.
End Dispatch.

Section Calls.
Context {M : Type} `{!KvEngine M}.
Context (reg : Registry Provider) (prov : bytes) (used : option ContentConfig).
Implicit Types (st : Store M) (s : NState M) (dir : Handle) (name : bytes).

(** READDIR reaches the end: a client that keeps asking from the last
    cookie it was given lists [.], [..] and then every entry of the directory
    once, in name order, however the reply size cuts the pages, if each entry
    alone fits and no two names share a cookie. *)
Theorem readdir_walk dir mb per s :
  reachable_from fresh_store (ns_fs s) → handle_ok dir → cookies_ok dir s →
  Forall (λ e, is_Some (fits mb per 128 (de_name e))) (listing (ns_fs s) dir) →
  ∃ s', client_list (S (length (listing (ns_fs s) dir))) dir 0 mb per s = Some (listing (ns_fs s) dir, s') ∧
    ns_fs s' = ns_fs s.
Proof.
  intros R Hd Hc Hfit. apply (client_list_spec dir mb per _ s 0); [by apply inv_reachable|done..|lia|done|lia].
Qed.

(** The arguments of a procedure on [name] in the directory of a handle. *)
Definition dirop_args (id snap : Z) name : bytes :=
  be4 16 ++ be8 id ++ be8 snap ++ be4 (u32 (Z.of_nat (length name))) ++ pad_str name.
Definition call_at s (v args q : bytes) : Prop := ns_rd s = rd_at v (args ++ q).
Definition with_rd s r : NState M := mkNs (ns_fs s) r (ns_out s) (ns_ck s).

Lemma rd_fh_at s v id snap q :
  in64 id → in64 snap → ns_rd s = rd_at v (be4 16 ++ be8 id ++ be8 snap ++ q) →
  rd r_fh s = Some (Some (id, snap), with_rd s (rd_at (v ++ be4 16 ++ be8 id ++ be8 snap) q)).
Proof. intros Hi Hs E. unfold rd. by rewrite E, r_fh_at. Qed.
Lemma rd_str_at s v name q :
  Z.of_nat (length name) <= 2 ^ 32 - 4 → ns_rd s = rd_at v (be4 (u32 (Z.of_nat (length name))) ++ pad_str name ++ q) →
  rd_str s = Some (name, with_rd s (rd_at (v ++ be4 (u32 (Z.of_nat (length name))) ++ pad_str name) q)).
Proof. intros Hn E. unfold rd_str. by rewrite E, r_str_at. Qed.

Definition lookup_reply (fs : Store M) (out : bytes) dir (child : option Handle) : bytes :=
  match child with
  | Some c => encodePostOp used fs (encodePostOp used fs (w_fh (w_u32 out NFS3_OK) (h_id c) (h_snap c)) (Some c)) (Some dir)
  | None => encodePostOp used fs (w_u32 out NFS3ERR_NOENT) (Some dir)
  end.

(** LOOKUP answers with the store's entry: on well-formed arguments that
    name an existing directory, the reply carries the handle of the entry
    (read back, it names the same node) or NOENT, and nothing changes. *)
Theorem nfs_lookup_reply adv cred s v q id snap name :
  in64 id → in64 snap → Z.of_nat (length name) <= 2 ^ 32 - 4 →
  call_at s v (dirop_args id snap name) q →
  nodeById (ns_fs s) id snap = Some (mkHandle id snap) →
  n_type (ns_fs s) (mkHandle id snap) = tcode DIR →
  let child := lookup_ (ns_fs s) (mkHandle id snap) name in
  ∃ s', dispatch reg prov used adv PROG_NFS NFS_V3 NFSPROC3_LOOKUP cred s = Some (SUCCESS, s') ∧ ns_fs s' = ns_fs s ∧
    ns_out s' = lookup_reply (ns_fs s) (ns_out s) (mkHandle id snap) child.
Proof.
  intros Hid Hsnap Hn Hcall Hnode Hdir child.
  change (dispatch reg prov used adv PROG_NFS NFS_V3 NFSPROC3_LOOKUP cred s) with (nfsLookup (M:=M) used s).
  unfold nfsLookup, with_fh. unfold mbind at 1, proc_bind at 1.
  rewrite (rd_fh_at s v id snap (be4 (u32 (Z.of_nat (length name))) ++ pad_str name ++ q)) by
    (done || (unfold call_at in Hcall; rewrite Hcall; unfold dirop_args; by rewrite <- !app_assoc)).
  unfold mbind at 1, proc_bind at 1. erewrite rd_str_at by done.
  unfold if_ok, with_node, mbind, proc_bind, rd_is_ok, fs_get. cbn [with_rd ns_rd rd_at rd_ok ns_fs].
  rewrite Hnode. cbn [ns_fs with_rd]. rewrite Hdir, Z.eqb_refl. cbn [negb ns_fs with_rd].
  fold child. destruct child as [c|]; eexists; split_and!; reflexivity.
Qed.

(** The first read of a procedure, by the handle it finds. *)
Lemma with_fh_at (K : Z → Z → Proc M Z) s id snap :
  (r_fh (ns_rd s)).1 = Some (id, snap) → with_fh K s = K id snap (with_rd s (r_fh (ns_rd s)).2) ∧ in64 id.
Proof.
  intros E. pose proof (r_fh_in64 (ns_rd s)) as H. rewrite E in H. split; [|apply H].
  unfold with_fh, mbind, proc_bind, rd. destruct (r_fh (ns_rd s)) as [h r]. simpl in E. by subst h.
Qed.
Lemma hoare_0_at {A} (p : Proc M A) s x s' :
  inv (ns_fs s) → hoare 0 p anything → p s = Some (x, s') → ns_fs s' = ns_fs s.
Proof. intros I Hp E. destruct (Hp s x s' I (room_0 _ I) E) as [_ H]. by apply steps_0. Qed.
Lemma diropParent_snapshot s id snap p s' :
  inv (ns_fs s) → (r_fh (ns_rd s)).1 = Some (id, snap) → snap ≠ LATEST →
  diropParent used s = Some (p, s') → p = None ∧ ns_fs s' = ns_fs s.
Proof.
  intros I E Hsnap Hp. split; [|by apply (hoare_0_at (diropParent used) s p); [done|eapply hoare_weaken; [apply hoare_diropParent|lia|done]|]].
  revert Hp. unfold diropParent, mbind, proc_bind, mret, proc_ret, rd, rd_is_ok, fs_get. destruct (r_fh (ns_rd s)) as [h r].
  simpl in E. subst h. unfold live. rewrite (proj2 (Z.eqb_neq _ _) Hsnap).
  repeat case_match; simpl; first [done|congruence].
Qed.
Lemma with_parent_snapshot (K : Handle → PreAttr → bytes → Proc M Z) s id snap x s' :
  inv (ns_fs s) → (r_fh (ns_rd s)).1 = Some (id, snap) → snap ≠ LATEST →
  with_parent used K s = Some (x, s') → ns_fs s' = ns_fs s.
Proof.
  intros I E Hsnap. unfold with_parent, mbind, proc_bind. destruct (diropParent used s) as [[p s1]|] eqn:Hp; [|done].
  destruct (diropParent_snapshot _ _ _ _ _ I E Hsnap Hp) as [-> <-]. by intros [= _ <-].
Qed.

(** Snapshots are read-only through the wire: a mutating procedure whose
    (directory) handle names a snapshot leaves the whole store alone. *)
Theorem nfs_snapshot_readonly proc cred s x s' id snap :
  reachable_from fresh_store (ns_fs s) →
  (r_fh (ns_rd s)).1 = Some (id, snap) → snap ≠ LATEST →
  proc ∈ [2; 7; 8; 9; 10; 11; 12; 13] →
  nfsCall reg prov used proc cred s = Some (x, s') → ns_fs s' = ns_fs s.
Proof.
  intros R%inv_reachable E Hsnap Hproc. pose proof (λ K, with_parent_snapshot K s id snap x s' R E Hsnap) as Hparent.
  assert (live snap = false) as Hlive by by apply Z.eqb_neq.
  assert (∀ K, with_fh K s = Some (x, s') → (in64 id → hoare (M:=M) 0 (K id snap) anything) → ns_fs s' = ns_fs s) as Hfh.
  { intros K. destruct (with_fh_at K s id snap E) as [-> Hid]. intros Hk HK.
    by apply (hoare_0_at (K id snap) (with_rd s (r_fh (ns_rd s)).2) x); [|apply HK|]. }
  repeat (apply elem_of_cons in Hproc as [->|Hproc]); [..|by apply elem_of_nil in Hproc]; cbn [nfsCall]; intros Hc;
    try by eapply Hparent.
  - apply (Hfh _ Hc). intros Hid. cbv beta. rewrite Hlive. cbn [negb]. hoare_go.
  - apply (Hfh _ Hc). intros Hid. cbv beta. rewrite Hlive. cbn [negb]. hoare_go.
Qed.
End Calls.

(** ** File handles *)

Section Handles.
Context {M : Type} `{!KvEngine M}.
Implicit Types (st : Store M) (dir : Handle) (name : bytes).

Definition base_of (id : Z) : Z := if isSnapDir id then snapBase id else id.
Lemma base_in64 id : in64 id → in64 (base_of id).
Proof.
  intros Hid. unfold base_of. case_match; [|done]. rewrite snapBase_spec.
  pose proof (Z.mod_pos_bound id (2 ^ 63) ltac:(lia)). word_lia.
Qed.
Lemma nodeById_view st id snap :
  nodeById st id snap = if decide (is_Some (v_attr (view (m_kv st) (rr st snap)) (base_of id))) then Some (mkHandle id snap) else None.
Proof.
  unfold nodeById, existedAt. fold (base_of id). simpl.
  case_bool_decide as E; case_decide as E'; try done; exfalso; rewrite fmap_is_Some in E'; done.
Qed.

(** No operation deletes a node. *)
Definition keeps (v w : View) : Prop := ∀ c, is_Some (v_attr v c) → is_Some (v_attr w c).
Lemma keeps_refl v : keeps v v.
Proof. by intros c. Qed.
Lemma keeps_update f id v : keeps v (v_update f id v).
Proof. intros c Hc. simpl. case_decide; [by apply fmap_is_Some|done]. Qed.
Lemma keeps_link d n c v : keeps v (v_link d n c v).
Proof. apply (keeps_update inc_nlink c (v_set_ent d n (Some c) v)). Qed.
Lemma keeps_unlink d n c v : keeps v (v_unlink d n c v).
Proof. apply (keeps_update dec_nlink c (v_set_ent d n None v)). Qed.
Lemma keeps_linkres v d n c e w : link_res v d n c e w → keeps v w.
Proof. destruct 1; first [apply keeps_refl | apply keeps_link]. Qed.
Lemma keeps_typed v id ok f e w : typed_res v id ok f e w → keeps v w.
Proof. destruct 1; first [apply keeps_refl | apply keeps_update]. Qed.
Lemma fs_step_keeps s op e s' : fs_step s op e s' → keeps (f_now s) (f_now s').
Proof.
  destruct 1; simpl; try apply keeps_refl; try (by eapply keeps_typed); try apply keeps_update;
    try (intros c' Hc'; simpl; case_decide; [by eexists|done]).
  - by eapply keeps_linkres.
  - match goal with H : unlink_res _ _ _ _ _ |- _ => destruct H end; [apply keeps_refl|apply keeps_unlink].
  - match goal with H : move_res _ _ _ _ _ _ _ |- _ => destruct H end; [apply keeps_refl|by eapply keeps_linkres|].
    intros x Hx. by apply keeps_unlink, keeps_link.
Qed.

(** A handle resolves to itself from when it first does. *)
Definition resolves st (h : Handle) : Prop := nodeById st (h_id h) (h_snap h) = Some h.
Lemma resolves_view st h :
  resolves st h ↔ is_Some (v_attr (view (m_kv st) (rr st (h_snap h))) (base_of (h_id h))).
Proof. unfold resolves. rewrite nodeById_view. destruct h; simpl. case_decide; naive_solver. Qed.

(** Handles of the live tree and of sealed snapshots. *)
Definition lasting st (h : Handle) : Prop := h_snap h = LATEST ∨ 1 <= h_snap h < m_cur st.
Lemma exec_resolves st op h :
  inv st → op_ok st op → in64 (h_id h) → lasting st h → resolves st h →
  resolves (exec st op).2 h ∧ lasting (exec st op).2 h.
Proof.
  intros I Hok Hid L. pose proof (sh_cur _ _ _ (inv_shape _ I)) as Hcur. rewrite !resolves_view. set (b := base_of (h_id h)).
  assert (in64 b) as Hb by by apply base_in64.
  destruct (exec_sim st op I Hok) as (I' & s' & Hstep & (E1 & _ & _ & Ev & Eg)). simpl in E1, Eg.
  unfold rr, lasting in *. destruct L as [Hs|L].
  - rewrite !Hs, Z.eqb_refl. specialize (Ev b Hb) as [Ev _]. intros Hr. split; [|by left].
    simpl in Ev. simpl. rewrite Ev. by apply (fs_step_keeps _ _ _ _ Hstep).
  - rewrite (proj2 (Z.eqb_neq (h_snap h) LATEST)) by lia. intros Hr.
    assert (m_cur st <= m_cur (exec st op).2 ∧ view (m_kv (exec st op).2) (h_snap h) ≡ view (m_kv st) (h_snap h)) as [Hc V].
    { inversion Hstep; subst; simpl in *; (split; [lia|]); (etrans; [apply Eg; simpl; lia|]); try done.
      by rewrite (proj2 (Z.eqb_neq (h_snap h) (m_cur st))) by lia. }
    split; [|right; lia]. by rewrite (proj1 (V b Hb)).
Qed.

Lemma loadNode_id st h r :
  inv st → handle_ok h → loadNode (m_kv st) (h_id h) (rr st (h_snap h)) = Some r → 1 <= h_id h < m_next st.
Proof.
  intros I [_ Hs] Hl.
  destruct (load_node _ _ _ _ _ _ (inv_shape _ I) (rr_in64 _ _ I Hs) Hl) as (s & _ & _ & _ & _ & Hid & _). done.
Qed.
Lemma lookup_resolves st dir name c :
  inv st → handle_ok dir → lasting st dir → lookup_ st dir name = Some c →
  handle_ok c ∧ lasting st c ∧ resolves st c.
Proof.
  intros I [Hid Hs] L Hl. pose proof (sh_cur _ _ _ (inv_shape _ I)) as Hcur. pose proof (sh_next _ _ _ (inv_shape _ I)).
  assert (Reads.live st dir) as Hlive.
  { unfold Reads.live, rr. destruct L as [->|L]; [rewrite Z.eqb_refl; lia|]. rewrite (proj2 (Z.eqb_neq _ LATEST)) by lia. lia. }
  destruct (isSnapDir (h_id dir)) eqn:Hd.
  - apply lookup_snap in Hl as (g & _ & [Hg He]%elem_of_snap_ids & ->); [|done]. 
    unfold handle_ok, lasting, resolves, nodeById. cbn [h_id h_snap].
    pose proof (Z.mod_pos_bound (h_id dir) (2 ^ 63) ltac:(lia)).
    rewrite isSnapDir_spec by (rewrite snapBase_spec; word_lia). rewrite (proj2 (Z.leb_gt _ _)) by (rewrite snapBase_spec; lia).
    unfold rr. rewrite (proj2 (Z.eqb_neq g LATEST)) by lia. rewrite He.
    unfold LATEST in *. rewrite snapBase_spec. split_and!; [word_lia..|by right|done].
  - rewrite isSnapDir_spec, Z.leb_gt in Hd by done.
    destruct (decide (name = SNAPSHOT_NAME ∧ h_snap dir = LATEST ∧ c = mkHandle (Z.lor (h_id dir) SNAP_BIT) LATEST))
      as [(-> & HL & ->)|Hno].
    + unfold handle_ok, lasting. cbn [h_id h_snap]. rewrite lor_SNAP_BIT by word_lia.
      split_and!; [word_lia..|unfold LATEST; word_lia|by left|].
      apply resolves_view. cbn [h_id h_snap]. unfold base_of. rewrite isSnapDir_spec by word_lia.
      rewrite (proj2 (Z.leb_le _ _)) by word_lia. rewrite snapBase_spec.
      replace ((h_id dir + 2 ^ 63) mod 2 ^ 63) with (h_id dir)
        by (rewrite <- (Z.mul_1_l (2 ^ 63)) at 1; rewrite Z.mod_add by lia; symmetry; apply Z.mod_small; word_lia).
      unfold lookup_ in Hl. rewrite isSnapDir_spec, (proj2 (Z.leb_gt _ _)) in Hl by done. rewrite HL in Hl.
      simpl. destruct (loadNode _ _ _); [by eexists|done].
    + assert (lookup_ st dir name = (λ c, mkHandle c (h_snap dir)) <$> v_ent (at_ st dir) (h_id dir) name) as E.
      { unfold lookup_, at_ in *. rewrite isSnapDir_spec, (proj2 (Z.leb_gt _ _)) in * by done. cbn [v_ent view]. unfold ent.
        destruct (loadNode _ _ _) as [r|]; [|done].
        destruct (bool_decide (name = SNAPSHOT_NAME) && (h_snap dir =? LATEST) && (r_type r =? tcode DIR)) eqn:Eb.
        - exfalso. rewrite !andb_true_iff, bool_decide_eq_true, Z.eqb_eq in Eb.
          destruct Eb as [[-> HL] _]. apply Hno. by injection Hl as <-.
        - rewrite dn_t_get. by destruct (t_get _ _ _). }
      rewrite E in Hl. apply fmap_Some in Hl as (cid & Hc & ->).
      destruct (inv_at st _ I Hlive) as [G _]. destruct (gr_ent _ G _ _ _ Hid Hc) as (_ & _ & Hci & Hch).
      split; [done|]. split; [done|]. apply resolves_view. cbn [h_id h_snap]. unfold base_of.
      pose proof Hch as [r Hr]. simpl in Hr. apply fmap_Some in Hr as (r' & Hr & _).
      pose proof (loadNode_id st (mkHandle cid (h_snap dir)) r' I ltac:(done) Hr) as Hb. simpl in Hb.
      rewrite isSnapDir_spec, (proj2 (Z.leb_gt _ _)) by (done || word_lia). done.
Qed.

Lemma steps_resolves k st st' h :
  inv st → room k st → steps k st st' → in64 (h_id h) → lasting st h → resolves st h → resolves st' h.
Proof.
  intros I Hr (ops & Hl & Hops & _ & ->) Hid. apply (room_le _ (Z.of_nat (length ops))) in Hr; [|lia]. clear Hl.
  revert st I Hr. induction Hops as [|op ops Ha _ IH]; intros st I Hr L Hres; simpl; [done|].
  destruct (exec_room (Z.of_nat (length ops)) st op) as (I' & Hr' & _);
    [lia|done|eapply room_le; [|done]; simpl; lia|done|].
  destruct (exec_resolves st op h) as [Hres' L'];
    [done|apply op_args_ok; [done|eapply room_le; [|done]; simpl; lia|done]|done..|].
  by apply IH.
Qed.

(** C37. File handles last: the handle LOOKUP puts in a reply is read back as
    the node it was for, and resolves to that node in every later state of
    the store, whatever calls come between. *)
Theorem nfs_handles_last st st' k dir name c v q :
  reachable_from fresh_store st → handle_ok dir → lasting st dir →
  lookup_ st dir name = Some c →
  room k st → steps k st st' →
  w_fh v (h_id c) (h_snap c) = v ++ be4 16 ++ be8 (h_id c) ++ be8 (h_snap c) ∧
  (r_fh (rd_at v (be4 16 ++ be8 (h_id c) ++ be8 (h_snap c) ++ q))).1 = Some (h_id c, h_snap c) ∧
  nodeById st' (h_id c) (h_snap c) = Some c.
Proof.
  intros R%inv_reachable Hd L Hl Hr Hs. destruct (lookup_resolves st dir name c R Hd L Hl) as ([Hi Hsn] & Lc & Hc).
  split; [apply w_fh_eq|]. split; [by rewrite r_fh_at|]. by eapply (steps_resolves k st st' c).
Qed.
End Handles.

(** ** Two deviations *)

(** A length word of the last three values passes the bounds check with a pad
    of 0, and the copy leaves the message. *)
Lemma str_overrun len q :
  2 ^ 32 - 3 <= len < 2 ^ 32 → Z.of_nat (length q) < len → r_str (rd_at [] (be4 len ++ q)) = None.
Proof.
  intros Hl Hq. unfold r_str. rewrite r_u32_at by word_lia.
  assert (pad_of len = 0) as ->.
  { unfold pad_of, u32. assert (len = 2 ^ 32 - 3 ∨ len = 2 ^ 32 - 2 ∨ len = 2 ^ 32 - 1) as [-> |[-> | ->]] by lia; reflexivity. }
  unfold rd_at, rd_n. cbn [rd_ok rd_p rd_pos negb orb]. rewrite !length_app. change (length (be4 len)) with 4%nat.
  rewrite (proj2 (Z.ltb_ge _ _)) by (simpl; lia). rewrite (proj2 (Z.ltb_lt _ _)) by (simpl; lia). done.
Qed.

(** CREATE whose arguments end inside the directory handle is answered with
    SUCCESS and no result. *)
Lemma truncated_create_succeeds :
  let s := mkNs (M := gmap bytes bytes) demo (rd_at [] (be4 16 ++ be8 1)) [] ∅ in
  (λ '(st, s'), (st, ns_out s')) <$> dispatch Registry0 [] None false PROG_NFS NFS_V3 NFSPROC3_CREATE Cred0 s = Some (SUCCESS, []).
Proof. vm_compute. reflexivity. Qed.

(** ** Witnesses *)

Section Room.
Context {M : Type} `{!KvEngine M}.
(** Room, by looking at the nodes there are. *)
Definition room_ok (k : Z) (st : Store M) : bool :=
  (k <? 2 ^ 32) && (m_next st + k <=? 2 ^ 63) &&
  forallb (λ c, match loadNode (m_kv st) c (m_cur st) with Some r => r_nlink r + k <? 2 ^ 32 | None => true end)
    (seqZ 1 (m_next st - 1)).
Lemma room_ok_spec k (st : Store M) : inv st → room_ok k st = true → room k st.
Proof.
  intros I. pose proof (inv_shape _ I) as Hsh. pose proof (shape_in64_cur _ _ _ Hsh) as Hcur.
  unfold room_ok. rewrite !andb_true_iff, Z.ltb_lt, Z.leb_le, forallb_forall. intros [[Hk Hn] Hf].
  split; [done|]. split; [done|]. intros c r Hc. simpl. intros (r' & Hl & ->)%fmap_Some.
  destruct (load_node _ _ _ _ _ _ Hsh Hcur Hl) as (s & _ & _ & _ & Hok & Hid & _).
  specialize (Hf c). rewrite Hl, Z.ltb_lt in Hf. 
  assert (r_nlink r' + k < 2 ^ 32) by (apply Hf, list_elem_of_In, elem_of_seqZ; lia).
  destruct r'. unfold rec_ok in Hok. simpl in *. destruct_and!. word_lia.
Qed.
End Room.

Definition words (l : list Z) : bytes := l ≫= be4.
(** An RPC call without credentials. *)
Definition demo_call (prog vers proc : Z) (args : bytes) : bytes := words [1; 0; 2; prog; vers; proc; 0; 0; 0; 0] ++ args.
Definition demo_mkdir : bytes := demo_call PROG_NFS NFS_V3 NFSPROC3_MKDIR (dirop_args 1 LATEST (str "new") ++ words [0; 0; 0; 0; 0; 0]).
Definition demo_ns (rd : Reader) : NState (gmap bytes bytes) := mkNs demo rd [] ∅.

Lemma demo_room k : room_ok k demo = true → room k demo.
Proof. apply room_ok_spec, demo_inv. Qed.

Lemma nfs_session_safe_witness :
  ∃ frame st' ck', session_step Registry0 [] None true demo ∅ 0x80000060 demo_mkdir = Some (Replied frame, st', ck') ∧
  lookup_ st' (mkHandle 1 LATEST) (str "new") = Some (mkHandle 4 LATEST) ∧
  (steps 16 demo st' ∧ reachable_from fresh_store st' ∧
   ∀ h n, in64 (h_id h) → isSnapDir (h_id h) = false → 1 <= h_snap h < m_cur demo →
     observe st' h = observe demo h ∧ lookup_ st' h n = lookup_ demo h n).
Proof.
  assert (match session_step Registry0 [] None true demo ∅ 0x80000060 demo_mkdir with
    | Some (Replied _, st', _) => bool_decide (lookup_ st' (mkHandle 1 LATEST) (str "new") = Some (mkHandle 4 LATEST))
    | _ => false end = true) as Hc by (vm_compute; reflexivity).
  destruct (session_step Registry0 [] None true demo ∅ 0x80000060 demo_mkdir) as [[[[|frame] st'] ck']|] eqn:E; try discriminate Hc.
  exists frame, st', ck'. split; [reflexivity|]. split; [by apply bool_decide_eq_true in Hc|].
  apply (nfs_session_safe Registry0 [] None true demo ∅ 0x80000060 demo_mkdir (Replied frame) st' ck'); [apply demo_reachable| |exact E].
  apply demo_room. vm_compute. reflexivity.
Defined.

Lemma answered {A} (o : option A) : bool_decide (is_Some o) = true → ∃ x, o = Some x.
Proof. by intros [x ->]%bool_decide_eq_true; eexists. Qed.

Lemma nfs_readers_do_not_write_witness :
  ∃ x s', dispatch Registry0 [] None true PROG_NFS NFS_V3 NFSPROC3_GETATTR Cred0 (demo_ns (rd_at [] (be4 16 ++ be8 1 ++ be8 LATEST))) = Some (x, s') ∧
  ns_fs s' = demo.
Proof.
  destruct (answered (dispatch Registry0 [] None true PROG_NFS NFS_V3 NFSPROC3_GETATTR Cred0 (demo_ns (rd_at [] (be4 16 ++ be8 1 ++ be8 LATEST)))))
    as [[x s'] E]; [vm_compute; reflexivity|].
  exists x, s'. split; [exact E|].
  apply (nfs_readers_do_not_write Registry0 [] None true PROG_NFS NFS_V3 NFSPROC3_GETATTR Cred0
    (demo_ns (rd_at [] (be4 16 ++ be8 1 ++ be8 LATEST))) x s' demo_reachable eq_refl E).
Defined.

Lemma demo_visible : visible demo (mkHandle 1 LATEST) = [(str "d", mkHandle 2 LATEST); (str "g", mkHandle 3 LATEST)].
Proof. vm_compute. reflexivity. Qed.
Lemma readdir_walk_witness :
  ∃ s', client_list (S (length (listing demo (mkHandle 1 LATEST)))) (mkHandle 1 LATEST) 0 160 0 (demo_ns (rd_at [] [])) =
    Some (listing demo (mkHandle 1 LATEST), s') ∧ ns_fs s' = demo.
Proof.
  apply (readdir_walk (mkHandle 1 LATEST) 160 0 (demo_ns (rd_at [] []))); [apply demo_reachable|done| |].
  - intros n m. cbn [demo_ns ns_fs ns_ck]. rewrite demo_visible, lookup_empty. cbn [fmap list_fmap fst].
    intros Hn [[Hm Hh]|]; [|done]. revert Hh. rewrite !elem_of_cons in Hn, Hm.
    destruct Hn as [-> |[-> |Hn%elem_of_nil]], Hm as [-> |[-> |Hm%elem_of_nil]]; done.
  - cbn [demo_ns ns_fs]. unfold listing. rewrite demo_visible. repeat constructor; eexists; vm_compute; reflexivity.
Defined.

Lemma nfs_lookup_reply_witness :
  ∃ s', dispatch Registry0 [] None true PROG_NFS NFS_V3 NFSPROC3_LOOKUP Cred0
      (demo_ns (rd_at [] (dirop_args 1 LATEST (str "d") ++ []))) = Some (SUCCESS, s') ∧ ns_fs s' = demo ∧
    ns_out s' = lookup_reply None demo [] (mkHandle 1 LATEST) (lookup_ demo (mkHandle 1 LATEST) (str "d")).
Proof.
  apply (nfs_lookup_reply Registry0 [] None true Cred0 (demo_ns (rd_at [] (dirop_args 1 LATEST (str "d") ++ []))) [] []);
    [done|done|vm_compute; discriminate|done|vm_compute; reflexivity..].
Defined.

Lemma nfs_snapshot_readonly_witness :
  ∃ x s', nfsCall Registry0 [] None 2 Cred0 (demo_ns (rd_at [] (be4 16 ++ be8 1 ++ be8 1 ++ words [0; 0; 0; 0; 0; 0; 0]))) = Some (x, s') ∧
  ns_fs s' = demo.
Proof.
  destruct (answered (nfsCall Registry0 [] None 2 Cred0 (demo_ns (rd_at [] (be4 16 ++ be8 1 ++ be8 1 ++ words [0; 0; 0; 0; 0; 0; 0])))))
    as [[x s'] E]; [vm_compute; reflexivity|].
  exists x, s'. split; [exact E|].
  apply (nfs_snapshot_readonly Registry0 [] None 2 Cred0
    (demo_ns (rd_at [] (be4 16 ++ be8 1 ++ be8 1 ++ words [0; 0; 0; 0; 0; 0; 0]))) x s' 1 1 demo_reachable); [vm_compute; reflexivity|discriminate|apply elem_of_cons; left; reflexivity|exact E].
Defined.

Lemma nfs_handles_last_witness :
  lookup_ demo (mkHandle 1 LATEST) (str "g") = Some (mkHandle 3 LATEST) ∧
  w_fh [] 3 LATEST = [] ++ be4 16 ++ be8 3 ++ be8 LATEST ∧
  (r_fh (rd_at [] (be4 16 ++ be8 3 ++ be8 LATEST ++ []))).1 = Some (3, LATEST) ∧
  nodeById (exec demo (OpUnlink (mkHandle 1 LATEST) (str "g"))).2 3 LATEST = Some (mkHandle 3 LATEST).
Proof.
  split; [vm_compute; reflexivity|].
  apply (nfs_handles_last demo (exec demo (OpUnlink (mkHandle 1 LATEST) (str "g"))).2 1 (mkHandle 1 LATEST) (str "g") (mkHandle 3 LATEST) [] []).
  - apply demo_reachable.
  - done.
  - by left.
  - vm_compute. reflexivity.
  - apply demo_room. vm_compute. reflexivity.
  - by apply steps_one.
Defined.
