(* ===== verification/Calls.v ===== *)
(** * Calls: what a program does to the store by its calls

    A reachable store with room, and what each operation makes of it: the tool
    of the proofs about the plugins and the Lua bindings. *)
From S2P Require Import Prelude Keys Kv NodeRec Spec Store Views Shape Graph Links Inv Init Reads Paths StoreProps NfsSteps.
Local Open Scope Z_scope.
Set Warnings "-clear-no-such-hyp".

Section Calls.
Context {M : Type} `{!KvEngine M}.
Implicit Types (fs : Store M).

(** A reachable store with room for [k] more operations. *)
Definition ready (k : Z) fs : Prop := reachable_from fresh_store fs ∧ room k fs.
Lemma ready_inv k fs : ready k fs → inv fs.
Proof. intros [R _]. by apply inv_reachable. Qed.
Lemma ready_le j k fs : j <= k → ready k fs → ready j fs.
Proof. intros ? [R Hr]. split; [done|]. by eapply room_le. Qed.
Lemma ready_next k fs : 0 <= k → ready k fs → 2 <= m_next fs ∧ m_next fs + k <= 2 ^ 63.
Proof. intros ? [R Hr]. split; [apply (inv_shape _ (inv_reachable _ R))|apply Hr]. Qed.

Lemma exec_ready k fs op :
  0 <= k → ready (k + 1) fs → op_args op → ready k (exec fs op).2 ∧ m_cur (exec fs op).2 = m_cur fs.
Proof.
  intros Hk [R Hr] Ha. pose proof (inv_reachable _ R) as I.
  destruct (exec_room k fs op Hk I Hr Ha) as (_ & Hr' & Hc). split; [|done]. split; [|done].
  constructor; [done|]. apply op_args_ok; [done|eapply room_le; [|done]; lia|done].
Qed.
(** The step of the abstract file system that an operation is. *)
Lemma exec_abs k fs op :
  0 <= k → ready (k + 1) fs → op_args op →
  ∃ s', fs_step (abs fs) op (exec fs op).1 s' ∧ m_next (exec fs op).2 = f_next s' ∧ vw (exec fs op).2 ≡ f_now s'.
Proof.
  intros Hk [R Hr] Ha. pose proof (inv_reachable _ R) as I.
  assert (op_ok fs op) as Hok by (apply op_args_ok; [done|eapply room_le; [|done]; lia|done]).
  destruct (exec_sim fs op I Hok) as (_ & s' & Hs & (_ & E1 & _ & E2 & _)). eauto.
Qed.

Lemma snapshot_ready k fs label :
  ready k fs → m_cur fs + 1 < LATEST →
  let fs' := (snapshot fs label).2 in
  ready k fs' ∧ m_cur fs' = m_cur fs + 1 ∧ m_next fs' = m_next fs ∧ vw fs' ≡ vw fs ∧ (snapshot fs label).1 = m_cur fs.
Proof.
  intros [R Hr] Hc fs'. pose proof (inv_reachable _ R) as I.
  destruct (exec_sim fs (OpSnapshot label) I Hc) as (_ & s' & Hs & E). inversion Hs; subst.
  change (exec fs (OpSnapshot label)).2 with fs' in E. pose proof E as (E1 & E2 & _ & E4 & _).
  split_and!; try done. split; [by apply (RefStep _ fs (OpSnapshot label))|].
  eapply fs_slack_equiv; [symmetry; exact E|]. exact Hr.
Qed.
Lemma config_ready k fs blob :
  ready k fs → let fs' := setContentConfig fs blob in
  ready k fs' ∧ m_cur fs' = m_cur fs ∧ m_next fs' = m_next fs ∧ vw fs' ≡ vw fs.
Proof.
  intros [R Hr] fs'. pose proof (inv_reachable _ R) as I.
  destruct (exec_sim fs (OpSetConfig blob) I Logic.I) as (_ & s' & Hs & E). inversion Hs; subst.
  change (exec fs (OpSetConfig blob)).2 with fs' in E. pose proof E as (E1 & E2 & _ & E4 & _).
  split_and!; try done. split; [by apply (RefStep _ fs (OpSetConfig blob))|].
  eapply fs_slack_equiv; [symmetry; exact E|]. exact Hr.
Qed.
Lemma time_ready k fs t :
  0 <= k → ready (k + 1) fs → in64 t → let fs' := setTime fs t in
  ready k fs' ∧ m_cur fs' = m_cur fs ∧ m_next fs' = m_next fs ∧ vw fs' ≡ vw fs.
Proof.
  intros Hk Hr Ht fs'. destruct (exec_ready k fs (OpSetTime t) Hk Hr Ht) as [H1 H2].
  destruct (exec_abs k fs (OpSetTime t) Hk Hr Ht) as (s' & Hs & H3 & H4). inversion Hs; subst. done.
Qed.

(** A new node: at the next id, and nothing else. *)
Lemma alloc_ready k fs op ty blob :
  0 <= k → ready (k + 1) fs →
  op = OpMkdir ∧ ty = DIR ∧ blob = [] ∨ op = OpMkfile blob ∧ ty = REG ∨ op = OpSymlink blob ∧ ty = LNK →
  let fs' := (exec fs op).2 in
  ready k fs' ∧ m_cur fs' = m_cur fs ∧ m_next fs' = m_next fs + 1 ∧
  vw fs' ≡ v_create (m_next fs) (fresh_node ty blob 0 (m_clock fs)) (vw fs).
Proof.
  intros Hk Hr Hop fs'. assert (op_args op) as Ha by (by destruct Hop as [(-> & _)|[(-> & _)|(-> & _)]]).
  destruct (exec_ready k fs op Hk Hr Ha) as [H1 H2]. destruct (exec_abs k fs op Hk Hr Ha) as (s' & Hs & H3 & H4).
  destruct Hop as [(-> & -> & ->)|[(-> & ->)|(-> & ->)]]; by inversion Hs; subst.
Qed.

(** A link under a free name that closes no cycle is made. *)
Lemma link_ready k fs d n c :
  0 <= k → ready (k + 1) fs → in64 (h_id d) → in64 (h_id c) →
  is_dir (vw fs) (h_id d) → is_Some (v_attr (vw fs) (h_id c)) → ¬ rtc (edge (vw fs)) (h_id c) (h_id d) →
  v_ent (vw fs) (h_id d) n = None → n ≠ SNAPSHOT_NAME →
  let fs' := (link fs d n c).2 in
  ready k fs' ∧ m_cur fs' = m_cur fs ∧ m_next fs' = m_next fs ∧ vw fs' ≡ v_link (h_id d) n (h_id c) (vw fs).
Proof.
  intros Hk Hr Hd Hc Hdir Hch Hcyc Hn Hsn fs'. assert (op_args (OpLink d n c)) as Ha by done.
  destruct (exec_ready k fs _ Hk Hr Ha) as [H1 H2]. destruct (exec_abs k fs _ Hk Hr Ha) as (s' & Hs & H3 & H4).
  change (exec fs (OpLink d n c)).2 with fs' in *. split; [done|]. split; [done|].
  inversion Hs as [| | | | | |d' n' c' e v Hl| | | | | | | | | |]; subst. cbn [f_next set_now abs] in H3. split; [done|].
  etrans; [exact H4|]. cbn [f_now set_now abs] in *. fold (vw fs) in Hl. destruct Hdir as (rd & Hrd & Hty).
  inversion Hl; subst; try done; try congruence; try (destruct Hch; congruence).
Qed.
Lemma put_ready k fs a h x :
  0 <= k → ready (k + 1) fs → in64 (h_id h) → attr_ok a x →
  let fs' := attr_put a fs h x in
  ready k fs' ∧ m_cur fs' = m_cur fs ∧ m_next fs' = m_next fs ∧ vw fs' ≡ v_update (attr_set a x) (h_id h) (vw fs).
Proof.
  intros Hk Hr Hh Hx fs'. assert (op_args (OpPut a h x)) as Ha by done.
  destruct (exec_ready k fs _ Hk Hr Ha) as [H1 H2]. destruct (exec_abs k fs _ Hk Hr Ha) as (s' & Hs & H3 & H4).
  change (exec fs (OpPut a h x)).2 with fs' in *. inversion Hs; subst. done.
Qed.
(** [setContentSeed] changes at most the seed of its file. *)
Lemma seed_ready k fs h x :
  0 <= k → ready (k + 1) fs → in64 (h_id h) → in64 x →
  let fs' := (setContentSeed fs h x).2 in
  ready k fs' ∧ m_cur fs' = m_cur fs ∧ m_next fs' = m_next fs ∧
  (vw fs' ≡ vw fs ∨ vw fs' ≡ v_update (set_spec x) (h_id h) (vw fs)).
Proof.
  intros Hk Hr Hh Hx fs'. assert (op_args (OpSetSeed h x)) as Ha by done.
  destruct (exec_ready k fs _ Hk Hr Ha) as [H1 H2]. destruct (exec_abs k fs _ Hk Hr Ha) as (s' & Hs & H3 & H4).
  change (exec fs (OpSetSeed h x)).2 with fs' in *. split; [done|]. split; [done|].
  inversion Hs as [| | | | | | | | | | | |h' x' e v Ht| | | |]; subst. split; [done|]. cbn [f_now set_now abs] in *. fold (vw fs) in Ht.
  inversion Ht; subst; auto.
Qed.

End Calls.
