(* ===== verification/Bigtree.v ===== *)
(** * Bigtree: the builder of synthetic trees (plugins/bigtree/bigtree.cpp)

    The plugin's options, [buildDir], the sizes of the files, the daily rounds
    and [start], as programs over the store and the members of [build] that the
    lambdas capture. The generator and its distributions, whose results the C++
    standard leaves to the implementation, are the interface [Draws]. *)
From S2P Require Import Prelude Keys Kv NodeRec Store Reads CStr Content Host.
Local Open Scope Z_scope.
Set Warnings "-clear-no-such-hyp".

(** ** Options *)

Definition suffix_mult (c : byte) : Z :=
  let one_of := λ lo up, (bz c =? bz lo) || (bz c =? bz up) in
  if one_of "k"%byte "K"%byte then 2 ^ 10
  else if one_of "m"%byte "M"%byte then 2 ^ 20
  else if one_of "g"%byte "G"%byte then 2 ^ 30
  else if one_of "t"%byte "T"%byte then 2 ^ 40
  else if one_of "p"%byte "P"%byte then 2 ^ 50
  else 1.
(** [None] is an exception of [std::stoull]. *)
Definition parseSize (s : bytes) : option Z :=
  match last s with
  | None => Some 0
  | Some c =>
      let mult := suffix_mult c in
      let num := if mult =? 1 then s else take (length s - 1) s in
      (λ v, u64 (v * mult)) <$> stoull num
  end.

Definition opt (o : Options) (key def : bytes) : bytes :=
  match option_ o key with [] => def | v => v end.
Definition optInt (o : Options) (key def : bytes) : option Z := stoll (opt o key def).
(** The conversion to [int]. *)
Definition i32 (z : Z) : Z := (z + 2 ^ 31) mod 2 ^ 32 - 2 ^ 31.

Record Cfg := mkCfg { c_depth : Z; c_dirs : Z; c_files : Z; c_rounds : Z; c_total : Z; c_seed : Z }.
Definition bt_config (o : Options) : option Cfg :=
  depth ← optInt o (str "bigtree.depth") (str "4");
  dirs ← optInt o (str "bigtree.dirs") (str "5");
  files ← optInt o (str "bigtree.files") (str "8");
  rounds ← optInt o (str "bigtree.snapshots") (str "3");
  total ← parseSize (opt o (str "bigtree.total") (str "1T"));
  seed ← optInt o (str "bigtree.seed") (str "42");
  Some (mkCfg (i32 depth) (i32 dirs) (i32 files) (i32 rounds) total (u64 seed)).

(** ** Draws *)

(** The engine [R]; the distributions over [int] and over the weight [W] of a
    file ([exp(6.9 u)], a [double]); and the [double] expression
    [max(1, floor(total * w / wsum))], [wsum] being the sum of the weights. A
    weight is between 1 and 1000, so the conversion to 64 bits is defined up to
    a total of [2 ^ 53]. *)
Class Draws (R W : Type) := {
  mt19937_64 : Z → R;
  uniform_int : R → Z → Z → Z * R;
  randWeight : R → W * R;
  share : Z → list W → W → Z;
  uniform_int_law r lo hi : lo <= hi → lo <= (uniform_int r lo hi).1 <= hi;
  share_law total ws w : 0 <= total <= 2 ^ 53 → ws ≠ [] → 1 <= share total ws w < 2 ^ 64
}.

(** ** The state of [build] *)

(** [None] is an access outside [files]. *)
Record Bst (M R : Type) := mkB {
  b_fs : Store M; b_rng : R; b_files : list (Handle * bytes);
  b_dirs : Z; b_hard : Z; b_sym : Z; b_id : Z
}.
Arguments mkB {M R} _ _ _ _ _ _ _.
Arguments b_fs {M R} _.
Arguments b_rng {M R} _.
Arguments b_files {M R} _.
Arguments b_dirs {M R} _.
Arguments b_hard {M R} _.
Arguments b_sym {M R} _.
Arguments b_id {M R} _.
Definition Build (M R A : Type) : Type := Bst M R → option (A * Bst M R).
Global Instance build_ret {M R} : MRet (Build M R) := λ A x s, Some (x, s).
Global Instance build_bind {M R} : MBind (Build M R) := λ A B f p s,
  match p s with Some (x, s') => f x s' | None => None end.

Section Build.
Context {M : Type} `{!KvEngine M} {R W : Type} `{!Draws R W}.
Abbreviation P A := (Build M R A).
Abbreviation B := (Bst M R).

Definition set_fs (fs : Store M) (s : B) : B := mkB fs (b_rng s) (b_files s) (b_dirs s) (b_hard s) (b_sym s) (b_id s).
Definition set_rng (r : R) (s : B) : B := mkB (b_fs s) r (b_files s) (b_dirs s) (b_hard s) (b_sym s) (b_id s).
Definition set_files (l : list (Handle * bytes)) (s : B) : B := mkB (b_fs s) (b_rng s) l (b_dirs s) (b_hard s) (b_sym s) (b_id s).
Definition count_dir : P () := λ s, Some (tt, mkB (b_fs s) (b_rng s) (b_files s) (u64 (b_dirs s + 1)) (b_hard s) (b_sym s) (b_id s)).
Definition count_hard : P () := λ s, Some (tt, mkB (b_fs s) (b_rng s) (b_files s) (b_dirs s) (u64 (b_hard s + 1)) (b_sym s) (b_id s)).
Definition count_sym : P () := λ s, Some (tt, mkB (b_fs s) (b_rng s) (b_files s) (b_dirs s) (b_hard s) (u64 (b_sym s + 1)) (b_id s)).
Definition uniq : P Z := λ s, Some (b_id s + 1, mkB (b_fs s) (b_rng s) (b_files s) (b_dirs s) (b_hard s) (b_sym s) (b_id s + 1)).

(** A call of the store with a result. *)
Definition call {A} (f : Store M → A * Store M) : P A := λ s, let '(x, fs) := f (b_fs s) in Some (x, set_fs fs s).
Definition do_ (f : Store M → Store M) : P () := call (λ fs, (tt, f fs)).
Definition get_files : P (list (Handle * bytes)) := λ s, Some (b_files s, s).
Definition push (f : Handle) (path : bytes) : P () := λ s, Some (tt, set_files (b_files s ++ [(f, path)]) s).
Definition file_at (i : Z) : P (Handle * bytes) := λ s,
  if i <? 0 then None else (λ x, (x, s)) <$> b_files s !! Z.to_nat i.
Definition randi (lo hi : Z) : P Z := λ s,
  if hi <? lo then Some (lo, s) else let '(x, r) := uniform_int (b_rng s) lo hi in Some (x, set_rng r s).
Definition weight : P W := λ s, let '(w, r) := randWeight (b_rng s) in Some (w, set_rng r s).
(** [files[randi(0, int(files.size()) - 1)]] *)
Definition pick : P (Handle * bytes) :=
  files ← get_files; i ← randi 0 (i32 (Z.of_nat (length files)) - 1); file_at i.

(** [for (int i = 0; i < n; ++i)] *)
Fixpoint times (n : nat) (p : P ()) : P () :=
  match n with O => mret tt | S n' => _ ← p; times n' p end.
Definition repeat_ (n : Z) (p : P ()) : P () := times (Z.to_nat n) p.

(** ** [buildDir] *)

Definition slash (prefix name : bytes) : bytes := prefix ++ str "/" ++ name.

Definition add_file (dir : Handle) (prefix : bytes) : P () :=
  i ← uniq;
  let name := str "file-" ++ to_string i ++ str ".bin" in
  f ← call (λ fs, mkfile fs []);
  _ ← call (λ fs, link fs dir name f);
  push f (slash prefix name).
Definition add_hardlink (dir : Handle) : P () :=
  tgt ← pick;
  i ← uniq;
  _ ← call (λ fs, link fs dir (str "hardlink-" ++ to_string i ++ str ".bin") tgt.1);
  count_hard.
Definition add_symlink (dir : Handle) : P () :=
  tgt ← pick;
  i ← uniq;
  l ← call (λ fs, symlink fs tgt.2);
  _ ← call (λ fs, link fs dir (str "symlink-" ++ to_string i) l);
  count_sym.
(** One subdirectory; [sub] is [buildDir] of the next level. *)
Definition add_dir (sub : Handle → bytes → P ()) (dir : Handle) (prefix : bytes) : P () :=
  i ← uniq;
  let name := str "dir-" ++ to_string i in
  d ← call mkdir;
  _ ← count_dir;
  _ ← call (λ fs, link fs dir name d);
  sub d (slash prefix name).
(** The files of a directory, and links to files there are already. *)
Definition fill_dir (c : Cfg) (dir : Handle) (prefix : bytes) : P () :=
  nf ← randi 0 (c_files c);
  _ ← repeat_ nf (add_file dir prefix);
  files ← get_files;
  match files with
  | [] => mret tt
  | _ =>
      nh ← randi 0 (Z.quot (c_files c) 4);
      _ ← repeat_ nh (add_hardlink dir);
      ns ← randi 0 (Z.quot (c_files c) 3);
      repeat_ ns (add_symlink dir)
  end.
(** [levels] is [depth - level]. *)
Fixpoint buildDir (c : Cfg) (levels : nat) (dir : Handle) (prefix : bytes) : P () :=
  _ ← fill_dir c dir prefix;
  match levels with
  | O => mret tt
  | S levels' => nd ← randi 1 (c_dirs c); repeat_ nd (add_dir (buildDir c levels') dir prefix)
  end.

(** ** Sizes *)

Fixpoint weights (n : nat) : P (list W) :=
  match n with O => mret [] | S n' => w ← weight; ws ← weights n'; mret (w :: ws) end.
(** [wsum > 0] when there is a file, a weight being positive. *)
Definition size_of (total : Z) (ws : list W) (w : W) : Z :=
  match ws with [] => 1 | _ => share total ws w end.
Fixpoint set_sizes (total : Z) (ws : list W) (l : list ((Handle * bytes) * W)) : P () :=
  match l with
  | [] => mret tt
  | (f, w) :: l' => _ ← do_ (λ fs, put_size fs f.1 (size_of total ws w)); set_sizes total ws l'
  end.
Definition size_files (total : Z) : P (list W) :=
  files ← get_files;
  ws ← weights (length files);
  _ ← set_sizes total ws (zip files ws);
  mret ws.

(** ** The daily rounds *)

Definition randSize (total : Z) (ws : list W) : P Z :=
  match ws with [] => mret 1 | _ => w ← weight; mret (share total ws w) end.
Definition add_new (total : Z) (ws : list W) (d : Handle) (day : Z) : P () :=
  f ← call (λ fs, mkfile fs []);
  sz ← randSize total ws;
  _ ← do_ (λ fs, put_size fs f sz);
  i ← uniq;
  _ ← call (λ fs, link fs d (str "new-" ++ to_string i ++ str ".bin") f);
  push f (str "/day-" ++ to_string day).
Definition touch_files (day : Z) : P () :=
  files ← get_files;
  _ ← match files with
      | f :: _ => _ ← call (λ fs, setContentSeed fs f.1 (u64 (1000 + day))); mret tt
      | [] => mret tt
      end;
  match files with
  | _ :: f :: _ => do_ (λ fs, put_mode fs f.1 (u32 (384 + day)))
  | _ => mret tt
  end.
Definition day_round (c : Cfg) (ws : list W) (root : Handle) (t day : Z) : P Z :=
  _ ← do_ (λ fs, setTime fs t);
  _ ← touch_files day;
  d ← call mkdir;
  _ ← call (λ fs, link fs root (str "day-" ++ to_string day) d);
  nn ← randi 1 (c_files c);
  _ ← repeat_ nn (add_new (c_total c) ws d day);
  call (λ fs, snapshot fs (str "day-" ++ to_string day)).
Fixpoint days (c : Cfg) (ws : list W) (root : Handle) (n : nat) (t day : Z) : P (list Z) :=
  match n with
  | O => mret []
  | S n' =>
      let t := u64 (t + 86400) in
      g ← day_round c ws root t day;
      l ← days c ws root n' t (day + 1);
      mret (g :: l)
  end.

(** ** [build] and [start] *)

Definition bt_content : ContentConfig := mkConfig 65536 255 10 20 (dedupCorpus default_config).
(** [build] after the options are read; the snapshots taken. *)
Definition build (c : Cfg) (root : Handle) : P (list Z) :=
  t0 ← call (λ fs, (now fs, fs));
  let t := if t0 =? 0 then 1700000000 else t0 in
  _ ← (if t0 =? 0 then do_ (λ fs, setTime fs t) else mret tt);
  _ ← do_ (λ fs, setContentConfig fs (config_serialize bt_content));
  _ ← buildDir c (Z.to_nat (c_depth c - 1)) root [];
  ws ← size_files (c_total c);
  g ← call (λ fs, snapshot fs (str "base"));
  l ← days c ws root (Z.to_nat (c_rounds c)) t 1;
  mret (g :: l).
(** [start]: the exceptions of the options become [INVAL]. *)
Definition start (o : Options) (fs : Store M) : option (Error * Store M) :=
  let root := rwRoot fs in
  let force := negb (bool_decide (option_ o (str "bigtree.force") = [])) in
  if negb force && negb (bool_decide (readdir fs root = [])) then Some (OK, fs)
  else match bt_config o with
  | None => Some (INVAL, fs)
  | Some c =>
      '(_, s) ← build c root (mkB fs (mt19937_64 (c_seed c)) [] 0 0 0 0);
      Some (OK, b_fs s)
  end.
End Build.
