(* ===== verification/BigtreeProps.v ===== *)
(** * BigtreeProps: what the bigtree plugin builds

    In an empty store the builder makes no orphan: every node has a path from
    the root, every symbolic link leads to a regular file, no file is empty, and
    the snapshots are sealed. [runs] is a logic of the builder's programs inside
    one directory. *)
From S2P Require Import Prelude Keys Kv NodeRec Spec Store Views Shape Graph Links Inv Init Reads CStr Paths Content Host StoreProps Xdr Nfs3 NfsSteps NfsProps Calls Bigtree.
Local Open Scope Z_scope.
Set Warnings "-clear-no-such-hyp".

Section Links.
Context {M : Type} `{!KvEngine M}.
Implicit Types (fs : Store M).

(** A node without entries leads nowhere but to itself. *)
Lemma leaf_no_path v c d : c ≠ d → (∀ n, v_ent v c n = None) → ¬ rtc (edge v) c d.
Proof.
  intros Hne Hno Hr. inversion Hr as [|x y z (_ & n & He) _]; subst; [done|]. by rewrite Hno in He.
Qed.
Lemma no_entries v c : graph v → in64 c → ¬ is_dir v c → ∀ n, v_ent v c n = None.
Proof. intros G Hc Hd n. destruct (v_ent v c n) as [x|] eqn:E; [|done]. destruct Hd. by apply (gr_ent _ G c n x). Qed.
Lemma absent_no_entries v c : graph v → in64 c → v_attr v c = None → ∀ n, v_ent v c n = None.
Proof. intros G Hc Ha. apply no_entries; [done..|]. intros (r & Hr & _). congruence. Qed.
Lemma reg_no_entries v c : graph v → is_reg v c → ∀ n, v_ent v c n = None.
Proof. intros G (Hc & r & Hr & Ht). apply no_entries; [done..|]. intros (r' & Hr' & Ht'). assert (r' = r) as -> by congruence. rewrite Ht in Ht'. done. Qed.

(** The first link of a node just made. *)
Lemma link_new k fs v d n c r :
  0 <= k → ready (k + 1) fs → graph v → vw fs ≡ v_create (h_id c) r v →
  v_attr v (h_id c) = None → in64 (h_id d) → in64 (h_id c) → is_dir v (h_id d) →
  v_ent v (h_id d) n = None → n ≠ SNAPSHOT_NAME →
  let fs' := (link fs d n c).2 in
  ready k fs' ∧ m_cur fs' = m_cur fs ∧ m_next fs' = m_next fs ∧
  vw fs' ≡ v_link (h_id d) n (h_id c) (v_create (h_id c) r v).
Proof.
  intros Hk Hr G E Hc Hd64 Hc64 Hd Hn Hsn fs'. assert (h_id c ≠ h_id d) as Hne by (intros Heq; destruct Hd as (? & ? & _); congruence).
  assert (is_dir (v_create (h_id c) r v) (h_id d)) as Hdir.
  { destruct Hd as (rd & ? & ?). exists rd. simpl. by rewrite decide_False by congruence. }
  destruct (link_ready k fs d n c) as (H1 & H2 & H3 & H4); try done.
  - by eapply is_dir_equiv; [symmetry; exact E| |].
  - rewrite (proj1 (E _ Hc64)). simpl. by rewrite decide_True.
  - apply leaf_no_path; [done|]. intros m. rewrite (proj2 (E _ Hc64)). simpl. by apply absent_no_entries.
  - by rewrite (proj2 (E _ Hd64)).
  - split_and!; try done. etrans; [exact H4|]. by rewrite E.
Qed.

Lemma link_attr v d n c x :
  v_attr (v_link d n c v) x = if decide (x = c) then inc_nlink <$> v_attr v x else v_attr v x.
Proof. done. Qed.
(** What a view is after a new node was linked. *)
Lemma added_ent v w d n c r x m :
  w ≡ v_link d n c (v_create c r v) → in64 x →
  v_ent w x m = if decide (x = d ∧ m = n) then Some c else v_ent v x m.
Proof. intros E Hx. by rewrite (proj2 (E x Hx)). Qed.
Lemma added_attr v w d n c r x :
  w ≡ v_link d n c (v_create c r v) → in64 x →
  v_attr w x = if decide (x = c) then Some (inc_nlink r) else v_attr v x.
Proof. intros E Hx. rewrite (proj1 (E x Hx)). simpl. by case_decide. Qed.
Lemma added_grows v w d n c r :
  w ≡ v_link d n c (v_create c r v) → v_attr v c = None → v_ent v d n = None → grows v w.
Proof. intros E Hc Hn. rewrite E. etrans; [by apply grows_create|]. by apply grows_link. Qed.
Lemma create_update f c r v : v_update f c (v_create c r v) ≡ v_create c (f r) v.
Proof. intros x Hx. simpl. split; [|done]. by case_decide. Qed.
End Links.

(** ** Names *)

Inductive Kind := KFile | KHard | KSym | KDir | KNew.
Definition uname (kd : Kind) (i : Z) : bytes :=
  match kd with
  | KFile => str "file-" ++ to_string i ++ str ".bin"
  | KHard => str "hardlink-" ++ to_string i ++ str ".bin"
  | KSym => str "symlink-" ++ to_string i
  | KDir => str "dir-" ++ to_string i
  | KNew => str "new-" ++ to_string i ++ str ".bin"
  end.
Definition day_name (day : Z) : bytes := str "day-" ++ to_string day.
(** A name given so far: numbered up to [id], or of a day before [day]. *)
Definition named (day id : Z) (n : bytes) : Prop :=
  (∃ kd i, 1 <= i <= id ∧ n = uname kd i) ∨ ∃ i, 1 <= i < day ∧ n = day_name i.
Lemma named_le day day' i j n : day <= day' → i <= j → named day i n → named day' j n.
Proof. intros ?? [(kd & x & ? & ->)|(x & ? & ->)]; [left; exists kd, x|right; exists x]; (split; [lia|done]). Qed.

(** The digits of a name are its number. *)
Definition digits (s : bytes) : bytes := filter (λ c, is_digit c = true) s.
Lemma digits_to_string i : in64 i → digits (to_string i) = to_string i.
Proof.
  intros Hi. destruct (to_string_digits i Hi) as [Hd _]. unfold digits.
  induction Hd as [|c s Hc _ IH]; [done|]. by rewrite filter_cons_True, IH.
Qed.
Lemma digits_uname kd i : in64 i → digits (uname kd i) = to_string i.
Proof.
  intros Hi. destruct kd; unfold uname, digits; rewrite ?filter_app; fold (digits (to_string i));
    rewrite digits_to_string by done; try apply app_nil_r; reflexivity.
Qed.
Lemma day_not_named day kd i : day_name day ≠ uname kd i.
Proof. by destruct kd. Qed.
Lemma uname_fresh day kd id : 0 <= id → in64 (id + 1) → ¬ named day id (uname kd (id + 1)).
Proof.
  intros ?? [(kd' & i & Hi & E)|(i & _ & E)]; [|by eapply day_not_named]. apply (f_equal digits) in E. rewrite !digits_uname in E by word_lia.
  apply to_string_inj in E; [lia|word_lia..].
Qed.
Lemma digit_no_slash i : in64 i → slash_b ∉ to_string i.
Proof.
  intros Hi Hin. destruct (to_string_digits i Hi) as [Hd _]. rewrite Forall_forall in Hd.
  specialize (Hd _ Hin). vm_compute in Hd. done.
Qed.
Lemma uname_a_name kd i : in64 i → a_name (uname kd i) ∧ uname kd i ≠ SNAPSHOT_NAME.
Proof.
  intros Hi. pose proof (digit_no_slash i Hi) as Hs. split; [split|].
  - by destruct kd.
  - destruct kd; unfold uname; rewrite ?elem_of_app; intros Hin; (destruct_or! Hin); try done;
      vm_compute in Hin; repeat (apply elem_of_cons in Hin as [Hin|Hin]; [done|]); by apply elem_of_nil in Hin.
  - by destruct kd.
Qed.
Lemma day_fresh day id : in64 day → ¬ named day id (day_name day).
Proof.
  intros Hday [(kd & i & _ & E)|(i & Hi & E)]; [by eapply day_not_named|].
  apply (f_equal (drop 4)) in E. cbn [day_name] in E. unfold day_name in E. simpl in E.
  apply to_string_inj in E; [lia|done|word_lia].
Qed.
Lemma day_a_name day : in64 day → a_name (day_name day) ∧ day_name day ≠ SNAPSHOT_NAME.
Proof.
  intros Hi. pose proof (digit_no_slash day Hi) as Hs. split; [split; [done|]|done].
  unfold day_name. rewrite elem_of_app. intros [Hin|Hin]; [|done].
  vm_compute in Hin; repeat (apply elem_of_cons in Hin as [Hin|Hin]; [done|]); by apply elem_of_nil in Hin.
Qed.

(** ** The logic *)

Section Runs.
Context {M : Type} `{!KvEngine M} {R W : Type} `{!Draws R W}.
Abbreviation P A := (Build M R A).
Abbreviation B := (Bst M R).
Implicit Types (s : B) (dir : Handle).

(** The first id the builder makes, and its budget of operations, which bounds
    its numbers as well. *)
Variables (n0 K : Z).
Hypothesis K_small : K < 2 ^ 31.

Definition vws s : View := vw (b_fs s).
Definition next s : Z := m_next (b_fs s).

Record base (k : Z) s : Prop := {
  bs_ready : ready k (b_fs s);
  bs_next : n0 <= next s;
  bs_tree : tree_ok n0 (next s) (vws s);
  bs_files : Z.of_nat (length (b_files s)) + k <= K;
  bs_id : 0 <= b_id s ∧ b_id s + k <= K
}.
Lemma base_inv k s : base k s → inv (b_fs s).
Proof. intros Hb. eapply ready_inv, Hb. Qed.
Lemma base_graph k s : base k s → graph (vws s).
Proof. intros Hb. apply vw_graph. by eapply base_inv. Qed.
Lemma base_le j k s : j <= k → base k s → base j s.
Proof. intros ? [Hr Hn Ht Hf Hi]. split; try done; [by eapply ready_le|lia|lia]. Qed.
Lemma base_id64 k s : 0 <= k → base (k + 1) s → in64 (b_id s + 1).
Proof. intros ? Hb. pose proof (bs_id _ _ Hb). word_lia. Qed.
Lemma base_next64 k s : 0 <= k → base k s → in64 (next s).
Proof. intros Hk Hb. destruct (ready_next k _ Hk (bs_ready _ _ Hb)). unfold next. word_lia. Qed.
Lemma base_fresh k s : base k s → v_attr (vws s) (next s) = None.
Proof. intros Hb. apply vw_fresh. by eapply base_inv. Qed.

(** The program stands in the directory [d] at the path [p], before the round [day]. *)
Record at_dir (day d : Z) (p : bytes) s : Prop := {
  ad_in64 : in64 d;
  ad_dir : is_dir (vws s) d;
  ad_path : has_path (vws s) p d;
  ad_names n c : v_ent (vws s) d n = Some c → named day (b_id s) n
}.
(** What a program leaves alone: older directories but its own. *)
Record frame (d : Z) s s' : Prop := {
  fr_grows : grows (vws s) (vws s');
  fr_id : b_id s <= b_id s';
  fr_next : next s <= next s';
  fr_cur : m_cur (b_fs s') = m_cur (b_fs s);
  fr_ent x n : in64 x → x < next s → x ≠ d → v_ent (vws s') x n = v_ent (vws s) x n
}.
Lemma frame_refl d s : frame d s s.
Proof. by split. Qed.
Lemma frame_trans d s1 s2 s3 : frame d s1 s2 → frame d s2 s3 → frame d s1 s3.
Proof.
  intros [G1 I1 N1 C1 E1] [G2 I2 N2 C2 E2]. split; [by etrans|lia|lia|congruence|].
  intros x n Hx Hlt Hne. rewrite E2 by (done || lia). by apply E1.
Qed.

(** [X] is an invariant of the phase. With [k] operations of its budget, the
    program runs from any state in [d] where [pre] holds, keeps [X], stays in [d]
    and ends with [post]. *)
Section Logic.
Variable X : B → Prop.
Definition runs {A} (k d : Z) (p : bytes) (pre : B → Prop) (prog : P A) (post : A → B → Prop) : Prop :=
  0 <= k ∧ ∀ j s, 0 <= j → base (j + k) s → X s → at_dir 0 d p s → pre s →
    ∃ x s', prog s = Some (x, s') ∧ base j s' ∧ X s' ∧ at_dir 0 d p s' ∧ frame d s s' ∧ post x s'.

Lemma runs_ret {A} d p (x : A) pre (post : A → B → Prop) : (∀ s, pre s → post x s) → runs 0 d p pre (mret x) post.
Proof.
  intros Hp. split; [lia|]. intros j s Hj Hb Hx Ha Hpre. exists x, s. rewrite Z.add_0_r in Hb.
  split_and!; auto using frame_refl.
Qed.
Lemma runs_bind {A C} k1 k2 d p pre (mid : A → B → Prop) (post : C → B → Prop) (prog : P A) (f : A → P C) :
  runs k1 d p pre prog mid → (∀ x, runs k2 d p (mid x) (f x) post) → 0 <= k2 → runs (k1 + k2) d p pre (prog ≫= f) post.
Proof.
  intros [H1 Hp] Hf H2. split; [lia|]. intros j s Hj Hb Hx Ha Hpre.
  destruct (Hp (j + k2) s) as (x & s1 & E1 & Hb1 & Hx1 & Ha1 & Hf1 & Hm); [lia|by replace (j + k2 + k1) with (j + (k1 + k2)) by lia|done..|].
  destruct (proj2 (Hf x) j s1) as (y & s2 & E2 & Hb2 & Hx2 & Ha2 & Hf2 & Hq); [done..|].
  exists y, s2. unfold mbind, build_bind. rewrite E1. split_and!; try done. by eapply frame_trans.
Qed.
Lemma runs_weaken {A} k1 k2 d p (pre pre' : B → Prop) (prog : P A) (post post' : A → B → Prop) :
  runs k1 d p pre prog post → k1 <= k2 → (∀ s, pre' s → pre s) → (∀ x s, post x s → post' x s) → runs k2 d p pre' prog post'.
Proof.
  intros [H1 Hp] Hle Hpre Hpost. split; [lia|]. intros j s Hj Hb Hx Ha Hs.
  destruct (Hp j s) as (x & s' & ? & ? & ? & ? & ? & ?); [done|by eapply base_le; [|done]; lia|auto..|].
  exists x, s'. split_and!; auto.
Qed.
(** A loop of at most [N] rounds. *)
Lemma runs_repeat k d p (inv_ : B → Prop) (prog : P ()) n N :
  runs k d p inv_ prog (λ _, inv_) → 0 <= N →
  runs (N * k) d p (λ s, n <= N ∧ inv_ s) (repeat_ n prog) (λ _, inv_).
Proof.
  intros Hp HN. pose proof (proj1 Hp) as Hk. unfold repeat_.
  assert (∀ m, runs (Z.of_nat m * k) d p inv_ (times m prog) (λ _, inv_)) as Hm.
  { induction m as [|m IH]; [by apply runs_ret|]. cbn [times].
    replace (Z.of_nat (S m) * k) with (k + Z.of_nat m * k) by lia. eapply runs_bind; [exact Hp| |nia].
    intros []. exact IH. }
  split; [nia|]. intros j s Hj Hb Hx Ha [Hn Hs].
  apply (proj2 (Hm (Z.to_nat n))); try done. eapply base_le; [|done]. nia.
Qed.

(** A program that only draws or reads. *)
Lemma runs_draw {A} d p (pre : B → Prop) (prog : P A) (post : A → B → Prop) :
  (∀ s r, X s → X (set_rng r s)) →
  (∀ s, X s → pre s → ∃ x r, prog s = Some (x, set_rng r s) ∧ post x (set_rng r s)) → runs 0 d p pre prog post.
Proof.
  intros HX Hp. split; [lia|]. intros j s Hj Hb Hx Ha Hpre. rewrite Z.add_0_r in Hb.
  destruct (Hp s Hx Hpre) as (x & r & E & Hq). exists x, (set_rng r s). split_and!; auto.
  - by destruct Hb; split.
  - by destruct Ha; split.
  - by split.
Qed.
End Logic.

(** ** One node more *)

Lemma call_eq {A} (f : Store M → A * Store M) s : call f s = Some ((f (b_fs s)).1, set_fs (f (b_fs s)).2 s).
Proof. unfold call. by destruct (f (b_fs s)). Qed.

(** [n] is a free name of [d] in [s], among the names given later. *)
Record new_name (day d : Z) s (day' id' : Z) (n : bytes) : Prop := {
  nn_free : v_ent (vws s) d n = None;
  nn_name : a_name n;
  nn_snap : n ≠ SNAPSHOT_NAME;
  nn_later : day <= day' ∧ b_id s <= id' <= b_id s + 1;
  nn_named : named day' id' n
}.
Lemma next_name k s day d p kd :
  0 <= k → base (k + 1) s → at_dir day d p s → new_name day d s day (b_id s + 1) (uname kd (b_id s + 1)).
Proof.
  intros Hk Hb Ha. pose proof (base_id64 k s Hk Hb) as Hi. destruct (uname_a_name kd _ Hi). pose proof (bs_id _ _ Hb).
  split; [|done..|lia|left; exists kd, (b_id s + 1); split; [lia|done]].
  destruct (v_ent _ _ _) as [x|] eqn:En; [|done]. apply (ad_names _ _ _ _ Ha) in En.
  by destruct (uname_fresh day kd (b_id s)); [lia|..].
Qed.
Lemma next_day s day d p :
  1 <= day → in64 day → at_dir day d p s → new_name day d s (day + 1) (b_id s) (day_name day).
Proof.
  intros H1 Hday Ha. destruct (day_a_name day Hday). split; [|done..|lia|right; exists day; split; [lia|done]].
  destruct (v_ent _ _ _) as [x|] eqn:En; [|done]. apply (ad_names _ _ _ _ Ha) in En. by eapply day_fresh in En.
Qed.

(** After a link under a new name. *)
Lemma entry_state k s s' day day' d p n c :
  0 <= k → base (k + 1) s → at_dir day d p s → new_name day d s day' (b_id s') n → ready k (b_fs s') →
  m_cur (b_fs s') = m_cur (b_fs s) → next s <= next s' →
  (length (b_files s') <= S (length (b_files s)))%nat →
  (∀ x m, in64 x → v_ent (vws s') x m = if decide (x = d ∧ m = n) then Some c else v_ent (vws s) x m) →
  grows (vws s) (vws s') → tree_ok n0 (next s') (vws s') →
  base k s' ∧ at_dir day' d p s' ∧ frame d s s' ∧ has_path (vws s') (slash p n) c.
Proof.
  intros Hk Hb Ha [_ Hname _ Hl Hnew] Hr Hcur Hnext Hfiles E Hg Ht. pose proof (base_graph _ _ Hb) as G.
  pose proof (ad_in64 _ _ _ _ Ha) as Hd64. pose proof (bs_id _ _ Hb). pose proof (bs_files _ _ Hb). pose proof (bs_next _ _ Hb).
  split_and!.
  - split; try done; lia.
  - destruct Ha as [_ Had Hap Han]. split; [done|by eapply grows_dir|by eapply grows_path|].
    intros m x. rewrite E by done. case_decide as Hm; [by destruct Hm as [_ ->]|].
    intros Hm'. eapply named_le; [| |by eapply Han]; lia.
  - split; [done|lia|lia|done|]. intros x m Hx Hlt Hne. by rewrite E, decide_False by naive_solver.
  - eapply has_path_snoc; [by eapply grows_path, Ha|by rewrite E, decide_True by done|done].
Qed.
(** The same for the link of a node just made. *)
Lemma added_state k s s' day day' d p n r :
  0 <= k → base (k + 1) s → at_dir day d p s → new_name day d s day' (b_id s') n → ready k (b_fs s') →
  m_cur (b_fs s') = m_cur (b_fs s) → next s' = next s + 1 →
  (length (b_files s') <= S (length (b_files s)))%nat →
  vws s' ≡ v_link d n (next s) (v_create (next s) r (vws s)) →
  (r_type r = tcode LNK → links_file (vws s) (r_blob r)) →
  base k s' ∧ at_dir day' d p s' ∧ frame d s s' ∧ has_path (vws s') (slash p n) (next s).
Proof.
  intros Hk Hb Ha Hn Hr Hcur Hnext Hfiles E Hsym.
  pose proof (base_graph _ _ Hb) as G. pose proof (base_fresh _ _ Hb) as Hc. pose proof (ad_in64 _ _ _ _ Ha) as Hd64.
  pose proof (added_grows _ _ _ _ _ _ E Hc (nn_free _ _ _ _ _ _ Hn)) as Hg.
  eapply entry_state; try done; [lia|intros; by apply (added_ent _ _ _ _ _ _ _ _ E)|].
  rewrite Hnext. eapply tree_ok_step; [exact G|done|apply Hb| |].
  - intros c Hlt. assert (c = next s) as -> by lia. eexists.
    eapply has_path_snoc; [by eapply grows_path, Ha|by rewrite (added_ent _ _ _ _ _ _ _ _ E), decide_True by done|apply Hn].
  - intros c r' H64 Hno. rewrite (added_attr _ _ _ _ _ _ _ E) by done. case_decide; [|congruence].
    intros [= <-] Hl. assert (r_type r = tcode LNK) as Hl' by by destruct r.
    destruct (Hsym Hl') as (f & Hf1 & Hf2). exists f.
    replace (r_blob (inc_nlink r)) with (r_blob r) by by destruct r. split; [by eapply grows_path|by eapply grows_reg].
Qed.

(** Making a node and linking it. *)
Lemma make_and_link k s day day' id' d p n op ty blob :
  let c := mkHandle (next s) LATEST in
  let fs' := (link (exec (b_fs s) op).2 d n c).2 in
  op = OpMkdir ∧ ty = DIR ∧ blob = [] ∨ op = OpMkfile blob ∧ ty = REG ∨ op = OpSymlink blob ∧ ty = LNK →
  0 <= k → base (k + 2) s → at_dir day (h_id d) p s → new_name day (h_id d) s day' id' n →
  ready k fs' ∧ m_cur fs' = m_cur (b_fs s) ∧ m_next fs' = next s + 1 ∧
  vw fs' ≡ v_link (h_id d) n (next s) (v_create (next s) (fresh_node ty blob 0 (m_clock (b_fs s))) (vws s)).
Proof.
  intros c fs' Hop Hk Hb Ha Hn. pose proof (base_graph _ _ Hb) as G. pose proof (base_fresh _ _ Hb) as Hfresh.
  pose proof (base_next64 (k + 2) s ltac:(lia) Hb) as Hc64.
  destruct (alloc_ready (k + 1) (b_fs s) op ty blob) as (H1 & H2 & H3 & H4); [lia|replace (k + 1 + 1) with (k + 2) by lia; apply Hb|done|].
  destruct (link_new k (exec (b_fs s) op).2 (vws s) d n c (fresh_node ty blob 0 (m_clock (b_fs s)))) as (H5 & H6 & H7 & H8);
    try done; try apply Ha; try apply Hn.
Qed.

(** ** The tree *)

(** Every file of the list is at its path, and the list has every file made. *)
Record files_ok (l : list (Handle * bytes)) (v : View) : Prop := {
  fo_path f q : (f, q) ∈ l → h_snap f = LATEST ∧ has_path v q (h_id f) ∧ is_reg v (h_id f);
  fo_all c : n0 <= c → is_reg v c → ∃ f q, (f, q) ∈ l ∧ h_id f = c
}.
Definition tree_inv s : Prop := files_ok (b_files s) (vws s).
Lemma tree_inv_rng s r : tree_inv s → tree_inv (set_rng r s).
Proof. done. Qed.

Lemma files_ok_step v w l l' :
  graph v → grows v w → files_ok l v →
  (∀ c, is_reg w c → is_reg v c ∨ ∃ f q, (f, q) ∈ l' ∧ h_id f = c) →
  (∀ f q, (f, q) ∈ l' → (f, q) ∈ l ∨ h_snap f = LATEST ∧ has_path w q (h_id f) ∧ is_reg w (h_id f)) →
  (∀ x, x ∈ l → x ∈ l') → files_ok l' w.
Proof.
  intros G Hg [F1 F2] Hall Hnew Hsub. split.
  - intros f q [Hin|?]%Hnew; [|done]. destruct (F1 f q Hin) as (? & ? & ?).
    split_and!; [done|by eapply grows_path|by eapply grows_reg].
  - intros c Hc [Hr|?]%Hall; [|done]. destruct (F2 c Hc Hr) as (f & q & ? & ?). eauto.
Qed.

(** The new node is a file of the list, or no file. *)
Lemma added_files s s' d p n r :
  graph (vws s) → grows (vws s) (vws s') → in64 (next s) → tree_inv s →
  vws s' ≡ v_link d n (next s) (v_create (next s) r (vws s)) →
  (r_type r = tcode REG ∧ b_files s' = b_files s ++ [(mkHandle (next s) LATEST, p)] ∧ has_path (vws s') p (next s) ∨
   r_type r ≠ tcode REG ∧ b_files s' = b_files s) →
  tree_inv s'.
Proof.
  intros G Hg Hc Hf E Hcase. unfold tree_inv.
  assert (r_type (inc_nlink r) = r_type r) as Hinc by by destruct r.
  assert (∀ c, is_reg (vws s') c → is_reg (vws s) c ∨ c = next s ∧ r_type r = tcode REG) as Hreg.
  { intros c (Hc64 & r' & Hr & Ht). rewrite (added_attr _ _ _ _ _ _ _ E) in Hr by done. case_decide; [right|left; split; [done|eauto]].
    injection Hr as <-. rewrite Hinc in Ht. done. }
  destruct Hcase as [(Ht & -> & Hp)|(Ht & ->)]; eapply files_ok_step; try done.
  - intros c [?|[-> _]]%Hreg; [by left|right]. exists (mkHandle (next s) LATEST), p. split; [|done]. set_solver.
  - intros f q. rewrite elem_of_app, list_elem_of_singleton. intros [Hin|Hin]; [by left|right]. injection Hin as -> ->. cbn [h_id h_snap].
    split_and!; [done..|]. split; [done|]. exists (inc_nlink r).
    rewrite (added_attr _ _ _ _ _ _ _ E), decide_True by done. by rewrite Hinc.
  - set_solver.
  - intros c [?|[-> ?]]%Hreg; [by left|done].
  - by left.
Qed.

Lemma runs_add_file dir p :
  runs tree_inv 2 (h_id dir) p (λ _, True) (add_file dir p) (λ _ _, True).
Proof.
  split; [lia|]. intros k s Hk Hb Hf Ha _. set (n := uname KFile (b_id s + 1)).
  set (fs' := (link (exec (b_fs s) (OpMkfile [])).2 dir n (mkHandle (next s) LATEST)).2).
  set (s' := mkB fs' (b_rng s) (b_files s ++ [(mkHandle (next s) LATEST, slash p n)]) (b_dirs s) (b_hard s) (b_sym s) (b_id s + 1)).
  assert (base (k + 1) s) as Hb1 by (eapply base_le; [|done]; lia). pose proof (next_name k s 0 _ p KFile Hk Hb1 Ha) as Hn.
  destruct (make_and_link k s 0 0 (b_id s + 1) dir p n (OpMkfile []) REG []) as (H1 & H2 & H3 & H4); [by auto|done..|].
  pose proof (base_next64 (k + 2) s ltac:(lia) Hb) as Hc64. pose proof (base_graph _ _ Hb) as G.
  destruct (added_state k s s' 0 0 (h_id dir) p n (fresh_node REG [] 0 (m_clock (b_fs s)))) as (B1 & B2 & B3 & B4); try done.
  { simpl. rewrite length_app. simpl. lia. }
  exists tt, s'. split; [|split_and!; try done].
  - unfold add_file, mbind, build_bind, uniq, push. rewrite call_eq. cbn beta iota. by rewrite call_eq.
  - eapply added_files; try done; [apply B3|]. left. split_and!; try done.
Qed.
Lemma runs_pick d p :
  runs tree_inv 0 d p (λ s, b_files s ≠ []) pick (λ x s, x ∈ b_files s ∧ b_files s ≠ []).
Proof.
  split; [lia|]. intros k s Hk Hb Hf Ha Hne. rewrite Z.add_0_r in Hb. assert (0 < length (b_files s))%nat as Hlen by (destruct (b_files s); [done|simpl; lia]).
  pose proof (bs_files _ _ Hb) as Hsmall.
  assert (i32 (Z.of_nat (length (b_files s))) = Z.of_nat (length (b_files s))) as Hi.
  { unfold i32. rewrite Z.mod_small; lia. }
  set (u := uniform_int (b_rng s) 0 (Z.of_nat (length (b_files s)) - 1)).
  assert (0 <= u.1 <= Z.of_nat (length (b_files s)) - 1) as Hu by (apply uniform_int_law; lia).
  destruct (lookup_lt_is_Some_2 (b_files s) (Z.to_nat u.1)) as [x Hx]; [lia|].
  exists x, (set_rng u.2 s). split.
  - unfold pick, mbind, build_bind, get_files, randi. rewrite Hi, (proj2 (Z.ltb_ge _ _)) by lia.
    fold u. destruct u as [i r] eqn:Eu. unfold file_at. cbn [fst snd] in *. rewrite (proj2 (Z.ltb_ge _ _)) by lia. cbn [b_files set_rng]. by rewrite Hx.
  - split_and!; [by destruct Hb; split; try lia|done|by destruct Ha; split|by split|by eapply list_elem_of_lookup_2|done].
Qed.
Lemma runs_randi X d p lo hi (pre : B → Prop) :
  (∀ s r, X s → X (set_rng r s)) → (∀ s r, pre s → pre (set_rng r s)) →
  runs X 0 d p pre (randi lo hi) (λ x s, x <= Z.max lo hi ∧ pre s).
Proof.
  intros HX Hpre. apply runs_draw; [done|]. intros s Hx Hs. unfold randi. destruct (Z.ltb_spec hi lo).
  - exists lo, (b_rng s). assert (set_rng (b_rng s) s = s) as -> by by destruct s. split_and!; [done|lia|done].
  - pose proof (uniform_int_law (b_rng s) lo hi ltac:(done)). destruct (uniform_int (b_rng s) lo hi) as [x r].
    exists x, r. simpl in *. split_and!; [done|lia|by apply Hpre].
Qed.

Lemma runs_hardlink dir p :
  runs tree_inv 1 (h_id dir) p (λ s, b_files s ≠ []) (add_hardlink dir) (λ _ s, b_files s ≠ []).
Proof.
  unfold add_hardlink. eapply (runs_bind _ 0 1); [apply runs_pick| |lia]. intros tgt. split; [lia|].
  intros k s Hk Hb Hf Ha [Hin Hne]. set (n := uname KHard (b_id s + 1)). destruct tgt as [f q]. cbn [fst].
  destruct (fo_path _ _ Hf f q Hin) as (_ & _ & Hreg). pose proof (base_graph _ _ Hb) as G.
  pose proof (next_name k s 0 _ p KHard Hk Hb Ha) as Hn.
  assert (h_id f ≠ h_id dir) as Hfd.
  { intros E. destruct Hreg as (_ & r & Hr & Ht), (ad_dir _ _ _ _ Ha) as (r' & Hr' & Ht'). rewrite E in Hr.
    assert (r' = r) as -> by congruence. by rewrite Ht in Ht'. }
  destruct (link_ready k (b_fs s) dir n f) as (H1 & H2 & H3 & H4); try done; try apply Hb; try apply Ha; try apply Hreg; try apply Hn.
  { destruct Hreg as (_ & r & Hr & _). by exists r. }
  { apply leaf_no_path; [done|]. by apply reg_no_entries. }
  fold (vws s) in H4. set (fs' := (link (b_fs s) dir n f).2) in *.
  set (s' := mkB fs' (b_rng s) (b_files s) (b_dirs s) (u64 (b_hard s + 1)) (b_sym s) (b_id s + 1)).
  assert (grows (vws s) (vws s')) as Hg by (change (vws s') with (vw fs'); rewrite H4; apply grows_link, Hn).
  assert (∀ c, in64 c → v_attr (vws s) c = None → v_attr (vws s') c = None) as Hnone.
  { intros c Hc Hno. change (vws s') with (vw fs'). rewrite (proj1 (H4 c Hc)), link_attr. case_decide; by rewrite Hno. }
  assert (next s' = next s) as Hnext by exact H3.
  destruct (entry_state k s s' 0 0 (h_id dir) p n (h_id f)) as (B1 & B2 & B3 & _); try done.
  { simpl. lia. }
  { intros x m Hx. change (vws s') with (vw fs'). by rewrite (proj2 (H4 x Hx)). }
  { rewrite Hnext. eapply tree_ok_step; [exact G|done|apply Hb|lia|].
    intros c r Hc Hno. rewrite Hnone by done. done. }
  exists tt, s'. split_and!; try done.
  eapply files_ok_step; try done; [|by left]. intros c (Hc & r & Hr & Ht). left. split; [done|].
  change (vws s') with (vw fs') in Hr. rewrite (proj1 (H4 c Hc)), link_attr in Hr. case_decide; [|by exists r].
  apply fmap_Some in Hr as (r0 & Hr0 & ->). exists r0. split; [done|]. by destruct r0.
Qed.
Lemma runs_symlink dir p :
  runs tree_inv 2 (h_id dir) p (λ s, b_files s ≠ []) (add_symlink dir) (λ _ s, b_files s ≠ []).
Proof.
  unfold add_symlink. eapply (runs_bind _ 0 2); [apply runs_pick| |lia]. intros tgt. split; [lia|].
  intros k s Hk Hb Hf Ha [Hin Hne]. set (n := uname KSym (b_id s + 1)). destruct tgt as [f q]. cbn [snd].
  destruct (fo_path _ _ Hf f q Hin) as (_ & Hq & Hreg). pose proof (base_graph _ _ Hb) as G.
  set (fs' := (link (exec (b_fs s) (OpSymlink q)).2 dir n (mkHandle (next s) LATEST)).2).
  set (s' := mkB fs' (b_rng s) (b_files s) (b_dirs s) (b_hard s) (u64 (b_sym s + 1)) (b_id s + 1)).
  assert (base (k + 1) s) as Hb1 by (eapply base_le; [|done]; lia). pose proof (next_name k s 0 _ p KSym Hk Hb1 Ha) as Hn.
  destruct (make_and_link k s 0 0 (b_id s + 1) dir p n (OpSymlink q) LNK q) as (H1 & H2 & H3 & H4); [by auto|done..|].
  destruct (added_state k s s' 0 0 (h_id dir) p n (fresh_node LNK q 0 (m_clock (b_fs s)))) as (B1 & B2 & B3 & B4); try done.
  { simpl. lia. }
  { intros _. by exists (h_id f). }
  exists tt, s'. split_and!; try done. eapply (added_files s s' (h_id dir) p n); try done; [apply B3|by eapply (base_next64 (k + 2)); [lia|]|by right].
Qed.

(** A program that ran in a directory made by the way has run in the outer one. *)
Lemma frame_inside day d d' p s s1 s2 :
  graph (vws s1) → at_dir day d p s1 → frame d s s1 → d < next s → next s <= d' →
  frame d' s1 s2 → at_dir day d p s2 ∧ frame d s s2.
Proof.
  intros G Ha1 [G1 I1 N1 C1 E1] Hd Hd' [G2 I2 N2 C2 E2]. destruct Ha1 as [H64 Hdir Hp Hn].
  split.
  - split; [done|by eapply grows_dir|by eapply grows_path|]. intros n c. rewrite E2 by (done || lia).
    intros He. eapply named_le; [| |by eapply Hn]; done.
  - split; [by etrans|lia|lia|congruence|]. intros x n Hx Hlt Hne. rewrite E2 by (done || lia). by apply E1.
Qed.

(** Making a directory and standing in it. *)
Lemma make_dir k s day day' id' dir p n dirs :
  let fs' := (link (exec (b_fs s) OpMkdir).2 dir n (mkHandle (next s) LATEST)).2 in
  let s' := mkB fs' (b_rng s) (b_files s) dirs (b_hard s) (b_sym s) id' in
  0 <= k → base (k + 2) s → at_dir day (h_id dir) p s → new_name day (h_id dir) s day' id' n →
  base k s' ∧ at_dir day' (h_id dir) p s' ∧ at_dir 0 (next s) (slash p n) s' ∧ frame (h_id dir) s s' ∧
  vws s' ≡ v_link (h_id dir) n (next s) (v_create (next s) (fresh_node DIR [] 0 (m_clock (b_fs s))) (vws s)) ∧
  next s' = next s + 1.
Proof.
  intros fs' s' Hk Hb Ha Hn. pose proof (base_graph _ _ Hb) as G.
  pose proof (base_next64 (k + 2) s ltac:(lia) Hb) as Hc64.
  assert (base (k + 1) s) as Hb1 by (eapply base_le; [|done]; lia).
  destruct (make_and_link k s day day' id' dir p n OpMkdir DIR []) as (H1 & H2 & H3 & H4); [by auto|done..|].
  destruct (added_state k s s' day day' (h_id dir) p n (fresh_node DIR [] 0 (m_clock (b_fs s)))) as (B1 & B2 & B3 & B4); try done.
  { simpl. lia. }
  split_and!; try done. split; [done| |done|].
  - eexists. rewrite (added_attr _ _ _ _ _ _ _ H4), decide_True by done. done.
  - intros m c. rewrite (added_ent _ _ _ _ _ _ _ _ H4), decide_False by
      (done || intros [E _]; destruct (ad_dir _ _ _ _ Ha) as (r & Hr & _); rewrite <- E, (base_fresh _ _ Hb) in Hr; done).
    by rewrite (absent_no_entries _ _ G Hc64 (base_fresh _ _ Hb)).
Qed.

Lemma runs_add_dir kk sub dir p :
  (∀ d q, runs tree_inv kk (h_id d) q (λ _, True) (sub d q) (λ _ _, True)) →
  runs tree_inv (2 + kk) (h_id dir) p (λ _, True) (add_dir sub dir p) (λ _ _, True).
Proof.
  intros Hsub. pose proof (proj1 (Hsub dir p)) as Hkk. split; [lia|]. intros k s Hk Hb Hf Ha _.
  set (n := uname KDir (b_id s + 1)). set (d := mkHandle (next s) LATEST).
  assert (base (k + kk + 2) s) as Hb2 by by replace (k + kk + 2) with (k + (2 + kk)) by lia.
  assert (new_name 0 (h_id dir) s 0 (b_id s + 1) n) as Hn.
  { eapply (next_name (k + kk)); [lia|eapply base_le; [|done]; lia|done]. }
  destruct (make_dir (k + kk) s 0 0 (b_id s + 1) dir p n (u64 (b_dirs s + 1))) as (B1 & B3 & B4 & B5 & B6 & _); [lia|done..|].
  set (s1 := mkB (link (exec (b_fs s) OpMkdir).2 dir n d).2 (b_rng s) (b_files s) (u64 (b_dirs s + 1)) (b_hard s) (b_sym s) (b_id s + 1)) in *.
  assert (tree_inv s1) as B2.
  { eapply (added_files s s1 (h_id dir) p n); try done; [by eapply base_graph|apply B5|by eapply (base_next64 (k + kk + 2)); [lia|]|by right]. }
  destruct (proj2 (Hsub d (slash p n)) k s1 Hk B1 B2 B4 Logic.I) as ([] & s2 & E2 & C1 & C2 & _ & C4 & _).
  assert (h_id dir < next s) as Hlt by (eapply is_dir_ids; [by eapply base_inv|apply Ha..]).
  destruct (frame_inside 0 (h_id dir) (next s) p s s1 s2 (base_graph _ _ B1) B3 B5 Hlt) as [D1 D2]; [lia|done|].
  exists tt, s2. by split_and!.
Qed.

(** Operations of one directory, and of one [buildDir]. *)
Definition link_ops (c : Cfg) : Z := Z.max 0 (Z.quot (c_files c) 4) * 1 + Z.max 0 (Z.quot (c_files c) 3) * 2.
Definition fill_ops (c : Cfg) : Z := Z.max 0 (c_files c) * 2 + link_ops c.
Fixpoint dir_ops (c : Cfg) (levels : nat) : Z :=
  fill_ops c + match levels with O => 0 | S levels' => Z.max 1 (c_dirs c) * (2 + dir_ops c levels') end.
Lemma link_ops_nonneg c : 0 <= link_ops c.
Proof. unfold link_ops. lia. Qed.
Lemma fill_ops_nonneg c : 0 <= fill_ops c.
Proof. unfold fill_ops. pose proof (link_ops_nonneg c). lia. Qed.
Lemma dir_ops_nonneg c levels : 0 <= dir_ops c levels.
Proof. pose proof (fill_ops_nonneg c). induction levels as [|l IH]; cbn [dir_ops]; nia. Qed.

Lemma runs_any {A} X k d p (pre : B → Prop) (prog : P A) post :
  runs X k d p pre prog post → runs X k d p pre prog (λ _ _, True).
Proof. intros Hp. by eapply runs_weaken. Qed.
Lemma runs_get_files X d p (pre : B → Prop) :
  (∀ s r, X s → X (set_rng r s)) → runs X 0 d p pre get_files (λ l s, l = b_files s).
Proof.
  intros HX. apply runs_draw; [done|]. intros s Hx _. exists (b_files s), (b_rng s).
  assert (set_rng (b_rng s) s = s) as -> by by destruct s. done.
Qed.
Lemma runs_links c dir p :
  runs tree_inv (link_ops c) (h_id dir) p (λ s, b_files s ≠ [])
    (nh ← randi 0 (Z.quot (c_files c) 4); _ ← repeat_ nh (add_hardlink dir);
     ns ← randi 0 (Z.quot (c_files c) 3); repeat_ ns (add_symlink dir)) (λ _ _, True).
Proof.
  unfold link_ops. set (H := Z.max 0 _). set (S := Z.max 0 _). replace (H * 1 + S * 2) with (0 + (H * 1 + (0 + S * 2))) by lia.
  eapply runs_bind; [by apply runs_randi| |lia]. intros nh.
  eapply runs_bind; [apply runs_repeat; [apply runs_hardlink|lia]| |lia]. intros [].
  eapply runs_bind; [by apply runs_randi| |lia]. intros ns.
  eapply runs_any, runs_repeat; [apply runs_symlink|lia].
Qed.
Lemma runs_fill_dir c dir p :
  runs tree_inv (fill_ops c) (h_id dir) p (λ _, True) (fill_dir c dir p) (λ _ _, True).
Proof.
  pose proof (link_ops_nonneg c). unfold fill_ops, fill_dir. set (F := Z.max 0 _).
  replace (F * 2 + link_ops c) with (0 + (F * 2 + (0 + link_ops c))) by lia.
  eapply runs_bind; [by apply (runs_randi _ _ _ _ _ (λ _, True))| |lia]. intros nf.
  eapply runs_bind; [apply runs_repeat; [apply runs_add_file|lia]| |lia]. intros [].
  eapply runs_bind; [by apply runs_get_files| |lia]. intros [|f files].
  - eapply runs_weaken; [by apply (runs_ret tree_inv _ _ tt (λ _, True) (λ _ _, True))|lia|done|done].
  - eapply runs_weaken; [apply runs_links|done| |done]. intros s E Hn. congruence.
Qed.
Lemma runs_buildDir c levels dir p :
  runs tree_inv (dir_ops c levels) (h_id dir) p (λ _, True) (buildDir c levels dir p) (λ _ _, True).
Proof.
  revert dir p. induction levels as [|levels IH]; intros dir p; cbn [buildDir dir_ops].
  - eapply runs_bind; [apply runs_fill_dir| |done]. intros []. by apply runs_ret.
  - pose proof (dir_ops_nonneg c levels). eapply runs_bind; [apply runs_fill_dir| |nia]. intros [].
    replace (Z.max 1 (c_dirs c) * (2 + dir_ops c levels)) with (0 + Z.max 1 (c_dirs c) * (2 + dir_ops c levels)) by lia.
    eapply runs_bind; [by apply (runs_randi _ _ _ _ _ (λ _, True))| |nia]. intros nd.
    apply runs_repeat; [by apply runs_add_dir|lia].
Qed.

(** ** Changes of attributes alone *)

(** Attributes may have changed, but no type, data or name; [f] says how. *)
Record still (f : NodeRec → NodeRec) (c : Z) s s' : Prop := {
  sl_next : next s' = next s;
  sl_id : b_id s' = b_id s;
  sl_files : b_files s' = b_files s;
  sl_view : vws s' ≡ v_update f c (vws s);
  sl_keeps r : r_type (f r) = r_type r ∧ r_blob (f r) = r_blob r
}.
Lemma update_id v c : v_update id c v ≡ v.
Proof. intros x Hx. simpl. split; [|done]. case_decide; [|done]. by destruct (v_attr v x). Qed.
Lemma still_equiv s s' :
  next s' = next s → b_id s' = b_id s → b_files s' = b_files s → vws s' ≡ vws s → still id 0 s s'.
Proof. intros ??? E. split; try done. by rewrite update_id. Qed.
Lemma still_grows f c s s' : still f c s s' → grows (vws s) (vws s').
Proof. intros St. rewrite (sl_view _ _ _ _ St). apply grows_update, St. Qed.
Lemma still_ent f c s s' x n : still f c s s' → in64 x → v_ent (vws s') x n = v_ent (vws s) x n.
Proof. intros St Hx. by rewrite (proj2 (sl_view _ _ _ _ St x Hx)). Qed.
Lemma still_attr f c s s' x r' : still f c s s' → in64 x → v_attr (vws s') x = Some r' →
  ∃ r, v_attr (vws s) x = Some r ∧ r' = if decide (x = c) then f r else r.
Proof.
  intros St Hx. rewrite (proj1 (sl_view _ _ _ _ St x Hx)). simpl. fold (vws s). case_decide; [|by eauto].
  intros (r & Hr & ->)%fmap_Some. eauto.
Qed.
Lemma still_base k j f c s s' : k <= j → base j s → ready k (b_fs s') → still f c s s' → base k s'.
Proof.
  intros Hkj Hb Hr St. pose proof (base_graph _ _ Hb) as G. pose proof (still_grows _ _ _ _ St) as Hg.
  destruct Hb as [_ Hn Ht Hf Hi]. pose proof St as [E1 E2 E3 E4 _]. split; [done|by rewrite E1| |rewrite E3; lia|rewrite E2; lia].
  rewrite E1. eapply tree_ok_step; [exact G|done|done|lia|]. intros x r Hx Hno Hr'.
  destruct (still_attr _ _ _ _ _ _ St Hx Hr') as (r0 & Hr0 & _). congruence.
Qed.
Lemma still_at k f c s s' day d p : base k s → still f c s s' → at_dir day d p s → at_dir day d p s'.
Proof.
  intros Hb St [H64 Hd Hp Hn]. pose proof (still_grows _ _ _ _ St) as Hg. pose proof (base_graph _ _ Hb).
  split; [done|by eapply grows_dir|by eapply grows_path|]. intros n x. rewrite (still_ent _ _ _ _ _ _ St) by done.
  rewrite (sl_id _ _ _ _ St). apply Hn.
Qed.

(** ** Sizes *)

(** No file from [n0] on is empty, and the listed files are nodes. *)
Record days_inv s : Prop := {
  di_files f q : (f, q) ∈ b_files s → in64 (h_id f);
  di_sized c r : n0 <= c → in64 c → v_attr (vws s) c = Some r → r_type r = tcode REG → 1 <= r_size r
}.
Lemma days_inv_still f c s s' :
  still f c s s' → (∀ r, 1 <= r_size r → 1 <= r_size (f r)) → days_inv s → days_inv s'.
Proof.
  intros St Hf [D1 D2]. split.
  - intros g q. rewrite (sl_files _ _ _ _ St). apply D1.
  - intros x r' Hx H64 Hr' Ht. destruct (still_attr _ _ _ _ _ _ St H64 Hr') as (r & Hr & ->).
    destruct (sl_keeps _ _ _ _ St r) as [Hty _]. case_decide; [apply Hf|]; eapply D2; try done; congruence.
Qed.

Lemma weights_eq n s : ∃ ws r, weights n s = Some (ws, set_rng r s) ∧ length ws = n.
Proof.
  revert s. induction n as [|n IH]; intros s.
  - exists [], (b_rng s). split; [by destruct s|done].
  - cbn [weights]. unfold mbind, build_bind, weight. destruct (randWeight (b_rng s)) as [w r].
    destruct (IH (set_rng r s)) as (ws & r' & E & Hl). rewrite E. exists (w :: ws), r'. split; [done|]. simpl. by f_equal.
Qed.
Lemma size_of_range total ws w : 0 <= total <= 2 ^ 53 → 1 <= size_of total ws w < 2 ^ 64.
Proof. intros Ht. unfold size_of. destruct ws; [lia|]. by apply share_law. Qed.

Lemma put_size_still k s h x :
  0 <= k → base (k + 1) s → in64 (h_id h) → in64 x →
  let s' := set_fs (put_size (b_fs s) h x) s in
  base k s' ∧ m_cur (b_fs s') = m_cur (b_fs s) ∧ still (set_size x) (h_id h) s s'.
Proof.
  intros Hk Hb Hh Hx s'. destruct (put_ready k (b_fs s) ASize h x) as (H1 & H2 & H3 & H4); try done; [apply Hb|].
  assert (still (set_size x) (h_id h) s s') as St by (split; try done; by intros []).
  split_and!; [|done..]. eapply still_base; [| |done|done]; [|done]. lia.
Qed.

(** Afterwards the files of the list are sized. *)
Lemma set_sizes_spec total ws l k s :
  0 <= total <= 2 ^ 53 → 0 <= k → base (k + Z.of_nat (length l)) s → Forall (λ x, in64 (h_id x.1.1)) l →
  ∃ s', set_sizes total ws l s = Some (tt, s') ∧ base k s' ∧ m_cur (b_fs s') = m_cur (b_fs s) ∧
    b_id s' = b_id s ∧ b_files s' = b_files s ∧ next s' = next s ∧ grows (vws s) (vws s') ∧
    (∀ x n, in64 x → v_ent (vws s') x n = v_ent (vws s) x n) ∧
    ∀ c r', in64 c → v_attr (vws s') c = Some r' → ∃ r, v_attr (vws s) c = Some r ∧ r_type r' = r_type r ∧
      (1 <= r_size r ∨ c ∈ (λ x : (Handle * bytes) * W, h_id x.1.1) <$> l → 1 <= r_size r').
Proof.
  intros Ht Hk. revert s. induction l as [|[f w] l IH]; intros s Hb Hl.
  - exists s. split; [done|]. rewrite Z.add_0_r in Hb. split_and!; try done.
    intros c r' _ Hr. exists r'. split_and!; [done..|]. intros [?|Hin]; [done|]. by apply elem_of_nil in Hin.
  - inversion_clear Hl as [|? ? Hf Hl']. cbn [fst] in Hf. pose proof (size_of_range total ws w Ht) as Hsz.
    destruct (put_size_still (k + Z.of_nat (length l)) s f.1 (size_of total ws w)) as (B1 & B2 & St);
      [lia|by replace (k + Z.of_nat (length l) + 1) with (k + Z.of_nat (length ((f, w) :: l))) by (simpl; lia)|done|word_lia|].
    set (s1 := set_fs (put_size (b_fs s) f.1 (size_of total ws w)) s) in *.
    destruct (IH s1 B1 Hl') as (s' & E & C1 & C2 & C3 & C4 & C5 & C6 & C7 & C8).
    pose proof (sl_next _ _ _ _ St). pose proof (sl_id _ _ _ _ St). pose proof (sl_files _ _ _ _ St).
    exists s'. split; [exact E|]. split_and!; try done; try congruence.
    + etrans; [by eapply still_grows|done].
    + intros x n Hx. rewrite C7 by done. by eapply still_ent.
    + intros c r' Hc Hr'. destruct (C8 c r' Hc Hr') as (r1 & Hr1 & T1 & S1).
      destruct (still_attr _ _ _ _ _ _ St Hc Hr1) as (r & Hr & ->). exists r. split; [done|].
      case_decide as Hcf.
      * split; [by destruct r|]. intros _. apply S1. left. destruct r; simpl; lia.
      * split; [done|]. intros [?|Hin]; apply S1; [by left|right]. cbn in Hin. by apply elem_of_cons in Hin as [?|?].
Qed.

Lemma size_files_spec total k N s :
  0 <= total <= 2 ^ 53 → 0 <= k → base (k + N) s → Z.of_nat (length (b_files s)) <= N → tree_inv s → at_dir 0 1 [] s →
  ∃ ws s', size_files total s = Some (ws, s') ∧ base k s' ∧ at_dir 0 1 [] s' ∧
    m_cur (b_fs s') = m_cur (b_fs s) ∧ next s' = next s ∧ days_inv s'.
Proof.
  intros Ht Hk Hb HN Hf Ha. destruct (weights_eq (length (b_files s)) s) as (ws & r & E & Hlen).
  pose proof (base_graph _ _ Hb) as G. assert (length (zip (b_files s) ws) = length (b_files s)) as Hzip by (rewrite length_zip; lia).
  assert ((λ x : (Handle * bytes) * W, h_id x.1.1) <$> zip (b_files s) ws = (λ x, h_id x.1) <$> b_files s) as Hids.
  { rewrite <- (fst_zip (b_files s) ws) at 2 by lia. by rewrite <- list_fmap_compose. }
  assert (∀ f q, (f, q) ∈ b_files s → in64 (h_id f)) as Hin64 by (intros f q Hin; apply (fo_path _ _ Hf f q Hin)).
  set (s1 := set_rng r s). assert (base (k + Z.of_nat (length (zip (b_files s) ws))) s1) as Hb1.
  { apply (base_le _ (k + N)); [rewrite Hzip; lia|]. by destruct Hb; split. }
  destruct (set_sizes_spec total ws (zip (b_files s) ws) k s1 Ht Hk Hb1) as (s' & E' & C1 & C2 & C3 & C4 & C5 & C6 & C7 & C8).
  { apply Forall_forall. intros [[f q] w] Hin. apply (Hin64 f q). by eapply elem_of_zip_l. }
  exists ws, s'. split; [|split_and!; try done].
  - unfold size_files, mbind, build_bind, get_files. rewrite E. fold s1. by rewrite E'.
  - destruct Ha as [H64 Hd Hp Hn]. split; [done|by eapply grows_dir|by eapply grows_path|].
    intros n x. rewrite C7, C3 by done. apply Hn.
  - split; [intros f q; rewrite C4; apply Hin64|]. intros c r' Hc H64 Hr' Hty.
    destruct (C8 c r' H64 Hr') as (r0 & Hr0 & T & S). apply S. right. rewrite Hids.
    destruct (fo_all _ _ Hf c Hc) as (f & q & Hin & <-); [split; [done|exists r0; split; [done|congruence]]|].
    apply list_elem_of_fmap. by exists (f, q).
Qed.

(** ** The daily rounds *)

Lemma randSize_eq total ws s :
  0 <= total <= 2 ^ 53 → ∃ sz r, randSize total ws s = Some (sz, set_rng r s) ∧ 1 <= sz < 2 ^ 64.
Proof.
  intros Ht. unfold randSize. destruct ws as [|w0 ws]; [by exists 1, (b_rng s); destruct s|].
  unfold mbind, build_bind, weight. destruct (randWeight (b_rng s)) as [w r].
  exists (share total (w0 :: ws) w), r. split; [done|]. by apply share_law.
Qed.
Lemma runs_add_new total ws dir day p :
  0 <= total <= 2 ^ 53 →
  runs days_inv 3 (h_id dir) p (λ _, True) (add_new total ws dir day) (λ _ _, True).
Proof.
  intros Ht. split; [lia|]. intros k s Hk Hb Hf Ha _. set (c := mkHandle (next s) LATEST).
  set (n := uname KNew (b_id s + 1)). set (fs1 := (exec (b_fs s) (OpMkfile [])).2).
  destruct (randSize_eq total ws (set_fs fs1 s) Ht) as (sz & r & Esz & Hsz). set (fs2 := put_size fs1 c sz). set (fs' := (link fs2 dir n c).2).
  set (s' := mkB fs' r (b_files s ++ [(c, str "/day-" ++ to_string day)]) (b_dirs s) (b_hard s) (b_sym s) (b_id s + 1)).
  assert (base (k + 1) s) as Hb1 by (eapply base_le; [|done]; lia). pose proof (next_name k s 0 _ p KNew Hk Hb1 Ha) as Hn.
  pose proof (base_graph _ _ Hb) as G.
  pose proof (base_next64 (k + 3) s ltac:(lia) Hb) as Hc64. pose proof (base_fresh _ _ Hb) as Hfresh.
  set (r0 := fresh_node REG [] 0 (m_clock (b_fs s))).
  destruct (alloc_ready (k + 2) (b_fs s) (OpMkfile []) REG []) as (A1 & A2 & A3 & A4);
    [lia|replace (k + 2 + 1) with (k + 3) by lia; apply Hb|by auto|]. fold fs1 in A1, A2, A3, A4.
  destruct (put_ready (k + 1) fs1 ASize c sz) as (P1 & P2 & P3 & P4);
    [lia|by replace (k + 1 + 1) with (k + 2) by lia|done|simpl; word_lia|]. change (attr_put ASize fs1 c sz) with fs2 in *.
  assert (vw fs2 ≡ v_create (h_id c) (set_size sz r0) (vws s)) as E2 by (rewrite P4, A4; apply create_update).
  destruct (link_new k fs2 (vws s) dir n c (set_size sz r0)) as (L1 & L2 & L3 & L4); try done; try apply Ha; try apply Hn.
  fold fs' in L1, L2, L3, L4.
  destruct (added_state k s s' 0 0 (h_id dir) p n (set_size sz r0)) as (B1 & B2 & B3 & B4); try done.
  { unfold next. simpl. congruence. }
  { simpl. rewrite length_app. simpl. lia. }
  exists tt, s'. split; [|split_and!; try done].
  - unfold add_new, mbind, build_bind. rewrite call_eq. cbn beta iota.
    change (set_fs _ s) with (set_fs fs1 s). rewrite Esz. reflexivity.
  - split.
    + intros f q [Hin|Hin]%elem_of_app; [by eapply di_files|]. apply list_elem_of_singleton in Hin. by injection Hin as -> ->.
    + intros x r' Hx H64. rewrite (added_attr _ _ _ _ _ _ _ L4) by done. case_decide; [|by apply Hf].
      intros [= <-] _. unfold r0, inc_nlink. simpl. lia.
Qed.

(** What a call leaves that changes attributes alone. *)
Record quiet (k : Z) s s' : Prop := {
  qt_base : base k s';
  qt_inv : days_inv s';
  qt_at day d p : at_dir day d p s → at_dir day d p s';
  qt_next : next s' = next s
}.
Lemma quiet_still k j f c s s' :
  k <= j → base j s → days_inv s → ready k (b_fs s') → still f c s s' →
  (∀ r, 1 <= r_size r → 1 <= r_size (f r)) → quiet k s s'.
Proof.
  intros Hle Hb Hd Hr St Hf. split; [by eapply still_base|by eapply days_inv_still| |apply St].
  intros day d p. by eapply still_at.
Qed.
Lemma quiet_trans j k s1 s2 s3 : quiet j s1 s2 → quiet k s2 s3 → quiet k s1 s3.
Proof. intros [B1 I1 A1 N1] [B2 I2 A2 N2]. split; [done|done|auto|congruence]. Qed.
Lemma quiet_refl k s : base k s → days_inv s → quiet k s s.
Proof. by split. Qed.

Lemma touch_spec k s day :
  0 <= k → base (k + 2) s → days_inv s →
  ∃ s', touch_files day s = Some (tt, s') ∧ quiet k s s' ∧ m_cur (b_fs s') = m_cur (b_fs s).
Proof.
  intros Hk Hb Hd. unfold touch_files, mbind, build_bind, get_files. destruct (b_files s) as [|f l] eqn:Ef.
  { exists s. split; [done|]. split; [|done]. apply quiet_refl; [|done]. by eapply base_le; [|done]; lia. }
  assert (in64 (h_id f.1)) as Hf by (apply (di_files s Hd f.1 f.2); rewrite Ef; destruct f; set_solver).
  rewrite call_eq. cbn beta iota. set (s1 := set_fs (setContentSeed (b_fs s) f.1 (u64 (1000 + day))).2 s).
  destruct (seed_ready (k + 1) (b_fs s) f.1 (u64 (1000 + day))) as (S1 & S2 & S3 & S4);
    [lia|replace (k + 1 + 1) with (k + 2) by lia; apply Hb|done|apply u64_range|].
  assert (quiet (k + 1) s s1) as Q1.
  { destruct S4 as [S4|S4].
    - eapply quiet_still with (f := id) (c := 0); [|done|done|done|by apply still_equiv|done]. lia.
    - eapply quiet_still with (f := set_spec _) (c := h_id f.1); [|done|done|done| |by intros []]; [lia|]. split; try done. by intros []. }
  destruct l as [|g l].
  { exists s1. split; [done|]. split; [|done]. eapply quiet_trans; [exact Q1|]. apply quiet_refl; [|apply Q1].
    eapply base_le; [|apply Q1]. lia. }
  assert (in64 (h_id g.1)) as Hg by (apply (di_files s Hd g.1 g.2); rewrite Ef; destruct g; set_solver).
  destruct (put_ready k (b_fs s1) AMode g.1 (u32 (384 + day))) as (M1 & M2 & M3 & M4); [done|apply Q1|done|apply u32_range|].
  set (s2 := set_fs (put_mode (b_fs s1) g.1 (u32 (384 + day))) s1).
  exists s2. split; [done|]. split; [|by etrans].
  eapply quiet_trans; [exact Q1|]. eapply quiet_still with (f := set_mode _) (c := h_id g.1); [|apply Q1|apply Q1|done| |by intros []].
  - lia.
  - split; try done. by intros [].
Qed.
Lemma time_spec k s t :
  0 <= k → base (k + 1) s → days_inv s → in64 t →
  quiet k s (set_fs (setTime (b_fs s) t) s) ∧ m_cur (setTime (b_fs s) t) = m_cur (b_fs s).
Proof.
  intros Hk Hb Hd Ht. destruct (time_ready k (b_fs s) t Hk (bs_ready _ _ Hb) Ht) as (T1 & T2 & T3 & T4). split; [|done].
  eapply quiet_still with (f := id) (c := 0); [|done|done|done|by apply still_equiv|done]. lia.
Qed.
Lemma snapshot_spec k s label :
  base k s → days_inv s → m_cur (b_fs s) + 1 < LATEST →
  quiet k s (set_fs (snapshot (b_fs s) label).2 s) ∧ m_cur (snapshot (b_fs s) label).2 = m_cur (b_fs s) + 1.
Proof.
  intros Hb Hd Hc. destruct (snapshot_ready k (b_fs s) label (bs_ready _ _ Hb) Hc) as (T1 & T2 & T3 & T4 & _). split; [|done].
  eapply quiet_still with (f := id) (c := 0); [|done|done|done|by apply still_equiv|done]. lia.
Qed.

(** Operations of one round. *)
Definition day_ops (c : Cfg) : Z := 5 + Z.max 1 (c_files c) * 3.
Lemma day_round_spec c ws root k s t day :
  0 <= c_total c <= 2 ^ 53 → h_id root = 1 → 0 <= k → base (k + day_ops c) s → days_inv s → in64 t →
  1 <= day → in64 day → at_dir day 1 [] s → m_cur (b_fs s) + 1 < LATEST →
  ∃ s', day_round c ws root t day s = Some (m_cur (b_fs s), s') ∧ base k s' ∧ days_inv s' ∧
    at_dir (day + 1) 1 [] s' ∧ m_cur (b_fs s') = m_cur (b_fs s) + 1.
Proof.
  intros Htot Hroot Hk Hb Hd Ht H1 Hday Ha Hcur. unfold day_ops in Hb. set (N := Z.max 1 (c_files c) * 3) in *.
  assert (0 <= N) as HN by lia. unfold day_round, do_, mbind, build_bind.
  destruct (time_spec (k + N + 4) s t) as [Q1 T1]; [lia|by replace (k + N + 4 + 1) with (k + (5 + N)) by lia|done..|].
  rewrite call_eq. cbn beta iota. cbn [snd fst]. set (s1 := set_fs (setTime (b_fs s) t) s) in *.
  destruct (touch_spec (k + N + 2) s1 day) as (s2 & E2 & Q2 & T2);
    [lia|replace (k + N + 2 + 2) with (k + N + 4) by lia; apply Q1|apply Q1|].
  rewrite E2. pose proof (qt_at _ _ _ Q2 _ _ _ (qt_at _ _ _ Q1 _ _ _ Ha)) as Ha2. rewrite !call_eq. cbn beta iota.
  pose proof (next_day s2 day 1 [] H1 Hday Ha2) as Hn. set (d := mkHandle (next s2) LATEST).
  destruct (make_dir (k + N) s2 day (day + 1) (b_id s2) root [] (day_name day) (b_dirs s2)) as (B3 & A3 & D3 & F3 & V3 & N3);
    [lia|apply Q2|by rewrite Hroot|by rewrite Hroot|]. rewrite Hroot in A3, F3, V3. fold d in B3, A3, D3, F3, V3, N3.
  set (s3 := mkB (link (exec (b_fs s2) OpMkdir).2 root (day_name day) d).2 (b_rng s2) (b_files s2) (b_dirs s2) (b_hard s2) (b_sym s2) (b_id s2)) in *.
  assert (days_inv s3) as I3.
  { split; [apply (qt_inv _ _ _ Q2)|]. intros x r' Hx H64. rewrite (added_attr _ _ _ _ _ _ _ V3) by done. case_decide; [|by apply Q2].
    intros [= <-] Hty. done. }
  assert (runs days_inv N (h_id d) (slash [] (day_name day)) (λ _, True)
    (nn ← randi 1 (c_files c); repeat_ nn (add_new (c_total c) ws d day)) (λ _ _, True)) as Hrep.
  { replace N with (0 + N) by lia. assert (∀ s r, days_inv s → days_inv (set_rng r s)) as Hrng by (intros ?? []; by split).
    eapply runs_bind; [by apply (runs_randi _ _ _ _ _ (λ _, True))| |lia]. intros nn.
    apply runs_repeat; [by apply runs_add_new|lia]. }
  destruct (proj2 Hrep k s3 Hk B3 I3 D3 Logic.I) as ([] & s4 & E4 & B4 & I4 & _ & F4 & _).
  assert (1 < next s2) as Hlt by (eapply is_dir_ids; [eapply base_inv, Q2|word_lia|apply Ha2]).
  destruct (frame_inside (day + 1) 1 (next s2) [] s2 s3 s4 (base_graph _ _ B3) A3 F3 Hlt) as [A4 F4']; [lia|done|].
  destruct (snapshot_spec k s4 (day_name day) B4 I4) as [Q5 T5].
  { rewrite (fr_cur _ _ _ F4'), T2. change (m_cur (setTime (b_fs s) t) + 1 < LATEST). by rewrite T1. }
  set (s5 := set_fs (snapshot (b_fs s4) (day_name day)).2 s4) in *.
  assert (m_cur (b_fs s4) = m_cur (b_fs s)) as Hc4 by (rewrite (fr_cur _ _ _ F4'), T2; exact T1).
  exists s5. split; [|split_and!; [apply Q5|apply Q5|by apply (qt_at _ _ _ Q5)|by rewrite <- Hc4]].
  unfold mbind, build_bind in E4. change (set_fs _ (set_fs _ s2)) with s3.
  change (randi 1 (c_files c) (set_fs _ _)) with (randi (M := M) 1 (c_files c) s3).
  destruct (randi 1 (c_files c) s3) as [[nn sr]|]; [|done]. change (mkHandle (m_next _) LATEST) with d in *.
  change (mkdir (b_fs s2)).1 with d. rewrite E4. rewrite call_eq. by rewrite <- Hc4.
Qed.

Lemma days_spec c ws root n k s t day :
  0 <= c_total c <= 2 ^ 53 → h_id root = 1 → 0 <= k → base (k + Z.of_nat n * day_ops c) s → days_inv s →
  1 <= day → in64 (day + Z.of_nat n) → at_dir day 1 [] s → m_cur (b_fs s) + Z.of_nat n < LATEST →
  ∃ s', days c ws root n t day s = Some (seqZ (m_cur (b_fs s)) (Z.of_nat n), s') ∧ base k s' ∧ days_inv s' ∧
    m_cur (b_fs s') = m_cur (b_fs s) + Z.of_nat n.
Proof.
  intros Htot Hroot Hk. revert s t day. induction n as [|n IH]; intros s t day Hb Hd H1 Hday Ha Hcur.
  { exists s. split; [done|]. split; [eapply base_le; [|exact Hb]; lia|]. split; [done|]. cbn. lia. }
  assert (0 <= day_ops c) as Hops by (unfold day_ops; lia).
  destruct (day_round_spec c ws root (k + Z.of_nat n * day_ops c) s (u64 (t + 86400)) day) as (s1 & E1 & B1 & I1 & A1 & C1);
    try done; [nia|by replace (k + Z.of_nat n * day_ops c + day_ops c) with (k + Z.of_nat (S n) * day_ops c) by lia|apply u64_range|word_lia|lia|].
  destruct (IH s1 (u64 (t + 86400)) (day + 1)) as (s2 & E2 & B2 & I2 & C2); try done; [lia|word_lia|lia|].
  exists s2. split_and!; try done; [|lia].
  cbn [days]. unfold mbind, build_bind. rewrite E1, E2, C1.
  rewrite (seqZ_cons _ (Z.of_nat (S n))) by lia. by replace (Z.pred (Z.of_nat (S n))) with (Z.of_nat n) by lia.
Qed.
End Runs.

(** ** The whole build *)

Section Whole.
Context {M : Type} `{!KvEngine M} {R W : Type} `{!Draws R W}.
Implicit Types (fs : Store M).

(** Operations of a build, over the number of which its ids and counters are
    bounded. *)
Definition bt_levels (c : Cfg) : nat := Z.to_nat (c_depth c - 1).
Definition bt_rounds (c : Cfg) : Z := Z.max 0 (c_rounds c).
Definition bt_ops (c : Cfg) : Z := 2 * (1 + dir_ops c (bt_levels c)) + bt_rounds c * day_ops c.

Lemma root_empty fs n : inv fs → readdir fs (rwRoot fs) = [] → v_ent (vw fs) 1 n = None.
Proof.
  intros I He. destruct (v_ent (vw fs) 1 n) as [x|] eqn:E; [|done]. exfalso.
  pose proof (sh_cur _ _ _ (inv_shape _ I)). assert (plain fs (rwRoot fs)) as Hp.
  { unfold plain, rwRoot. cbn [h_id h_snap]. rewrite (i_root _ I), live_rr. split_and!; [done|word_lia|unfold LATEST in *; word_lia]. }
  assert ((n, mkHandle x LATEST) ∈ readdir fs (rwRoot fs)) as Hin.
  { apply elem_of_readdir; [done..|]. exists x. unfold at_, rwRoot. cbn [h_id h_snap]. by rewrite (i_root _ I), live_rr. }
  rewrite He in Hin. by apply elem_of_nil in Hin.
Qed.

(** The first state: an empty root, and nothing made yet. *)
Lemma first_state k K fs rng :
  0 <= k <= K → ready k fs → (∀ n, v_ent (vw fs) 1 n = None) →
  let s := mkB (R := R) fs rng [] 0 0 0 0 in
  base (m_next fs) K k s ∧ tree_inv (m_next fs) s ∧ at_dir 0 1 [] s.
Proof.
  intros Hk Hr He s. pose proof (ready_inv _ _ Hr) as I.
  assert (∀ c r, m_next fs <= c → in64 c → v_attr (vw fs) c = Some r → False) as Hno.
  { intros c r Hc H64 Hr'. pose proof (vw_ids _ _ _ I H64 Hr'). lia. }
  split_and!.
  - split; try done; [|simpl; lia..]. split; [unfold next; simpl; lia|]. intros c r Hc H64 Hr'. by destruct (Hno c r).
  - split; [by intros ?? ?%elem_of_nil|]. intros c Hc (H64 & r & Hr' & _). by destruct (Hno c r).
  - split; [word_lia|apply vw_graph, I|apply has_path_root|]. intros n c Hn. unfold vws, s in Hn. cbn [b_fs] in Hn. by rewrite He in Hn.
Qed.

(** The clock and the content policy a build sets first. *)
Lemma prepared_ready k fs :
  0 <= k → ready (k + 1) fs →
  let t := if now fs =? 0 then 1700000000 else now fs in let fs1 := if now fs =? 0 then setTime fs t else fs in
  let fs2 := setContentConfig fs1 (config_serialize bt_content) in
  ready k fs2 ∧ m_cur fs2 = m_cur fs ∧ m_next fs2 = m_next fs ∧ vw fs2 ≡ vw fs.
Proof.
  intros Hk Hr t fs1 fs2.
  assert (ready k fs1 ∧ m_cur fs1 = m_cur fs ∧ m_next fs1 = m_next fs ∧ vw fs1 ≡ vw fs) as (R1 & C1 & N1 & V1).
  { unfold fs1. destruct (_ =? _).
    - apply time_ready; [done..|]. unfold t. word_lia.
    - split_and!; [|done..]. eapply ready_le; [|exact Hr]. lia. }
  destruct (config_ready k fs1 (config_serialize bt_content) R1) as (R2 & C2 & N2 & V2).
  split_and!; [done|by etrans..].
Qed.
Lemma build_spec fs c rng :
  reachable_from fresh_store fs → room (bt_ops c) fs → bt_ops c < 2 ^ 31 → readdir fs (rwRoot fs) = [] →
  0 <= c_total c <= 2 ^ 53 → m_cur fs + bt_rounds c + 1 < LATEST → c_rounds c < 2 ^ 31 →
  ∃ s, build c (rwRoot fs) (mkB fs rng [] 0 0 0 0) = Some (seqZ (m_cur fs) (1 + bt_rounds c), s) ∧
    base (m_next fs) (bt_ops c) 0 s ∧ days_inv (m_next fs) s ∧ m_cur (b_fs s) = m_cur fs + 1 + bt_rounds c.
Proof.
  intros Hreach Hroom Hsmall Hempty Htot Hcur Hrounds. pose proof (inv_reachable _ Hreach) as I.
  pose proof (dir_ops_nonneg c (bt_levels c)) as HT. set (T := dir_ops c (bt_levels c)) in *.
  assert (0 <= bt_rounds c * day_ops c) as HD by (unfold bt_rounds, day_ops; nia). set (D := bt_rounds c * day_ops c) in *.
  assert (bt_ops c = 2 * (1 + T) + D) as HK by done. set (K := bt_ops c) in *.
  set (t := if now fs =? 0 then 1700000000 else now fs). set (fs1 := if now fs =? 0 then setTime fs t else fs).
  set (fs2 := setContentConfig fs1 (config_serialize bt_content)).
  destruct (prepared_ready (K - 1) fs) as (R2 & C2 & N2 & V2); [lia|by replace (K - 1 + 1) with K by lia|]. fold t fs1 fs2 in R2, C2, N2, V2.
  destruct (first_state (T + (1 + T) + D) K fs2 rng) as (B0 & F0 & A0); [lia|eapply ready_le; [|exact R2]; lia| |].
  { intros n. assert (in64 1) as H1 by word_lia. rewrite (proj2 (V2 1 H1)). by apply root_empty. }
  rewrite N2 in B0, F0. set (s0 := mkB fs2 rng [] 0 0 0 0) in *.
  assert (h_id (rwRoot fs) = 1) as Hroot by apply I.
  assert (K < 2 ^ 31) as HKs by done.
  destruct (proj2 (runs_buildDir (m_next fs) K HKs c (bt_levels c) (rwRoot fs) []) (1 + T + D) s0) as
    ([] & s1 & E1 & B1 & F1 & A1 & Fr1 & _); [lia| |done|by rewrite Hroot|done|].
  { eapply base_le; [|exact B0]. fold T. lia. }
  rewrite Hroot in A1, Fr1. pose proof (bs_files _ _ _ _ B1).
  destruct (size_files_spec (m_next fs) K (c_total c) D (1 + T) s1) as (ws & s2 & E2 & B2 & A2 & C3 & N3 & D2);
    [done|lia|eapply base_le; [|exact B1]; lia|lia|done|done|].
  assert (m_cur (b_fs s2) = m_cur fs) as Hc2 by (rewrite C3, (fr_cur _ _ _ Fr1); exact C2).
  destruct (snapshot_spec (m_next fs) K D s2 (str "base") B2 D2) as [Q3 C4]; [rewrite Hc2; unfold bt_rounds in *; lia|].
  set (s3 := set_fs (snapshot (b_fs s2) (str "base")).2 s2) in *.
  assert (Z.of_nat (Z.to_nat (c_rounds c)) = bt_rounds c) as Hn by (unfold bt_rounds; lia).
  destruct (days_spec (m_next fs) K HKs c ws (rwRoot fs) (Z.to_nat (c_rounds c)) 0 s3 t 1) as (s4 & E4 & B4 & D4 & C5);
    [done|done|lia|rewrite Hn; apply Q3|apply Q3|lia|unfold bt_rounds in Hn; word_lia| | |].
  { apply (qt_at _ _ _ _ _ Q3) in A2. destruct A2 as [? ? ? An]. split; try done. intros n x Hx. eapply named_le; [| |by eapply An]; lia. }
  { change (m_cur (b_fs s3)) with (m_cur (snapshot (b_fs s2) (str "base")).2). lia. }
  assert (m_cur (b_fs s3) = m_cur fs + 1) as Hc3 by (rewrite <- Hc2; exact C4).
  exists s4. split; [|split_and!; [done|done|lia]].
  assert (build c (rwRoot fs) (mkB fs rng [] 0 0 0 0) =
    (_ ← buildDir c (bt_levels c) (rwRoot fs) []; ws ← size_files (c_total c);
     g ← call (λ fs, snapshot fs (str "base")); l ← days c ws (rwRoot fs) (Z.to_nat (c_rounds c)) t 1; mret (g :: l)) s0) as ->.
  { unfold build, mbind, build_bind. rewrite call_eq. cbn beta iota. cbn [fst snd b_fs]. fold t.
    unfold s0, fs2, fs1. by destruct (now fs =? 0). }
  unfold mbind, build_bind. rewrite E1, E2, call_eq. fold s3. rewrite E4, Hc3, Hn.
  change (snapshot (b_fs s2) (str "base")).1 with (m_cur (b_fs s2)). rewrite Hc2.
  rewrite (seqZ_cons _ (1 + bt_rounds c)) by (unfold bt_rounds; lia). unfold Z.succ.
  by replace (Z.pred (1 + bt_rounds c)) with (bt_rounds c) by lia.
Qed.

Lemma parseSize_range v x : parseSize v = Some x → in64 x.
Proof.
  unfold parseSize. destruct (last v); [|intros [= <-]; word_lia]. intros (y & _ & ->)%fmap_Some. apply u64_range.
Qed.
Lemma bt_config_range o c : bt_config o = Some c → 0 <= c_total c ∧ c_rounds c < 2 ^ 31.
Proof.
  unfold bt_config. intros (dp & _ & (di & _ & (fi & _ & (ro & _ & (to & Hto & (se & _ & [= <-])%bind_Some)%bind_Some)%bind_Some)%bind_Some)%bind_Some)%bind_Some.
  cbn [c_total c_rounds]. split; [by apply parseSize_range in Hto as [? _]|]. unfold i32.
  pose proof (Z.mod_pos_bound (ro + 2 ^ 31) (2 ^ 32) ltac:(lia)). lia.
Qed.

(** Without [bigtree.force] a populated store is served as it is. *)
Lemma bigtree_skips (o : Options) fs :
  readdir fs (rwRoot fs) ≠ [] → option_ o (str "bigtree.force") = [] → start o fs = Some (OK, fs).
Proof. intros Hr Ho. unfold start. rewrite Ho, bool_decide_true by done. by rewrite bool_decide_false. Qed.

(** C29. What the builder makes of an empty store: it succeeds; every node is
    reached by a path from the root, so none is an orphan; no file is empty; the
    target of every symbolic link leads to a regular file; and the base snapshot
    and one for each day are sealed. *)
Theorem bigtree_builds (o : Options) c fs :
  reachable_from fresh_store fs → readdir fs (rwRoot fs) = [] → bt_config o = Some c →
  c_total c <= 2 ^ 53 → bt_ops c < 2 ^ 31 → room (bt_ops c) fs → m_cur fs + bt_rounds c + 1 < LATEST →
  ∃ fs', start o fs = Some (OK, fs') ∧ reachable_from fresh_store fs' ∧ m_cur fs' = m_cur fs + 1 + bt_rounds c ∧
    ∀ x, m_next fs <= x < m_next fs' → let h := mkHandle x LATEST in
      (∃ path, resolve fs' path = Some h) ∧
      (n_type fs' h = tcode REG → 1 <= n_size fs' h) ∧
      (n_type fs' h = tcode LNK → ∃ f, resolve fs' (n_target fs' h) = Some f ∧ n_type fs' f = tcode REG).
Proof.
  intros Hreach Hempty Hcfg Htot Hops Hroom Hcur.
  destruct (bt_config_range o c Hcfg) as [Ht0 Hr].
  destruct (build_spec fs c (mt19937_64 (c_seed c))) as (s & E & Hb & Hd & Hc); try done.
  exists (b_fs s). assert (inv (b_fs s)) as I by (eapply base_inv, Hb). pose proof (base_graph _ _ _ _ Hb) as G.
  split; [|split; [apply Hb|split; [done|]]].
  - unfold start. rewrite Hempty, (bool_decide_true (@nil (bytes * Handle) = [])), Hcfg by done.
    rewrite andb_false_r. by rewrite E.
  - intros x Hx. cbv zeta. destruct (t_path _ _ _ (bs_tree _ _ _ _ Hb) x Hx) as [p Hp].
    destruct (path_node _ _ _ G Hp) as (H64 & r & Hr'). destruct (read_live _ x r I H64 Hr') as (-> & -> & Htgt).
    split; [exists p; by apply resolve_path|]. split.
    + intros Hty. by eapply (di_sized _ _ Hd x r); [lia|..].
    + intros Hty. rewrite Htgt by done. destruct (t_sym _ _ _ (bs_tree _ _ _ _ Hb) x r) as (f & Hf & Hf64 & rf & Hrf & Hfty); [lia|done..|].
      exists (mkHandle f LATEST). split; [by apply resolve_path|]. by destruct (read_live _ f rf I Hf64 Hrf) as (-> & _).
Qed.
End Whole.

(** ** Options *)

(** A size is read back with its unit; the product wraps at 64 bits. *)
Lemma parseSize_spec n c :
  in64 n → suffix_mult c ≠ 1 → parseSize (to_string n ++ [c]) = Some (u64 (n * suffix_mult c)).
Proof.
  intros Hn Hc. unfold parseSize. rewrite last_snoc. rewrite (proj2 (Z.eqb_neq _ _)) by done.
  rewrite length_app, Nat.add_sub, take_app_length. rewrite <- (app_nil_r (to_string n)), stoull_to_string by done. done.
Qed.
Lemma parseSize_wraps : parseSize (str "16777216T") = Some 0.
Proof. by vm_compute. Qed.

(** ** Witnesses *)

(** A generator and distributions that satisfy the interface. *)
Definition lcg (r : Z) : Z := (r * 1103515245 + 12345) mod 2 ^ 31.
Lemma lcg_range r lo hi : lo <= hi → lo <= lo + (r / 65536) mod (hi - lo + 1) <= hi.
Proof. intros ?. pose proof (Z.mod_pos_bound (r / 65536) (hi - lo + 1) ltac:(lia)). lia. Qed.
#[local] Instance DemoDraws : Draws Z Z := {|
  mt19937_64 seed := seed;
  uniform_int r lo hi := (lo + (r / 65536) mod (hi - lo + 1), lcg r);
  randWeight r := (1 + (r / 65536) mod 1000, lcg r);
  share total ws w := Z.min (2 ^ 64 - 1) (Z.max 1 (total * w / foldr Z.add 0 ws));
  uniform_int_law := lcg_range;
  share_law total ws w _ _ := ltac:(lia)
|}.
Definition demo_opts : Options :=
  <[str "bigtree.depth" := str "2"]> (<[str "bigtree.dirs" := str "2"]> (<[str "bigtree.files" := str "6"]>
    (<[str "bigtree.snapshots" := str "1"]> ∅))).
Definition demo_cfg : Cfg := mkCfg 2 2 6 1 (2 ^ 40) 42.
Definition demo_tree : Store (gmap bytes bytes) :=
  match start demo_opts demo0 with Some (_, st) => st | None => demo0 end.

Lemma bigtree_builds_witness :
  ∃ st, start demo_opts demo0 = Some (OK, st) ∧ reachable_from fresh_store st ∧ m_cur st = 3 ∧
    ∀ x, 2 <= x < m_next st → let h := mkHandle x LATEST in
      (∃ path, resolve st path = Some h) ∧
      (n_type st h = tcode REG → 1 <= n_size st h) ∧
      (n_type st h = tcode LNK → ∃ f, resolve st (n_target st h) = Some f ∧ n_type st f = tcode REG).
Proof.
  apply (bigtree_builds (R := Z) (W := Z) demo_opts demo_cfg demo0).
  - constructor.
  - vm_compute. reflexivity.
  - vm_compute. reflexivity.
  - cbn. lia.
  - vm_compute. reflexivity.
  - apply room_ok_spec; [apply inv_reachable; constructor|]. vm_compute. reflexivity.
  - vm_compute. reflexivity.
Defined.
(** The demo tree: its root, and a symbolic link that leads to a file. *)
Lemma demo_tree_ok :
  (readdir demo_tree (rwRoot demo_tree)).*1 = [str "day-1"; str "dir-1"; str "dir-7"] ∧
  n_type demo_tree (mkHandle 5 LATEST) = tcode LNK ∧
  n_target demo_tree (mkHandle 5 LATEST) = str "/dir-1/file-3.bin" ∧
  resolve demo_tree (str "/dir-1/file-3.bin") = Some (mkHandle 4 LATEST).
Proof. vm_compute. by split_and!. Qed.

(** A forced build of a store that has the tree already starts over with the
    numbers: its names are taken, [link] fails, the error is not looked at, and
    the new directories and all below them are orphans. *)
Lemma forced_build_orphans :
  match start (<[str "bigtree.force" := str "1"]> demo_opts) demo_tree with
  | Some (OK, st) =>
      readdir st (rwRoot st) = readdir demo_tree (rwRoot demo_tree) ∧
      n_type st (mkHandle 20 LATEST) = tcode DIR ∧ n_nlink st (mkHandle 20 LATEST) = 0 ∧
      length (readdir st (mkHandle 20 LATEST)) = 5%nat ∧ parents st (mkHandle 20 LATEST) = []
  | _ => False
  end.
Proof. vm_compute. by split_and!. Qed.
