(* ===== verification/Nfs4State.v ===== *)
(** * Nfs4State: clients, opens and byte-range locks of the NFSv4 front-end
    (plugins/nfsv4/nfsv4.cpp, the state guarded by [m_clientMu] and [m_stateMu])

    One definition per critical section. The iteration order of the hash
    tables is unspecified, so it enters as an interface ([MapOrder]); ids and
    sequence numbers wrap at their width. *)
From S2P Require Import Prelude Keys Xdr.
Local Open Scope Z_scope.
Set Warnings "-clear-no-such-hyp".

(** ** Constants *)

Definition ALL64 : Z := 2 ^ 64 - 1.
Definition ALL32 : Z := 2 ^ 32 - 1.
Definition ACCESS_READ := 1.
Definition ACCESS_WRITE := 2.
Definition ACCESS_BOTH := 3.
Definition READ_LT := 1.
Definition WRITE_LT := 2.
Definition WRITEW_LT := 4.
Definition NFS4_OK := 0.
Definition NFS4ERR_DENIED := 10010.
Definition NFS4ERR_SHARE_DENIED := 10015.
Definition NFS4ERR_STALE_CLIENTID := 10022.
Definition NFS4ERR_BAD_STATEID := 10025.

(** ** Data *)

Record Stateid := mkStateid { sid_seqid : Z; sid_id : Z; sid_tag : Z; sid_special : bool }.
Record OpenState := mkOpen {
  o_clientid : Z; o_owner : bytes; o_fileId : Z; o_access : Z; o_deny : Z; o_seqid : Z }.
Record ClientRec := mkClient {
  c_clientid : Z; c_id : bytes; c_verifier : Z; c_confirmVerf : Z; c_confirmed : bool;
  c_cbProgram : Z; c_cbNetid : bytes; c_cbAddr : bytes; c_cbIdent : Z }.
Record LockRange := mkRange { lr_off : Z; lr_len : Z; lr_type : Z }.
Record LockState := mkLock {
  l_clientid : Z; l_owner : bytes; l_fileId : Z; l_seqid : Z; l_ranges : list LockRange }.

Record V4 := mkV4 {
  m_nextClientid : Z; m_clients : gmap Z ClientRec;
  m_nextState : Z; m_opens : gmap Z OpenState; m_locks : gmap Z LockState;
  m_confirmedOwners : gset (Z * bytes) }.
Definition V40 : V4 := mkV4 1 ∅ 1 ∅ ∅ ∅.
Definition set_clients (x : gmap Z ClientRec) (s : V4) : V4 :=
  mkV4 (m_nextClientid s) x (m_nextState s) (m_opens s) (m_locks s) (m_confirmedOwners s).
Definition set_opens (x : gmap Z OpenState) (s : V4) : V4 :=
  mkV4 (m_nextClientid s) (m_clients s) (m_nextState s) x (m_locks s) (m_confirmedOwners s).
Definition set_locks (x : gmap Z LockState) (s : V4) : V4 :=
  mkV4 (m_nextClientid s) (m_clients s) (m_nextState s) (m_opens s) x (m_confirmedOwners s).
Definition bump_state (s : V4) : V4 :=
  mkV4 (m_nextClientid s) (m_clients s) (u64 (m_nextState s + 1)) (m_opens s) (m_locks s) (m_confirmedOwners s).
Definition bump_client (s : V4) : V4 :=
  mkV4 (u64 (m_nextClientid s + 1)) (m_clients s) (m_nextState s) (m_opens s) (m_locks s) (m_confirmedOwners s).
Definition confirm_owner (o : Z * bytes) (s : V4) : V4 :=
  mkV4 (m_nextClientid s) (m_clients s) (m_nextState s) (m_opens s) (m_locks s) ({[o]} ∪ m_confirmedOwners s).

Definition o_set_share (access deny seqid : Z) (o : OpenState) : OpenState :=
  mkOpen (o_clientid o) (o_owner o) (o_fileId o) access deny seqid.
Definition l_set (seqid : Z) (ranges : list LockRange) (l : LockState) : LockState :=
  mkLock (l_clientid l) (l_owner l) (l_fileId l) seqid ranges.

(** The order in which a hash table is walked: any enumeration of its entries. *)
Class MapOrder := {
  iter : ∀ {A}, gmap Z A → list (Z * A);
  iter_perm : ∀ {A} (m : gmap Z A), iter m ≡ₚ map_to_list m
}.
Global Instance map_order : MapOrder := { iter A m := map_to_list m; iter_perm A m := reflexivity _ }.

(** ** Helpers *)

Definition viewFileid4 (id snap : Z) : Z :=
  if snap =? LATEST then id
  else
    let x := u64 (id * 0x9E3779B97F4A7C15 + snap) in
    let x := u64 (Z.lxor x (Z.shiftr x 30) * 0xBF58476D1CE4E5B9) in
    let x := u64 (Z.lxor x (Z.shiftr x 27) * 0x94D049BB133111EB) in
    Z.lxor x (Z.shiftr x 31).

(** [[off, len)] overlap; the ends are 64-bit sums. *)
Definition range_end (off len : Z) : Z := if len =? ALL64 then ALL64 else u64 (off + len).
Definition overlaps (aoff alen boff blen : Z) : bool :=
  (aoff <? range_end boff blen) && (boff <? range_end aoff alen).

Section State.
Context `{!MapOrder}.
Implicit Types (s : V4) (owner : bytes).

(** The first key whose entry satisfies [P], 0 if there is none. *)
Definition find_key {A} (P : Z * A → bool) (m : gmap Z A) : Z :=
  default 0 (fst <$> head (filter (λ e, P e = true) (iter m))).

(** ** Clients *)

Definition clientConfirmed s (clientid : Z) : bool :=
  match m_clients s !! clientid with Some c => c_confirmed c | None => false end.
Definition purgeClientState s (clientid : Z) : V4 :=
  set_locks (filter (λ e, l_clientid e.2 ≠ clientid) (m_locks s))
    (set_opens (filter (λ e, o_clientid e.2 ≠ clientid) (m_opens s)) s).

(** SETCLIENTID: the clientid and its confirm verifier. [hash] is
    [std::hash<std::string>]. *)
Definition set_clientid (hash : bytes → Z) s (verifier : Z) (id : bytes)
    (cbProgram : Z) (cbNetid cbAddr : bytes) (cbIdent : Z) : (Z * Z) * V4 :=
  let clientid := find_key (λ e, bool_decide (c_id e.2 = id) && (c_verifier e.2 =? verifier)) (m_clients s) in
  if negb (clientid =? 0) then
    match m_clients s !! clientid with
    | Some r =>
        ((clientid, c_confirmVerf r),
         set_clients (<[clientid := mkClient (c_clientid r) (c_id r) (c_verifier r) (c_confirmVerf r) (c_confirmed r)
                                      cbProgram cbNetid cbAddr cbIdent]> (m_clients s)) s)
    | None => ((clientid, 0), s)
    end
  else
    let clientid := m_nextClientid s in
    let cv := viewFileid4 (Z.lxor clientid verifier) (hash id) in
    ((clientid, cv),
     set_clients (<[clientid := mkClient clientid id verifier cv false cbProgram cbNetid cbAddr cbIdent]> (m_clients s))
       (bump_client s)).

(** SETCLIENTID_CONFIRM: [None] is NFS4ERR_STALE_CLIENTID. *)
Definition stale_leases s (clientid : Z) (id : bytes) : list Z :=
  fst <$> filter (λ e, e.1 ≠ clientid ∧ c_confirmed e.2 = true ∧ c_id e.2 = id) (iter (m_clients s)).
Definition drop_lease s (k : Z) : V4 :=
  let s := purgeClientState s k in set_clients (delete k (m_clients s)) s.
Definition set_confirmed (r : ClientRec) : ClientRec :=
  mkClient (c_clientid r) (c_id r) (c_verifier r) (c_confirmVerf r) true
    (c_cbProgram r) (c_cbNetid r) (c_cbAddr r) (c_cbIdent r).
Definition setclientid_confirm s (clientid confirm : Z) : option V4 :=
  match m_clients s !! clientid with
  | None => None
  | Some r =>
      if negb (c_confirmVerf r =? confirm) then None
      else if c_confirmed r then Some s
      else
        let s := fold_left drop_lease (stale_leases s clientid (c_id r)) s in
        Some (set_clients (<[clientid := set_confirmed r]> (m_clients s)) s)
  end.

(** ** Opens *)

Definition same_open (fileId clientid : Z) owner (o : OpenState) : bool :=
  (o_fileId o =? fileId) && (o_clientid o =? clientid) && bool_decide (o_owner o = owner).
Definition share_conflict (fileId access deny : Z) (o : OpenState) : bool :=
  (o_fileId o =? fileId) && (negb (Z.land access (o_deny o) =? 0) || negb (Z.land deny (o_access o) =? 0)).
(** OPEN's share reservation: the stateid's (seqid, id); [None] is
    NFS4ERR_SHARE_DENIED. *)
Definition open_state s (clientid : Z) owner (fileId access deny : Z) : option ((Z * Z) * V4) :=
  let upId := find_key (λ e, same_open fileId clientid owner e.2) (m_opens s) in
  if negb (upId =? 0) then
    match m_opens s !! upId with
    | Some o =>
        let o' := o_set_share (Z.lor (o_access o) access) (Z.lor (o_deny o) deny) (u32 (o_seqid o + 1)) o in
        Some ((o_seqid o', upId), set_opens (<[upId := o']> (m_opens s)) s)
    | None => None
    end
  else if bool_decide (Exists (λ e, share_conflict fileId access deny e.2 = true) (iter (m_opens s))) then None
  else
    let stId := m_nextState s in
    Some ((1, stId),
      set_opens (<[stId := mkOpen clientid owner fileId access deny 1]> (m_opens s)) (bump_state s)).
Definition needConfirm s (clientid : Z) owner : bool := bool_decide ((clientid, owner) ∉ m_confirmedOwners s).

(** CLOSE, OPEN_CONFIRM, OPEN_DOWNGRADE: [None] is NFS4ERR_BAD_STATEID. *)
Definition close_state s (sid : Stateid) : option V4 :=
  if sid_special sid then Some s
  else match m_opens s !! sid_id sid with
       | None => None
       | Some _ => Some (set_opens (delete (sid_id sid) (m_opens s)) s)
       end.
Definition open_confirm s (sid : Stateid) : Z * V4 :=
  match m_opens s !! sid_id sid with
  | None => (sid_seqid sid, s)
  | Some o =>
      let sq := u32 (o_seqid o + 1) in
      (sq, confirm_owner (o_clientid o, o_owner o)
             (set_opens (<[sid_id sid := o_set_share (o_access o) (o_deny o) sq o]> (m_opens s)) s))
  end.
Definition open_downgrade s (sid : Stateid) (access deny : Z) : option (Z * V4) :=
  match m_opens s !! sid_id sid with
  | None => None
  | Some o =>
      let sq := u32 (o_seqid o + 1) in
      Some (sq, set_opens (<[sid_id sid := o_set_share access deny sq o]> (m_opens s)) s)
  end.

(** [checkStateid]: the access bits, or a status. *)
Definition checkStateid s (sid : Stateid) (fileId : Z) : Z + Z :=
  if sid_special sid then inl ACCESS_BOTH
  else if sid_tag sid =? 0 then
    match m_opens s !! sid_id sid with
    | Some o => if negb (o_fileId o =? fileId) then inr NFS4ERR_BAD_STATEID else inl (o_access o)
    | None => inr NFS4ERR_BAD_STATEID
    end
  else
    match m_locks s !! sid_id sid with
    | Some l => if negb (l_fileId l =? fileId) then inr NFS4ERR_BAD_STATEID else inl ACCESS_BOTH
    | None => inr NFS4ERR_BAD_STATEID
    end.

(** ** Locks *)

Definition same_owner (clientid : Z) owner (l : LockState) : bool :=
  (l_clientid l =? clientid) && bool_decide (l_owner l = owner).
Definition range_conflict (off len : Z) (write : bool) (rg : LockRange) : bool :=
  overlaps off len (lr_off rg) (lr_len rg) && (write || (lr_type rg =? WRITE_LT)).
(** The conflict a LOCK or LOCKT reports: the range and its holder. *)
Definition find_denied s (fileId clientid : Z) owner (off len : Z) (write : bool) : option (LockRange * (Z * bytes)) :=
  head (filter (λ e : Z * LockState, negb (l_fileId e.2 =? fileId) || same_owner clientid owner e.2 = false) (iter (m_locks s))
          ≫= λ e, (λ rg, (rg, (l_clientid e.2, l_owner e.2))) <$> filter (λ rg, range_conflict off len write rg = true) (l_ranges e.2)).

(** LOCK after its checks: a range for the lock-owner, in its state for the
    file; the stateid's (seqid, id). *)
Definition lock_grant s (fileId clientid : Z) owner (off len : Z) (write : bool) : (Z * Z) * V4 :=
  let lid := find_key (λ e, (l_fileId e.2 =? fileId) && same_owner clientid owner e.2) (m_locks s) in
  let '(lid, s) :=
    if lid =? 0 then
      (m_nextState s, set_locks (<[m_nextState s := mkLock clientid owner fileId 1 []]> (m_locks s)) (bump_state s))
    else (lid, s) in
  match m_locks s !! lid with
  | Some l =>
      let l' := l_set (u32 (l_seqid l + 1)) (l_ranges l ++ [mkRange off len (if write then WRITE_LT else READ_LT)]) l in
      ((l_seqid l', lid), set_locks (<[lid := l']> (m_locks s)) s)
  | None => ((0, lid), s)
  end.
Inductive LockRes :=
  | LockDenied (c : LockRange * (Z * bytes))
  | LockBad
  | LockGranted (seqid id : Z).
(** The critical section of LOCK; [existing] is the lock stateid of an owner
    that is not new. *)
Definition lock_state s (existing : option Stateid) (clientid : Z) owner (fileId off len : Z) (write : bool) : LockRes * V4 :=
  match
    match existing with
    | None => Some (clientid, owner)
    | Some sid => (λ l, (l_clientid l, l_owner l)) <$> m_locks s !! sid_id sid
    end
  with
  | None => (LockBad, s)
  | Some (clientid, owner) =>
      match find_denied s fileId clientid owner off len write with
      | Some c => (LockDenied c, s)
      | None => let '((sq, id), s') := lock_grant s fileId clientid owner off len write in (LockGranted sq id, s')
      end
  end.

(** LOCKU drops every range that meets the given one. *)
Definition locku_state s (sid : Stateid) (off len : Z) : option (Z * V4) :=
  match m_locks s !! sid_id sid with
  | None => None
  | Some l =>
      let l' := l_set (u32 (l_seqid l + 1))
                  (filter (λ rg, overlaps off len (lr_off rg) (lr_len rg) = false) (l_ranges l)) l in
      Some (l_seqid l', set_locks (<[sid_id sid := l']> (m_locks s)) s)
  end.
Definition release_lockowner s (clientid : Z) owner : V4 :=
  set_locks (filter (λ e, same_owner clientid owner e.2 = false) (m_locks s)) s.
End State.
