(* ===== verification/Nfs4.v ===== *)
(** * Nfs4: the NFSv4.0 COMPOUND operations (plugins/nfsv4/nfsv4.cpp)

    Programs over the state of [Nfs3] (store, cursor, reply, cookie cache),
    extended with the COMPOUND's file handles and the client/open/lock state
    of [Nfs4State]. The reader, the writer and the cookie functions that the
    two front-ends repeat are shared with [Xdr] and [Nfs3]. *)
From S2P Require Import Prelude Keys Kv NodeRec Store CStr Inv Di Host Xdr Nfs3 Nfs4State.
Local Open Scope Z_scope.
Set Warnings "-clear-no-such-hyp".

(** ** Constants *)

Definition NFS_V4 := 4.
Definition OPEN4_CREATE := 1.
Definition GUARDED4 := 1.
Definition EXCLUSIVE4 := 2.
Definition CLAIM_NULL := 0.
Definition SET_TO_CLIENT_TIME4 := 1.
Definition OPEN4_RESULT_CONFIRM := 2.
Definition OPEN4_RESULT_LOCKTYPE_POSIX := 4.
Definition NFS4ERR_PERM := 1.
Definition NFS4ERR_NOENT := 2.
Definition NFS4ERR_IO := 5.
Definition NFS4ERR_EXIST := 17.
Definition NFS4ERR_NOTDIR := 20.
Definition NFS4ERR_ISDIR := 21.
Definition NFS4ERR_INVAL := 22.
Definition NFS4ERR_ROFS := 30.
Definition NFS4ERR_NOTEMPTY := 66.
Definition NFS4ERR_STALE := 70.
Definition NFS4ERR_BADHANDLE := 10001.
Definition NFS4ERR_BAD_COOKIE := 10003.
Definition NFS4ERR_NOTSUPP := 10004.
Definition NFS4ERR_RESOURCE := 10018.
Definition NFS4ERR_NOFILEHANDLE := 10020.
Definition NFS4ERR_ATTRNOTSUPP := 10032.
Definition NFS4ERR_OPENMODE := 10038.
Definition NF4REG := 1.
Definition NF4DIR := 2.
Definition NF4BLK := 3.
Definition NF4CHR := 4.
Definition NF4LNK := 5.
Definition NF4SOCK := 6.
Definition NF4FIFO := 7.
Definition LEASE_TIME := 90.
Definition MAX_IO := 2 ^ 20.
Definition FA_SUPPORTED_ATTRS := 0.
Definition FA_TYPE := 1.
Definition FA_FH_EXPIRE_TYPE := 2.
Definition FA_CHANGE := 3.
Definition FA_SIZE := 4.
Definition FA_LINK_SUPPORT := 5.
Definition FA_SYMLINK_SUPPORT := 6.
Definition FA_NAMED_ATTR := 7.
Definition FA_FSID := 8.
Definition FA_UNIQUE_HANDLES := 9.
Definition FA_LEASE_TIME := 10.
Definition FA_RDATTR_ERROR := 11.
Definition FA_FILEHANDLE := 19.
Definition FA_FILEID := 20.
Definition FA_MAXFILESIZE := 27.
Definition FA_MAXLINK := 28.
Definition FA_MAXNAME := 29.
Definition FA_MAXREAD := 30.
Definition FA_MAXWRITE := 31.
Definition FA_MODE := 33.
Definition FA_NO_TRUNC := 34.
Definition FA_NUMLINKS := 35.
Definition FA_OWNER := 36.
Definition FA_OWNER_GROUP := 37.
Definition FA_SPACE_USED := 45.
Definition FA_TIME_ACCESS := 47.
Definition FA_TIME_ACCESS_SET := 48.
Definition FA_TIME_METADATA := 52.
Definition FA_TIME_MODIFY := 53.
Definition FA_TIME_MODIFY_SET := 54.
Definition FA_MOUNTED_ON_FILEID := 55.
(** The numbers of the procedures and the operations. *)
Abbreviation NFSPROC4_NULL := 0%Z (only parsing).
Abbreviation NFSPROC4_COMPOUND := 1%Z (only parsing).
Abbreviation OP_ACCESS := 3%Z (only parsing).
Abbreviation OP_CLOSE := 4%Z (only parsing).
Abbreviation OP_COMMIT := 5%Z (only parsing).
Abbreviation OP_CREATE := 6%Z (only parsing).
Abbreviation OP_GETATTR := 9%Z (only parsing).
Abbreviation OP_GETFH := 10%Z (only parsing).
Abbreviation OP_LINK := 11%Z (only parsing).
Abbreviation OP_LOCK := 12%Z (only parsing).
Abbreviation OP_LOCKT := 13%Z (only parsing).
Abbreviation OP_LOCKU := 14%Z (only parsing).
Abbreviation OP_LOOKUP := 15%Z (only parsing).
Abbreviation OP_LOOKUPP := 16%Z (only parsing).
Abbreviation OP_OPEN := 18%Z (only parsing).
Abbreviation OP_OPEN_CONFIRM := 20%Z (only parsing).
Abbreviation OP_OPEN_DOWNGRADE := 21%Z (only parsing).
Abbreviation OP_PUTFH := 22%Z (only parsing).
Abbreviation OP_PUTPUBFH := 23%Z (only parsing).
Abbreviation OP_PUTROOTFH := 24%Z (only parsing).
Abbreviation OP_READ := 25%Z (only parsing).
Abbreviation OP_READDIR := 26%Z (only parsing).
Abbreviation OP_READLINK := 27%Z (only parsing).
Abbreviation OP_REMOVE := 28%Z (only parsing).
Abbreviation OP_RENAME := 29%Z (only parsing).
Abbreviation OP_RENEW := 30%Z (only parsing).
Abbreviation OP_RESTOREFH := 31%Z (only parsing).
Abbreviation OP_SAVEFH := 32%Z (only parsing).
Abbreviation OP_SETATTR := 34%Z (only parsing).
Abbreviation OP_SETCLIENTID := 35%Z (only parsing).
Abbreviation OP_SETCLIENTID_CONFIRM := 36%Z (only parsing).
Abbreviation OP_WRITE := 38%Z (only parsing).
Abbreviation OP_RELEASE_LOCKOWNER := 39%Z (only parsing).

(** ** Pure helpers *)

Definition ftype4 (t : Z) : Z :=
  default NF4REG ([NF4REG; NF4DIR; NF4LNK; NF4BLK; NF4CHR; NF4FIFO; NF4SOCK] !! Z.to_nat t).
Definition toNfs4 (e : Error) : Z :=
  match e with
  | OK => NFS4_OK | NOENT => NFS4ERR_NOENT | EXIST => NFS4ERR_EXIST | NOTDIR => NFS4ERR_NOTDIR
  | ISDIR => NFS4ERR_ISDIR | NOTEMPTY => NFS4ERR_NOTEMPTY | PERM => NFS4ERR_PERM | INVAL => NFS4ERR_INVAL
  end.
Definition attrSupported (bit : Z) : bool :=
  bool_decide (bit ∈ [FA_SUPPORTED_ATTRS; FA_TYPE; FA_FH_EXPIRE_TYPE; FA_CHANGE; FA_SIZE; FA_LINK_SUPPORT;
    FA_SYMLINK_SUPPORT; FA_NAMED_ATTR; FA_FSID; FA_UNIQUE_HANDLES; FA_LEASE_TIME; FA_RDATTR_ERROR; FA_FILEHANDLE;
    FA_FILEID; FA_MAXFILESIZE; FA_MAXLINK; FA_MAXNAME; FA_MAXREAD; FA_MAXWRITE; FA_MODE; FA_NO_TRUNC; FA_NUMLINKS;
    FA_OWNER; FA_OWNER_GROUP; FA_SPACE_USED; FA_TIME_ACCESS; FA_TIME_METADATA; FA_TIME_MODIFY; FA_MOUNTED_ON_FILEID]).
(** [strtoul(s, nullptr, 10)] on the bytes up to the first NUL: white space, a
    sign, digits; saturating. *)
Definition strtoul10 (s : bytes) : Z :=
  let '(neg, s) := c_sign s in
  let v := c_digits s 0 in
  if ALL64 <? v then ALL64 else if (neg : bool) then u64 (- v) else v.

(** ** Reader and writer, where they differ from NFSv3's *)

Fixpoint r_words (k : nat) (r : Reader) : list Z * Reader :=
  match k with
  | O => ([], r)
  | S k' => let '(x, r) := r_u32 r in let '(l, r) := r_words k' r in (x :: l, r)
  end.
Definition r_bitmap (r : Reader) : list Z * Reader :=
  let '(cnt, r) := r_u32 r in
  if 16 <? cnt then ([], rd_fail r) else r_words (Z.to_nat cnt) r.
Definition r4_fh (r : Reader) : option (Z * Z) * Reader :=
  let '(len, r) := r_u32 r in
  if negb (rd_ok r) || negb (len =? 16) || (rd_n r <? rd_pos r + 16) then (None, rd_fail r)
  else let '(id, r) := r_u64 r in let '(snap, r) := r_u64 r in (Some (id, snap), r).
Definition readStateid (r : Reader) : Stateid * Reader :=
  let '(seqid, r) := r_u32 r in
  let '(id, r) := r_u64 r in
  let '(tag, r) := r_u32 r in
  (mkStateid seqid id tag
     (((seqid =? 0) && (id =? 0) && (tag =? 0)) || ((seqid =? ALL32) && (id =? ALL64) && (tag =? ALL32))), r).
Definition w_time4 (v : bytes) (sec nsec : Z) : bytes := w_u32 (w_u64 v sec) nsec.
Definition w_zeros (v : bytes) (k : nat) : bytes := v ++ replicate k (zb 0).
Definition w_stateid (v : bytes) (seqid id tag : Z) : bytes := w_u32 (w_u64 (w_u32 v seqid) id) tag.
Definition w_changeInfo (v : bytes) (before after : Z) : bytes := w_u64 (w_u64 (w_u32 v 1) before) after.
Definition w_denied (v : bytes) (c : LockRange * (Z * bytes)) : bytes :=
  w_str (w_u64 (w_u32 (w_u64 (w_u64 v (lr_off c.1)) (lr_len c.1)) (lr_type c.1)) c.2.1) c.2.2.

(** Bit [b] of a bitmap4. *)
Definition bit_set (bm : list Z) (b : Z) : bool := Z.testbit (default 0 (bm !! Z.to_nat (b / 32))) (b mod 32).
Definition set_bit (b : Z) (w : Z * Z) : Z * Z :=
  if b <? 32 then (Z.lor w.1 (Z.shiftl 1 (b mod 32)), w.2) else (w.1, Z.lor w.2 (Z.shiftl 1 (b mod 32))).
Definition supportedBitmap (v : bytes) : bytes :=
  let w := fold_left (λ w b, if attrSupported b then set_bit b w else w) (seqZ 0 64) (0, 0) in
  w_u32 (w_u32 (w_u32 v 2) w.1) w.2.

Section Attr.
Context {M : Type} `{!KvEngine M}.
Implicit Types (fs : Store M) (n : Handle) (v : bytes).

Definition encodeAttrValue fs v (bit : Z) n (id snap : Z) : bytes :=
  if bit =? FA_SUPPORTED_ATTRS then supportedBitmap v
  else if bit =? FA_TYPE then w_u32 v (ftype4 (n_type fs n))
  else if bit =? FA_FH_EXPIRE_TYPE then w_u32 v 0
  else if bit =? FA_CHANGE then w_u64 v (n_ctime fs n)
  else if bit =? FA_SIZE then w_u64 v (n_size fs n)
  else if bool_decide (bit ∈ [FA_LINK_SUPPORT; FA_SYMLINK_SUPPORT; FA_UNIQUE_HANDLES; FA_NO_TRUNC]) then w_u32 v 1
  else if bit =? FA_NAMED_ATTR then w_u32 v 0
  else if bit =? FA_FSID then w_u64 (w_u64 v (if snap =? LATEST then 0 else snap)) 0
  else if bit =? FA_LEASE_TIME then w_u32 v LEASE_TIME
  else if bit =? FA_RDATTR_ERROR then w_u32 v NFS4_OK
  else if bit =? FA_FILEHANDLE then w_fh v id snap
  else if (bit =? FA_FILEID) || (bit =? FA_MOUNTED_ON_FILEID) then w_u64 v (viewFileid4 id snap)
  else if bit =? FA_MAXFILESIZE then w_u64 v (2 ^ 62)
  else if bit =? FA_MAXLINK then w_u32 v 0xFFFF
  else if bit =? FA_MAXNAME then w_u32 v 255
  else if (bit =? FA_MAXREAD) || (bit =? FA_MAXWRITE) then w_u64 v MAX_IO
  else if bit =? FA_MODE then w_u32 v (Z.land (n_mode fs n) 0xFFF)
  else if bit =? FA_NUMLINKS then w_u32 v (n_nlink fs n)
  else if bit =? FA_OWNER then w_str v (to_string (n_uid fs n))
  else if bit =? FA_OWNER_GROUP then w_str v (to_string (n_gid fs n))
  else if bit =? FA_SPACE_USED then w_u64 v (n_size fs n)
  else if bit =? FA_TIME_ACCESS then w_time4 v (n_atime fs n) (n_atimeNsec fs n)
  else if bit =? FA_TIME_METADATA then w_time4 v (n_ctime fs n) 0
  else if bit =? FA_TIME_MODIFY then w_time4 v (n_mtime fs n) (n_mtimeNsec fs n)
  else v.

(** The attributes of a request, in bit order: the two returned bitmap words
    and the values. *)
Fixpoint attr_loop fs (req : list Z) n (id snap : Z) (bits : list Z) (w : Z * Z) (vals : bytes) : (Z * Z) * bytes :=
  match bits with
  | [] => (w, vals)
  | b :: bits' =>
      if Z.of_nat (length req) <=? b / 32 then (w, vals)
      else if negb (bit_set req b) then attr_loop fs req n id snap bits' w vals
      else if negb (attrSupported b) then attr_loop fs req n id snap bits' w vals
      else attr_loop fs req n id snap bits' (set_bit b w) (encodeAttrValue fs vals b n id snap)
  end.
Definition encodeFattr4 fs v (req : list Z) n (id snap : Z) : bytes :=
  let '(w, vals) := attr_loop fs req n id snap (seqZ 0 64) (0, 0) [] in
  w_opaque (w_u32 (w_u32 (w_u32 v 2) w.1) w.2) vals.
End Attr.

(** ** State of a COMPOUND *)

Record Cfh := mkCfh { cfh : option (Z * Z); sfh : option (Z * Z) }.
Definition Cfh0 : Cfh := mkCfh None None.
Record S4 := mkS4 { s4_fh : Cfh; s4_st : V4 }.

(** A program over the NFSv3 state and the NFSv4 one. *)
Definition Proc4 (M A : Type) : Type := S4 → Proc M (A * S4).
Global Instance proc4_ret M : MRet (Proc4 M) := λ A x v, mret (x, v).
Global Instance proc4_bind M : MBind (Proc4 M) := λ A B f m v, '(x, v) ← m v; f x v.
Definition lift {M A} (p : Proc M A) : Proc4 M A := λ v, x ← p; mret (x, v).
Definition get4 {M A} (f : S4 → A) : Proc4 M A := λ v, mret (f v, v).
(** A critical section of the client/open/lock state. *)
Definition st4 {M A} (f : V4 → A * V4) : Proc4 M A := λ v,
  let '(x, st) := f (s4_st v) in mret (x, mkS4 (s4_fh v) st).
Definition set_cfh {M} (h : option (Z * Z)) : Proc4 M unit := λ v,
  mret (tt, mkS4 (mkCfh h (sfh (s4_fh v))) (s4_st v)).
Definition set_sfh {M} (h : option (Z * Z)) : Proc4 M unit := λ v,
  mret (tt, mkS4 (mkCfh (cfh (s4_fh v)) h) (s4_st v)).

Section Nfs4.
Context {M : Type} `{!KvEngine M} `{!MapOrder}.
(** The registry, the selected provider and the hash of strings. *)
Context (reg : Registry Provider) (s_provider : bytes) (hash : bytes → Z).
Abbreviation Q := (Proc4 M).
Abbreviation P := (Proc M).
Implicit Types (fs : Store M) (n dir : Handle) (name : bytes).

Definition get_fs {A} (f : Store M → A) : Q A := lift (fs_get f).
Definition op_fs (e : Op) : Q Error := lift (fs_op e).
Definition new_fs (e : Op) : Q Handle := lift (fs_new e).
Definition read {A} (f : Reader → A * Reader) : Q A := lift (rd f).
Definition read_str : Q bytes := lift rd_str.
Definition skip_ (k : Z) : Q unit := read (λ r, (tt, r_skip r k)).
Definition is_ok : Q bool := lift rd_is_ok.
Definition out (f : bytes → bytes) : Q unit := lift (wr (λ _, f)).
Definition out_u32 (x : Z) : Q unit := lift (wr_u32 x).
Definition answer (st : Z) : Q Z := _ ← out_u32 st; mret st.
Definition done_ : Q Z := mret NFS4_OK.

(** [cur]: the node of the current file handle. *)
Definition cur : Q (option Handle) :=
  h ← get4 (λ v, cfh (s4_fh v));
  match h with Some (id, snap) => get_fs (λ fs, nodeById fs id snap) | None => mret None end.
Definition with_cur (k : Handle → Q Z) : Q Z :=
  n ← cur; match n with Some n => k n | None => answer NFS4ERR_NOFILEHANDLE end.
(** [!dir || dir->type() != Type::DIR] is NOTDIR. *)
Definition with_dir (k : Handle → Q Z) : Q Z :=
  n ← cur;
  match n with
  | Some n => ty ← get_fs (λ fs, n_type fs n); if negb (ty =? tcode DIR) then answer NFS4ERR_NOTDIR else k n
  | None => answer NFS4ERR_NOTDIR
  end.
(** [live(t_fh.cfh.second)]. *)
Definition cur_live : Q bool := get4 (λ v, match cfh (s4_fh v) with Some (_, snap) => live snap | None => false end).
Definition skip_fattr : Q unit := _ ← read r_bitmap; len ← read r_u32; skip_ (pad_of len).

(** [touchDir]: the change id before the stamp. *)
Definition touchDir4 dir : Q Z :=
  before ← get_fs (λ fs, n_ctime fs dir);
  t ← get_fs now; _ ← op_fs (OpPut AMtime dir t); _ ← op_fs (OpPut ACtime dir t); mret before.

(** *** Attributes from the client *)

(** One set bit of [applyFattr4]: [None] where it cannot be applied. *)
Definition apply_attr n (b : Z) : P (option unit) :=
  if b =? FA_SIZE then x ← rd r_u64; _ ← put ASize n x; mret (Some tt)
  else if b =? FA_MODE then x ← rd r_u32; _ ← put AMode n (Z.land x 0xFFF); mret (Some tt)
  else if b =? FA_OWNER then o ← rd_str; _ ← put AUid n (u32 (strtoul10 o)); mret (Some tt)
  else if b =? FA_OWNER_GROUP then o ← rd_str; _ ← put AGid n (u32 (strtoul10 o)); mret (Some tt)
  else if (b =? FA_TIME_ACCESS_SET) || (b =? FA_TIME_MODIFY_SET) then
    how ← rd r_u32;
    sec0 ← fs_get now;
    '(sec, nsec) ← (if how =? SET_TO_CLIENT_TIME4 then s ← rd r_u64; ns ← rd r_u32; mret (s, ns) else mret (sec0, 0));
    (if b =? FA_TIME_ACCESS_SET then _ ← put AAtime n sec; _ ← put AAtimeNs n nsec; mret (Some tt)
     else _ ← put AMtime n sec; _ ← put AMtimeNs n nsec; mret (Some tt))
  else mret None.
Fixpoint apply_bits (bm : list Z) n (bits : list Z) : P Z :=
  match bits with
  | [] => ok ← rd_is_ok; mret (if (ok : bool) then NFS4_OK else NFS4ERR_INVAL)
  | b :: bits' =>
      if negb (bit_set bm b) then apply_bits bm n bits'
      else
        r ← apply_attr n b;
        match r with Some _ => apply_bits bm n bits' | None => mret NFS4ERR_ATTRNOTSUPP end
  end.
Definition applyFattr4 n : P Z :=
  bm ← rd r_bitmap; _ ← rd r_u32;
  apply_bits bm n (seqZ 0 (Z.of_nat (length bm) * 32)).
(** The same, on a copy of the reader ([attrsAt]). *)
Definition with_reader {A} (r : Reader) (p : P A) : P A := λ s,
  match p (mkNs (ns_fs s) r (ns_out s) (ns_ck s)) with
  | Some (x, s') => Some (x, mkNs (ns_fs s') (ns_rd s) (ns_out s') (ns_ck s'))
  | None => None
  end.
Definition get_reader : Q Reader := lift (λ s, Some (ns_rd s, s)).

(** *** Operations that read *)

Definition opLookup (parent : bool) : Q Z :=
  dir ← cur;
  name ← (if parent then mret [] else read_str);
  match dir with
  | None => answer NFS4ERR_NOFILEHANDLE
  | Some dir =>
      ty ← get_fs (λ fs, n_type fs dir);
      if negb (ty =? tcode DIR) then answer NFS4ERR_NOTDIR
      else
        child ← (if parent then ps ← get_fs (λ fs, parents fs dir); mret (Some (default dir (head ps)))
                 else get_fs (λ fs, lookup_ fs dir name));
        match child with
        | None => answer NFS4ERR_NOENT
        | Some c => _ ← set_cfh (Some (h_id c, h_snap c)); answer NFS4_OK
        end
  end.
Definition opAccess : Q Z :=
  want ← read r_u32;
  with_cur (λ _, _ ← out_u32 NFS4_OK; _ ← out_u32 want; _ ← out_u32 want; done_).
(** The handle the client named, for the attributes that show it. *)
Definition out_fattr (req : list Z) n : Q unit :=
  h ← get4 (λ v, default (0, 0) (cfh (s4_fh v)));
  lift (wr (λ fs v, encodeFattr4 fs v req n h.1 h.2)).
Definition opGetattr : Q Z :=
  req ← read r_bitmap;
  with_cur (λ n, _ ← out_u32 NFS4_OK; _ ← out_fattr req n; done_).
Definition opReadlink : Q Z := with_cur (λ n,
  ty ← get_fs (λ fs, n_type fs n);
  if negb (ty =? tcode LNK) then answer NFS4ERR_INVAL
  else _ ← out_u32 NFS4_OK; _ ← lift (wr (λ fs v, w_str v (n_target fs n))); done_).

(** [checkStateid], and the access it must allow. *)
Definition with_access (sid : Stateid) n (bit : Z) (k : Q Z) : Q Z :=
  acc ← st4 (λ st, (checkStateid st sid (h_id n), st));
  match acc with
  | inr st => answer st
  | inl acc => if Z.land acc bit =? 0 then answer NFS4ERR_OPENMODE else k
  end.
Definition opRead : Q Z :=
  sid ← read readStateid; off ← read r_u64; cnt ← read r_u32;
  with_cur (λ n,
    ty ← get_fs (λ fs, n_type fs n);
    if ty =? tcode DIR then answer NFS4ERR_ISDIR
    else with_access sid n ACCESS_READ (
      let cnt := if MAX_IO <? cnt then MAX_IO else cnt in
      '(got, buf) ← lift (host_read_into reg s_provider n off cnt);
      size ← get_fs (λ fs, n_size fs n);
      _ ← out_u32 NFS4_OK; _ ← out_u32 (if size <=? u64 (off + got) then 1 else 0);
      _ ← out (λ v, w_opaque v (take (Z.to_nat got) buf)); done_)).

(** One page of READDIR: the budget left, [None] when it is reached. *)
Definition one_entry fs (req : list Z) (e : bytes * Handle) : bytes :=
  encodeFattr4 fs (w_str (w_u64 [] (nameCookie e.1)) e.1) req e.2 (h_id e.2) (h_snap e.2).
Fixpoint page_entries4 (req : list Z) (mx budget : Z) (ents : list (bytes * Handle)) : P (option Z) :=
  match ents with
  | [] => mret (Some budget)
  | e :: ents' =>
      one ← fs_get (λ fs, one_entry fs req e);
      if mx <? budget + Z.of_nat (length one) + 8 then mret None
      else
        _ ← rememberCookie (nameCookie e.1) e.1;
        _ ← wr_u32 1; _ ← wr (λ _ v, v ++ one);
        page_entries4 req mx (budget + Z.of_nat (length one) + 4) ents'
  end.
Fixpoint page_loop4 (fuel : nat) dir (req : list Z) (mx budget : Z) (after : bytes) : P bool :=
  match fuel with
  | O => λ _, None
  | S fuel' =>
      pg ← fs_get (λ fs, readdirPage fs dir after 512);
      b ← page_entries4 req mx budget (pg_entries pg);
      match b with
      | None => mret false
      | Some budget =>
          if bool_decide (pg_entries pg = []) || pg_eof pg then mret true
          else page_loop4 fuel' dir req mx budget (pg_cookie pg)
      end
  end.
Definition opReaddir : Q Z :=
  cookie ← read r_u64; _ ← skip_ 8; _ ← read r_u32; mx ← read r_u32; req ← read r_bitmap;
  with_cur (λ dir,
    ty ← get_fs (λ fs, n_type fs dir);
    if negb (ty =? tcode DIR) then answer NFS4ERR_NOTDIR
    else
      rn ← (if cookie =? 0 then mret (Some []) else lift (resumeName dir cookie));
      match rn with
      | None => answer NFS4ERR_BAD_COOKIE
      | Some after =>
          _ ← out_u32 NFS4_OK; _ ← out (λ v, w_zeros v 8);
          fuel ← get_fs (λ fs, page_fuel fs dir);
          eof ← lift (page_loop4 fuel dir req mx 96 after);
          _ ← out_u32 0; _ ← out_u32 (if (eof : bool) then 1 else 0); done_
      end).

(** *** Opens and locks *)

(** OPEN's arguments up to the claim: the type, the create mode and where the
    create attributes are. *)
Definition open_how : Q (Z * Z * option Reader) :=
  opentype ← read r_u32;
  if opentype =? OPEN4_CREATE then
    createmode ← read r_u32;
    if createmode =? EXCLUSIVE4 then _ ← skip_ 8; mret (opentype, createmode, None)
    else at_ ← get_reader; _ ← skip_fattr; mret (opentype, createmode, Some at_)
  else mret (opentype, 0, None).
(** The file OPEN names, created when it may be: the node and whether it is
    new, or a status. *)
Definition open_node dir name (opentype createmode : Z) (attrs : option Reader) : Q (Z + Handle * bool) :=
  child ← get_fs (λ fs, lookup_ fs dir name);
  match child with
  | None =>
      if negb (opentype =? OPEN4_CREATE) then mret (inl NFS4ERR_NOENT)
      else
        child ← new_fs (OpMkfile []);
        e ← op_fs (OpLink dir name child);
        if negb (bool_decide (e = OK)) then mret (inl NFS4ERR_IO)
        else
          _ ← match attrs with Some r => lift (with_reader r (applyFattr4 child)) | None => mret NFS4_OK end;
          _ ← touchDir4 dir;
          mret (inr (child, true))
  | Some child =>
      if (opentype =? OPEN4_CREATE) && (createmode =? GUARDED4) then mret (inl NFS4ERR_EXIST)
      else mret (inr (child, false))
  end.
Definition open_grant (access deny clientid : Z) (owner : bytes) dir (before : Z) (child : Handle) (created : bool) : Q Z :=
  _ ← set_cfh (Some (h_id child, h_snap child));
  g ← st4 (λ st, match open_state st clientid owner (h_id child) access deny with
                 | Some (r, st') => (Some (r, needConfirm st' clientid owner), st')
                 | None => (None, st)
                 end);
  match g with
  | None => answer NFS4ERR_SHARE_DENIED
  | Some ((sq, id), confirm) =>
      after ← (if created then get_fs (λ fs, n_ctime fs dir) else mret before);
      _ ← out_u32 NFS4_OK; _ ← out (λ v, w_stateid v sq id 0); _ ← out (λ v, w_changeInfo v before after);
      _ ← out_u32 (Z.lor OPEN4_RESULT_LOCKTYPE_POSIX (if (confirm : bool) then OPEN4_RESULT_CONFIRM else 0));
      _ ← out_u32 2; _ ← out_u32 0; _ ← out_u32 0; _ ← out_u32 0; done_
  end.
Definition opOpen : Q Z :=
  _ ← read r_u32; access ← read r_u32; deny ← read r_u32; clientid ← read r_u64; owner ← read_str;
  confirmed ← st4 (λ st, (clientConfirmed st clientid, st));
  if negb confirmed then answer NFS4ERR_STALE_CLIENTID
  else
    '(opentype, createmode, attrs) ← open_how;
    claim ← read r_u32;
    if negb (claim =? CLAIM_NULL) then answer NFS4ERR_NOTSUPP
    else
      name ← read_str;
      ok ← is_ok;
      if negb ok then answer NFS4ERR_INVAL
      else with_dir (λ dir,
        alive ← cur_live;
        if (opentype =? OPEN4_CREATE) && negb alive then answer NFS4ERR_ROFS
        else
          before ← get_fs (λ fs, n_ctime fs dir);
          r ← open_node dir name opentype createmode attrs;
          match r with
          | inl st => answer st
          | inr (child, created) => open_grant access deny clientid owner dir before child created
          end).

Definition opClose : Q Z :=
  _ ← read r_u32; sid ← read readStateid;
  ok ← st4 (λ st, match close_state st sid with Some st' => (true, st') | None => (false, st) end);
  if negb ok then answer NFS4ERR_BAD_STATEID
  else _ ← out_u32 NFS4_OK; _ ← out (λ v, w_stateid v (u32 (sid_seqid sid + 1)) (sid_id sid) (sid_tag sid)); done_.
Definition opOpenConfirm : Q Z :=
  sid ← read readStateid; _ ← read r_u32;
  sq ← st4 (λ st, open_confirm st sid);
  _ ← out_u32 NFS4_OK; _ ← out (λ v, w_stateid v sq (sid_id sid) (sid_tag sid)); done_.
Definition opOpenDowngrade : Q Z :=
  sid ← read readStateid; _ ← read r_u32; access ← read r_u32; deny ← read r_u32;
  r ← st4 (λ st, match open_downgrade st sid access deny with Some (sq, st') => (Some sq, st') | None => (None, st) end);
  match r with
  | None => answer NFS4ERR_BAD_STATEID
  | Some sq => _ ← out_u32 NFS4_OK; _ ← out (λ v, w_stateid v sq (sid_id sid) (sid_tag sid)); done_
  end.

Definition is_write (locktype : Z) : bool := (locktype =? WRITE_LT) || (locktype =? WRITEW_LT).
Definition opLock : Q Z :=
  locktype ← read r_u32; _ ← read r_u32; off ← read r_u64; len ← read r_u64; isNew ← read r_u32;
  a ← (if negb (isNew =? 0) then
         _ ← read r_u32; _ ← read readStateid; _ ← read r_u32; clientid ← read r_u64; owner ← read_str;
         confirmed ← st4 (λ st, (clientConfirmed st clientid, st));
         mret (if (confirmed : bool) then Some (None, clientid, owner) else None)
       else sid ← read readStateid; _ ← read r_u32; mret (Some (Some sid, 0, [])));
  match a with
  | None => answer NFS4ERR_STALE_CLIENTID
  | Some (existing, clientid, owner) => with_cur (λ n,
      r ← st4 (λ st, lock_state st existing clientid owner (h_id n) off len (is_write locktype));
      match r with
      | LockBad => answer NFS4ERR_BAD_STATEID
      | LockDenied c => _ ← out_u32 NFS4ERR_DENIED; _ ← out (λ v, w_denied v c); mret NFS4ERR_DENIED
      | LockGranted sq id => _ ← out_u32 NFS4_OK; _ ← out (λ v, w_stateid v sq id 1); done_
      end)
  end.
Definition opLockt : Q Z :=
  locktype ← read r_u32; off ← read r_u64; len ← read r_u64; clientid ← read r_u64; owner ← read_str;
  with_cur (λ n,
    c ← st4 (λ st, (find_denied st (h_id n) clientid owner off len (is_write locktype), st));
    match c with
    | Some c => _ ← out_u32 NFS4ERR_DENIED; _ ← out (λ v, w_denied v c); mret NFS4ERR_DENIED
    | None => answer NFS4_OK
    end).
Definition opLocku : Q Z :=
  _ ← read r_u32; _ ← read r_u32; sid ← read readStateid; off ← read r_u64; len ← read r_u64;
  r ← st4 (λ st, match locku_state st sid off len with Some (sq, st') => (Some sq, st') | None => (None, st) end);
  match r with
  | None => answer NFS4ERR_BAD_STATEID
  | Some sq => _ ← out_u32 NFS4_OK; _ ← out (λ v, w_stateid v sq (sid_id sid) 1); done_
  end.
Definition opReleaseLockowner : Q Z :=
  clientid ← read r_u64; owner ← read_str;
  _ ← st4 (λ st, (tt, release_lockowner st clientid owner));
  answer NFS4_OK.

(** *** Client leases *)

Definition opSetClientid : Q Z :=
  verifier ← read r_u64; id ← read_str; cbProgram ← read r_u32; cbNetid ← read_str; cbAddr ← read_str;
  cbIdent ← read r_u32;
  ok ← is_ok;
  if negb ok then answer NFS4ERR_INVAL
  else
    r ← st4 (λ st, set_clientid hash st verifier id cbProgram cbNetid cbAddr cbIdent);
    _ ← out_u32 NFS4_OK; _ ← out (λ v, w_u64 (w_u64 v r.1) r.2); done_.
Definition opSetClientidConfirm : Q Z :=
  clientid ← read r_u64; confirm ← read r_u64;
  ok ← st4 (λ st, match setclientid_confirm st clientid confirm with Some st' => (true, st') | None => (false, st) end);
  answer (if (ok : bool) then NFS4_OK else NFS4ERR_STALE_CLIENTID).
Definition opRenew : Q Z :=
  clientid ← read r_u64;
  confirmed ← st4 (λ st, (clientConfirmed st clientid, st));
  answer (if (confirmed : bool) then NFS4_OK else NFS4ERR_STALE_CLIENTID).

(** *** Operations that write *)

Definition out_change (before : Z) dir : Q unit :=
  after ← get_fs (λ fs, n_ctime fs dir); out (λ v, w_changeInfo v before after).

Definition opWrite : Q Z :=
  sid ← read readStateid; off ← read r_u64; _ ← read r_u32; data ← read_str;
  with_cur (λ n,
    alive ← cur_live;
    if negb alive then answer NFS4ERR_ROFS
    else
      ty ← get_fs (λ fs, n_type fs n);
      if ty =? tcode DIR then answer NFS4ERR_ISDIR
      else with_access sid n ACCESS_WRITE (
        seed ← get_fs (λ fs, n_contentSeed fs n);
        _ ← op_fs (OpSetSeed n (mixSeed seed off data));
        size ← get_fs (λ fs, n_size fs n);
        let end_ := u64 (off + Z.of_nat (length data)) in
        _ ← (if size <? end_ then lift (put ASize n end_) else mret tt);
        t ← get_fs now; _ ← lift (put AMtime n t);
        _ ← out_u32 NFS4_OK; _ ← out_u32 (Z.of_nat (length data)); _ ← out_u32 2; _ ← out (λ v, w_zeros v 8);
        done_)).
Definition opSetattr : Q Z :=
  _ ← skip_ 16;
  with_cur (λ n,
    alive ← cur_live;
    if negb alive then _ ← skip_fattr; _ ← out_u32 NFS4ERR_ROFS; _ ← out_u32 0; mret NFS4ERR_ROFS
    else
      st ← lift (applyFattr4 n);
      _ ← (if st =? NFS4_OK then t ← get_fs now; lift (put ACtime n t) else mret tt);
      _ ← out_u32 st; _ ← out_u32 0; mret st).

(** The object CREATE makes, by its type. *)
Definition create_op (type : Z) (linkdata : bytes) (maj min : Z) : option Op :=
  if type =? NF4DIR then Some OpMkdir
  else if type =? NF4LNK then Some (OpSymlink linkdata)
  else if type =? NF4BLK then Some (OpMknod BLK maj min)
  else if type =? NF4CHR then Some (OpMknod CHR maj min)
  else if type =? NF4SOCK then Some OpMksock
  else if type =? NF4FIFO then Some OpMkfifo
  else None.
Definition opCreate : Q Z :=
  type ← read r_u32;
  linkdata ← (if type =? NF4LNK then read_str else mret []);
  '(maj, min) ← (if (type =? NF4BLK) || (type =? NF4CHR) then a ← read r_u32; b ← read r_u32; mret (a, b) else mret (0, 0));
  name ← read_str;
  with_dir (λ dir,
    alive ← cur_live;
    if negb alive then _ ← skip_fattr; answer NFS4ERR_ROFS
    else
      match create_op type linkdata maj min with
      | None => answer NFS4ERR_INVAL
      | Some e =>
          child ← new_fs e;
          before ← get_fs (λ fs, n_ctime fs dir);
          e ← op_fs (OpLink dir name child);
          if negb (bool_decide (e = OK)) then answer NFS4ERR_EXIST
          else
            _ ← lift (applyFattr4 child); _ ← touchDir4 dir;
            _ ← set_cfh (Some (h_id child, h_snap child));
            _ ← out_u32 NFS4_OK; _ ← out_change before dir; _ ← out_u32 2; _ ← out_u32 0; _ ← out_u32 0; done_
      end).

Definition opRemove : Q Z :=
  name ← read_str;
  with_dir (λ dir,
    alive ← cur_live;
    if negb alive then answer NFS4ERR_ROFS
    else
      full ← get_fs (λ fs, match lookup_ fs dir name with
                           | Some c => (n_type fs c =? tcode DIR) && negb (bool_decide (readdir fs c = []))
                           | None => false
                           end);
      if (full : bool) then answer NFS4ERR_NOTEMPTY
      else
        before ← get_fs (λ fs, n_ctime fs dir);
        e ← op_fs (OpUnlink dir name);
        if negb (bool_decide (e = OK)) then answer (toNfs4 e)
        else _ ← touchDir4 dir; _ ← out_u32 NFS4_OK; _ ← out_change before dir; done_).
(** The nodes of the saved and the current handle. *)
Definition with_saved (k : option Handle → option Handle → bool → bool → Q Z) : Q Z :=
  hs ← get4 (λ v, (sfh (s4_fh v), cfh (s4_fh v)));
  match hs with
  | (Some (sid, ssnap), Some (cid, csnap)) =>
      s ← get_fs (λ fs, nodeById fs sid ssnap); c ← get_fs (λ fs, nodeById fs cid csnap);
      k s c (live ssnap) (live csnap)
  | _ => answer NFS4ERR_NOFILEHANDLE
  end.
Definition opRename : Q Z :=
  oldname ← read_str; newname ← read_str;
  with_saved (λ sdir ddir slive clive,
    match sdir, ddir with
    | Some sdir, Some ddir =>
        if negb slive || negb clive then answer NFS4ERR_ROFS
        else
          sbefore ← get_fs (λ fs, n_ctime fs sdir); dbefore ← get_fs (λ fs, n_ctime fs ddir);
          e ← op_fs (OpMove sdir oldname ddir newname);
          if negb (bool_decide (e = OK)) then answer (toNfs4 e)
          else
            _ ← touchDir4 sdir; _ ← touchDir4 ddir;
            _ ← out_u32 NFS4_OK; _ ← out_change sbefore sdir; _ ← out_change dbefore ddir; done_
    | _, _ => answer NFS4ERR_STALE
    end).
Definition opLink : Q Z :=
  newname ← read_str;
  with_saved (λ fileh dirh _ clive,
    match fileh, dirh with
    | Some file, Some dir =>
        ty ← get_fs (λ fs, n_type fs dir);
        if negb (ty =? tcode DIR) then answer NFS4ERR_NOTDIR
        else if negb clive then answer NFS4ERR_ROFS
        else
          before ← get_fs (λ fs, n_ctime fs dir);
          e ← op_fs (OpLink dir newname file);
          if negb (bool_decide (e = OK)) then answer (toNfs4 e)
          else _ ← touchDir4 dir; _ ← out_u32 NFS4_OK; _ ← out_change before dir; done_
    | _, _ => answer NFS4ERR_NOTDIR
    end).

(** *** COMPOUND *)

Definition isMutating4 (op : Z) : bool := bool_decide (op ∈ [OP_OPEN; OP_WRITE; OP_SETATTR; OP_CREATE; OP_REMOVE; OP_RENAME; OP_LINK]).
Definition opPutrootfh : Q Z :=
  root ← get_fs rwRoot; _ ← set_cfh (Some (h_id root, LATEST)); answer NFS4_OK.
Definition doOp (op : Z) : Q Z :=
  _ ← out_u32 op;
  match op with
  | OP_PUTROOTFH | OP_PUTPUBFH => opPutrootfh
  | OP_PUTFH => h ← read r4_fh;
          match h with Some h => _ ← set_cfh (Some h); answer NFS4_OK | None => answer NFS4ERR_BADHANDLE end
  | OP_SAVEFH => h ← get4 (λ v, cfh (s4_fh v));
          match h with Some h => _ ← set_sfh (Some h); answer NFS4_OK | None => answer NFS4ERR_NOFILEHANDLE end
  | OP_RESTOREFH => h ← get4 (λ v, sfh (s4_fh v));
          match h with Some h => _ ← set_cfh (Some h); answer NFS4_OK | None => answer NFS4ERR_NOFILEHANDLE end
  | OP_GETFH => h ← get4 (λ v, cfh (s4_fh v));
          match h with
          | Some (id, snap) => _ ← out_u32 NFS4_OK; _ ← out (λ v, w_fh v id snap); done_
          | None => answer NFS4ERR_NOFILEHANDLE
          end
  | OP_LOOKUP => opLookup false
  | OP_LOOKUPP => opLookup true
  | OP_ACCESS => opAccess
  | OP_GETATTR => opGetattr
  | OP_READLINK => opReadlink
  | OP_READ => opRead
  | OP_READDIR => opReaddir
  | OP_OPEN => opOpen
  | OP_OPEN_CONFIRM => opOpenConfirm
  | OP_OPEN_DOWNGRADE => opOpenDowngrade
  | OP_CLOSE => opClose
  | OP_LOCK => opLock
  | OP_LOCKT => opLockt
  | OP_LOCKU => opLocku
  | OP_RENEW => opRenew
  | OP_SETCLIENTID => opSetClientid
  | OP_SETCLIENTID_CONFIRM => opSetClientidConfirm
  | OP_WRITE => opWrite
  | OP_SETATTR => opSetattr
  | OP_CREATE => opCreate
  | OP_REMOVE => opRemove
  | OP_RENAME => opRename
  | OP_LINK => opLink
  | OP_COMMIT => _ ← read r_u64; _ ← read r_u32; _ ← out_u32 NFS4_OK; _ ← out (λ v, w_zeros v 8); done_
  | OP_RELEASE_LOCKOWNER => opReleaseLockowner
  | _ => answer NFS4ERR_NOTSUPP
  end.

(** The loop of [compound]: the last status and the number of operations run.
    Results go to the output as they come. *)
Fixpoint compound_loop (nops : nat) (last done : Z) : Q (Z * Z) :=
  match nops with
  | O => mret (last, done)
  | S nops' =>
      ok ← is_ok;
      if negb ok then mret (last, done)
      else
        op ← read r_u32;
        st ← doOp op;
        if negb (st =? NFS4_OK) then mret (st, done + 1) else compound_loop nops' st (done + 1)
  end.
Definition get_out : P bytes := λ s, Some (ns_out s, s).
(** The body of the reply, given the tag of the call. *)
Definition compound : Q bytes := λ v,
  (tag ← rd_str; _ ← rd r_u32; nops ← rd r_u32; ok ← rd_is_ok;
   if negb ok || (4096 <? nops) then mret (w_u32 (w_str (w_u32 [] NFS4ERR_RESOURCE) tag) 0, v)
   else
     '(ld, v') ← compound_loop (Z.to_nat nops) NFS4_OK 0 (mkS4 Cfh0 (s4_st v));
     ok ← rd_is_ok;
     res ← get_out;
     mret (w_u32 (w_str (w_u32 [] (if (ok : bool) then ld.1 else NFS4ERR_INVAL)) tag) ld.2 ++ res, v')).

Definition reply_frame4 (xid astat : Z) (body : bytes) : bytes :=
  let rep := w_u32 (w_u32 (w_u32 (w_u32 (w_u32 (w_u32 [] xid) 1) 0) 0) 0) astat in
  let rep := rep ++ (if astat =? SUCCESS then body else []) in
  w_u32 [] (Z.lor 0x80000000 (u32 (Z.of_nat (length rep)))) ++ rep.
(** [reply]: one message, with the state it starts from and ends in. *)
Definition reply4 fs (ck : gmap Z bytes) (st : V4) (msg : bytes) : option (bytes * Store M * gmap Z bytes * V4) :=
  let r := mkReader msg 0 true in
  let '(xid, r) := r_u32 r in
  let '(_, r) := r_u32 r in
  let '(_, r) := r_u32 r in
  let '(prog, r) := r_u32 r in
  let '(vers, r) := r_u32 r in
  let '(proc, r) := r_u32 r in
  let r := r_skipAuth (r_skipAuth r) in
  if negb (prog =? PROG_NFS) || negb (vers =? NFS_V4) then Some (reply_frame4 xid 2 [], fs, ck, st)
  else if proc =? NFSPROC4_NULL then Some (reply_frame4 xid SUCCESS [], fs, ck, st)
  else if proc =? NFSPROC4_COMPOUND then
    match compound (mkS4 Cfh0 st) (mkNs fs r [] ck) with
    | Some ((body, v), s) => Some (reply_frame4 xid SUCCESS body, ns_fs s, ns_ck s, s4_st v)
    | None => None
    end
  else Some (reply_frame4 xid 3 [], fs, ck, st).
Definition session_step4 fs ck st (mark : Z) (msg : bytes) : option (Outcome * Store M * gmap Z bytes * V4) :=
  let len := Z.land mark 0x7fffffff in
  if (len <? 24) || (2 ^ 21 <? len) then Some (Closed, fs, ck, st)
  else match reply4 fs ck st msg with
       | Some (frame, fs, ck, st) => Some (Replied frame, fs, ck, st)
       | None => None
       end.
End Nfs4.
