(* ===== verification/Nfs4StateProps.v ===== *)
(** * Nfs4StateProps: client leases, share reservations and byte-range locks

    The critical sections of [Nfs4State] as events; a reachable state is one
    that any interleaving of them can produce. *)
From S2P Require Import Prelude Keys Xdr Nfs4State.
Local Open Scope Z_scope.
Set Warnings "-clear-no-such-hyp".

(** ** The state machine *)

Inductive Event :=
  | EvSetClientid (verifier : Z) (id : bytes) (prog : Z) (netid addr : bytes) (ident : Z)
  | EvConfirm (clientid confirm : Z)
  | EvOpen (clientid : Z) (owner : bytes) (fileId access deny : Z)
  | EvClose (sid : Stateid) | EvOpenConfirm (sid : Stateid) | EvDowngrade (sid : Stateid) (access deny : Z)
  | EvLock (existing : option Stateid) (clientid : Z) (owner : bytes) (fileId off len : Z) (write : bool)
  | EvLocku (sid : Stateid) (off len : Z) | EvRelease (clientid : Z) (owner : bytes).

Section Machine.
Context `{!MapOrder} (hash : bytes → Z).
Implicit Types (s : V4) (owner : bytes).

Definition run_event s (ev : Event) : V4 :=
  match ev with
  | EvSetClientid v id p n a i => (set_clientid hash s v id p n a i).2
  | EvConfirm c cv => default s (setclientid_confirm s c cv)
  | EvOpen c o f a d => default s (snd <$> open_state s c o f a d)
  | EvClose sid => default s (close_state s sid)
  | EvOpenConfirm sid => (open_confirm s sid).2
  | EvDowngrade sid a d => default s (snd <$> open_downgrade s sid a d)
  | EvLock ex c o f off len w => (lock_state s ex c o f off len w).2
  | EvLocku sid off len => default s (snd <$> locku_state s sid off len)
  | EvRelease c o => release_lockowner s c o
  end.
Definition run_events s (evs : list Event) : V4 := fold_left run_event evs s.

(** An invariant of the events is one of every run from the empty state. *)
Lemma run_events_inv (I : V4 → Prop) evs :
  I V40 → (∀ s ev, I s → I (run_event s ev)) → I (run_events V40 evs).
Proof.
  intros H0 Hstep. unfold run_events. revert H0. generalize V40. induction evs as [|ev evs IH]; intros s Hs; simpl; [done|].
  apply IH. by apply Hstep.
Qed.

Lemma elem_of_iter {A} (m : gmap Z A) k x : (k, x) ∈ iter m ↔ m !! k = Some x.
Proof. by rewrite iter_perm, elem_of_map_to_list. Qed.
Lemma head_elem_of {A} (l : list A) x : head l = Some x → x ∈ l.
Proof. destruct l; [done|]. intros [= ->]. set_solver. Qed.

(** [find_key] names an entry with the property, or there is none. *)
Lemma find_key_spec {A} (P : Z * A → bool) (m : gmap Z A) :
  (∃ x, m !! find_key P m = Some x ∧ P (find_key P m, x) = true) ∨
  find_key P m = 0 ∧ ∀ k x, m !! k = Some x → P (k, x) = false.
Proof.
  unfold find_key. destruct (head (filter (λ e, P e = true) (iter m))) as [[k x]|] eqn:E.
  - left. apply head_elem_of, list_elem_of_filter in E as [HP Hin%elem_of_iter]. by exists x.
  - right. split; [done|]. intros k x Hk%elem_of_iter. apply not_true_iff_false. intros HP.
    destruct (filter _ (iter m)) eqn:Hf; [|done].
    assert ((k, x) ∈ ([] : list (Z * A))) as []%elem_of_nil. rewrite <- Hf. by apply list_elem_of_filter.
Qed.

(** ** Byte-range locks exclude *)

(** A range that does not run past the end of the 64-bit offsets, and the bytes
    it covers. *)
Definition range_ok (r : LockRange) : Prop := lr_len r = ALL64 ∨ lr_off r + lr_len r < 2 ^ 64.
Definition covers (r : LockRange) (x : Z) : Prop :=
  lr_off r <= x < (if lr_len r =? ALL64 then ALL64 else lr_off r + lr_len r).
Lemma covers_overlaps r1 r2 x :
  range_ok r1 → range_ok r2 → 0 <= lr_len r1 → 0 <= lr_len r2 → 0 <= lr_off r1 → 0 <= lr_off r2 →
  covers r1 x → covers r2 x → overlaps (lr_off r1) (lr_len r1) (lr_off r2) (lr_len r2) = true.
Proof.
  unfold range_ok, covers, overlaps, range_end. intros H1 H2 ????.
  destruct (Z.eqb_spec (lr_len r1) ALL64), (Z.eqb_spec (lr_len r2) ALL64); intros;
    rewrite ?u64_small by (unfold in64; lia); rewrite andb_true_iff, !Z.ltb_lt; lia.
Qed.
Lemma overlaps_sym a b c d : overlaps a b c d = overlaps c d a b.
Proof. unfold overlaps. apply andb_comm. Qed.

(** Ranges of different owners of one file do not overlap, unless both read. *)
Definition compatible (r1 r2 : LockRange) : Prop :=
  overlaps (lr_off r1) (lr_len r1) (lr_off r2) (lr_len r2) = true → lr_type r1 = READ_LT ∧ lr_type r2 = READ_LT.
Definition owner_of (l : LockState) : Z * bytes := (l_clientid l, l_owner l).
Definition typed (l : LockState) : Prop := Forall (λ r, lr_type r = READ_LT ∨ lr_type r = WRITE_LT) (l_ranges l).
Definition locks_ok (m : gmap Z LockState) : Prop :=
  (∀ k l, m !! k = Some l → typed l) ∧
  ∀ k1 k2 l1 l2, m !! k1 = Some l1 → m !! k2 = Some l2 → l_fileId l1 = l_fileId l2 → owner_of l1 ≠ owner_of l2 →
    ∀ r1 r2, r1 ∈ l_ranges l1 → r2 ∈ l_ranges l2 → compatible r1 r2.

Lemma compatible_sym r1 r2 : compatible r1 r2 → compatible r2 r1.
Proof. unfold compatible. rewrite overlaps_sym. tauto. Qed.
Lemma locks_ok_sub (m m' : gmap Z LockState) :
  (∀ k l', m' !! k = Some l' → ∃ l, m !! k = Some l ∧ l_fileId l' = l_fileId l ∧ owner_of l' = owner_of l ∧
     ∀ r, r ∈ l_ranges l' → r ∈ l_ranges l) → locks_ok m → locks_ok m'.
Proof.
  intros Hsub [Ht Hc]. split.
  - intros k l' Hk. destruct (Hsub k l' Hk) as (l & Hl & _ & _ & Hr). apply Forall_forall. intros r Hin.
    apply (proj1 (Forall_forall _ _) (Ht k l Hl)). by apply Hr.
  - intros k1 k2 l1 l2 H1 H2 Hf Ho r1 r2 Hr1 Hr2.
    destruct (Hsub _ _ H1) as (l1' & Hl1 & F1 & O1 & R1), (Hsub _ _ H2) as (l2' & Hl2 & F2 & O2 & R2).
    eapply (Hc k1 k2 l1' l2'); try done; [congruence..|by apply R1|by apply R2].
Qed.
Lemma same_owner_true clientid owner l : same_owner clientid owner l = true ↔ owner_of l = (clientid, owner).
Proof.
  unfold same_owner, owner_of. rewrite andb_true_iff, Z.eqb_eq, bool_decide_eq_true. naive_solver.
Qed.

(** Granting a range that meets no conflict keeps the table compatible. *)
Lemma locks_ok_push (m : gmap Z LockState) k l l' r :
  locks_ok m → (∀ k2 l2, m !! k2 = Some l2 → l_fileId l2 = l_fileId l' → owner_of l2 ≠ owner_of l' →
    ∀ r2, r2 ∈ l_ranges l2 → compatible r r2) →
  (lr_type r = READ_LT ∨ lr_type r = WRITE_LT) →
  (m !! k = Some l ∧ l_fileId l' = l_fileId l ∧ owner_of l' = owner_of l ∧ l_ranges l' = l_ranges l ++ [r] ∨
   l_ranges l' = [r]) →
  locks_ok (<[k := l']> m).
Proof.
  intros [Ht Hc] Hnew Hty Hl.
  assert (∀ r', r' ∈ l_ranges l' → r' = r ∨ m !! k = Some l ∧ l_fileId l' = l_fileId l ∧ owner_of l' = owner_of l ∧ r' ∈ l_ranges l) as Hr'.
  { intros r' Hr'. destruct Hl as [(? & ? & ? & E)|E]; rewrite E in Hr'.
    - rewrite elem_of_app, list_elem_of_singleton in Hr'. destruct Hr' as [?|?]; auto.
    - apply list_elem_of_singleton in Hr'. by left. }
  split.
  - intros k1 l1. rewrite lookup_insert_Some. intros [[<- <-]|[_ H1]]; [|by eapply Ht].
    apply Forall_forall. intros r' [->|(Hm & _ & _ & Hin)]%Hr'; [done|].
    by apply (proj1 (Forall_forall _ _) (Ht k l Hm)).
  - assert (∀ k2 l2, m !! k2 = Some l2 → l_fileId l' = l_fileId l2 → owner_of l' ≠ owner_of l2 →
      ∀ r1 r2, r1 ∈ l_ranges l' → r2 ∈ l_ranges l2 → compatible r1 r2) as Hone.
    { intros k2 l2 H2 Hf Ho r1 r2 [->|(Hm & F & O & Hin)]%Hr' Hr2; [by eapply Hnew|].
      eapply (Hc k k2 l l2); try done; congruence. }
    intros k1 k2 l1 l2. rewrite !lookup_insert_Some. intros [[<- <-]|[_ H1]] [[<- <-]|[_ H2]] Hf Ho r1 r2 Hr1 Hr2.
    + done.
    + by eapply Hone.
    + apply compatible_sym. by eapply Hone.
    + by eapply (Hc k1 k2 l1 l2).
Qed.

Lemma find_denied_None s fileId clientid owner off len write k l r :
  find_denied s fileId clientid owner off len write = None →
  m_locks s !! k = Some l → l_fileId l = fileId → owner_of l ≠ (clientid, owner) → r ∈ l_ranges l →
  range_conflict off len write r = false.
Proof.
  unfold find_denied. intros Hn Hk Hf Ho Hr. apply not_true_iff_false. intros Hc.
  set (L := filter _ (iter (m_locks s)) ≫= _) in Hn.
  assert ((r, (l_clientid l, l_owner l)) ∈ L) as Hin; [|destruct L; [by apply elem_of_nil in Hin|done]].
  unfold L. apply list_elem_of_bind. exists (k, l). split.
  - apply list_elem_of_fmap. exists r. split; [done|]. apply list_elem_of_filter. done.
  - apply list_elem_of_filter. split; [|by apply elem_of_iter]. simpl. 
    rewrite Hf, Z.eqb_refl. simpl. apply not_true_iff_false. by rewrite same_owner_true.
Qed.

Lemma lock_state_ok s existing clientid owner fileId off len write :
  locks_ok (m_locks s) → locks_ok (m_locks (lock_state s existing clientid owner fileId off len write).2).
Proof.
  intros HL. unfold lock_state. destruct (match existing with None => _ | Some _ => _ end) as [[c o]|]; [|done].
  destruct (find_denied s fileId c o off len write) eqn:Hd; [done|].
  set (r := mkRange off len (if write then WRITE_LT else READ_LT)).
  assert (∀ k2 l2, m_locks s !! k2 = Some l2 → l_fileId l2 = fileId → owner_of l2 ≠ (c, o) →
    ∀ r2, r2 ∈ l_ranges l2 → compatible r r2) as Hnew.
  { intros k2 l2 H2 Hf Ho r2 Hr2 Hov. pose proof (find_denied_None _ _ _ _ _ _ _ _ _ _ Hd H2 Hf Ho Hr2) as Hc.
    unfold range_conflict in Hc. simpl in Hov. rewrite Hov in Hc. simpl in Hc. apply orb_false_iff in Hc as [-> Ht].
    split; [done|]. pose proof (proj1 (Forall_forall _ _) (proj1 HL k2 l2 H2) r2 Hr2) as [?|E]; [done|]. by rewrite E in Ht. }
  assert (lr_type r = READ_LT ∨ lr_type r = WRITE_LT) as Hty by (unfold r; simpl; destruct write; auto).
  unfold lock_grant. set (own := λ e : Z * LockState, (l_fileId e.2 =? fileId) && same_owner c o e.2).
  destruct (find_key_spec own (m_locks s)) as [(l & Hl & Hown)|[-> Hno]].
  - unfold own in Hown. cbn [snd] in Hown. rewrite andb_true_iff, Z.eqb_eq, same_owner_true in Hown. destruct Hown as [Hf Ho].
    destruct (find_key own (m_locks s) =? 0) eqn:E0.
    + cbn [m_locks set_locks bump_state m_nextState]. rewrite lookup_insert_eq. cbn [snd set_locks m_locks].
      rewrite insert_insert_eq. eapply (locks_ok_push _ _ l); [done|..|done|by right]; simpl; by apply Hnew.
    + rewrite Hl. cbn [snd set_locks m_locks]. eapply (locks_ok_push _ _ l); [done| |done|left; done].
      cbn [l_set l_fileId]. change (owner_of (l_set _ _ l)) with (owner_of l). rewrite Hf, Ho. apply Hnew.
  - cbn [Z.eqb m_locks set_locks bump_state m_nextState]. rewrite lookup_insert_eq. cbn [snd set_locks m_locks].
    rewrite insert_insert_eq. eapply (locks_ok_push _ _ (mkLock 0 [] 0 0 [])); [done| |done|by right]. simpl. apply Hnew.
Qed.

Lemma locks_ok_filter (P : Z * LockState → Prop) `{!∀ x, Decision (P x)} m : locks_ok m → locks_ok (filter P m).
Proof. apply locks_ok_sub. intros k l [Hl _]%map_lookup_filter_Some. by exists l. Qed.
Lemma drop_lease_locks s k : m_locks (drop_lease s k) = filter (λ e, l_clientid e.2 ≠ k) (m_locks s).
Proof. done. Qed.
Lemma locks_ok_event s ev : locks_ok (m_locks s) → locks_ok (m_locks (run_event s ev)).
Proof.
  intros HL. destruct ev; simpl.
  - unfold set_clientid. repeat case_match; done.
  - unfold setclientid_confirm. repeat case_match; try done. simpl. clear -HL. revert HL.
    generalize (stale_leases s clientid (c_id c)). intros ks. revert s.
    induction ks as [|k ks IH]; intros s HL; simpl; [done|]. apply IH. rewrite drop_lease_locks. by apply locks_ok_filter.
  - unfold open_state. repeat case_match; done.
  - unfold close_state. repeat case_match; done.
  - unfold open_confirm. repeat case_match; done.
  - unfold open_downgrade. repeat case_match; done.
  - by apply lock_state_ok.
  - unfold locku_state. destruct (m_locks s !! sid_id sid) as [l|] eqn:Hl; [|done]. simpl.
    eapply locks_ok_sub; [|exact HL]. intros k l'. rewrite lookup_insert_Some.
    intros [[<- <-]|[_ Hk]]; [|by exists l']. exists l. split_and!; [done..|]. intros r Hr.
    by apply list_elem_of_filter in Hr as [_ Hr].
  - by apply locks_ok_filter.
Qed.

(** C12. Byte-range locks exclude: whatever requests came and however their
    critical sections interleaved, no byte of a file is covered by ranges of
    two lock-owners unless both only read (for ranges that end within the
    64-bit offsets). *)
Theorem nfs4_locks_exclude evs k1 k2 l1 l2 r1 r2 x :
  let s := run_events V40 evs in
  m_locks s !! k1 = Some l1 → m_locks s !! k2 = Some l2 →
  l_fileId l1 = l_fileId l2 → owner_of l1 ≠ owner_of l2 →
  r1 ∈ l_ranges l1 → r2 ∈ l_ranges l2 →
  range_ok r1 → range_ok r2 → 0 <= lr_len r1 → 0 <= lr_len r2 → 0 <= lr_off r1 → 0 <= lr_off r2 →
  covers r1 x → covers r2 x → lr_type r1 = READ_LT ∧ lr_type r2 = READ_LT.
Proof.
  intros s H1 H2 Hf Ho Hr1 Hr2 ???????? . intros.
  assert (locks_ok (m_locks s)) as [_ Hc].
  { apply (run_events_inv (λ s, locks_ok (m_locks s))); [by split|]. intros s' ev. apply locks_ok_event. }
  eapply (Hc k1 k2 l1 l2); [done..|]. by eapply covers_overlaps.
Qed.

(** ** One lease per client *)

Definition leases_ok (m : gmap Z ClientRec) : Prop := ∀ k1 k2 c1 c2,
  m !! k1 = Some c1 → m !! k2 = Some c2 → c_confirmed c1 = true → c_confirmed c2 = true → c_id c1 = c_id c2 → k1 = k2.

Lemma leases_ok_sub (m m' : gmap Z ClientRec) :
  (∀ k c', m' !! k = Some c' → c_confirmed c' = true →
     ∃ c, m !! k = Some c ∧ c_confirmed c = true ∧ c_id c = c_id c') → leases_ok m → leases_ok m'.
Proof.
  intros Hsub Hm k1 k2 c1 c2 H1 H2 C1 C2 E. destruct (Hsub _ _ H1 C1) as (d1 & D1 & ? & E1), (Hsub _ _ H2 C2) as (d2 & D2 & ? & E2).
  eapply (Hm k1 k2 d1 d2); try done. congruence.
Qed.
Lemma set_clientid_clients s v id p n a i :
  let r := set_clientid hash s v id p n a i in
  m_clients r.2 = m_clients s ∨
  ∃ c, m_clients r.2 = <[r.1.1 := c]> (m_clients s) ∧ c_id c = id ∧
    (c_confirmed c = false ∨ ∃ c0, m_clients s !! r.1.1 = Some c0 ∧ c_confirmed c = c_confirmed c0 ∧ c_id c = c_id c0).
Proof.
  unfold set_clientid. set (P := λ e : Z * ClientRec, bool_decide (c_id e.2 = id) && (c_verifier e.2 =? v)).
  destruct (find_key_spec P (m_clients s)) as [(c & Hc & HP)|[-> _]].
  - unfold P in HP. cbn [snd] in HP. rewrite andb_true_iff, bool_decide_eq_true in HP. destruct HP as [Hid _].
    destruct (find_key P (m_clients s) =? 0) eqn:E0; cbn [negb].
    + right. eexists. split; [reflexivity|]. split; [done|]. by left.
    + rewrite Hc. right. cbn [fst snd set_clients m_clients]. eexists. split; [reflexivity|]. split; [done|]. right. by exists c.
  - right. eexists. split; [reflexivity|]. split; [done|]. by left.
Qed.
Lemma fold_drop_clients ks s k c :
  m_clients (fold_left drop_lease ks s) !! k = Some c ↔ m_clients s !! k = Some c ∧ (k ∉ ks).
Proof.
  revert s. induction ks as [|k' ks IH]; intros s; simpl; [set_solver|]. rewrite IH.
  change (m_clients (drop_lease s k')) with (delete k' (m_clients s)). rewrite lookup_delete_Some, elem_of_cons. naive_solver.
Qed.
Lemma elem_of_stale s clientid id k :
  k ∈ stale_leases s clientid id ↔ k ≠ clientid ∧ ∃ c, m_clients s !! k = Some c ∧ c_confirmed c = true ∧ c_id c = id.
Proof.
  unfold stale_leases. rewrite list_elem_of_fmap. split.
  - intros ([k' c] & -> & [(Hk & Hc & Hi) Hin%elem_of_iter]%list_elem_of_filter). simpl in *. eauto.
  - intros (Hk & c & Hc & ? & ?). exists (k, c). split; [done|]. apply list_elem_of_filter. by rewrite elem_of_iter.
Qed.

Lemma leases_ok_event s ev : leases_ok (m_clients s) → leases_ok (m_clients (run_event s ev)).
Proof.
  intros HL. destruct ev; simpl.
  - destruct (set_clientid_clients s verifier id prog netid addr ident) as [->|(c & -> & Hid & Hc)]; [done|].
    eapply leases_ok_sub; [|exact HL]. intros k c'. rewrite lookup_insert_Some.
    intros [[<- <-]|[_ Hk]] Hconf; [|by exists c']. destruct Hc as [Hc|(c0 & H0 & Hc & Hi)]; [congruence|].
    exists c0. split_and!; congruence.
  - unfold setclientid_confirm. destruct (m_clients s !! clientid) as [c|] eqn:Hc; [|done].
    destruct (negb _); [done|]. destruct (c_confirmed c) eqn:Hconf; [done|]. simpl.
    assert (∀ k d, m_clients (fold_left drop_lease (stale_leases s clientid (c_id c)) s) !! k = Some d →
      c_confirmed d = true → m_clients s !! k = Some d ∧ c_id d ≠ c_id c) as Hrest.
    { intros k d [Hk Hn]%fold_drop_clients Hd. split; [done|]. intros E. apply Hn, elem_of_stale.
      split; [intros ->; congruence|eauto]. }
    intros k1 k2 c1 c2. rewrite !lookup_insert_Some.
    intros [[<- <-]|[N1 H1]] [[<- <-]|[N2 H2]] C1 C2 E; [done|..]; simpl in *.
    + destruct (Hrest _ _ H2 C2). congruence.
    + destruct (Hrest _ _ H1 C1). congruence.
    + destruct (Hrest _ _ H1 C1), (Hrest _ _ H2 C2). by eapply HL.
  - unfold open_state. repeat case_match; done.
  - unfold close_state. repeat case_match; done.
  - unfold open_confirm. repeat case_match; done.
  - unfold open_downgrade. repeat case_match; done.
  - unfold lock_state, lock_grant. repeat case_match; simplify_eq/=; try done.
  - unfold locku_state. repeat case_match; done.
  - done.
Qed.

(** C34. One lease per client: after any interleaving of requests, at most
    one confirmed clientid stands for a client's identity string. *)
Theorem nfs4_one_lease evs k1 k2 c1 c2 :
  let s := run_events V40 evs in
  m_clients s !! k1 = Some c1 → m_clients s !! k2 = Some c2 →
  c_confirmed c1 = true → c_confirmed c2 = true → c_id c1 = c_id c2 → k1 = k2.
Proof.
  intros s. assert (leases_ok (m_clients s)) as Hl; [|apply Hl].
  apply (run_events_inv (λ s, leases_ok (m_clients s))); [by intros ????|]. intros s' ev. apply leases_ok_event.
Qed.

(** ** State belongs to a lease *)

(** Requests whose clientid check and state change are not separated. *)
Definition guard s (ev : Event) : bool :=
  match ev with
  | EvSetClientid _ _ _ _ _ _ => m_nextClientid s + 1 <? 2 ^ 64
  | EvOpen c _ _ _ _ | EvLock None c _ _ _ _ _ => clientConfirmed s c
  | _ => true
  end.
Fixpoint guarded s (evs : list Event) : bool :=
  match evs with [] => true | ev :: evs' => guard s ev && guarded (run_event s ev) evs' end.

Record lease_inv s : Prop := {
  li_next : 0 <= m_nextClientid s;
  li_fresh k c : m_clients s !! k = Some c → k < m_nextClientid s;
  li_open k o : m_opens s !! k = Some o → clientConfirmed s (o_clientid o) = true;
  li_lock k l : m_locks s !! k = Some l → clientConfirmed s (l_clientid l) = true
}.
Lemma lease_inv_same s s' :
  m_nextClientid s' = m_nextClientid s → m_clients s' = m_clients s →
  (∀ k o, m_opens s' !! k = Some o → ∃ k' o', m_opens s !! k' = Some o' ∧ o_clientid o = o_clientid o' ∨ clientConfirmed s (o_clientid o) = true) →
  (∀ k l, m_locks s' !! k = Some l → ∃ k' l', m_locks s !! k' = Some l' ∧ l_clientid l = l_clientid l' ∨ clientConfirmed s (l_clientid l) = true) →
  lease_inv s → lease_inv s'.
Proof.
  intros En Ec Ho Hl [Hn Hf HO HLk]. 
  assert (∀ c, clientConfirmed s' c = clientConfirmed s c) as Hcc by (intros c; unfold clientConfirmed; by rewrite Ec).
  split; rewrite ?En, ?Ec; try done.
  - intros k o (k' & o' & [[H1 ->]|H1])%Ho; rewrite Hcc; [by eapply HO|done].
  - intros k l (k' & l' & [[H1 ->]|H1])%Hl; rewrite Hcc; [by eapply HLk|done].
Qed.

Lemma fold_drop_state ks s :
  m_nextClientid (fold_left drop_lease ks s) = m_nextClientid s ∧
  (∀ k o, m_opens (fold_left drop_lease ks s) !! k = Some o → m_opens s !! k = Some o ∧ (o_clientid o ∉ ks)) ∧
  (∀ k l, m_locks (fold_left drop_lease ks s) !! k = Some l → m_locks s !! k = Some l ∧ (l_clientid l ∉ ks)).
Proof.
  revert s. induction ks as [|k' ks IH]; intros s; simpl.
  { split_and!; [done|..]; intros ?? Hk; split; [done|apply not_elem_of_nil|done|apply not_elem_of_nil]. }
  destruct (IH (drop_lease s k')) as (-> & Ho & Hl). split_and!; [done|..].
  - intros k o [[Hk Hne]%map_lookup_filter_Some Hks]%Ho. by rewrite not_elem_of_cons.
  - intros k l [[Hk Hne]%map_lookup_filter_Some Hks]%Hl. by rewrite not_elem_of_cons.
Qed.
Lemma confirm_lease s clientid confirm s' :
  lease_inv s → setclientid_confirm s clientid confirm = Some s' → lease_inv s' ∧ clientConfirmed s' clientid = true.
Proof.
  intros I. unfold setclientid_confirm. destruct (m_clients s !! clientid) as [c|] eqn:Hc; [|done].
  destruct (negb _); [done|]. destruct (c_confirmed c) eqn:Hconf.
  { intros [= <-]. split; [done|]. unfold clientConfirmed. by rewrite Hc. }
  set (ks := stale_leases s clientid (c_id c)). intros [= <-].
  destruct (fold_drop_state ks s) as (En & Ho & Hl). set (s1 := fold_left drop_lease ks s) in *.
  assert (∀ k d, m_clients s1 !! k = Some d ↔ m_clients s !! k = Some d ∧ (k ∉ ks)) as Hcl by apply fold_drop_clients.
  assert (clientConfirmed (set_clients (<[clientid:=set_confirmed c]> (m_clients s1)) s1) clientid = true) as Hself
    by (unfold clientConfirmed; cbn [m_clients set_clients]; by rewrite lookup_insert_eq).
  split; [|done].
  assert (∀ c', clientConfirmed s c' = true → (c' ∉ ks) →
    clientConfirmed (set_clients (<[clientid:=set_confirmed c]> (m_clients s1)) s1) c' = true) as Hkeep.
  { intros c' Hc' Hn. destruct (decide (c' = clientid)) as [->|Hne]; [done|].
    unfold clientConfirmed in *. cbn [m_clients set_clients]. rewrite lookup_insert_ne by done.
    destruct (m_clients s !! c') as [d|] eqn:Hd; [|done]. by rewrite (proj2 (Hcl c' d) (conj Hd Hn)). }
  split; cbn [set_clients m_nextClientid m_clients m_opens m_locks].
  - rewrite En. apply I.
  - intros k d. rewrite En, lookup_insert_Some. intros [[<- _]|[_ [Hk _]%Hcl]]; by eapply (li_fresh _ I).
  - intros k o [Hk Hn]%Ho. apply Hkeep; [by eapply (li_open _ I)|done].
  - intros k l [Hk Hn]%Hl. apply Hkeep; [by eapply (li_lock _ I)|done].
Qed.
Lemma set_clientid_lease s v id p n a i :
  lease_inv s → m_nextClientid s + 1 < 2 ^ 64 → lease_inv (set_clientid hash s v id p n a i).2.
Proof.
  intros I Hn. pose proof (li_next _ I). unfold set_clientid. destruct (negb _).
  - destruct (m_clients s !! _) as [c|] eqn:Hc; [|done]. set (k0 := find_key _ _) in *. simpl.
    assert (∀ c' s1, m_clients s1 = <[k0 := mkClient (c_clientid c) (c_id c) (c_verifier c) (c_confirmVerf c)
        (c_confirmed c) p n a i]> (m_clients s) → clientConfirmed s1 c' = clientConfirmed s c') as Hcc.
    { intros c' s1 E. unfold clientConfirmed. rewrite E. destruct (decide (c' = k0)) as [->|]; [|by rewrite lookup_insert_ne].
      by rewrite lookup_insert_eq, Hc. }
    split; cbn [set_clients m_nextClientid m_clients m_opens m_locks]; [done|..].
    + intros k d. rewrite lookup_insert_Some. intros [[<- _]|[_ Hk]]; by eapply (li_fresh _ I).
    + intros k o Hk. erewrite Hcc by reflexivity. by eapply (li_open _ I).
    + intros k l Hk. erewrite Hcc by reflexivity. by eapply (li_lock _ I).
  - simpl. assert (u64 (m_nextClientid s + 1) = m_nextClientid s + 1) as Eu by (apply u64_small; word_lia).
    assert (∀ c' s1 d, m_clients s1 = <[m_nextClientid s := d]> (m_clients s) → clientConfirmed s c' = true →
      clientConfirmed s1 c' = true) as Hcc.
    { intros c' s1 d E Hc'. unfold clientConfirmed in *. rewrite E. destruct (m_clients s !! c') as [e|] eqn:He; [|done].
      pose proof (li_fresh _ I _ _ He). by rewrite lookup_insert_ne, He by lia. }
    split; cbn [set_clients bump_client m_nextClientid m_clients m_opens m_locks]; rewrite ?Eu; [lia|..].
    + intros k d. rewrite lookup_insert_Some. intros [[<- _]|[_ Hk]]; [lia|]. pose proof (li_fresh _ I _ _ Hk). lia.
    + intros k o Hk. eapply Hcc; [reflexivity|]. by eapply (li_open _ I).
    + intros k l Hk. eapply Hcc; [reflexivity|]. by eapply (li_lock _ I).
Qed.

Lemma lease_inv_locks s m :
  (∀ k l, m !! k = Some l → (∃ k' l', m_locks s !! k' = Some l' ∧ l_clientid l = l_clientid l') ∨ clientConfirmed s (l_clientid l) = true) →
  lease_inv s → lease_inv (set_locks m s).
Proof.
  intros Hm I. split; try apply I. intros k l [(k' & l' & Hl & ->)|Hl]%Hm; [|done]. by eapply (li_lock _ I).
Qed.
Lemma lease_inv_opens s m :
  (∀ k o, m !! k = Some o → (∃ k' o', m_opens s !! k' = Some o' ∧ o_clientid o = o_clientid o') ∨ clientConfirmed s (o_clientid o) = true) →
  lease_inv s → lease_inv (set_opens m s).
Proof.
  intros Hm I. split; try apply I. intros k o [(k' & o' & Ho & ->)|Ho]%Hm; [|done]. by eapply (li_open _ I).
Qed.
Lemma lease_inv_bump s : lease_inv s → lease_inv (bump_state s).
Proof. intros []. by split. Qed.
Lemma lock_grant_lease s fileId c o off len write :
  lease_inv s → clientConfirmed s c = true → lease_inv (lock_grant s fileId c o off len write).2.
Proof.
  intros I Hc. unfold lock_grant. destruct (_ =? 0).
  - cbn [m_locks set_locks bump_state m_nextState]. rewrite lookup_insert_eq. cbn [snd].
    apply (lease_inv_locks (bump_state s)); [|by apply lease_inv_bump]. intros k l. rewrite insert_insert_eq, lookup_insert_Some.
    intros [[<- <-]|[_ Hk]]; [by right|left; eauto].
  - destruct (m_locks s !! _) as [l|] eqn:Hl; [|done]. cbn [snd]. apply lease_inv_locks; [|done].
    intros k l'. rewrite lookup_insert_Some. intros [[<- <-]|[_ Hk]]; left; eauto.
Qed.
Lemma lease_event s ev : lease_inv s → guard s ev = true → lease_inv (run_event s ev).
Proof.
  intros I Hg. destruct ev; cbn [run_event guard] in *.
  - apply set_clientid_lease; [done|]. by apply Z.ltb_lt.
  - destruct (setclientid_confirm s clientid confirm) as [s'|] eqn:E; [|done]. by eapply confirm_lease.
  - unfold open_state. destruct (negb _).
    + destruct (m_opens s !! _) as [o|] eqn:Ho; [|done]. simpl. apply lease_inv_opens; [|done].
      intros k o'. rewrite lookup_insert_Some. intros [[<- <-]|[_ Hk]]; left; eauto.
    + destruct (bool_decide _); [done|]. simpl. apply (lease_inv_opens (bump_state s)); [|by apply lease_inv_bump].
      intros k o'. rewrite lookup_insert_Some. intros [[<- <-]|[_ Hk]]; [by right|left; eauto].
  - unfold close_state. destruct (sid_special sid); [done|]. destruct (m_opens s !! _); [|done]. simpl.
    apply lease_inv_opens; [|done]. intros k o'. rewrite lookup_delete_Some. intros [_ Hk]. left; eauto.
  - unfold open_confirm. destruct (m_opens s !! _) as [o|] eqn:Ho; [|done]. simpl.
    assert (lease_inv (set_opens (<[sid_id sid:=o_set_share (o_access o) (o_deny o) (u32 (o_seqid o + 1)) o]> (m_opens s)) s)) as [];
      [|by split]. apply lease_inv_opens; [|done].
    intros k o'. rewrite lookup_insert_Some. intros [[<- <-]|[_ Hk]]; left; eauto.
  - unfold open_downgrade. destruct (m_opens s !! _) as [o|] eqn:Ho; [|done]. simpl. apply lease_inv_opens; [|done].
    intros k o'. rewrite lookup_insert_Some. intros [[<- <-]|[_ Hk]]; left; eauto.
  - unfold lock_state. 
    assert (∀ c o, clientConfirmed s c = true → lease_inv
      (match find_denied s fileId c o off len write with Some d => (LockDenied d, s)
       | None => let '((sq, id), s') := lock_grant s fileId c o off len write in (LockGranted sq id, s') end).2) as Hgrant.
    { intros c o Hc. destruct (find_denied _ _ _ _ _ _ _); [done|]. 
      pose proof (lock_grant_lease s fileId c o off len write I Hc). by destruct (lock_grant _ _ _ _ _ _ _) as [[sq id] s']. }
    destruct existing as [sid|]; [|by apply Hgrant].
    destruct (m_locks s !! sid_id sid) as [l|] eqn:Hl; [|done]. simpl. apply Hgrant. by eapply (li_lock _ I).
  - unfold locku_state. destruct (m_locks s !! _) as [l|] eqn:Hl; [|done]. simpl. apply lease_inv_locks; [|done].
    intros k l'. rewrite lookup_insert_Some. intros [[<- <-]|[_ Hk]]; left; eauto.
  - apply lease_inv_locks; [|done]. intros k l [Hk _]%map_lookup_filter_Some. left; eauto.
Qed.

(** C20. State belongs to a lease: as long as a request's clientid check is
    not separated from its state change, every open and every lock held is one
    of a confirmed client, and confirming a new instance of a client leaves
    nothing of the old one. *)
Theorem nfs4_state_has_lease evs :
  guarded V40 evs = true →
  let s := run_events V40 evs in
  (∀ k o, m_opens s !! k = Some o → clientConfirmed s (o_clientid o) = true) ∧
  (∀ k l, m_locks s !! k = Some l → clientConfirmed s (l_clientid l) = true).
Proof.
  intros Hg s. assert (lease_inv s) as I; [|split; [apply (li_open _ I)|apply (li_lock _ I)]].
  unfold s, run_events. clear s. revert Hg. assert (lease_inv V40) as I by by split.
  revert I. generalize V40. induction evs as [|ev evs IH]; intros s I; simpl; [done|].
  intros [Hg1 Hg2]%andb_true_iff. apply IH; [by apply lease_event|done].
Qed.

(** Clients are told apart by identity and boot verifier. *)
Record clients_ok s : Prop := {
  co_next : 1 <= m_nextClientid s;
  co_key k c : m_clients s !! k = Some c → 1 <= k < m_nextClientid s;
  co_uniq k1 k2 c1 c2 : m_clients s !! k1 = Some c1 → m_clients s !! k2 = Some c2 →
    c_id c1 = c_id c2 → c_verifier c1 = c_verifier c2 → k1 = k2
}.
Definition same_client (c d : ClientRec) : Prop := c_id c = c_id d ∧ c_verifier c = c_verifier d.
Lemma clients_ok_sub s s' :
  m_nextClientid s' = m_nextClientid s →
  (∀ k c, m_clients s' !! k = Some c → ∃ d, m_clients s !! k = Some d ∧ same_client c d) →
  clients_ok s → clients_ok s'.
Proof.
  intros En Hs I. split; rewrite ?En; [apply I|..].
  - intros k c (d & Hd & _)%Hs. by eapply (co_key _ I).
  - intros k1 k2 c1 c2 (d1 & H1 & E1 & F1)%Hs (d2 & H2 & E2 & F2)%Hs E F. eapply (co_uniq _ I); try done; congruence.
Qed.

(** SETCLIENTID answers with the record it leaves under its clientid. *)
Lemma set_clientid_spec s v id p n a i :
  clients_ok s → m_nextClientid s + 1 < 2 ^ 64 →
  let r := set_clientid hash s v id p n a i in
  clients_ok r.2 ∧ ∃ c, m_clients r.2 !! r.1.1 = Some c ∧ c_id c = id ∧ c_verifier c = v ∧ c_confirmVerf c = r.1.2 ∧
    (∀ c0, m_clients s !! r.1.1 = Some c0 → c_confirmed c = c_confirmed c0 ∧ c_confirmVerf c = c_confirmVerf c0) ∧
    (∀ k d, m_clients s !! k = Some d → c_id d = id → c_verifier d = v → r.1.1 = k).
Proof.
  intros I Hn r. unfold r. clear r. unfold set_clientid.
  set (P := λ e : Z * ClientRec, bool_decide (c_id e.2 = id) && (c_verifier e.2 =? v)).
  destruct (find_key_spec P (m_clients s)) as [(c & Hc & HP)|[-> Hno]].
  - pose proof (co_key _ I _ _ Hc) as Hk. rewrite (proj2 (Z.eqb_neq _ 0)) by lia. cbn [negb]. rewrite Hc.
    unfold P in HP. cbn [snd] in HP. rewrite andb_true_iff, bool_decide_eq_true, Z.eqb_eq in HP. destruct HP as [Hid Hv].
    cbn [fst snd set_clients m_clients]. split.
    + apply clients_ok_sub with s; [done| |done]. intros k d. cbn [set_clients m_clients].
      rewrite lookup_insert_Some. intros [[<- <-]|[_ Hd]]; [by exists c|by exists d].
    + rewrite lookup_insert_eq. eexists. split_and!; try reflexivity; simpl; try done; [intros c0 E; by simplify_eq|].
      intros k d Hd E1 E2. eapply (co_uniq _ I); try done; congruence.
  - cbn [Z.eqb negb fst snd set_clients m_clients]. pose proof (co_next _ I).
    assert (u64 (m_nextClientid s + 1) = m_nextClientid s + 1) as Eu by (apply u64_small; word_lia). split.
    + split; cbn [set_clients bump_client m_nextClientid m_clients]; rewrite ?Eu; [lia|..].
      * intros k c. rewrite lookup_insert_Some. intros [[<- _]|[_ Hk]]; [lia|]. pose proof (co_key _ I _ _ Hk). lia.
      * assert (∀ k d, m_clients s !! k = Some d → ¬ (c_id d = id ∧ c_verifier d = v)) as Hnew.
        { intros k d Hd [E1 E2]. specialize (Hno k d Hd). unfold P in Hno. cbn [snd] in Hno.
          by rewrite bool_decide_true, (proj2 (Z.eqb_eq _ _) E2) in Hno. }
        intros k1 k2 c1 c2. rewrite !lookup_insert_Some. 
        intros [[<- <-]|[_ H1]] [[<- <-]|[_ H2]] E F; simpl in *; [done|..].
        -- by destruct (Hnew _ _ H2).
        -- by destruct (Hnew _ _ H1).
        -- by eapply (co_uniq _ I).
    + rewrite lookup_insert_eq. eexists. split_and!; try reflexivity.
      * intros c0 Hc0. pose proof (co_key _ I _ _ Hc0). lia.
      * intros k d Hd E1 E2. specialize (Hno k d Hd). unfold P in Hno. cbn [snd] in Hno.
        by rewrite bool_decide_true, (proj2 (Z.eqb_eq _ _) E2) in Hno.
Qed.
Lemma confirm_clients s clientid confirm s' :
  clients_ok s → setclientid_confirm s clientid confirm = Some s' → clients_ok s' ∧
    ∀ c, m_clients s !! clientid = Some c → ∃ d, m_clients s' !! clientid = Some d ∧ same_client d c ∧ c_confirmVerf d = c_confirmVerf c ∧ c_confirmed d = true.
Proof.
  intros I. unfold setclientid_confirm. destruct (m_clients s !! clientid) as [c|] eqn:Hc; [|done].
  destruct (negb _); [done|]. destruct (c_confirmed c) eqn:Hconf.
  { intros [= <-]. split; [done|]. intros c' [= <-]. by exists c. }
  set (ks := stale_leases s clientid (c_id c)). intros [= <-]. split.
  - apply clients_ok_sub with s; [apply (fold_drop_state ks s)| |done]. intros k d. cbn [set_clients m_clients].
    rewrite lookup_insert_Some. intros [[<- <-]|[_ [Hd _]%fold_drop_clients]]; [by exists c|by exists d].
  - intros c' [= <-]. cbn [set_clients m_clients]. rewrite lookup_insert_eq. by eexists.
Qed.
Lemma clients_ok_event s ev : clients_ok s → guard s ev = true → clients_ok (run_event s ev).
Proof.
  intros I Hg. destruct ev; cbn [run_event guard] in *.
  - apply (set_clientid_spec s); [done|by apply Z.ltb_lt].
  - destruct (setclientid_confirm s clientid confirm) as [s'|] eqn:E; [|done]. by eapply confirm_clients.
  - unfold open_state. repeat case_match; try done; by destruct I.
  - unfold close_state. repeat case_match; try done; by destruct I.
  - unfold open_confirm. repeat case_match; try done; by destruct I.
  - unfold open_downgrade. repeat case_match; try done; by destruct I.
  - unfold lock_state, lock_grant. repeat case_match; simplify_eq/=; try done; by destruct I.
  - unfold locku_state. repeat case_match; try done; by destruct I.
  - by destruct I.
Qed.
Lemma clients_ok_run evs : guarded V40 evs = true → clients_ok (run_events V40 evs).
Proof.
  unfold run_events. assert (clients_ok V40) as I by by split. revert I. generalize V40.
  induction evs as [|ev evs IH]; intros s I; simpl; [done|].
  intros [Hg1 Hg2]%andb_true_iff. apply IH; [by apply clients_ok_event|done].
Qed.

(** C35. The handshake: the clientid and verifier that SETCLIENTID hands out
    confirm the client, and asking again as the same instance gives the same
    pair and keeps the lease. *)
Theorem nfs4_handshake evs v id p n a i p' n' a' i' :
  guarded V40 evs = true → m_nextClientid (run_events V40 evs) + 2 < 2 ^ 64 →
  let '((c, cv), s1) := set_clientid hash (run_events V40 evs) v id p n a i in
  ∃ s2, setclientid_confirm s1 c cv = Some s2 ∧ clientConfirmed s2 c = true ∧
    (set_clientid hash s2 v id p' n' a' i').1 = (c, cv) ∧
    clientConfirmed (set_clientid hash s2 v id p' n' a' i').2 c = true.
Proof.
  intros Hg Hn. pose proof (clients_ok_run evs Hg) as I. set (s := run_events V40 evs) in *.
  destruct (set_clientid_spec s v id p n a i I ltac:(lia)) as (I1 & c & Hc & Hid & Hv & Hcv & _ & _).
  assert (m_nextClientid (set_clientid hash s v id p n a i).2 <= m_nextClientid s + 1) as Hn1.
  { pose proof (co_next _ I). unfold set_clientid. repeat case_match; simpl; try lia. rewrite u64_small by word_lia. lia. }
  destruct (set_clientid hash s v id p n a i) as [[k cv] s1]. cbn [fst snd] in *.
  assert (∃ s2, setclientid_confirm s1 k cv = Some s2 ∧ m_nextClientid s2 = m_nextClientid s1) as (s2 & E & En).
  { unfold setclientid_confirm. rewrite Hc, Hcv, Z.eqb_refl. cbn [negb]. destruct (c_confirmed c); [eauto|].
    eexists. split; [reflexivity|]. apply (fold_drop_state (stale_leases s1 k (c_id c)) s1). }
  exists s2. split; [done|]. destruct (confirm_clients _ _ _ _ I1 E) as [I2 Hd].
  destruct (Hd c Hc) as (d & Hd2 & [Did Dv] & Dcv & Dconf).
  split; [by unfold clientConfirmed; rewrite Hd2|].
  destruct (set_clientid_spec s2 v id p' n' a' i' I2 ltac:(lia)) as (I3 & c3 & Hc3 & Hid3 & Hv3 & Hcv3 & Hold & Hold2).
  assert ((set_clientid hash s2 v id p' n' a' i').1.1 = k) as Ek by (apply (Hold2 k d Hd2); congruence).
  destruct (set_clientid hash s2 v id p' n' a' i') as [[k3 cv3] s3]. cbn [fst snd] in *. subst k3.
  destruct (Hold d Hd2) as [F1 F2]. split; [congruence|]. unfold clientConfirmed. rewrite Hc3. congruence.
Qed.
End Machine.

(** ** Share reservations *)

Section Shares.
Context `{!MapOrder}.
Implicit Types (s : V4) (owner : bytes).

(** No open's access meets another's denial on the same file. *)
Definition share_ok (m : gmap Z OpenState) : Prop := ∀ k1 k2 o1 o2,
  m !! k1 = Some o1 → m !! k2 = Some o2 → k1 ≠ k2 → o_fileId o1 = o_fileId o2 →
  Z.land (o_access o1) (o_deny o2) = 0.
Definition open_of (clientid : Z) owner (fileId : Z) (o : OpenState) : Prop :=
  o_fileId o = fileId ∧ o_clientid o = clientid ∧ o_owner o = owner.

Lemma share_conflict_false fileId access deny o :
  share_conflict fileId access deny o = false ↔
    (o_fileId o = fileId → Z.land access (o_deny o) = 0 ∧ Z.land deny (o_access o) = 0).
Proof.
  unfold share_conflict. rewrite andb_false_iff, orb_false_iff, !negb_false_iff, !Z.eqb_eq, Z.eqb_neq. 
  destruct (decide (o_fileId o = fileId)); tauto.
Qed.

(** C36. OPEN by an owner that has the file not yet open: refused exactly when
    some open of the file denies what it asks, or holds what it denies;
    granted otherwise, under a new stateid, and the reservations of all opens
    stay compatible. *)
Theorem nfs4_open_grants s clientid owner fileId access deny :
  (∀ k o, m_opens s !! k = Some o → ¬ open_of clientid owner fileId o) →
  match open_state s clientid owner fileId access deny with
  | None => ∃ k o, m_opens s !! k = Some o ∧ o_fileId o = fileId ∧
      (Z.land access (o_deny o) ≠ 0 ∨ Z.land deny (o_access o) ≠ 0)
  | Some ((sq, id), s') =>
      (∀ k o, m_opens s !! k = Some o → o_fileId o = fileId →
         Z.land access (o_deny o) = 0 ∧ Z.land deny (o_access o) = 0) ∧
      sq = 1 ∧ id = m_nextState s ∧ m_opens s' = <[id := mkOpen clientid owner fileId access deny 1]> (m_opens s) ∧
      (share_ok (m_opens s) → share_ok (m_opens s'))
  end.
Proof.
  intros Hno. unfold open_state. set (own := λ e : Z * OpenState, same_open fileId clientid owner e.2).
  destruct (find_key_spec own (m_opens s)) as [(o & Ho & Hown)|[-> _]].
  { exfalso. apply (Hno _ _ Ho). unfold own, same_open in Hown. cbn [snd] in Hown.
    rewrite !andb_true_iff, !Z.eqb_eq, bool_decide_eq_true in Hown. by destruct Hown as [[? ?] ?]. }
  cbn [Z.eqb negb]. case_bool_decide as Hex.
  - apply Exists_exists in Hex as ([k o] & Hk%elem_of_iter & Hc). cbn [snd] in Hc. exists k, o. split; [done|].
    unfold share_conflict in Hc. rewrite andb_true_iff, orb_true_iff, !negb_true_iff, Z.eqb_eq, !Z.eqb_neq in Hc. done.
  - assert (∀ k o, m_opens s !! k = Some o → o_fileId o = fileId →
      Z.land access (o_deny o) = 0 ∧ Z.land deny (o_access o) = 0) as Hfree.
    { intros k o Hk Hf. apply (share_conflict_false fileId); [|done]. apply not_true_iff_false. intros Hc. apply Hex.
      apply Exists_exists. exists (k, o). split; [by apply elem_of_iter|done]. }
    split; [done|]. split_and!; [done..|]. cbn [set_opens m_opens bump_state].
    intros Hok k1 k2 o1 o2. rewrite !lookup_insert_Some.
    intros [[<- <-]|[N1 H1]] [[<- <-]|[N2 H2]] Hk Hf; simpl in *; [done|..].
    + by apply (Hfree k2 o2).
    + rewrite Z.land_comm. by apply (Hfree k1 o1).
    + by eapply Hok.
Qed.
End Shares.

(** ** Deviations *)

Definition no_hash : bytes → Z := λ _, 0.
(** Client [c], confirmed; the verifier is the one SETCLIENTID computes. *)
Definition demo_client (id : bytes) (boot c : Z) : list Event :=
  [EvSetClientid boot id 0 [] [] 0; EvConfirm c (viewFileid4 (Z.lxor c boot) 0)].
Definition run_demo (evs : list Event) : V4 := run_events no_hash V40 evs.
Definition open_sid (id : Z) : Stateid := mkStateid 1 id 0 false.

(** An owner that reopens a file is upgraded without a look at the others: it
    gets write access to a file another owner denies writes to. *)
Lemma open_upgrade_unchecked :
  let s := run_demo (demo_client (str "c") 7 1 ++
    [EvOpen 1 (str "a") 5 1 0; EvOpen 1 (str "b") 5 1 2; EvOpen 1 (str "a") 5 2 0]) in
  (o_access <$> m_opens s !! 1) = Some 3 ∧ (o_deny <$> m_opens s !! 2) = Some 2 ∧ ¬ share_ok (m_opens s).
Proof.
  cbv zeta. split; [vm_compute; reflexivity|]. split; [vm_compute; reflexivity|]. intros Hok.
  specialize (Hok 1 2 (mkOpen 1 (str "a") 5 3 0 2) (mkOpen 1 (str "b") 5 1 2 1)).
  assert (Z.land 3 2 = 0) as E; [|by vm_compute in E]. apply Hok; [vm_compute; reflexivity..|done|done].
Qed.

(** A range that runs past 2^64 wraps to an end below its start, and excludes
    nothing: two owners hold a write lock on one byte. *)
Lemma lock_past_end :
  let s := run_demo (demo_client (str "c") 7 1 ++
    [EvLock None 1 (str "a") 5 (2 ^ 64 - 2) 4 true; EvLock None 1 (str "b") 5 (2 ^ 64 - 2) 1 true]) in
  (l_ranges <$> m_locks s !! 1) = Some [mkRange (2 ^ 64 - 2) 4 WRITE_LT] ∧
  (l_ranges <$> m_locks s !! 2) = Some [mkRange (2 ^ 64 - 2) 1 WRITE_LT].
Proof. vm_compute. split; reflexivity. Qed.

(** Unlocking ten bytes of a hundred gives up all hundred. *)
Lemma unlock_drops_range :
  let s := run_demo (demo_client (str "c") 7 1 ++
    [EvLock None 1 (str "a") 5 0 100 true; EvLocku (mkStateid 2 1 1 false) 10 10]) in
  (l_ranges <$> m_locks s !! 1) = Some [].
Proof. vm_compute. reflexivity. Qed.

(** The lease check of LOCK is a critical section of its own, and both
    LOCK and SETCLIENTID_CONFIRM hold the store lock shared: when a client's
    new instance is confirmed between the check and the change, the lock is
    left with a clientid that has no lease, and denies the new instance. *)
Theorem nfs4_lock_race :
  let before := run_demo (demo_client (str "c") 7 1) in
  let after := run_demo (demo_client (str "c") 7 1 ++ demo_client (str "c") 8 2 ++ [EvLock None 1 (str "a") 5 0 10 true]) in
  clientConfirmed before 1 = true ∧
  clientConfirmed after 1 = false ∧ (l_clientid <$> m_locks after !! 1) = Some 1 ∧
  clientConfirmed after 2 = true ∧
  (lock_state after None 2 (str "a") 5 0 10 true).1 = LockDenied (mkRange 0 10 WRITE_LT, (1, str "a")).
Proof. vm_compute. repeat split. Qed.

(** ** The theorems at concrete runs *)

Definition demo_locks : list Event :=
  demo_client (str "c") 7 1 ++ [EvLock None 1 (str "a") 5 0 10 false; EvLock None 1 (str "b") 5 5 10 false].
Definition demo_lock (owner : bytes) (r : LockRange) : LockState := mkLock 1 owner 5 2 [r].
Lemma nfs4_locks_exclude_witness :
  covers (mkRange 0 10 READ_LT) 7 ∧ covers (mkRange 5 10 READ_LT) 7 ∧
  lr_type (mkRange 0 10 READ_LT) = READ_LT ∧ lr_type (mkRange 5 10 READ_LT) = READ_LT.
Proof.
  split; [by vm_compute|]. split; [by vm_compute|].
  apply (nfs4_locks_exclude no_hash demo_locks 1 2
    (demo_lock (str "a") (mkRange 0 10 READ_LT)) (demo_lock (str "b") (mkRange 5 10 READ_LT)) _ _ 7);
    first [vm_compute; reflexivity | done | by right | set_solver | by vm_compute].
Defined.

Lemma nfs4_one_lease_witness :
  (c_id <$> m_clients (run_demo (demo_client (str "c") 7 1 ++ demo_client (str "c") 8 2)) !! 2) = Some (str "c") ∧ 2 = 2.
Proof.
  split; [vm_compute; reflexivity|].
  apply (nfs4_one_lease no_hash (demo_client (str "c") 7 1 ++ demo_client (str "c") 8 2) 2 2
    (mkClient 2 (str "c") 8 (viewFileid4 (Z.lxor 2 8) 0) true 0 [] [] 0)
    (mkClient 2 (str "c") 8 (viewFileid4 (Z.lxor 2 8) 0) true 0 [] [] 0)); vm_compute; reflexivity.
Defined.

Definition demo_opens : list Event :=
  demo_locks ++ [EvOpen 1 (str "a") 5 1 0; EvOpen 1 (str "b") 6 3 2; EvClose (open_sid 3)].
Lemma nfs4_state_has_lease_witness :
  m_opens (run_demo demo_opens) !! 4 = Some (mkOpen 1 (str "b") 6 3 2 1) ∧
  (∀ k o, m_opens (run_demo demo_opens) !! k = Some o → clientConfirmed (run_demo demo_opens) (o_clientid o) = true) ∧
  (∀ k l, m_locks (run_demo demo_opens) !! k = Some l → clientConfirmed (run_demo demo_opens) (l_clientid l) = true).
Proof.
  split; [vm_compute; reflexivity|]. apply (nfs4_state_has_lease no_hash demo_opens). vm_compute; reflexivity.
Defined.

Lemma nfs4_handshake_witness :
  let '((c, cv), s1) := set_clientid no_hash (run_demo demo_locks) 8 (str "d") 0 [] [] 0 in
  ∃ s2, setclientid_confirm s1 c cv = Some s2 ∧ clientConfirmed s2 c = true ∧
    (set_clientid no_hash s2 8 (str "d") 1 [] [] 1).1 = (c, cv) ∧
    clientConfirmed (set_clientid no_hash s2 8 (str "d") 1 [] [] 1).2 c = true.
Proof. apply (nfs4_handshake no_hash demo_locks); vm_compute; reflexivity. Defined.

(** A second owner asks to write what the first denies writes to: refused;
    to read: granted. *)
Definition demo_shares : V4 := run_demo (demo_client (str "c") 7 1 ++ [EvOpen 1 (str "a") 5 1 2]).
Definition open_outcome (s : V4) (clientid : Z) (owner : bytes) (fileId access deny : Z) : Prop :=
  match open_state s clientid owner fileId access deny with
  | None => ∃ k o, m_opens s !! k = Some o ∧ o_fileId o = fileId ∧
      (Z.land access (o_deny o) ≠ 0 ∨ Z.land deny (o_access o) ≠ 0)
  | Some ((sq, id), s') =>
      (∀ k o, m_opens s !! k = Some o → o_fileId o = fileId →
         Z.land access (o_deny o) = 0 ∧ Z.land deny (o_access o) = 0) ∧
      sq = 1 ∧ id = m_nextState s ∧ m_opens s' = <[id := mkOpen clientid owner fileId access deny 1]> (m_opens s) ∧
      (share_ok (m_opens s) → share_ok (m_opens s'))
  end.
Lemma demo_shares_new (fileId : Z) k o : m_opens demo_shares !! k = Some o → ¬ open_of 1 (str "b") fileId o.
Proof.
  replace (m_opens demo_shares) with ({[1 := mkOpen 1 (str "a") 5 1 2 1]} : gmap Z OpenState) by (vm_compute; reflexivity).
  intros [<- <-]%lookup_singleton_Some (_ & _ & E). by vm_compute in E.
Qed.
Lemma nfs4_open_grants_witness :
  open_state demo_shares 1 (str "b") 5 2 0 = None ∧ open_outcome demo_shares 1 (str "b") 5 2 0 ∧
  is_Some (open_state demo_shares 1 (str "b") 5 1 0) ∧ open_outcome demo_shares 1 (str "b") 5 1 0.
Proof.
  split; [vm_compute; reflexivity|]. split; [apply (nfs4_open_grants demo_shares), demo_shares_new|].
  split; [vm_compute; by eexists|]. apply (nfs4_open_grants demo_shares), demo_shares_new.
Defined.
