(* ===== verification/Nfs4Safe.v ===== *)
(** * Nfs4Safe: the operations of a COMPOUND in the program logic

    [hoare4] lifts the logic of [NfsSteps] to programs that also carry file
    handles and client state: the handles stay in range, one operation moves
    the store by at most twelve in-range operations, and one the server runs
    under its shared lock by none. *)
From S2P Require Import Prelude Keys Kv NodeRec Spec Store Views Shape Inv Init Reads Di Content FsStat Host Xdr StoreProps Nfs3 NfsSteps NfsSafe Nfs4State Nfs4.
Local Open Scope Z_scope.
Set Warnings "-clear-no-such-hyp".

Definition id_ok (h : option (Z * Z)) : Prop := match h with Some (id, _) => in64 id | None => True end.
Definition fh_ok (v : S4) : Prop := id_ok (cfh (s4_fh v)) ∧ id_ok (sfh (s4_fh v)).

(** ** The logic *)

Section Logic.
Context {M : Type} `{!KvEngine M}.

Definition hoare4 {A} (k : Z) (p : Proc4 M A) (Φ : A → Prop) : Prop :=
  ∀ v, fh_ok v → hoare k (p v) (λ x, Φ x.1 ∧ fh_ok x.2).

Lemma hoare4_ret {A} k (x : A) (Φ : A → Prop) : 0 <= k → Φ x → hoare4 k (mret x) Φ.
Proof. intros ?? v Hv. by apply hoare_ret. Qed.
Lemma hoare4_bind {A B} k j (p : Proc4 M A) (f : A → Proc4 M B) Φ Ψ :
  hoare4 j p Φ → 0 <= j <= k → (∀ x, Φ x → hoare4 (k - j) (f x) Ψ) → hoare4 k (p ≫= f) Ψ.
Proof.
  intros Hp Hj Hf v Hv. eapply hoare_bind; [by apply Hp|done|]. intros [x v'] [Hx Hv']. by apply Hf.
Qed.
Lemma hoare4_weaken {A} k j (p : Proc4 M A) (Φ Ψ : A → Prop) :
  hoare4 j p Φ → j <= k → (∀ x, Φ x → Ψ x) → hoare4 k p Ψ.
Proof. intros Hp Hle HΦ v Hv. eapply hoare_weaken; [by apply Hp|done|]. intros x []. auto. Qed.
Lemma hoare4_if {A} k (b : bool) (p q : Proc4 M A) Φ : hoare4 k p Φ → hoare4 k q Φ → hoare4 k (if b then p else q) Φ.
Proof. by destruct b. Qed.
Lemma hoare4_lift {A} k (p : Proc M A) Φ : hoare k p Φ → 0 <= k → hoare4 k (lift p) Φ.
Proof.
  intros Hp Hk v Hv. unfold lift. eapply hoare_bind; [done|lia|]. intros x Hx. apply hoare_ret; [lia|done].
Qed.
Lemma hoare4_get4 {A} (f : S4 → A) (Φ : A → Prop) : (∀ v, fh_ok v → Φ (f v)) → hoare4 0 (get4 f) Φ.
Proof. intros Hf v Hv. apply hoare_ret; [lia|]. split; [by apply Hf|done]. Qed.
Lemma hoare4_get4_any {A} (f : S4 → A) : hoare4 0 (get4 f) anything.
Proof. by apply hoare4_get4. Qed.
Lemma hoare4_st4 {A} (f : V4 → A * V4) : hoare4 0 (st4 f) anything.
Proof. intros v Hv. unfold st4. destruct (f (s4_st v)). by apply hoare_ret. Qed.
Lemma hoare4_set_cfh h : id_ok h → hoare4 0 (set_cfh h) anything.
Proof. intros Hh v []. by apply hoare_ret. Qed.
Lemma hoare4_set_sfh h : id_ok h → hoare4 0 (set_sfh h) anything.
Proof. intros Hh v []. by apply hoare_ret. Qed.

(** ** Primitives *)

Lemma hoare4_fs {A} (f : Store M → A) (Φ : A → Prop) : hoare 0 (fs_get f) Φ → hoare4 0 (get_fs f) Φ.
Proof. intros. by apply hoare4_lift. Qed.
Lemma hoare4_op op : op_args op → hoare4 1 (op_fs op) anything.
Proof. intros. apply hoare4_lift; [by apply hoare_op|lia]. Qed.
Lemma hoare4_new op : op_args op → hoare4 1 (new_fs op) (λ h, in64 (h_id h)).
Proof. intros. apply hoare4_lift; [by apply hoare_new|lia]. Qed.
Lemma hoare4_read {A} (f : Reader → A * Reader) (Φ : A → Prop) : hoare 0 (rd f) Φ → hoare4 0 (read f) Φ.
Proof. intros. by apply hoare4_lift. Qed.
Lemma hoare4_read_any {A} (f : Reader → A * Reader) : hoare4 0 (read f) anything.
Proof. apply hoare4_read, hoare_rd_any. Qed.
Lemma hoare4_read_str : hoare4 0 read_str anything.
Proof. apply hoare4_lift; [apply hoare_str|lia]. Qed.
Lemma hoare4_skip k : hoare4 0 (skip_ k) anything.
Proof. apply hoare4_read_any. Qed.
Lemma hoare4_is_ok : hoare4 0 is_ok anything.
Proof. apply hoare4_lift; [apply hoare_is_ok|lia]. Qed.
Lemma hoare4_wr f : hoare4 0 (lift (wr f)) anything.
Proof. apply hoare4_lift; [apply hoare_wr|lia]. Qed.
Lemma hoare4_out f : hoare4 0 (out f) anything.
Proof. apply hoare4_wr. Qed.
Lemma hoare4_out_u32 x : hoare4 0 (out_u32 x) anything.
Proof. apply hoare4_wr. Qed.
Lemma hoare4_answer k st : 0 <= k → hoare4 k (answer st) anything.
Proof.
  intros Hk. unfold answer. eapply hoare4_bind; [apply hoare4_out_u32|lia|intros ? _]. apply hoare4_ret; [lia|done].
Qed.
Lemma hoare4_done k : 0 <= k → hoare4 k done_ anything.
Proof. intros. by apply hoare4_ret. Qed.
Lemma hoare4_reader : hoare4 0 get_reader anything.
Proof. apply hoare4_lift; [|lia]. apply hoare_pure. by intros s x s' _ [= <- <-]. Qed.
Lemma hoare4_put a n x : in64 (h_id n) → attr_ok a x → hoare4 1 (lift (put a n x)) anything.
Proof. intros. apply hoare4_lift; [by apply hoare_put|lia]. Qed.

Lemma hoare4_cur : hoare4 0 cur good_handle.
Proof.
  unfold cur. eapply hoare4_bind; [apply (hoare4_get4 _ id_ok); by intros v []|lia|].
  intros [[id snap]|] Hid; [|by apply hoare4_ret]. by apply hoare4_fs, hoare_nodeById.
Qed.
Lemma hoare4_with_cur k (K : Handle → Proc4 M Z) :
  0 <= k → (∀ n, in64 (h_id n) → hoare4 k (K n) anything) → hoare4 k (with_cur K) anything.
Proof.
  intros Hk HK. unfold with_cur. eapply hoare4_bind; [apply hoare4_cur|lia|]. rewrite Z.sub_0_r.
  intros [n|] Hn; [|by apply hoare4_answer]. apply HK. by apply Hn.
Qed.
Lemma hoare4_with_dir k (K : Handle → Proc4 M Z) :
  0 <= k → (∀ n, in64 (h_id n) → hoare4 k (K n) anything) → hoare4 k (with_dir K) anything.
Proof.
  intros Hk HK. unfold with_dir. eapply hoare4_bind; [apply hoare4_cur|lia|]. rewrite Z.sub_0_r.
  intros [n|] Hn; [|by apply hoare4_answer].
  eapply hoare4_bind; [apply hoare4_fs, hoare_get_any|lia|intros ty _]. rewrite Z.sub_0_r.
  apply hoare4_if; [by apply hoare4_answer|]. apply HK. by apply Hn.
Qed.
Lemma hoare4_with_access k sid n bit (K : Proc4 M Z) :
  0 <= k → hoare4 k K anything → hoare4 k (with_access sid n bit K) anything.
Proof.
  intros Hk HK. unfold with_access. eapply hoare4_bind; [apply hoare4_st4|lia|]. rewrite Z.sub_0_r.
  intros [acc|st] _; [|by apply hoare4_answer]. apply hoare4_if; [by apply hoare4_answer|done].
Qed.
Lemma hoare4_with_saved k (K : option Handle → option Handle → bool → bool → Proc4 M Z) :
  0 <= k → (∀ s c b b', good_handle s → good_handle c → hoare4 k (K s c b b') anything) →
  hoare4 k (with_saved K) anything.
Proof.
  intros Hk HK. unfold with_saved.
  eapply hoare4_bind; [apply (hoare4_get4 _ (λ hs, id_ok hs.1 ∧ id_ok hs.2)); by intros v []|lia|].
  rewrite Z.sub_0_r. intros [[[sid ssnap]|] [[cid csnap]|]] [Hs Hc]; try by apply hoare4_answer.
  eapply hoare4_bind; [by apply hoare4_fs, hoare_nodeById|lia|intros s Hsg].
  eapply hoare4_bind; [by apply hoare4_fs, hoare_nodeById|lia|intros c Hcg].
  rewrite !Z.sub_0_r. by apply HK.
Qed.
End Logic.

(** One step of an operation: its preambles, primitives and branches. *)
Ltac hoare4_prim :=
  lazymatch goal with
  | |- hoare4 _ (get_fs _) _ => apply hoare4_fs; first [solve [eauto 3 with hoare nocore] | apply hoare_get_any]
  | |- hoare4 _ (op_fs _) _ => apply hoare4_op; hoare_args
  | |- hoare4 _ (new_fs _) _ => apply hoare4_new; hoare_args
  | |- hoare4 _ (read _) _ => apply hoare4_read; first [solve [eauto 3 with hoare nocore] | apply hoare_rd_any]
  | |- hoare4 _ read_str _ => apply hoare4_read_str
  | |- hoare4 _ (skip_ _) _ => apply hoare4_skip
  | |- hoare4 _ is_ok _ => apply hoare4_is_ok
  | |- hoare4 _ (out _) _ => apply hoare4_out
  | |- hoare4 _ (out_u32 _) _ => apply hoare4_out_u32
  | |- hoare4 _ get_reader _ => apply hoare4_reader
  | |- hoare4 _ (st4 _) _ => apply hoare4_st4
  | |- hoare4 _ (get4 _) _ => apply hoare4_get4_any
  | |- hoare4 _ cur _ => apply hoare4_cur
  | |- hoare4 _ cur_live _ => apply hoare4_get4_any
  | |- hoare4 _ (set_cfh _) _ => apply hoare4_set_cfh; hoare_args
  | |- hoare4 _ (set_sfh _) _ => apply hoare4_set_sfh; hoare_args
  | |- hoare4 _ (lift (wr _)) _ => apply hoare4_wr
  | |- hoare4 _ (lift _) _ => apply hoare4_lift; [solve [eauto 3 with hoare nocore]|lia]
  | |- hoare4 _ _ _ => solve [eauto 3 with hoare nocore]
  end.
Ltac hoare4_go1 :=
  lazymatch goal with
  | |- hoare4 _ (mret _) _ => apply hoare4_ret; [lia|first [done | exact I]]
  | |- hoare4 _ (answer _) _ => apply hoare4_answer; lia
  | |- hoare4 _ done_ _ => apply hoare4_done; lia
  | |- hoare4 _ (with_cur _) _ => apply hoare4_with_cur; [lia|intros ?n ?]
  | |- hoare4 _ (with_dir _) _ => apply hoare4_with_dir; [lia|intros ?n ?]
  | |- hoare4 _ (with_access _ _ _ _) _ => apply hoare4_with_access; [lia|]
  | |- hoare4 _ (with_saved _) _ => apply hoare4_with_saved; [lia|intros ?s ?c ?b ?b ? ?]
  | |- hoare4 _ (mbind _ _) _ => eapply hoare4_bind; [hoare4_prim|lia|intros ? ?]
  | |- hoare4 _ (let x := _ in _) _ => cbv zeta
  | |- hoare4 _ (match ?x with _ => _ end) _ => destruct x eqn:?
  | |- hoare4 _ _ _ => eapply hoare4_weaken; [hoare4_prim|lia|done]
  end.
Ltac hoare4_go := repeat hoare4_go1.

(** ** Attributes *)

Section Attributes.
Context {M : Type} `{!KvEngine M}.
Implicit Types (n dir : Handle).

(** What one attribute costs, and all of a bitmap together. *)
Definition attr_cost (b : Z) : Z :=
  if bool_decide (b ∈ [FA_SIZE; FA_MODE; FA_OWNER; FA_OWNER_GROUP]) then 1
  else if bool_decide (b ∈ [FA_TIME_ACCESS_SET; FA_TIME_MODIFY_SET]) then 2 else 0.
Definition bits_cost (bits : list Z) : Z := foldr (λ b k, attr_cost b + k) 0 bits.
Lemma attr_cost_nonneg b : 0 <= attr_cost b.
Proof. unfold attr_cost. repeat case_bool_decide; lia. Qed.
Lemma bits_cost_nonneg bits : 0 <= bits_cost bits.
Proof. induction bits as [|b bits IH]; simpl; [done|]. pose proof (attr_cost_nonneg b). lia. Qed.
Lemma bitmap_cost (k : nat) : (k <= 16)%nat → bits_cost (seqZ 0 (Z.of_nat k * 32)) <= 8.
Proof. intros Hk. do 17 (destruct k as [|k]; [by vm_compute|]). lia. Qed.

Lemma hoare_apply_attr n b : in64 (h_id n) → hoare (M:=M) (attr_cost b) (apply_attr n b) anything.
Proof.
  intros Hn. unfold apply_attr.
  destruct (Z.eqb_spec b FA_SIZE) as [-> |N1]; [change (attr_cost FA_SIZE) with 1; by hoare_go|].
  destruct (Z.eqb_spec b FA_MODE) as [-> |N2].
  { change (attr_cost FA_MODE) with 1. hoare_step. eapply hoare_bind; [apply hoare_put; [done|]|lia|intros ? _; hoare_go].
    change 0xFFF with (Z.ones 12). rewrite Z.land_ones by lia. pose proof (Z.mod_pos_bound x (2 ^ 12) ltac:(lia)). simpl. word_lia. }
  destruct (Z.eqb_spec b FA_OWNER) as [-> |N3].
  { change (attr_cost FA_OWNER) with 1. hoare_step. eapply hoare_bind; [apply hoare_put; [done|apply u32_range]|lia|intros ? _; hoare_go]. }
  destruct (Z.eqb_spec b FA_OWNER_GROUP) as [-> |N4].
  { change (attr_cost FA_OWNER_GROUP) with 1. hoare_step. eapply hoare_bind; [apply hoare_put; [done|apply u32_range]|lia|intros ? _; hoare_go]. }
  unfold attr_cost. rewrite bool_decide_false by (rewrite !elem_of_cons, elem_of_nil; tauto).
  destruct ((b =? FA_TIME_ACCESS_SET) || (b =? FA_TIME_MODIFY_SET)) eqn:E.
  - rewrite bool_decide_true by (rewrite orb_true_iff, !Z.eqb_eq in E; rewrite !elem_of_cons; tauto).
    hoare_step. hoare_step.
    eapply (hoare_bind _ 0 _ _ (λ t, in64 t.1 ∧ in32 t.2)); [|lia|intros [sec ns] [? ?]].
    + apply hoare_if; [|by apply hoare_ret]. do 2 hoare_step. apply hoare_ret; [lia|]. done.
    + rewrite !Z.sub_0_r. apply hoare_if;
        (eapply hoare_bind; [apply hoare_put; [done|by cbn]|lia|intros ? _]);
        (eapply hoare_bind; [apply hoare_put; [done|by cbn]|lia|intros ? _]); hoare_go.
  - rewrite bool_decide_false; [by hoare_step|].
    rewrite orb_false_iff, !Z.eqb_neq in E. rewrite !elem_of_cons, elem_of_nil. tauto.
Qed.
Lemma hoare_apply_bits bm n bits : in64 (h_id n) → hoare (M:=M) (bits_cost bits) (apply_bits bm n bits) anything.
Proof.
  intros Hn. induction bits as [|b bits IH]; cbn [apply_bits bits_cost foldr]; [hoare_go|]. fold (bits_cost bits).
  pose proof (attr_cost_nonneg b). pose proof (bits_cost_nonneg bits). apply hoare_if.
  - eapply hoare_weaken; [done|lia|done].
  - eapply hoare_bind; [by apply hoare_apply_attr|lia|].
    replace (attr_cost b + bits_cost bits - attr_cost b) with (bits_cost bits) by lia.
    intros [[]|] _; [done|by apply hoare_ret].
Qed.
Lemma length_r_words k r : length (r_words k r).1 = k.
Proof.
  revert r. induction k as [|k IH]; intros r; [done|]. simpl. destruct (r_u32 r) as [x r1]. specialize (IH r1).
  destruct (r_words k r1). simpl in *. by f_equal.
Qed.
Lemma length_r_bitmap r : (length (r_bitmap r).1 <= 16)%nat.
Proof.
  unfold r_bitmap. destruct (r_u32 r) as [cnt r']. destruct (Z.ltb_spec 16 cnt); simpl; [lia|].
  rewrite length_r_words. lia.
Qed.
Lemma hoare_applyFattr4 n : in64 (h_id n) → hoare (M:=M) 8 (applyFattr4 n) anything.
Proof.
  intros Hn. unfold applyFattr4.
  eapply (hoare_bind _ 0 _ _ (λ bm : list Z, (length bm <= 16)%nat));
    [apply hoare_rd; intros r; apply length_r_bitmap|lia|intros bm Hbm].
  hoare_step. eapply hoare_weaken; [by apply hoare_apply_bits| |done]. pose proof (bitmap_cost _ Hbm). lia.
Qed.
Lemma hoare_with_reader {A} k r (p : Proc M A) Φ : hoare k p Φ → hoare k (with_reader r p) Φ.
Proof.
  intros Hp s x s' I Hr. unfold with_reader. destruct (p _) as [[y s1]|] eqn:E; [|done]. intros [= <- <-].
  by apply (Hp (mkNs (ns_fs s) r (ns_out s) (ns_ck s)) _ _ I Hr E).
Qed.
Lemma hoare4_touchDir4 dir : in64 (h_id dir) → hoare4 (M:=M) 2 (touchDir4 dir) anything.
Proof. intros. unfold touchDir4. hoare4_go. Qed.
Lemma hoare4_skip_fattr : hoare4 (M:=M) 0 skip_fattr anything.
Proof. unfold skip_fattr. hoare4_go. Qed.
Lemma hoare4_out_fattr req n : hoare4 (M:=M) 0 (out_fattr req n) anything.
Proof. unfold out_fattr. hoare4_go. Qed.
Lemma hoare4_out_change before dir : hoare4 (M:=M) 0 (out_change before dir) anything.
Proof. unfold out_change. hoare4_go. Qed.

Lemma hoare_page_entries4 req mx budget ents : hoare (M:=M) 0 (page_entries4 req mx budget ents) anything.
Proof.
  revert budget. induction ents as [|e ents IH]; intros budget; simpl; [by hoare_step|].
  hoare_step. apply hoare_if; [by hoare_step|]. do 3 hoare_step. apply IH.
Qed.
Lemma hoare_page_loop4 fuel dir req mx budget after : hoare (M:=M) 0 (page_loop4 fuel dir req mx budget after) anything.
Proof.
  revert budget after. induction fuel as [|fuel IH]; intros budget after; [by intros ???|]. simpl.
  hoare_step. eapply hoare_bind; [apply hoare_page_entries4|lia|intros [b|] _; [|by hoare_step]].
  apply hoare_if; [by hoare_step|apply IH].
Qed.
End Attributes.
#[export] Hint Resolve hoare_applyFattr4 hoare4_touchDir4 hoare4_skip_fattr hoare4_out_fattr hoare4_out_change
  hoare_page_loop4 hoare4_put : hoare.

(** ** The operations *)

Section Operations.
Context {M : Type} `{!KvEngine M} `{!MapOrder}.
Context (reg : Registry Provider) (s_provider : bytes) (hash : bytes → Z).

Lemma parents_in64 (fs : Store M) (dir : Handle) : Forall (λ h, in64 (h_id h)) (parents fs dir).
Proof.
  unfold parents. destruct (loadNode _ _ _) as [r|]; [|done]. apply Forall_fmap. unfold compose. cbn [h_id].
  generalize (scan (sub (m_kv fs) UpLinks) (be (h_id dir) ++ be (r_up r))).*1 as ks. generalize (∅ : gset Z).
  intros seen ks. revert seen. induction ks as [|k ks IH]; intros seen; simpl; [done|].
  case_decide; [apply IH|]. constructor; [apply rdbe_range|apply IH].
Qed.
Lemma hoare4_opLookup parent : hoare4 (M:=M) 0 (opLookup parent) anything.
Proof.
  unfold opLookup. eapply hoare4_bind; [apply hoare4_cur|lia|intros dir Hdir].
  eapply (hoare4_bind _ 0 _ _ anything); [apply hoare4_if; hoare4_go|lia|intros name _].
  destruct dir as [dir|]; [|hoare4_go]. specialize (Hdir dir eq_refl). hoare4_go1. hoare4_go1; [hoare4_go|].
  eapply (hoare4_bind _ 0 _ _ good_handle); [|lia|intros [c|] Hc; [specialize (Hc c eq_refl)|]; hoare4_go].
  apply hoare4_if; [|by apply hoare4_fs, hoare_lookup].
  eapply (hoare4_bind _ 0 _ _ (Forall (λ h, in64 (h_id h)))); [apply hoare4_fs, hoare_get|lia|].
  - intros fs _. apply parents_in64.
  - intros ps Hps. apply hoare4_ret; [lia|]. intros h [= <-]. by destruct Hps.
Qed.
Lemma hoare4_opAccess : hoare4 (M:=M) 0 opAccess anything.
Proof. unfold opAccess. hoare4_go. Qed.
Lemma hoare4_opGetattr : hoare4 (M:=M) 0 opGetattr anything.
Proof. unfold opGetattr. hoare4_go. Qed.
Lemma hoare4_opReadlink : hoare4 (M:=M) 0 opReadlink anything.
Proof. unfold opReadlink. hoare4_go. Qed.
Lemma hoare4_opRead : hoare4 (M:=M) 0 (opRead reg s_provider) anything.
Proof. unfold opRead. hoare4_go. Qed.
Lemma hoare4_opReaddir : hoare4 (M:=M) 0 opReaddir anything.
Proof.
  unfold opReaddir. hoare4_go.
  eapply (hoare4_bind _ 0 _ _ anything); [apply hoare4_if; hoare4_go|lia|intros ? _]. hoare4_go.
Qed.

Lemma hoare4_open_how : hoare4 (M:=M) 0 open_how anything.
Proof. unfold open_how. hoare4_go. Qed.
Definition good_node (r : Z + Handle * bool) : Prop := match r with inr (c, _) => in64 (h_id c) | inl _ => True end.
Lemma hoare4_open_node dir name opentype createmode attrs :
  in64 (h_id dir) → hoare4 (M:=M) 12 (open_node dir name opentype createmode attrs) good_node.
Proof.
  intros Hd. unfold open_node. eapply hoare4_bind; [by apply hoare4_fs, hoare_lookup|lia|intros [child|] Hc].
  - specialize (Hc child eq_refl). apply hoare4_if; by apply hoare4_ret.
  - apply hoare4_if; [by apply hoare4_ret|]. hoare4_go1. hoare4_go1. apply hoare4_if; [by apply hoare4_ret|].
    eapply (hoare4_bind _ 8 _ _ anything); [destruct attrs|lia|intros ? _].
    + apply hoare4_lift; [by apply hoare_with_reader, hoare_applyFattr4|lia].
    + hoare4_go.
    + hoare4_go1. by apply hoare4_ret.
Qed.
Lemma hoare4_open_node_ro dir name opentype createmode attrs :
  in64 (h_id dir) → (opentype =? OPEN4_CREATE) = false →
  hoare4 (M:=M) 0 (open_node dir name opentype createmode attrs) good_node.
Proof.
  intros Hd Ho. unfold open_node. rewrite Ho. eapply hoare4_bind; [by apply hoare4_fs, hoare_lookup|lia|intros [child|] Hc].
  - specialize (Hc child eq_refl). by apply hoare4_ret.
  - by apply hoare4_ret.
Qed.
Lemma hoare4_open_grant access deny clientid owner dir before child created :
  in64 (h_id child) → hoare4 (M:=M) 0 (open_grant access deny clientid owner dir before child created) anything.
Proof.
  intros Hc. unfold open_grant. hoare4_go. 
  all: eapply (hoare4_bind _ 0 _ _ anything); [apply hoare4_if; hoare4_go|lia|intros ? _]; hoare4_go.
Qed.
Lemma hoare4_opOpen : hoare4 (M:=M) 12 opOpen anything.
Proof.
  unfold opOpen. do 6 hoare4_go1. hoare4_go1; [hoare4_go|].
  eapply hoare4_bind; [apply hoare4_open_how|lia|intros [[opentype createmode] attrs] _].
  hoare4_go1. hoare4_go1; [hoare4_go|]. hoare4_go1. hoare4_go1. hoare4_go1; [hoare4_go|]. hoare4_go1. hoare4_go1.
  hoare4_go1; [hoare4_go|]. hoare4_go1. eapply hoare4_bind; [by apply hoare4_open_node|lia|].
  intros [st|[child created]] Hc; [hoare4_go|]. eapply hoare4_weaken; [by apply hoare4_open_grant|lia|done].
Qed.
Lemma hoare4_opClose : hoare4 (M:=M) 0 opClose anything.
Proof. unfold opClose. hoare4_go. Qed.
Lemma hoare4_opOpenConfirm : hoare4 (M:=M) 0 opOpenConfirm anything.
Proof. unfold opOpenConfirm. hoare4_go. Qed.
Lemma hoare4_opOpenDowngrade : hoare4 (M:=M) 0 opOpenDowngrade anything.
Proof. unfold opOpenDowngrade. hoare4_go. Qed.
Lemma hoare4_opLock : hoare4 (M:=M) 0 opLock anything.
Proof.
  unfold opLock. do 5 hoare4_go1. eapply (hoare4_bind _ 0 _ _ anything); [apply hoare4_if; hoare4_go|lia|intros ? _].
  hoare4_go.
Qed.
Lemma hoare4_opLockt : hoare4 (M:=M) 0 opLockt anything.
Proof. unfold opLockt. hoare4_go. Qed.
Lemma hoare4_opLocku : hoare4 (M:=M) 0 opLocku anything.
Proof. unfold opLocku. hoare4_go. Qed.
Lemma hoare4_opReleaseLockowner : hoare4 (M:=M) 0 opReleaseLockowner anything.
Proof. unfold opReleaseLockowner. hoare4_go. Qed.
Lemma hoare4_opSetClientid : hoare4 (M:=M) 0 (opSetClientid hash) anything.
Proof. unfold opSetClientid. hoare4_go. Qed.
Lemma hoare4_opSetClientidConfirm : hoare4 (M:=M) 0 opSetClientidConfirm anything.
Proof. unfold opSetClientidConfirm. hoare4_go. Qed.
Lemma hoare4_opRenew : hoare4 (M:=M) 0 opRenew anything.
Proof. unfold opRenew. hoare4_go. Qed.

Lemma hoare4_opWrite : hoare4 (M:=M) 3 opWrite anything.
Proof.
  unfold opWrite. hoare4_go.
  eapply hoare4_bind; [apply hoare4_op; split; [done|by apply mixSeed_in64]|lia|intros ? _]. hoare4_go1.
  eapply (hoare4_bind _ 1 _ _ anything); [|lia|intros ? _; hoare4_go].
  apply hoare4_if; [|hoare4_go]. apply hoare4_put; [done|apply u64_range].
Qed.
Lemma hoare4_opSetattr : hoare4 (M:=M) 9 opSetattr anything.
Proof.
  unfold opSetattr. hoare4_go. eapply (hoare4_bind _ 1 _ _ anything); [apply hoare4_if; hoare4_go|lia|intros ? _]. hoare4_go.
Qed.
Lemma hoare4_opCreate : hoare4 (M:=M) 12 opCreate anything.
Proof.
  unfold opCreate. hoare4_go1.
  eapply (hoare4_bind _ 0 _ _ anything); [apply hoare4_if; hoare4_go|lia|intros linkdata _].
  eapply (hoare4_bind _ 0 _ _ (λ d, in32 d.1 ∧ in32 d.2)); [|lia|intros [maj min] [Hmaj Hmin]].
  { apply hoare4_if; [|by apply hoare4_ret]. do 2 hoare4_go1. by apply hoare4_ret. }
  do 4 hoare4_go1; [hoare4_go|]. destruct (create_op x linkdata maj min) as [e|] eqn:He; [|hoare4_go].
  assert (op_args e) as Hargs by (unfold create_op in He; repeat case_match; by simplify_eq/=).
  eapply hoare4_bind; [by apply hoare4_new|lia|intros child Hchild]. hoare4_go.
Qed.
Lemma hoare4_opRemove : hoare4 (M:=M) 3 opRemove anything.
Proof. unfold opRemove. hoare4_go. Qed.
Lemma hoare4_opRename : hoare4 (M:=M) 5 opRename anything.
Proof. unfold opRename. hoare4_go. Qed.
Lemma hoare4_opLink : hoare4 (M:=M) 3 opLink anything.
Proof. unfold opLink. hoare4_go. Qed.
Lemma hoare4_opPutrootfh : hoare4 (M:=M) 0 opPutrootfh anything.
Proof.
  unfold opPutrootfh. eapply (hoare4_bind _ 0 _ _ (λ h, in64 (h_id h))).
  - apply hoare4_fs, hoare_get. intros fs I. simpl. by rewrite (i_root _ I).
  - lia.
  - intros root Hroot. hoare4_go.
Qed.
End Operations.
#[export] Hint Resolve hoare4_opLookup hoare4_opAccess hoare4_opGetattr hoare4_opReadlink hoare4_opRead hoare4_opReaddir
  hoare4_opOpen hoare4_opClose hoare4_opOpenConfirm hoare4_opOpenDowngrade hoare4_opLock hoare4_opLockt hoare4_opLocku
  hoare4_opReleaseLockowner hoare4_opSetClientid hoare4_opSetClientidConfirm hoare4_opRenew hoare4_opWrite
  hoare4_opSetattr hoare4_opCreate hoare4_opRemove hoare4_opRename hoare4_opLink hoare4_opPutrootfh : hoare.

(** ** COMPOUND *)

Section Compound.
Context {M : Type} `{!KvEngine M} `{!MapOrder}.
Context (reg : Registry Provider) (s_provider : bytes) (hash : bytes → Z).

Lemma r4_fh_ok r : id_ok (r4_fh r).1.
Proof.
  unfold r4_fh. destruct (r_u32 r) as [len r0]. case_match; [done|].
  pose proof (r_u64_in64 r0) as Hid. destruct (r_u64 r0) as [id r1]. by destruct (r_u64 r1).
Qed.
Lemma hoare4_putfh : hoare4 (M:=M) 0 (read r4_fh) id_ok.
Proof. apply hoare4_read, hoare_rd, r4_fh_ok. Qed.
Lemma hoare4_get_cfh : hoare4 (M:=M) 0 (get4 (λ v, cfh (s4_fh v))) id_ok.
Proof. apply hoare4_get4. by intros v []. Qed.
Lemma hoare4_get_sfh : hoare4 (M:=M) 0 (get4 (λ v, sfh (s4_fh v))) id_ok.
Proof. apply hoare4_get4. by intros v []. Qed.

(** The operations that only move file handles. *)
Ltac hoare4_fh L := eapply hoare4_bind; [apply L|lia|intros [[id snap]|] ?; hoare4_go].
Lemma hoare4_doOp op : hoare4 (M:=M) 12 (doOp reg s_provider hash op) anything.
Proof.
  unfold doOp. hoare4_go1. rewrite Z.sub_0_r. repeat case_match;
    lazymatch goal with
    | |- hoare4 _ (mbind _ (read r4_fh)) _ => hoare4_fh hoare4_putfh
    | |- hoare4 _ (mbind _ (get4 (λ v, cfh (s4_fh v)))) _ => hoare4_fh hoare4_get_cfh
    | |- hoare4 _ (mbind _ (get4 (λ v, sfh (s4_fh v)))) _ => hoare4_fh hoare4_get_sfh
    | _ => hoare4_go
    end.
Qed.
Lemma hoare4_doOp_ro op :
  isMutating4 op = false → hoare4 (M:=M) 0 (doOp reg s_provider hash op) anything.
Proof.
  intros Hm. unfold doOp. hoare4_go1. rewrite Z.sub_0_r. repeat case_match;
    lazymatch goal with
    | |- hoare4 _ (mbind _ (read r4_fh)) _ => hoare4_fh hoare4_putfh
    | |- hoare4 _ (mbind _ (get4 (λ v, cfh (s4_fh v)))) _ => hoare4_fh hoare4_get_cfh
    | |- hoare4 _ (mbind _ (get4 (λ v, sfh (s4_fh v)))) _ => hoare4_fh hoare4_get_sfh
    | _ => first [by vm_compute in Hm | hoare4_go]
    end.
Qed.
Lemma hoare4_compound_loop nops last done :
  hoare4 (M:=M) (12 * Z.of_nat nops) (compound_loop reg s_provider hash nops last done) anything.
Proof.
  revert last done. induction nops as [|nops IH]; intros last done; cbn [compound_loop]; [hoare4_go|].
  hoare4_go1. apply hoare4_if; [hoare4_go|]. hoare4_go1.
  eapply hoare4_bind; [apply hoare4_doOp|lia|intros st _]. apply hoare4_if; [hoare4_go|].
  eapply hoare4_weaken; [apply IH|lia|done].
Qed.
(** No COMPOUND runs more than 4096 operations. *)
Definition MAX_STEPS : Z := 12 * 4096.
Lemma hoare4_compound : hoare4 (M:=M) MAX_STEPS (compound reg s_provider hash) anything.
Proof.
  intros v Hv. unfold compound, MAX_STEPS. do 4 hoare_step. destruct (_ || _) eqn:E; [by apply hoare_ret|].
  apply orb_false_iff in E as [_ E%Z.ltb_ge].
  eapply (hoare_bind _ (12 * 4096) _ _ (λ x, fh_ok x.2)); [|lia|].
  - eapply hoare_weaken; [apply hoare4_compound_loop; done| |by intros ? []].
    match goal with H : in32 ?x |- context [Z.to_nat ?x] => pose proof H end. rewrite Z2Nat.id by word_lia. lia.
  - intros [ld v'] Hv'. hoare_step.
    eapply (hoare_bind _ 0 _ _ anything); [apply hoare_pure; by intros s x' s' _ [= <- <-]|lia|intros res _].
    apply hoare_ret; [lia|done].
Qed.
End Compound.
