(* ===== verification/Nfs4Props.v ===== *)
(** * Nfs4Props: what the NFSv4 front-end guarantees of the store

    Safety of a session, read-only operations and snapshots, and the stateid
    that WRITE needs. *)
From S2P Require Import Prelude Keys Kv NodeRec Spec Store Views Shape Inv Init Reads Di Content FsStat Host Xdr StoreProps Nfs3 NfsSteps NfsSafe NfsPages NfsProps Nfs4State Nfs4 Nfs4Safe.
Local Open Scope Z_scope.
Set Warnings "-clear-no-such-hyp".

(** ** Runs, taken apart *)

Section Runs.
Context {M : Type}.
Lemma bind4_Some {A B} (p : Proc4 M A) (f : A → Proc4 M B) v s r :
  (p ≫= f) v s = Some r → ∃ x v1 s1, p v s = Some ((x, v1), s1) ∧ f x v1 s1 = Some r.
Proof.
  unfold mbind, proc4_bind, mbind, proc_bind. destruct (p v s) as [[[x v1] s1]|]; [|done]. by exists x, v1, s1.
Qed.
Lemma lift_Some {A} (p : Proc M A) v s x v1 s1 :
  lift p v s = Some ((x, v1), s1) → v1 = v ∧ p s = Some (x, s1).
Proof.
  unfold lift, mbind, proc_bind, mret, proc_ret. destruct (p s) as [[y s2]|]; [|done]. by intros [= <- <- <-].
Qed.
End Runs.

(** ** Safety of COMPOUND *)

Section Safety.
Context {M : Type} `{!KvEngine M} `{!MapOrder}.
Context (reg : Registry Provider) (prov : bytes) (hash : bytes → Z).
Implicit Types (st : Store M) (s : NState M) (v : S4).

Lemma reply4_steps st ck w msg frame st' ck' w' :
  inv st → room MAX_STEPS st →
  reply4 reg prov hash st ck w msg = Some (frame, st', ck', w') → steps MAX_STEPS st st'.
Proof.
  intros I Hr. unfold reply4. repeat (destruct (r_u32 _) as [? ?]).
  destruct (_ || _); [intros [= _ <- _ _]; by apply steps_refl|].
  destruct (_ =? 0); [intros [= _ <- _ _]; by apply steps_refl|].
  destruct (_ =? 1); [|intros [= _ <- _ _]; by apply steps_refl].
  destruct (compound _ _ _ _ _) as [[[body v] s]|] eqn:Hc; [|done]. intros [= _ <- _ _].
  by apply (hoare4_compound reg prov hash (mkS4 Cfh0 w) (conj Logic.I Logic.I)) in Hc as [_ Hc].
Qed.

Lemma nfs4_session_steps st ck w mark msg o st' ck' w' :
  reachable_from fresh_store st → room MAX_STEPS st →
  session_step4 reg prov hash st ck w mark msg = Some (o, st', ck', w') → steps MAX_STEPS st st'.
Proof.
  intros R Hr Hs. pose proof (inv_reachable _ R) as I.
  revert Hs. unfold session_step4. case_match; [intros [= _ <- _ _]; by apply steps_refl|].
  destruct (reply4 _ _ _ _ _ _ _) as [[[[frame fs] ck1] w1]|] eqn:E; [|done]. intros [= _ <- _ _]. by eapply reply4_steps.
Qed.

(** Safety of the wire, NFSv4: whatever a client sends, one message moves
    a reachable store with room by at most twelve operations for each of the
    at most 4096 of a COMPOUND, each within its precondition, so the store
    stays reachable, and no snapshot reads differently afterwards. *)
Theorem nfs4_session_safe st ck w mark msg o st' ck' w' :
  reachable_from fresh_store st → room MAX_STEPS st →
  session_step4 reg prov hash st ck w mark msg = Some (o, st', ck', w') →
  steps MAX_STEPS st st' ∧ reachable_from fresh_store st' ∧
  ∀ h n, in64 (h_id h) → isSnapDir (h_id h) = false → 1 <= h_snap h < m_cur st →
    observe st' h = observe st h ∧ lookup_ st' h n = lookup_ st h n.
Proof.
  intros R Hr Hs. pose proof (inv_reachable _ R) as I. pose proof (nfs4_session_steps _ _ _ _ _ _ _ _ _ R Hr Hs) as HS.
  split; [done|]. split; [by eapply reachable_run_steps|intros; by eapply steps_sealed].
Qed.

(** What the server runs under its shared lock does not write: every
    operation outside the mutating set leaves the store exactly as it was. *)
Theorem nfs4_readers_do_not_write op v s rc v' s' :
  reachable_from fresh_store (ns_fs s) → fh_ok v → isMutating4 op = false →
  doOp reg prov hash op v s = Some ((rc, v'), s') → ns_fs s' = ns_fs s.
Proof.
  intros R%inv_reachable Hv Hro Hd.
  destruct (hoare4_doOp_ro reg prov hash op Hro v Hv _ _ _ R (room_0 _ R) Hd) as [_ H']. by apply steps_0.
Qed.

(** *** Snapshots *)

(** A program that leaves handles and client state alone, and one that leaves
    the store alone when the current handle names a snapshot. *)
Definition look {A} (p : Proc4 M A) (Φ : A → Prop) : Prop :=
  ∀ v, fh_ok v → hoare 0 (p v) (λ x, Φ x.1 ∧ x.2 = v).
Definition snap_fh v : Prop := ∃ id snap, cfh (s4_fh v) = Some (id, snap) ∧ snap ≠ LATEST.
Definition frozen {A} (p : Proc4 M A) : Prop := ∀ v, fh_ok v → snap_fh v → hoare 0 (p v) anything.

Lemma look_lift {A} (p : Proc M A) Φ : hoare 0 p Φ → look (lift p) Φ.
Proof. intros Hp v Hv. unfold lift. eapply hoare_bind; [done|lia|]. intros x Hx. by apply hoare_ret. Qed.
Lemma look_check {A} (f : V4 → A) : look (st4 (λ w, (f w, w))) anything.
Proof. intros v Hv. unfold st4. apply hoare_ret; [lia|]. by destruct v. Qed.
Lemma look_ret {A} (x : A) : look (mret x) anything.
Proof. intros v Hv. by apply hoare_ret. Qed.
Lemma look_if {A} (b : bool) (p q : Proc4 M A) Φ : look p Φ → look q Φ → look (if b then p else q) Φ.
Proof. by destruct b. Qed.
Lemma look_bind {A B} (p : Proc4 M A) (f : A → Proc4 M B) Φ Ψ :
  look p Φ → (∀ x, Φ x → look (f x) Ψ) → look (p ≫= f) Ψ.
Proof.
  intros Hp Hf v Hv. eapply hoare_bind; [by apply Hp|lia|]. intros [x v'] [Hx E]. simpl in *. subst v'. by apply Hf.
Qed.
Lemma look_cur : look cur good_handle.
Proof.
  intros v Hv. unfold cur. unfold get4, mbind, proc4_bind. change (hoare 0 (mret (cfh (s4_fh v), v) ≫= λ '(h, v),
    (match h with Some (id, snap) => get_fs (λ fs, nodeById fs id snap) | None => mret None end) v) (λ x, good_handle x.1 ∧ x.2 = v)).
  eapply (hoare_bind _ 0 _ _ (λ x, x = (cfh (s4_fh v), v))); [by apply hoare_ret|lia|]. intros ? ->.
  pose proof (proj1 Hv) as Hid. destruct (cfh (s4_fh v)) as [[id snap]|]; [|by apply hoare_ret].
  apply look_lift; [by apply hoare_nodeById|done].
Qed.
Lemma frozen_bind {A B} (p : Proc4 M A) (f : A → Proc4 M B) Φ :
  look p Φ → (∀ x, Φ x → frozen (f x)) → frozen (p ≫= f).
Proof.
  intros Hp Hf v Hv Hs. eapply hoare_bind; [by apply Hp|lia|]. intros [x v'] [Hx E]. simpl in *. subst v'. by apply Hf.
Qed.
Lemma frozen_live {A} (K : bool → Proc4 M A) : frozen (K false) → frozen (cur_live ≫= K).
Proof.
  intros HK v Hv Hs. pose proof Hs as (id & snap & E & Hsnap). unfold cur_live, get4, mbind, proc4_bind.
  eapply (hoare_bind _ 0 _ _ (λ x, x = (false, v))); [|lia|intros ? ->; by apply HK].
  apply hoare_ret; [lia|]. rewrite E. unfold Nfs3.live. by rewrite (proj2 (Z.eqb_neq _ _) Hsnap).
Qed.
Lemma frozen_readonly {A} (p : Proc4 M A) : hoare4 0 p anything → frozen p.
Proof. intros Hp v Hv _. eapply hoare_weaken; [by apply Hp|lia|done]. Qed.
Lemma frozen_if {A} (b : bool) (p q : Proc4 M A) : frozen p → frozen q → frozen (if b then p else q).
Proof. by destruct b. Qed.
Lemma frozen_with_cur (K : Handle → Proc4 M Z) : (∀ n, in64 (h_id n) → frozen (K n)) → frozen (with_cur K).
Proof.
  intros HK. unfold with_cur. eapply frozen_bind; [apply look_cur|]. intros [n|] Hn; [apply HK; by apply Hn|].
  apply frozen_readonly. hoare4_go.
Qed.
Lemma frozen_with_dir (K : Handle → Proc4 M Z) : (∀ n, in64 (h_id n) → frozen (K n)) → frozen (with_dir K).
Proof.
  intros HK. unfold with_dir. eapply frozen_bind; [apply look_cur|]. intros [n|] Hn.
  - eapply frozen_bind; [apply look_lift, hoare_get_any|]. intros ty _.
    apply frozen_if; [apply frozen_readonly; hoare4_go|]. apply HK. by apply Hn.
  - apply frozen_readonly. hoare4_go.
Qed.
Lemma frozen_with_saved (K : option Handle → option Handle → bool → bool → Proc4 M Z) :
  (∀ sn cn slive, good_handle sn → good_handle cn → frozen (K sn cn slive false)) → frozen (with_saved K).
Proof.
  intros HK v Hv Hs. pose proof Hs as (id & snap & E & Hsnap). unfold with_saved, get4. unfold mbind at 1, proc4_bind at 1.
  eapply (hoare_bind _ 0 _ _ (λ x, x = ((sfh (s4_fh v), cfh (s4_fh v)), v))); [by apply hoare_ret|lia|intros ? ->].
  rewrite E. pose proof Hv as [Hid Hsid]. rewrite E in Hid. destruct (sfh (s4_fh v)) as [[sid ssnap]|].
  - assert (Nfs3.live snap = false) as -> by by apply Z.eqb_neq.
    eapply (frozen_bind (get_fs (λ fs, nodeById fs sid ssnap))); [by apply look_lift, hoare_nodeById| |done|done].
    intros sn Hsn. eapply frozen_bind; [by apply look_lift, hoare_nodeById|]. intros cn Hcn. by apply HK.
  - eapply hoare_weaken; [apply (hoare4_answer 0); [done|exact Hv]|lia|done].
Qed.

Lemma look_open_how : look open_how anything.
Proof.
  unfold open_how. eapply look_bind; [apply look_lift, hoare_rd_any|intros opentype _].
  apply look_if; [|apply look_ret]. eapply look_bind; [apply look_lift, hoare_rd_any|intros mode _]. apply look_if.
  - eapply look_bind; [apply look_lift, hoare_rd_any|intros ? _; apply look_ret].
  - eapply (look_bind _ _ anything); [apply look_lift, hoare_pure; by intros s y s' _ [= <- <-]|intros r _].
    eapply look_bind; [unfold skip_fattr|intros ? _; apply look_ret].
    do 2 (eapply look_bind; [apply look_lift, hoare_rd_any|intros ? _]). apply look_lift, hoare_rd_any.
Qed.

(** One step over what only looks; the rest must not write. *)
Ltac frozen1 :=
  lazymatch goal with
  | |- frozen (with_cur _) => apply frozen_with_cur; intros ?n ?
  | |- frozen (with_dir _) => apply frozen_with_dir; intros ?n ?
  | |- frozen (with_saved _) => apply frozen_with_saved; intros ?sn ?cn ?slive ? ?
  | |- frozen (mbind _ cur_live) => apply frozen_live; cbn [negb]
  | |- frozen (mbind _ (lift _)) => eapply frozen_bind; [apply look_lift; solve [apply hoare_get_any|apply hoare_rd_any|apply hoare_str|apply hoare_is_ok]|intros ? _]
  | |- frozen (mbind _ (read _)) => eapply frozen_bind; [apply look_lift, hoare_rd_any|intros ? _]
  | |- frozen (mbind _ (skip_ _)) => eapply frozen_bind; [apply look_lift, hoare_rd_any|intros ? _]
  | |- frozen (mbind _ read_str) => eapply frozen_bind; [apply look_lift, hoare_str|intros ? _]
  | |- frozen (mbind _ (st4 _)) => eapply frozen_bind; [apply look_check|intros ? _]
  | |- frozen (mbind _ is_ok) => eapply frozen_bind; [apply look_lift, hoare_is_ok|intros ? _]
  | |- frozen (mbind _ (get_fs _)) => eapply frozen_bind; [apply look_lift, hoare_get_any|intros ? _]
  | |- frozen (answer _) => apply frozen_readonly; hoare4_go
  | |- frozen (match ?x with _ => _ end) => destruct x eqn:?; try discriminate
  end.

(** Snapshots are read-only through COMPOUND: an operation that can
    write, on a current file handle that names a snapshot, leaves the whole
    store alone. *)
Theorem nfs4_snapshot_readonly op v s rc v' s' :
  reachable_from fresh_store (ns_fs s) → fh_ok v → snap_fh v → isMutating4 op = true →
  doOp reg prov hash op v s = Some ((rc, v'), s') → ns_fs s' = ns_fs s.
Proof.
  intros R%inv_reachable Hv Hs Hop.
  assert (frozen (doOp reg prov hash op)) as Hf; [|intros Hd; destruct (Hf v Hv Hs _ _ _ R (room_0 _ R) Hd) as [_ H']; by apply steps_0].
  eapply (frozen_bind (out_u32 op)); [apply look_lift, hoare_wr|intros ? _].
  apply bool_decide_eq_true in Hop. repeat (apply elem_of_cons in Hop as [->|Hop]); [..|by apply elem_of_nil in Hop].
  - unfold opOpen. repeat frozen1. eapply frozen_bind; [apply look_open_how|intros [[opentype createmode] attrs] _].
    repeat frozen1. cbn [negb] in *. rewrite andb_true_r in *. apply frozen_readonly.
    eapply hoare4_bind; [by apply hoare4_open_node_ro|lia|]. intros [st|[child created]] Hc; [hoare4_go|].
    by apply hoare4_open_grant.
  - unfold opWrite. repeat frozen1.
  - unfold opSetattr. repeat frozen1. all: apply frozen_readonly; hoare4_go.
  - unfold opCreate. frozen1. eapply frozen_bind; [apply look_if; [apply look_lift, hoare_str|apply look_ret]|intros ? _].
    eapply (frozen_bind _ _ anything); [|intros [maj min] _; repeat frozen1; apply frozen_readonly; hoare4_go].
    apply look_if; [|apply look_ret]. do 2 (eapply look_bind; [apply look_lift, hoare_rd_any|intros ? _]). apply look_ret.
  - unfold opRemove. repeat frozen1.
  - unfold opRename. repeat frozen1. by destruct slive.
  - unfold opLink. repeat frozen1.
Qed.
End Safety.

(** ** What an operation needs *)

Section Needs.
Context {M : Type} `{!KvEngine M} {order : MapOrder}.
Implicit Types (s : NState M) (v : S4).

(** A program that only reads its arguments. *)
Lemma read_Some {A} (f : Reader → A * Reader) v s x v1 s1 :
  read f v s = Some ((x, v1), s1) → v1 = v ∧ x = (f (ns_rd s)).1 ∧ ns_fs s1 = ns_fs s.
Proof.
  intros [-> H]%lift_Some. unfold rd in H. destruct (f (ns_rd s)) as [y r]. by injection H as <- <-.
Qed.
Lemma read_str_Some v s x v1 s1 :
  read_str v s = Some ((x, v1), s1) → v1 = v ∧ ns_fs s1 = ns_fs s.
Proof. intros [-> H]%lift_Some. unfold rd_str in H. destruct (r_str _) as [[y r]|]; [|done]. by injection H as <- <-. Qed.
Lemma get_fs_Some {A} (f : Store M → A) v s x v1 s1 :
  get_fs f v s = Some ((x, v1), s1) → v1 = v ∧ x = f (ns_fs s) ∧ s1 = s.
Proof. intros [-> H]%lift_Some. by injection H as <- <-. Qed.
Lemma answer_Some rc v s x v1 s1 :
  answer rc v s = Some ((x, v1), s1) → v1 = v ∧ x = rc ∧ ns_fs s1 = ns_fs s.
Proof. by intros [= <- <- <-]. Qed.
Lemma cur_Some v s x v1 s1 :
  cur v s = Some ((x, v1), s1) → v1 = v ∧ s1 = s ∧
    x = match cfh (s4_fh v) with Some (id, snap) => nodeById (ns_fs s) id snap | None => None end.
Proof.
  unfold cur. intros (h & v2 & s2 & H1 & H)%bind4_Some. injection H1 as <- <- <-.
  destruct (cfh (s4_fh v)) as [[id snap]|]; [by apply get_fs_Some in H as (-> & -> & ->)|by injection H as <- <- <-].
Qed.
Lemma with_cur_Some (K : Handle → Proc4 M Z) v s rc v' s' :
  with_cur K v s = Some ((rc, v'), s') →
  (rc = NFS4ERR_NOFILEHANDLE ∧ ns_fs s' = ns_fs s) ∨
  ∃ id snap n, cfh (s4_fh v) = Some (id, snap) ∧ nodeById (ns_fs s) id snap = Some n ∧ K n v s = Some ((rc, v'), s').
Proof.
  unfold with_cur. intros (n & v1 & s1 & (-> & -> & ->)%cur_Some & H)%bind4_Some.
  destruct (cfh (s4_fh v)) as [[id snap]|]; [|apply answer_Some in H; naive_solver].
  destruct (nodeById (ns_fs s) id snap) as [n|] eqn:E; [right; by exists id, snap, n|apply answer_Some in H; naive_solver].
Qed.
Lemma with_access_Some sid n bit (K : Proc4 M Z) v s rc v' s' :
  with_access sid n bit K v s = Some ((rc, v'), s') →
  (rc ≠ NFS4_OK ∧ ns_fs s' = ns_fs s) ∨
  ∃ acc, checkStateid (s4_st v) sid (h_id n) = inl acc ∧ Z.land acc bit ≠ 0 ∧ K v s = Some ((rc, v'), s').
Proof.
  unfold with_access. intros (acc & v1 & s1 & H1 & H)%bind4_Some. unfold st4 in H1. injection H1 as <- <- <-.
  replace (mkS4 (s4_fh v) (s4_st v)) with v in H by by destruct v.
  destruct (checkStateid (s4_st v) sid (h_id n)) as [acc|st] eqn:E.
  - destruct (Z.eqb_spec (Z.land acc bit) 0); [apply answer_Some in H; naive_solver|right; by exists acc].
  - apply answer_Some in H as (_ & -> & ->). left. split; [|done].
    unfold checkStateid in E. by repeat case_match; simplify_eq.
Qed.

End Needs.
