(* ===== verification/Nfs4Pages.v ===== *)
(** * Nfs4Pages: NFSv4 READDIR pages and attributes

    The pages of one READDIR as a pass over what follows the cursor, the
    bitmap of returned attributes, and the round trip of settable ones. *)
From S2P Require Import Prelude Keys Kv NodeRec Spec Store CStr Views Shape Inv Init Reads Di Content FsStat Host Xdr StoreProps Nfs3 NfsSteps NfsPages NfsProps Nfs4State Nfs4.
Local Open Scope Z_scope.
Set Warnings "-clear-no-such-hyp".

Section Pages.
Context {M : Type} `{!KvEngine M}.
Implicit Types (st fs : Store M) (dir : Handle) (s : NState M) (req : list Z).

(** The bytes one entry takes in the reply, and a list of them. *)
Definition entry4 fs req (e : bytes * Handle) : bytes := be4 1 ++ one_entry fs req e.
Definition entries4 fs req (l : list (bytes * Handle)) : bytes := l ≫= entry4 fs req.
Lemma length_entry4 fs req e : Z.of_nat (length (entry4 fs req e)) = Z.of_nat (length (one_entry fs req e)) + 4.
Proof. unfold entry4. rewrite length_app. change (length (be4 1)) with 4%nat. lia. Qed.

Lemma length_entries4 fs req e l :
  Z.of_nat (length (entries4 fs req (e :: l))) =
    Z.of_nat (length (one_entry fs req e)) + 4 + Z.of_nat (length (entries4 fs req l)).
Proof. unfold entries4. rewrite bind_cons, length_app, Nat2Z.inj_add, length_entry4. done. Qed.

(** The entries that fit from the front of a list, and the budget left when
    all of them do. *)
Fixpoint fit4 fs req (mx budget : Z) (l : list (bytes * Handle)) : list (bytes * Handle) * option Z :=
  match l with
  | [] => ([], Some budget)
  | e :: l' =>
      let one := Z.of_nat (length (one_entry fs req e)) in
      if mx <? budget + one + 8 then ([], None)
      else let '(t, o) := fit4 fs req mx (budget + one + 4) l' in (e :: t, o)
  end.
Lemma fit4_app fs req mx b l1 l2 :
  fit4 fs req mx b (l1 ++ l2) =
    match fit4 fs req mx b l1 with
    | (t, Some b') => (t ++ (fit4 fs req mx b' l2).1, (fit4 fs req mx b' l2).2)
    | (t, None) => (t, None)
    end.
Proof.
  revert b. induction l1 as [|e l1 IH]; intros b; simpl; [by destruct (fit4 fs req mx b l2)|].
  destruct (_ <? _); [done|]. rewrite IH. by destruct (fit4 fs req mx _ l1) as [t [b'|]].
Qed.
(** As many entries as the byte count allows, and no fewer. *)
Lemma fit4_spec fs req mx b l :
  ∃ k, (fit4 fs req mx b l).1 = take k l ∧ (k <= length l)%nat ∧
    bool_decide (is_Some (fit4 fs req mx b l).2) = bool_decide (k = length l) ∧
    (k ≠ 0%nat → b + Z.of_nat (length (entries4 fs req (take k l))) + 4 <= mx) ∧
    ((k < length l)%nat → mx < b + Z.of_nat (length (entries4 fs req (take (S k) l))) + 4).
Proof.
  revert b. induction l as [|e l IH]; intros b; cbn [fit4].
  { exists 0%nat. split_and!; [done..|cbn [length]; lia]. }
  destruct (Z.ltb_spec mx (b + Z.of_nat (length (one_entry fs req e)) + 8)) as [Hlt|Hge].
  - exists 0%nat. split_and!; [done|lia|done|done|]. intros _. cbn [take]. rewrite firstn_O, length_entries4. lia.
  - destruct (IH (b + Z.of_nat (length (one_entry fs req e)) + 4)) as (k & Hk & Hle & Hd & Hmx & Hmore). exists (S k).
    destruct (fit4 fs req mx _ l) as [t o]. cbn [fst snd length] in *. split_and!.
    + cbn [take]. by rewrite Hk.
    + lia.
    + rewrite Hd. apply bool_decide_ext. lia.
    + intros _. cbn [take]. rewrite length_entries4. destruct k as [|k]; [cbn [take]; rewrite firstn_O|specialize (Hmx ltac:(done))].
      * change (length (entries4 fs req [])) with 0%nat. lia.
      * lia.
    + intros Hlt. change (take (S (S k)) (e :: l)) with (e :: take (S k) l). rewrite length_entries4.
      specialize (Hmore ltac:(lia)). lia.
Qed.

(** The state a page leaves: the reply grows, cookies are remembered. *)
Definition paged (names : list bytes) (out : bytes) s s' : Prop :=
  ns_fs s' = ns_fs s ∧ ns_rd s' = ns_rd s ∧ ns_out s' = ns_out s ++ out ∧
  ∀ ck n, ns_ck s' !! ck = Some n → ns_ck s !! ck = Some n ∨ n ∈ names ∧ ck = nameCookie n.
Lemma paged_refl names s : paged names [] s s.
Proof. split_and!; try done; [by rewrite app_nil_r|auto]. Qed.
Lemma paged_trans names o1 o2 s1 s2 s3 :
  paged names o1 s1 s2 → paged names o2 s2 s3 → paged names (o1 ++ o2) s1 s3.
Proof.
  intros (E1 & E2 & E3 & E4) (F1 & F2 & F3 & F4). split_and!; [congruence..|by rewrite F3, E3, app_assoc|].
  intros ck n [H|H]%F4; [by apply E4|by right].
Qed.
Lemma paged_sub names names' out s s' : (∀ n, n ∈ names → n ∈ names') → paged names out s s' → paged names' out s s'.
Proof. intros Hs (E1 & E2 & E3 & E4). split_and!; try done. intros ck n [H|[H ->]]%E4; auto. Qed.

Lemma page_entries4_spec req mx ents b s :
  ∃ s', page_entries4 req mx b ents s = Some ((fit4 (ns_fs s) req mx b ents).2, s') ∧
    paged ents.*1 (entries4 (ns_fs s) req (fit4 (ns_fs s) req mx b ents).1) s s'.
Proof.
  revert b s. induction ents as [|[n x] ents IH]; intros b s; cbn [page_entries4 fit4].
  { exists s. split; [done|apply paged_refl]. }
  unfold mbind at 1, proc_bind at 1, fs_get. destruct (_ <? _); [exists s; split; [done|apply paged_refl]|].
  unfold mbind at 1, proc_bind at 1. destruct (rememberCookie (nameCookie (n, x).1) (n, x).1 s) as [[[] s1]|] eqn:E; [|done]. cbn [fst] in E.
  apply rememberCookie_spec in E as (E1 & E2 & E3 & E4); [|done].
  unfold mbind at 1, proc_bind at 1, wr_u32, wr. unfold mbind at 1, proc_bind at 1. cbn [ns_fs ns_out ns_rd ns_ck].
  set (s2 := mkNs (ns_fs s1) (ns_rd s1) (w_u32 (ns_out s1) (u32 1) ++ one_entry (ns_fs s) req (n, x)) (ns_ck s1)).
  assert (paged [n] (entry4 (ns_fs s) req (n, x)) s s2) as Hs2.
  { split_and!; [done..| |done]. unfold s2. cbn [ns_out]. rewrite w_u32_eq, E3. by rewrite <- app_assoc. }
  destruct (IH (b + Z.of_nat (length (one_entry (ns_fs s) req (n, x))) + 4) s2) as (s3 & E5 & Hs3).
  replace (ns_fs s2) with (ns_fs s) in * by (by rewrite <- E1). exists s3. split.
  - destruct (fit4 (ns_fs s) req mx _ ents) as [t o]. exact E5.
  - destruct (fit4 (ns_fs s) req mx _ ents) as [t o]. cbn [fst] in *.
    change (entries4 (ns_fs s) req ((n, x) :: t)) with (entry4 (ns_fs s) req (n, x) ++ entries4 (ns_fs s) req t).
    eapply paged_trans; (eapply paged_sub; [|done]); intros m Hm.
    + apply list_elem_of_singleton in Hm as ->. by left.
    + by right.
Qed.

(** The loop over the store's pages is one pass over what is left, and ends
    within its fuel. *)
Lemma page_loop4_spec req mx dir fuel b after s :
  inv (ns_fs s) → handle_ok dir → (length (rest (ns_fs s) dir after) <= fuel)%nat → (1 <= fuel)%nat →
  let r := fit4 (ns_fs s) req mx b (rest (ns_fs s) dir after) in
  ∃ s', page_loop4 fuel dir req mx b after s = Some (bool_decide (is_Some r.2), s') ∧
    paged (rest (ns_fs s) dir after).*1 (entries4 (ns_fs s) req r.1) s s'.
Proof.
  intros I Hd. revert b after s I. induction fuel as [|fuel IH]; intros b after s I Hl H1 r; [lia|].
  cbn [page_loop4]. unfold mbind at 1, proc_bind at 1, fs_get. rewrite readdirPage_rest by done.
  set (l := rest (ns_fs s) dir after) in *.
  destruct (page_entries4_spec req mx (pg_entries (page_of 512 l)) b s) as (s1 & E & Hs1).
  unfold mbind, proc_bind. rewrite E. clear E. cbn [pg_entries page_of] in *.
  assert (l = take 512 l ++ drop 512 l) as Hsplit by by rewrite take_drop.
  assert (∀ n, n ∈ (take 512 l).*1 → n ∈ l.*1) as Hsub.
  { intros n. rewrite !list_elem_of_fmap. intros (e & -> & (i & Hi & _)%elem_of_take).
    exists e. split; [done|]. by eapply list_elem_of_lookup_2. }
  assert (r = match fit4 (ns_fs s) req mx b (take 512 l) with
    | (t, Some b') => (t ++ (fit4 (ns_fs s) req mx b' (drop 512 l)).1, (fit4 (ns_fs s) req mx b' (drop 512 l)).2)
    | (t, None) => (t, None)
    end) as -> by (unfold r; by rewrite <- fit4_app, <- Hsplit).
  destruct (fit4 (ns_fs s) req mx b (take 512 l)) as [t [b'|]]; cbn [fst snd] in *.
  2: { exists s1. split; [done|]. by eapply paged_sub. }
  destruct (decide (length l <= 512)%nat) as [Hle|Hgt].
  - cbn [pg_eof page_of]. rewrite (bool_decide_true (length l <= 512)%nat), orb_true_r by done. rewrite (drop_ge l) by done.
    exists s1. split; [done|]. cbn [fit4 fst]. rewrite app_nil_r. by eapply paged_sub.
  - cbn [pg_eof pg_cookie page_of]. rewrite (bool_decide_false (length l <= 512)%nat), orb_false_r by done.
    rewrite bool_decide_false by (destruct l; [simpl in Hgt; lia|done]).
    destruct (l !! 511%nat) as [[n x]|] eqn:Hi; [|apply lookup_ge_None in Hi; lia].
    assert (default [] (last (take 512 l).*1) = n) as ->.
    { rewrite (take_S_r _ _ _ Hi), fmap_app. simpl. by rewrite last_snoc. }
    assert (ns_fs s1 = ns_fs s) as Efs by apply Hs1.
    assert (rest (ns_fs s1) dir n = drop 512 l) as Hr by (rewrite Efs; by apply (rest_after _ _ _ 511 n x)).
    destruct (IH b' n s1) as (s2 & E2 & Hs2); [by rewrite Efs|rewrite Hr, length_drop; lia|lia|].
    rewrite Hr, Efs in *. exists s2. split; [done|]. unfold entries4. rewrite bind_app.
    eapply paged_trans; (eapply paged_sub; [|done]); [done|].
    intros m. rewrite !list_elem_of_fmap. intros (e & -> & He). exists e. split; [done|].
    rewrite Hsplit. apply elem_of_app. by right.
Qed.

(** What follows a cursor is visible. *)
Lemma rest_in_visible st dir after e : inv st → e ∈ rest st dir after → e ∈ visible st dir.
Proof.
  intros I. unfold rest, visible. destruct (isSnapDir (h_id dir)) eqn:Hs.
  - intros (c & -> & [[Hc Hm] He]%elem_of_snap_ids)%list_elem_of_fmap. apply list_elem_of_filter.
    split; [apply to_string_nonempty|]. rewrite readdir_snap by done. apply list_elem_of_fmap. exists c. split; [done|].
    apply elem_of_snap_ids. split; [|done]. pose proof (snap_start_nonneg after).
    pose proof He as [r Hr]%bool_decide_eq_true. pose proof (inv_shape _ I) as Hsh.
    pose proof (shape_in64_cur _ _ _ Hsh). assert (in64 c) as Hc64 by word_lia.
    destruct (load_node _ _ _ _ _ _ Hsh Hc64 Hr) as (s & _ & ? & _ & _ & _ & ? & _). lia.
  - rewrite !list_elem_of_filter. intros [Hlt Hin]. split; [|done]. destruct e as [n x]. simpl in *. by destruct n, after.
Qed.

(** A READDIR page: the loop ends, and puts in the reply the entries that
    follow the cursor, in the directory's order, as many as the client's byte
    count allows and no fewer; [eof] says whether these were the last, and the
    cookie of the last entry resumes after it. *)
Theorem nfs4_readdir_page req mx dir after s :
  reachable_from fresh_store (ns_fs s) → handle_ok dir → cookies_ok dir s →
  let l := rest (ns_fs s) dir after in
  ∃ k s', page_loop4 (page_fuel (ns_fs s) dir) dir req mx 96 after s = Some (bool_decide (k = length l), s') ∧
    ns_fs s' = ns_fs s ∧ (k <= length l)%nat ∧ ns_out s' = ns_out s ++ entries4 (ns_fs s) req (take k l) ∧
    (k ≠ 0%nat → 96 + Z.of_nat (length (entries4 (ns_fs s) req (take k l))) + 4 <= mx) ∧
    ((k < length l)%nat → mx < 96 + Z.of_nat (length (entries4 (ns_fs s) req (take (S k) l))) + 4) ∧
    ∀ j n x, k = S j → l !! j = Some (n, x) →
      resumeName dir (nameCookie n) s' = Some (Some n, s') ∧ rest (ns_fs s') dir n = drop k l.
Proof.
  intros R%inv_reachable Hd Hc l. pose proof (λ e, rest_in_visible (ns_fs s) dir after e R) as Hvis.
  destruct (page_loop4_spec req mx dir (page_fuel (ns_fs s) dir) 96 after s) as (s' & E & Hs');
    [done..|apply length_rest|unfold page_fuel; lia|]. fold l in E, Hs'.
  destruct (fit4_spec (ns_fs s) req mx 96 l) as (k & Hk & Hle & Hend & Hmx & Hmore). rewrite Hk in Hs'.
  exists k, s'. rewrite Hend in E. pose proof Hs' as (Efs & _ & Eout & Hck). split_and!; try done.
  intros j n x -> Hj. assert ((n, x) ∈ visible (ns_fs s) dir) as Hin by (by eapply Hvis, list_elem_of_lookup_2).
  rewrite Efs. split; [|by apply (rest_after _ _ _ j n x)].
  apply resumeName_spec; rewrite ?Efs; try done.
  - intros m m'. rewrite Efs. intros Hm [H|H]; [by apply Hc; [|left]|].
    apply Hck in H as [H|[H H']]; [by apply Hc; [|right]|]. apply Hc; [done|]. left. split; [|done].
    apply list_elem_of_fmap in H as (e & -> & He). apply list_elem_of_fmap. exists e. split; [done|by apply Hvis].
  - apply list_elem_of_fmap. by exists (n, x).
Qed.
End Pages.

(** ** Attribute bitmaps *)

Section Bits.
Context {M : Type} `{!KvEngine M}.
Implicit Types (fs : Store M) (req : list Z) (n : Handle).

(** Bit [b] of a pair of words. *)
Definition pair_bit (w : Z * Z) (b : Z) : bool := bit_set [w.1; w.2] b.
Lemma pair_bit_eq w b :
  0 <= b < 64 → pair_bit w b = if b <? 32 then Z.testbit w.1 b else Z.testbit w.2 (b - 32).
Proof.
  intros Hb. unfold pair_bit, bit_set. destruct (Z.ltb_spec b 32).
  - by rewrite Z.div_small, Z.mod_small by lia.
  - rewrite <- (Z.div_unique b 32 1 (b - 32)), <- (Z.mod_unique b 32 1 (b - 32)) by lia. done.
Qed.
Lemma testbit_lor_1 x i j : 0 <= i → 0 <= j → Z.testbit (Z.lor x (Z.shiftl 1 i)) j = Z.testbit x j || (i =? j).
Proof. intros. by rewrite Z.lor_spec, Z.shiftl_1_l, Z.pow2_bits_eqb by lia. Qed.
Lemma set_bit_spec b c w :
  0 <= b < 64 → 0 <= c < 64 → pair_bit (set_bit b w) c = pair_bit w c || (b =? c).
Proof.
  intros Hb Hc. rewrite !pair_bit_eq by done. unfold set_bit. 
  destruct (Z.ltb_spec b 32), (Z.ltb_spec c 32); cbn [fst snd].
  - by rewrite Z.mod_small, testbit_lor_1 by lia.
  - by rewrite (proj2 (Z.eqb_neq b c)), orb_false_r by lia.
  - by rewrite (proj2 (Z.eqb_neq b c)), orb_false_r by lia.
  - rewrite <- (Z.mod_unique b 32 1 (b - 32)), testbit_lor_1 by lia. f_equal.
    apply eq_true_iff_eq. rewrite !Z.eqb_eq. lia.
Qed.
Lemma set_bit_words b w : 0 <= b < 64 → in32 w.1 ∧ in32 w.2 → in32 (set_bit b w).1 ∧ in32 (set_bit b w).2.
Proof.
  intros Hb [H1 H2]. unfold set_bit. pose proof (Z.mod_pos_bound b 32 ltac:(lia)).
  assert (∀ x, in32 x → in32 (Z.lor x (Z.shiftl 1 (b mod 32)))) as Hlor; [|destruct (b <? 32); simpl; auto].
  intros x Hx. rewrite Z.shiftl_1_l. assert (0 < 2 ^ (b mod 32) < 2 ^ 32) by (split; [lia|apply Z.pow_lt_mono_r; lia]).
  assert (Z.lor x (2 ^ (b mod 32)) = Z.lor x (2 ^ (b mod 32)) mod 2 ^ 32) as ->; [|apply Z.mod_pos_bound; lia].
  apply Z.bits_inj'. intros i Hi. destruct (decide (i < 32)); [by rewrite Z.mod_pow2_bits_low by lia|].
  rewrite Z.mod_pow2_bits_high, Z.lor_spec by lia. rewrite <- (Z.mod_small x (2 ^ 32)) by word_lia.
  rewrite <- (Z.mod_small (2 ^ (b mod 32)) (2 ^ 32)) by lia. by rewrite !Z.mod_pow2_bits_high by lia.
Qed.

(** The bits the loop visits: those of the words the client sent. *)
Lemma attr_loop_spec fs req n id snap (k : nat) b w vals :
  0 <= b → b + Z.of_nat k = 64 →
  let r := attr_loop fs req n id snap (seqZ b (Z.of_nat k)) w vals in
  ∃ bits, r.2 = fold_left (λ v c, encodeAttrValue fs v c n id snap) bits vals ∧
    bits = filter (λ c, bit_set req c = true ∧ attrSupported c = true) (seqZ b (Z.of_nat k)) ∧
    ∀ c, 0 <= c < 64 → pair_bit r.1 c = pair_bit w c || bool_decide (c ∈ bits).
Proof.
  revert b w vals. induction k as [|k IH]; intros b w vals Hb Hk r.
  { exists []. split_and!; [done..|]. intros c _. simpl. by rewrite orb_false_r. }
  unfold r. clear r. rewrite seqZ_cons by lia. replace (Z.pred (Z.of_nat (S k))) with (Z.of_nat k) by lia.
  replace (Z.succ b) with (b + 1) by lia. cbn [attr_loop].
  destruct (Z.leb_spec (Z.of_nat (length req)) (b / 32)) as [Hlen|_].
  { exists []. split; [done|]. split.
    - symmetry. apply filter_none, Forall_forall. intros c Hc. assert (b <= c) by (rewrite elem_of_cons, elem_of_seqZ in Hc; lia).
      intros [Hbit _]. unfold bit_set in Hbit.
      rewrite lookup_ge_None_2 in Hbit; [simpl in Hbit; by rewrite Z.bits_0 in Hbit|].
      assert (b / 32 <= c / 32) by (apply Z.div_le_mono; lia). pose proof (Z.div_pos b 32). lia.
    - intros c _. simpl. by rewrite orb_false_r. }
  destruct (bit_set req b) eqn:Hbit; cbn [negb]; [destruct (attrSupported b) eqn:Hsup; cbn [negb]|].
  - destruct (IH (b + 1) (set_bit b w) (encodeAttrValue fs vals b n id snap)) as (bits & E1 & E2 & E3); [lia..|].
    exists (b :: bits). split; [done|]. split.
    + rewrite filter_cons_True by done. by rewrite <- E2.
    + intros c Hc. rewrite E3, set_bit_spec by lia. rewrite <- orb_assoc. f_equal.
      apply eq_true_iff_eq. rewrite orb_true_iff, Z.eqb_eq, !bool_decide_eq_true, elem_of_cons. naive_solver.
  - destruct (IH (b + 1) w vals) as (bits & E1 & E2 & E3); [lia..|]. exists bits. split; [done|]. split; [|done].
    rewrite filter_cons_False; [done|]. intros [_ ?]. congruence.
  - destruct (IH (b + 1) w vals) as (bits & E1 & E2 & E3); [lia..|]. exists bits. split; [done|]. split; [|done].
    rewrite filter_cons_False; [done|]. intros [? _]. congruence.
Qed.

(** GETATTR and READDIR return what was asked for and is supported: the
    bitmap of the reply has exactly those bits of the request that name a
    supported attribute, and the values are theirs, in bit order. *)
Theorem nfs4_attrs_requested fs v req n id snap :
  ∃ w vals, encodeFattr4 fs v req n id snap = w_opaque (v ++ be4 2 ++ be4 w.1 ++ be4 w.2) vals ∧
    (∀ b, 0 <= b < 64 → pair_bit w b = bit_set req b && attrSupported b) ∧
    vals = fold_left (λ v b, encodeAttrValue fs v b n id snap)
             (filter (λ b, bit_set req b = true ∧ attrSupported b = true) (seqZ 0 64)) [].
Proof.
  unfold encodeFattr4. destruct (attr_loop_spec fs req n id snap 64 0 (0, 0) []) as (bits & E1 & E2 & E3); [done..|].
  change (Z.of_nat 64) with 64 in *. destruct (attr_loop fs req n id snap (seqZ 0 64) (0, 0) []) as [w vals]. cbn [fst snd] in *.
  exists w, vals. split; [by rewrite !w_u32_eq, <- !app_assoc|]. split; [|by rewrite E1, E2].
  intros b Hb. rewrite E3 by done. assert (pair_bit (0, 0) b = false) as ->.
  { rewrite pair_bit_eq by done. case_match; apply Z.bits_0. }
  cbn [orb]. apply eq_true_iff_eq. rewrite bool_decide_eq_true, E2, list_elem_of_filter, elem_of_seqZ, andb_true_iff. naive_solver lia.
Qed.
End Bits.

(** ** Attributes there and back *)

(** [strtoul] reads back what [std::to_string] prints. *)
Lemma strtoul10_to_string n : in64 n → strtoul10 (to_string n) = n.
Proof.
  intros Hn. destruct (to_string_loop_digits 20 n) as [Hd Hv]; [simpl; word_lia|]. fold (to_string n) in Hd, Hv.
  pose proof (to_string_nonempty n). unfold strtoul10, c_sign. destruct (to_string n) as [|c s] eqn:E; [done|].
  inversion_clear Hd as [|? ? Hc _]. unfold is_digit in Hc. rewrite andb_true_iff, !Z.leb_le in Hc.
  assert (isspace c = false) as Hsp.
  { unfold isspace. rewrite orb_false_iff, andb_false_iff, !Z.leb_gt, Z.eqb_neq. lia. }
  cbn [c_skip_space]. rewrite Hsp, (proj2 (Z.eqb_neq _ 45)), (proj2 (Z.eqb_neq _ 43)), Hv by lia.
  rewrite (proj2 (Z.ltb_ge _ _)); [done|]. unfold ALL64. word_lia.
Qed.

Section Roundtrip.
Context {M : Type} `{!KvEngine M}.
Implicit Types (fs : Store M) (n : Handle) (s : NState M).

Lemma readNode_rec_ok fs id g : inv fs → in64 g → rec_ok (readNode fs id g).
Proof.
  intros I Hg. assert (∀ id, rec_ok (readNode_at fs id g)) as Hat.
  { clear id. intros id. unfold readNode_at. destruct (loadNode _ _ _) as [r|] eqn:E; [|apply rec_ok_NodeRec0].
    destruct (load_node _ _ _ _ _ _ (inv_shape _ I) (rr_in64 _ _ I Hg) E) as (s & _ & _ & _ & Hr & _). done. }
  unfold readNode. destruct (isSnapDir id); [|apply Hat]. specialize (Hat (snapBase id)).
  unfold rec_ok in *. simpl. destruct_and!. split_and!; done || word_lia.
Qed.

(** The attributes a client can set from what it was shown, and their values. *)
Definition settable fs n (b : Z) : option (Attr * Z) :=
  if b =? FA_SIZE then Some (ASize, n_size fs n)
  else if b =? FA_MODE then Some (AMode, Z.land (n_mode fs n) 0xFFF)
  else if b =? FA_OWNER then Some (AUid, n_uid fs n)
  else if b =? FA_OWNER_GROUP then Some (AGid, n_gid fs n)
  else None.

Lemma rd_u64_at {A} v x q (K : Z → Proc M A) s :
  in64 x → ns_rd s = rd_at v (be8 x ++ q) → (y ← rd r_u64; K y) s = K x (with_rd s (rd_at (v ++ be8 x) q)).
Proof. intros Hx E. unfold mbind, proc_bind, rd. by rewrite E, r_u64_at. Qed.
Lemma rd_u32_at {A} v x q (K : Z → Proc M A) s :
  in32 x → ns_rd s = rd_at v (be4 x ++ q) → (y ← rd r_u32; K y) s = K x (with_rd s (rd_at (v ++ be4 x) q)).
Proof. intros Hx E. unfold mbind, proc_bind, rd. by rewrite E, r_u32_at. Qed.

(** C38. Attributes round trip: the value that GETATTR encodes for size, mode,
    owner or group, given back to SETATTR, sets exactly that attribute to
    exactly that value; ids travel as decimal strings. *)
Theorem nfs4_attr_roundtrip fs n id snap n' b a x v q s :
  reachable_from fresh_store fs → handle_ok n → settable fs n b = Some (a, x) →
  ns_rd s = rd_at v (encodeAttrValue fs [] b n id snap ++ q) →
  apply_attr n' b s = (_ ← put a n' x; mret (Some tt)) (with_rd s (rd_at (v ++ encodeAttrValue fs [] b n id snap) q)).
Proof.
  intros R%inv_reachable [_ Hg] Hset Hrd. pose proof (readNode_rec_ok fs (h_id n) (h_snap n) R Hg) as Hr.
  unfold rec_ok in Hr. destruct_and!. unfold settable in Hset. unfold apply_attr.
  assert (∀ x, in32 x → w_str [] (to_string x) = be4 (u32 (Z.of_nat (length (to_string x)))) ++ pad_str (to_string x)) as Hstr
    by (intros; by rewrite w_str_eq).
  assert (∀ y, Z.of_nat (length (to_string y)) <= 2 ^ 32 - 4) as Hlen by (intros y; pose proof (length_to_string y); lia).
  destruct (Z.eqb_spec b FA_SIZE) as [-> |_]; [|destruct (Z.eqb_spec b FA_MODE) as [-> |_];
    [|destruct (Z.eqb_spec b FA_OWNER) as [-> |_]; [|destruct (Z.eqb_spec b FA_OWNER_GROUP) as [-> |_]; [|done]]]];
    injection Hset as <- <-.
  - change (encodeAttrValue fs [] FA_SIZE n id snap) with (w_u64 [] (n_size fs n)) in *.
    rewrite w_u64_eq, app_nil_l in *. by erewrite rd_u64_at.
  - change (encodeAttrValue fs [] FA_MODE n id snap) with (w_u32 [] (Z.land (n_mode fs n) 0xFFF)) in *.
    rewrite w_u32_eq, app_nil_l in *. assert (0xFFF = Z.ones 12) as E12 by done. rewrite E12 in *.
    assert (in32 (Z.land (n_mode fs n) (Z.ones 12))).
    { rewrite Z.land_ones by lia. pose proof (Z.mod_pos_bound (n_mode fs n) (2 ^ 12) ltac:(lia)). word_lia. }
    erewrite rd_u32_at by done. by rewrite <- Z.land_assoc, Z.land_diag.
  - change (encodeAttrValue fs [] FA_OWNER n id snap) with (w_str [] (to_string (n_uid fs n))) in *. rewrite Hstr in * by done.
    rewrite <- app_assoc in Hrd. unfold mbind at 1, proc_bind at 1. erewrite rd_str_at by done.
    rewrite strtoul10_to_string by (by apply in32_in64). by rewrite u32_small.
  - change (encodeAttrValue fs [] FA_OWNER_GROUP n id snap) with (w_str [] (to_string (n_gid fs n))) in *. rewrite Hstr in * by done.
    rewrite <- app_assoc in Hrd. unfold mbind at 1, proc_bind at 1. erewrite rd_str_at by done.
    rewrite strtoul10_to_string by (by apply in32_in64). by rewrite u32_small.
Qed.
End Roundtrip.
