(* ===== verification/Nfs4Walk.v ===== *)
(** * Nfs4Walk: a client that lists a directory over NFSv4
    (plugins/nfsv4/nfsv4.cpp, [opReaddir])

    The encoding of READDIR's arguments and of its results, a client that
    decodes them and asks again from the last cookie, and that it gets every
    entry once, in order. *)
From S2P Require Import Prelude Keys Kv NodeRec Spec Store Views Shape Inv Init Reads StoreProps Di Content FsStat Host Xdr Nfs3 NfsSteps NfsPages NfsProps Nfs4State Nfs4 Nfs4Pages.
Local Open Scope Z_scope.
Set Warnings "-clear-no-such-hyp".

(** ** More of the reader at a known place *)

Lemma length_be8 x : length (be8 x) = 8%nat.
Proof. done. Qed.
Lemma r_skip_at v w q : r_skip (rd_at v (w ++ q)) (Z.of_nat (length w)) = rd_at (v ++ w) q.
Proof.
  unfold r_skip, rd_at, rd_n, rd_adv. cbn [rd_p rd_pos rd_ok]. rewrite (proj2 (Z.ltb_ge _ _)) by (rewrite !length_app; lia).
  f_equal; [by rewrite app_assoc|rewrite length_app; lia].
Qed.
Lemma r_skipOpaque_at v d q :
  Z.of_nat (length d) <= 2 ^ 32 - 4 →
  r_skipOpaque (rd_at v (be4 (u32 (Z.of_nat (length d))) ++ pad_str d ++ q)) =
    rd_at (v ++ be4 (u32 (Z.of_nat (length d))) ++ pad_str d) q.
Proof.
  intros Hd. unfold r_skipOpaque. rewrite r_u32_at by apply u32_range. rewrite u32_small by word_lia.
  rewrite <- (length_pad_str d Hd). pose proof (r_skip_at (v ++ be4 (Z.of_nat (length d))) (pad_str d) q) as H.
  unfold r_skip in H. cbv zeta. rewrite H, <- app_assoc. done.
Qed.
Lemma r_words_at v ws q :
  Forall in32 ws → r_words (length ws) (rd_at v ((ws ≫= be4) ++ q)) = (ws, rd_at (v ++ (ws ≫= be4)) q).
Proof.
  intros Hws. revert v. induction Hws as [|x ws Hx _ IH]; intros v; [cbn; by rewrite app_nil_r|].
  cbn [length r_words]. rewrite bind_cons, <- app_assoc, r_u32_at by done. rewrite IH. by rewrite <- !app_assoc.
Qed.
Lemma r_bitmap_at v ws q :
  Forall in32 ws → (length ws <= 16)%nat →
  r_bitmap (rd_at v (be4 (Z.of_nat (length ws)) ++ (ws ≫= be4) ++ q)) =
    (ws, rd_at (v ++ be4 (Z.of_nat (length ws)) ++ (ws ≫= be4)) q).
Proof.
  intros Hws Hl. unfold r_bitmap. rewrite r_u32_at by word_lia. rewrite (proj2 (Z.ltb_ge _ _)) by lia.
  by rewrite Nat2Z.id, r_words_at, <- app_assoc.
Qed.
Lemma length_pad_str_mod s : (length (pad_str s) mod 4 = 0)%nat.
Proof.
  apply Nat2Z.inj. unfold pad_str. rewrite length_app, length_replicate, Nat2Z.inj_mod, Nat2Z.inj_add, Nat2Z.inj_mod.
  rewrite Nat2Z.inj_sub, Nat2Z.inj_mod by (pose proof (Nat.mod_upper_bound (length s) 4); lia).
  change (Z.of_nat 4) with 4. change (Z.of_nat 0) with 0. Z.to_euclidean_division_equations. lia.
Qed.
Lemma length_mod4_app (a b : bytes) : (length a mod 4 = 0)%nat → (length b mod 4 = 0)%nat → (length (a ++ b) mod 4 = 0)%nat.
Proof. intros Ha Hb. by rewrite length_app, <- Nat.Div0.add_mod_idemp_l, Ha. Qed.
Lemma nameCookie_in64 n : in64 (nameCookie n).
Proof.
  unfold nameCookie. set (h := fold_left _ _ _).
  assert (in64 h) as Hh.
  { unfold h. assert (∀ l x, in64 x → in64 (fold_left (λ h c, u64 (Z.lxor h (bz c) * 1099511628211)) l x)) as Hf;
      [|by apply Hf]. induction l as [|c l IH]; intros y Hy; simpl; [done|]. apply IH, u64_range. }
  change CK_ENTRY with (Z.shiftl 1 63). rewrite Z.lor_comm. rewrite <- (Z.mod_small h (2 ^ 64)) by done.
  assert (Z.lor (Z.shiftl 1 63) (h mod 2 ^ 64) = Z.lor (Z.shiftl 1 63) (h mod 2 ^ 64) mod 2 ^ 64) as ->; [|apply Z.mod_pos_bound; lia].
  apply Z.bits_inj'. intros i Hi. destruct (decide (i < 64)); [by rewrite (Z.mod_pow2_bits_low _ 64 i) by lia|].
  rewrite (Z.mod_pow2_bits_high (Z.lor _ _)), Z.lor_spec, Z.mod_pow2_bits_high by lia.
  change (Z.shiftl 1 63) with (2 ^ 63). by rewrite Z.pow2_bits_false by lia.
Qed.

(** ** One entry of a page *)

Section Entry.
Context {M : Type} `{!KvEngine M}.
Implicit Types (fs : Store M) (dir : Handle) (s : NState M) (req : list Z) (e : bytes * Handle).

Lemma attr_loop_words fs req n id snap bits w vals :
  Forall (λ b, 0 <= b < 64) bits → in32 w.1 ∧ in32 w.2 →
  let r := attr_loop fs req n id snap bits w vals in in32 r.1.1 ∧ in32 r.1.2.
Proof.
  intros Hbits. revert w vals. induction Hbits as [|b bits Hb _ IH]; intros w vals Hw; cbn [attr_loop]; [done|].
  destruct (_ <=? _); [done|]. destruct (negb _); [by apply IH|]. destruct (negb _); [by apply IH|].
  apply IH. by apply set_bit_words.
Qed.
(** Cookie, name, and attributes as a bitmap of two words and an opaque. *)
Lemma one_entry_eq fs req e :
  ∃ w vals, in32 w.1 ∧ in32 w.2 ∧
    one_entry fs req e = be8 (nameCookie e.1) ++ (be4 (u32 (Z.of_nat (length e.1))) ++ pad_str e.1) ++
      (be4 2 ++ be4 w.1 ++ be4 w.2) ++ be4 (u32 (Z.of_nat (length vals))) ++ pad_str vals.
Proof.
  unfold one_entry, encodeFattr4.
  assert (Forall (λ b, 0 <= b < 64) (seqZ 0 64)) as Hbits by (apply Forall_forall; intros b; rewrite elem_of_seqZ; lia).
  pose proof (attr_loop_words fs req e.2 (h_id e.2) (h_snap e.2) (seqZ 0 64) (0, 0) [] Hbits ltac:(by split)) as Hw.
  destruct (attr_loop _ _ _ _ _ _ _ _) as [w vals]. cbn [fst snd] in Hw. destruct Hw as [H1 H2].
  exists w, vals. split; [done|]. split; [done|].
  change (w_opaque ?v ?d) with (w_str v d). rewrite w_u64_eq, app_nil_l, (w_str_eq (be8 _)), !w_u32_eq by done.
  rewrite w_str_eq; [by rewrite <- !app_assoc|]. repeat first [apply length_pad_str_mod|reflexivity|apply length_mod4_app].
Qed.

(** The client's side: the entries of a result, and whether it is the last. *)
Definition r_entry (r : Reader) : option (Z * bytes * Reader) :=
  let '(ck, r) := r_u64 r in
  '(name, r) ← r_str r;
  let '(_, r) := r_bitmap r in Some (ck, name, r_skipOpaque r).
Fixpoint r_entries (fuel : nat) (r : Reader) : option (list (Z * bytes) * bool) :=
  match fuel with
  | O => None
  | S fuel' =>
      let '(more, r) := r_u32 r in
      if more =? 0 then Some ([], (r_u32 r).1 =? 1)
      else '(ck, name, r) ← r_entry r; '(es, eof) ← r_entries fuel' r; Some ((ck, name) :: es, eof)
  end.
Definition shown e : Z * bytes := (nameCookie e.1, e.1).

Lemma r_entry_at fs req e v q :
  Z.of_nat (length (one_entry fs req e)) <= 2 ^ 32 - 4 →
  r_entry (rd_at v (one_entry fs req e ++ q)) = Some (shown e, rd_at (v ++ one_entry fs req e) q).
Proof.
  destruct (one_entry_eq fs req e) as (w & vals & H1 & H2 & ->). rewrite !length_app. intros Hl.
  assert (Z.of_nat (length e.1) <= 2 ^ 32 - 4) as Hn by (unfold pad_str in Hl; rewrite length_app in Hl; lia).
  assert (Z.of_nat (length vals) <= 2 ^ 32 - 4) as Hv
    by (unfold pad_str in Hl; rewrite (length_app vals) in Hl; lia).
  unfold r_entry. rewrite <- !app_assoc, r_u64_at by apply nameCookie_in64.
  rewrite r_str_at by done. cbn [mbind option_bind].
  pose proof (r_bitmap_at ((v ++ be8 (nameCookie e.1)) ++ be4 (u32 (Z.of_nat (length e.1))) ++ pad_str e.1) [w.1; w.2]
    (be4 (u32 (Z.of_nat (length vals))) ++ pad_str vals ++ q)) as Hb. rewrite !bind_cons in Hb. change ([] ≫= be4) with (@nil byte) in Hb. rewrite app_nil_r, <- (app_assoc (be4 w.1)) in Hb.
  change (Z.of_nat (length [w.1; w.2])) with 2 in Hb. rewrite Hb; [|by rewrite Forall_cons, Forall_singleton|simpl; lia].
  rewrite r_skipOpaque_at by done. by rewrite <- !app_assoc.
Qed.
Lemma r_entries_at fs req l v (eof : bool) fuel :
  Forall (λ e, Z.of_nat (length (one_entry fs req e)) <= 2 ^ 32 - 4) l → (length l < fuel)%nat →
  r_entries fuel (rd_at v (entries4 fs req l ++ be4 0 ++ be4 (if eof then 1 else 0))) = Some (shown <$> l, eof).
Proof.
  intros Hl. revert v fuel. induction Hl as [|e l He _ IH]; intros v [|fuel] Hf; try (simpl in Hf; lia); cbn [r_entries].
  - change (entries4 fs req []) with (@nil byte). rewrite app_nil_l, r_u32_at by done. cbn [Z.eqb]. rewrite <- (app_nil_r (be4 (if eof then _ else _))).
    rewrite r_u32_at by (by destruct eof). by destruct eof.
  - unfold entries4. rewrite bind_cons. unfold entry4 at 1. rewrite <- !app_assoc, r_u32_at by done. cbn [Z.eqb Pos.eqb].
    rewrite r_entry_at by done. unfold shown at 1. cbn [mbind option_bind]. fold (entries4 fs req l).
    rewrite IH by (simpl in Hf; lia). done.
Qed.
End Entry.

(** ** One call, and the walk *)

Section Walk.
Context {M : Type} `{!KvEngine M}.
Implicit Types (fs : Store M) (dir : Handle) (s : NState M) (req : list Z) (e : bytes * Handle) (v : S4).

(** READDIR's arguments: cookie, verifier, dircount, maxcount, attributes. *)
Definition readdir_args (cookie mx : Z) req : bytes :=
  be8 cookie ++ be8 0 ++ be4 mx ++ be4 mx ++ be4 (Z.of_nat (length req)) ++ (req ≫= be4).
(** The status and the result of one READDIR on the current file handle. *)
Definition ask v (cookie mx : Z) req : Proc M (Z * bytes) := λ s,
  match opReaddir v (mkNs (ns_fs s) (rd_at [] (readdir_args cookie mx req)) [] (ns_ck s)) with
  | Some ((st, _), s') => Some ((st, ns_out s'), mkNs (ns_fs s') (ns_rd s) (ns_out s) (ns_ck s'))
  | None => None
  end.
(** A client that asks again from the last cookie until the end; the entries
    follow status and verifier. *)
Fixpoint walk4 (fuel : nat) v (cookie mx : Z) req : Proc M (list (Z * bytes)) :=
  match fuel with
  | O => λ _, None
  | S fuel' =>
      '(st, body) ← ask v cookie mx req;
      match (if st =? NFS4_OK then r_entries (S (length body)) (rd_at [] (drop 12 body)) else None) with
      | Some (es, true) => mret es
      | Some (es, false) =>
          match last es with
          | Some e => more ← walk4 fuel' v e.1 mx req; mret (es ++ more)
          | None => λ _, None
          end
      | None => λ _, None
      end
  end.
Definition cookie4_at (l : list (bytes * Handle)) (i : nat) : Z :=
  match i with O => 0 | S j => default 0 ((λ e, nameCookie e.1) <$> l !! j) end.

(** The reading of the arguments. *)
Lemma bind4_at {A B} (p : Proc4 M A) (f : A → Proc4 M B) v s x v' s' :
  p v s = Some ((x, v'), s') → (p ≫= f) v s = f x v' s'.
Proof. intros H. unfold mbind, proc4_bind, mbind, proc_bind. by rewrite H. Qed.
Lemma lift_at {A} (p : Proc M A) v s x s' : p s = Some (x, s') → lift p v s = Some ((x, v), s').
Proof. intros H. unfold lift, mbind, proc_bind. by rewrite H. Qed.
Lemma read_at {A} (f : Reader → A * Reader) x v fs r r' out ck :
  f r = (x, r') → read f v (mkNs fs r out ck) = Some ((x, v), mkNs fs r' out ck).
Proof. intros H. apply lift_at. unfold rd. cbn [ns_rd]. by rewrite H. Qed.
(** One step of a program whose first part is known. *)
Ltac step4 tac := erewrite bind4_at by tac; cbv beta iota.
(** One call: the entries after [after] that fit. *)
Lemma ask_spec v dir cookie mx req s after :
  inv (ns_fs s) → handle_ok dir → in64 cookie → in32 mx → Forall in32 req → (length req <= 16)%nat →
  cfh (s4_fh v) = Some (h_id dir, h_snap dir) → nodeById (ns_fs s) (h_id dir) (h_snap dir) = Some dir →
  n_type (ns_fs s) dir = tcode DIR →
  (∀ r out, let s1 := mkNs (ns_fs s) r out (ns_ck s) in
    (if cookie =? 0 then mret (Some []) else resumeName dir cookie) s1 = Some (Some after, s1)) →
  let l := rest (ns_fs s) dir after in
  ∃ k s', ask v cookie mx req s =
      Some ((NFS4_OK, be4 0 ++ be8 0 ++ entries4 (ns_fs s) req (take k l) ++ be4 0 ++ be4 (if bool_decide (k = length l) then 1 else 0)), s') ∧
    same_but_ck l.*1 s s' ∧ (k <= length l)%nat ∧
    ((k < length l)%nat → mx < 96 + Z.of_nat (length (entries4 (ns_fs s) req (take (S k) l))) + 4).
Proof.
  intros I Hd Hc Hm Hreq Hl Hcfh Hnode Hdir Hafter l. destruct (fit4_spec (ns_fs s) req mx 96 l) as (k & Hk & Hle & Hend & _ & Hmore).
  exists k. destruct s as [fs r0 out0 ck]. cbn [ns_fs ns_ck] in *.
  assert (∀ r, cur v (mkNs fs r [] ck) = Some ((Some dir, v), mkNs fs r [] ck)) as Hcur.
  { intros r. unfold cur, get4. step4 ltac:(reflexivity). rewrite Hcfh. apply lift_at. unfold fs_get. cbn [ns_fs]. by rewrite Hnode. }
  assert (∀ r, (if cookie =? 0 then mret (Some []) else lift (resumeName dir cookie)) v (mkNs fs r [] ck) =
    Some ((Some after, v), mkNs fs r [] ck)) as Hrn.
  { intros r. specialize (Hafter r []). destruct (cookie =? 0); [by injection Hafter as <-|by apply lift_at]. }
  unfold ask, readdir_args, opReaddir. cbn [ns_fs ns_ck].
  step4 ltac:(apply read_at; by apply r_u64_at).
  step4 ltac:(apply read_at; exact (f_equal (pair tt) (r_skip_at _ (be8 0) _))).
  do 2 step4 ltac:(apply read_at; by apply r_u32_at).
  rewrite <- (app_nil_r (req ≫= be4)).
  step4 ltac:(apply read_at; by apply r_bitmap_at).
  unfold with_cur. step4 ltac:(apply Hcur).
  step4 ltac:(apply lift_at; unfold fs_get; cbn [ns_fs]; by rewrite Hdir). rewrite Z.eqb_refl. cbn [negb].
  step4 ltac:(apply Hrn). do 3 step4 ltac:(reflexivity). cbn [ns_fs ns_rd ns_out ns_ck].
  match goal with |- context [(lift (page_loop4 _ _ _ _ _ _) ≫= _) _ ?s] => set (s1 := s) end.
  destruct (page_loop4_spec req mx dir (page_fuel fs dir) 96 after s1) as (s2 & E & E1 & E2 & E3 & E4); [done..|apply length_rest|unfold page_fuel; lia|].
  cbn [s1 ns_fs] in E, E1, E3. fold l in E, E3. rewrite Hend in E. rewrite Hk in E3.
  step4 ltac:(apply lift_at; exact E). do 2 step4 ltac:(reflexivity). cbn [ns_fs ns_rd ns_out ns_ck].
  eexists. split; [|split; [|done]].
  - unfold done_, mret, proc4_ret, mret, proc_ret. rewrite !w_u32_eq. cbn [ns_out ns_fs ns_ck]. rewrite E3. unfold s1. cbn [ns_out].
    unfold w_zeros. rewrite w_u32_eq. rewrite <- !app_assoc.
    replace (u32 (if bool_decide (k = length l) then 1 else 0)) with (if bool_decide (k = length l) then 1 else 0) by (by case_bool_decide).
    reflexivity.
  - split_and!; try done.
Qed.

(** *** The whole walk *)

Section OneDirectory.
Context fs v dir (mx : Z) req (I : inv fs) (Hd : handle_ok dir) (Hm : in32 mx).
Context (Hreq : Forall in32 req) (Hl : (length req <= 16)%nat) (Hcfh : cfh (s4_fh v) = Some (h_id dir, h_snap dir)).
Context (Hnode : nodeById fs (h_id dir) (h_snap dir) = Some dir) (Hdir : n_type fs dir = tcode DIR).
Context (Hfit : Forall (λ e, 96 + Z.of_nat (length (one_entry fs req e)) + 8 <= mx) (visible fs dir)).
Let l := visible fs dir.

Lemma length_entries4_ge l' : (length l' <= length (entries4 fs req l'))%nat.
Proof.
  induction l' as [|e l' IH]; [simpl; lia|]. apply Nat2Z.inj_le. rewrite length_entries4. simpl. lia.
Qed.
Lemma ask_at_spec s i :
  ns_fs s = fs → cookies_ok dir s → (i <= length l)%nat →
  ∃ k s', ask v (cookie4_at l i) mx req s =
      Some ((NFS4_OK, be4 0 ++ be8 0 ++ entries4 fs req (take k (drop i l)) ++ be4 0 ++
        be4 (if bool_decide (k = length (drop i l)) then 1 else 0)), s') ∧
    same_but_ck (visible (ns_fs s) dir).*1 s s' ∧ (k <= length (drop i l))%nat ∧ (k = 0%nat → drop i l = []).
Proof.
  intros Hfs Hck Hi. assert (∃ after, rest fs dir after = drop i l ∧ in64 (cookie4_at l i) ∧
    ∀ r out, let s1 := mkNs (ns_fs s) r out (ns_ck s) in
    (if cookie4_at l i =? 0 then mret (Some []) else resumeName dir (cookie4_at l i)) s1 = Some (Some after, s1)) as (after & Hrest & Hc & Hafter).
  { destruct i as [|j]; cbn [cookie4_at].
    - exists []. split; [apply rest_nil|]. split; [done|]. done.
    - destruct (l !! j) as [[n x]|] eqn:Hj; [|apply lookup_ge_None in Hj; lia]. cbn [fmap option_fmap option_map from_option id fst].
      exists n. split; [by apply (rest_visible _ _ _ _ x)|]. split; [apply nameCookie_in64|]. intros r out.
      assert ((nameCookie n =? 0) = false) as -> by (apply Z.eqb_neq; pose proof (proj2 (CK_ENTRY_set n)); change CK_ENTRY with (2 ^ 63) in *; lia).
      apply resumeName_spec; cbn [ns_fs]; [by rewrite Hfs|done|exact Hck|].
      rewrite Hfs. apply list_elem_of_fmap. exists (n, x). split; [done|]. by eapply list_elem_of_lookup_2. }
  subst fs. destruct (ask_spec v dir (cookie4_at l i) mx req s after) as (k & s' & E & Hs & Hk & Hmore); [done..|].
  rewrite Hrest in *. exists k, s'. split; [exact E|]. split.
  { eapply same_but_ck_sub; [|done]. intros n. rewrite !list_elem_of_fmap. intros (e & -> & He). exists e. split; [done|].
    rewrite <- (take_drop i (visible _ _)). apply elem_of_app. by right. }
  split; [done|]. intros ->. destruct (drop i l) as [|e l'] eqn:El; [done|]. exfalso.
  assert (e ∈ l) as He by (rewrite <- (take_drop i l), El; set_solver).
  pose proof (proj1 (Forall_forall _ l) Hfit e He) as Hfe. simpl in Hfe.
  specialize (Hmore ltac:(simpl; lia)). cbn [take] in Hmore. rewrite firstn_O, length_entries4 in Hmore. simpl in Hmore. lia.
Qed.
Lemma walk4_spec fuel s i :
  ns_fs s = fs → cookies_ok dir s → (i <= length l)%nat → (length l - i < fuel)%nat →
  ∃ s', walk4 fuel v (cookie4_at l i) mx req s = Some (shown <$> drop i l, s') ∧ ns_fs s' = fs.
Proof.
  revert s i. induction fuel as [|fuel IH]; intros s i Hfs Hck Hi Hf; [lia|]. cbn [walk4].
  destruct (ask_at_spec s i Hfs Hck Hi) as (k & s1 & E & Hs1 & Hk & Hk0).
  unfold mbind at 1, proc_bind at 1. rewrite E. cbn [Z.eqb NFS4_OK].
  change (drop 12 (be4 0 ++ be8 0 ++ ?b)) with b. pose proof (length_entries4_ge (take k (drop i l))) as Hge.
  rewrite (r_entries_at fs req (take k (drop i l)) []).
  2: { apply Forall_take, Forall_drop. eapply Forall_impl; [exact Hfit|]. intros e He. simpl in He. word_lia. }
  2: { rewrite !length_app. lia. }
  assert (ns_fs s1 = fs) as Hfs1 by (destruct Hs1 as (-> & _); done). case_bool_decide as Hend.
  { exists s1. split; [|done]. by rewrite Hend, firstn_all. }
  destruct k as [|k]; [by rewrite Hk0 in Hend|]. rewrite length_drop in *.
  destruct (l !! (i + k)%nat) as [e|] eqn:He; [|apply lookup_ge_None in He; lia].
  assert (take (S k) (drop i l) = take k (drop i l) ++ [e]) as Ht by (apply take_S_r; by rewrite lookup_drop).
  assert (last (shown <$> take (S k) (drop i l)) = Some (shown e)) as -> by (rewrite Ht, fmap_app; apply last_snoc).
  assert ((shown e).1 = cookie4_at l (S (i + k))) as -> by (cbn [cookie4_at]; by rewrite He).
  destruct (IH s1 (S (i + k))%nat) as (s2 & E2 & Hs2); [done|eapply cookies_ok_more; [exact Hck|exact Hs1]|lia|lia|].
  unfold mbind, proc_bind. rewrite E2. exists s2. split; [|done]. unfold mret, proc_ret.
  replace (S (i + k)) with (i + S k)%nat by lia. by rewrite <- drop_drop, <- fmap_app, take_drop.
Qed.
End OneDirectory.

(** A client that lists a directory over NFSv4 and asks again from the
    last cookie it decodes reaches the end, and has decoded every entry's
    cookie and name once, in order - from bytes that also carry whatever
    attributes it asked for, however the pages are cut, as long as its byte
    count takes one entry at a time. *)
Theorem readdir_walk4 v dir mx req s :
  let fs := ns_fs s in
  reachable_from fresh_store fs → handle_ok dir → cookies_ok dir s →
  in32 mx → Forall in32 req → (length req <= 16)%nat →
  cfh (s4_fh v) = Some (h_id dir, h_snap dir) → nodeById fs (h_id dir) (h_snap dir) = Some dir → n_type fs dir = tcode DIR →
  Forall (λ e, 96 + Z.of_nat (length (one_entry fs req e)) + 8 <= mx) (visible fs dir) →
  ∃ s', walk4 (S (length (visible fs dir))) v 0 mx req s = Some (shown <$> visible fs dir, s') ∧ ns_fs s' = fs.
Proof.
  intros fs R%inv_reachable Hd Hc Hm Hreq Hl Hcfh Hnode Hdir Hfit.
  apply (walk4_spec fs v dir mx req R Hd Hm Hreq Hl Hcfh Hnode Hdir Hfit _ s 0); [done|done|lia|lia].
Qed.
End Walk.

(** Pages of one entry each. *)
Lemma readdir_walk4_witness :
  ∃ s', walk4 (S (length (visible demo (mkHandle 1 LATEST)))) (mkS4 (mkCfh (Some (1, LATEST)) None) V40) 0 150 [2] (demo_ns (rd_at [] [])) =
    Some (shown <$> visible demo (mkHandle 1 LATEST), s') ∧ ns_fs s' = demo.
Proof.
  apply (readdir_walk4 (mkS4 (mkCfh (Some (1, LATEST)) None) V40) (mkHandle 1 LATEST) 150 [2] (demo_ns (rd_at [] [])));
    [apply demo_reachable|done| |done|by apply Forall_singleton|simpl; lia|done|vm_compute; reflexivity|vm_compute; reflexivity|].
  - intros n m. cbn [demo_ns ns_fs ns_ck]. rewrite demo_visible, lookup_empty. cbn [fmap list_fmap fst].
    intros Hn [[Hm Hh]|]; [|done]. revert Hh. rewrite !elem_of_cons in Hn, Hm.
    destruct Hn as [-> |[-> |Hn%elem_of_nil]], Hm as [-> |[-> |Hm%elem_of_nil]]; done.
  - cbn [demo_ns ns_fs]. rewrite demo_visible. repeat constructor; vm_compute; discriminate.
Defined.
