(* ===== verification/Nfs4Trace.v ===== *)
(** * Nfs4Trace: COMPOUND as a sequence of operations, and the operations as
    events of the client/open/lock state *)
From S2P Require Import Prelude Keys Kv NodeRec Store Inv Di Host Xdr Nfs3 Nfs4State Nfs4 Nfs4StateProps Nfs4Props.
Local Open Scope Z_scope.
Set Warnings "-clear-no-such-hyp".

Section Trace.
Context {M : Type} `{!KvEngine M} {order : MapOrder}.
Context (reg : Registry Provider) (prov : bytes) (hash : bytes → Z).
Implicit Types (s : NState M) (v : S4) (w : V4).

(** ** A COMPOUND runs its operations in turn and stops at the first error *)

(** Operations run one after the other, with the status of each. *)
Inductive serves : S4 → NState M → list Z → S4 → NState M → Prop :=
  | serves_nil v s : serves v s [] v s
  | serves_cons v s op v1 s1 st v2 s2 sts v' s' :
      rd_ok (ns_rd s) = true → read r_u32 v s = Some ((op, v1), s1) →
      doOp reg prov hash op v1 s1 = Some ((st, v2), s2) →
      serves v2 s2 sts v' s' → serves v s (st :: sts) v' s'.

(** C31. COMPOUND is sequential and stops at the first error: what its loop
    does is to run operations one after the other, each on the state the one
    before left; all but the last succeeded, the status of the reply is that of
    the last, the count is how many ran, and a loop that ends in success ran
    all of them or ran out of arguments. *)
Theorem nfs4_compound_stops nops v s rc done v' s' :
  compound_loop reg prov hash nops NFS4_OK 0 v s = Some ((rc, done, v'), s') →
  ∃ sts, serves v s sts v' s' ∧ done = Z.of_nat (length sts) ∧ (length sts <= nops)%nat ∧
    rc = default NFS4_OK (last sts) ∧
    (∀ i st, sts !! i = Some st → (S i < length sts)%nat → st = NFS4_OK) ∧
    (rc = NFS4_OK → length sts = nops ∨ rd_ok (ns_rd s') = false).
Proof.
  cut (∀ last0 done0, compound_loop reg prov hash nops last0 done0 v s = Some ((rc, done, v'), s') → last0 = NFS4_OK →
    ∃ sts, serves v s sts v' s' ∧ done = done0 + Z.of_nat (length sts) ∧ (length sts <= nops)%nat ∧
      rc = default NFS4_OK (last sts) ∧
      (∀ i st, sts !! i = Some st → (S i < length sts)%nat → st = NFS4_OK) ∧
      (rc = NFS4_OK → length sts = nops ∨ rd_ok (ns_rd s') = false)).
  { intros H Hl. by apply (H NFS4_OK 0). }
  revert v s. induction nops as [|nops IH]; intros v s last0 done0; cbn [compound_loop]; intros H ->.
  { injection H as <- <- <- <-. exists []. split_and!; [constructor|simpl; lia|done..|by left]. }
  apply bind4_Some in H as (ok & v1 & s1 & H1 & H). injection H1 as <- <- <-.
  destruct (rd_ok (ns_rd s)) eqn:Hok; cbn [negb] in H.
  2: { injection H as <- <- <- <-. exists []. split_and!; [constructor|simpl; lia|simpl; lia|done..|by right]. }
  apply bind4_Some in H as (op & v1 & s1 & H1 & H). apply bind4_Some in H as (st & v2 & s2 & H2 & H).
  destruct (Z.eqb_spec st NFS4_OK) as [-> |Hst]; cbn [negb] in H.
  - destruct (IH v2 s2 NFS4_OK (done0 + 1) H eq_refl) as (sts & S1 & S2 & S3 & S4 & S5 & S6).
    exists (NFS4_OK :: sts). split; [by eapply serves_cons|]. cbn [length]. split_and!; [lia|lia|..].
    + rewrite S4. by destruct sts.
    + intros [|i] st'; simpl; [by intros [= <-]|]. intros Hi Hlt. apply (S5 i); [done|lia].
    + intros Hrc. destruct (S6 Hrc) as [?|?]; [left; lia|by right].
  - injection H as <- <- <- <-. exists [st]. split; [eapply serves_cons; [done..|constructor]|].
    split_and!; [simpl; lia|simpl; lia|done| |done]. intros [|i] st'; simpl; [lia|done].
Qed.

(** ** The client state moves by events *)

(** At most [k] events, each with its clientid checked. *)
Definition moves (k : Z) w w' : Prop :=
  ∃ evs, Z.of_nat (length evs) <= k ∧ w' = run_events hash w evs ∧
    (1 <= m_nextClientid w → m_nextClientid w + k < 2 ^ 64 →
     guarded hash w evs = true ∧ 1 <= m_nextClientid w' <= m_nextClientid w + k).
Lemma moves_refl k w : 0 <= k → moves k w w.
Proof. intros. exists []. split_and!; [done..|]. intros. split; [done|lia]. Qed.
Lemma guarded_app w evs1 evs2 :
  guarded hash w (evs1 ++ evs2) = guarded hash w evs1 && guarded hash (run_events hash w evs1) evs2.
Proof. revert w. induction evs1 as [|ev evs1 IH]; intros w; simpl; [done|]. by rewrite IH, andb_assoc. Qed.
Lemma moves_trans j k w1 w2 w3 : 0 <= j → 0 <= k → moves j w1 w2 → moves k w2 w3 → moves (j + k) w1 w3.
Proof.
  intros Hj Hk (e1 & L1 & -> & G1) (e2 & L2 & -> & G2). exists (e1 ++ e2). split; [rewrite length_app; lia|].
  split; [symmetry; apply fold_left_app|]. intros H1 H2. destruct G1 as [G1 N1]; [lia..|]. destruct G2 as [G2 N2]; [lia..|].
  split; [by rewrite guarded_app, G1, G2|lia].
Qed.
Lemma moves_le j k w w' : j <= k → moves j w w' → moves k w w'.
Proof. intros ? (evs & ? & ? & HG). exists evs. split_and!; [lia|done|]. intros. destruct HG; [lia..|]. split; [done|lia]. Qed.
Lemma next_event w ev : guard w ev = true → 1 <= m_nextClientid w →
  1 <= m_nextClientid (run_event hash w ev) <= m_nextClientid w + 1.
Proof.
  intros Hg Hn. destruct ev; cbn [run_event guard] in *.
  - apply Z.ltb_lt in Hg. unfold set_clientid. repeat case_match; simpl; try lia. rewrite u64_small by word_lia. lia.
  - unfold setclientid_confirm. repeat case_match; simpl; try lia.
    match goal with |- context [fold_left drop_lease ?ks w] => pose proof (proj1 (fold_drop_state ks w)) as E; rewrite E; lia end.
  - unfold open_state. repeat case_match; simpl; lia.
  - unfold close_state. repeat case_match; simpl; lia.
  - unfold open_confirm. repeat case_match; simpl; lia.
  - unfold open_downgrade. repeat case_match; simpl; lia.
  - unfold lock_state, lock_grant. repeat case_match; simplify_eq/=; lia.
  - unfold locku_state. repeat case_match; simpl; lia.
  - simpl. lia.
Qed.
Lemma moves_event w ev :
  (m_nextClientid w + 1 < 2 ^ 64 → guard w ev = true) → moves 1 w (run_event hash w ev).
Proof.
  intros Hg. exists [ev]. split_and!; [done..|]. intros H1 H2. specialize (Hg H2).
  split; [simpl; by rewrite Hg|by apply next_event].
Qed.

(** Programs that leave the client state alone, and that move it. *)
Definition stays {A} w (p : Proc4 M A) (Φ : A → Prop) : Prop :=
  ∀ v s x v' s', s4_st v = w → p v s = Some ((x, v'), s') → s4_st v' = w ∧ Φ x.
Definition evolves {A} w (k : Z) (p : Proc4 M A) : Prop :=
  ∀ v s x v' s', s4_st v = w → p v s = Some ((x, v'), s') → moves k w (s4_st v').
Definition any {A} : A → Prop := λ _, True.

Lemma stays_ret {A} w (x : A) (Φ : A → Prop) : Φ x → stays w (mret x) Φ.
Proof. intros Hx v s y v' s' Hw [= <- <- <-]. done. Qed.
Lemma stays_bind {A B} w (p : Proc4 M A) (f : A → Proc4 M B) Φ Ψ :
  stays w p Φ → (∀ x, Φ x → stays w (f x) Ψ) → stays w (p ≫= f) Ψ.
Proof. intros Hp Hf v s y v' s' Hw (x & v1 & s1 & H1 & H)%bind4_Some. destruct (Hp _ _ _ _ _ Hw H1) as [E Hx]. by eapply Hf. Qed.
Lemma stays_lift {A} w (p : Proc M A) : stays w (lift p) any.
Proof. intros v s x v' s' Hw. unfold lift, mbind, proc_bind, mret, proc_ret. destruct (p s) as [[y s1]|]; [|done]. by intros [= <- <- <-]. Qed.
Lemma stays_get4 {A} w (f : S4 → A) : stays w (get4 f) any.
Proof. by intros v s x v' s' Hw [= <- <- <-]. Qed.
Lemma stays_check {A} w (f : V4 → A) : stays w (st4 (λ w, (f w, w))) (λ x, x = f w).
Proof. by intros v s x v' s' Hw [= <- <- <-]; rewrite Hw. Qed.
Lemma stays_set_cfh w h : stays w (set_cfh h) any.
Proof. by intros v s x v' s' Hw [= <- <- <-]. Qed.
Lemma stays_set_sfh w h : stays w (set_sfh h) any.
Proof. by intros v s x v' s' Hw [= <- <- <-]. Qed.
Lemma stays_weaken {A} w (p : Proc4 M A) (Φ Ψ : A → Prop) : stays w p Φ → (∀ x, Φ x → Ψ x) → stays w p Ψ.
Proof. intros Hp HΦ v s x v' s' Hw H. destruct (Hp _ _ _ _ _ Hw H). auto. Qed.

Lemma evolves_stays {A} w k (p : Proc4 M A) Φ : 0 <= k → stays w p Φ → evolves w k p.
Proof. intros Hk Hp v s x v' s' Hw H. destruct (Hp _ _ _ _ _ Hw H) as [-> _]. by apply moves_refl. Qed.
Lemma evolves_bind {A B} w k (p : Proc4 M A) (f : A → Proc4 M B) Φ :
  stays w p Φ → (∀ x, Φ x → evolves w k (f x)) → evolves w k (p ≫= f).
Proof. intros Hp Hf v s y v' s' Hw (x & v1 & s1 & H1 & H)%bind4_Some. destruct (Hp _ _ _ _ _ Hw H1) as [E Hx]. by eapply Hf. Qed.
Lemma evolves_st {A B} w k (f : V4 → A * V4) (K : A → Proc4 M B) :
  moves k w (f w).2 → (∀ x w', stays w' (K x) any) → evolves w k (st4 f ≫= K).
Proof.
  intros Hf HK v s y v' s' Hw (x & v1 & s1 & H1 & H)%bind4_Some. unfold st4 in H1. rewrite Hw in H1.
  destruct (f w) as [x' w']. injection H1 as <- <- <-. by destruct (HK x' w' (mkS4 (s4_fh v) w') _ _ _ _ eq_refl H) as [-> _].
Qed.
End Trace.

(** One step of a program that does not touch the client state. *)
Ltac stays1 :=
  lazymatch goal with
  | |- stays _ (mret _) _ => apply stays_ret; exact I
  | |- stays _ (mbind _ _) _ => eapply (stays_bind _ _ _ any); [stays_prim|intros ? _]
  | |- stays _ (match ?x with _ => _ end) _ => destruct x
  | |- stays _ _ _ => first [stays_prim | progress cbv zeta]
  end
with stays_prim :=
  lazymatch goal with
  | |- stays _ (st4 _) _ => eapply stays_weaken; [apply stays_check|done]
  | |- stays _ (set_cfh _) _ => apply stays_set_cfh
  | |- stays _ (set_sfh _) _ => apply stays_set_sfh
  | |- stays _ (get4 _) _ => apply stays_get4
  | |- stays _ cur_live _ => apply stays_get4
  | |- stays _ (lift _) _ => apply stays_lift
  | |- stays _ (get_fs _) _ => apply stays_lift
  | |- stays _ (op_fs _) _ => apply stays_lift
  | |- stays _ (new_fs _) _ => apply stays_lift
  | |- stays _ (read _) _ => apply stays_lift
  | |- stays _ read_str _ => apply stays_lift
  | |- stays _ (skip_ _) _ => apply stays_lift
  | |- stays _ is_ok _ => apply stays_lift
  | |- stays _ get_reader _ => apply stays_lift
  | |- stays _ (out _) _ => apply stays_lift
  | |- stays _ (out_u32 _) _ => apply stays_lift
  | |- stays _ (answer _) _ => unfold answer; repeat stays1
  | |- stays _ done_ _ => unfold done_; stays1
  | |- stays _ cur _ => unfold cur; repeat stays1
  | |- stays _ (out_fattr _ _) _ => unfold out_fattr; repeat stays1
  | |- stays _ (out_change _ _) _ => unfold out_change; repeat stays1
  | |- stays _ (touchDir4 _) _ => unfold touchDir4; repeat stays1
  | |- stays _ skip_fattr _ => unfold skip_fattr; repeat stays1
  | |- stays _ (with_cur _) _ => unfold with_cur; repeat stays1
  | |- stays _ (with_dir _) _ => unfold with_dir; repeat stays1
  | |- stays _ (with_access _ _ _ _) _ => unfold with_access; repeat stays1
  | |- stays _ (with_saved _) _ => unfold with_saved; repeat stays1
  | |- stays _ (match _ with _ => _ end) _ => repeat stays1
  | |- stays _ (mbind _ _) _ => repeat stays1
  | |- stays _ (mret _) _ => stays1
  end.
Ltac stays_go := repeat stays1.
(** One step up to the change of the client state. *)
Ltac evolves1 :=
  lazymatch goal with
  | |- evolves _ _ _ (answer _) => apply (evolves_stays _ _ _ _ any); [lia|solve [stays_go]]
  | |- evolves _ _ _ (mbind _ _) => eapply (evolves_bind _ _ _ _ _ any); [solve [stays_go]|intros ? _]
  | |- evolves _ _ _ (with_cur _) => unfold with_cur
  | |- evolves _ _ _ (with_dir _) => unfold with_dir
  | |- evolves _ _ _ (match ?x with _ => _ end) => destruct x eqn:?
  end.

Section Events.
Context {M : Type} `{!KvEngine M} {order : MapOrder}.
Context (reg : Registry Provider) (prov : bytes) (hash : bytes → Z).
Implicit Types (s : NState M) (v : S4) (w : V4).

Lemma evolves_opClose w : evolves (M:=M) hash w 1 opClose.
Proof.
  unfold opClose. do 2 evolves1. apply evolves_st; [|intros; stays_go].
  pose proof (moves_event hash w (EvClose x0) (λ _, eq_refl)) as H. simpl in H. by destruct (close_state w x0).
Qed.
Lemma evolves_opOpenConfirm w : evolves (M:=M) hash w 1 opOpenConfirm.
Proof.
  unfold opOpenConfirm. do 2 evolves1. apply evolves_st; [|intros; stays_go].
  apply (moves_event hash w (EvOpenConfirm x) (λ _, eq_refl)).
Qed.
Lemma evolves_opOpenDowngrade w : evolves (M:=M) hash w 1 opOpenDowngrade.
Proof.
  unfold opOpenDowngrade. do 4 evolves1. apply evolves_st; [|intros; stays_go].
  pose proof (moves_event hash w (EvDowngrade x x1 x2) (λ _, eq_refl)) as H. simpl in H. by destruct (open_downgrade w x x1 x2) as [[? ?]|].
Qed.
Lemma evolves_opLocku w : evolves (M:=M) hash w 1 opLocku.
Proof.
  unfold opLocku. do 5 evolves1. apply evolves_st; [|intros; stays_go].
  pose proof (moves_event hash w (EvLocku x1 x2 x3) (λ _, eq_refl)) as H. simpl in H. by destruct (locku_state w x1 x2 x3) as [[? ?]|].
Qed.
Lemma evolves_opReleaseLockowner w : evolves (M:=M) hash w 1 opReleaseLockowner.
Proof.
  unfold opReleaseLockowner. do 2 evolves1. apply evolves_st; [|intros; stays_go].
  apply (moves_event hash w (EvRelease x x0) (λ _, eq_refl)).
Qed.
Lemma evolves_opSetClientid w : evolves (M:=M) hash w 1 (opSetClientid hash).
Proof.
  unfold opSetClientid. do 8 evolves1; [apply (evolves_stays _ _ _ _ any); [lia|solve [stays_go]]|]. apply evolves_st; [|intros; stays_go].
  apply (moves_event hash w (EvSetClientid x x0 x1 x2 x3 x4)). intros. by apply Z.ltb_lt.
Qed.
Lemma evolves_opSetClientidConfirm w : evolves (M:=M) hash w 1 opSetClientidConfirm.
Proof.
  unfold opSetClientidConfirm. do 2 evolves1. apply evolves_st; [|intros; stays_go].
  pose proof (moves_event hash w (EvConfirm x x0) (λ _, eq_refl)) as H. simpl in H. by destruct (setclientid_confirm w x x0).
Qed.

Lemma stays_open_how w : stays (M:=M) w open_how any.
Proof. unfold open_how. stays_go. Qed.
Lemma stays_open_node w dir name opentype createmode attrs :
  stays (M:=M) w (open_node dir name opentype createmode attrs) any.
Proof. unfold open_node. stays_go. Qed.
(** OPEN checks the lease and reserves in the state it checked. *)
Lemma evolves_opOpen w : evolves (M:=M) hash w 1 opOpen.
Proof.
  unfold opOpen. do 5 evolves1. eapply evolves_bind; [apply stays_check|intros confirmed ->].
  destruct (clientConfirmed w x2) eqn:Hc; cbn [negb]; [|evolves1].
  eapply evolves_bind; [apply stays_open_how|intros [[opentype createmode] attrs] _].
  repeat evolves1.
  eapply evolves_bind; [apply stays_open_node|intros [st|[child created]] _]; [evolves1|].
  unfold open_grant. evolves1. apply evolves_st; [|intros; stays_go].
  pose proof (moves_event hash w (EvOpen x2 x3 (h_id child) x0 x1) (λ _, Hc)) as H. simpl in H.
  by destruct (open_state w x2 x3 (h_id child) x0 x1) as [[r w']|].
Qed.
Lemma evolves_opLock w : evolves (M:=M) hash w 1 opLock.
Proof.
  unfold opLock. do 5 evolves1.
  eapply (evolves_bind _ _ _ _ _ (λ a, match a with Some (None, c, _) => clientConfirmed w c = true | _ => True end)).
  - destruct (negb _).
    + do 5 (eapply (stays_bind _ _ _ any); [stays_go|intros ? _]). eapply stays_bind; [apply stays_check|intros confirmed ->].
      destruct (clientConfirmed w _) eqn:Hc; by apply stays_ret.
    + do 2 (eapply (stays_bind _ _ _ any); [stays_go|intros ? _]). by apply stays_ret.
  - intros [[[existing clientid] owner]|] Hc; [|evolves1]. repeat evolves1.
    apply evolves_st; [|intros; stays_go].
    apply (moves_event hash w (EvLock existing clientid owner (h_id h) x1 x2 (is_write x))). intros _. by destruct existing.
Qed.
Lemma evolves_doOp w op : evolves (M:=M) hash w 1 (doOp reg prov hash op).
Proof.
  unfold doOp. evolves1. repeat case_match;
    first [apply evolves_opOpen | apply evolves_opClose | apply evolves_opOpenConfirm | apply evolves_opOpenDowngrade
      | apply evolves_opLock | apply evolves_opLocku | apply evolves_opReleaseLockowner | apply evolves_opSetClientid
      | apply evolves_opSetClientidConfirm | apply (evolves_stays _ _ _ _ any); [lia|]].
  all: unfold opPutrootfh, opLookup, opAccess, opGetattr, opReadlink, opRead, opReaddir, opLockt, opRenew, opWrite,
    opSetattr, opCreate, opRemove, opRename, opLink; stays_go.
Qed.
Lemma evolves_compound_loop w nops last done :
  evolves (M:=M) hash w (Z.of_nat nops) (compound_loop reg prov hash nops last done).
Proof.
  revert w last done. induction nops as [|nops IH]; intros w last done; cbn [compound_loop].
  { apply (evolves_stays _ _ _ _ any); [lia|stays_go]. }
  do 2 evolves1; [apply (evolves_stays _ _ _ _ any); [lia|stays_go]|]. evolves1.
  intros v s x' v' s' Hw (st & v1 & s1 & H1 & H)%bind4_Some. pose proof (evolves_doOp w _ _ _ _ _ _ Hw H1) as Hm.
  replace (Z.of_nat (S nops)) with (1 + Z.of_nat nops) by lia.
  destruct (negb (st =? NFS4_OK)).
  - injection H as <- <- <-. eapply moves_le; [|done]. lia.
  - eapply moves_trans; [lia|lia|done|]. by eapply IH.
Qed.

Lemma run_bind3 {A B} (p : Proc M A) (f : A → Proc M B) s r :
  (p ≫= f) s = Some r → ∃ x s1, p s = Some (x, s1) ∧ f x s1 = Some r.
Proof. unfold mbind, proc_bind. destruct (p s) as [[x s1]|]; [|done]. by exists x, s1. Qed.
Lemma compound_moves w s body v' s' :
  compound reg prov hash (mkS4 Cfh0 w) s = Some ((body, v'), s') → moves hash 4096 w (s4_st v').
Proof.
  unfold compound. intros (tag & s1 & _ & H)%run_bind3.
  apply run_bind3 in H as (minor & s2 & _ & H).
  apply run_bind3 in H as (nops & s3 & Hn & H).
  apply run_bind3 in H as (ok & s4 & _ & H).
  destruct (_ || _) eqn:E; [injection H as <- <- <-; apply (moves_refl hash 4096 w); lia|].
  apply orb_false_iff in E as [_ E%Z.ltb_ge].
  apply run_bind3 in H as ([[last done] v1] & s5 & H5 & H).
  pose proof (evolves_compound_loop w _ _ _ (mkS4 Cfh0 w) _ _ _ _ eq_refl H5) as Hm.
  injection H as _ <- _. eapply moves_le; [|exact Hm]. lia.
Qed.
Lemma reply4_moves st ck w msg frame st' ck' w' :
  reply4 (M:=M) reg prov hash st ck w msg = Some (frame, st', ck', w') → moves hash 4096 w w'.
Proof.
  unfold reply4. repeat (destruct (r_u32 _) as [? ?]).
  destruct (_ || _); [intros [= _ _ _ <-]; by apply moves_refl|].
  destruct (_ =? 0); [intros [= _ _ _ <-]; by apply moves_refl|].
  destruct (_ =? 1); [|intros [= _ _ _ <-]; by apply moves_refl].
  destruct (compound _ _ _ _ _) as [[[body v] s]|] eqn:Hc; [|done]. intros [= _ _ _ <-]. by eapply compound_moves.
Qed.

(** C5. The handlers implement the state machine: one message moves the
    client, open and lock state by a sequence of at most 4096 events, each of
    them within its guard (its clientid is confirmed where the handler checks
    it), so every invariant of the state machine holds of a served session. *)
Theorem nfs4_refines_events st ck w mark msg o st' ck' w' :
  session_step4 (M:=M) reg prov hash st ck w mark msg = Some (o, st', ck', w') →
  ∃ evs, Z.of_nat (length evs) <= 4096 ∧ w' = run_events hash w evs ∧
    (1 <= m_nextClientid w → m_nextClientid w + 4096 < 2 ^ 64 → guarded hash w evs = true).
Proof.
  intros Hs. assert (moves hash 4096 w w') as (evs & ? & ? & Hg).
  2: { exists evs. split_and!; [done..|]. intros H1 H2. by destruct (Hg H1 H2). }
  revert Hs. unfold session_step4. case_match; [intros [= _ _ _ <-]; by apply moves_refl|].
  destruct (reply4 _ _ _ _ _ _ _) as [[[[frame fs] ck1] w1]|] eqn:E; [|done]. intros [= _ _ _ <-]. by eapply reply4_moves.
Qed.
End Events.
