(* ===== verification/Nfs4Wit.v ===== *)
(** * Nfs4Wit: the NFSv4 theorems at concrete calls *)
From S2P Require Import Prelude Keys Kv NodeRec Spec Store Views Shape Inv Init Reads Di Content FsStat Host Xdr StoreProps Nfs3 NfsSteps NfsSafe NfsPages NfsProps Nfs4State Nfs4 Nfs4StateProps Nfs4Safe Nfs4Props Nfs4Pages Nfs4Trace.
Local Open Scope Z_scope.

Definition w_name (n : bytes) : bytes := be4 (u32 (Z.of_nat (length n))) ++ pad_str n.
(** A COMPOUND with an empty tag; PUTROOTFH then CREATE of a directory. *)
Definition demo_compound (nops : Z) (ops : bytes) : bytes := demo_call PROG_NFS NFS_V4 1 (words [0; 0; nops] ++ ops).
Definition demo_create4 : bytes := demo_compound 2 (words [24; 6; NF4DIR] ++ w_name (str "new") ++ words [0; 0]).
Definition demo_v (id snap : Z) : S4 := mkS4 (mkCfh (Some (id, snap)) None) V40.
Definition demo_s (args : bytes) : NState (gmap bytes bytes) := demo_ns (rd_at [] args).
Lemma demo_fh_ok snap : fh_ok (demo_v 1 snap).
Proof. by split. Qed.

Lemma demo_snap_fh : snap_fh (demo_v 1 1).
Proof. exists 1, 1. split; [reflexivity|discriminate]. Qed.

Lemma nfs4_session_safe_witness :
  ∃ frame st' ck' w', session_step4 Registry0 [] no_hash demo ∅ V40 0x80000060 demo_create4 = Some (Replied frame, st', ck', w') ∧
  lookup_ st' (mkHandle 1 LATEST) (str "new") = Some (mkHandle 4 LATEST) ∧
  (steps MAX_STEPS demo st' ∧ reachable_from fresh_store st' ∧
   ∀ h n, in64 (h_id h) → isSnapDir (h_id h) = false → 1 <= h_snap h < m_cur demo →
     observe st' h = observe demo h ∧ lookup_ st' h n = lookup_ demo h n).
Proof.
  assert (match session_step4 Registry0 [] no_hash demo ∅ V40 0x80000060 demo_create4 with
    | Some (Replied _, st', _, _) => bool_decide (lookup_ st' (mkHandle 1 LATEST) (str "new") = Some (mkHandle 4 LATEST))
    | _ => false end = true) as Hc by (vm_compute; reflexivity).
  destruct (session_step4 Registry0 [] no_hash demo ∅ V40 0x80000060 demo_create4) as [[[[[|frame] st'] ck'] w']|] eqn:E; try discriminate Hc.
  exists frame, st', ck', w'. split; [reflexivity|]. split; [by apply bool_decide_eq_true in Hc|].
  apply (nfs4_session_safe Registry0 [] no_hash demo ∅ V40 0x80000060 demo_create4 (Replied frame) st' ck' w'); [apply demo_reachable| |exact E].
  apply demo_room. vm_compute. reflexivity.
Defined.

(** GETATTR of the root. *)
Definition demo_getattr : NState (gmap bytes bytes) := demo_s (words [1; 2]).
Lemma nfs4_readers_do_not_write_witness :
  ∃ rc v' s', doOp Registry0 [] no_hash OP_GETATTR (demo_v 1 LATEST) demo_getattr = Some ((rc, v'), s') ∧ ns_fs s' = demo.
Proof.
  destruct (answered (doOp Registry0 [] no_hash OP_GETATTR (demo_v 1 LATEST) demo_getattr)) as [[[rc v'] s'] E]; [vm_compute; reflexivity|].
  exists rc, v', s'. split; [exact E|].
  apply (nfs4_readers_do_not_write Registry0 [] no_hash 9 (demo_v 1 LATEST) demo_getattr rc v' s' demo_reachable (demo_fh_ok LATEST));
    [reflexivity|exact E].
Defined.

(** REMOVE in a snapshot of the root. *)
Definition demo_remove : NState (gmap bytes bytes) := demo_s (w_name (str "d")).
Lemma nfs4_snapshot_readonly_witness :
  ∃ rc v' s', doOp Registry0 [] no_hash OP_REMOVE (demo_v 1 1) demo_remove = Some ((rc, v'), s') ∧ ns_fs s' = demo.
Proof.
  destruct (answered (doOp Registry0 [] no_hash OP_REMOVE (demo_v 1 1) demo_remove)) as [[[rc v'] s'] E]; [vm_compute; reflexivity|].
  exists rc, v', s'. split; [exact E|].
  apply (nfs4_snapshot_readonly Registry0 [] no_hash 28 (demo_v 1 1) demo_remove rc v' s' demo_reachable (demo_fh_ok 1));
    [apply demo_snap_fh|reflexivity|exact E].
Defined.

(** WRITE of two bytes to a file, under the anonymous stateid. *)
Definition demo_write : NState (gmap bytes bytes) := demo_s (words [0; 0; 0; 0; 0; 0; 2] ++ w_name (str "xy")).

Lemma nfs4_readdir_page_witness :
  ∃ k s', page_loop4 (page_fuel demo (mkHandle 1 LATEST)) (mkHandle 1 LATEST) [2] 140 96 [] (demo_s []) =
      Some (bool_decide (k = length (rest demo (mkHandle 1 LATEST) [])), s') ∧ ns_fs s' = demo ∧
    (k <= length (rest demo (mkHandle 1 LATEST) []))%nat ∧
    ns_out s' = [] ++ entries4 demo [2] (take k (rest demo (mkHandle 1 LATEST) [])) ∧
    (k ≠ 0%nat → 96 + Z.of_nat (length (entries4 demo [2] (take k (rest demo (mkHandle 1 LATEST) [])))) + 4 <= 140) ∧
    ((k < length (rest demo (mkHandle 1 LATEST) []))%nat →
      140 < 96 + Z.of_nat (length (entries4 demo [2] (take (S k) (rest demo (mkHandle 1 LATEST) [])))) + 4) ∧
    ∀ j n x, k = S j → rest demo (mkHandle 1 LATEST) [] !! j = Some (n, x) →
      resumeName (mkHandle 1 LATEST) (nameCookie n) s' = Some (Some n, s') ∧
      rest (ns_fs s') (mkHandle 1 LATEST) n = drop k (rest demo (mkHandle 1 LATEST) []).
Proof.
  apply (nfs4_readdir_page [2] 140 (mkHandle 1 LATEST) [] (demo_s [])); [apply demo_reachable|done|].
  intros n m. cbn [demo_s demo_ns ns_fs ns_ck]. rewrite demo_visible, lookup_empty. cbn [fmap list_fmap fst].
  intros Hn [[Hm Hh]|]; [|done]. revert Hh. rewrite !elem_of_cons in Hn, Hm.
  destruct Hn as [-> |[-> |Hn%elem_of_nil]], Hm as [-> |[-> |Hm%elem_of_nil]]; done.
Defined.

Definition demo_owner : bytes := encodeAttrValue demo [] FA_OWNER (mkHandle 2 LATEST) 2 LATEST.
Lemma nfs4_attr_roundtrip_witness :
  apply_attr (mkHandle 3 LATEST) FA_OWNER (demo_s (demo_owner ++ [])) =
    (_ ← put AUid (mkHandle 3 LATEST) (n_uid demo (mkHandle 2 LATEST)); mret (Some tt)) (with_rd (demo_s (demo_owner ++ [])) (rd_at ([] ++ demo_owner) [])).
Proof.
  apply (nfs4_attr_roundtrip demo (mkHandle 2 LATEST) 2 LATEST (mkHandle 3 LATEST) FA_OWNER AUid
    (n_uid demo (mkHandle 2 LATEST)) [] [] (demo_s (demo_owner ++ []))); [apply demo_reachable|done|reflexivity|reflexivity].
Defined.

(** LOOKUP fails first, GETFH is not run. *)
Definition demo_ops : NState (gmap bytes bytes) := demo_s (words [24; 15] ++ w_name (str "no") ++ words [10]).
Lemma nfs4_compound_stops_witness :
  ∃ v' s', compound_loop Registry0 [] no_hash 3 NFS4_OK 0 (demo_v 1 LATEST) demo_ops = Some ((NFS4ERR_NOENT, 2, v'), s') ∧
  ∃ sts, serves Registry0 [] no_hash (demo_v 1 LATEST) demo_ops sts v' s' ∧ 2 = Z.of_nat (length sts) ∧ (length sts <= 3)%nat ∧
    NFS4ERR_NOENT = default NFS4_OK (last sts) ∧
    (∀ i st, sts !! i = Some st → (S i < length sts)%nat → st = NFS4_OK) ∧
    (NFS4ERR_NOENT = NFS4_OK → length sts = 3%nat ∨ rd_ok (ns_rd s') = false).
Proof.
  assert (match compound_loop Registry0 [] no_hash 3 NFS4_OK 0 (demo_v 1 LATEST) demo_ops with
    | Some ((rc, done, _), _) => (rc =? NFS4ERR_NOENT) && (done =? 2) | None => false end = true) as Hc by (vm_compute; reflexivity).
  destruct (compound_loop Registry0 [] no_hash 3 NFS4_OK 0 (demo_v 1 LATEST) demo_ops) as [[[[rc done] v'] s']|] eqn:E; [|discriminate Hc].
  rewrite andb_true_iff, !Z.eqb_eq in Hc. destruct Hc as [-> ->]. exists v', s'. split; [reflexivity|].
  apply (nfs4_compound_stops Registry0 [] no_hash 3 (demo_v 1 LATEST) demo_ops NFS4ERR_NOENT 2 v' s' E).
Defined.

(** SETCLIENTID. *)
Definition demo_setclientid : bytes :=
  demo_compound 1 (words [35; 0; 7] ++ w_name (str "c") ++ words [0] ++ w_name [] ++ w_name [] ++ words [0]).
Lemma nfs4_refines_events_witness :
  ∃ o st' ck' w', session_step4 Registry0 [] no_hash demo ∅ V40 0x80000060 demo_setclientid = Some (o, st', ck', w') ∧
  m_nextClientid w' = 2 ∧
  ∃ evs, Z.of_nat (length evs) <= 4096 ∧ w' = run_events no_hash V40 evs ∧
    (1 <= m_nextClientid V40 → m_nextClientid V40 + 4096 < 2 ^ 64 → guarded no_hash V40 evs = true).
Proof.
  assert (match session_step4 Registry0 [] no_hash demo ∅ V40 0x80000060 demo_setclientid with
    | Some (_, _, _, w') => m_nextClientid w' =? 2 | _ => false end = true) as Hc by (vm_compute; reflexivity).
  destruct (session_step4 Registry0 [] no_hash demo ∅ V40 0x80000060 demo_setclientid) as [[[[o st'] ck'] w']|] eqn:E; [|discriminate Hc].
  exists o, st', ck', w'. split; [reflexivity|]. split; [by apply Z.eqb_eq in Hc|].
  apply (nfs4_refines_events Registry0 [] no_hash demo ∅ V40 0x80000060 demo_setclientid o st' ck' w' E).
Defined.
