(* ===== verification/NfsConn.v ===== *)
(** * NfsConn: the connections of the NFS servers (plugins/nfsv3/nfsv3.cpp and
    plugins/nfsv4/nfsv4.cpp, [start], [stop], [listener], [session])

    A connection is a byte stream: what has been received and not yet read, and
    where the session's coroutine waits. [async_read] of n bytes (asio, a
    library) returns when n bytes are there, so data may come in pieces of any
    size. Messages of all connections are handled one at a time, in any order. *)
From S2P Require Import Prelude Keys Kv NodeRec Spec Store Views Shape Inv Init Reads StoreProps CStr Content Di Host Loader Xdr Nfs3 NfsSteps NfsProps Nfs4State Nfs4 Nfs4StateProps Nfs4Safe Nfs4Props Nfs4Wit.
Local Open Scope Z_scope.
Set Warnings "-clear-no-such-hyp".

(** ** One session *)

(** [c_mark] is the mark of the message that is awaited, once it is read. *)
Record Conn := mkConn { c_buf : bytes; c_mark : option Z; c_open : bool; c_sent : list bytes }.
Definition Conn0 : Conn := mkConn [] None true [].
Definition received (c : Conn) (x : bytes) : Conn := mkConn (c_buf c ++ x) (c_mark c) (c_open c) (c_sent c).
Definition shut (c : Conn) : Conn := mkConn (c_buf c) (c_mark c) false (c_sent c).

Inductive Turn (A : Type) := Waits | Undefined | Turned (s : A) (c : Conn).
Arguments Waits {A}.
Arguments Undefined {A}.
Arguments Turned {A} _ _.
(** The result of running a session until it waits: out of fuel, undefined
    behaviour or an escaping exception, or the state it waits in. *)
Inductive Pump (A : Type) := NoFuel | Stuck | Idle (s : A) (c : Conn).
Arguments NoFuel {A}.
Arguments Stuck {A}.
Arguments Idle {A} _ _.

Section Session.
(** [maxlen] is the greatest length of a message; [handle] is the rest of a
    round, once the message is there. *)
Context {A : Type} (maxlen : Z) (handle : A → Z → bytes → option (Outcome * A)).

Definition mark_len (mark : Z) : Z := Z.land mark 0x7fffffff.
Definition bad_len (len : Z) : bool := (len <? 24) || (maxlen <? len).
(** From one [co_await] to the next. *)
Definition session_turn (s : A) (c : Conn) : Turn A :=
  if negb (c_open c) then Waits
  else match c_mark c with
  | None =>
      if (length (c_buf c) <? 4)%nat then Waits
      else
        let mark := rd32 (c_buf c) 0 in
        if bad_len (mark_len mark) then Turned s (mkConn (drop 4 (c_buf c)) None false (c_sent c))
        else Turned s (mkConn (drop 4 (c_buf c)) (Some mark) true (c_sent c))
  | Some mark =>
      let len := Z.to_nat (mark_len mark) in
      if (length (c_buf c) <? len)%nat then Waits
      else match handle s mark (take len (c_buf c)) with
           | None => Undefined
           | Some (Closed, s) => Turned s (mkConn (drop len (c_buf c)) None false (c_sent c))
           | Some (Replied f, s) => Turned s (mkConn (drop len (c_buf c)) None true (c_sent c ++ [f]))
           end
  end.
Fixpoint pump (fuel : nat) (s : A) (c : Conn) : Pump A :=
  match fuel with
  | O => NoFuel
  | S fuel' =>
      match session_turn s c with
      | Waits => Idle s c
      | Undefined => Stuck
      | Turned s c => pump fuel' s c
      end
  end.
Definition session_fuel (c : Conn) : nat := S (length (c_buf c)).
Definition feed (s : A) (c : Conn) (x : bytes) : Pump A :=
  let c := received c x in pump (session_fuel c) s c.
Fixpoint feed_all (s : A) (c : Conn) (xs : list bytes) : Pump A :=
  match xs with
  | [] => Idle s c
  | x :: xs' => match feed s c x with Idle s c => feed_all s c xs' | r => r end
  end.

(** *** Lemmas *)

(** Where a session waits for a message, its length was accepted. *)
Definition conn_ok (c : Conn) : Prop := ∀ mark, c_mark c = Some mark → bad_len (mark_len mark) = false.

Lemma bad_len_false len : bad_len len = false → 24 <= len <= maxlen.
Proof. unfold bad_len. rewrite orb_false_iff, !Z.ltb_ge. done. Qed.
Lemma conn_ok_0 : conn_ok Conn0.
Proof. intros ? [=]. Qed.

Lemma turn_ok s c s' c' :
  conn_ok c → session_turn s c = Turned s' c' → conn_ok c' ∧ (length (c_buf c') < length (c_buf c))%nat.
Proof.
  intros Hc. unfold session_turn. destruct (c_open c); simpl; [|done].
  destruct (c_mark c) as [mark|] eqn:Em.
  - pose proof (bad_len_false _ (Hc _ Em)). destruct (Nat.ltb_spec (length (c_buf c)) (Z.to_nat (mark_len mark))); [done|].
    destruct (handle _ _ _) as [[[|f] s1]|]; intros [= <- <-]; simpl; (split; [intros ? [=]|rewrite length_drop; lia]).
  - destruct (Nat.ltb_spec (length (c_buf c)) 4); [done|]. destruct (bad_len _) eqn:Eb; intros [= <- <-]; simpl;
      (split; [|rewrite length_drop; lia]); intros ? [=]; by subst.
Qed.

(** Enough fuel: a session always comes to wait (or is undefined). *)
Lemma pump_fuel f1 f2 s c :
  conn_ok c → (length (c_buf c) < f1)%nat → (length (c_buf c) < f2)%nat → pump f1 s c = pump f2 s c ∧ pump f1 s c ≠ NoFuel.
Proof.
  revert f2 s c. induction f1 as [|f1 IH]; intros [|f2] s c Hc H1 H2; try lia. simpl.
  destruct (session_turn s c) as [| |s' c'] eqn:E; [done..|].
  destruct (turn_ok _ _ _ _ Hc E). apply IH; [done|lia..].
Qed.
Lemma pump_conn_ok f s c s' c' : conn_ok c → pump f s c = Idle s' c' → conn_ok c'.
Proof.
  revert s c. induction f as [|f IH]; intros s c Hc; simpl; [done|].
  destruct (session_turn s c) as [| |s1 c1] eqn:E; [by intros [= <- <-]|done|].
  destruct (turn_ok _ _ _ _ Hc E). by apply IH.
Qed.

(** A session is stuck only in the handler of a message. *)
Lemma pump_stuck f s c : pump f s c = Stuck → ∃ s mark msg, handle s mark msg = None.
Proof.
  revert s c. induction f as [|f IH]; intros s c; simpl; [done|].
  destruct (session_turn s c) as [| |s1 c1] eqn:E; [done| |apply IH].
  intros _. revert E. unfold session_turn. repeat case_match; try done. eauto.
Qed.

(** A turn does not depend on what is received after the bytes it takes. *)
Lemma turn_received s c x :
  conn_ok c →
  match session_turn s c with
  | Turned s' c' => session_turn s (received c x) = Turned s' (received c' x)
  | Undefined => session_turn s (received c x) = Undefined
  | Waits => True
  end.
Proof.
  intros Hc. unfold session_turn, received. cbn [c_open c_mark c_buf c_sent]. destruct (c_open c); simpl; [|done].
  destruct (c_mark c) as [mark|] eqn:Em.
  - destruct (Nat.ltb_spec (length (c_buf c)) (Z.to_nat (mark_len mark))); [done|].
    rewrite (proj2 (Nat.ltb_ge _ _)) by (rewrite length_app; lia). rewrite take_app_le, drop_app_le by lia.
    by destruct (handle _ _ _) as [[[|f] s1]|].
  - destruct (Nat.ltb_spec (length (c_buf c)) 4); [done|].
    rewrite (proj2 (Nat.ltb_ge _ _)) by (rewrite length_app; lia). rewrite drop_app_le by lia.
    replace (rd32 (c_buf c ++ x) 0) with (rd32 (c_buf c) 0) by (unfold rd32, p_at; by rewrite !lookup_app_l by (simpl; lia)).
    by destruct (bad_len _).
Qed.
Lemma received_app c x y : received (received c x) y = received c (x ++ y).
Proof. unfold received. simpl. by rewrite app_assoc. Qed.
Lemma received_ok c x : conn_ok c → conn_ok (received c x).
Proof. done. Qed.

Lemma pump_received f s c x :
  conn_ok c → (length (c_buf c) < f)%nat →
  pump (f + length x) s (received c x) =
    match pump f s c with Idle s' c' => pump (session_fuel (received c' x)) s' (received c' x) | r => r end.
Proof.
  revert s c. induction f as [|f IH]; intros s c Hc Hf; [lia|].
  pose proof (turn_received s c x Hc) as Ht. cbn [pump].
  destruct (session_turn s c) as [| |s' c'] eqn:E.
  - apply pump_fuel; [done| |]; unfold session_fuel, received; simpl; rewrite length_app; lia.
  - simpl. by rewrite Ht.
  - cbn [Nat.add pump]. rewrite Ht. destruct (turn_ok _ _ _ _ Hc E). apply IH; [done|lia].
Qed.

Lemma feed_total s c x : conn_ok c → feed s c x ≠ NoFuel.
Proof. intros Hc. apply (pump_fuel _ (session_fuel (received c x))); [done|unfold session_fuel; lia..]. Qed.
Lemma feed_conn_ok s c x s' c' : conn_ok c → feed s c x = Idle s' c' → conn_ok c'.
Proof. intros Hc. by apply pump_conn_ok. Qed.
Lemma feed_app s c x y :
  conn_ok c → feed s c (x ++ y) = match feed s c x with Idle s' c' => feed s' c' y | r => r end.
Proof.
  intros Hc. unfold feed. cbv zeta. rewrite <- received_app, <- pump_received by (done || unfold session_fuel; lia).
  f_equal. unfold session_fuel, received. simpl. by rewrite length_app.
Qed.

(** A session does not depend on how its bytes are cut: feeding pieces one
    after the other gives the state and the replies of feeding all at once,
    and it always comes to wait for more. *)
Lemma session_chunks s c xs :
  conn_ok c → session_turn s c = Waits → feed_all s c xs = feed s c (concat xs) ∧ feed_all s c xs ≠ NoFuel.
Proof.
  intros Hc Hw. destruct xs as [|x xs].
  { simpl. unfold feed, received. rewrite app_nil_r. destruct c as [b m o l]. simpl in *. by rewrite Hw. }
  clear Hw. revert s c x Hc. induction xs as [|y xs IH]; intros s c x Hc.
  - simpl. rewrite app_nil_r. pose proof (feed_total s c x Hc). by destruct (feed s c x).
  - change (concat (x :: y :: xs)) with (x ++ concat (y :: xs)). rewrite feed_app by done.
    change (feed_all s c (x :: y :: xs)) with (match feed s c x with Idle s c => feed_all s c (y :: xs) | r => r end).
    pose proof (feed_total s c x Hc). destruct (feed s c x) as [| |s1 c1] eqn:E; [done..|].
    apply IH. by eapply feed_conn_ok.
Qed.

(** *** Whole calls *)

(** A message with its record mark. *)
Definition record (m : bytes) : bytes := be4 (Z.lor 0x80000000 (Z.of_nat (length m))) ++ m.
Definition mark_of (m : bytes) : Z := Z.lor 0x80000000 (Z.of_nat (length m)).
Fixpoint handle_all (s : A) (ms : list bytes) : option (list bytes * A) :=
  match ms with
  | [] => Some ([], s)
  | m :: ms' =>
      match handle s (mark_of m) m with
      | Some (Replied f, s) => '(fs, s) ← handle_all s ms'; Some (f :: fs, s)
      | _ => None
      end
  end.

Lemma mark_of_len m : Z.of_nat (length m) < 2 ^ 31 → mark_len (mark_of m) = Z.of_nat (length m) ∧ in32 (mark_of m).
Proof.
  intros Hm. assert (mark_of m = 2 ^ 31 + Z.of_nat (length m)) as E.
  { unfold mark_of. change 0x80000000 with (Z.shiftl 1 31). rewrite lor_shift_add by lia. lia. }
  unfold mark_len. rewrite E. change 0x7fffffff with (2 ^ 31 - 1). rewrite land_low by lia. split; [|word_lia].
  rewrite <- (Z.mul_1_l (2 ^ 31)) at 1. rewrite Z.add_comm, Z.mod_add by lia. apply Z.mod_small. lia.
Qed.

Lemma feed_record s c m f s' :
  c_buf c = [] → c_mark c = None → c_open c = true → maxlen < 2 ^ 31 → 24 <= Z.of_nat (length m) <= maxlen →
  handle s (mark_of m) m = Some (Replied f, s') → feed s c (record m) = Idle s' (mkConn [] None true (c_sent c ++ [f])).
Proof.
  intros Hb Hm Ho Hmax Hlen Hh. destruct (mark_of_len m) as [Hl H32]; [lia|]. unfold feed, received, session_fuel.
  rewrite Hb, Hm, Ho. cbn [app c_buf]. unfold record. rewrite length_app. change (length (be4 _)) with 4%nat.
  cbn [Nat.add pump]. unfold session_turn at 1. cbn [c_open c_mark c_buf c_sent negb].
  rewrite length_app. change (length (be4 _)) with 4%nat. cbn [Nat.add Nat.ltb Nat.leb].
  fold (mark_of m). replace (rd32 (be4 (mark_of m) ++ m) 0) with (mark_of m) by (symmetry; apply (rd32_be4 []); done).
  change (drop 4 (be4 (mark_of m) ++ m)) with m. unfold bad_len. rewrite Hl, !(proj2 (Z.ltb_ge _ _)) by lia. cbn [orb pump].
  unfold session_turn at 1. cbn [c_open c_mark c_buf c_sent negb].
  rewrite Hl, Nat2Z.id, Nat.ltb_irrefl, take_ge, drop_ge, Hh by lia. done.
Qed.

(** Calls are handled in order, and their replies sent in that order. *)
Lemma session_replies s c ms fs s' xs :
  c_buf c = [] → c_mark c = None → c_open c = true → maxlen < 2 ^ 31 →
  Forall (λ m, 24 <= Z.of_nat (length m) <= maxlen) ms → handle_all s ms = Some (fs, s') →
  concat xs = concat (record <$> ms) →
  feed_all s c xs = Idle s' (mkConn [] None true (c_sent c ++ fs)).
Proof.
  intros Hb Hm Ho Hmax Hms Hall Hxs.
  assert (conn_ok c) as Hc by (intros mark; rewrite Hm; done).
  destruct (session_chunks s c xs Hc) as [-> _]; [unfold session_turn; by rewrite Ho, Hm, Hb|]. rewrite Hxs. clear Hxs xs.
  revert s c fs Hb Hm Ho Hc Hall. induction Hms as [|m ms Hlen _ IH]; intros s c fs Hb Hm Ho Hc Hall.
  - simplify_eq/=. unfold feed, received. rewrite !app_nil_r. destruct c; simpl in *; by subst.
  - change (concat (record <$> m :: ms)) with (record m ++ concat (record <$> ms)).
    cbn [handle_all] in Hall. destruct (handle s (mark_of m) m) as [[[|f] s1]|] eqn:Hh; [done| |done].
    destruct (handle_all s1 ms) as [[fs1 s2]|] eqn:Hrest; [|done]. simpl in Hall. simplify_eq.
    rewrite feed_app by done. erewrite feed_record by done.
    rewrite (IH s1 (mkConn [] None true (c_sent c ++ [f])) fs1); [|done..|intros ? [=]|done].
    cbn [c_sent]. by rewrite <- app_assoc.
Qed.
End Session.

(** ** The two servers on one store *)

Section Server.
Context {M : Type} `{!KvEngine M} `{!MapOrder}.
Context (reg : Registry Provider) (prov : bytes) (hash : bytes → Z).

(** What the handlers act on: the store, the two cookie caches, the NFSv4
    client state; what [NfsV3::start] set. [k_spent] is not in the code: it
    counts a bound on the operations of the store so far. *)
Record Core := mkCore {
  k_fs : Store M; k_ck3 : gmap Z bytes; k_ck4 : gmap Z bytes; k_v4 : V4;
  k_used : option ContentConfig; k_adv : bool; k_spent : Z
}.
Definition handle3 (k : Core) (mark : Z) (msg : bytes) : option (Outcome * Core) :=
  '(o, fs, ck) ← session_step reg prov (k_used k) (k_adv k) (k_fs k) (k_ck3 k) mark msg;
  Some (o, mkCore fs ck (k_ck4 k) (k_v4 k) (k_used k) (k_adv k) (k_spent k + 16)).
Definition handle4 (k : Core) (mark : Z) (msg : bytes) : option (Outcome * Core) :=
  '(o, fs, ck, v) ← session_step4 reg prov hash (k_fs k) (k_ck4 k) (k_v4 k) mark msg;
  Some (o, mkCore fs (k_ck3 k) ck v (k_used k) (k_adv k) (k_spent k + MAX_STEPS)).
Definition MAX3 : Z := 2 ^ 20.
Definition MAX4 : Z := 2 ^ 21.

(** The connections of both servers; [OtherOp] is an operation of another
    service of the host. *)
Record Srv := mkSrv { srv_core : Core; srv_c3 : gmap Z Conn; srv_c4 : gmap Z Conn }.
Inductive NetEv :=
  | Accept3 (c : Z) | Recv3 (c : Z) (x : bytes) | End3 (c : Z)
  | Accept4 (c : Z) | Recv4 (c : Z) (x : bytes) | End4 (c : Z)
  | OtherOp (op : Op).
Definition recv (maxlen : Z) (handle : Core → Z → bytes → option (Outcome * Core)) (k : Core) (cs : gmap Z Conn) (c : Z) (x : bytes)
    : option (Core * gmap Z Conn) :=
  match cs !! c with
  | None => Some (k, cs)
  | Some cn =>
      match feed maxlen handle k cn x with
      | Idle k cn => Some (k, <[c := cn]> cs)
      | _ => None
      end
  end.
(** One event; [None] is undefined behaviour or an escaping exception. *)
Definition srv_event (s : Srv) (e : NetEv) : option Srv :=
  let k := srv_core s in
  match e with
  | Accept3 c => Some (mkSrv k (<[c := Conn0]> (srv_c3 s)) (srv_c4 s))
  | Recv3 c x => '(k, cs) ← recv MAX3 handle3 k (srv_c3 s) c x; Some (mkSrv k cs (srv_c4 s))
  | End3 c => Some (mkSrv k (alter shut c (srv_c3 s)) (srv_c4 s))
  | Accept4 c => Some (mkSrv k (srv_c3 s) (<[c := Conn0]> (srv_c4 s)))
  | Recv4 c x => '(k, cs) ← recv MAX4 handle4 k (srv_c4 s) c x; Some (mkSrv k (srv_c3 s) cs)
  | End4 c => Some (mkSrv k (srv_c3 s) (alter shut c (srv_c4 s)))
  | OtherOp op =>
      Some (mkSrv (mkCore (exec (k_fs k) op).2 (k_ck3 k) (k_ck4 k) (k_v4 k) (k_used k) (k_adv k) (k_spent k + 1)) (srv_c3 s) (srv_c4 s))
  end.
Fixpoint srv_run (s : Srv) (evs : list NetEv) : option Srv :=
  match evs with [] => Some s | e :: evs' => s ← srv_event s e; srv_run s evs' end.

(** *** Lemmas *)

(** A step of the core that spends what it does to the store. *)
Definition spends (k k' : Core) : Prop :=
  k_spent k <= k_spent k' ∧
  (reachable_from fresh_store (k_fs k) → room (k_spent k' - k_spent k) (k_fs k) → steps (k_spent k' - k_spent k) (k_fs k) (k_fs k')).
Lemma spends_refl k : spends k k.
Proof. split; [lia|]. intros _ _. apply steps_refl. lia. Qed.
Lemma spends_trans k1 k2 k3 : spends k1 k2 → spends k2 k3 → spends k1 k3.
Proof.
  intros [H1 H2] [H3 H4]. split; [lia|]. intros R Hr.
  replace (k_spent k3 - k_spent k1) with ((k_spent k2 - k_spent k1) + (k_spent k3 - k_spent k2)) in * by lia.
  assert (steps (k_spent k2 - k_spent k1) (k_fs k1) (k_fs k2)) as HS by (apply H2; [done|eapply room_le; [|done]; lia]).
  eapply steps_trans; [done|]. apply H4; [by eapply reachable_run_steps|].
  by apply (steps_inv (k_spent k2 - k_spent k1) _ (k_fs k1)); [lia|apply inv_reachable| |].
Qed.

Lemma handle3_spends k mark msg o k' : handle3 k mark msg = Some (o, k') → spends k k'.
Proof.
  unfold handle3. destruct (session_step _ _ _ _ _ _ _ _) as [[[o' fs] ck]|] eqn:E; [|done]. simpl. intros [= <- <-].
  split; simpl; [lia|]. replace (k_spent k + 16 - k_spent k) with 16 by lia. intros R Hr.
  by apply (nfs_session_steps reg prov (k_used k) (k_adv k)) in E.
Qed.
Lemma handle4_spends k mark msg o k' : handle4 k mark msg = Some (o, k') → spends k k'.
Proof.
  unfold handle4. destruct (session_step4 _ _ _ _ _ _ _ _) as [[[[o' fs] ck] v]|] eqn:E; [|done]. simpl. intros [= <- <-].
  assert (0 <= MAX_STEPS) by done.
  split; simpl; [lia|]. replace (k_spent k + MAX_STEPS - k_spent k) with MAX_STEPS by lia. intros R Hr.
  by apply (nfs4_session_steps reg prov hash) in E.
Qed.

Lemma pump_spends maxlen handle f k c k' c' :
  (∀ k mark msg o k', handle k mark msg = Some (o, k') → spends k k') →
  pump maxlen handle f k c = Idle k' c' → spends k k'.
Proof.
  intros Hh. revert k c. induction f as [|f IH]; intros k c; simpl; [done|].
  destruct (session_turn maxlen handle k c) as [| |k1 c1] eqn:E; [intros [= <- <-]; apply spends_refl|done|].
  intros Hp%IH. eapply spends_trans; [|done]. revert E. unfold session_turn.
  repeat case_match; intros [= <- <-]; try apply spends_refl; by eapply Hh.
Qed.
Lemma recv_spends maxlen handle k cs c x k' cs' :
  (∀ k mark msg o k', handle k mark msg = Some (o, k') → spends k k') →
  recv maxlen handle k cs c x = Some (k', cs') → spends k k'.
Proof.
  intros Hh. unfold recv. destruct (cs !! c); [|intros [= <- <-]; apply spends_refl].
  destruct (feed _ _ _ _ _) as [| |k1 c1] eqn:E; [done..|]. intros [= <- <-]. by eapply pump_spends.
Qed.
Definition net_ok (e : NetEv) : Prop := match e with OtherOp op => op_args op | _ => True end.
Lemma srv_event_spends s e s' : net_ok e → srv_event s e = Some s' → spends (srv_core s) (srv_core s').
Proof.
  intros Hok. destruct e; simpl; try (intros [= <-]; apply spends_refl).
  - destruct (recv _ _ _ _ _ _) as [[k' cs']|] eqn:E; [|done]. intros [= <-]. simpl. eapply recv_spends, E. apply handle3_spends.
  - destruct (recv _ _ _ _ _ _) as [[k' cs']|] eqn:E; [|done]. intros [= <-]. simpl. eapply recv_spends, E. apply handle4_spends.
  - intros [= <-]. simpl. split; simpl; [lia|]. replace (k_spent (srv_core s) + 1 - k_spent (srv_core s)) with 1 by lia.
    intros R%inv_reachable Hr. apply steps_one; [done|]. by apply op_args_ok.
Qed.

(** Sessions never run out of fuel: an event fails only where the handler of a
    message does. *)
Definition conns_ok (s : Srv) : Prop :=
  map_Forall (λ _, conn_ok MAX3) (srv_c3 s) ∧ map_Forall (λ _, conn_ok MAX4) (srv_c4 s).
Definition handler_fails : Prop :=
  ∃ (v4 : bool) k mark msg, (if v4 then handle4 else handle3) k mark msg = None.
Lemma recv_total maxlen handle k cs c x :
  map_Forall (λ _, conn_ok maxlen) cs →
  match recv maxlen handle k cs c x with
  | Some (_, cs') => map_Forall (λ _, conn_ok maxlen) cs'
  | None => ∃ k mark msg, handle k mark msg = None
  end.
Proof.
  intros Hcs. unfold recv. destruct (cs !! c) as [cn|] eqn:Ec; [|done]. pose proof (Hcs _ _ Ec) as Hc. simpl in Hc.
  pose proof (feed_total maxlen handle k cn x Hc). destruct (feed maxlen handle k cn x) as [| |k1 cn1] eqn:E; [done|by eapply pump_stuck|].
  apply map_Forall_insert_2; [by eapply feed_conn_ok|done].
Qed.
Lemma shut_ok maxlen (cs : gmap Z Conn) c : map_Forall (λ _, conn_ok maxlen) cs → map_Forall (λ _, conn_ok maxlen) (alter shut c cs).
Proof.
  intros Hcs i cn. destruct (decide (c = i)) as [->|Hi]; [|rewrite lookup_alter_ne by done; apply Hcs].
  rewrite lookup_alter_eq. intros (cn' & Hcn & ->)%fmap_Some. exact (Hcs _ _ Hcn).
Qed.
Lemma srv_event_total s e :
  conns_ok s → match srv_event s e with Some s' => conns_ok s' | None => handler_fails end.
Proof.
  intros [H3 H4]. destruct e as [c|c x|c|c|c x|c|op]; simpl;
    try (split; simpl; first [done|by apply shut_ok|apply map_Forall_insert_2; [apply conn_ok_0|done]]).
  - pose proof (recv_total MAX3 handle3 (srv_core s) (srv_c3 s) c x H3) as Hrecv. destruct (recv _ _ _ _ _ _) as [[k cs]|].
    + by split.
    + destruct Hrecv as (k & mark & msg & Hh). by exists false, k, mark, msg.
  - pose proof (recv_total MAX4 handle4 (srv_core s) (srv_c4 s) c x H4) as Hrecv. destruct (recv _ _ _ _ _ _) as [[k cs]|].
    + by split.
    + destruct Hrecv as (k & mark & msg & Hh). by exists true, k, mark, msg.
Qed.
Lemma srv_run_total s evs : conns_ok s → srv_run s evs = None → handler_fails.
Proof.
  revert s. induction evs as [|e evs IH]; intros s Hs; simpl; [done|].
  pose proof (srv_event_total s e Hs). destruct (srv_event s e); [by apply IH|done].
Qed.


(** A reply is one record whose first word is the [xid] of the call. *)
Definition answers (msg f : bytes) : Prop :=
  ∃ rest, f = record (be4 (rd32 msg 0) ++ be4 RPC_REPLY ++ rest).
Lemma frame_answers msg body :
  Z.of_nat (length (be4 (rd32 msg 0) ++ be4 RPC_REPLY ++ body)) < 2 ^ 32 →
  answers msg (be4 (Z.lor 0x80000000 (u32 (Z.of_nat (length (be4 (rd32 msg 0) ++ be4 RPC_REPLY ++ body))))) ++ be4 (rd32 msg 0) ++ be4 RPC_REPLY ++ body).
Proof. intros Hl. exists body. unfold record. rewrite u32_small; [done|]. split; [apply Nat2Z.is_nonneg|done]. Qed.
Lemma r_u32_0 msg : 4 <= Z.of_nat (length msg) → r_u32 (mkReader msg 0 true) = (rd32 msg 0, mkReader msg 4 true).
Proof. intros. unfold r_u32, rd_n. cbn [rd_p rd_pos]. rewrite (proj2 (Z.ltb_ge _ _)) by lia. done. Qed.

Lemma reply_answers3 k mark msg f k' :
  4 <= Z.of_nat (length msg) → Z.of_nat (length f) < 2 ^ 32 →
  handle3 k mark msg = Some (Replied f, k') → answers msg f.
Proof.
  intros Hm Hf. unfold handle3, session_step. rewrite r_u32_0 by done. repeat (case_match; try done; simplify_eq/=).
  simpl. intros [= <- _]. unfold reply_frame in *. rewrite !w_u32_eq in *. cbn [app] in *.
  set (e := if _ =? PROG_MISMATCH then _ else _) in *.
  assert (∃ rest, e = be4 (rd32 msg 0) ++ be4 RPC_REPLY ++ rest) as [rest He].
  { unfold e. case_match; rewrite <- !app_assoc; eauto. }
  rewrite He in *. rewrite <- !app_assoc in *. apply frame_answers. clear -Hf. rewrite length_app in Hf. lia.
Qed.
Lemma reply_answers4 k mark msg f k' :
  4 <= Z.of_nat (length msg) → Z.of_nat (length f) < 2 ^ 32 →
  handle4 k mark msg = Some (Replied f, k') → answers msg f.
Proof.
  intros Hm Hf. unfold handle4, session_step4, reply4. rewrite r_u32_0 by done.
  assert (∀ astat body, Z.of_nat (length (reply_frame4 (rd32 msg 0) astat body)) < 2 ^ 32 → answers msg (reply_frame4 (rd32 msg 0) astat body)) as Hfr.
  { intros astat body. unfold reply_frame4. rewrite !w_u32_eq. cbn [app]. rewrite <- !app_assoc. intros Hl.
    apply frame_answers. rewrite length_app in Hl. change (be4 1) with (be4 RPC_REPLY) in Hl. lia. }
  case_match; [done|]. do 5 (match goal with |- context [r_u32 ?r] => destruct (r_u32 r) as [? ?] end).
  destruct (negb _ || negb _); [intros [= <- _]; auto|]. destruct (_ =? 0); [intros [= <- _]; auto|].
  destruct (_ =? 1); [|intros [= <- _]; auto].
  destruct (compound _ _ _ _ _) as [[[body v] s]|]; [|done]. intros [= <- _]. auto.
Qed.

(** C11. Pipelining: the calls a client sends on a connection of either
    server, in one piece or many, are handled in order, one after the other,
    and the replies are sent in that order, for each call one record that
    carries its xid. *)
Theorem nfs_pipelining (v4 : bool) k ms fs k' xs :
  let maxlen := if v4 then MAX4 else MAX3 in
  let handle := if v4 then handle4 else handle3 in
  Forall (λ m, 24 <= Z.of_nat (length m) <= maxlen) ms → handle_all handle k ms = Some (fs, k') →
  Forall (λ f, Z.of_nat (length f) < 2 ^ 32) fs → concat xs = concat (record <$> ms) →
  feed_all maxlen handle k Conn0 xs = Idle k' (mkConn [] None true fs) ∧ Forall2 answers ms fs.
Proof.
  cbv zeta. intros Hms Hall Hfs Hxs. split.
  - apply (session_replies _ _ k Conn0 ms fs k' xs); try done. by destruct v4.
  - clear Hxs. revert k fs Hall Hfs. induction Hms as [|m ms Hlen _ IH]; intros k fs Hall Hfs; simpl in Hall.
    { by simplify_eq. }
    destruct ((if v4 then handle4 else handle3) k (mark_of m) m) as [[[|f] k1]|] eqn:Hh; [done| |done].
    destruct (handle_all _ k1 ms) as [[fs1 k2]|] eqn:Hrest; [|done]. simplify_eq/=.
    apply Forall_cons in Hfs as [Hf Hfs]. constructor; [|by eapply IH].
    destruct v4; [eapply reply_answers4|eapply reply_answers3]; try done; lia.
Qed.

(** ** Start and stop *)

(** The port is converted to 16 bits; port 0 lets the system choose. *)
Definition nfs_port (o : Options) : Z :=
  let ps := option_ o (str "port") in
  let port := if decide (ps = []) then 2049 else atoi ps in port mod 2 ^ 16.
Definition nfs_start (name : bytes) (h : HostState M) : option (Error * HostState M) :=
  let p := nfs_port (hs_options h) in
  if decide (p ≠ 0 ∧ p ∈ hs_ports h) then Some (INVAL, h)
  else Some (OK, mkHost (hs_fs h) (hs_options h) ({[name]} ∪ hs_running h) (if p =? 0 then hs_ports h else {[p]} ∪ hs_ports h)).
Definition nfs_stop (name : bytes) (h : HostState M) : HostState M :=
  if decide (name ∈ hs_running h) then
    mkHost (hs_fs h) (hs_options h) (hs_running h ∖ {[name]}) (hs_ports h ∖ {[nfs_port (hs_options h)]})
  else h.
Definition nfsv3_start : HostState M → option (Error * HostState M) := nfs_start (str "nfsv3").
Definition nfsv3_stop : HostState M → HostState M := nfs_stop (str "nfsv3").
Definition nfsv4_start : HostState M → option (Error * HostState M) := nfs_start (str "nfsv4").
Definition nfsv4_stop : HostState M → HostState M := nfs_stop (str "nfsv4").
Definition nfsv3_plugin : Plugin M := mkPlugin (str "nfsv3") nfsv3_start nfsv3_stop.
Definition nfsv4_plugin : Plugin M := mkPlugin (str "nfsv4") nfsv4_start nfsv4_stop.
(** What [NfsV3::start] reads for its sessions: the clock option and the
    content policy, if there is one that parses. *)
Definition nfsv3_advance (o : Options) : bool := bool_decide (option_ o (str "time-advance") = str "1").
Definition nfsv3_used (fs : Store M) : option ContentConfig :=
  match contentConfig fs with [] => None | b => config_deserialize b end.
Definition nfs_core (h : HostState M) : Core :=
  mkCore (hs_fs h) ∅ ∅ V40 (nfsv3_used (hs_fs h)) (nfsv3_advance (hs_options h)) 0.

(** The two servers read the same option: in one process the second to start
    fails, whatever the port. *)
Lemma second_server_fails h n1 n2 h' :
  nfs_port (hs_options h) ≠ 0 → nfs_start n1 h = Some (OK, h') → nfs_start n2 h' = Some (INVAL, h').
Proof.
  unfold nfs_start. intros Hp. case_decide; [done|]. intros [= <-]. cbn [hs_options hs_ports].
  rewrite (proj2 (Z.eqb_neq _ _)) by done. rewrite decide_True by set_solver. done.
Qed.
End Server.

(** A port above 65535 is cut to 16 bits. *)
Example port_wraps : nfs_port (setOption ∅ (str "port") (str "67585")) = 2049.
Proof. vm_compute. reflexivity. Qed.

(** ** Witnesses *)

Definition demo_core : Core := mkCore demo ∅ ∅ V40 None true 0.
Definition demo_handle3 := handle3 (M:=gmap bytes bytes) Registry0 [].
Definition demo_null (xid : Z) : bytes := words [xid; 0; 2; PROG_NFS; NFS_V3; 0; 0; 0; 0; 0].

(** Two calls, cut in the middle of a message. *)
Lemma nfs_pipelining_witness :
  ∃ fs k', handle_all demo_handle3 demo_core [demo_null 7; demo_mkdir] = Some (fs, k') ∧
  feed_all MAX3 demo_handle3 demo_core Conn0 [take 50 (record (demo_null 7) ++ record demo_mkdir); drop 50 (record (demo_null 7) ++ record demo_mkdir)] =
    Idle k' (mkConn [] None true fs) ∧ Forall2 answers [demo_null 7; demo_mkdir] fs.
Proof.
  assert (match handle_all demo_handle3 demo_core [demo_null 7; demo_mkdir] with
          | Some (fs, _) => forallb (λ f, Z.of_nat (length f) <? 2 ^ 32) fs | None => false end = true) as Hc by (vm_compute; reflexivity).
  destruct (handle_all demo_handle3 demo_core [demo_null 7; demo_mkdir]) as [[fs k']|] eqn:E; [|discriminate Hc].
  exists fs, k'. split; [reflexivity|].
  apply (nfs_pipelining Registry0 [] no_hash false demo_core [demo_null 7; demo_mkdir] fs k'); [| exact E| |].
  - repeat constructor; vm_compute; discriminate.
  - apply Forall_forall. intros f Hf. rewrite forallb_forall in Hc. apply Z.ltb_lt, Hc. by apply list_elem_of_In.
  - vm_compute. reflexivity.
Defined.

(** Two connections whose pieces interleave, and an operation of another service. *)
Definition demo_events : list NetEv :=
  [Accept3 1; Accept4 1; Recv3 1 (take 9 (record demo_mkdir)); Recv4 1 (record demo_create4); OtherOp (OpSetTime 5);
   Recv3 1 (drop 9 (record demo_mkdir)); End4 1].
