(* ===== verification/Sections.v ===== *)
(** * Sections: programs over what a mutex guards

    A front-end's cookie cache is guarded by a mutex of its own ([m_ckMu] of
    plugins/nfsv3/nfsv3.cpp and plugins/nfsv4/nfsv4.cpp), and operations that
    hold the store's lock shared run at once. What such an operation does is a
    tree of its critical sections on the cache; between two of them the cache
    is whatever the other threads make it. *)
From S2P Require Import Prelude Keys Kv NodeRec Store Inv Content Di Host Xdr Nfs3.
Local Open Scope Z_scope.
Set Warnings "-clear-no-such-hyp".

Abbreviation Cache := (gmap Z bytes).

(** ** Programs *)

(** The two sections: the lookup of [resumeName] and [rememberCookie]. *)
Inductive Sec (A : Type) : Type :=
  | Ret (a : A)
  | Find (ck : Z) (k : option bytes → Sec A)
  | Remember (ck : Z) (name : bytes) (k : Sec A).
Arguments Ret {A} _.
Arguments Find {A} _ _.
Arguments Remember {A} _ _ _.

Global Instance sec_ret : MRet Sec := @Ret.
Global Instance sec_bind : MBind Sec := λ A B f,
  fix go p :=
    match p with
    | Ret a => f a
    | Find ck k => Find ck (λ o, go (k o))
    | Remember ck name k => Remember ck name (go k)
    end.

(** The body of [rememberCookie]. *)
Definition remember (ck : Z) (name : bytes) (m : Cache) : Cache :=
  <[ck := name]> (if CK_CACHE_MAX <=? Z.of_nat (size m) then ∅ else m).

(** One section. *)
Definition sec_step {A} (p : Sec A) (m : Cache) : Sec A * Cache :=
  match p with
  | Ret a => (Ret a, m)
  | Find ck k => (k (m !! ck), m)
  | Remember ck name k => (k, remember ck name m)
  end.
(** A program no other thread gets in between of. *)
Fixpoint alone {A} (p : Sec A) (m : Cache) : A * Cache :=
  match p with
  | Ret a => (a, m)
  | Find ck k => alone (k (m !! ck)) m
  | Remember ck name k => alone k (remember ck name m)
  end.
(** A program with other threads: its [i]-th section finds the cache [env i]. *)
Fixpoint among {A} (p : Sec A) (env : nat → Cache) : A :=
  match p with
  | Ret a => a
  | Find ck k => among (k (env O !! ck)) (λ i, env (S i))
  | Remember ck name k => among k (λ i, env (S i))
  end.

Lemma alone_bind {A B} (p : Sec A) (f : A → Sec B) m :
  alone (p ≫= f) m = alone (f (alone p m).1) (alone p m).2.
Proof. revert m. induction p as [a|ck k IH|ck name k IH]; intros m; simpl; [done|by rewrite <- IH..]. Qed.

(** ** What the other threads cannot change *)

(** [p] returns [a] whatever the cache is, after at most [n] sections. *)
Inductive rets {A} : nat → Sec A → A → Prop :=
  | rets_ret n a : rets n (Ret a) a
  | rets_remember n ck name p a : rets n p a → rets (S n) (Remember ck name p) a.
#[export] Hint Constructors rets : prfs.

(** [p] looks the cache up once and first, or not at all. *)
Definition finds_once {A} (n : nat) (p : Sec A) : Prop :=
  (∃ a, rets n p a) ∨ ∃ ck k, p = Find ck k ∧ ∀ o, ∃ a, rets n (k o) a.

Lemma rets_le {A} n n' (p : Sec A) a : rets n p a → (n <= n')%nat → rets n' p a.
Proof.
  intros H. revert n'. induction H; intros n' Hn; [constructor|].
  destruct n' as [|n']; [lia|]. constructor. apply IHrets. lia.
Qed.
Lemma rets_bind {A B} n n' (p : Sec A) (f : A → Sec B) a b :
  rets n p a → rets n' (f a) b → rets (n + n') (p ≫= f) b.
Proof. intros H Hf. induction H; simpl; [eapply rets_le; [done|lia]|constructor; auto]. Qed.
Lemma rets_alone {A} n (p : Sec A) a m : rets n p a → (alone p m).1 = a.
Proof. intros H. revert m. induction H; intros m; simpl; auto. Qed.
Lemma rets_among {A} n (p : Sec A) a env : rets n p a → among p env = a.
Proof. intros H. revert env. induction H; intros env; simpl; auto. Qed.
Lemma rets_step {A} n (p : Sec A) a m : rets n p a → rets (pred n) (sec_step p m).1 a.
Proof. intros H. destruct H; simpl; [constructor|done]. Qed.

Lemma finds_once_bind {A B} n n' (p : Sec A) (f : A → Sec B) :
  finds_once n p → (∀ a, ∃ b, rets n' (f a) b) → finds_once (n + n') (p ≫= f).
Proof.
  intros [[a Ha]|(ck & k & -> & Hk)] Hf.
  - left. destruct (Hf a) as [b Hb]. exists b. by eapply rets_bind.
  - right. exists ck, (λ o, k o ≫= f). split; [done|]. intros o. destruct (Hk o) as [a Ha].
    destruct (Hf a) as [b Hb]. exists b. by eapply rets_bind.
Qed.
(** Among other threads it answers as alone, on the cache of its first section. *)
Lemma finds_once_among {A} n (p : Sec A) env : finds_once n p → among p env = (alone p (env O)).1.
Proof.
  intros [[a Ha]|(ck & k & -> & Hk)]; simpl.
  - by rewrite (rets_among n _ a), (rets_alone n _ a).
  - destruct (Hk (env O !! ck)) as [a Ha]. by rewrite (rets_among n _ a), (rets_alone n _ a).
Qed.

(** ** The cache *)

(** Every entry is a name under its own cookie, and there are not too many. *)
Definition cache_ok (m : Cache) : Prop :=
  (∀ ck n, m !! ck = Some n → nameCookie n = ck) ∧ Z.of_nat (size m) <= CK_CACHE_MAX.
Lemma cache_ok_empty : cache_ok ∅.
Proof. split; [by intros ck n; rewrite lookup_empty|done]. Qed.
Lemma cache_ok_remember ck n m : nameCookie n = ck → cache_ok m → cache_ok (remember ck n m).
Proof.
  intros Hck [Hm Hs]. unfold remember. split.
  - intros ck' n'. destruct (decide (ck' = ck)) as [->|Hne].
    + rewrite lookup_insert_eq. by intros [= <-].
    + rewrite lookup_insert_ne by done. case_match; [by rewrite lookup_empty|apply Hm].
  - destruct (Z.leb_spec CK_CACHE_MAX (Z.of_nat (size m))) as [Hge|Hlt].
    + rewrite map_size_insert_None by apply lookup_empty. rewrite map_size_empty. done.
    + rewrite map_size_insert. destruct (m !! ck); simpl; lia.
Qed.

(** A program that remembers names under their cookies only. *)
Inductive remembers_ok {A} : Sec A → Prop :=
  | ro_ret a : remembers_ok (Ret a)
  | ro_find ck k : (∀ o, remembers_ok (k o)) → remembers_ok (Find ck k)
  | ro_remember name k : remembers_ok k → remembers_ok (Remember (nameCookie name) name k).
#[export] Hint Constructors remembers_ok : prfs.
Lemma remembers_ok_bind {A B} (p : Sec A) (f : A → Sec B) :
  remembers_ok p → (∀ a, remembers_ok (f a)) → remembers_ok (p ≫= f).
Proof. intros H Hf. induction H; simpl; [done|constructor; auto..]. Qed.
Lemma remembers_ok_step {A} (p : Sec A) m :
  remembers_ok p → cache_ok m → remembers_ok (sec_step p m).1 ∧ cache_ok (sec_step p m).2.
Proof.
  intros H Hm. destruct H; simpl; [by auto with prfs..|]. split; [done|by apply cache_ok_remember].
Qed.
