(* ===== verification/Shared.v ===== *)
(** * Shared: NFSv3 calls at once (plugins/nfsv3/nfsv3.cpp, [dispatch])

    [dispatch] takes the store's lock exclusively for a procedure that changes
    the store and shared for every other, so the latter run at once; the cookie
    cache, which READDIR and READDIRPLUS use, has a mutex of its own. Here a
    call is the sections of that mutex, and the threads that serve calls are a
    state machine over the lock. *)
From S2P Require Import Prelude Keys Kv NodeRec Spec Store Views Shape Inv Init Reads StoreProps Content Di FsStat Host Xdr Nfs3 NfsSteps Sections.
Local Open Scope Z_scope.
Set Warnings "-clear-no-such-hyp".

(** ** READDIR, section by section *)

Section Programs.
Context {M : Type} `{!KvEngine M}.
Context (reg : Registry Provider) (prov : bytes) (used : option ContentConfig) (adv : bool).
Abbreviation P := (Proc M).
Implicit Types (fs : Store M) (dir : Handle) (s : NState M).

Definition resumeNameS fs dir (ck : Z) : Sec (option (option bytes)) :=
  Find ck (λ o, Ret (match o with
                     | Some name => Some (Some name)
                     | None => resume_scan (page_fuel fs dir) fs dir ck []
                     end)).
Fixpoint page_entriesS (maxBytes perEntry budget : Z) (ents : list (bytes * Handle)) (acc : list DirEnt)
    : Sec (list DirEnt * option Z) :=
  match ents with
  | [] => Ret (acc, Some budget)
  | (name, node) :: ents' =>
      match fits maxBytes perEntry budget name with
      | None => Ret (acc, None)
      | Some budget' =>
          Remember (nameCookie name) name
            (page_entriesS maxBytes perEntry budget' ents' (acc ++ [mkDirEnt name (nameCookie name) node]))
      end
  end.
Fixpoint page_loopS (fuel : nat) fs dir (maxBytes perEntry budget : Z) (after : bytes) (acc : list DirEnt)
    : Sec (option (list DirEnt * bool)) :=
  match fuel with
  | O => Ret None
  | S fuel' =>
      let pg := readdirPage fs dir after 512 in
      r ← page_entriesS maxBytes perEntry budget (pg_entries pg) acc;
      match r with
      | (acc, None) => Ret (Some (acc, false))
      | (acc, Some budget) =>
          if bool_decide (pg_entries pg = []) || pg_eof pg then Ret (Some (acc, true))
          else page_loopS fuel' fs dir maxBytes perEntry budget (pg_cookie pg) acc
      end
  end.
Definition pageDirS fs dir (cookie maxBytes perEntry : Z) : Sec (option (Z * list DirEnt * bool)) :=
  match (if cookie <? CK_DOT then fits maxBytes perEntry 128 (str ".") else Some 128) with
  | None => Ret (Some (NFS3_OK, [], false))
  | Some budget =>
    let acc := if cookie <? CK_DOT then [mkDirEnt (str ".") CK_DOT dir] else [] in
    match (if cookie <? CK_DOTDOT then fits maxBytes perEntry budget (str "..") else Some budget) with
    | None => Ret (Some (NFS3_OK, acc, false))
    | Some budget =>
      let acc := if cookie <? CK_DOTDOT
                 then acc ++ [mkDirEnt (str "..") CK_DOTDOT (default dir (head (parents fs dir)))] else acc in
      rn ← (if Z.land cookie CK_ENTRY =? 0 then Ret (Some (Some [])) else resumeNameS fs dir cookie);
      match rn with
      | None => Ret None
      | Some None => Ret (Some (NFS3ERR_BAD_COOKIE, acc, false))
      | Some (Some after) =>
          r ← page_loopS (page_fuel fs dir) fs dir maxBytes perEntry budget after acc;
          Ret (match r with Some (acc, eof) => Some (NFS3_OK, acc, eof) | None => None end)
      end
    end
  end.

(** [nfsReaddir] and [nfsReaddirPlus] before and after [pageDir]: the answer,
    or the directory, the cookie and the size of the reply. *)
Definition readdir_head (plus : bool) : P (Z + Handle * Z * Z) :=
  h ← rd r_fh;
  match h with
  | None => mret (inl GARBAGE_ARGS)
  | Some (id, snap) =>
      cookie ← rd r_u64;
      _ ← rd (λ r, (tt, r_skip r NFS3_COOKIEVERFSIZE));
      _ ← (if plus then rd r_u32 else mret 0);
      mx ← rd r_u32;
      ok ← rd_is_ok;
      if negb ok then mret (inl GARBAGE_ARGS)
      else
        n ← fs_get (λ fs, nodeById fs id snap);
        match n with
        | None => _ ← wr_u32 NFS3ERR_STALE; mret (inl SUCCESS)
        | Some dir =>
            ty ← fs_get (λ fs, n_type fs dir);
            if negb (ty =? tcode DIR) then st ← fail_attr used NFS3ERR_NOTDIR dir; mret (inl st)
            else mret (inr (dir, cookie, mx))
        end
  end.
Definition readdir_tail (plus : bool) dir (st : Z) (ents : list DirEnt) (eof : bool) : P Z :=
  if negb (st =? NFS3_OK) then fail_attr used st dir
  else
    _ ← wr_u32 NFS3_OK; _ ← wr_postop used (Some dir); _ ← wr_u32 0; _ ← wr_u32 0;
    _ ← wr_entries (if plus then entryplus3 used else entry3) ents eof; mret SUCCESS.
Definition readdirS (plus : bool) s : Sec (option (Z * NState M)) :=
  match readdir_head plus s with
  | None => Ret None
  | Some (inl st, s) => Ret (Some (st, s))
  | Some (inr (dir, cookie, mx), s) =>
      r ← pageDirS (ns_fs s) dir cookie mx (if plus then 88 + 24 else 0);
      Ret (match r with Some (st, ents, eof) => readdir_tail plus dir st ents eof s | None => None end)
  end.
(** What runs under the shared lock; only the two procedures have sections. *)
Definition dispatchS (prog vers proc : Z) (cred : Cred) s : Sec (option (Z * NState M)) :=
  if (prog =? PROG_NFS) && (vers =? NFS_V3) && (proc =? NFSPROC3_READDIR) then readdirS false s
  else if (prog =? PROG_NFS) && (vers =? NFS_V3) && (proc =? NFSPROC3_READDIRPLUS) then readdirS true s
  else Ret (dispatch reg prov used adv prog vers proc cred s).
End Programs.

(** ** The sections are the code of [Nfs3] *)

Section Same.
Context {M : Type} `{!KvEngine M}.
Context (reg : Registry Provider) (prov : bytes) (used : option ContentConfig) (adv : bool).
Abbreviation P := (Proc M).
Implicit Types (fs : Store M) (dir : Handle) (s : NState M) (m : Cache).

Definition with_ck s m : NState M := mkNs (ns_fs s) (ns_rd s) (ns_out s) m.
(** A program without interruption, from [s]: fallible programs of sections
    as state-passing programs. *)
Definition uncut {A} (p : Sec (option A)) s : option (A * NState M) :=
  match alone p (ns_ck s) with (Some a, m) => Some (a, with_ck s m) | (None, _) => None end.

Lemma with_ck_id s : with_ck s (ns_ck s) = s.
Proof. by destruct s. Qed.

Lemma page_entriesS_alone mb per b ents acc s :
  page_entries mb per b ents acc s =
    Some ((alone (page_entriesS mb per b ents acc) (ns_ck s)).1, with_ck s (alone (page_entriesS mb per b ents acc) (ns_ck s)).2).
Proof.
  revert b acc s. induction ents as [|[n x] ents IH]; intros b acc s; simpl; [by rewrite with_ck_id|].
  destruct (fits mb per b n) as [b'|]; simpl; [|by rewrite with_ck_id].
  unfold mbind, proc_bind, rememberCookie. apply (IH b' _ (mkNs (ns_fs s) (ns_rd s) (ns_out s) (remember (nameCookie n) n (ns_ck s)))).
Qed.
Lemma page_loopS_alone fuel dir mb per b after acc s :
  page_loop3 fuel dir mb per b after acc s = uncut (page_loopS fuel (ns_fs s) dir mb per b after acc) s.
Proof.
  unfold uncut. revert b after acc s. induction fuel as [|fuel IH]; intros b after acc s; [done|].
  cbn [page_loop3 page_loopS]. rewrite alone_bind. unfold mbind at 1 2, proc_bind at 1 2, fs_get.
  rewrite page_entriesS_alone. set (pg := readdirPage (ns_fs s) dir after 512).
  destruct (alone (page_entriesS _ _ _ _ _) _) as [[acc' [b'|]] m]; cbn [fst snd]; [|done].
  destruct (_ || _); [done|]. apply (IH b' _ _ (with_ck s m)).
Qed.
Lemma pageDirS_alone dir cookie mb per s :
  pageDir dir cookie mb per s = uncut (pageDirS (ns_fs s) dir cookie mb per) s.
Proof.
  unfold uncut, pageDir, pageDirS.
  destruct (if cookie <? CK_DOT then _ else _) as [b|]; [|by destruct s].
  destruct (if cookie <? CK_DOTDOT then _ else _) as [b'|]; [|by destruct s].
  unfold mbind at 1 2, proc_bind at 1 2, fs_get at 1. rewrite alone_bind.
  set (acc := if cookie <? CK_DOTDOT then _ else _).
  assert (∀ after, (fuel ← fs_get (λ fs, page_fuel fs dir);
      '(acc, eof) ← page_loop3 fuel dir mb per b' after acc; mret (NFS3_OK, acc, eof)) s =
    match alone (r ← page_loopS (page_fuel (ns_fs s) dir) (ns_fs s) dir mb per b' after acc;
           Ret (match r with Some (acc, eof) => Some (NFS3_OK, acc, eof) | None => None end)) (ns_ck s) with
    | (Some a, m) => Some (a, with_ck s m) | (None, _) => None end) as Htail.
  { intros after. rewrite alone_bind. unfold mbind at 1 2, proc_bind at 1 2, fs_get. rewrite page_loopS_alone. unfold uncut.
    by destruct (alone (page_loopS _ _ _ _ _ _ _ _) _) as [[[acc' eof]|] m]. }
  destruct (Z.land cookie CK_ENTRY =? 0); [exact (Htail [])|].
  unfold resumeName, resumeNameS. cbn [alone]. destruct (ns_ck s !! cookie) as [name|]; [exact (Htail name)|].
  destruct (resume_scan _ _ _ _ _) as [[name|]|]; [exact (Htail name)|by destruct s|done].
Qed.

(** *** What does not touch the cache, what does not touch the store *)

Definition ck_free {A} (p : P A) : Prop :=
  ∀ s m, p (with_ck s m) = match p s with Some (x, s') => Some (x, with_ck s' m) | None => None end.
Definition fs_free {A} (p : P A) : Prop :=
  ∀ s x s', p s = Some (x, s') → ns_fs s' = ns_fs s.

Lemma ck_free_bind {A B} (p : P A) (f : A → P B) : ck_free p → (∀ x, ck_free (f x)) → ck_free (p ≫= f).
Proof. intros Hp Hf s m. unfold mbind, proc_bind. rewrite Hp. destruct (p s) as [[x s']|]; [apply Hf|done]. Qed.
Lemma fs_free_bind {A B} (p : P A) (f : A → P B) : fs_free p → (∀ x, fs_free (f x)) → fs_free (p ≫= f).
Proof.
  intros Hp Hf s y s'. unfold mbind, proc_bind. destruct (p s) as [[x s1]|] eqn:E; [|done].
  intros H%Hf. rewrite H. by eapply Hp.
Qed.
Lemma ck_free_rd_str : ck_free rd_str.
Proof. intros s m. unfold rd_str. destruct s. simpl. by destruct (r_str _) as [[? ?]|]. Qed.
Lemma fs_free_rd_str : fs_free rd_str.
Proof. intros s x s'. unfold rd_str. destruct (r_str _) as [[? ?]|]; [|done]. by intros [= _ <-]. Qed.
Lemma ck_free_rd {A} (f : Reader → A * Reader) : ck_free (rd f).
Proof. intros s m. unfold rd. destruct s. simpl. by destruct (f _). Qed.
Lemma fs_free_rd {A} (f : Reader → A * Reader) : fs_free (rd f).
Proof. intros s x s'. unfold rd. destruct (f _). by intros [= _ <-]. Qed.
Lemma ck_free_op op : ck_free (fs_op op).
Proof. intros s m. unfold fs_op. destruct s. simpl. by destruct (exec _ _). Qed.
Lemma ck_free_read n off cnt : ck_free (host_read_into reg prov n off cnt).
Proof. intros s m. unfold host_read_into. destruct s. simpl. by destruct (host_read _ _ _ _ _ _ _). Qed.
Lemma fs_free_read n off cnt : fs_free (host_read_into reg prov n off cnt).
Proof. intros s x s'. unfold host_read_into. destruct (host_read _ _ _ _ _ _ _); [|done]. by intros [= _ <-]. Qed.
End Same.

(** Every program but READDIR's is built from programs that keep to the call;
    every program under the shared lock, from ones that keep the store too. *)
Ltac ck_free_tac :=
  repeat first
    [ apply ck_free_bind; [|intros ?]
    | solve [apply ck_free_rd_str | apply ck_free_rd | apply ck_free_op | apply ck_free_read | intros [] ?; reflexivity]
    | case_match ].
Ltac fs_free_tac :=
  repeat first
    [ apply fs_free_bind; [|intros ?]
    | solve [apply fs_free_rd_str | apply fs_free_rd | apply fs_free_read | by intros ??? [= _ <-]]
    | case_match ].

Section Free.
Context {M : Type} `{!KvEngine M}.
Context (reg : Registry Provider) (prov : bytes) (used : option ContentConfig) (adv : bool).
Abbreviation P := (Proc M).
Implicit Types (fs : Store M) (dir : Handle) (s : NState M) (m : Cache).

Lemma ck_free_head plus : ck_free (M:=M) (readdir_head used plus).
Proof. unfold readdir_head, fail_attr. ck_free_tac. Qed.
Lemma fs_free_head plus : fs_free (M:=M) (readdir_head used plus).
Proof. unfold readdir_head, fail_attr. fs_free_tac. Qed.
Lemma ck_free_tail plus dir st ents eof : ck_free (M:=M) (readdir_tail used plus dir st ents eof).
Proof. unfold readdir_tail, fail_attr. ck_free_tac. Qed.
Lemma fs_free_tail plus dir st ents eof : fs_free (M:=M) (readdir_tail used plus dir st ents eof).
Proof. unfold readdir_tail, fail_attr. fs_free_tac. Qed.

Lemma applyCred_free cred n : ck_free (M:=M) (applyCred cred n).
Proof. unfold applyCred, put. ck_free_tac. Qed.
Lemma applySattr_free n : ck_free (M:=M) (applySattr n).
Proof. unfold applySattr, sattr_opt, sattr_time, put. ck_free_tac. Qed.
Lemma touchDir_free dir : ck_free (M:=M) (touchDir dir).
Proof. unfold touchDir, put. ck_free_tac. Qed.
Lemma finishCreate_free dir pre name child : ck_free (M:=M) (finishCreate used dir pre name child).
Proof. unfold finishCreate, wr_new_object, touchDir, put. ck_free_tac. Qed.
Lemma with_parent_free k : (∀ dir pre name, ck_free (k dir pre name)) → ck_free (M:=M) (with_parent used k).
Proof. intros Hk. unfold with_parent, diropParent, fail_wcc. ck_free_tac. apply Hk. Qed.

(** The procedures that change the store. *)
Lemma nfsCall_free proc cred : isMutating proc = true → ck_free (M:=M) (nfsCall reg prov used proc cred).
Proof.
  unfold isMutating. rewrite bool_decide_eq_true, !elem_of_cons, elem_of_nil.
  intros Hp. destruct_or? Hp; try done; subst proc; simpl.
  all: unfold nfsSetattr, nfsWrite, nfsCreate, nfsMkdir, nfsSymlink, nfsMknod, nfsRemove, nfsRmdir, nfsRename, nfsLink,
         with_fh, if_ok, with_node_wcc, fail_wcc, put.
  all: repeat first [ apply with_parent_free; intros ??? | apply finishCreate_free | apply applyCred_free | apply applySattr_free
                    | apply touchDir_free | progress ck_free_tac ].
Qed.

(** The procedures under the shared lock, but for READDIR's. *)
Definition is_readdir (prog vers proc : Z) : bool :=
  (prog =? PROG_NFS) && (vers =? NFS_V3) && ((proc =? NFSPROC3_READDIR) || (proc =? NFSPROC3_READDIRPLUS)).
Definition is_exclusive (prog proc : Z) : bool := (prog =? PROG_NFS) && isMutating proc.
Lemma nfsCall_unavail proc cred : ¬ 0 <= proc < 22 → nfsCall (M:=M) reg prov used proc cred = mret PROC_UNAVAIL.
Proof.
  intros Hp. destruct proc as [|proc|proc]; [lia| |reflexivity].
  do 5 (destruct proc as [proc|proc|]; try reflexivity; try lia).
Qed.
Lemma nfsCall_reads proc cred :
  isMutating proc = false → (proc =? NFSPROC3_READDIR) || (proc =? NFSPROC3_READDIRPLUS) = false →
  ck_free (M:=M) (nfsCall reg prov used proc cred) ∧ fs_free (M:=M) (nfsCall reg prov used proc cred).
Proof.
  intros Hp Hr. destruct (decide (0 <= proc < 22)) as [Hin|Hout].
  2: { rewrite nfsCall_unavail by done. split; [ck_free_tac|fs_free_tac]. }
  assert (proc ∈ seqZ 0 22) as Hl by by apply elem_of_seqZ. cbv in Hl.
  repeat (apply elem_of_cons in Hl as [->|Hl]; [first [discriminate Hp | discriminate Hr | clear Hp Hr Hin]|]);
    [..|by apply elem_of_nil in Hl]; cbn [nfsCall];
  unfold nfsGetattr, nfsReadlink, nfsLookup, nfsAccess, nfsRead, nfsFsstat, nfsFsinfo, nfsPathconf, nfsCommit,
         with_fh, if_ok, with_node, with_node_wcc, fail_attr.
  all: split; [ck_free_tac|fs_free_tac].
Qed.
Lemma mountCall_reads proc : ck_free (M:=M) (mountCall proc) ∧ fs_free (M:=M) (mountCall proc).
Proof.
  unfold mountCall, mountMnt, mountUmnt, mountExport, if_ok. split; [ck_free_tac|fs_free_tac].
Qed.
Lemma dispatch_reads prog vers proc cred :
  is_exclusive prog proc = false → is_readdir prog vers proc = false →
  ck_free (M:=M) (dispatch reg prov used adv prog vers proc cred) ∧ fs_free (M:=M) (dispatch reg prov used adv prog vers proc cred).
Proof.
  intros He Hr. unfold dispatch. fold (is_exclusive prog proc). rewrite He. unfold dispatch_run, is_exclusive, is_readdir in *.
  destruct (prog =? PROG_NFS); [|destruct (prog =? PROG_MOUNT); [|split; [ck_free_tac|fs_free_tac]]].
  - destruct (vers =? NFS_V3); [by apply nfsCall_reads|split; [ck_free_tac|fs_free_tac]].
  - destruct (vers =? MOUNT_V3); [apply mountCall_reads|split; [ck_free_tac|fs_free_tac]].
Qed.
Lemma dispatch_writes prog vers proc cred :
  is_exclusive prog proc = true → ck_free (M:=M) (dispatch reg prov used adv prog vers proc cred).
Proof.
  intros He. unfold dispatch. fold (is_exclusive prog proc). rewrite He. unfold dispatch_run, is_exclusive in *.
  apply andb_true_iff in He as [-> He]. apply ck_free_bind; [|ck_free_tac].
  destruct (vers =? NFS_V3); [by apply nfsCall_free|ck_free_tac].
Qed.

(** READDIR in three parts. *)
Definition readdir3 (plus : bool) : P Z := if plus then nfsReaddirPlus used else nfsReaddir used.
Lemma readdir_split plus s :
  readdir3 plus s =
    match readdir_head used plus s with
    | None => None
    | Some (inl st, s1) => Some (st, s1)
    | Some (inr (dir, cookie, mx), s1) =>
        ('(st, ents, eof) ← pageDir dir cookie mx (if plus then 88 + 24 else 0); readdir_tail used plus dir st ents eof) s1
    end.
Proof.
  unfold readdir3, nfsReaddir, nfsReaddirPlus, readdir_head, readdir_body, readdir_tail, with_fh, if_ok, with_node, fail_attr.
  unfold mbind, proc_bind, mret, proc_ret, rd, rd_is_ok, fs_get, wr_u32, wr_postop, wr.
  destruct plus; destruct (r_fh (ns_rd s)) as [[[id snap]|] r]; cbn [ns_rd ns_fs ns_out ns_ck]; try done;
    repeat (destruct (r_u64 _) as [? ?] || destruct (r_u32 _) as [? ?]; cbn [ns_rd ns_fs ns_out ns_ck]);
    destruct (rd_ok _); cbn [negb]; try done; destruct (nodeById _ _ _) as [dir|]; try done; destruct (negb _); done.
Qed.

(** The state a call starts from: its reader and an empty reply. *)
Implicit Types (r : Reader).
Definition start fs r m : NState M := mkNs fs r [] m.

Lemma readdirS_alone plus fs r m m0 :
  readdir3 plus (start fs r m) =
    match alone (readdirS used plus (start fs r m0)) m with
    | (Some (st, s), m') => Some (st, with_ck s m')
    | (None, _) => None
    end.
Proof.
  rewrite readdir_split. change (start fs r m) with (with_ck (start fs r m0) m). rewrite ck_free_head.
  unfold readdirS. destruct (readdir_head used plus (start fs r m0)) as [[[st|[[dir cookie] mx]] s]|]; [done| |done].
  rewrite alone_bind. unfold mbind, proc_bind. rewrite pageDirS_alone. unfold uncut. cbn [with_ck ns_ck ns_fs].
  destruct (alone (pageDirS _ _ _ _ _) m) as [[[[st ents] eof]|] m']; [|done]. cbn [fst snd alone].
  change (with_ck (with_ck s m) m') with (with_ck s m'). rewrite ck_free_tail.
  by destruct (readdir_tail _ _ _ _ _ _ _) as [[st' s']|].
Qed.
Lemma is_readdir_eq prog vers proc cred m s :
  is_exclusive prog proc = false → is_readdir prog vers proc = true →
  dispatch reg prov used adv prog vers proc cred (with_ck s m) = readdir3 (proc =? NFSPROC3_READDIRPLUS) (with_ck s m) ∧
  dispatchS reg prov used adv prog vers proc cred s = readdirS used (proc =? NFSPROC3_READDIRPLUS) s.
Proof.
  intros He Hr. unfold dispatch, dispatchS. fold (is_exclusive prog proc). rewrite He. unfold is_readdir, dispatch_run in *.
  destruct (prog =? PROG_NFS); [|done]. destruct (vers =? NFS_V3); [|done]. cbn [andb] in *.
  by apply orb_true_iff in Hr as [Hp%Z.eqb_eq|Hp%Z.eqb_eq]; subst proc.
Qed.
(** Without interruption a call under the shared lock is [Nfs3]'s call, and it
    leaves the store alone. *)
Lemma dispatchS_alone prog vers proc cred fs r m m0 :
  is_exclusive prog proc = false →
  dispatch reg prov used adv prog vers proc cred (start fs r m) =
    match alone (dispatchS reg prov used adv prog vers proc cred (start fs r m0)) m with
    | (Some (st, s), m') => Some (st, with_ck s m')
    | (None, _) => None
    end.
Proof.
  intros He. destruct (is_readdir prog vers proc) eqn:Hr.
  - change (start fs r m) with (with_ck (start fs r m0) m).
    destruct (is_readdir_eq prog vers proc cred m (start fs r m0) He Hr) as [-> ->]. apply readdirS_alone.
  - destruct (dispatch_reads prog vers proc cred He Hr) as [Hck _].
    change (start fs r m) with (with_ck (start fs r m0) m). rewrite Hck.
    assert (dispatchS reg prov used adv prog vers proc cred (start fs r m0) =
      Ret (dispatch reg prov used adv prog vers proc cred (start fs r m0))) as ->.
    { unfold dispatchS, is_readdir in *. destruct (prog =? PROG_NFS); [|done]. destruct (vers =? NFS_V3); [|done]. cbn [andb] in *.
      by apply orb_false_iff in Hr as [-> ->]. }
    cbn [alone]. by destruct (dispatch _ _ _ _ _ _ _ _ _) as [[st s]|].
Qed.
Lemma dispatchS_reads prog vers proc cred fs r m0 m st s m' :
  is_exclusive prog proc = false →
  alone (dispatchS reg prov used adv prog vers proc cred (start fs r m0)) m = (Some (st, s), m') → ns_fs s = fs.
Proof.
  intros He Ha. destruct (is_readdir prog vers proc) eqn:Hr.
  - destruct (is_readdir_eq prog vers proc cred m (start fs r m0) He Hr) as [_ E]. rewrite E in Ha. clear E.
    unfold readdirS in Ha. destruct (readdir_head used _ _) as [[[st1|[[dir cookie] mx]] s1]|] eqn:Eh; [| |done].
    + injection Ha as <- <- <-. by apply fs_free_head in Eh.
    + apply fs_free_head in Eh. rewrite alone_bind in Ha. cbn [alone] in Ha. injection Ha as Ha _.
      destruct (alone _ _).1 as [[[st2 ents] eof]|]; [|done]. apply fs_free_tail in Ha. by rewrite Ha, Eh.
  - destruct (dispatch_reads prog vers proc cred He Hr) as [_ Hfs].
    assert (dispatch reg prov used adv prog vers proc cred (start fs r m) = Some (st, with_ck s m')) as E
      by by rewrite (dispatchS_alone _ _ _ _ _ _ _ m0), Ha. by apply Hfs in E.
Qed.

(** *** One lookup, then as many sections as entries *)

Definition within (mb b : Z) (n : nat) : Prop := n = 0%nat ∨ b + 24 * Z.of_nat n <= mb.
Lemma fits_24 mb per b n b' : 0 <= per → fits mb per b n = Some b' → b + 24 <= b' <= mb.
Proof.
  unfold fits, pad4. intros Hper. case_match eqn:E; [done|]. apply Z.ltb_ge in E. intros [= <-].
  pose proof (Z.div_pos (Z.of_nat (length n) + 3) 4). lia.
Qed.
Lemma page_entriesS_rets mb per b ents acc : 0 <= per →
  ∃ n acc' o, rets n (page_entriesS mb per b ents acc) (acc', o) ∧ within mb b n ∧
    (∀ b', o = Some b' → b + 24 * Z.of_nat n <= b').
Proof.
  intros Hper. revert b acc. induction ents as [|[name x] ents IH]; intros b acc; simpl.
  { exists 0%nat, acc, (Some b). split; [constructor|]. split; [by left|]. intros b' [= <-]. lia. }
  destruct (fits mb per b name) as [b1|] eqn:Hb.
  - apply fits_24 in Hb; [|done]. destruct (IH b1 (acc ++ [mkDirEnt name (nameCookie name) x])) as (n & acc' & o & Hn & Hw & Ho).
    exists (S n), acc', o. split; [by constructor|]. split; [|intros b' Hb'; specialize (Ho b' Hb'); lia].
    right. destruct Hw as [->|Hw]; lia.
  - exists 0%nat, acc, None. split; [constructor|]. split; [by left|done].
Qed.
Lemma page_loopS_rets fuel fs dir mb per b after acc : 0 <= per →
  ∃ n a, rets n (page_loopS fuel fs dir mb per b after acc) a ∧ within mb b n.
Proof.
  intros Hper. revert b after acc. induction fuel as [|fuel IH]; intros b after acc; simpl.
  { exists 0%nat, None. split; [constructor|by left]. }
  destruct (page_entriesS_rets mb per b (pg_entries (readdirPage fs dir after 512)) acc Hper) as (n & acc' & o & Hn & Hw & Ho).
  destruct o as [b1|].
  - destruct (bool_decide _ || _) eqn:E.
    + exists (n + 0)%nat, (Some (acc', true)). split; [|by rewrite Nat.add_0_r]. eapply rets_bind; [exact Hn|]. constructor.
    + destruct (IH b1 (pg_cookie (readdirPage fs dir after 512)) acc') as (n' & a & Hn' & Hw').
      exists (n + n')%nat, a. split; [eapply rets_bind; [exact Hn|]; exact Hn'|].
      specialize (Ho b1 eq_refl). destruct Hw' as [->|Hw']; [by rewrite Nat.add_0_r|]. right. lia.
  - exists (n + 0)%nat, (Some (acc', false)). split; [|by rewrite Nat.add_0_r]. eapply rets_bind; [exact Hn|]. constructor.
Qed.
Lemma within_128 mb n : 0 <= mb → within mb 128 n → 24 * Z.of_nat n <= mb.
Proof. intros H [->|Hw]; lia. Qed.
Lemma fits_or_same (c : bool) mb per b name b' :
  0 <= per → (if c then fits mb per b name else Some b) = Some b' → b <= b'.
Proof. intros Hper. destruct c; [intros H%fits_24; [lia|done]|by intros [= ->]]. Qed.
Lemma pageDirS_once fs dir cookie mb per : 0 <= per → 0 <= mb →
  ∃ n, finds_once n (pageDirS fs dir cookie mb per) ∧ 24 * Z.of_nat n <= mb.
Proof.
  intros Hper Hmb. unfold pageDirS.
  assert (∀ a : option (Z * list DirEnt * bool), ∃ n, finds_once n (Ret a) ∧ 24 * Z.of_nat n <= mb) as Hret.
  { intros a. exists 0%nat. split; [left; exists a; constructor|lia]. }
  destruct (if cookie <? CK_DOT then _ else _) as [b|] eqn:H1; [|apply Hret]. apply fits_or_same in H1; [|done].
  destruct (if cookie <? CK_DOTDOT then _ else _) as [b'|] eqn:H2; [|apply Hret]. apply fits_or_same in H2; [|done].
  set (acc := if cookie <? CK_DOTDOT then _ else _). clearbody acc.
  assert (∀ rn, ∃ n a, rets n (match rn with
      | None => Ret None
      | Some None => Ret (Some (NFS3ERR_BAD_COOKIE, acc, false))
      | Some (Some after) =>
          r ← page_loopS (page_fuel fs dir) fs dir mb per b' after acc;
          Ret (match r with Some (acc, eof) => Some (NFS3_OK, acc, eof) | None => None end)
      end) a ∧ 24 * Z.of_nat n <= mb) as Htail.
  { intros [[after|]|]; [|eexists 0%nat, _; split; [constructor|lia]..].
    destruct (page_loopS_rets (page_fuel fs dir) fs dir mb per b' after acc Hper) as (n & a & Hn & Hw).
    eexists (n + 0)%nat, _. split; [eapply rets_bind; [exact Hn|constructor]|].
    rewrite Nat.add_0_r. destruct Hw as [->|Hw]; lia. }
  destruct (Z.land cookie CK_ENTRY =? 0).
  { destruct (Htail (Some (Some []))) as (n & a & Hn & Hle). exists n. split; [left; eauto|done]. }
  exists (Z.to_nat (mb / 24)). split; [|pose proof (Z.mul_div_le mb 24); pose proof (Z.div_pos mb 24); lia].
  right. do 2 eexists. split; [reflexivity|]. intros o. destruct (Htail (match o with Some name => Some (Some name)
    | None => resume_scan (page_fuel fs dir) fs dir cookie [] end)) as (n & a & Hn & Hle).
  exists a. eapply rets_le; [exact Hn|]. apply Nat2Z.inj_le. rewrite Z2Nat.id by by apply Z.div_pos.
  apply Z.div_le_lower_bound; lia.
Qed.

Lemma readdir_head_mx plus s dir cookie mx s' :
  readdir_head used plus s = Some (inr (dir, cookie, mx), s') → in32 mx.
Proof.
  unfold readdir_head, fail_attr, mbind, proc_bind, mret, proc_ret, rd, rd_is_ok, fs_get, wr_u32, wr_postop, wr.
  destruct (r_fh (ns_rd s)) as [[[id snap]|] r]; cbn [ns_rd ns_fs ns_out ns_ck]; [|done].
  destruct (r_u64 _) as [c r1]. cbn [ns_rd]. destruct plus.
  1: destruct (r_u32 _) as [x r2]; cbn [ns_rd ns_fs ns_out ns_ck].
  all: match goal with |- context [r_u32 ?r] => pose proof (r_u32_in32 r) as Hmx; destruct (r_u32 r) as [mx' r3] end;
    cbn [ns_rd ns_fs ns_out ns_ck fst] in *; destruct (negb _); [done|]; destruct (nodeById _ _ _); [|done];
    destruct (negb _); [done|]; by intros [= _ _ <- _].
Qed.
(** A call looks the cache up once and first, and goes through no more sections
    than its reply has room for entries. *)
Lemma dispatchS_once prog vers proc cred s :
  ∃ n, finds_once n (dispatchS reg prov used adv prog vers proc cred s) ∧ 24 * Z.of_nat n < 2 ^ 32.
Proof.
  assert (∀ a : option (Z * NState M), ∃ n, finds_once n (Ret a) ∧ 24 * Z.of_nat n < 2 ^ 32) as Hret.
  { intros a. exists 0%nat. split; [left; exists a; constructor|lia]. }
  assert (∀ plus, ∃ n, finds_once n (readdirS used plus s) ∧ 24 * Z.of_nat n < 2 ^ 32) as Hread.
  { intros plus. unfold readdirS. destruct (readdir_head used plus s) as [[[st|[[dir cookie] mx]] s1]|] eqn:E; [apply Hret| |apply Hret].
    apply readdir_head_mx in E as Hmx. destruct (pageDirS_once (ns_fs s1) dir cookie mx (if plus then 88 + 24 else 0)) as (n & Hn & Hle);
      [by destruct plus|word_lia|].
    exists (n + 0)%nat. split; [|word_lia]. eapply finds_once_bind; [exact Hn|]. intros a. eexists. constructor. }
  unfold dispatchS. repeat case_match; auto.
Qed.

Lemma page_entriesS_ok mb per b ents acc : remembers_ok (page_entriesS mb per b ents acc).
Proof.
  revert b acc. induction ents as [|[n x] ents IH]; intros b acc; simpl; [constructor|].
  destruct (fits _ _ _ _); constructor. apply IH.
Qed.
Lemma page_loopS_ok fuel fs dir mb per b after acc : remembers_ok (page_loopS fuel fs dir mb per b after acc).
Proof.
  revert b after acc. induction fuel as [|fuel IH]; intros b after acc; simpl; [constructor|].
  apply remembers_ok_bind; [apply page_entriesS_ok|]. intros [acc' [b'|]]; [|constructor].
  destruct (_ || _); [constructor|apply IH].
Qed.
Lemma pageDirS_ok fs dir cookie mb per : remembers_ok (pageDirS fs dir cookie mb per).
Proof.
  unfold pageDirS. destruct (if cookie <? CK_DOT then _ else _) as [b|]; [|constructor].
  destruct (if cookie <? CK_DOTDOT then _ else _) as [b'|]; [|constructor].
  apply remembers_ok_bind; [destruct (_ =? 0); [constructor|constructor; intros; constructor]|].
  intros [[after|]|]; [|constructor..]. apply remembers_ok_bind; [apply page_loopS_ok|]. intros ?; constructor.
Qed.
Lemma dispatchS_ok prog vers proc cred s : remembers_ok (dispatchS reg prov used adv prog vers proc cred s).
Proof.
  assert (∀ plus, remembers_ok (readdirS used plus s)) as Hread.
  { intros plus. unfold readdirS. destruct (readdir_head used plus s) as [[[st|[[dir cookie] mx]] s1]|]; [constructor| |constructor].
    apply remembers_ok_bind; [apply pageDirS_ok|]. intros ?; constructor. }
  unfold dispatchS. repeat case_match; auto; constructor.
Qed.
End Free.
