(* ===== verification/Pool.v ===== *)
(** * Pool: the threads of the NFSv3 server and the store's lock
    (plugins/nfsv3/nfsv3.cpp, [session], [dispatch])

    Threads that serve calls at once: a call that changes the store holds the
    store's lock ([IHost::storeMutex], a readers-writer lock) alone, every other
    call holds it with others and runs section by section ([Shared]). *)
From S2P Require Import Prelude Keys Kv NodeRec Spec Store Views Shape Inv Init Reads StoreProps Content Di FsStat Host Xdr Nfs3 NfsSteps NfsSafe NfsProps Sections Shared.
Local Open Scope Z_scope.
Set Warnings "-clear-no-such-hyp".

(** The call of a message: what [session] reads before it calls [reply]. *)
Record Call3 := mkCall3 { cl_xid : Z; cl_prog : Z; cl_vers : Z; cl_proc : Z; cl_cred : Cred; cl_rd : Reader }.
(** [None] closes the connection. *)
Definition call_of (mark : Z) (msg : bytes) : option Call3 :=
  let len := Z.land mark 0x7fffffff in
  if (len <? 24) || (2 ^ 20 <? len) then None
  else
    let r := mkReader msg 0 true in
    let '(xid, r) := r_u32 r in
    let '(mtype, r) := r_u32 r in
    if negb (mtype =? RPC_CALL) then None
    else
      let '(_, r) := r_u32 r in
      let '(prog, r) := r_u32 r in
      let '(vers, r) := r_u32 r in
      let '(proc, r) := r_u32 r in
      let '(cred, r) := readCred r in
      Some (mkCall3 xid prog vers proc cred (r_skipAuth r)).

Section Pool.
Context {M : Type} `{!KvEngine M}.
Context (reg : Registry Provider) (prov : bytes) (used : option ContentConfig) (adv : bool).
Implicit Types (fs : Store M) (c : Call3) (s : NState M) (m : Cache) (th : Z).

(** ** The machine *)

(** A thread that holds the lock shared, with the sections left to it; the
    thread that holds it alone, with its reply once it has run; a call that is
    done, in the order in which the lock was let go. *)
Record Reading := mkReading { rg_mark : Z; rg_msg : bytes; rg_xid : Z; rg_left : Sec (option (Z * NState M)) }.
Record Writing := mkWriting { wg_thread : Z; wg_mark : Z; wg_msg : bytes; wg_call : Call3; wg_reply : option Outcome }.
Record Done := mkDone { dn_thread : Z; dn_mark : Z; dn_msg : bytes; dn_reply : Outcome }.
Record Pool := mkPool {
  pl_fs : Store M; pl_ck : Cache; pl_readers : gmap Z Reading; pl_writer : option Writing; pl_done : list Done
}.
Implicit Types (p : Pool) (rg : Reading) (w : Writing).
Definition pool_at fs m : Pool := mkPool fs m ∅ None [].

(** A thread gets a message and tries for the lock; goes through one section of
    the cache's mutex; runs the body of an exclusive call; lets go of the lock. *)
Inductive PoolEv := Lock (th mark : Z) (msg : bytes) | Section1 (th : Z) | Body (th : Z) | Unlock (th : Z).

Definition busy p th : bool :=
  bool_decide (is_Some (pl_readers p !! th)) || match pl_writer p with Some w => wg_thread w =? th | None => false end.
Definition run_call c fs m : option (Z * NState M) :=
  dispatch reg prov used adv (cl_prog c) (cl_vers c) (cl_proc c) (cl_cred c) (start fs (cl_rd c) m).
Definition run_callS c fs : Sec (option (Z * NState M)) :=
  dispatchS reg prov used adv (cl_prog c) (cl_vers c) (cl_proc c) (cl_cred c) (start fs (cl_rd c) ∅).
Definition exclusive c : bool := is_exclusive (cl_prog c) (cl_proc c).

(** What is not possible - the lock is held, the thread has nothing to do -
    changes nothing; [None] is an undefined access of a handler. *)
Definition pool_event p (e : PoolEv) : option Pool :=
  match e with
  | Lock th mark msg =>
      if busy p th then Some p
      else match call_of mark msg with
        | None => Some (mkPool (pl_fs p) (pl_ck p) (pl_readers p) (pl_writer p) (pl_done p ++ [mkDone th mark msg Closed]))
        | Some c =>
            match pl_writer p with
            | Some _ => Some p
            | None =>
                if exclusive c then
                  if bool_decide (pl_readers p = ∅)
                  then Some (mkPool (pl_fs p) (pl_ck p) ∅ (Some (mkWriting th mark msg c None)) (pl_done p))
                  else Some p
                else Some (mkPool (pl_fs p) (pl_ck p)
                             (<[th := mkReading mark msg (cl_xid c) (run_callS c (pl_fs p))]> (pl_readers p)) None (pl_done p))
            end
        end
  | Section1 th =>
      match pl_readers p !! th with
      | Some rg =>
          let '(q, m) := sec_step (rg_left rg) (pl_ck p) in
          Some (mkPool (pl_fs p) m (<[th := mkReading (rg_mark rg) (rg_msg rg) (rg_xid rg) q]> (pl_readers p)) (pl_writer p) (pl_done p))
      | None => Some p
      end
  | Body th =>
      match pl_writer p with
      | Some w =>
          if negb (wg_thread w =? th) then Some p
          else match wg_reply w with
            | Some _ => Some p
            | None =>
                '(st, s) ← run_call (wg_call w) (pl_fs p) (pl_ck p);
                Some (mkPool (ns_fs s) (ns_ck s) (pl_readers p)
                        (Some (mkWriting th (wg_mark w) (wg_msg w) (wg_call w) (Some (Replied (reply_frame (cl_xid (wg_call w)) st (ns_out s))))))
                        (pl_done p))
            end
      | None => Some p
      end
  | Unlock th =>
      match pl_readers p !! th, pl_writer p with
      | Some rg, _ =>
          match rg_left rg with
          | Ret None => None
          | Ret (Some (st, s)) =>
              Some (mkPool (pl_fs p) (pl_ck p) (delete th (pl_readers p)) (pl_writer p)
                      (pl_done p ++ [mkDone th (rg_mark rg) (rg_msg rg) (Replied (reply_frame (rg_xid rg) st (ns_out s)))]))
          | _ => Some p
          end
      | None, Some w =>
          match wg_reply w with
          | Some o =>
              if wg_thread w =? th
              then Some (mkPool (pl_fs p) (pl_ck p) (pl_readers p) None (pl_done p ++ [mkDone th (wg_mark w) (wg_msg w) o]))
              else Some p
          | None => Some p
          end
      | None, None => Some p
      end
  end.
Fixpoint pool_run p (evs : list PoolEv) : option Pool :=
  match evs with [] => Some p | e :: evs' => p ← pool_event p e; pool_run p evs' end.

(** ** One call after the other *)

(** The calls [ds] served by [session_step] one after the other, from one store
    to another, each with some cache whose names are under their own cookies. *)
Inductive served : Store M → list Done → Store M → Prop :=
  | served_nil fs : served fs [] fs
  | served_snoc fs ds fs1 d m fs2 m2 :
      served fs ds fs1 → cache_ok m →
      session_step reg prov used adv fs1 m (dn_mark d) (dn_msg d) = Some (dn_reply d, fs2, m2) →
      served fs (ds ++ [d]) fs2.

Lemma session_step_call fs m mark msg :
  session_step reg prov used adv fs m mark msg =
    match call_of mark msg with
    | None => Some (Closed, fs, m)
    | Some c => match run_call c fs m with
                | Some (st, s) => Some (Replied (reply_frame (cl_xid c) st (ns_out s)), ns_fs s, ns_ck s)
                | None => None
                end
    end.
Proof.
  unfold session_step, call_of. destruct (_ || _); [done|]. destruct (r_u32 _) as [xid r]. destruct (r_u32 r) as [mt r1].
  destruct (negb _); [done|]. do 4 (destruct (r_u32 _) as [? ?]). by destruct (readCred _) as [cred r6].
Qed.

(** *** The invariant *)

(** What is left of a call under the shared lock: all of it, or the rest of it,
    which comes to what the whole call comes to on the cache it saw. *)
Definition reading_ok fs rg : Prop :=
  ∃ c, call_of (rg_mark rg) (rg_msg rg) = Some c ∧ exclusive c = false ∧ rg_xid rg = cl_xid c ∧ remembers_ok (rg_left rg) ∧
  (rg_left rg = run_callS c fs ∨ ∃ n m, cache_ok m ∧ rets n (rg_left rg) (alone (run_callS c fs) m).1).
(** The store a writer found. *)
Definition before p (fs : Store M) : Prop :=
  match pl_writer p with
  | Some w =>
      call_of (wg_mark w) (wg_msg w) = Some (wg_call w) ∧ exclusive (wg_call w) = true ∧
      match wg_reply w with
      | Some o => ∃ m m', cache_ok m ∧ session_step reg prov used adv fs m (wg_mark w) (wg_msg w) = Some (o, pl_fs p, m')
      | None => pl_fs p = fs
      end
  | None => pl_fs p = fs
  end.
Definition pool_ok fs0 p : Prop :=
  cache_ok (pl_ck p) ∧ (pl_writer p = None ∨ pl_readers p = ∅) ∧
  map_Forall (λ _ rg, reading_ok (pl_fs p) rg) (pl_readers p) ∧ ∃ fs, served fs0 (pl_done p) fs ∧ before p fs.

Lemma finish_reading fs rg st s :
  reading_ok fs rg → rg_left rg = Ret (Some (st, s)) →
  ∃ m m', cache_ok m ∧
    session_step reg prov used adv fs m (rg_mark rg) (rg_msg rg) = Some (Replied (reply_frame (rg_xid rg) st (ns_out s)), fs, m').
Proof.
  intros (c & Hc & Hx & -> & _ & Hl) E.
  assert (∃ m, cache_ok m ∧ (alone (run_callS c fs) m).1 = Some (st, s)) as (m & Hm & Ha).
  { destruct Hl as [<-|(n & m & Hm & Hr)].
    - exists ∅. split; [apply cache_ok_empty|by rewrite E].
    - exists m. split; [done|]. rewrite E in Hr. by inversion Hr. }
  exists m. rewrite session_step_call, Hc. unfold run_call. rewrite (dispatchS_alone _ _ _ _ _ _ _ _ _ _ _ ∅) by exact Hx.
  fold (run_callS c fs). destruct (alone (run_callS c fs) m) as [o m'] eqn:E'. cbn [fst] in Ha. subst o.
  exists m'. split; [done|]. by rewrite <- (dispatchS_reads _ _ _ _ _ _ _ _ _ _ _ _ _ _ _ Hx E').
Qed.
Lemma start_reading fs c mark msg :
  call_of mark msg = Some c → exclusive c = false → reading_ok fs (mkReading mark msg (cl_xid c) (run_callS c fs)).
Proof. intros Hc Hx. exists c. split_and!; [done..|apply dispatchS_ok|by left]. Qed.
Lemma step_reading fs rg m :
  reading_ok fs rg → cache_ok m →
  reading_ok fs (mkReading (rg_mark rg) (rg_msg rg) (rg_xid rg) (sec_step (rg_left rg) m).1) ∧ cache_ok (sec_step (rg_left rg) m).2.
Proof.
  intros (c & Hc & Hx & E & Hr & Hl) Hm. destruct (remembers_ok_step _ _ Hr Hm) as [Hr' Hm']. split; [|done].
  exists c. split_and!; [done..|]. right. destruct Hl as [Hl|(n & m0 & Hm0 & Hn)].
  - rewrite Hl. destruct (dispatchS_once reg prov used adv (cl_prog c) (cl_vers c) (cl_proc c) (cl_cred c) (start fs (cl_rd c) ∅))
      as (n & [[a Ha]|(ck & k & Ek & Hk)] & _).
    + exists (pred n), m. split; [done|]. unfold run_callS in *. rewrite (rets_alone _ _ _ _ Ha). by apply rets_step.
    + exists n, m. split; [done|]. unfold run_callS. rewrite Ek. cbn [sec_step alone fst].
      destruct (Hk (m !! ck)) as [a Ha]. by rewrite (rets_alone _ _ _ _ Ha).
  - exists (pred n), m0. split; [done|]. by apply rets_step.
Qed.
Lemma before_same p p' fs :
  pl_fs p' = pl_fs p → pl_writer p' = pl_writer p → before p fs → before p' fs.
Proof. unfold before. by intros -> ->. Qed.

Lemma lock_ok fs0 p th mark msg p' : pool_ok fs0 p → pool_event p (Lock th mark msg) = Some p' → pool_ok fs0 p'.
Proof.
  intros (Hck & Hex & Hrd & fs & Hs & Hb). simpl.
  destruct (busy p th); [intros [= <-]; split_and!; eauto|]. destruct (call_of mark msg) as [c|] eqn:Hc.
  2: { intros [= <-]. split_and!; try done. exists fs. split; [|done].
       eapply served_snoc; [exact Hs|exact Hck|]. simpl. by rewrite session_step_call, Hc. }
  destruct (pl_writer p) as [w|] eqn:Hw; [intros [= <-]; split_and!; rewrite ?Hw; eauto|].
  unfold before in Hb. rewrite Hw in Hb. destruct (exclusive c) eqn:Hx.
  - case_bool_decide as Hemp; intros [= <-]; [|split_and!; rewrite ?Hw; eauto; exists fs; unfold before; by rewrite Hw].
    split; [done|]. split; [by right|]. split; [apply map_Forall_empty|]. exists fs. by split.
  - intros [= <-]. split; [done|]. split; [by left|]. split; [|exists fs; by split].
    apply map_Forall_insert_2; [by apply start_reading|done].
Qed.
Lemma section_ok fs0 p th p' : pool_ok fs0 p → pool_event p (Section1 th) = Some p' → pool_ok fs0 p'.
Proof.
  intros (Hck & Hex & Hrd & fs & Hs & Hb). simpl.
  destruct (pl_readers p !! th) as [rg|] eqn:Hth; [|intros [= <-]; split_and!; eauto].
  destruct (step_reading (pl_fs p) rg (pl_ck p) (Hrd _ _ Hth) Hck) as [Hr Hm].
  destruct (sec_step (rg_left rg) (pl_ck p)) as [q m]. intros [= <-]. split; [exact Hm|]. split.
  { destruct Hex as [Hw|He]; [by left|]. by rewrite He, lookup_empty in Hth. }
  split; [by apply map_Forall_insert_2|]. exists fs. split; [done|]. by eapply before_same.
Qed.
Lemma body_ok fs0 p th p' : pool_ok fs0 p → pool_event p (Body th) = Some p' → pool_ok fs0 p'.
Proof.
  intros (Hck & Hex & Hrd & fs & Hs & Hb). simpl.
  destruct (pl_writer p) as [w|] eqn:Hw; [|intros [= <-]; split_and!; rewrite ?Hw; eauto].
  destruct (negb _); [intros [= <-]; split_and!; rewrite ?Hw; eauto|].
  destruct (wg_reply w) as [o|] eqn:Ho; [intros [= <-]; split_and!; rewrite ?Hw; eauto|].
  destruct Hex as [?|He]; [done|]. unfold before in Hb. rewrite Hw, Ho in Hb. destruct Hb as (Hc & Hx & <-).
  destruct (run_call (wg_call w) (pl_fs p) (pl_ck p)) as [[st s]|] eqn:Er; [|done]. intros [= <-].
  assert (ns_ck s = pl_ck p) as Hsck.
  { pose proof (dispatch_writes reg prov used adv _ (cl_vers (wg_call w)) _ (cl_cred (wg_call w)) Hx (start (pl_fs p) (cl_rd (wg_call w)) (pl_ck p)) (pl_ck p)) as Hf.
    unfold run_call in Er. unfold with_ck in Hf. cbn [start ns_fs ns_rd ns_out] in Hf. fold (start (pl_fs p) (cl_rd (wg_call w)) (pl_ck p)) in Hf.
    rewrite Er in Hf. injection Hf as Hf. by rewrite Hf. }
  split; [by rewrite Hsck|]. split; [by right|]. split; [rewrite He; apply map_Forall_empty|].
  exists (pl_fs p). split; [done|]. split; [done|]. split; [done|]. exists (pl_ck p), (ns_ck s). split; [done|].
  simpl. by rewrite session_step_call, Hc, Er.
Qed.
Lemma unlock_ok fs0 p th p' : pool_ok fs0 p → pool_event p (Unlock th) = Some p' → pool_ok fs0 p'.
Proof.
  intros (Hck & Hex & Hrd & fs & Hs & Hb). simpl. destruct (pl_readers p !! th) as [rg|] eqn:Hth.
  - destruct Hex as [Hw|He]; [|by rewrite He, lookup_empty in Hth]. unfold before in Hb. rewrite Hw in Hb. subst fs.
    destruct (rg_left rg) as [[[st s]|]| |] eqn:El; [|done|intros [= <-]..].
    2,3: split_and!; eauto; exists (pl_fs p); split; [done|]; by (unfold before; rewrite Hw).
    intros [= <-]. destruct (finish_reading _ _ _ _ (Hrd _ _ Hth) El) as (m & m' & Hm & Hst).
    split; [done|]. split; [by left|]. split; [by apply map_Forall_delete|]. exists (pl_fs p). split; [|by (unfold before; rewrite Hw)].
    by eapply served_snoc.
  - destruct (pl_writer p) as [w|] eqn:Hw; [|intros [= <-]; split_and!; rewrite ?Hw; eauto].
    destruct (wg_reply w) as [o|] eqn:Ho; [|intros [= <-]; split_and!; rewrite ?Hw; eauto].
    destruct (wg_thread w =? th); intros [= <-]; [|split_and!; rewrite ?Hw; eauto].
    unfold before in Hb. rewrite Hw, Ho in Hb. destruct Hb as (Hc & Hx & m & m' & Hm & Hst).
    split; [done|]. split; [by left|]. split; [done|]. exists (pl_fs p). split; [|done].
    by eapply served_snoc.
Qed.
Lemma pool_run_ok fs0 p evs p' : pool_ok fs0 p → pool_run p evs = Some p' → pool_ok fs0 p'.
Proof.
  revert p. induction evs as [|e evs IH]; intros p Hp; simpl; [by intros [= <-]|].
  destruct (pool_event p e) as [p1|] eqn:E; [|done]. apply IH.
  destruct e; [eapply lock_ok|eapply section_ok|eapply body_ok|eapply unlock_ok]; done.
Qed.

(** Serving calls moves the store by sixteen operations for each at most. *)
Lemma served_steps fs ds fs' :
  served fs ds fs' → reachable_from fresh_store fs → room (16 * Z.of_nat (length ds)) fs →
  steps (16 * Z.of_nat (length ds)) fs fs'.
Proof.
  intros H R. induction H as [fs|fs ds fs1 d m fs2 m2 H IH Hm Hd]; [intros _; by apply steps_refl|].
  rewrite length_app. cbn [length]. replace (16 * Z.of_nat (length ds + 1)) with (16 * Z.of_nat (length ds) + 16) by lia.
  intros Hr. assert (room (16 * Z.of_nat (length ds)) fs) as Hr1 by (eapply room_le; [|exact Hr]; lia).
  specialize (IH R Hr1). eapply steps_trans; [exact IH|]. eapply nfs_session_steps; [|..|exact Hd].
  - by eapply reachable_run_steps.
  - apply (steps_inv (16 * Z.of_nat (length ds)) 16 fs); [lia|by apply inv_reachable|exact Hr|exact IH].
Qed.

(** C10. Calls at once are calls one after the other: however the threads of the
    NFSv3 server interleave, the calls done so far are the calls of a server
    that serves them in turn, in the order in which they let go of the lock -
    the same replies and, when no writer is in the middle, the same store -,
    each on some cache of names under their own cookies. A writer never holds
    the lock with anyone else; and the store stays reachable, with every
    snapshot as it was. *)
Theorem nfs3_linearizable fs m evs p :
  cache_ok m → pool_run (pool_at fs m) evs = Some p →
  (pl_writer p = None ∨ pl_readers p = ∅) ∧ cache_ok (pl_ck p) ∧
  ∃ fs', served fs (pl_done p) fs' ∧ (pl_writer p = None → pl_fs p = fs') ∧
    (reachable_from fresh_store fs → room (16 * Z.of_nat (length (pl_done p))) fs →
     reachable_from fresh_store fs' ∧
     ∀ h n, in64 (h_id h) → isSnapDir (h_id h) = false → 1 <= h_snap h < m_cur fs →
       observe fs' h = observe fs h ∧ lookup_ fs' h n = lookup_ fs h n).
Proof.
  intros Hm Hrun. apply (pool_run_ok fs) in Hrun as (Hck & Hex & _ & fs' & Hs & Hb).
  - split_and!; [done..|]. exists fs'. split; [done|]. split; [intros Hw; unfold before in Hb; by rewrite Hw in Hb|].
    intros R Hr. pose proof (served_steps _ _ _ Hs R Hr) as Hsteps.
    split; [by eapply reachable_run_steps|]. intros h n Hid Hsn Hg. eapply steps_sealed; try done. by apply inv_reachable.
  - split; [done|]. split; [by left|]. split; [apply map_Forall_empty|]. exists fs. split; [constructor|done].
Qed.

(** *** Every call ends *)

(** At most [n] sections are left of a program. *)
Definition left_in {A} (n : nat) (q : Sec A) : Prop :=
  (∃ a, rets n q a) ∨ ∃ n', n = S n' ∧ finds_once n' q.
Lemma left_in_step {A} n (q : Sec A) m : left_in n q → left_in (pred n) (sec_step q m).1.
Proof.
  intros [[a Ha]|(n' & -> & [[a Ha]|(ck & k & -> & Hk)])].
  - left. exists a. by apply rets_step.
  - left. exists a. eapply rets_le; [by apply rets_step|simpl; lia].
  - left. destruct (Hk (m !! ck)) as [a Ha]. by exists a.
Qed.
Definition is_section th (e : PoolEv) : Prop := match e with Section1 t => t = th | _ => False end.
Global Instance is_section_dec th e : Decision (is_section th e).
Proof. destruct e; simpl; apply _. Defined.

Lemma event_keeps p e p' th rg n :
  pool_event p e = Some p' → e ≠ Unlock th → pl_readers p !! th = Some rg → left_in n (rg_left rg) →
  ∃ rg', pl_readers p' !! th = Some rg' ∧
    left_in (if decide (is_section th e) then pred n else n) (rg_left rg').
Proof.
  intros He Hne Hrg Hn. destruct e as [t mark msg|t|t|t]; cbn [is_section]; rewrite ?decide_False by done; simpl in He.
  - revert He. destruct (busy p t) eqn:Hb; [intros [= <-]; eauto|].
    assert (t ≠ th) as Ht by (intros ->; unfold busy in Hb; rewrite Hrg in Hb; by rewrite bool_decide_true in Hb by eauto).
    destruct (call_of mark msg); [|intros [= <-]; eauto]. destruct (pl_writer p); [intros [= <-]; eauto|].
    destruct (exclusive _).
    + case_bool_decide as Hemp; [by rewrite Hemp, lookup_empty in Hrg|intros [= <-]; eauto].
    + intros [= <-]. exists rg. split; [|done]. simpl. by rewrite lookup_insert_ne.
  - destruct (decide (t = th)) as [->|Ht].
    + rewrite Hrg in He. pose proof (left_in_step n (rg_left rg) (pl_ck p) Hn) as Hs.
      destruct (sec_step (rg_left rg) (pl_ck p)) as [q m]. injection He as <-. eexists. split; [apply lookup_insert_eq|]. done.
    + exists rg. split; [|done]. destruct (pl_readers p !! t); [|by injection He as <-].
      destruct (sec_step _ _) as [q m]. injection He as <-. simpl. by rewrite lookup_insert_ne.
  - exists rg. split; [|done]. destruct (pl_writer p) as [w|]; [|by injection He as <-]. destruct (negb _); [by injection He as <-|].
    destruct (wg_reply w); [by injection He as <-|]. destruct (run_call _ _ _) as [[st s]|]; [|done]. by injection He as <-.
  - assert (t ≠ th) as Ht by congruence. exists rg. split; [|done].
    destruct (pl_readers p !! t) as [rg1|].
    + destruct (rg_left rg1) as [[[st s]|]| |]; [|done|by injection He as <-..]. injection He as <-. simpl. by rewrite lookup_delete_ne.
    + destruct (pl_writer p) as [w|]; [|by injection He as <-]. destruct (wg_reply w); [|by injection He as <-].
      destruct (_ =? _); by injection He as <-.
Qed.
Lemma run_keeps evs p p' th rg n :
  pool_run p evs = Some p' → Unlock th ∉ evs → pl_readers p !! th = Some rg → left_in n (rg_left rg) →
  ∃ rg', pl_readers p' !! th = Some rg' ∧ left_in (n - length (filter (is_section th) evs)) (rg_left rg').
Proof.
  revert p rg n. induction evs as [|e evs IH]; intros p rg n; cbn [pool_run].
  { intros [= <-] _ ? ?. exists rg. split; [done|]. by rewrite Nat.sub_0_r. }
  destruct (pool_event p e) as [p1|] eqn:E; [|done]. cbn [mbind option_bind]. intros Hrun [Hne Hni]%not_elem_of_cons Hrg Hn.
  destruct (event_keeps _ _ _ _ _ _ E (not_eq_sym Hne) Hrg Hn) as (rg1 & Hrg1 & Hn1).
  destruct (IH _ _ _ Hrun Hni Hrg1 Hn1) as (rg2 & Hrg2 & Hn2). exists rg2. split; [done|].
  revert Hn2. rewrite filter_cons. destruct (decide (is_section th e)); [|done]. cbn [length].
  by replace (n - S (length (filter (is_section th) evs)))%nat with (pred n - length (filter (is_section th) evs))%nat by lia.
Qed.

Definition some_left p : Prop :=
  map_Forall (λ _ rg, ∃ n, left_in n (rg_left rg) ∧ 24 * Z.of_nat n < 2 ^ 32 + 24) (pl_readers p).
Lemma event_some_left p e p' : pool_event p e = Some p' → some_left p → some_left p'.
Proof.
  intros He Hl. unfold some_left in *. destruct e as [t mark msg|t|t|t]; simpl in He.
  - destruct (busy p t); [by injection He as <-|]. destruct (call_of mark msg) as [c|]; [|by injection He as <-].
    destruct (pl_writer p); [by injection He as <-|]. destruct (exclusive c).
    + case_bool_decide; injection He as <-; [apply map_Forall_empty|done].
    + injection He as <-. apply map_Forall_insert_2; [|done].
      destruct (dispatchS_once reg prov used adv (cl_prog c) (cl_vers c) (cl_proc c) (cl_cred c) (start (pl_fs p) (cl_rd c) ∅)) as (n & Hn & Hb).
      exists (S n). split; [right; by exists n|lia].
  - destruct (pl_readers p !! t) as [rg|] eqn:Hrg; [|by injection He as <-]. destruct (Hl t rg Hrg) as (n & Hn & Hb).
    pose proof (left_in_step n (rg_left rg) (pl_ck p) Hn) as Hs. destruct (sec_step _ _) as [q m]. injection He as <-.
    apply map_Forall_insert_2; [|done]. exists (pred n). split; [exact Hs|lia].
  - destruct (pl_writer p) as [w|]; [|by injection He as <-]. destruct (negb _); [by injection He as <-|].
    destruct (wg_reply w); [by injection He as <-|]. destruct (run_call _ _ _) as [[st s]|]; [|done]. by injection He as <-.
  - destruct (pl_readers p !! t) as [rg1|].
    + destruct (rg_left rg1) as [[[st s]|]| |]; [|done|by injection He as <-..]. injection He as <-. by apply map_Forall_delete.
    + destruct (pl_writer p) as [w|]; [|by injection He as <-]. destruct (wg_reply w); [|by injection He as <-].
      destruct (_ =? _); by injection He as <-.
Qed.
Lemma run_some_left p evs p' : pool_run p evs = Some p' → some_left p → some_left p'.
Proof.
  revert p. induction evs as [|e evs IH]; intros p; cbn [pool_run]; [by intros [= <-]|].
  destruct (pool_event p e) as [p1|] eqn:E; [|done]. cbn [mbind option_bind]. intros Hr Hl. eapply IH, event_some_left; done.
Qed.

End Pool.

(** ** Witnesses *)

(** Two clients list the root at once, a third makes a directory: it waits for
    both, and its directory is in neither list. *)
Definition demo_readdir : bytes := demo_call PROG_NFS NFS_V3 NFSPROC3_READDIR (be4 16 ++ be8 1 ++ be8 LATEST ++ be8 0 ++ be8 0 ++ be4 4096).
Definition demo_pool : list PoolEv :=
  [Lock 1 0x80000060 demo_readdir; Lock 2 0x80000060 demo_readdir; Section1 1; Lock 3 0x80000060 demo_mkdir; Section1 2; Section1 2;
   Section1 1; Unlock 1; Unlock 2; Lock 3 0x80000060 demo_mkdir; Body 3; Lock 1 0x80000060 demo_readdir; Unlock 3].
Definition demo_pool_run : option (Pool (M:=gmap bytes bytes)) := pool_run Registry0 [] None true (pool_at demo ∅) demo_pool.
Lemma nfs3_linearizable_witness :
  ∃ p fs', demo_pool_run = Some p ∧ dn_thread <$> pl_done p = [1; 2; 3] ∧
  served Registry0 [] None true demo (pl_done p) fs' ∧ pl_fs p = fs' ∧ reachable_from fresh_store fs' ∧
  lookup_ fs' (mkHandle 1 LATEST) (str "new") = Some (mkHandle 4 LATEST).
Proof.
  assert (match demo_pool_run with
          | Some p => bool_decide (dn_thread <$> pl_done p = [1; 2; 3]) && bool_decide (pl_writer p = None) &&
                      bool_decide (lookup_ (pl_fs p) (mkHandle 1 LATEST) (str "new") = Some (mkHandle 4 LATEST))
          | None => false end = true) as Hc by (vm_compute; reflexivity).
  destruct demo_pool_run as [p|] eqn:E; [|discriminate Hc].
  apply andb_true_iff in Hc as [[H1 H2]%andb_true_iff H3]. apply bool_decide_eq_true in H1, H2, H3.
  destruct (nfs3_linearizable Registry0 [] None true demo ∅ demo_pool p cache_ok_empty E) as (_ & _ & fs' & Hs & Hf & HR).
  exists p, fs'. split; [reflexivity|]. split; [exact H1|]. split; [exact Hs|]. split; [by apply Hf|]. split.
  - apply HR; [exact demo_reachable|]. apply demo_room. apply (f_equal length) in H1. rewrite length_fmap in H1. rewrite H1. vm_compute. reflexivity.
  - by rewrite <- Hf.
Defined.
