(* ===== verification/Shared4.v ===== *)
(** * Shared4: NFSv4 READDIR, section by section (plugins/nfsv4/nfsv4.cpp,
    [opReaddir])

    [doOp] runs READDIR under the shared lock, at once with others; its cookie
    cache has a mutex of its own. Whatever the other threads make of the cache
    between two of its sections, READDIR answers as the READDIR of [Nfs4] that
    finds the cache of its first section; so [Threads] may take it for one step. *)
From S2P Require Import Prelude Keys Kv NodeRec Store Inv Content Di FsStat Host Xdr Nfs3 Nfs4State Nfs4 Sections Shared.
Local Open Scope Z_scope.
Set Warnings "-clear-no-such-hyp".

(** ** The sections *)

Section Readdir.
Context {M : Type} `{!KvEngine M}.
Abbreviation Q := (Proc4 M).
Implicit Types (fs : Store M) (dir : Handle) (v : S4) (s : NState M) (m : Cache) (req : list Z).

(** The entries go into the reply [out] as they come. *)
Fixpoint page_entriesS4 fs req (mx budget : Z) (ents : list (bytes * Handle)) (out : bytes) : Sec (bytes * option Z) :=
  match ents with
  | [] => Ret (out, Some budget)
  | e :: ents' =>
      let one := one_entry fs req e in
      if mx <? budget + Z.of_nat (length one) + 8 then Ret (out, None)
      else
        Remember (nameCookie e.1) e.1
          (page_entriesS4 fs req mx (budget + Z.of_nat (length one) + 4) ents' (w_u32 out (u32 1) ++ one))
  end.
Fixpoint page_loopS4 (fuel : nat) fs dir req (mx budget : Z) (after out : bytes) : Sec (option (bytes * bool)) :=
  match fuel with
  | O => Ret None
  | S fuel' =>
      let pg := readdirPage fs dir after 512 in
      r ← page_entriesS4 fs req mx budget (pg_entries pg) out;
      match r with
      | (out, None) => Ret (Some (out, false))
      | (out, Some budget) =>
          if bool_decide (pg_entries pg = []) || pg_eof pg then Ret (Some (out, true))
          else page_loopS4 fuel' fs dir req mx budget (pg_cookie pg) out
      end
  end.
(** [opReaddir] up to the cookie: an answer, or the directory, the cookie, the
    size of the reply and the attributes. *)
Definition readdir4_head : Q (Z + Handle * Z * Z * list Z) :=
  cookie ← read r_u64; _ ← skip_ 8; _ ← read r_u32; mx ← read r_u32; req ← read r_bitmap;
  n ← cur;
  match n with
  | None => st ← answer NFS4ERR_NOFILEHANDLE; mret (inl st)
  | Some dir =>
      ty ← get_fs (λ fs, n_type fs dir);
      if negb (ty =? tcode DIR) then st ← answer NFS4ERR_NOTDIR; mret (inl st)
      else mret (inr (dir, cookie, mx, req))
  end.
(** The rest, on the name to resume after. *)
Definition readdir4_page dir (mx : Z) req (after : bytes) v s : Sec (option ((Z * S4) * NState M)) :=
  let out := w_zeros (w_u32 (ns_out s) (u32 NFS4_OK)) 8 in
  r ← page_loopS4 (page_fuel (ns_fs s) dir) (ns_fs s) dir req mx 96 after out;
  Ret (match r with
       | Some (out, eof) =>
           Some ((NFS4_OK, v),
                 mkNs (ns_fs s) (ns_rd s) (w_u32 (w_u32 out (u32 0)) (u32 (if (eof : bool) then 1 else 0))) (ns_ck s))
       | None => None
       end).
Definition opReaddirS v s : Sec (option ((Z * S4) * NState M)) :=
  match readdir4_head v s with
  | None => Ret None
  | Some ((inl st, v), s) => Ret (Some ((st, v), s))
  | Some ((inr (dir, cookie, mx, req), v), s) =>
      rn ← (if cookie =? 0 then Ret (Some (Some [])) else resumeNameS (ns_fs s) dir cookie);
      match rn with
      | None => Ret None
      | Some None => Ret (answer NFS4ERR_BAD_COOKIE v s)
      | Some (Some after) => readdir4_page dir mx req after v s
      end
  end.

(** ** They are the code of [Nfs4] *)

Lemma page_entriesS4_alone req mx b ents s :
  page_entries4 req mx b ents s =
    let r := alone (page_entriesS4 (ns_fs s) req mx b ents (ns_out s)) (ns_ck s) in
    Some (r.1.2, mkNs (ns_fs s) (ns_rd s) r.1.1 r.2).
Proof.
  revert b s. induction ents as [|e ents IH]; intros b s; [by destruct s|].
  cbn [page_entries4 page_entriesS4]. unfold mbind at 1, proc_bind at 1, fs_get.
  destruct (_ <? _); [by destruct s|]. unfold mbind, proc_bind, rememberCookie, wr_u32, wr. cbn [ns_fs ns_rd ns_out ns_ck].
  rewrite IH. done.
Qed.
Lemma page_loopS4_alone fuel dir req mx b after s :
  page_loop4 fuel dir req mx b after s =
    match alone (page_loopS4 fuel (ns_fs s) dir req mx b after (ns_out s)) (ns_ck s) with
    | (Some (out, eof), m) => Some (eof, mkNs (ns_fs s) (ns_rd s) out m)
    | (None, _) => None
    end.
Proof.
  revert b after s. induction fuel as [|fuel IH]; intros b after s; [done|].
  cbn [page_loop4 page_loopS4]. rewrite alone_bind. unfold mbind at 1 2, proc_bind at 1 2, fs_get.
  rewrite page_entriesS4_alone. cbv zeta. set (pg := readdirPage (ns_fs s) dir after 512).
  destruct (alone (page_entriesS4 _ _ _ _ _ _) _) as [[out [b'|]] m]; cbn [fst snd]; [|done].
  destruct (_ || _); [done|]. by rewrite IH.
Qed.
Lemma ck_free_head4 v : ck_free (readdir4_head v).
Proof.
  unfold readdir4_head, cur, answer, get_fs, skip_, read, out_u32, lift, get4, mret, proc4_ret, mbind, proc4_bind.
  ck_free_tac.
Qed.
Lemma readdir4_split v s :
  opReaddir v s =
    match readdir4_head v s with
    | None => None
    | Some ((inl st, v1), s1) => Some ((st, v1), s1)
    | Some ((inr (dir, cookie, mx, req), v1), s1) =>
        (rn ← (if cookie =? 0 then mret (Some []) else lift (resumeName dir cookie));
         match rn with
         | None => answer NFS4ERR_BAD_COOKIE
         | Some after =>
             _ ← out_u32 NFS4_OK; _ ← out (λ w, w_zeros w 8);
             fuel ← get_fs (λ fs, page_fuel fs dir);
             eof ← lift (page_loop4 fuel dir req mx 96 after);
             _ ← out_u32 0; _ ← out_u32 (if (eof : bool) then 1 else 0); done_
         end) v1 s1
    end.
Proof.
  unfold opReaddir, readdir4_head, with_cur, cur.
  unfold answer, get_fs, skip_, read, out_u32, lift, get4, mret, proc4_ret, mbind, proc4_bind, mret, proc_ret, mbind, proc_bind, rd, fs_get.
  repeat (destruct (r_u64 _) as [? ?] || destruct (r_u32 _) as [? ?] || destruct (r_bitmap _) as [? ?]; cbn [ns_rd ns_fs ns_out ns_ck]).
  destruct (cfh (s4_fh v)) as [[id snap]|]; cbn [ns_rd ns_fs ns_out ns_ck]; [|done].
  destruct (nodeById _ _ _) as [dir|]; [|done]. by destruct (negb _).
Qed.

(** READDIR from a name, of a state-passing program and of one of sections. *)
Lemma readdir4_page_alone dir mx req after v s m :
  (_ ← out_u32 NFS4_OK; _ ← out (λ w, w_zeros w 8);
   fuel ← get_fs (λ fs, page_fuel fs dir);
   eof ← lift (page_loop4 fuel dir req mx 96 after);
   _ ← out_u32 0; _ ← out_u32 (if (eof : bool) then 1 else 0); done_) v (with_ck s m) =
    match alone (readdir4_page dir mx req after v s) m with
    | (Some (x, s'), m') => Some (x, with_ck s' m')
    | (None, _) => None
    end.
Proof.
  unfold out_u32, out, get_fs, lift, done_, mret, proc4_ret, mbind, proc4_bind, mret, proc_ret, mbind, proc_bind, wr_u32, wr, fs_get.
  cbn [ns_fs ns_rd ns_out ns_ck with_ck]. rewrite page_loopS4_alone. cbn [ns_fs ns_rd ns_out ns_ck with_ck].
  unfold readdir4_page. rewrite alone_bind. destruct (alone (page_loopS4 _ _ _ _ _ _ _ _) _) as [[[out eof]|] m']; [|done].
  reflexivity.
Qed.
Lemma opReaddirS_alone v s m :
  opReaddir v (with_ck s m) =
    match alone (opReaddirS v s) m with
    | (Some (x, s'), m') => Some (x, with_ck s' m')
    | (None, _) => None
    end.
Proof.
  rewrite readdir4_split, ck_free_head4. unfold opReaddirS.
  destruct (readdir4_head v s) as [[[[st|[[[dir cookie] mx] req]] v1] s1]|]; [done| |done].
  assert (lift (resumeName dir cookie) v1 (with_ck s1 m) =
    match alone (resumeNameS (ns_fs s1) dir cookie) m with (Some r, _) => Some ((r, v1), with_ck s1 m) | (None, _) => None end) as Hrn.
  { unfold lift, resumeName, resumeNameS, mbind, proc_bind. cbn [alone ns_ck ns_fs with_ck].
    destruct (m !! cookie); [done|]. by destruct (resume_scan _ _ _ _ _). }
  assert ((alone (resumeNameS (ns_fs s1) dir cookie) m).2 = m) as Hm by done.
  rewrite alone_bind. destruct (cookie =? 0); [exact (readdir4_page_alone dir mx req [] v1 s1 m)|].
  unfold mbind at 1, proc4_bind at 1, mbind at 1, proc_bind at 1. rewrite Hrn.
  destruct (alone (resumeNameS (ns_fs s1) dir cookie) m) as [[[name|]|] m']; cbn [fst snd] in *; subst m'; [|by destruct s1|done].
  exact (readdir4_page_alone dir mx req name v1 s1 m).
Qed.

(** *** One lookup *)

(** Every entry takes four bytes at least. *)
Definition within4 (mx b : Z) (n : nat) : Prop := n = 0%nat ∨ b + 4 * Z.of_nat n <= mx.
Lemma page_entriesS4_rets fs req mx b ents out :
  ∃ n r o, rets n (page_entriesS4 fs req mx b ents out) (r, o) ∧ within4 mx b n ∧ ∀ b', o = Some b' → b + 4 * Z.of_nat n <= b'.
Proof.
  revert b out. induction ents as [|e ents IH]; intros b out; cbn [page_entriesS4].
  { exists 0%nat, out, (Some b). split; [constructor|]. split; [by left|]. intros b' [= <-]. lia. }
  destruct (Z.ltb_spec mx (b + Z.of_nat (length (one_entry fs req e)) + 8)).
  { exists 0%nat, out, None. split; [constructor|]. split; [by left|done]. }
  destruct (IH (b + Z.of_nat (length (one_entry fs req e)) + 4) (w_u32 out (u32 1) ++ one_entry fs req e)) as (n & r & o & Hn & Hw & Ho).
  exists (S n), r, o. split; [by constructor|]. split; [right; destruct Hw as [->|Hw]; lia|]. intros b' Hb'. specialize (Ho b' Hb'). lia.
Qed.
Lemma page_loopS4_rets fuel fs dir req mx b after out :
  ∃ n a, rets n (page_loopS4 fuel fs dir req mx b after out) a ∧ within4 mx b n.
Proof.
  revert b after out. induction fuel as [|fuel IH]; intros b after out; cbn [page_loopS4].
  { exists 0%nat, None. split; [constructor|by left]. }
  destruct (page_entriesS4_rets fs req mx b (pg_entries (readdirPage fs dir after 512)) out) as (n & r & o & Hn & Hw & Ho).
  destruct o as [b'|].
  - destruct (bool_decide _ || _) eqn:E.
    + exists (n + 0)%nat, (Some (r, true)). split; [eapply rets_bind; [exact Hn|constructor]|by rewrite Nat.add_0_r].
    + destruct (IH b' (pg_cookie (readdirPage fs dir after 512)) r) as (n' & a & Hn' & Hw').
      exists (n + n')%nat, a. split; [eapply rets_bind; [exact Hn|exact Hn']|]. specialize (Ho b' eq_refl).
      destruct Hw' as [->|Hw']; [by rewrite Nat.add_0_r|]. right. lia.
  - exists (n + 0)%nat, (Some (r, false)). split; [eapply rets_bind; [exact Hn|constructor]|by rewrite Nat.add_0_r].
Qed.
Lemma readdir4_page_rets dir mx req after v s : ∃ a, rets (Z.to_nat (mx / 4)) (readdir4_page dir mx req after v s) a.
Proof.
  unfold readdir4_page. destruct (page_loopS4_rets (page_fuel (ns_fs s) dir) (ns_fs s) dir req mx 96 after (w_zeros (w_u32 (ns_out s) (u32 NFS4_OK)) 8)) as (n & a & Hn & Hw).
  eexists. eapply rets_le; [eapply (rets_bind n 0); [exact Hn|constructor]|]. rewrite Nat.add_0_r.
  destruct Hw as [->|Hw]; [lia|]. apply Nat2Z.inj_le. rewrite Z2Nat.id by (apply Z.div_pos; lia). apply Z.div_le_lower_bound; lia.
Qed.
Lemma opReaddirS_once v s : ∃ n, finds_once n (opReaddirS v s).
Proof.
  unfold opReaddirS. destruct (readdir4_head v s) as [[[[st|[[[dir cookie] mx] req]] v1] s1]|].
  1,3: exists 0%nat; left; eexists; constructor.
  exists (Z.to_nat (mx / 4)). destruct (cookie =? 0).
  - left. apply (readdir4_page_rets dir mx req [] v1 s1).
  - right. do 2 eexists. split; [reflexivity|]. intros o. cbn [mbind sec_bind].
    destruct (match o with Some name => _ | None => _ end) as [[after|]|]; [apply readdir4_page_rets|eexists; constructor..].
Qed.

(** C24. READDIR over NFSv4 at once with other operations: whatever the cookie
    cache is at each of its sections, its reply and the client state after it
    are those of the READDIR that runs alone and finds the cache of the first
    section. *)
Theorem nfs4_readdir_atomic v s (env : nat → Cache) :
  match among (opReaddirS v s) env with
  | Some (x, s') => ∃ m, opReaddir v (with_ck s (env 0%nat)) = Some (x, with_ck s' m)
  | None => opReaddir v (with_ck s (env 0%nat)) = None
  end.
Proof.
  destruct (opReaddirS_once v s) as [n Hn]. rewrite (finds_once_among _ _ _ Hn), opReaddirS_alone.
  destruct (alone (opReaddirS v s) (env 0%nat)) as [[[x s']|] m]; simpl; [by exists m|done].
Qed.
End Readdir.
