(* ===== verification/SharedWalk.v ===== *)
(** * SharedWalk: listing a directory while other calls use the cookie cache

    The clients of [NfsPages] and [Nfs4Walk], whose calls now run at once with
    those of other clients: the cache is another one at every section of every
    call - other directories are listed, the cache overflows and is cleared. *)
From S2P Require Import Prelude Keys Kv NodeRec Spec Store Views Shape Inv Init Reads StoreProps Content Di FsStat Host Xdr Nfs3 NfsSteps NfsSafe NfsPages NfsProps Nfs4State Nfs4 Nfs4Pages Nfs4Walk Sections Shared Shared4.
Local Open Scope Z_scope.
Set Warnings "-clear-no-such-hyp".

Section Walk.
Context {M : Type} `{!KvEngine M}.
Implicit Types (fs : Store M) (dir : Handle) (envs : nat → nat → Cache) (env : nat → Cache) (v : S4) (req : list Z).

(** The cache at section [i] of call [k] is [envs k i]. *)
Definition shift envs : nat → nat → Cache := λ k, envs (S k).
(** Cookies name entries, in the directory and in every cache a call looks up. *)
Definition cookies_shared fs dir envs : Prop := ∀ k, cookies_ok dir (mkNs fs (mkReader [] 0 true) [] (envs k O)).

(** ** NFSv3 *)

(** A client that asks again from the last cookie until the end. *)
Fixpoint client_shared envs (fuel : nat) fs dir (cookie mb per : Z) : option (list DirEnt) :=
  match fuel with
  | O => None
  | S fuel' =>
      '(st, ents, eof) ← among (pageDirS fs dir cookie mb per) (envs O);
      if (eof : bool) then Some ents
      else match last ents with
           | Some e => more ← client_shared (shift envs) fuel' fs dir (de_cookie e) mb per; Some (ents ++ more)
           | None => None
           end
  end.

Lemma pageDir_among fs dir cookie mb per env r out : 0 <= per → 0 <= mb →
  among (pageDirS fs dir cookie mb per) env = fst <$> pageDir dir cookie mb per (mkNs fs r out (env O)).
Proof.
  intros Hper Hmb. destruct (pageDirS_once fs dir cookie mb per Hper Hmb) as (n & Hn & _).
  rewrite (finds_once_among _ _ _ Hn), pageDirS_alone. unfold uncut. cbn [ns_fs ns_ck].
  by destruct (alone _ _) as [[a|] m].
Qed.
Lemma client_shared_spec envs fs dir mb per fuel i :
  inv fs → handle_ok dir → cookies_shared fs dir envs → 0 <= per → 0 <= mb → (i <= length (listing fs dir))%nat →
  Forall (λ e, is_Some (fits mb per 128 (de_name e))) (listing fs dir) → (length (listing fs dir) - i < fuel)%nat →
  client_shared envs fuel fs dir (cookie_at (listing fs dir) i) mb per = Some (drop i (listing fs dir)).
Proof.
  intros I Hd Hc Hper Hmb Hi Hfit. revert envs i Hc Hi. induction fuel as [|fuel IH]; intros envs i Hc Hi Hf; [lia|].
  cbn [client_shared]. rewrite (pageDir_among _ _ _ _ _ _ (mkReader [] 0 true) []) by done.
  destruct (pageDir_spec dir mb per (mkNs fs (mkReader [] 0 true) [] (envs O O)) i I Hd (Hc O) Hi) as (s1 & E & _).
  cbn [ns_fs] in E. rewrite E. clear E. cbn [fmap option_fmap option_map fst mbind option_bind].
  set (l := listing fs dir) in *. destruct (fit_page mb per l i Hfit) as [[Hend ->]|(k & e & -> & Hk & He & Hlast)].
  { by rewrite bool_decide_true. }
  rewrite bool_decide_false by by intros [? ?]. rewrite Hlast, Hk.
  assert (de_cookie e = cookie_at l (S (i + k))) as -> by (simpl; by rewrite He). apply lookup_lt_Some in He.
  rewrite IH; [|by intros k'; apply (Hc (S k'))|lia|lia]. cbn [mbind option_bind]. f_equal. apply take_drop_on.
Qed.


(** ** NFSv4 *)

(** The status and the result of one READDIR among other operations. *)
Definition ask_shared env fs v (cookie mx : Z) req : option (Z * bytes) :=
  match among (opReaddirS v (mkNs fs (rd_at [] (readdir_args cookie mx req)) [] ∅)) env with
  | Some ((st, _), s') => Some (st, ns_out s')
  | None => None
  end.
Fixpoint walk4_shared envs (fuel : nat) fs v (cookie mx : Z) req : option (list (Z * bytes)) :=
  match fuel with
  | O => None
  | S fuel' =>
      '(st, body) ← ask_shared (envs O) fs v cookie mx req;
      match (if st =? NFS4_OK then r_entries (S (length body)) (rd_at [] (drop 12 body)) else None) with
      | Some (es, true) => Some es
      | Some (es, false) =>
          match last es with
          | Some e => more ← walk4_shared (shift envs) fuel' fs v e.1 mx req; Some (es ++ more)
          | None => None
          end
      | None => None
      end
  end.
Lemma ask_among env fs v cookie mx req r out :
  ask_shared env fs v cookie mx req = fst <$> ask v cookie mx req (mkNs fs r out (env O)).
Proof.
  unfold ask_shared, ask. cbn [ns_fs ns_ck]. set (s := mkNs fs (rd_at [] (readdir_args cookie mx req)) [] ∅).
  change (mkNs fs (rd_at [] (readdir_args cookie mx req)) [] (env O)) with (with_ck s (env O)).
  destruct (opReaddirS_once v s) as [n Hn]. rewrite (finds_once_among _ _ _ Hn), opReaddirS_alone.
  by destruct (alone (opReaddirS v s) (env O)) as [[[[st v'] s']|] m].
Qed.

(** One page of the walk: what the client decodes of it. *)
Section OneDirectory.
Context fs v dir (mx : Z) req (I : inv fs) (Hd : handle_ok dir) (Hm : in32 mx).
Context (Hreq : Forall in32 req) (Hl : (length req <= 16)%nat) (Hcfh : cfh (s4_fh v) = Some (h_id dir, h_snap dir)).
Context (Hnode : nodeById fs (h_id dir) (h_snap dir) = Some dir) (Hdir : n_type fs dir = tcode DIR).
Context (Hfit : Forall (λ e, 96 + Z.of_nat (length (one_entry fs req e)) + 8 <= mx) (visible fs dir)).
Let l := visible fs dir.

Lemma ask_shared_spec env i :
  cookies_ok dir (mkNs fs (mkReader [] 0 true) [] (env O)) → (i <= length l)%nat →
  ∃ k body, ask_shared env fs v (cookie4_at l i) mx req = Some (NFS4_OK, body) ∧
    r_entries (S (length body)) (rd_at [] (drop 12 body)) = Some (shown <$> take k (drop i l), bool_decide (k = length (drop i l))) ∧
    (k <= length (drop i l))%nat ∧ (k = 0%nat → drop i l = []).
Proof.
  intros Hc Hi. rewrite (ask_among _ _ _ _ _ _ (mkReader [] 0 true) []).
  destruct (ask_at_spec fs v dir mx req I Hd Hm Hreq Hl Hcfh Hnode Hdir Hfit (mkNs fs (mkReader [] 0 true) [] (env O)) i eq_refl Hc Hi)
    as (k & s1 & E & _ & Hk & Hk0).
  fold l in E, Hk, Hk0. rewrite E. exists k. eexists. split; [reflexivity|]. split; [|done].
  change (drop 12 (be4 0 ++ be8 0 ++ ?b)) with b. pose proof (length_entries4_ge fs req Hl (take k (drop i l))) as Hge.
  apply (r_entries_at fs req (take k (drop i l)) []).
  - apply Forall_take, Forall_drop. eapply Forall_impl; [exact Hfit|]. intros e He. simpl in He. word_lia.
  - rewrite !length_app. lia.
Qed.
Lemma walk4_shared_spec envs fuel i :
  cookies_shared fs dir envs → (i <= length l)%nat → (length l - i < fuel)%nat →
  walk4_shared envs fuel fs v (cookie4_at l i) mx req = Some (shown <$> drop i l).
Proof.
  revert envs i. induction fuel as [|fuel IH]; intros envs i Hc Hi Hf; [lia|]. cbn [walk4_shared].
  destruct (ask_shared_spec (envs O) i (Hc O) Hi) as (k & body & -> & Hdec & Hk & Hk0).
  cbn [mbind option_bind]. change (NFS4_OK =? NFS4_OK) with true. cbv iota. rewrite Hdec.
  case_bool_decide as Hend; [by rewrite Hend, firstn_all|]. destruct k as [|k]; [by rewrite Hk0 in Hend|].
  rewrite length_drop in *. destruct (l !! (i + k)%nat) as [e|] eqn:He; [|apply lookup_ge_None in He; lia].
  assert (last (shown <$> take (S k) (drop i l)) = Some (shown e)) as ->.
  { rewrite (take_S_r _ _ e) by by rewrite lookup_drop. rewrite fmap_app. apply last_snoc. }
  assert ((shown e).1 = cookie4_at l (S (i + k))) as -> by (cbn [cookie4_at]; by rewrite He).
  rewrite IH; [|by intros k'; apply (Hc (S k'))|lia|lia]. cbn [mbind option_bind].
  by rewrite <- fmap_app, take_drop_on.
Qed.
End OneDirectory.

End Walk.

(** ** Witnesses *)

(** Another client's listing comes and goes in the cache, which is cleared. *)
Definition demo_envs (k i : nat) : Cache :=
  if Nat.even (k + i) then ∅ else <[nameCookie (str "other") := str "other"]> ∅.
Lemma demo_cookies : cookies_shared demo (mkHandle 1 LATEST) demo_envs.
Proof.
  intros k n m. cbn [ns_fs ns_ck]. rewrite demo_visible. cbn [fmap list_fmap fst]. unfold demo_envs.
  intros Hn Hm. assert (m ∈ [str "d"; str "g"] ∧ nameCookie m = nameCookie n) as [Hin Hh].
  { destruct Hm as [Hm|Hm]; [exact Hm|]. exfalso. destruct (Nat.even _); [by rewrite lookup_empty in Hm|].
    apply lookup_insert_Some in Hm as [[He _]|[_ Hm]]; [|by rewrite lookup_empty in Hm].
    revert He. rewrite !elem_of_cons in Hn. destruct Hn as [-> |[-> |Hn%elem_of_nil]]; done. }
  revert Hh. rewrite !elem_of_cons in Hn, Hin.
  destruct Hn as [-> |[-> |Hn%elem_of_nil]], Hin as [-> |[-> |Hm'%elem_of_nil]]; done.
Qed.
