(* ===== verification/Threads.v ===== *)
(** * Threads: COMPOUNDs on several threads (plugins/nfsv4/nfsv4.cpp, [reply],
    [compound], [doOp])

    The store's lock is taken by [doOp], so what several threads serve at a time
    interleaves between operations: a thread has the current and the saved
    handle ([t_fh], thread-local), its reader and its results, the process the
    store, the cookie caches and the client state. *)
From S2P Require Import Prelude Keys Kv NodeRec Spec Store Views Shape Inv Init Reads StoreProps Content Di Host Xdr Nfs3 NfsSteps NfsSafe NfsProps Nfs4State Nfs4 Nfs4StateProps Nfs4Safe Nfs4Props Nfs4Trace Nfs4Wit NfsConn.
Local Open Scope Z_scope.
Set Warnings "-clear-no-such-hyp".

(** A COMPOUND that a thread is in the middle of. *)
Record Task := mkTask {
  t_xid : Z; t_tag : bytes; t_left : nat; t_last : Z; t_done : Z; t_fh : Cfh; t_rd : Reader; t_res : bytes
}.

Section Threads.
Context {M : Type} `{!KvEngine M} {order : MapOrder}.
Context (reg : Registry Provider) (prov : bytes) (hash : bytes → Z).
Implicit Types (k : Core (M:=M)) (t : Task).

(** ** One thread *)

(** [reply] up to the loop of [compound]: the answer of a message that has
    none, or the task. *)
Definition compound_head : Proc M (bytes * Z * bool) :=
  tag ← rd_str; _ ← rd r_u32; nops ← rd r_u32; ok ← rd_is_ok; mret (tag, nops, ok).
Definition take_up k (msg : bytes) : option (bytes + Task) :=
  let r := mkReader msg 0 true in
  let '(xid, r) := r_u32 r in
  let '(_, r) := r_u32 r in
  let '(_, r) := r_u32 r in
  let '(prog, r) := r_u32 r in
  let '(vers, r) := r_u32 r in
  let '(proc, r) := r_u32 r in
  let r := r_skipAuth (r_skipAuth r) in
  if negb (prog =? PROG_NFS) || negb (vers =? NFS_V4) then Some (inl (reply_frame4 xid 2 []))
  else if proc =? NFSPROC4_NULL then Some (inl (reply_frame4 xid SUCCESS []))
  else if proc =? NFSPROC4_COMPOUND then
    '(tag, nops, ok, s) ← compound_head (mkNs (k_fs k) r [] (k_ck4 k));
    if negb ok || (4096 <? nops) then Some (inl (reply_frame4 xid SUCCESS (w_u32 (w_str (w_u32 [] NFS4ERR_RESOURCE) tag) 0)))
    else Some (inr (mkTask xid tag (Z.to_nat nops) NFS4_OK 0 Cfh0 (ns_rd s) []))
  else Some (inl (reply_frame4 xid 3 [])).
(** The condition of the loop, and the [break] after an error. *)
Definition over t : bool := (t_left t =? 0)%nat || negb (t_last t =? NFS4_OK) || negb (rd_ok (t_rd t)).
(** The body of the loop: one operation, on the state the process is in. *)
Definition one_op : Proc4 M Z := op ← read r_u32; doOp reg prov hash op.
Definition task_step k t : option (Task * Core) :=
  '(st, v, s) ← one_op (mkS4 (t_fh t) (k_v4 k)) (mkNs (k_fs k) (t_rd t) (t_res t) (k_ck4 k));
  Some (mkTask (t_xid t) (t_tag t) (pred (t_left t)) st (t_done t + 1) (s4_fh v) (ns_rd s) (ns_out s),
        mkCore (ns_fs s) (k_ck3 k) (ns_ck s) (s4_st v) (k_used k) (k_adv k) (k_spent k + 12)).
(** The reply, once the loop is over. *)
Definition task_reply t : bytes :=
  reply_frame4 (t_xid t) SUCCESS
    (w_u32 (w_str (w_u32 [] (if rd_ok (t_rd t) then t_last t else NFS4ERR_INVAL)) (t_tag t)) (t_done t) ++ t_res t).
(** A thread that runs alone. *)
Fixpoint task_run (n : nat) k t : option (Task * Core) :=
  match n with
  | O => Some (t, k)
  | S n' => if over t then Some (t, k) else '(t, k) ← task_step k t; task_run n' k t
  end.

(** ** The process *)

Record Sched := mkSched { sc_core : Core (M:=M); sc_tasks : gmap Z Task; sc_sent : list (Z * bytes) }.
(** A thread takes up a message, does one operation, sends its reply; one of
    NFSv3 serves a message - one section of the store's lock -; another
    service acts on the store. What cannot happen changes nothing. *)
Inductive SchedEv :=
  | TakeUp (th : Z) (msg : bytes) | OneOp (th : Z) | SendReply (th : Z)
  | Serve3 (mark : Z) (msg : bytes) | OtherCall (op : Op).
Definition sched_event (s : Sched) (e : SchedEv) : option Sched :=
  let k := sc_core s in
  match e with
  | TakeUp th msg =>
      match sc_tasks s !! th with
      | Some _ => Some s
      | None =>
          r ← take_up k msg;
          match r with
          | inl f => Some (mkSched k (sc_tasks s) (sc_sent s ++ [(th, f)]))
          | inr t => Some (mkSched k (<[th := t]> (sc_tasks s)) (sc_sent s))
          end
      end
  | OneOp th =>
      match sc_tasks s !! th with
      | Some t => if over t then Some s
                  else '(t, k) ← task_step k t; Some (mkSched k (<[th := t]> (sc_tasks s)) (sc_sent s))
      | None => Some s
      end
  | SendReply th =>
      match sc_tasks s !! th with
      | Some t => if over t then Some (mkSched k (delete th (sc_tasks s)) (sc_sent s ++ [(th, task_reply t)])) else Some s
      | None => Some s
      end
  | Serve3 mark msg => '(_, k) ← handle3 reg prov k mark msg; Some (mkSched k (sc_tasks s) (sc_sent s))
  | OtherCall op =>
      Some (mkSched (mkCore (exec (k_fs k) op).2 (k_ck3 k) (k_ck4 k) (k_v4 k) (k_used k) (k_adv k) (k_spent k + 1))
              (sc_tasks s) (sc_sent s))
  end.
Fixpoint sched_run (s : Sched) (evs : list SchedEv) : option Sched :=
  match evs with [] => Some s | e :: evs' => s ← sched_event s e; sched_run s evs' end.

(** ** Lemmas *)

(** *** A thread alone is the sequential COMPOUND *)

Lemma over_run n k t : over t = true → task_run n k t = Some (t, k).
Proof. destruct n; simpl; [done|]. by intros ->. Qed.
Lemma task_run_S n k t :
  over t = false → task_run (S n) k t = match task_step k t with Some (t, k) => task_run n k t | None => None end.
Proof. intros H. cbn [task_run]. rewrite H. by destruct (task_step k t) as [[? ?]|]. Qed.
Lemma task_step_call k t t' k' : task_step k t = Some (t', k') → t_xid t' = t_xid t ∧ t_tag t' = t_tag t.
Proof. unfold task_step. destruct (one_op _ _) as [[[st v] s]|]; [|done]. by intros [= <- _]. Qed.
Lemma task_run_call n k t t' k' : task_run n k t = Some (t', k') → t_xid t' = t_xid t ∧ t_tag t' = t_tag t.
Proof.
  revert k t. induction n as [|n IH]; intros k t; [by intros [= <- _]|]. destruct (over t) eqn:Ho.
  - rewrite over_run by done. by intros [= <- _].
  - rewrite task_run_S by done. destruct (task_step k t) as [[t1 k1]|] eqn:E; [|done].
    apply task_step_call in E as [<- <-]. apply IH.
Qed.
Lemma loop_step n last done v s :
  compound_loop reg prov hash (S n) last done v s =
    if negb (rd_ok (ns_rd s)) then Some ((last, done, v), s)
    else match one_op v s with
         | Some ((st, v'), s') =>
             if negb (st =? NFS4_OK) then Some ((st, done + 1, v'), s') else compound_loop reg prov hash n st (done + 1) v' s'
         | None => None
         end.
Proof.
  cbn [compound_loop]. unfold one_op, is_ok, rd_is_ok, read, lift, rd, mbind, proc4_bind, mbind, proc_bind, mret, proc_ret.
  destruct (negb (rd_ok (ns_rd s))); [done|]. destruct (r_u32 (ns_rd s)) as [op r].
  destruct (doOp _ _ _ _ _ _) as [[[st v'] s']|]; [|done]. by destruct (negb (st =? NFS4_OK)).
Qed.
Lemma loop_run n k t :
  t_left t = n → t_last t = NFS4_OK →
  compound_loop reg prov hash n NFS4_OK (t_done t) (mkS4 (t_fh t) (k_v4 k)) (mkNs (k_fs k) (t_rd t) (t_res t) (k_ck4 k)) =
    match task_run n k t with
    | Some (t', k') => Some ((t_last t', t_done t', mkS4 (t_fh t') (k_v4 k')), mkNs (k_fs k') (t_rd t') (t_res t') (k_ck4 k'))
    | None => None
    end.
Proof.
  revert k t. induction n as [|n IH]; intros k t Hn Hl; [cbn; by rewrite Hl|].
  rewrite loop_step. cbn [ns_rd]. assert (over t = negb (rd_ok (t_rd t))) as Ho by (unfold over; by rewrite Hn, Hl).
  destruct (negb (rd_ok (t_rd t))) eqn:Hr; [by rewrite over_run, Hl|]. rewrite task_run_S by done.
  unfold task_step. destruct (one_op _ _) as [[[st v] s]|]; [|done]. cbn [mbind option_bind].
  destruct (Z.eqb_spec st NFS4_OK) as [->|Hst]; cbn [negb].
  - rewrite <- IH by (simpl; by rewrite ?Hn). by destruct v, s.
  - rewrite over_run by (unfold over; simpl; by rewrite (proj2 (Z.eqb_neq _ _) Hst), orb_true_r). by destruct v, s.
Qed.
Lemma compound_split v s :
  compound reg prov hash v s =
    match compound_head s with
    | None => None
    | Some ((tag, nops, ok), s1) =>
        if negb ok || (4096 <? nops) then Some ((w_u32 (w_str (w_u32 [] NFS4ERR_RESOURCE) tag) 0, v), s1)
        else match compound_loop reg prov hash (Z.to_nat nops) NFS4_OK 0 (mkS4 Cfh0 (s4_st v)) s1 with
             | Some ((ld, v'), s2) =>
                 Some ((w_u32 (w_str (w_u32 [] (if rd_ok (ns_rd s2) then ld.1 else NFS4ERR_INVAL)) tag) ld.2 ++ ns_out s2, v'), s2)
             | None => None
             end
    end.
Proof.
  unfold compound, compound_head, rd_str, rd, rd_is_ok, get_out, mbind, proc_bind, mret, proc_ret.
  destruct (r_str (ns_rd s)) as [[tag r]|]; [|done]. cbn [ns_rd]. destruct (r_u32 r) as [minor r1]. cbn [ns_rd].
  destruct (r_u32 r1) as [nops r2]. cbn [ns_rd]. destruct (_ || _); [done|].
  by destruct (compound_loop _ _ _ _ _ _ _ _) as [[[ld v'] s2]|].
Qed.
Lemma head_keeps s x s' :
  compound_head s = Some (x, s') → ns_fs s' = ns_fs s ∧ ns_ck s' = ns_ck s ∧ ns_out s' = ns_out s.
Proof.
  unfold compound_head, rd_str, rd, rd_is_ok, mbind, proc_bind, mret, proc_ret.
  destruct (r_str (ns_rd s)) as [[tag r]|]; [|done]. cbn [ns_rd]. destruct (r_u32 r) as [minor r1]. cbn [ns_rd].
  destruct (r_u32 r1) as [nops r2]. by intros [= <- <-].
Qed.

Lemma task_run_more n k t :
  (t_left t <= n)%nat →
  task_run n k t = task_run (t_left t) k t ∧ match task_run n k t with Some (t', _) => over t' = true | None => True end.
Proof.
  revert k t. induction n as [|n IH]; intros k t Hn.
  { replace (t_left t) with 0%nat by lia. split; [done|]. unfold over. simpl. by replace (t_left t) with 0%nat by lia. }
  destruct (over t) eqn:Ho; [by rewrite !over_run|]. rewrite task_run_S by done.
  destruct (t_left t) as [|m] eqn:Hm; [unfold over in Ho; by rewrite Hm in Ho|]. rewrite task_run_S by done.
  destruct (task_step k t) as [[t1 k1]|] eqn:E; [|done]. destruct (IH k1 t1) as [E1 Ho1].
  all: unfold task_step in E; destruct (one_op _ _) as [[[st v] s]|]; [|done]; injection E as <- <-; cbn [t_left] in *; rewrite Hm in *.
  - simpl. lia.
  - by split.
Qed.
Lemma task_run_core n k t t' k' :
  task_run n k t = Some (t', k') → k_ck3 k' = k_ck3 k ∧ k_used k' = k_used k ∧ k_adv k' = k_adv k.
Proof.
  revert k t. induction n as [|n IH]; intros k t; [by intros [= _ <-]|]. destruct (over t) eqn:Ho.
  - rewrite over_run by done. by intros [= _ <-].
  - rewrite task_run_S by done. destruct (task_step k t) as [[t1 k1]|] eqn:E; [|done]. intros (-> & -> & ->)%IH.
    unfold task_step in E. destruct (one_op _ _) as [[[st v] s]|]; [|done]. by injection E as <- <-.
Qed.
Lemma reply_alone k msg :
  reply4 reg prov hash (k_fs k) (k_ck4 k) (k_v4 k) msg =
    match take_up k msg with
    | None => None
    | Some (inl f) => Some (f, k_fs k, k_ck4 k, k_v4 k)
    | Some (inr t) =>
        match task_run (t_left t) k t with
        | Some (t', k') => Some (task_reply t', k_fs k', k_ck4 k', k_v4 k')
        | None => None
        end
    end.
Proof.
  unfold reply4, take_up. destruct (r_u32 (mkReader _ _ _)) as [xid ?]. repeat (destruct (r_u32 _) as [? ?]).
  destruct (_ || _); [done|]. destruct (_ =? 0); [done|]. destruct (_ =? 1); [|done]. rewrite compound_split.
  destruct (compound_head _) as [[[[tag nops] ok] s1]|] eqn:E; [|done]. cbn [mbind option_bind].
  apply head_keeps in E as (E1 & E2 & E3). destruct s1 as [fsh rdh outh ckh]. cbn [ns_fs ns_ck ns_out ns_rd] in *. subst.
  destruct (_ || _); [done|]. cbn [t_left s4_st].
  pose proof (loop_run _ k (mkTask xid tag (Z.to_nat nops) NFS4_OK 0 Cfh0 rdh []) eq_refl eq_refl) as Hl. cbn [t_done t_fh t_rd t_res t_left] in Hl.
  rewrite Hl. destruct (task_run _ _ _) as [[t' k']|] eqn:Hr; [|done].
  apply task_run_call in Hr as [Hx Ht]. unfold task_reply. rewrite Hx, Ht. done.
Qed.
Lemma take_up_left k msg t : take_up k msg = Some (inr t) → (t_left t <= Z.to_nat 4096)%nat.
Proof.
  unfold take_up. repeat (destruct (r_u32 _) as [? ?]). destruct (_ || _); [done|]. destruct (_ =? 0); [done|].
  destruct (_ =? 1); [|done]. destruct (compound_head _) as [[[[tag nops] ok] s1]|]; [|done]. cbn [mbind option_bind].
  destruct (_ || _) eqn:E; [done|]. intros [= <-]. cbn [t_left]. apply orb_false_iff in E as [_ E%Z.ltb_ge]. lia.
Qed.

(** *** The process *)

Lemma sched_app evs evs' s : sched_run s (evs ++ evs') = s ← sched_run s evs; sched_run s evs'.
Proof. revert s. induction evs as [|e evs IH]; intros s; simpl; [done|]. destruct (sched_event s e); simpl; auto. Qed.
Lemma sched_ops n s th t :
  sc_tasks s !! th = Some t →
  sched_run s (replicate n (OneOp th)) =
    match task_run n (sc_core s) t with
    | Some (t', k') => Some (mkSched k' (<[th := t']> (sc_tasks s)) (sc_sent s))
    | None => None
    end.
Proof.
  revert s t. induction n as [|n IH]; intros s t Ht; [cbn; rewrite insert_id by done; by destruct s|].
  cbn [replicate sched_run sched_event]. rewrite Ht. destruct (over t) eqn:Ho.
  - cbn [mbind option_bind]. rewrite (IH _ t) by done. by rewrite !over_run.
  - rewrite task_run_S by done. destruct (task_step (sc_core s) t) as [[t1 k1]|]; [|done]. cbn [mbind option_bind].
    rewrite (IH _ t1) by (simpl; apply lookup_insert_eq). cbn [sc_core sc_tasks sc_sent].
    destruct (task_run n k1 t1) as [[t' k']|]; [|done]. by rewrite insert_insert_eq.
Qed.
(** A message served without another thread in between. *)
Definition alone (th : Z) (msg : bytes) : list SchedEv :=
  TakeUp th msg :: replicate (Z.to_nat 4096) (OneOp th) ++ [SendReply th].


(** *** Any interleaving *)

Definition task_ok t : Prop := fh_ok (mkS4 (t_fh t) V40).
Definition tasks_ok (s : Sched) : Prop := map_Forall (λ _, task_ok) (sc_tasks s).
Definition sched_args (e : SchedEv) : Prop := match e with OtherCall op => op_args op | _ => True end.

Lemma take_up_ok k msg t : take_up k msg = Some (inr t) → task_ok t.
Proof.
  unfold take_up. repeat (destruct (r_u32 _) as [? ?]). destruct (_ || _); [done|]. destruct (_ =? 0); [done|].
  destruct (_ =? 1); [|done]. destruct (compound_head _) as [[[[tag nops] ok] s1]|]; [|done]. cbn [mbind option_bind].
  destruct (_ || _); [done|]. by intros [= <-].
Qed.
Lemma hoare4_one_op : hoare4 (M:=M) 12 one_op anything.
Proof. unfold one_op. eapply hoare4_bind; [apply hoare4_read_any|lia|intros op _]. apply hoare4_doOp. Qed.
Lemma evolves_one_op w : evolves (M:=M) hash w 1 one_op.
Proof. unfold one_op. eapply (evolves_bind _ _ _ _ _ any); [apply stays_lift|intros op _]. apply evolves_doOp. Qed.
(** One operation of a thread: it spends twelve operations of the store at
    most, and moves the client state by one event at most. *)
Lemma task_step_ok k t t' k' :
  reachable_from fresh_store (k_fs k) → room 12 (k_fs k) → task_ok t → task_step k t = Some (t', k') →
  steps 12 (k_fs k) (k_fs k') ∧ task_ok t' ∧ moves hash 1 (k_v4 k) (k_v4 k') ∧ k_spent k' = k_spent k + 12.
Proof.
  intros R%inv_reachable Hr Ht. unfold task_step. destruct (one_op _ _) as [[[st v] s]|] eqn:E; [|done]. intros [= <- <-]. simpl.
  pose proof (evolves_one_op (k_v4 k) (mkS4 (t_fh t) (k_v4 k)) _ _ _ _ eq_refl E) as Hm.
  destruct (hoare4_one_op (mkS4 (t_fh t) (k_v4 k)) Ht (mkNs (k_fs k) (t_rd t) (t_res t) (k_ck4 k)) _ _ R Hr E) as [[_ Hv] Hs]. by split_and!.
Qed.
(** A run that spends what it does to the store, and moves the client state
    by [j] events at most. *)
Definition spent (s s' : Sched) : Z := k_spent (sc_core s') - k_spent (sc_core s).
Definition advances (j : Z) (s s' : Sched) : Prop :=
  0 <= spent s s' ∧
  (reachable_from fresh_store (k_fs (sc_core s)) → tasks_ok s → room (spent s s') (k_fs (sc_core s)) →
   steps (spent s s') (k_fs (sc_core s)) (k_fs (sc_core s')) ∧ tasks_ok s' ∧ moves hash j (k_v4 (sc_core s)) (k_v4 (sc_core s'))).
Lemma advances_same j s s' : 0 <= j → sc_core s' = sc_core s → (tasks_ok s → tasks_ok s') → advances j s s'.
Proof.
  intros Hj E Ht. unfold advances, spent. rewrite E, Z.sub_diag. split; [done|]. intros _ H _.
  split; [by apply steps_refl|]. split; [auto|by apply moves_refl].
Qed.
Lemma advances_trans i j s1 s2 s3 : 0 <= i → 0 <= j → advances i s1 s2 → advances j s2 s3 → advances (i + j) s1 s3.
Proof.
  intros Hi Hj [H1 A1] [H2 A2]. assert (spent s1 s3 = spent s1 s2 + spent s2 s3) as E by (unfold spent; lia).
  split; [lia|]. rewrite E. intros R Ht Hr.
  destruct A1 as (S1 & T1 & M1); [done|done|eapply room_le; [|exact Hr]; lia|].
  assert (reachable_from fresh_store (k_fs (sc_core s2))) as R2 by by eapply reachable_run_steps.
  destruct A2 as (S2 & T2 & M2); [done|done| |split_and!; [by eapply steps_trans|done|by eapply moves_trans]].
  by apply (steps_inv (spent s1 s2) _ (k_fs (sc_core s1))); [lia|apply inv_reachable| |].
Qed.
Lemma sched_event_advances s e s' : sched_args e → sched_event s e = Some s' → advances 1 s s'.
Proof.
  intros Ha. destruct e as [th msg|th|th|mark msg|op]; cbn [sched_event].
  - destruct (sc_tasks s !! th); [intros [= <-]; by apply advances_same|].
    destruct (take_up (sc_core s) msg) as [[f|t]|] eqn:E; [| |done]; intros [= <-]; apply advances_same; try done.
    intros Ht. apply map_Forall_insert_2; [by eapply take_up_ok|done].
  - destruct (sc_tasks s !! th) as [t|] eqn:Et; [|intros [= <-]; by apply advances_same].
    destruct (over t); [intros [= <-]; by apply advances_same|].
    destruct (task_step (sc_core s) t) as [[t' k']|] eqn:E; [|done]. intros [= <-].
    assert (k_spent k' = k_spent (sc_core s) + 12) as Hk
      by (unfold task_step in E; destruct (one_op _ _) as [[[st v] ns]|]; [by injection E as _ <-|done]).
    unfold advances, spent. cbn [sc_core]. replace (k_spent k' - k_spent (sc_core s)) with 12 by lia. split; [done|].
    intros R Ht Hr. destruct (task_step_ok _ _ _ _ R Hr (Ht _ _ Et) E) as (HS & Ht' & Hm & _).
    split; [done|]. split; [|done]. by apply map_Forall_insert_2.
  - destruct (sc_tasks s !! th) as [t|] eqn:Et; [|intros [= <-]; by apply advances_same].
    destruct (over t); intros [= <-]; apply advances_same; try done. apply map_Forall_delete.
  - destruct (handle3 reg prov (sc_core s) mark msg) as [[o k']|] eqn:E; [|done]. intros [= <-].
    assert (k_v4 k' = k_v4 (sc_core s)) as Hv
      by (unfold handle3 in E; destruct (session_step _ _ _ _ _ _ _ _) as [[[? ?] ?]|]; [by injection E as _ <-|done]).
    apply handle3_spends in E as [Hle Hs]. unfold advances, spent. cbn [sc_core]. split; [lia|]. intros R Ht Hr.
    split; [by apply Hs|]. split; [done|]. rewrite Hv. by apply moves_refl.
  - intros [= <-]. unfold advances, spent. cbn [sc_core k_spent k_fs k_v4].
    replace (k_spent (sc_core s) + 1 - k_spent (sc_core s)) with 1 by lia. split; [done|]. intros R%inv_reachable Ht Hr.
    split; [apply steps_one; [done|by apply op_args_ok]|]. split; [done|by apply moves_refl].
Qed.
Lemma sched_run_advances s evs s' :
  Forall sched_args evs → sched_run s evs = Some s' → advances (Z.of_nat (length evs)) s s'.
Proof.
  intros Ha. revert s. induction Ha as [|e evs He _ IH]; intros s; cbn [sched_run]; [intros [= <-]; by apply advances_same|].
  destruct (sched_event s e) as [s1|] eqn:E; [|done]. cbn [mbind option_bind]. intros Hrun%IH.
  replace (Z.of_nat (length (e :: evs))) with (1 + Z.of_nat (length evs)) by (simpl; lia).
  eapply advances_trans; [lia|lia|by eapply sched_event_advances|done].
Qed.
Lemma run_events_locks w evs : locks_ok (m_locks w) → locks_ok (m_locks (run_events hash w evs)).
Proof.
  unfold run_events. revert w. induction evs as [|ev evs IH]; intros w; simpl; [done|]. intros H. by apply IH, locks_ok_event.
Qed.
Lemma run_events_lease w evs : lease_inv w → guarded hash w evs = true → lease_inv (run_events hash w evs).
Proof.
  unfold run_events. revert w. induction evs as [|ev evs IH]; intros w; simpl; [done|].
  intros H [H1 H2]%andb_true_iff. apply IH; [by apply lease_event|done].
Qed.

End Threads.

(** ** Witnesses *)

(** Two clients make the same directory: their operations alternate, the first
    to come creates it, the other is told that it exists. *)
Definition demo_sched : Sched (M:=gmap bytes bytes) := mkSched demo_core ∅ [].
Definition demo_threads : list SchedEv :=
  [TakeUp 1 demo_create4; TakeUp 2 demo_create4; OneOp 2; OneOp 1; OneOp 1; Serve3 0x80000060 demo_mkdir; OneOp 2; SendReply 2; SendReply 1].
Definition demo_run_threads : option (Sched (M:=gmap bytes bytes)) := sched_run Registry0 [] no_hash demo_sched demo_threads.

