(* ===== verification/LuaApi.v ===== *)
(** * LuaApi: the Lua bindings (src/lua/bindings.cpp)

    The values that cross between the interpreter and the store, the tables the
    bindings build, and the methods registered for the store and its nodes.
    The interpreter and the library sol2 are not in the repository: a script is
    what is seen of it, a finite tree of calls and printed lines ([Script]).
    Numbers cross exactly and are cut to the width of the C++ parameter. *)
From S2P Require Import Prelude Keys Kv NodeRec Spec Store Views Shape Graph Inv Init Reads Content ContentProps FsStat Di StoreProps MemStore Host Loader NfsSteps Calls.
Local Open Scope Z_scope.
Set Warnings "-clear-no-such-hyp,-register-all".

(** ** Values *)

Inductive LVal :=
  | LNil | LBool (b : bool) | LNum (z : Z) | LStr (s : bytes) | LNode (h : Handle)
  | LTable (fields : list (LVal * LVal)).
(** [create_table_with]; the field of that name. *)
Definition table_with (fields : list (bytes * LVal)) : LVal := LTable ((λ f, (LStr f.1, f.2)) <$> fields).
Fixpoint find_field (k : bytes) (fields : list (LVal * LVal)) : LVal :=
  match fields with
  | (LStr k', v) :: fields' => if decide (k' = k) then v else find_field k fields'
  | _ :: fields' => find_field k fields'
  | [] => LNil
  end.
Definition field (t : LVal) (k : bytes) : LVal := match t with LTable fields => find_field k fields | _ => LNil end.
(** [int i = 1; for (...) out[i++] = ...]. *)
Fixpoint fill (i : Z) (vs : list LVal) : list (LVal * LVal) :=
  match vs with [] => [] | v :: vs' => (LNum i, v) :: fill (i + 1) vs' end.
Definition seq_table (vs : list LVal) : LVal := LTable (fill 1 vs).

(** What a script sees: [t[i]] and [ipairs], which walks 1, 2, ... up to the
    first nil; the fuel is the number of fields and one more. *)
Fixpoint index (i : Z) (fields : list (LVal * LVal)) : LVal :=
  match fields with
  | (LNum j, v) :: fields' => if i =? j then v else index i fields'
  | _ :: fields' => index i fields'
  | [] => LNil
  end.
Fixpoint ipairs_loop (fuel : nat) (i : Z) (fields : list (LVal * LVal)) : list LVal :=
  match fuel with
  | O => []
  | S fuel' => match index i fields with LNil => [] | v => v :: ipairs_loop fuel' (i + 1) fields end
  end.
Definition ipairs (t : LVal) : list LVal :=
  match t with LTable fields => ipairs_loop (S (length fields)) 1 fields | _ => [] end.

(** ** Enumerations *)

Definition ecode (e : Error) : Z :=
  match e with OK => 0 | NOENT => 1 | EXIST => 2 | NOTDIR => 3 | ISDIR => 4 | INVAL => 5 | NOTEMPTY => 6 | PERM => 7 end.
Definition nodeChange_code (c : NodeChange) : Z :=
  match c with CREATED => 0 | NREMOVED => 1 | MODIFIED_CONTENT => 2 | MODIFIED_ATTRS => 3 end.
Definition pathChange_code (c : PathChange) : Z := match c with ADDED => 0 | PREMOVED => 1 end.
Definition all_types : list (bytes * FType) :=
  [(str "REG", REG); (str "DIR", DIR); (str "LNK", LNK); (str "BLK", BLK); (str "CHR", CHR); (str "FIFO", FIFO); (str "SOCK", SOCK)].
Definition lua_Type : LVal := table_with ((λ t, (t.1, LNum (tcode t.2))) <$> all_types).
Definition lua_Error : LVal :=
  table_with ((λ e, (e.1, LNum (ecode e.2))) <$>
    [(str "OK", OK); (str "NOENT", NOENT); (str "EXIST", EXIST); (str "NOTDIR", NOTDIR); (str "ISDIR", ISDIR);
     (str "INVAL", INVAL); (str "NOTEMPTY", NOTEMPTY); (str "PERM", PERM)]).
Definition lua_NodeChange : LVal :=
  table_with ((λ c, (c.1, LNum (nodeChange_code c.2))) <$>
    [(str "CREATED", CREATED); (str "REMOVED", NREMOVED); (str "MODIFIED_CONTENT", MODIFIED_CONTENT); (str "MODIFIED_ATTRS", MODIFIED_ATTRS)]).
Definition lua_PathChange : LVal :=
  table_with [(str "ADDED", LNum (pathChange_code ADDED)); (str "REMOVED", LNum (pathChange_code PREMOVED))].
(** A number as an enumerator; the C++ conversion is unchecked, so another
    value has no meaning in the store. *)
Definition arg_type (v : LVal) : option FType :=
  match v with LNum z => snd <$> List.find (λ t, tcode t.2 =? z) all_types | _ => None end.

(** ** Tables from results *)

Section Tables.
Context {M : Type} `{!KvEngine M}.
Implicit Types (st : Store M) (h : Handle).

Definition entry_table (e : bytes * Handle) : LVal := table_with [(str "name", LStr e.1); (str "node", LNode e.2)].
Definition readdirLua st (dir : Handle) : LVal := seq_table (entry_table <$> readdir st dir).
Definition readdirPageLua st (dir : Handle) (after : bytes) (max : nat) : LVal :=
  let p := readdirPage st dir after max in
  table_with [(str "entries", seq_table (entry_table <$> pg_entries p)); (str "cookie", LStr (pg_cookie p)); (str "eof", LBool (pg_eof p))].
Definition parentsLua st h : LVal := seq_table (LNode <$> parents st h).
Definition snapshotsLua st : LVal := seq_table (LNum <$> snapshots st).
Definition nodeDiff_table (d : NodeDiff) : LVal :=
  table_with [(str "id", LNum (nd_id d)); (str "change", LNum (nodeChange_code (nd_change d)))].
Definition diffNodesLua st (a b : Z) : LVal := seq_table (nodeDiff_table <$> diffNodes st a b).
Definition pathDiff_table (p : PathDiff) : LVal :=
  table_with [(str "change", LNum (pathChange_code (pd_change p))); (str "parent", LNum (pd_parent p));
              (str "name", LStr (pd_name p)); (str "child", LNum (pd_child p))].
Definition diffPathsLua st (a b : Z) : LVal := seq_table (pathDiff_table <$> diffPaths st a b).
Definition snapInfoLua st (g : Z) : LVal :=
  let i := snapInfo st g in
  table_with [(str "id", LNum (si_id i)); (str "ctime", LNum (si_ctime i)); (str "label", LStr (si_label i))].
(** [nodes[t]] for t = 0..6: the index is the type, so the first is 0. *)
Definition statsLua st : LVal :=
  let s := stats st LATEST in
  table_with [(str "nodes", LTable (fill 0 (LNum <$> st_nodes s))); (str "links", LNum (st_links s)); (str "totalSize", LNum (st_totalSize s))].
Definition fsStatLua st : LVal :=
  let r := fsStat_store st FsConfig0 LATEST in
  table_with [(str "tbytes", LNum (fs_tbytes r)); (str "fbytes", LNum (fs_fbytes r)); (str "abytes", LNum (fs_abytes r));
              (str "tfiles", LNum (fs_tfiles r)); (str "ffiles", LNum (fs_ffiles r)); (str "afiles", LNum (fs_afiles r));
              (str "invarsec", LNum (fs_invarsec r))].
End Tables.
Definition fsInfoLua : LVal :=
  let i := fsInfo FsConfig0 in
  table_with [(str "rtmax", LNum (fi_rtmax i)); (str "rtpref", LNum (fi_rtpref i)); (str "rtmult", LNum (fi_rtmult i));
              (str "wtmax", LNum (fi_wtmax i)); (str "wtpref", LNum (fi_wtpref i)); (str "wtmult", LNum (fi_wtmult i));
              (str "dtpref", LNum (fi_dtpref i)); (str "maxfilesize", LNum (fi_maxfilesize i));
              (str "timeDeltaSec", LNum (fi_timeDeltaSec i)); (str "timeDeltaNsec", LNum (fi_timeDeltaNsec i));
              (str "properties", LNum (fi_properties i))].

(** ** Content and generators *)

(** [get_or]: the field if it is a number, the default otherwise. *)
Definition get_or (t : LVal) (k : bytes) (d : Z) : Z := match field t k with LNum z => z | _ => d end.
Definition lua_config (t : LVal) : ContentConfig :=
  let c := default_config in
  mkConfig (u32 (get_or t (str "blockSize") (blockSize c))) (u8 (get_or t (str "entropy") (entropy c)))
    (u8 (get_or t (str "sparsePercent") (sparsePercent c))) (u8 (get_or t (str "dedupPercent") (dedupPercent c)))
    (u32 (get_or t (str "dedupCorpus") (dedupCorpus c))).
Definition contentConfigLua (t : LVal) : bytes := config_serialize (lua_config t).
(** [None]: the blob does not parse, or the read writes outside [out]. *)
Definition contentReadLua (gen : IRng) (cfg : bytes) (seed size offset len : Z) : option bytes :=
  c ← config_deserialize cfg;
  '(n, out) ← content_read gen c seed size offset (replicate (Z.to_nat len) (zb 0)) len;
  Some (take (Z.to_nat n) out).
Definition contentAllocLua (cfg : bytes) (seed size : Z) : option Z :=
  c ← config_deserialize cfg; Some (allocatedBlocks c seed size).
Definition rngNamesLua {A} (r : Registry A) : LVal := seq_table (LStr <$> rng_names r).

(** ** Opening stores *)

Definition get_or_bool (t : LVal) (k : bytes) (d : bool) : bool := match field t k with LBool b => b | _ => d end.
(** [prfs.open(path, {clean=...})], with the table or without, and [prfs.mem()]. *)
Definition luaOpen {M} `{!KvEngine M} (r : Registry (Engine M)) (default_engine s_engine path : bytes) (opts : option LVal) : option (Store M) :=
  openPrfs r default_engine s_engine path (match opts with Some t => get_or_bool t (str "clean") false | None => false end).
Definition luaMem : MemStore := MemStore0.

(** ** The scenario runner (src/lua/harness.cpp) *)

(** [arg[1]], [arg[2]], ...: what follows the script's name. *)
Definition harness_args (argv : list bytes) : LVal := seq_table (LStr <$> drop 2 argv).
(** The exit status; [run_file] is what the interpreter makes of the script,
    [None] an exception. *)
Definition harness_main (run_file : bytes → LVal → option bool) (argv : list bytes) : Z :=
  match argv with
  | _ :: script :: _ => match run_file script (harness_args argv) with Some true => 0 | _ => 1 end
  | _ => 2
  end.

(** ** The registered methods *)

Inductive Method :=
  | m_root | m_snapshotRoot | m_snapshots | m_snapInfo | m_mkdir | m_mkfile | m_symlink | m_mknod | m_mkfifo | m_mksock
  | m_lookup | m_link | m_unlink | m_move | m_setContent | m_setContentSeed | m_setTarget | m_setRdev | m_readdir
  | m_readdirPage | m_parents | m_now | m_setTime | m_snapshot | m_diffNodes | m_diffPaths | m_stats | m_fsStat
  | m_contentConfig | m_setContentConfig.
Inductive NodeMethod :=
  | nm_id | nm_type | nm_nlink | nm_get (a : Attr) | nm_set (a : Attr) | nm_target | nm_content | nm_rdev.
(** The names of [new_usertype<IPrfs>] and [new_usertype<INode>]. *)
Definition prfs_methods : list (bytes * Method) :=
  [(str "root", m_root); (str "snapshotRoot", m_snapshotRoot); (str "snapshots", m_snapshots); (str "snapInfo", m_snapInfo);
   (str "mkdir", m_mkdir); (str "mkfile", m_mkfile); (str "symlink", m_symlink); (str "mknod", m_mknod); (str "mkfifo", m_mkfifo);
   (str "mksock", m_mksock); (str "lookup", m_lookup); (str "link", m_link); (str "unlink", m_unlink); (str "move", m_move);
   (str "setContent", m_setContent); (str "setContentSeed", m_setContentSeed); (str "setTarget", m_setTarget);
   (str "setRdev", m_setRdev); (str "readdir", m_readdir); (str "readdirPage", m_readdirPage); (str "parents", m_parents);
   (str "now", m_now); (str "setTime", m_setTime); (str "snapshot", m_snapshot); (str "diffNodes", m_diffNodes);
   (str "diffPaths", m_diffPaths); (str "stats", m_stats); (str "fsStat", m_fsStat); (str "contentConfig", m_contentConfig);
   (str "setContentConfig", m_setContentConfig)].
Definition node_methods : list (bytes * NodeMethod) :=
  [(str "id", nm_id); (str "type", nm_type); (str "nlink", nm_nlink); (str "mode", nm_get AMode); (str "setMode", nm_set AMode);
   (str "uid", nm_get AUid); (str "setUid", nm_set AUid); (str "gid", nm_get AGid); (str "setGid", nm_set AGid);
   (str "size", nm_get ASize); (str "setSize", nm_set ASize); (str "atime", nm_get AAtime); (str "setAtime", nm_set AAtime);
   (str "mtime", nm_get AMtime); (str "setMtime", nm_set AMtime); (str "ctime", nm_get ACtime); (str "setCtime", nm_set ACtime);
   (str "target", nm_target); (str "content", nm_content); (str "rdev", nm_rdev)].
Definition method_named {A} (table : list (bytes * A)) (name : bytes) : option A :=
  snd <$> List.find (λ m, bool_decide (m.1 = name)) table.

Section Calls.
Context {M : Type} `{!KvEngine M}.
Implicit Types (st : Store M) (h : Handle).

Definition Results : Type := list LVal * Store M.
Definition ret st (v : LVal) : option Results := Some ([v], st).
Definition ret_node (r : Handle * Store M) : option Results := Some ([LNode r.1], r.2).
Definition ret_error (r : Error * Store M) : option Results := Some ([LNum (ecode r.1)], r.2).
(** A method on arguments of the types the C++ function has; [None] for others,
    of which nothing is said. *)
Definition prfs_call st (m : Method) (args : list LVal) : option Results :=
  match m, args with
  | m_root, [] => ret st (LNode (rwRoot st))
  | m_snapshotRoot, [LNum n] => ret st (LNode (snapshotRoot st (u64 n)))
  | m_snapshots, [] => ret st (snapshotsLua st)
  | m_snapInfo, [LNum g] => ret st (snapInfoLua st (u64 g))
  | m_mkdir, [] => ret_node (mkdir st)
  | m_mkfile, [LStr c] => ret_node (mkfile st c)
  | m_symlink, [LStr t] => ret_node (symlink st t)
  | m_mknod, [ty; LNum maj; LNum min] => ty ← arg_type ty; ret_node (mknod st ty (u32 maj) (u32 min))
  | m_mkfifo, [] => ret_node (mkfifo st)
  | m_mksock, [] => ret_node (mksock st)
  | m_lookup, [LNode d; LStr n] => ret st (match lookup_ st d n with Some h => LNode h | None => LNil end)
  | m_link, [LNode d; LStr n; LNode c] => ret_error (link st d n c)
  | m_unlink, [LNode d; LStr n] => ret_error (unlink st d n)
  | m_move, [LNode sd; LStr sn; LNode dd; LStr dn] => ret_error (move st sd sn dd dn)
  | m_setContent, [LNode h; LStr c] => ret_error (setContent st h c)
  | m_setContentSeed, [LNode h; LNum s] => ret_error (setContentSeed st h (u64 s))
  | m_setTarget, [LNode h; LStr t] => ret_error (setTarget st h t)
  | m_setRdev, [LNode h; LNum maj; LNum min] => ret_error (setRdev st h (u32 maj) (u32 min))
  | m_readdir, [LNode d] => ret st (readdirLua st d)
  | m_readdirPage, [LNode d; LStr after; LNum max] => ret st (readdirPageLua st d after (Z.to_nat (u64 max)))
  | m_parents, [LNode h] => ret st (parentsLua st h)
  | m_now, [] => ret st (LNum (now st))
  | m_setTime, [LNum t] => Some ([], setTime st (u64 t))
  | m_snapshot, [] | m_snapshot, [LNil] => let '(g, st') := snapshot st [] in ret st' (LNum g)
  | m_snapshot, [LStr label] => let '(g, st') := snapshot st label in ret st' (LNum g)
  | m_diffNodes, [LNum a; LNum b] => ret st (diffNodesLua st (u64 a) (u64 b))
  | m_diffPaths, [LNum a; LNum b] => ret st (diffPathsLua st (u64 a) (u64 b))
  | m_stats, [] => ret st (statsLua st)
  | m_fsStat, [] => ret st (fsStatLua st)
  | m_contentConfig, [] => ret st (LStr (contentConfig st))
  | m_setContentConfig, [LStr blob] => Some ([], setContentConfig st blob)
  | _, _ => None
  end.
Definition attr_get (a : Attr) st h : Z :=
  match a with
  | AMode => n_mode st h | AUid => n_uid st h | AGid => n_gid st h | ASize => n_size st h | AAtime => n_atime st h
  | AMtime => n_mtime st h | ACtime => n_ctime st h | AAtimeNs => n_atimeNsec st h | AMtimeNs => n_mtimeNsec st h
  end.
(** The parameter of a setter: 32 bits for mode, uid and gid, else 64. *)
Definition attr_arg (a : Attr) (z : Z) : Z := match a with AMode | AUid | AGid | AAtimeNs | AMtimeNs => u32 z | _ => u64 z end.
Definition node_call st h (m : NodeMethod) (args : list LVal) : option Results :=
  match m, args with
  | nm_id, [] => ret st (LNum (h_id h))
  | nm_type, [] => ret st (LNum (n_type st h))
  | nm_nlink, [] => ret st (LNum (n_nlink st h))
  | nm_get a, [] => ret st (LNum (attr_get a st h))
  | nm_set a, [LNum z] => Some ([], attr_put a st h (attr_arg a z))
  | nm_target, [] => ret st (LStr (n_target st h))
  | nm_content, [] => ret st (LStr (n_content st h))
  | nm_rdev, [] => let '(maj, min) := n_rdev st h in Some ([LNum maj; LNum min], st)
  | _, _ => None
  end.
(** [fs:name(args)] and [node:name(args)]. *)
Inductive Call := FsCall (name : bytes) (args : list LVal) | NodeCall (h : Handle) (name : bytes) (args : list LVal).
Definition lua_call st (c : Call) : option Results :=
  match c with
  | FsCall name args => m ← method_named prfs_methods name; prfs_call st m args
  | NodeCall h name args => m ← method_named node_methods name; node_call st h m args
  end.

(** ** Scripts *)

(** What the interpreter does while it runs a chunk: calls, whose results
    decide what follows - [None], a call it rejects, is an error it can
    catch -, lines it prints, and at the end the state of its variables and
    the values returned or the error raised. *)
Inductive ChunkEnd := Values (vs : list LVal) | Raised (msg : bytes).
Inductive Script (L : Type) :=
  | Done (lua : L) (o : ChunkEnd)
  | PrintThen (vs : list LVal) (k : Script L)
  | CallThen (c : Call) (k : option (list LVal) → Script L).
(** The outcome, the printed lines and the calls made. *)
Fixpoint run_script {L} (s : Script L) st : (L * ChunkEnd) * list (list LVal) * list Call * Store M :=
  match s with
  | Done _ lua o => ((lua, o), [], [], st)
  | PrintThen _ vs k => let '(r, out, calls, st) := run_script k st in (r, vs :: out, calls, st)
  | CallThen _ c k =>
      match lua_call st c with
      | Some (vs, st) => let '(r, out, calls, st) := run_script (k (Some vs)) st in (r, out, c :: calls, st)
      | None => let '(r, out, calls, st) := run_script (k None) st in (r, out, c :: calls, st)
      end
  end.
End Calls.
Arguments Done {L} _ _.
Arguments PrintThen {L} _ _.
Arguments CallThen {L} _ _.

(** ** Lemmas *)

Lemma index_fill i j vs : i < j → index i (fill j vs) = LNil.
Proof.
  revert j. induction vs as [|v vs IH]; intros j Hj; simpl; [done|]. rewrite (proj2 (Z.eqb_neq _ _)) by lia. apply IH. lia.
Qed.
Lemma index_fill_app i pre vs :
  index (i + Z.of_nat (length pre)) (fill i (pre ++ vs)) = index (i + Z.of_nat (length pre)) (fill (i + Z.of_nat (length pre)) vs).
Proof.
  revert i. induction pre as [|v pre IH]; intros i; simpl; [by rewrite Z.add_0_r|].
  rewrite (proj2 (Z.eqb_neq _ _)) by lia. replace (i + Z.of_nat (S (length pre))) with (i + 1 + Z.of_nat (length pre)) by lia.
  apply IH.
Qed.
Lemma length_fill i vs : length (fill i vs) = length vs.
Proof. revert i. induction vs as [|v vs IH]; intros i; simpl; [done|]. by rewrite IH. Qed.

(** A script that walks a table built by the bindings sees the listed values. *)
Lemma ipairs_seq vs : LNil ∉ vs → ipairs (seq_table vs) = vs.
Proof.
  intros Hn. unfold ipairs, seq_table. rewrite length_fill.
  assert (∀ pre fuel post, vs = pre ++ post → (length post < fuel)%nat →
    ipairs_loop fuel (1 + Z.of_nat (length pre)) (fill 1 vs) = post) as H; [|apply (H [] (S (length vs)) vs); [done|lia]].
  intros pre fuel. revert pre. induction fuel as [|fuel IH]; intros pre post -> Hf; [lia|]. simpl.
  rewrite index_fill_app. destruct post as [|v post]; simpl; [done|]. rewrite Z.eqb_refl.
  assert (v ≠ LNil) by (intros ->; apply Hn, elem_of_app; right; left).
  specialize (IH (pre ++ [v]) post). rewrite <- app_assoc, length_app in IH. simpl in *.
  replace (1 + Z.of_nat (length pre) + 1) with (1 + Z.of_nat (length pre + 1)) by lia.
  rewrite IH by (done || lia). by destruct v.
Qed.
Lemma no_nil {A} (f : A → LVal) (xs : list A) : (∀ x, f x ≠ LNil) → LNil ∉ f <$> xs.
Proof. intros Hf (x & E & _)%list_elem_of_fmap. by destruct (Hf x). Qed.

Section Laws.
Context {M : Type} `{!KvEngine M}.
Implicit Types (st : Store M) (h : Handle).

(** What a script sees of a listing, by walking the table from 1 to the
    first nil, is exactly what the store returns, in order and with nothing
    missing: entries, pages, parents, snapshots and both comparisons. *)
Theorem lua_lists st d h after max a b :
  ipairs (readdirLua st d) = entry_table <$> readdir st d ∧
  (let p := readdirPage st d after max in let t := readdirPageLua st d after max in
   ipairs (field t (str "entries")) = entry_table <$> pg_entries p ∧
   field t (str "cookie") = LStr (pg_cookie p) ∧ field t (str "eof") = LBool (pg_eof p)) ∧
  ipairs (parentsLua st h) = LNode <$> parents st h ∧
  ipairs (snapshotsLua st) = LNum <$> snapshots st ∧
  ipairs (diffNodesLua st a b) = nodeDiff_table <$> diffNodes st a b ∧
  ipairs (diffPathsLua st a b) = pathDiff_table <$> diffPaths st a b.
Proof. cbv zeta. split_and!; try reflexivity; apply ipairs_seq, no_nil; done. Qed.

(** The console and the front-ends agree on file contents: with a policy
    set from a Lua table, [content.read] returns exactly the bytes that a READ
    of the same range through the host puts in the caller's buffer. *)
Theorem lua_content_read gen reg st h t off out len :
  find reg content_ID (str "config") = Some (DefaultProvider gen) →
  contentConfig st = contentConfigLua t → blockSize (lua_config t) <= 2 ^ 32 - 16 →
  0 <= off → 0 <= len <= Z.of_nat (length out) → off + len < 2 ^ 64 →
  0 <= n_size st h → n_size st h + eff_bs (lua_config t) <= 2 ^ 64 →
  ∃ n out', host_read reg [] st h off out len = Some (n, out') ∧
    contentReadLua gen (contentConfig st) (n_contentSeed st h) (n_size st h) off len = Some (take (Z.to_nat n) out').
Proof.
  intros Hreg Hcfg Hbs Hoff Hlen Hol Hsize Hmax.
  assert (config_ok (lua_config t)) as Hc by (unfold lua_config; split_and!; apply Z.mod_pos_bound; lia).
  assert (0 <= blockSize (lua_config t)) by (destruct Hc as [? _]; word_lia).
  set (n := Z.max 0 (Z.min len (n_size st h - off))).
  assert (∀ b : bytes, len <= Z.of_nat (length b) → content_read gen (lua_config t) (n_contentSeed st h) (n_size st h) off b len =
    Some (n, file_bytes gen (lua_config t) (n_contentSeed st h) off n ++ drop (Z.to_nat n) b)) as Hread
    by (intros b Hb; apply content_read_spec; done || lia).
  unfold contentReadLua. rewrite Hcfg. unfold contentConfigLua. rewrite config_deserialize_serialize by done.
  cbn [mbind option_bind]. rewrite Hread by (rewrite length_replicate; lia). cbn [mbind option_bind].
  unfold host_read. cbn [provider]. rewrite Hreg.
  destruct ((n_size st h <=? off) || (len =? 0)) eqn:E.
  - exists 0, out. split; [done|]. apply orb_true_iff in E as [E%Z.leb_le|E%Z.eqb_eq]; replace n with 0 by (unfold n; lia); done.
  - exists n, (file_bytes gen (lua_config t) (n_contentSeed st h) off n ++ drop (Z.to_nat n) out). split.
    + cbn [cp_read DefaultProvider]. rewrite Hcfg. unfold contentConfigLua. rewrite config_deserialize_serialize by done. apply Hread. lia.
    + pose proof (length_file_bytes gen (lua_config t) (n_contentSeed st h) off n ltac:(lia)). by rewrite !take_app_le by lia.
Qed.

(** What a call does: nothing, or one operation of the store. *)
Definition call_ok (c : Call) : Prop :=
  let ok (v : LVal) := match v with LNode h => in64 (h_id h) | _ => True end in
  match c with FsCall _ args => Forall ok args | NodeCall h _ args => in64 (h_id h) ∧ Forall ok args end.
Definition op_ready (op : Op) : Prop :=
  op_args op ∨ (∃ b, op = OpSetConfig b) ∨ ∃ l, op = OpSnapshot l.

Lemma attr_arg_ok a z : attr_ok a (attr_arg a z).
Proof. destruct a; simpl; auto with prfs. Qed.
Lemma prfs_call_op st m args vs st' :
  Forall (λ v, match v with LNode h => in64 (h_id h) | _ => True end) args →
  prfs_call st m args = Some (vs, st') → st' = st ∨ ∃ op, op_ready op ∧ st' = (exec st op).2.
Proof.
  intros Hok Hc. unfold prfs_call, ret, ret_node, ret_error in Hc. destruct m; repeat (case_match; try done); simplify_eq; try (by left);
    repeat match goal with H : Forall _ (_ :: _) |- _ => apply Forall_cons in H as [? H] end.
  all: try (destruct (arg_type _) as [ty|]; [cbn [mbind option_bind] in Hc|done]); simplify_eq; right.
  - exists OpMkdir. split; [|cbn [exec]; reflexivity]. by left.
  - eexists (OpMkfile _). split; [|cbn [exec]; reflexivity]. by left.
  - eexists (OpSymlink _). split; [|cbn [exec]; reflexivity]. by left.
  - eexists (OpMknod ty _ _). split; [|cbn [exec]; reflexivity]. left; split; apply u32_range.
  - exists OpMkfifo. split; [|cbn [exec]; reflexivity]. by left.
  - exists OpMksock. split; [|cbn [exec]; reflexivity]. by left.
  - eexists (OpLink _ _ _). split; [|cbn [exec]; reflexivity]. left; by split.
  - eexists (OpUnlink _ _). split; [|cbn [exec]; reflexivity]. by left.
  - eexists (OpMove _ _ _ _). split; [|cbn [exec]; reflexivity]. left; by split.
  - eexists (OpSetContent _ _). split; [|cbn [exec]; reflexivity]. by left.
  - eexists (OpSetSeed _ _). split; [|cbn [exec]; reflexivity]. left; split; [done|apply u64_range].
  - eexists (OpSetTarget _ _). split; [|cbn [exec]; reflexivity]. by left.
  - eexists (OpSetRdev _ _ _). split; [|cbn [exec]; reflexivity]. left; split_and!; [done|apply u32_range..].
  - eexists (OpSetTime _). split; [|cbn [exec]; reflexivity]. left; apply u64_range.
  - match goal with E : snapshot _ ?l = _ |- _ => exists (OpSnapshot l); split; [right; right; eauto|cbn [exec snd]; by rewrite E] end.
  - match goal with E : snapshot _ ?l = _ |- _ => exists (OpSnapshot l); split; [right; right; eauto|cbn [exec snd]; by rewrite E] end.
  - match goal with E : snapshot _ ?l = _ |- _ => exists (OpSnapshot l); split; [right; right; eauto|cbn [exec snd]; by rewrite E] end.
  - eexists (OpSetConfig _). split; [|cbn [exec]; reflexivity]. right; left; eauto.
Qed.
Lemma call_op st c vs st' :
  call_ok c → lua_call st c = Some (vs, st') → st' = st ∨ ∃ op, op_ready op ∧ st' = (exec st op).2.
Proof.
  destruct c as [name args|h name args]; simpl.
  - destruct (method_named _ _) as [m|]; [|done]. simpl. apply prfs_call_op.
  - intros [Hh Hargs]. destruct (method_named _ _) as [m|]; [|done]. simpl. intros Hc.
    unfold node_call, ret in Hc. destruct m; repeat (case_match; try done); simplify_eq; try (by left).
    right. eexists (OpPut _ h _). split; [|cbn [exec]; reflexivity]. left. split; [done|apply attr_arg_ok].
Qed.
Lemma op_ready_exec k st op :
  0 <= k → ready (k + 1) st → m_cur st + 1 < LATEST → op_ready op →
  op_ok st op ∧ ready k (exec st op).2 ∧ m_cur (exec st op).2 <= m_cur st + 1.
Proof.
  intros Hk Hr Hc [Ha|[[b ->]|[l ->]]].
  - split; [|destruct (exec_ready k st op Hk Hr Ha) as [? ->]; split; [done|lia]].
    apply op_args_ok; [by eapply ready_inv|eapply room_le; [|apply Hr]; lia|done].
  - split; [done|]. destruct (config_ready (k + 1) st b Hr) as (H1 & H2 & _).
    change (exec st (OpSetConfig b)).2 with (setContentConfig st b). rewrite H2. split; [eapply ready_le; [|done]; lia|lia].
  - split; [done|]. destruct (snapshot_ready (k + 1) st l Hr Hc) as (H1 & H2 & _).
    change (exec st (OpSnapshot l)).2 with (snapshot st l).2. rewrite H2. split; [eapply ready_le; [|done]; lia|lia].
Qed.

(** Reads of what was sealed before are the same after. *)
Definition same_sealed st st' : Prop :=
  m_cur st <= m_cur st' ∧
  ∀ h n, in64 (h_id h) → isSnapDir (h_id h) = false → 1 <= h_snap h < m_cur st →
    observe st' h = observe st h ∧ lookup_ st' h n = lookup_ st h n.
Lemma same_sealed_refl st : same_sealed st st.
Proof. done. Qed.
Lemma same_sealed_trans st1 st2 st3 : same_sealed st1 st2 → same_sealed st2 st3 → same_sealed st1 st3.
Proof.
  intros [H1 H2] [H3 H4]. split; [lia|]. intros h n Hid Hs Hg.
  destruct (H2 h n Hid Hs Hg) as [<- <-]. apply H4; [done..|lia].
Qed.
Lemma call_step k st c vs st' :
  0 <= k → ready (k + 1) st → m_cur st + 1 < LATEST → call_ok c → lua_call st c = Some (vs, st') →
  ready k st' ∧ m_cur st' <= m_cur st + 1 ∧ same_sealed st st'.
Proof.
  intros Hk Hr Hc Hok Hcall. destruct (call_op _ _ _ _ Hok Hcall) as [->|(op & Hop & ->)].
  - split; [eapply ready_le; [|done]; lia|]. split; [lia|apply same_sealed_refl].
  - destruct (op_ready_exec k st op Hk Hr Hc Hop) as (Hopok & Hr' & Hc'). split; [done|]. split; [done|]. split.
    + destruct (exec_sim st op (ready_inv _ _ Hr) Hopok) as (_ & s' & Hs & E & _). simpl in E. rewrite E. destruct Hs; simpl; lia.
    + intros h n. apply sealed_reads; [by eapply ready_inv|done].
Qed.

(** A script leaves the store reachable and the sealed snapshots alone. *)
Lemma run_script_safe {L} k (s : Script L) st r out calls st' :
  0 <= k → run_script s st = (r, out, calls, st') → Forall call_ok calls →
  ready (Z.of_nat (length calls) + k) st → m_cur st + Z.of_nat (length calls) < LATEST →
  ready k st' ∧ m_cur st' <= m_cur st + Z.of_nat (length calls) ∧ same_sealed st st'.
Proof.
  intros Hk. revert st r out calls st'. induction s as [lua o|vs s IH|c s IH]; intros st r out calls st'; simpl.
  - intros [= <- <- <- <-] _ Hr Hc. simpl in *. split; [done|]. split; [lia|apply same_sealed_refl].
  - destruct (run_script s st) as [[[r1 out1] calls1] st1] eqn:E. intros [= <- <- <- <-]. by eapply IH.
  - destruct (lua_call st c) as [[vs st1]|] eqn:Ec.
    + destruct (run_script _ st1) as [[[r1 out1] calls1] st2] eqn:E. intros [= <- <- <- <-] [Hc Hcs]%Forall_cons Hr Hm.
      simpl in *. destruct (call_step (Z.of_nat (length calls1) + k) st c vs st1) as (H1 & H2 & H3);
        [lia|eapply ready_le; [|done]; lia|lia|done..|].
      destruct (IH _ st1 _ _ _ _ E Hcs H1) as (H4 & H5 & H6); [lia|]. split; [done|]. split; [lia|]. by eapply same_sealed_trans.
    + destruct (run_script _ st) as [[[r1 out1] calls1] st2] eqn:E. intros [= <- <- <- <-] [Hc Hcs]%Forall_cons Hr Hm.
      simpl in *. destruct (IH _ st _ _ _ _ E Hcs) as (H4 & H5 & H6); [eapply ready_le; [|done]; lia|lia|].
      split; [done|]. split; [lia|done].
Qed.
End Laws.

(** ** Witness *)

Definition demo_policy : LVal :=
  table_with [(str "blockSize", LNum (blockSize demo_config)); (str "entropy", LNum (entropy demo_config));
              (str "sparsePercent", LNum (sparsePercent demo_config)); (str "dedupPercent", LNum (dedupPercent demo_config));
              (str "dedupCorpus", LNum (dedupCorpus demo_config))].
Lemma demo_policy_config : lua_config demo_policy = demo_config.
Proof. vm_compute. reflexivity. Qed.
Lemma lua_content_read_witness :
  ∃ n out', host_read demo_registry [] demo_host (mkHandle 3 LATEST) 90 (replicate 12 (zb 1)) 12 = Some (n, out') ∧
    contentReadLua demo_gen (contentConfig demo_host) (n_contentSeed demo_host (mkHandle 3 LATEST)) (n_size demo_host (mkHandle 3 LATEST)) 90 12 =
      Some (take (Z.to_nat n) out').
Proof.
  apply (lua_content_read demo_gen demo_registry demo_host (mkHandle 3 LATEST) demo_policy).
  - apply lookup_insert_eq.
  - vm_compute. reflexivity.
  - rewrite demo_policy_config. cbn. lia.
  - lia.
  - rewrite length_replicate. lia.
  - lia.
  - vm_compute. discriminate.
  - rewrite demo_policy_config. vm_compute. discriminate.
Defined.

(** The reserved index 0 of [stats().nodes] is not seen by [ipairs]. *)
Example ipairs_skips_zero : ipairs (LTable (fill 0 [LNum 5; LNum 6; LNum 7])) = [LNum 6; LNum 7].
Proof. reflexivity. Qed.
