(* ===== verification/LuaCtl.v ===== *)
(** * LuaCtl: the console (plugins/luactl/luactl.cpp)

    A session cuts what it receives into lines and evaluates each in the Lua
    state of the connection; the interpreter is a parameter that says which
    script a chunk is. Then the threads of the sessions: accepted, reaped,
    joined. *)
From S2P Require Import Prelude Keys Kv NodeRec Spec Store Views Inv Init StoreProps NfsSteps Calls Host Loader NfsProps LuaApi.
Local Open Scope Z_scope.
Set Warnings "-clear-no-such-hyp".

(** ** Evaluation *)

Section Console.
Context {M : Type} `{!KvEngine M}.
(** The state of a Lua interpreter, the state of a new one with the libraries
    and bindings, what a chunk does ([inr]: it does not parse), and the
    function [tostring]. *)
Context {L : Type} (lua_new : L) (chunk : L → bytes → Script L + bytes) (tostring : LVal → bytes).
Implicit Types (st : Store M) (lua : L).

(** [print]: the values, tab-separated, and a newline. *)
Fixpoint tabbed (vs : list LVal) : bytes :=
  match vs with [] => [] | [v] => tostring v | v :: vs' => tostring v ++ str "	" ++ tabbed vs' end.
Definition newline : byte := x0a.
Definition print_line (vs : list LVal) : bytes := tabbed vs ++ [newline].
(** The values of [return <line>], echoed. *)
Fixpoint echo (vs : list LVal) : bytes :=
  match vs with [] => [] | [v] => tostring v ++ [newline] | v :: vs' => tostring v ++ str "	" ++ echo vs' end.

(** [safe_script]: the state, the outcome, what was printed, the calls made. *)
Definition safe_script lua (src : bytes) st : (L * ChunkEnd) * list (list LVal) * list Call * Store M :=
  match chunk lua src with
  | inl s => run_script s st
  | inr msg => ((lua, Raised msg), [], [], st)
  end.
(** What a connection has sent, the calls made, and the store. *)
Record Eval := mkEval { ev_lua : L; ev_sent : bytes; ev_calls : list Call; ev_fs : Store M }.
Definition eval (e : Eval) (line : bytes) : Eval :=
  let '((lua, o), out, calls, st) := safe_script (ev_lua e) (str "return " ++ line) (ev_fs e) in
  let sent := ev_sent e ++ concat (print_line <$> out) in
  match o with
  | Values vs => mkEval lua (sent ++ echo vs) (ev_calls e ++ calls) st
  | Raised _ =>
      let '((lua, o), out, calls', st) := safe_script lua line st in
      let sent := sent ++ concat (print_line <$> out) in
      match o with
      | Values vs => mkEval lua (sent ++ echo vs) (ev_calls e ++ calls ++ calls') st
      | Raised msg => mkEval lua (sent ++ str "! " ++ msg ++ [newline]) (ev_calls e ++ calls ++ calls') st
      end
  end.

(** ** One session *)

Fixpoint take_line (buf : bytes) : option (bytes * bytes) :=
  match buf with
  | [] => None
  | c :: buf' => if decide (c = newline) then Some ([], buf') else '(l, rest) ← take_line buf'; Some (c :: l, rest)
  end.
(** [pop_back] of a carriage return. *)
Definition strip_cr (line : bytes) : bytes :=
  match last line with Some c => if decide (c = x0d) then take (length line - 1) line else line | None => line end.
Definition eval_line (e : Eval) (line : bytes) : Eval :=
  let line := strip_cr line in if decide (line = []) then e else eval e line.
(** The inner loop; every line takes at least its newline from the buffer. *)
Fixpoint drain (fuel : nat) (buf : bytes) (e : Eval) : bytes * Eval :=
  match fuel with
  | O => (buf, e)
  | S fuel' =>
      match take_line buf with
      | None => (buf, e)
      | Some (line, rest) => drain fuel' rest (eval_line e line)
      end
  end.
Definition ctl_recv (s : bytes * Eval) (data : bytes) : bytes * Eval :=
  let buf := s.1 ++ data in drain (S (length buf)) buf s.2.
Definition greeting : bytes := str "prfs luactl — `fs` is the live store. print(...) to see values. Ctrl-D to exit.
".
Definition session (st : Store M) : bytes * Eval := ([], mkEval lua_new greeting [] st).

(** The lines of a text and its unfinished rest. *)
Fixpoint lines_of (text : bytes) : list bytes * bytes :=
  match text with
  | [] => ([], [])
  | c :: text' =>
      let '(ls, rest) := lines_of text' in
      if decide (c = newline) then ([] :: ls, rest)
      else match ls with [] => ([], c :: rest) | l :: ls' => ((c :: l) :: ls', rest) end
  end.

(** ** Lemmas *)

Lemma take_line_None buf : take_line buf = None → lines_of buf = ([], buf).
Proof.
  induction buf as [|c buf IH]; simpl; [done|]. case_decide; [done|].
  destruct (take_line buf) as [[l r]|] eqn:E; [done|]. intros _. by rewrite IH.
Qed.
Lemma take_line_Some buf l rest :
  take_line buf = Some (l, rest) →
  lines_of buf = (l :: (lines_of rest).1, (lines_of rest).2) ∧ (length rest < length buf)%nat.
Proof.
  revert l. induction buf as [|c buf IH]; intros l; simpl; [done|]. case_decide.
  - intros [= <- <-]. destruct (lines_of buf). split; [done|lia].
  - destruct (take_line buf) as [[l' r]|] eqn:E; [|done]. simpl. intros [= <- <-].
    destruct (IH l' eq_refl) as [-> Hl]. split; [done|lia].
Qed.
Lemma drain_lines fuel buf (e : Eval) :
  (length buf < fuel)%nat → drain fuel buf e = ((lines_of buf).2, fold_left eval_line (lines_of buf).1 e).
Proof.
  revert buf e. induction fuel as [|fuel IH]; intros buf e Hf; [lia|]. simpl.
  destruct (take_line buf) as [[l rest]|] eqn:E.
  - destruct (take_line_Some _ _ _ E) as [-> Hl]. rewrite IH by lia. done.
  - by rewrite (take_line_None _ E).
Qed.
Lemma lines_of_app a b :
  lines_of (a ++ b) = ((lines_of a).1 ++ (lines_of ((lines_of a).2 ++ b)).1, (lines_of ((lines_of a).2 ++ b)).2).
Proof.
  induction a as [|c a IH]; simpl; [by destruct (lines_of b)|]. rewrite IH.
  destruct (lines_of a) as [ls r]. cbn [fst snd]. case_decide as Hc.
  - simpl. done.
  - destruct ls as [|l ls]; simpl; [|done]. destruct (lines_of (r ++ b)) as [ls2 r2]. simpl.
    rewrite decide_False by done. by destruct ls2.
Qed.


(** *** The store under the console *)

Definition eval_safe (e e' : Eval) : Prop :=
  ∃ calls, ev_calls e' = ev_calls e ++ calls ∧
    ∀ j, 0 <= j → Forall call_ok calls → ready (Z.of_nat (length calls) + j) (ev_fs e) →
      m_cur (ev_fs e) + Z.of_nat (length calls) < LATEST →
      ready j (ev_fs e') ∧ m_cur (ev_fs e') <= m_cur (ev_fs e) + Z.of_nat (length calls) ∧ same_sealed (ev_fs e) (ev_fs e').

Lemma eval_safe_refl e : eval_safe e e.
Proof.
  exists []. split; [by rewrite app_nil_r|]. intros j Hj _ Hr _. split; [done|]. split; [simpl; lia|apply same_sealed_refl].
Qed.
Lemma eval_safe_trans e1 e2 e3 : eval_safe e1 e2 → eval_safe e2 e3 → eval_safe e1 e3.
Proof.
  intros (c1 & E1 & H1) (c2 & E2 & H2). exists (c1 ++ c2). split; [by rewrite E2, E1, app_assoc|].
  intros j Hj [Hc1 Hc2]%Forall_app Hr Hm. rewrite length_app in *.
  destruct (H1 (Z.of_nat (length c2) + j)) as (H3 & H4 & H5); [lia|done| |lia|].
  { eapply ready_le; [|done]. lia. }
  destruct (H2 j) as (H6 & H7 & H8); [lia|done..|lia|]. split; [done|]. split; [lia|]. by eapply same_sealed_trans.
Qed.
(** One chunk: the calls are those of its script. *)
Lemma safe_script_safe lua src (e e' : Eval) r out calls :
  safe_script lua src (ev_fs e) = (r, out, calls, ev_fs e') → ev_calls e' = ev_calls e ++ calls → eval_safe e e'.
Proof.
  intros Hs Hc. exists calls. split; [done|]. intros j Hj Hok Hr Hm. unfold safe_script in Hs.
  destruct (chunk lua src) as [s|msg].
  - by eapply run_script_safe.
  - injection Hs as <- <- <- <-. split; [eapply ready_le; [|done]; simpl; lia|]. split; [simpl; lia|apply same_sealed_refl].
Qed.
Lemma eval_is_safe e line : eval_safe e (eval e line).
Proof.
  unfold eval. destruct (safe_script (ev_lua e) _ (ev_fs e)) as [[[[lua o] out] calls] st] eqn:E1. destruct o as [vs|msg].
  - by eapply safe_script_safe.
  - destruct (safe_script lua line st) as [[[[lua2 o2] out2] calls2] st2] eqn:E2.
    apply (eval_safe_trans e (mkEval lua [] (ev_calls e ++ calls) st)); [by eapply safe_script_safe|].
    destruct o2; eapply safe_script_safe; try exact E2; simpl; by rewrite app_assoc.
Qed.
Lemma eval_lines_safe ls e : eval_safe e (fold_left eval_line ls e).
Proof.
  revert e. induction ls as [|l ls IH]; intros e; [apply eval_safe_refl|]. simpl. eapply eval_safe_trans; [|apply IH].
  unfold eval_line. case_decide; [apply eval_safe_refl|apply eval_is_safe].
Qed.


(** A line whose first reading fails at run time is run again, with what the
    first run did still done. *)
Lemma eval_runs_again e line lua1 out1 calls1 st1 msg :
  safe_script (ev_lua e) (str "return " ++ line) (ev_fs e) = ((lua1, Raised msg), out1, calls1, st1) →
  ev_fs (eval e line) = (safe_script lua1 line st1).2.
Proof. intros E. unfold eval. rewrite E. by destruct (safe_script lua1 line st1) as [[[[? [|]] ?] ?] ?]. Qed.
End Console.

(** ** The threads of the sessions *)

(** A session by the number of its thread; descriptors with their owner: a
    session's thread, or something else of the process. *)
Record Session := mkSession { ss_th : Z; ss_fd : Z; ss_done : bool }.
Record Ctl := mkCtl {
  m_running : bool; m_sessions : list Session; ct_next : Z;
  ct_fds : gmap Z (option Z);   (* open descriptors *)
  ct_joined : list Z;           (* threads joined, in order *)
  ct_shut : list (Z * option (option Z))  (* shutdown calls: the descriptor and its owner at that time *)
}.
Definition Ctl0 (fds : gmap Z (option Z)) : Ctl := mkCtl true [] 0 fds [] [].
(** [reap]: finished threads are joined, without waiting, and dropped. *)
Definition reap (c : Ctl) : Ctl :=
  mkCtl (m_running c) (filter (λ s, ss_done s = false) (m_sessions c)) (ct_next c) (ct_fds c)
    (ct_joined c ++ (ss_th <$> filter (λ s, ss_done s = true) (m_sessions c))) (ct_shut c).
(** [serve], one turn: [accept] gives a free descriptor. *)
Definition serve_accept (c : Ctl) (fd : Z) : option Ctl :=
  if decide (m_running c = true ∧ ct_fds c !! fd = None) then
    let th := ct_next c in
    let c := reap (mkCtl (m_running c) (m_sessions c) (th + 1) (<[fd := Some th]> (ct_fds c)) (ct_joined c) (ct_shut c)) in
    Some (mkCtl (m_running c) (m_sessions c ++ [mkSession th fd false]) (ct_next c) (ct_fds c) (ct_joined c) (ct_shut c))
  else None.
(** The end of a session's thread: [close(c)], then [done]. *)
Definition finish_one (s : Session) : Session := mkSession (ss_th s) (ss_fd s) true.
Definition worker_end (c : Ctl) (th : Z) : option Ctl :=
  match List.find (λ s, (ss_th s =? th) && negb (ss_done s)) (m_sessions c) with
  | Some s =>
      Some (mkCtl (m_running c) ((λ s, if ss_th s =? th then finish_one s else s) <$> m_sessions c) (ct_next c)
              (delete (ss_fd s) (ct_fds c)) (ct_joined c) (ct_shut c))
  | None => None
  end.
(** The rest of the process opens a descriptor. *)
Definition other_open (c : Ctl) (fd : Z) : option Ctl :=
  if decide (ct_fds c !! fd = None) then
    Some (mkCtl (m_running c) (m_sessions c) (ct_next c) (<[fd := None]> (ct_fds c)) (ct_joined c) (ct_shut c))
  else None.
(** [stop]: every session is shut down - its thread then ends -, and joined. *)
Definition ctl_stop (c : Ctl) : Ctl :=
  if m_running c then
    mkCtl false [] (ct_next c)
      (fold_left (λ m s, if ss_done s then m else delete (ss_fd s) m) (m_sessions c) (ct_fds c))
      (ct_joined c ++ (ss_th <$> m_sessions c))
      (ct_shut c ++ ((λ s, (ss_fd s, ct_fds c !! ss_fd s)) <$> m_sessions c))
  else c.
Inductive CtlEv := EvAccept (fd : Z) | EvWorkerEnd (th : Z) | EvOtherOpen (fd : Z) | EvCtlStop.
Definition ctl_event (c : Ctl) (e : CtlEv) : option Ctl :=
  match e with
  | EvAccept fd => serve_accept c fd
  | EvWorkerEnd th => worker_end c th
  | EvOtherOpen fd => other_open c fd
  | EvCtlStop => Some (ctl_stop c)
  end.
Fixpoint ctl_run (c : Ctl) (evs : list CtlEv) : option Ctl :=
  match evs with [] => Some c | e :: evs' => c ← ctl_event c e; ctl_run c evs' end.

(** ** The service *)

Section Service.
Context {M : Type} `{!KvEngine M}.
(** Whether a socket can be bound at a path. *)
Context (bind_ok : bytes → bool).
Definition DEFAULT_SOCK : bytes := str "/tmp/prfs.sock".
(** [sizeof(sockaddr_un::sun_path)]. *)
Definition SUN_PATH : nat := 108.
Definition ctl_path (o : Options) : bytes :=
  let p := option_ o (str "control") in if decide (p = []) then DEFAULT_SOCK else p.
Definition luactl_start (h : HostState M) : option (Error * HostState M) :=
  let p := ctl_path (hs_options h) in
  if (SUN_PATH <=? length p)%nat then Some (INVAL, h)
  else if bind_ok p then Some (OK, mkHost (hs_fs h) (hs_options h) ({[str "luactl"]} ∪ hs_running h) (hs_ports h))
  else Some (INVAL, h).
Definition luactl_stop (h : HostState M) : HostState M :=
  mkHost (hs_fs h) (hs_options h) (hs_running h ∖ {[str "luactl"]}) (hs_ports h).
Definition luactl_plugin : Plugin M := mkPlugin (str "luactl") luactl_start luactl_stop.
End Service.

(** ** Lemmas *)

(** Every thread accepted so far is either in the list or joined, once. *)
Definition ctl_inv (c : Ctl) : Prop :=
  ct_joined c ++ (ss_th <$> m_sessions c) ≡ₚ seqZ 0 (ct_next c) ∧ 0 <= ct_next c ∧
  (m_running c = false → m_sessions c = []).

Lemma reap_partition c :
  ct_joined (reap c) ++ (ss_th <$> m_sessions (reap c)) ≡ₚ ct_joined c ++ (ss_th <$> m_sessions c).
Proof.
  unfold reap. simpl. rewrite <- app_assoc. apply Permutation_app_head. rewrite <- fmap_app. apply fmap_Permutation.
  induction (m_sessions c) as [|s ss IH]; [done|]. rewrite !filter_cons. destruct (ss_done s); simpl.
  - by rewrite IH.
  - rewrite <- Permutation_middle. by rewrite IH.
Qed.
Lemma ctl_inv_0 fds : ctl_inv (Ctl0 fds).
Proof. split_and!; simpl; done. Qed.

Lemma ctl_event_inv c e c' : ctl_inv c → ctl_event c e = Some c' → ctl_inv c' ∧ ct_next c <= ct_next c'.
Proof.
  intros (HP & Hn & Hr). destruct e as [fd|th|fd|]; simpl.
  - unfold serve_accept. case_decide as Hc; [|done]. destruct Hc as [Hrun _]. intros [= <-]. split; [|simpl; lia].
    split_and!; simpl; [|lia|by rewrite Hrun]. rewrite fmap_app, app_assoc. csimpl.
    pose proof (reap_partition (mkCtl (m_running c) (m_sessions c) (ct_next c + 1) (<[fd:=Some (ct_next c)]> (ct_fds c)) (ct_joined c) (ct_shut c))) as H.
    simpl in H. rewrite H, HP. clear H. rewrite seqZ_app by lia.
    by rewrite Z.add_0_l.
  - unfold worker_end. destruct (List.find _ _) as [s|]; [|done]. intros [= <-]. split; [|simpl; lia]. split_and!; simpl; [|done|].
    + rewrite <- HP. apply Permutation_app_head. rewrite <- list_fmap_compose.
      rewrite (list_fmap_ext (ss_th ∘ (λ s0, if ss_th s0 =? th then finish_one s0 else s0)) ss_th (m_sessions c)); [done|].
      intros i x _. simpl. by destruct (_ =? _).
    + intros Hf. by rewrite (Hr Hf).
  - unfold other_open. case_decide; [|done]. intros [= <-]. split; [|simpl; lia]. by split_and!.
  - intros [= <-]. unfold ctl_stop. destruct (m_running c) eqn:E; [|split; [exact (conj HP (conj Hn (λ _, Hr eq_refl)))|lia]].
    split; [|simpl; lia]. split_and!; simpl; [by rewrite app_nil_r|done|done].
Qed.

(** C27. However clients come and go: a session's thread is joined exactly once,
    by [reap] when it has finished or by [stop], and when the service has
    stopped every thread it ever started has been joined and none is left. *)
Theorem console_threads_joined fds evs c :
  ctl_run (Ctl0 fds) evs = Some c →
  NoDup (ct_joined c ++ (ss_th <$> m_sessions c)) ∧
  let c' := ctl_stop c in
  m_sessions c' = [] ∧ m_running c' = false ∧ NoDup (ct_joined c') ∧ ∀ th, th ∈ ct_joined c' ↔ 0 <= th < ct_next c'.
Proof.
  intros Hrun. assert (ctl_inv c) as I.
  { revert Hrun. generalize (ctl_inv_0 fds). generalize (Ctl0 fds). induction evs as [|e evs IH]; intros c0 I0; simpl; [by intros [= <-]|].
    destruct (ctl_event c0 e) as [c1|] eqn:E; [|done]. simpl. apply IH. by eapply ctl_event_inv. }
  assert (∀ c, ctl_inv c → NoDup (ct_joined c ++ (ss_th <$> m_sessions c))) as Hnd
    by (intros c0 (-> & _); apply NoDup_seqZ).
  split; [by apply Hnd|]. cbv zeta.
  assert (ctl_inv (ctl_stop c)) as I' by (by apply (ctl_event_inv c EvCtlStop)).
  assert (m_running (ctl_stop c) = false) as Hs by (unfold ctl_stop; by destruct (m_running c) eqn:E).
  pose proof (Hnd _ I') as Hnd'. destruct I' as (HP & _ & Hr). rewrite (Hr Hs), app_nil_r in *.
  split_and!; [done..|]. intros th. rewrite HP, elem_of_seqZ. lia.
Qed.

(** ** What the interpreter shows *)

(** An interpreter of two lines: [fs:mkdir()], and [boom()], which makes a
    directory and then fails. *)
Definition demo_script (raise : bool) : Script () :=
  CallThen (FsCall (str "mkdir") []) (λ r, Done tt (match r with Some vs => if raise then Raised (str "boom") else Values vs | None => Raised [] end)).
Definition demo_chunk (_ : ()) (src : bytes) : Script () + bytes :=
  if decide (src = str "return fs:mkdir()") then inl (demo_script false)
  else if decide (src = str "return boom()" ∨ src = str "boom()") then inl (demo_script true) else inr (str "syntax").
Definition demo_tostring (v : LVal) : bytes := match v with LNode _ => str "node" | _ => [] end.
Definition demo_session := session (M:=gmap bytes bytes) tt demo.
Definition demo_ctl := ctl_recv (M:=gmap bytes bytes) demo_chunk demo_tostring.

(** The failing line has made two directories. *)
Lemma console_runs_twice :
  (let e := (demo_ctl demo_session (str "fs:mkdir()" ++ [newline])).2 in m_next (ev_fs e) = m_next demo + 1) ∧
  (let e := (demo_ctl demo_session (str "boom()" ++ [newline])).2 in
   m_next (ev_fs e) = m_next demo + 2 ∧ drop (length greeting) (ev_sent e) = str "! boom" ++ [newline]).
Proof. vm_compute. split_and!; reflexivity. Qed.

(** [stop] shuts down a descriptor that a finished, not yet reaped session
    closed and that now belongs to something else. *)
Lemma stop_shuts_foreign_fd :
  (ct_shut <$> ctl_run (Ctl0 ∅) [EvAccept 7; EvWorkerEnd 0; EvOtherOpen 7; EvCtlStop]) = Some [(7, Some None)].
Proof. vm_compute. reflexivity. Qed.

(** ** Witnesses *)

Definition demo_lines : list bytes := [str "fs:mk"; str "dir()" ++ [newline]; str "boom()" ++ [newline]].
Definition demo_typed : Eval (M:=gmap bytes bytes) (L:=()) :=
  (fold_left (ctl_recv demo_chunk demo_tostring) demo_lines (session tt demo)).2.
Lemma demo_typed_calls : ev_calls demo_typed = replicate 3 (FsCall (str "mkdir") []).
Proof. vm_compute. reflexivity. Qed.

Lemma console_threads_joined_witness :
  match ctl_run (Ctl0 ∅) [EvAccept 7; EvAccept 8; EvWorkerEnd 0; EvAccept 7] with
  | Some c => ct_joined c = [0] ∧ m_sessions (ctl_stop c) = []
  | None => False
  end.
Proof.
  destruct (ctl_run (Ctl0 ∅) [EvAccept 7; EvAccept 8; EvWorkerEnd 0; EvAccept 7]) as [c|] eqn:E.
  - split; [|exact (proj1 (proj2 (console_threads_joined ∅ [EvAccept 7; EvAccept 8; EvWorkerEnd 0; EvAccept 7] c E)))].
    assert (ct_joined <$> ctl_run (Ctl0 ∅) [EvAccept 7; EvAccept 8; EvWorkerEnd 0; EvAccept 7] = Some [0]) as H by (vm_compute; reflexivity).
    rewrite E in H. injection H as H. exact H.
  - vm_compute in E. discriminate E.
Defined.
