(* ===== verification/Perf.v ===== *)
(** * Perf: the read benchmark (plugins/perf/perf.cpp)

    Its options, the search for a file to read, and the loops that read; clocks
    and the reported rates are not modelled. *)
From S2P Require Import Prelude Keys Kv NodeRec Spec Store Views Shape Graph Inv Init Reads Paths StoreProps CStr Content ContentProps Di Host Loader NfsSteps NfsProps.
Local Open Scope Z_scope.
Set Warnings "-clear-no-such-hyp".

(** ** Options *)

Definition perf_mult (c : byte) : Z :=
  if decide (c = "k"%byte ∨ c = "K"%byte) then 2 ^ 10
  else if decide (c = "m"%byte ∨ c = "M"%byte) then 2 ^ 20
  else if decide (c = "g"%byte ∨ c = "G"%byte) then 2 ^ 30
  else if decide (c = "t"%byte ∨ c = "T"%byte) then 2 ^ 40
  else 1.
(** [None] is an exception of [std::stoull]. *)
Definition parseSize (s : bytes) (def : Z) : option Z :=
  match last s with
  | None => Some def
  | Some c =>
      let mult := perf_mult c in
      let num := if mult =? 1 then s else take (length s - 1) s in
      (λ v, u64 (v * mult)) <$> stoull num
  end.
Definition opt (o : Options) (key def : bytes) : bytes := match option_ o key with [] => def | v => v end.

(** ** The sample *)

Section Sample.
Context {M : Type} `{!KvEngine M}.
Implicit Types (st : Store M).

Record Sample := mkSample { sm_node : Handle; sm_seed : Z; sm_size : Z }.
(** The entries of one directory: the first regular file, or the stack with the
    directories pushed. *)
Fixpoint scan_entries st (ents : list (bytes * Handle)) (stack : list Handle) : Sample + list Handle :=
  match ents with
  | [] => inr stack
  | (_, n) :: ents' =>
      if n_type st n =? tcode REG then inl (mkSample n (n_contentSeed st n) (n_size st n))
      else scan_entries st ents' (if n_type st n =? tcode DIR then n :: stack else stack)
  end.
(** The result and what is left on the stack; the head is [stack.back()]. *)
Fixpoint sample_loop (budget : nat) st (stack : list Handle) : option Sample * list Handle :=
  match budget, stack with
  | S budget', d :: stack' =>
      match scan_entries st (readdir st d) stack' with
      | inl s => (Some s, [])
      | inr stack => sample_loop budget' st stack
      end
  | _, _ => (None, stack)
  end.
Definition BUDGET : nat := Z.to_nat 4096.
Definition sampleFile st : option Sample := (sample_loop BUDGET st [rwRoot st]).1.
End Sample.

(** ** The loops *)

(** [while (done < perThread)]: [read off] is what one read returns, [None]
    when it is undefined. [done] and [off] are incremented together. The fuel
    is enough when every read but the last returns something. *)
Fixpoint read_loop (fuel : nat) (read : Z → option Z) (perThread done off : Z) : option (Z * Z) :=
  match fuel with
  | O => None
  | S fuel' =>
      if perThread <=? done then Some (done, off)
      else
        got ← read off;
        if got =? 0 then Some (done, off)
        else read_loop fuel' read perThread (u64 (done + got)) (u64 (off + got))
  end.
Definition pass_fuel (perThread : Z) : nat := S (Z.to_nat perThread).

Section Passes.
Context {M : Type} `{!KvEngine M}.
Context (gen : IRng).
(** One thread of [pass]: the bytes generated. *)
Definition pass_read (cfg : ContentConfig) (sd fsize bs off : Z) : option Z :=
  fst <$> content_read gen cfg sd fsize (off mod fsize) (replicate (Z.to_nat bs) (zb 0)) bs.
Definition pass_thread (cfg : ContentConfig) (seed fsize bs perThread k : Z) : option Z :=
  fst <$> read_loop (pass_fuel perThread) (pass_read cfg (u64 (seed + k)) fsize bs) perThread 0 0.
(** [pass(n)]: the total over the threads. *)
Fixpoint pass_threads (cfg : ContentConfig) (seed fsize bs perThread : Z) (n : nat) (k total : Z) : option Z :=
  match n with
  | O => Some total
  | S n' => d ← pass_thread cfg seed fsize bs perThread k; pass_threads cfg seed fsize bs perThread n' (k + 1) (u64 (total + d))
  end.
Definition pass (cfg : ContentConfig) (seed fsize bs perThread : Z) (n : nat) : option Z :=
  pass_threads cfg seed fsize bs perThread n 0 0.
(** [storePass]: through the host. *)
Definition store_read (reg : Registry Provider) (prov : bytes) (st : Store M) (node : Handle) (sz bs off : Z) : option Z :=
  fst <$> host_read reg prov st node (off mod sz) (replicate (Z.to_nat bs) (zb 0)) bs.
Definition storePass (reg : Registry Provider) (prov : bytes) (st : Store M) (node : Handle) (sz bs perThread : Z) : option Z :=
  fst <$> read_loop (pass_fuel perThread) (store_read reg prov st node sz bs) perThread 0 0.
End Passes.

(** ** [run] and [start] *)

Record PerfCfg := mkPerf { pf_seed : Z; pf_fsize : Z; pf_perThread : Z; pf_bs : Z; pf_threads : Z }.
Definition GIB : Z := 2 ^ 30.
(** The options of [run]; [hw] is [hardware_concurrency]. *)
Definition perf_config (hw : Z) (o : Options) (sample : option Sample) : option PerfCfg :=
  seed ← (if decide (opt o (str "perf.seed") [] = []) then Some (match sample with Some s => sm_seed s | None => 1 end)
          else parseSize (opt o (str "perf.seed") (str "1")) 1);
  fsize ← (if decide (opt o (str "perf.size") [] = []) then Some (match sample with Some s => sm_size s | None => GIB end)
           else parseSize (opt o (str "perf.size") (str "1G")) GIB);
  perThread ← parseSize (opt o (str "perf.bytes") (str "1G")) GIB;
  bs ← parseSize (opt o (str "perf.blocksize") (str "1M")) (2 ^ 20);
  req ← stoull (opt o (str "perf.threads") (str "0"));
  Some (mkPerf seed (if fsize =? 0 then GIB else fsize) perThread bs
          (if u32 req =? 0 then Z.max 1 hw else u32 req)).

Section Run.
Context {M : Type} `{!KvEngine M}.
Context (gen : IRng) (reg : Registry Provider) (prov : bytes) (hw : Z).
(** What [run] reads in all: the bytes of the single pass, of the pass with
    all threads when there are several, and of the store pass when there is a
    sample. [inl] is an exception of the options, [inr None] undefined
    behaviour. *)
Definition perf_run (o : Options) (fs : Store M) : () + option (Z * option Z * option Z) :=
  match (match contentConfig fs with [] => Some default_config | b => config_deserialize b end) with
  | None => inl ()
  | Some cfg =>
      let sample := sampleFile fs in
      match perf_config hw o sample with
      | None => inl ()
      | Some p =>
          inr (single ← pass gen cfg (pf_seed p) (pf_fsize p) (pf_bs p) (pf_perThread p) 1;
               multi ← (if 1 <? pf_threads p
                        then Some <$> pass gen cfg (pf_seed p) (pf_fsize p) (pf_bs p) (pf_perThread p) (Z.to_nat (pf_threads p))
                        else Some None);
               store ← (match sample with
                        | Some s => Some <$> storePass reg prov fs (sm_node s) (Z.max 1 (sm_size s)) (pf_bs p) (pf_perThread p)
                        | None => Some None
                        end);
               Some (single, multi, store))
      end
  end.
(** The store is only read. *)
Definition perf_start (h : HostState M) : option (Error * HostState M) :=
  match perf_run (hs_options h) (hs_fs h) with
  | inl _ => Some (INVAL, h)
  | inr (Some _) => Some (OK, h)
  | inr None => None
  end.
Definition perf_stop (h : HostState M) : HostState M := h.
Definition perf_plugin : Plugin M := mkPlugin (str "perf") perf_start perf_stop.
End Run.

(** ** Lemmas *)

Section SampleLaws.
Context {M : Type} `{!KvEngine M}.
Implicit Types (st : Store M).

Definition live_dir st (h : Handle) : Prop := ∃ d, h = mkHandle d LATEST ∧ in64 d ∧ is_dir (vw st) d.
Definition is_file st (c : Z) : Prop := ∃ r, v_attr (vw st) c = Some r ∧ r_type r = tcode REG.
Definition dirs_of (ents : list (bytes * Handle)) st : list Handle := filter (λ h, n_type st h = tcode DIR) ents.*2.

Lemma scan_entries_inl st ents stack s :
  scan_entries st ents stack = inl s →
  ∃ e, e ∈ ents ∧ n_type st e.2 = tcode REG ∧ s = mkSample e.2 (n_contentSeed st e.2) (n_size st e.2).
Proof.
  revert stack. induction ents as [|[n h] ents IH]; intros stack; cbn [scan_entries]; [done|].
  destruct (Z.eqb_spec (n_type st h) (tcode REG)).
  - intros H. injection H as <-. exists (n, h). split; [left|done].
  - intros (e & He & ? & ?)%IH. exists e. split; [by right|done].
Qed.
Lemma scan_entries_inr st ents stack stack' :
  scan_entries st ents stack = inr stack' →
  (∀ e, e ∈ ents → n_type st e.2 ≠ tcode REG) ∧
  ∀ h, h ∈ stack' ↔ h ∈ stack ∨ ∃ e, e ∈ ents ∧ e.2 = h ∧ n_type st h = tcode DIR.
Proof.
  revert stack. induction ents as [|[n x] ents IH]; intros stack; cbn [scan_entries].
  { intros [= <-]. split; [set_solver|]. intros h. split; [by left|]. intros [|(e & He & _)]; [done|set_solver]. }
  destruct (Z.eqb_spec (n_type st x) (tcode REG)); [done|]. intros Hs%IH. destruct Hs as [H1 H2]. split.
  - intros e [->|He]%elem_of_cons; [done|auto].
  - intros h. rewrite H2. destruct (Z.eqb_spec (n_type st x) (tcode DIR)) as [Ht|Ht].
    + rewrite elem_of_cons. split.
      * intros [[->|?]|(e & ? & ? & ?)]; [right; exists (n, x); split_and!; [left|done..]|by left|right; exists e; split_and!; [by right|done..]].
      * intros [?|(e & [->|He]%elem_of_cons & <- & ?)]; [left; by right|left; by left|right; by exists e].
    + split.
      * intros [?|(e & ? & ? & ?)]; [by left|right; exists e; split_and!; [by right|done..]].
      * intros [?|(e & [->|He]%elem_of_cons & <- & ?)]; [by left|done|right; by exists e].
Qed.

(** The entries of a live directory. *)
Lemma entries_live st h n x :
  inv st → live_dir st h → (n, x) ∈ readdir st h →
  ∃ c r, x = mkHandle c LATEST ∧ v_ent (vw st) (h_id h) n = Some c ∧ in64 c ∧ v_attr (vw st) c = Some r ∧ n_type st x = r_type r.
Proof.
  intros I (d & -> & Hd & Hdir) Hin. pose proof (is_dir_ids st d I Hd Hdir).
  assert (plain st (mkHandle d LATEST)) as Hp.
  { pose proof (sh_cur _ _ _ (inv_shape st I)). split_and!; [by eapply id_not_snapdir|done|]. cbn [h_snap]. rewrite live_rr. unfold LATEST in *. word_lia. }
  apply (elem_of_readdir st _ n x I Hp) in Hin as (c & Hc & ->). unfold at_ in Hc. cbn [h_id h_snap] in *. rewrite live_rr in Hc.
  fold (vw st) in Hc. destruct (gr_ent _ (vw_graph st I) d n c Hd Hc) as (_ & _ & Hc64 & [r Hr]).
  exists c, r. split_and!; try done. by apply (read_live st c r).
Qed.

Lemma sample_loop_found budget st stack s rest :
  inv st → (∀ h, h ∈ stack → live_dir st h ∧ ∃ ns, v_walk (vw st) 1 ns = Some (h_id h)) →
  sample_loop budget st stack = (Some s, rest) →
  ∃ c ns, sm_node s = mkHandle c LATEST ∧ v_walk (vw st) 1 ns = Some c ∧ is_file st c ∧
    sm_seed s = n_contentSeed st (sm_node s) ∧ sm_size s = n_size st (sm_node s).
Proof.
  intros I. revert stack. induction budget as [|budget IH]; intros [|d stack] Hst; simpl; try done.
  destruct (Hst d ltac:(left)) as [Hd [ns Hns]]. destruct (scan_entries st (readdir st d) stack) as [s'|stack'] eqn:E.
  - intros [= <- <-]. apply scan_entries_inl in E as ([n x] & Hin & Ht & ->).
    destruct (entries_live st d n x I Hd Hin) as (c & r & -> & He & Hc & Hr & Hty). simpl in *.
    exists c, (ns ++ [n]). rewrite v_walk_snoc, Hns. split_and!; try done. exists r. split; [done|]. rewrite <- Hty. exact Ht.
  - apply IH. apply scan_entries_inr in E as [_ Hin]. intros h [?|([n x] & Hx & <- & Ht)]%Hin; [apply Hst; by right|].
    destruct (entries_live st d n x I Hd Hx) as (c & r & -> & He & Hc & Hr & Hty). simpl in *. split.
    + exists c. split_and!; try done. exists r. split; [done|]. rewrite <- Hty. exact Ht.
    + exists (ns ++ [n]). by rewrite v_walk_snoc, Hns.
Qed.
Lemma sample_loop_none budget st stack :
  inv st → (∀ h, h ∈ stack → live_dir st h) → sample_loop budget st stack = (None, []) →
  ∀ h ns c, h ∈ stack → v_walk (vw st) (h_id h) ns = Some c → ¬ is_file st c.
Proof.
  intros I. revert stack. induction budget as [|budget IH]; intros [|d stack] Hst; simpl; try done; try set_solver.
  destruct (scan_entries st (readdir st d) stack) as [s'|stack'] eqn:E; [done|].
  apply scan_entries_inr in E as [Hno Hin]. intros Hloop.
  assert (∀ h, h ∈ stack' → live_dir st h) as Hst'.
  { intros h [?|([n x] & Hx & <- & Ht)]%Hin; [apply Hst; by right|].
    destruct (entries_live st d n x I (Hst d ltac:(left)) Hx) as (c & r & -> & He & Hc & Hr & Hty). simpl in *.
    exists c. split_and!; try done. exists r. split; [done|]. rewrite <- Hty. exact Ht. }
  specialize (IH stack' Hst' Hloop). intros h ns c [->|Hh]%elem_of_cons Hw; [|eapply IH; [apply Hin; by left|done]].
  destruct (Hst d ltac:(left)) as (d' & -> & Hd & Hdir). cbn [h_id] in *.
  destruct ns as [|n ns]; cbn [v_walk] in Hw.
  { injection Hw as <-. intros (r & Hr & Ht). destruct Hdir as (r' & Hr' & Ht'). rewrite Hr in Hr'. injection Hr' as <-. rewrite Ht in Ht'. done. }
  destruct (v_ent (vw st) d' n) as [x|] eqn:Ex; [|done]. cbn [mbind option_bind] in Hw.
  assert ((n, mkHandle x LATEST) ∈ readdir st (mkHandle d' LATEST)) as Hx.
  { pose proof (is_dir_ids st d' I Hd Hdir). pose proof (sh_cur _ _ _ (inv_shape st I)). apply elem_of_readdir; [done| |].
    - split_and!; [by eapply id_not_snapdir|done|]. cbn [h_snap]. rewrite live_rr. unfold LATEST in *. word_lia.
    - exists x. unfold at_. cbn [h_id h_snap]. by rewrite live_rr. }
  destruct (entries_live st (mkHandle d' LATEST) n _ I (Hst _ ltac:(left)) Hx) as (x' & r & [= <-] & _ & Hx64 & Hr & Hty).
  destruct (decide (r_type r = tcode DIR)) as [Ht|Ht].
  - apply (IH (mkHandle x LATEST) ns c); [|done]. apply Hin. right. exists (n, mkHandle x LATEST). split_and!; [done..|]. rewrite <- Ht. exact Hty.
  - destruct ns as [|n' ns]; cbn [v_walk] in Hw.
    + injection Hw as <-. intros (r' & Hr' & Ht'). rewrite Hr in Hr'. injection Hr' as <-. apply (Hno _ Hx). rewrite <- Ht'. exact Hty.
    + destruct (v_ent (vw st) x n') as [y|] eqn:Ey; [|done].
      destruct (gr_ent _ (vw_graph st I) x n' y Hx64 Ey) as (_ & (r' & Hr' & Ht') & _). congruence.
Qed.

(** The file to read: what the search returns is a regular file of the
    live tree that a path leads to, with its seed and size; and when it returns
    nothing with directories no longer waiting, no path leads to one. *)
Theorem sample_file st :
  reachable_from fresh_store st →
  match sample_loop BUDGET st [rwRoot st] with
  | (Some s, _) => ∃ c ns, sm_node s = mkHandle c LATEST ∧ v_walk (vw st) 1 ns = Some c ∧ is_file st c ∧
      sm_seed s = n_contentSeed st (sm_node s) ∧ sm_size s = n_size st (sm_node s)
  | (None, []) => ∀ ns c, v_walk (vw st) 1 ns = Some c → ¬ is_file st c
  | (None, _ :: _) => True
  end.
Proof.
  intros I%inv_reachable.
  assert (live_dir st (rwRoot st)) as Hroot.
  { exists 1. unfold rwRoot. rewrite (i_root _ I). split_and!; [done|word_lia|]. apply (vw_graph st I). }
  assert (h_id (rwRoot st) = 1) as Hid by apply (i_root _ I).
  destruct (sample_loop BUDGET st [rwRoot st]) as [[s|] [|h rest]] eqn:E; try done.
  - eapply sample_loop_found; [done| |exact E]. intros h ->%list_elem_of_singleton. split; [done|]. rewrite Hid. by exists [].
  - eapply sample_loop_found; [done| |exact E]. intros h' ->%list_elem_of_singleton. split; [done|]. rewrite Hid. by exists [].
  - intros ns c. rewrite <- Hid. eapply (sample_loop_none BUDGET st [rwRoot st] I); [by intros h ->%list_elem_of_singleton|done|left].
Qed.
End SampleLaws.

(** ** The loops end *)

(** When every read returns between 1 and [bs] bytes, the loop stops at the
    first count that is not below the target. *)
Lemma read_loop_ends fuel read perThread bs done_ off :
  (∀ o, 0 <= o < 2 ^ 64 → ∃ got, read o = Some got ∧ 1 <= got <= bs) →
  perThread + bs <= 2 ^ 64 → 0 <= done_ → in64 off → done_ < perThread + bs → done_ < 2 ^ 64 →
  Z.max 0 (perThread - done_) < Z.of_nat fuel →
  ∃ d o, read_loop fuel read perThread done_ off = Some (d, o) ∧ Z.max perThread done_ <= d < Z.max (perThread + bs) (done_ + 1).
Proof.
  intros Hread Hmax. revert done_ off. induction fuel as [|fuel IH]; intros d off Hd Hoff Hlt H64 Hf; cbn [read_loop].
  { lia. }
  destruct (Z.leb_spec perThread d); [exists d, off; split; [done|lia]|].
  destruct (Hread off Hoff) as (got & -> & Hgot). cbn [mbind option_bind]. rewrite (proj2 (Z.eqb_neq _ _)) by lia.
  rewrite (u64_small (d + got)) by word_lia.
  destruct (IH (d + got) (u64 (off + got))) as (d' & o' & -> & Hd'); [lia|apply u64_range|lia..|].
  exists d', o'. split; [done|lia].
Qed.

(** The benchmark ends and measures what it says: with a block size and a
    target below 2^64, every thread generates at least the bytes asked for and
    less than one block more, and the total is their sum. *)
Theorem perf_pass_total gen cfg seed fsize bs perThread n :
  0 <= blockSize cfg <= 2 ^ 32 - 16 → 1 <= fsize → fsize + eff_bs cfg <= 2 ^ 64 →
  1 <= bs → fsize + bs < 2 ^ 64 → 0 <= perThread → Z.of_nat n * (perThread + bs) < 2 ^ 64 → perThread + bs <= 2 ^ 64 →
  ∃ total, pass gen cfg seed fsize bs perThread n = Some total ∧
    Z.of_nat n * perThread <= total <= Z.of_nat n * (perThread + bs - 1).
Proof.
  intros Hcb Hf Hfm Hbs Hfb Hp Hn Hpb.
  assert (∀ k, ∃ d, pass_thread gen cfg seed fsize bs perThread k = Some d ∧ perThread <= d <= perThread + bs - 1) as Hthread.
  { intros k. unfold pass_thread.
    destruct (read_loop_ends (pass_fuel perThread) (pass_read gen cfg (u64 (seed + k)) fsize bs) perThread bs 0 0) as (d & o & -> & Hd);
      [|done|lia|word_lia|lia|lia|unfold pass_fuel; lia|exists d; split; [done|lia]].
    intros off Hoff. pose proof (Z.mod_pos_bound off fsize ltac:(lia)). unfold pass_read.
    rewrite content_read_spec by (rewrite ?length_replicate; lia). exists (Z.max 0 (Z.min bs (fsize - off mod fsize))). split; [done|lia]. }
  unfold pass. assert (∀ m k t, Z.of_nat m * (perThread + bs) + t < 2 ^ 64 → 0 <= t →
    ∃ total, pass_threads gen cfg seed fsize bs perThread m k t = Some total ∧
      t + Z.of_nat m * perThread <= total <= t + Z.of_nat m * (perThread + bs - 1)) as H.
  { intros m. induction m as [|m IH]; intros k t Ht Ht0; cbn [pass_threads]; [exists t; split; [done|lia]|].
    destruct (Hthread k) as (d & -> & Hd). cbn [mbind option_bind]. rewrite u64_small by (split; [lia|nia]).
    destruct (IH (k + 1) (t + d)) as (total & -> & Htot); [nia|lia|]. exists total. split; [done|nia]. }
  destruct (H n 0 0) as (total & -> & Ht); [lia..|]. exists total. split; [done|lia].
Qed.

(** The store is left as it is, whatever the options. *)
Lemma perf_start_reads {M} `{!KvEngine M} gen reg prov hw (h : HostState M) r :
  perf_start gen reg prov hw h = Some r → r.2 = h ∧ (r.1 = OK ∨ r.1 = INVAL).
Proof. unfold perf_start. destruct (perf_run _ _ _ _ _ _) as [|[|]]; [intros [= <-]; auto..|done]. Qed.

(** ** Witnesses *)

Lemma sample_file_witness :
  ∃ s, sampleFile demo = Some s ∧ ∃ c ns, sm_node s = mkHandle c LATEST ∧ v_walk (vw demo) 1 ns = Some c ∧ is_file demo c ∧
      sm_seed s = n_contentSeed demo (sm_node s) ∧ sm_size s = n_size demo (sm_node s).
Proof.
  pose proof (sample_file demo demo_reachable) as H. unfold sampleFile.
  destruct (sample_loop BUDGET demo [rwRoot demo]) as [[s|] rest] eqn:E; [exists s; split; [reflexivity|exact H]|].
  assert (match (sample_loop BUDGET demo [rwRoot demo]).1 with Some _ => true | None => false end = true) as Hc by (vm_compute; reflexivity).
  rewrite E in Hc. discriminate Hc.
Defined.

Lemma perf_pass_total_witness :
  ∃ total, pass demo_gen demo_config 7 100 24 60 3 = Some total ∧ Z.of_nat 3 * 60 <= total <= Z.of_nat 3 * (60 + 24 - 1).
Proof. apply (perf_pass_total demo_gen demo_config 7 100 24 60 3); cbn; lia. Defined.
