(* ===== verification/Plugins.v ===== *)
(** * Plugins: the host with the plugins of the repository (the constructor,
    destructor and entry points at the end of each file of plugins/)

    The shared objects of the build, and what a whole run of the host with them
    does to the store. *)
From S2P Require Import Prelude Keys Kv NodeRec Spec Store Views Shape Inv Init Reads Paths StoreProps Content ContentProps Di Host Loader NfsSteps NfsProps Calls Bigtree BigtreeProps NfsConn LuaCtl Perf.
Local Open Scope Z_scope.
Set Warnings "-clear-no-such-hyp".

Section Plugins.
Context {M : Type} `{!KvEngine M} {R W : Type} `{!Draws R W}.
Context (gen : IRng) (reg : Registry Provider) (prov : bytes) (hw : Z) (bind_ok : bytes → bool).
Implicit Types (h : HostState M) (st : Store M).

Definition with_fs h st : HostState M := mkHost st (hs_options h) (hs_running h) (hs_ports h).
Definition bigtree_start h : option (Error * HostState M) :=
  '(e, st) ← start (R:=R) (W:=W) (hs_options h) (hs_fs h); Some (e, with_fs h st).
Definition bigtree_stop h : HostState M := h.
Definition bigtree_plugin : Plugin M := mkPlugin (str "bigtree") bigtree_start bigtree_stop.

(** The six plugins, and their shared objects in a directory. *)
Definition repo_plugins : list (Plugin M) :=
  [bigtree_plugin; luactl_plugin bind_ok; nfsv3_plugin; nfsv4_plugin; null_plugin; perf_plugin gen reg prov hw].
Definition image_of (p : Plugin M) : Image M := mkImage (Some ABI) (Some p) true.
Definition build_dlopen (dir : bytes) (path : bytes) : option (Image M) :=
  image_of <$> List.find (λ p, bool_decide (path = path_join dir (pl_name p ++ str ".so"))) repo_plugins.
Definition build_entries : list (bytes * bool) := (λ p, (pl_name p ++ str ".so", true)) <$> repo_plugins.

(** ** The store through a run *)

(** What bigtree does is bounded: it finds a tree and leaves it, its options
    are refused, or it builds in an empty store with room for it. *)
Definition bt_fits (o : Options) st : Prop :=
  (readdir st (rwRoot st) ≠ [] ∧ option_ o (str "bigtree.force") = []) ∨
  (bt_config o = None) ∨
  ∃ c, readdir st (rwRoot st) = [] ∧ bt_config o = Some c ∧ c_total c <= 2 ^ 53 ∧ bt_ops c < 2 ^ 31 ∧
       room (bt_ops c) st ∧ m_cur st + bt_rounds c + 1 < LATEST.
Lemma bigtree_start_reachable (o : Options) st e st' :
  reachable_from fresh_store st → bt_fits o st → start (R:=R) (W:=W) o st = Some (e, st') → reachable_from fresh_store st'.
Proof.
  intros Hr [[Hne Hf]|[Hn|(c & He & Hc & Ht & Ho & Hroom & Hcur)]] Hs.
  - unfold start in Hs. rewrite Hf, bool_decide_true, bool_decide_false in Hs by done. cbn [negb andb] in Hs. by simplify_eq.
  - unfold start in Hs. rewrite Hn in Hs. destruct (_ && _); by simplify_eq.
  - destruct (bt_config_range o c Hc) as [Ht0 Hrd].
    destruct (build_spec (R:=R) (W:=W) st c (mt19937_64 (c_seed c))) as (s & E & Hb & _); try done.
    unfold start in Hs. rewrite He, (bool_decide_true (@nil (bytes * Handle) = [])), Hc, andb_false_r, E in Hs by done.
    simpl in Hs. simplify_eq. apply Hb.
Qed.

(** The plugins of a deployed host: the default scan leaves [null.so] out. *)
Definition deployed (p : Plugin M) : Prop := p ∈ repo_plugins ∧ pl_name p ≠ str "null".

Lemma start_keeps_fs p h e h' :
  deployed p → pl_name p ≠ str "bigtree" → pl_start p h = Some (e, h') → hs_fs h' = hs_fs h ∧ hs_options h' = hs_options h.
Proof.
  unfold deployed, repo_plugins. rewrite !elem_of_cons. intros [Hin Hnull] Hne.
  destruct Hin as [->|[->|[->|[->|[->|[->|Hin%elem_of_nil]]]]]]; try done; simpl.
  - unfold luactl_start. repeat case_match; intros [= <- <-]; done.
  - unfold nfsv3_start, nfsv4_start, nfs_start. repeat case_match; intros [= <- <-]; done.
  - unfold nfsv3_start, nfsv4_start, nfs_start. repeat case_match; intros [= <- <-]; done.
  - unfold perf_start. repeat case_match; intros [= <- <-]; done.
Qed.
Lemma stop_keeps_fs p h : deployed p → hs_fs (pl_stop p h) = hs_fs h.
Proof.
  unfold deployed, repo_plugins. rewrite !elem_of_cons. intros [Hin _].
  destruct Hin as [->|[->|[->|[->|[->|[->|Hin%elem_of_nil]]]]]]; try done; simpl; unfold nfsv3_stop, nfsv4_stop, nfs_stop; by case_decide.
Qed.

End Plugins.

(** ** A deployed host *)

#[local] Existing Instance DemoDraws.
Definition demo_plugins : list (Plugin (gmap bytes bytes)) :=
  repo_plugins (R:=Z) (W:=Z) demo_gen Registry0 [] 4 (λ _, true).
(** The build directory next to the executable, without [null.so]; nothing
    happens while serving. *)
Definition deployed_env : Env (gmap bytes bytes) :=
  mkEnv (λ path, if bool_decide (path = str "/b/null.so") then None
                 else build_dlopen (R:=Z) (W:=Z) demo_gen Registry0 [] 4 (λ _, true) (str "/b") path)
        (λ d, if decide (d = str "/b") then Some (build_entries (R:=Z) (W:=Z) demo_gen Registry0 [] 4 (λ _, true)) else None)
        (Some (str "/b/prfs-host")) ∅ id.
Definition small_sets : list bytes :=
  [str "bigtree.depth=2"; str "bigtree.dirs=2"; str "bigtree.files=6"; str "bigtree.snapshots=1";
   str "perf.bytes=100"; str "perf.blocksize=64"; str "perf.threads=1"].
(** Nothing is named on the command line, so everything is discovered. *)
Definition discover_cli : Cli := mkCli (str "/tmp/s") true (str "memory") 20490 (-1) false [] [] [] small_sets.
Definition deployed_run : Z * option (Loader (gmap bytes bytes)) := main deployed_env demo_engines (str "lmdb") discover_cli.

(** The default discovery starts the services in the order of their names: the
    tree is built, the two NFS servers ask for the same port and the second
    fails, and the benchmark runs. *)
Lemma discovery_starts_all :
  match deployed_run with
  | (code, Some l) =>
      code = 0 ∧
      omap (λ e, match e with EvStart o ok => Some (o, ok) | _ => None end) (l_log l) =
        [(0, true); (1, true); (2, true); (3, false); (4, true)] ∧
      (readdir (hs_fs (l_host l)) (rwRoot (hs_fs (l_host l)))).*1 = [str "day-1"; str "dir-1"; str "dir-7"]
  | _ => False
  end.
Proof. vm_compute. split_and!; reflexivity. Qed.

Lemma deployed_images : images_ok (deployed (R:=Z) (W:=Z) demo_gen Registry0 [] 4 (λ _, true)) deployed_env.
Proof.
  intros path im p. cbn [e_dlopen deployed_env]. case_bool_decide as Hn; [done|]. unfold build_dlopen.
  destruct (List.find _ _) as [q|] eqn:E; [|done]. intros [= <-] [= <-]. apply find_some in E as [Hin Hp].
  apply bool_decide_eq_true in Hp. split; [by apply list_elem_of_In|]. intros Hname. apply Hn. rewrite Hp, Hname. reflexivity.
Qed.
