(* ===== verification/Options.v ===== *)
(** * Options: what the services say of their options ([IService::options] of
    include/prfs/plugin.hpp and of each plugin)

    Each service lists its options with a default; it does not read the list, and
    neither does the host: a default is written again where the option is read.
    Here the two are compared. *)
From S2P Require Import Prelude Keys Kv NodeRec Store Content Di Host Loader CStr Bigtree NfsConn LuaCtl Perf Plugins.
Local Open Scope Z_scope.
Set Warnings "-clear-no-such-hyp".

(** [struct Option] and the lists. *)
Record Option := mkOption { op_name : bytes; op_help : bytes; op_def : bytes; op_flag : bool }.
Definition bigtree_options : list Option :=
  [mkOption (str "bigtree.depth") (str "max tree depth") (str "4") false;
   mkOption (str "bigtree.dirs") (str "up to this many subdirs per dir") (str "5") false;
   mkOption (str "bigtree.files") (str "up to this many files per dir") (str "8") false;
   mkOption (str "bigtree.total") (str "target total logical size (K/M/G/T/P suffix ok)") (str "1T") false;
   mkOption (str "bigtree.seed") (str "RNG seed — same seed builds the same tree") (str "42") false;
   mkOption (str "bigtree.snapshots") (str "daily snapshot rounds after the base snapshot") (str "3") false;
   mkOption (str "bigtree.force") (str "build even if the store is already populated") [] true].
Definition perf_options : list Option :=
  [mkOption (str "perf.bytes") (str "bytes generated per thread (K/M/G/T suffix ok)") (str "1G") false;
   mkOption (str "perf.threads") (str "worker threads (0 = hardware concurrency)") (str "0") false;
   mkOption (str "perf.blocksize") (str "generation chunk per call") (str "1M") false;
   mkOption (str "perf.seed") (str "content seed (default: a real file's seed)") [] false;
   mkOption (str "perf.size") (str "logical file size fed to the generator (default: a real file's)") [] false].
Definition luactl_options : list Option :=
  [mkOption (str "control") (str "unix socket path for the Lua console") DEFAULT_SOCK false].
Definition nfsv3_options : list Option := [mkOption (str "port") (str "TCP port to serve NFSv3/MOUNT on") (str "2049") false].
Definition nfsv4_options : list Option := [mkOption (str "port") (str "TCP port to serve NFSv4 on") (str "2049") false].
Definition null_options : list Option := [mkOption (str "note") (str "a note this front-end records") (str "hi") false].
Definition service_options (name : bytes) : list Option :=
  if decide (name = str "bigtree") then bigtree_options
  else if decide (name = str "perf") then perf_options
  else if decide (name = str "luactl") then luactl_options
  else if decide (name = str "nfsv3") then nfsv3_options
  else if decide (name = str "nfsv4") then nfsv4_options
  else if decide (name = str "null") then null_options
  else [].

(** The options with every default of a list written out where there is no
    value; a flag has none. *)
Definition preset_one (p : Option) (o : Options) : Options :=
  if negb (op_flag p) && bool_decide (option_ o (op_name p) = []) then setOption o (op_name p) (op_def p) else o.
Definition preset (l : list Option) (o : Options) : Options :=
  foldr preset_one o l.
Definition def_of (l : list Option) (key : bytes) : bytes :=
  match List.find (λ p, bool_decide (op_name p = key) && negb (op_flag p)) l with Some p => op_def p | None => [] end.

Lemma option_set o k v k' : option_ (setOption o k v) k' = if decide (k = k') then v else option_ o k'.
Proof.
  unfold option_, setOption, Options in *.
  case_decide as H; [subst; by rewrite lookup_insert_eq|by rewrite lookup_insert_ne].
Qed.
Lemma option_preset l o key :
  NoDup (op_name <$> l) → option_ (preset l o) key = match option_ o key with [] => def_of l key | v => v end.
Proof.
  induction l as [|p l IH]; [cbn; by destruct (option_ o key)|]. change (preset (p :: l) o) with (preset_one p (preset l o)).
  unfold preset_one. intros [Hp Hnd]%NoDup_cons. specialize (IH Hnd).
  unfold def_of in *. cbn. destruct (decide (op_name p = key)) as [<-|Hk].
  - rewrite (bool_decide_true (op_name p = op_name p)) by done. cbn [andb].
    assert (List.find (λ q, bool_decide (op_name q = op_name p) && negb (op_flag q)) l = None) as Hf.
    { destruct (List.find _ l) as [q|] eqn:E; [|done]. apply List.find_some in E as [Hin [Hq _]%andb_true_iff].
      apply bool_decide_eq_true in Hq. contradict Hp. rewrite <- Hq. apply list_elem_of_fmap. exists q.
      split; [done|by apply list_elem_of_In]. }
    rewrite Hf in IH. destruct (op_flag p); cbn; [by rewrite Hf, IH|]. case_bool_decide as Ho.
    + rewrite option_set, decide_True by done. rewrite IH in Ho. by destruct (option_ o (op_name p)).
    + rewrite IH in *. by destruct (option_ o (op_name p)).
  - rewrite (bool_decide_false (op_name p = key)) by done. cbn [andb]. rewrite <- IH. destruct (negb _ && _); [|done].
    by rewrite option_set, decide_False.
Qed.

Lemma opt_preset l o key def :
  NoDup (op_name <$> l) → def_of l key = def → match option_ (preset l o) key with [] => def | v => v end = match option_ o key with [] => def | v => v end.
Proof. intros Hnd Hd. rewrite option_preset, Hd by done. destruct (option_ o key); [by destruct def|done]. Qed.
Ltac nodup := by apply (bool_decide_eq_true (NoDup _)); vm_compute.

Section Services.
Context {M : Type} `{!KvEngine M} {R W : Type} `{!Draws R W}.
Context (gen : IRng) (reg : Registry Provider) (prov : bytes) (hw : Z) (bind_ok : bytes → bool).
Implicit Types (h : HostState M) (o : Options).

(** With the defaults of a service's own list. *)
Definition presets (name : bytes) (o : Options) : Options := preset (service_options name) o.
Lemma opt_presets name o key def :
  NoDup (op_name <$> service_options name) → def_of (service_options name) key = def →
  match option_ (presets name o) key with [] => def | v => v end = match option_ o key with [] => def | v => v end.
Proof. apply opt_preset. Qed.
Lemma bt_config_presets o : bt_config (presets (str "bigtree") o) = bt_config o.
Proof.
  unfold bt_config, optInt.
  assert (∀ k d, def_of bigtree_options k = d → Bigtree.opt (presets (str "bigtree") o) k d = Bigtree.opt o k d) as H
    by (intros k d Hd; unfold Bigtree.opt; apply opt_presets; [nodup|exact Hd]).
  by rewrite !H by reflexivity.
Qed.
Lemma keeps_unset name o k :
  NoDup (op_name <$> service_options name) → def_of (service_options name) k = [] → option_ (presets name o) k = option_ o k.
Proof. intros Hnd Hd. unfold presets. rewrite option_preset, Hd by done. by destruct (option_ o k). Qed.
Lemma ctl_path_presets o : ctl_path (presets (str "luactl") o) = ctl_path o.
Proof.
  assert (∀ o, ctl_path o = match option_ o (str "control") with [] => DEFAULT_SOCK | v => v end) as E
    by (intros o'; unfold ctl_path; by destruct (option_ o' _)).
  rewrite !E. apply opt_presets; [nodup|done].
Qed.
Lemma nfs_port_presets name o : name = str "nfsv3" ∨ name = str "nfsv4" → nfs_port (presets name o) = nfs_port o.
Proof.
  intros Hn. assert (∀ o, nfs_port o = atoi (match option_ o (str "port") with [] => str "2049" | v => v end) mod 2 ^ 16) as E
    by (intros o'; unfold nfs_port; by destruct (option_ o' _)).
  rewrite !E. do 2 f_equal. apply opt_presets; destruct Hn as [-> | ->]; first [nodup|done].
Qed.
Lemma perf_config_presets o s : perf_config hw (presets (str "perf") o) s = perf_config hw o s.
Proof.
  unfold perf_config.
  assert (∀ k d, def_of perf_options k = d → opt (presets (str "perf") o) k d = opt o k d) as H
    by (intros k d Hd; unfold opt; apply opt_presets; [nodup|exact Hd]).
  assert (∀ k, def_of perf_options k = [] → option_ (presets (str "perf") o) k = option_ o k) as H0
    by (intros k Hd; apply keeps_unset; [nodup|exact Hd]).
  rewrite (H (str "perf.bytes") (str "1G") eq_refl), (H (str "perf.blocksize") (str "1M") eq_refl),
    (H (str "perf.threads") (str "0") eq_refl).
  unfold opt. by rewrite !H0 by reflexivity.
Qed.

(** A plugin that is given its advertised defaults starts as one that is given
    nothing: what is written in the lists and where the options are read agree. *)
Definition with_options h o : HostState M := mkHost (hs_fs h) o (hs_running h) (hs_ports h).
Theorem advertised_defaults p h :
  p ∈ repo_plugins (R:=R) (W:=W) gen reg prov hw bind_ok →
  pl_start p (with_options h (presets (pl_name p) (hs_options h))) =
    (λ '(e, h'), (e, with_options h' (presets (pl_name p) (hs_options h')))) <$> pl_start p h.
Proof.
  unfold repo_plugins. rewrite !elem_of_cons. intros [->|[->|[->|[->|[->|[->|[]%elem_of_nil]]]]]]; 
    cbn [pl_start pl_name bigtree_plugin luactl_plugin nfsv3_plugin nfsv4_plugin null_plugin perf_plugin].
  - unfold bigtree_start, start. cbn [hs_options hs_fs with_options]. rewrite bt_config_presets.
    rewrite (keeps_unset (str "bigtree") _ (str "bigtree.force")) by (nodup || done).
    destruct (_ && _); [done|]. destruct (bt_config _) as [c|]; [|done]. by destruct (build _ _ _) as [[? ?]|].
  - unfold luactl_start. cbn [hs_options hs_fs hs_running hs_ports with_options].
    rewrite ctl_path_presets. destruct (_ <=? _)%nat; [done|]. by destruct (bind_ok _).
  - unfold nfsv3_start, nfs_start. cbn [hs_options hs_fs hs_running hs_ports with_options].
    rewrite nfs_port_presets by auto. by case_decide.
  - unfold nfsv4_start, nfs_start. cbn [hs_options hs_fs hs_running hs_ports with_options].
    rewrite nfs_port_presets by auto. by case_decide.
  - done.
  - unfold perf_start, perf_run. cbn [hs_options hs_fs with_options]. destruct (match contentConfig _ with [] => _ | _ => _ end); [|done].
    rewrite perf_config_presets. destruct (perf_config _ _ _); [|done].
    by match goal with |- context [match ?A with Some _ => Some (OK, _) | None => None end] => destruct A end.
Qed.
End Services.
